(* ===== verification/_CoqProject ===== *)
-Q . S2P
Prelude.v
Coding.v
Strings.v
Status.v
Bytes.v
LogRecord.v
FileIO.v
DataFile.v
SkipList.v
SkipListProofs.v
SkipListSpec.v
Index.v
DB.v
DBFiles.v
DBReplay.v
DBOpen.v
Batch.v
DBSpec.v
DBTheorems.v
Serializer.v
Packet.v
Rpc.v
RaftStorage.v
Raft.v
RaftNode.v
RaftCluster.v
RaftInvariant.v
RaftSafety.v
RaftElection.v
Json.v
JsonText.v
JsonTotal.v
Timer.v
Http.v
HttpParse.v
Arena.v
Threads.v
ThreadPool.v
BlockingQueue.v
Buffers.v
Logger.v
QueuePools.v
Coroutine.v
EventLoop.v
BlockingClient.v
Random.v
SerializerTypes.v
Reflection.v
Runtime.v
TcpServer.v
HttpFile.v
RaftThreads.v
Sockets.v
RpcTyped.v
Helpers.v
QueueBuffer.v
