(* ===== verification/Prelude.v ===== *)
(** * bitdb: a verification development

    bitdb (src/bitdb) is a Bitcask-style key-value store in C++20 with the libraries it
    brings along: a serializer, an RPC layer on coroutines, Raft, JSON, HTTP and timers.
    A database directory holds append-only data files of log records; every live key
    has an entry in an in-memory index that says where its record lies; opening a
    directory replays the files into the index.

    ** Files

    - Prelude.v (this file): machine integers, bytes, the state-and-error monad [M] with
      its outcomes, decimal numbers, key orders.
    - Coding.v (utils/coding), Bytes.v (utils/bytes.h), Strings.v (common/string_utils,
      common/format.h), Status.v (status): the helpers.
    - LogRecord.v (data/log_record, data/transaction_record), FileIO.v (io/file_io,
      utils/os_utils.h), DataFile.v (data/data_file): records, the host's files with
      calls that may fail, and data files on them.
    - SkipList.v, SkipListProofs.v, SkipListSpec.v (ds/skiplist.h): nodes in a heap of
      pointers, the structural invariant, the contract as a finite map.
    - Index.v (index/): the three indexers and the interface [Indexer] the database uses.
    - DB.v, Batch.v (db.cpp, batch.cpp): every operation of the database and of write
      batches.  DBFiles.v, DBReplay.v, DBOpen.v: what the data files hold and how they
      are replayed.  DBSpec.v, DBTheorems.v: the finite-map specification and the
      refinement, then the theorems on errors.
    - Serializer.v (codec/serializer.h), Packet.v (net/io_awaiter), Rpc.v (net/rpc): a
      [Codec] per overload with the class [RoundTrip], packets on a connection whose
      reads and writes are cut up and repeated at will, remote calls.
      SerializerTypes.v (codec/type_helper.h): codes for the C++ types, the traits on
      them, which overload a call resolves to and the codec it becomes.  RpcTyped.v
      (net/rpc/invoke_helper.h): remote calls of functions of any such type.
    - RaftStorage.v, Raft.v (raft/): messages, storage and the handlers of one node.
      RaftNode.v: what each handler does.  RaftCluster.v: clusters as a transition
      system in which requests and answers are delayed, repeated and lost.
      RaftInvariant.v, RaftSafety.v, RaftElection.v: invariants of all runs.
      RaftThreads.v: the four background threads of a node from Start to Stop.
    - Json.v (common/json): values, printer, parser.  JsonText.v: printed documents are
      read back.  JsonTotal.v: when the parser answers, and when it runs for ever.
    - Timer.v (timer/timer.h): the timer heap and its runs.
    - Arena.v (utils/arena): the memory arena over an allocator.  Random.v
      (utils/random.h): draws and their ranges.
    - Http.v (net/http): requests, responses, routes, the server loop on the connection
      of Packet.v and the timers of Timer.v.  HttpParse.v: what the parser reads.
      HttpFile.v: SendFile and SetStaticPath.
    - Threads.v: runs of transition systems in which threads interleave.  On it:
      ThreadPool.v (common/thread_pool.h), BlockingQueue.v (common/blocking_queue.h),
      Buffers.v (common/spin_lock.h, the ring buffer of common/buffer.h), QueueBuffer.v
      (Buffer and QueueBuffer of common/buffer.h), Logger.v
      (common/logger_impl.h), QueuePools.v (co/co_thread_pool,
      common/blocking_queue_thread_pool.h), Coroutine.v (co/task.h, co/scheduler),
      EventLoop.v (net/event_manager, net/socket.h, the awaiters of net/io_awaiter.h, the
      closing of a connection).
      Runtime.v puts the pool of QueuePools.v and the frames of Coroutine.v together;
      TcpServer.v (net/tcp/tcp_server, tcp_acceptor, AcceptAwaiter) runs the accept loop
      on the event loop.
    - BlockingClient.v (the blocking client of net/rpc/rpc_client.h, connecting in
      net/tcp/tcp_client.cpp).  Sockets.v (net/socket, net/tcp/tcp_connection): who
      closes a descriptor.
    - Reflection.v (utils/reflection.h): the names of enumerators.  Helpers.v
      (utils/defer.h, common/singleton.h, timer/time_utils.h, io/io_interface.h).

    ** How code is modelled

    A function is a Rocq function of the same name; one that changes state or fails is
    a computation [M S E A]: it gives a value ([Ret]), a Status that is not Ok or an
    exception ([Throw]), or leaves defined behaviour ([Undef], with the reason), and the
    state it has changed by then.  Integers are [Z] with the wrap-around written out
    ([u32], [u64], [s32]); bytes are [Byte.byte].  Objects reached through pointers live
    in explicit heaps (skip list nodes, files of the host, nodes of a cluster, coroutine
    frames).  Concurrent code is a transition system: an event is what one thread does
    between two points where others may move, a locked region is one event, a thread in
    a condition variable sleeps until it is notified or wakes up by itself, and theorems
    are about every sequence of events.  Code
    that is not in the repository is a parameter with the behaviour it is relied on as a
    hypothesis: crc32c, random numbers, the order of directory entries and of
    unordered maps, operator new, the conversion of doubles, readings of the clock, what
    epoll reports, commands and state machines of Raft, bound RPC functions, HTTP handlers.

    ** Theorems

    - Storage: without host faults, for data without NUL, the database refines a finite
      map over sessions of puts, gets, deletes, batches of puts (also interrupted ones)
      and reopenings without the merge (DBTheorems.db_refines_map), for every indexer; the indexers agree (Index.indexers_agree); the skip list refines a
      finite map and its iterator visits it in order (SkipListSpec); codecs of records,
      positions and transaction keys with the exact ranges in which they invert each
      other (Coding, LogRecord).  The theorems on errors show where merge, batches and
      recovery leave what they promise.
    - Communication: whatever the bytes, deserialize returns values of its type only, and
      it inverts serialize (SerializerTypes); packets and remote calls arrive unchanged
      whatever the socket does (Packet.packet_roundtrip, Rpc.rpc_server_in_order), so a
      remote call of a function of any serializable type is a local one
      (RpcTyped.typed_rpc_is_local); the blocking client's calls are when headers are not
      cut or put off and answers are below 2^31 bytes
      (BlockingClient.blocking_call_transparent); connections are accepted once
      and in order (TcpServer.accept_loop_serves) and their descriptors closed once, or the
      process ends (Sockets.connection_life).
    - Concurrency: items leave queues in order (BlockingQueue.blocking_queue_fifo); the
      event loop loses no wake-up while the connection is open and the code's races do not
      occur (EventLoop.event_loop_wakes); pools run every
      task once and always come to an end of their work (ThreadPool, QueuePools); the
      logger writes lines in order, behind what its files held, and flushes them while
      files can be opened and written (Logger); coroutine frames implement
      threads in which co_await is a call, without a use after free or a leak
      (Coroutine.coroutines_refine_threads), and on the pool none of them is forgotten
      (Runtime.runtime_forgets_nothing); the linked buffer keeps the order of its values and
      takes one buffer of them (QueueBuffer.queue_buffer_fills_once).  The examples in these
      files are the interleavings in which the code does less than it promises.
    - Raft: with every call given its own answer, all runs of a cluster are defined
      (RaftSafety.raft_runs_defined); a
      term has at most one leader when votes arrive in the election they answer
      (RaftElection.election_safety) and two when they do not; what RequestVote and
      AppendEntries do (RaftNode); that nothing is ever applied
      (RaftSafety.nothing_is_applied); what a reloaded storage holds
      (RaftStorage.storage_reload); Stop ends the threads (RaftThreads.raft_stop_returns).
    - JSON: round trip, totality on texts whose comments end, divergence on others.
    - Timers: heap order in all runs, and which task a turn starts.
    - Memory: the regions an arena gives out are disjoint and aligned.
    - HTTP: round trip of requests, the loop on a closed connection, and what a client
      that asks for a file gets (HttpFile.send_file_sends).

    ** Fuel

    Loops that are not structural take a fuel argument and end in [Undef OutOfFuel]
    when it is used up.  The fuels are computed from the data they work on (the length
    of a string, a file or a heap, the bytes and events of a socket), and the theorems
    that say a call returns prove that they are enough; for the loops that really do
    not end (JsonTotal.json_open_comment_diverges) no fuel is.

    ** Bounds

    Files, logs and heaps are shorter than 2^31 elements where an index is a 32-bit
    integer; the hypotheses say so.  In the cluster model of Raft a request and its
    answer are paired as the RPC layer pairs them when no call times out (after a timeout
    rpc_client.h does not send a retried request again) and no two calls are on
    one connection at a time; the code has nothing that keeps them apart, and
    RaftSafety.Examples.answer_of_another_call shows what happens then.  The stack is
    unbounded: the array of variable length in DataFile::ReadNBytes has the size that is
    asked for, and recursion any depth.

    ** Not modelled

    The setters of socket options and the conversions of addresses (net/socket.cpp,
    net/inet_address.h, net/util.h) are a system call each, and so is pinning threads to
    cores.  Weak memory is not modelled: reads and writes of shared variables, also of
    the unprotected stop_ of the logger, are single events.  The locks of the database
    and of Raft are taken for granted: their operations run one at a time.  Buffer of
    common/buffer.h has no default constructor, so that QueueBuffer cannot be
    instantiated, and its items are never allocated; its model takes what the constructor
    makes as a parameter.  Log files have no other writer, and numbers of closed descriptors
    are not used again.  common/noncopyable.h and
    the aliases of ds/hashmap.h and ds/treemap.h have no behaviour of their own. *)

From Stdlib Require Export ZArith Lia.
From Stdlib Require Import Init.Byte Strings.Byte String.
From stdpp Require Export base gmap fin_maps sets sorting option.
From stdpp Require Export strings numbers list.

(** ** Machine integers *)

Definition u8 (z : Z) : Z := z mod 2 ^ 8.
Definition u16 (z : Z) : Z := z mod 2 ^ 16.
Definition u32 (z : Z) : Z := z mod 2 ^ 32.
Definition u64 (z : Z) : Z := z mod 2 ^ 64.

(** [int32_t], [int]: two's complement, as C++20 fixes it. *)
Definition s32 (z : Z) : Z := (z + 2 ^ 31) mod 2 ^ 32 - 2 ^ 31.

(** ** Bytes *)

Abbreviation byte := Byte.byte.
Abbreviation bytes := (list Byte.byte).

#[export] Instance byte_eq_dec : EqDecision byte.
Proof. intros x y. destruct (Byte.byte_eq_dec x y); [by left|by right]. Defined.

#[export] Program Instance byte_countable : Countable byte :=
    inj_countable Byte.to_N Byte.of_N _.
  Next Obligation. intros x. apply Byte.of_to_N. Qed.

#[export] Instance byte_inhabited : Inhabited byte := populate x00.

(** [static_cast<uint8_t>] of a char, as a number, and back. *)
Definition b2z (b : byte) : Z := Z.of_N (Byte.to_N b).
Definition z2b (z : Z) : byte := default x00 (Byte.of_N (Z.to_N (u8 z))).

(** The bytes of a C++ string literal. *)
Definition lit (s : string) : bytes := String.list_byte_of_string s.
Arguments lit _%_string_scope.

Lemma b2z_range b : (0 <= b2z b < 256)%Z.
Proof. unfold b2z. pose proof (Byte.to_N_bounded b). lia. Qed.

Lemma b2z_z2b z : b2z (z2b z) = u8 z.
Proof.
  unfold b2z, z2b. assert (0 <= u8 z < 256)%Z by (apply Z.mod_pos_bound; lia).
  destruct (Byte.of_N (Z.to_N (u8 z))) as [b|] eqn:E; simpl.
  - apply Byte.to_of_N in E. rewrite E. lia.
  - apply Byte.of_N_None_iff in E. lia.
Qed.

Lemma z2b_b2z b : z2b (b2z b) = b.
Proof.
  unfold z2b. unfold u8. rewrite (Z.mod_small (b2z b)) by apply b2z_range.
  unfold b2z. by rewrite N2Z.id, Byte.of_to_N.
Qed.

#[export] Instance b2z_inj : Inj (=) (=) b2z.
Proof. intros x y H. by rewrite <-(z2b_b2z x), H, z2b_b2z. Qed.

(** A fact about one byte, by trying its 256 values. *)
Ltac byte_cases b := destruct b; vm_compute; first [reflexivity | discriminate | auto].

(** ** Bit operations as arithmetic *)

Lemma land_shiftl_disjoint a b n :
  (0 <= n)%Z -> (0 <= a < 2 ^ n)%Z -> Z.land a (Z.shiftl b n) = 0%Z.
Proof.
  intros Hn Ha. apply Z.bits_inj'. intros i Hi.
  rewrite Z.land_spec, Z.bits_0. destruct (Z.lt_ge_cases i n).
  - by rewrite Z.shiftl_spec_low, andb_false_r.
  - by rewrite <-(Z.mod_small a (2 ^ n)), Z.mod_pow2_bits_high by lia.
Qed.

Lemma lor_shiftl_add a b n :
  (0 <= n)%Z -> (0 <= a < 2 ^ n)%Z -> Z.lor a (Z.shiftl b n) = (a + b * 2 ^ n)%Z.
Proof.
  intros Hn Ha. pose proof (land_shiftl_disjoint a b n Hn Ha) as D.
  rewrite <-Z.lxor_lor, <-Z.add_nocarry_lxor by done.
  by rewrite Z.shiftl_mul_pow2.
Qed.

Lemma lor_mod_pow2 a b n :
  (0 <= n)%Z -> (Z.lor a b mod 2 ^ n = Z.lor (a mod 2 ^ n) (b mod 2 ^ n))%Z.
Proof.
  intros Hn. rewrite <-!Z.land_ones by lia. apply Z.bits_inj'. intros i Hi.
  rewrite !Z.land_spec, !Z.lor_spec, !Z.land_spec.
  by destruct (Z.testbit a i), (Z.testbit b i), (Z.testbit _ i).
Qed.

Lemma s32_small z : (- 2 ^ 31 <= z < 2 ^ 31)%Z -> s32 z = z.
Proof. intros. unfold s32. rewrite Z.mod_small; lia. Qed.

Lemma s32_range z : (- 2 ^ 31 <= s32 z < 2 ^ 31)%Z.
Proof. unfold s32. pose proof (Z.mod_pos_bound (z + 2 ^ 31) (2 ^ 32)). lia. Qed.

Lemma u32_s32 z : u32 (s32 z) = u32 z.
Proof.
  unfold u32, s32. rewrite Zminus_mod_idemp_l. f_equal. lia.
Qed.

(** ** Outcomes and the state-and-error monad *)

(** Where C++ code leaves its defined behaviour, or ends the process. *)
Inductive undefined :=
| NullDeref | OutOfBounds | AssertFailed | ProcessExit | UncaughtException | OutOfFuel
| SignedOverflow | BadRepresentation.

(** A call returns a value, fails with an error (a [Status] that is not Ok, an
    exception), or leaves defined behaviour. *)
Inductive outcome (E A : Type) :=
| Ret (a : A)
| Throw (e : E)
| Undef (u : undefined).
Arguments Ret {E A} _.
Arguments Throw {E A} _.
Arguments Undef {E A} _.

(** A computation on a state [S] that fails with [E]; the state a failing call
    has already changed stays changed. *)
Definition M (S E A : Type) : Type := S -> outcome E A * S.

#[export] Instance M_ret {S E} : MRet (M S E) := fun A a s => (Ret a, s).
#[export] Instance M_bind {S E} : MBind (M S E) := fun A B k m s =>
  match m s with
  | (Ret a, s') => k a s'
  | (Throw e, s') => (Throw e, s')
  | (Undef u, s') => (Undef u, s')
  end.

Section monad_ops.
Context {S E : Type}.
Definition throw {A} (e : E) : M S E A := fun s => (Throw e, s).
Definition undef {A} (u : undefined) : M S E A := fun s => (Undef u, s).
Definition get : M S E S := fun s => (Ret s, s).
Definition put (s : S) : M S E unit := fun _ => (Ret tt, s).
Definition gets {A} (f : S -> A) : M S E A := fun s => (Ret (f s), s).
Definition modify (f : S -> S) : M S E unit := fun s => (Ret tt, f s).
Definition some_or {A} (u : undefined) (o : option A) : M S E A :=
  match o with Some a => mret a | None => undef u end.
Definition when (b : bool) (m : M S E unit) : M S E unit :=
  if b then m else mret tt.

Lemma bind_ret {A B} (a : A) (k : A -> M S E B) s :
  (x ← mret a; k x) s = k a s.
Proof. done. Qed.
Lemma bind_get {B} (k : S -> M S E B) s : (x ← get; k x) s = k s s.
Proof. done. Qed.
Lemma bind_put {B} (t : S) (k : unit -> M S E B) s : (x ← put t; k x) s = k tt t.
Proof. done. Qed.
Lemma bind_gets {A B} (f : S -> A) (k : A -> M S E B) s :
  (x ← gets f; k x) s = k (f s) s.
Proof. done. Qed.
Lemma bind_modify {B} (f : S -> S) (k : unit -> M S E B) s :
  (x ← modify f; k x) s = k tt (f s).
Proof. done. Qed.
Lemma bind_some {A B} u (a : A) (k : A -> M S E B) s :
  (x ← some_or u (Some a); k x) s = k a s.
Proof. done. Qed.
Lemma bind_assoc {A B C} (m : M S E A) (f : A -> M S E B) (g : B -> M S E C) s :
  (y ← (x ← m; f x); g y) s = (x ← m; y ← f x; g y) s.
Proof. unfold mbind, M_bind. by destruct (m s) as [[] ?]. Qed.
Lemma bind_Ret {A B} (m : M S E A) (k : A -> M S E B) s a s' :
  m s = (Ret a, s') -> (x ← m; k x) s = k a s'.
Proof. unfold mbind, M_bind. by intros ->. Qed.
Lemma bind_Throw {A B} (m : M S E A) (k : A -> M S E B) s e s' :
  m s = (Throw e, s') -> (x ← m; k x) s = (Throw e, s').
Proof. unfold mbind, M_bind. by intros ->. Qed.
Lemma bind_Undef {A B} (m : M S E A) (k : A -> M S E B) s u s' :
  m s = (Undef u, s') -> (x ← m; k x) s = (Undef u, s').
Proof. unfold mbind, M_bind. by intros ->. Qed.
Lemma bind_inv {A B} (m : M S E A) (k : A -> M S E B) s b s'' :
  (x ← m; k x) s = (Ret b, s'') ->
  exists a s', m s = (Ret a, s') /\ k a s' = (Ret b, s'').
Proof. unfold mbind, M_bind. destruct (m s) as [[] ?]; naive_solver. Qed.
End monad_ops.

(** Running a computation on a part of the state. *)
Definition zoom {S T E A} (view : S -> T) (upd : S -> T -> S) (m : M T E A)
    : M S E A :=
  fun s => let '(r, t) := m (view s) in (r, upd s t).

Lemma zoom_Ret {S T E A} (view : S -> T) upd (m : M T E A) s a t :
  m (view s) = (Ret a, t) -> zoom view upd m s = (Ret a, upd s t).
Proof. unfold zoom. by intros ->. Qed.

(** A scope guard: the deferred call runs when the computation returns, early
    or not. *)
Definition defer {S E A} (d : M S E unit) (m : M S E A) : M S E A :=
  fun s =>
    match m s with
    | (Undef u, s') => (Undef u, s')
    | (r, s') =>
        match d s' with
        | (Undef u, s'') => (Undef u, s'')
        | (_, s'') => (r, s'')
        end
    end.

Create Rewrite HintDb monad.
#[export] Hint Rewrite @bind_ret @bind_get @bind_put @bind_gets @bind_modify
  @bind_some : monad.

(** One step of a computation whose next call is known to return, and the
    inversion of a computation that returned. *)
Ltac mstep H := rewrite (bind_Ret _ _ _ _ _ H); autorewrite with monad.
Ltac minv H :=
  let a := fresh "a" in let s := fresh "s" in let H1 := fresh "Hm" in
  apply bind_inv in H as (a & s & H1 & H).

(** ** C strings *)

(** [std::string] made from a C string: the bytes before the first NUL; [None] when
    there is none in the readable memory. *)
Fixpoint c_str (mem : bytes) : option bytes :=
  match mem with
  | [] => None
  | b :: mem => if decide (b = x00) then Some [] else cons b <$> c_str mem
  end.

Abbreviation NUL := Byte.x00.

Lemma c_str_no_nul s rest : NUL ∉ s -> c_str (s ++ NUL :: rest) = Some s.
Proof.
  induction s as [|b s IH]; intros Hs; simpl; [done|].
  apply not_elem_of_cons in Hs as [Hb Hs]. rewrite decide_False by congruence.
  by rewrite IH.
Qed.

Lemma c_str_inv mem s : c_str mem = Some s -> (NUL ∉ s) /\ exists rest, mem = s ++ NUL :: rest.
Proof.
  revert s. induction mem as [|b mem IH]; intros s; simpl; [done|].
  destruct (decide (b = x00)) as [->|Hb].
  - intros [= <-]. split; [by apply not_elem_of_nil|]. by exists mem.
  - intros (s' & E & ->)%fmap_Some. destruct (IH _ E) as (Hn & rest & ->).
    split; [|by exists rest]. apply not_elem_of_cons. split; [congruence|done].
Qed.

(** ** Decimal numbers: [std::to_string] and [std::stoi] *)

Definition is_digit (b : byte) : bool := (48 <=? b2z b)%Z && (b2z b <=? 57)%Z.

Fixpoint digits_of (fuel : nat) (n : Z) (acc : bytes) : bytes :=
  match fuel with
  | O => acc
  | S fuel =>
      let acc := z2b (48 + n mod 10) :: acc in
      if (n <? 10)%Z then acc else digits_of fuel (n / 10) acc
  end.

(** [std::to_string] of an unsigned number; 20 digits hold 64 bits. *)
Definition to_string (n : Z) : bytes := digits_of 20 n [].

(** The value of the decimal digits at the front of a string, with the number
    of digits read. *)
Fixpoint read_digits (acc : Z) (cnt : nat) (s : bytes) : Z * nat :=
  match s with
  | b :: s => if is_digit b then read_digits (acc * 10 + (b2z b - 48)) (S cnt) s
              else (acc, cnt)
  | [] => (acc, cnt)
  end.

Definition is_space (b : byte) : bool :=
  (b2z b =? 32)%Z || ((9 <=? b2z b)%Z && (b2z b <=? 13)%Z).

Fixpoint skip_spaces (s : bytes) : bytes :=
  match s with b :: s' => if is_space b then skip_spaces s' else s | [] => [] end.

(** [std::stoi]: [None] is an exception, for want of a digit or of 32 bits. *)
Definition stoi (s : bytes) : option Z :=
  let '(neg, s) := match skip_spaces s with
                   | b :: s' => if (b2z b =? 45)%Z then (true, s')
                                else if (b2z b =? 43)%Z then (false, s') else (false, b :: s')
                   | [] => (false, []) end in
  let '(v, cnt) := read_digits 0 0 s in
  let v := if neg then (- v)%Z else v in
  if decide (cnt = 0) then None
  else if decide (- 2 ^ 31 <= v < 2 ^ 31)%Z then Some v else None.

Lemma is_digit_z2b d : (0 <= d < 10)%Z -> is_digit (z2b (48 + d)) = true /\ b2z (z2b (48 + d)) = (48 + d)%Z.
Proof.
  intros Hd. unfold is_digit. rewrite b2z_z2b. unfold u8. rewrite Z.mod_small by lia.
  split; [|done]. apply andb_true_iff. rewrite !Z.leb_le. lia.
Qed.

(** The digits put before [acc], and their value. *)
Lemma digits_of_spec fuel : forall n acc, (0 <= n < 10 ^ Z.of_nat fuel)%Z -> (0 < fuel) ->
  exists ds, digits_of fuel n acc = ds ++ acc /\ Forall (fun b => is_digit b = true) ds
    /\ 0 < length ds
    /\ forall a c rest, read_digits a c (ds ++ rest)
         = read_digits (a * 10 ^ Z.of_nat (length ds) + n)%Z (c + length ds) rest.
Proof.
  induction fuel as [|fuel IH]; intros n acc Hn Hf; [lia|]. cbn [digits_of].
  assert (Hmod : (0 <= n mod 10 < 10)%Z) by (apply Z.mod_pos_bound; lia).
  pose proof (is_digit_z2b _ Hmod) as [Hd1 Hd2].
  assert (Hlast : forall a c rest, read_digits a c (z2b (48 + n mod 10) :: rest)
    = read_digits (a * 10 + n mod 10) (S c) rest).
  { intros a c rest. cbn [read_digits]. rewrite Hd1, Hd2. f_equal. lia. }
  destruct (Z.ltb_spec n 10) as [Hlt|Hge].
  - exists [z2b (48 + n mod 10)]. split_and!; [done|by constructor|simpl; lia|]. intros a c rest.
    simpl app. rewrite Hlast. simpl length. rewrite Z.pow_1_r, (Z.mod_small n) by lia.
    by rewrite Nat.add_1_r.
  - assert (0 < fuel) by (destruct fuel; [simpl in Hn|]; lia).
    destruct (IH (n / 10)%Z (z2b (48 + n mod 10) :: acc)) as (ds & -> & Hds & Hl & Hr); [|done|].
    { split; [apply Z.div_pos; lia|]. apply Z.div_lt_upper_bound; [lia|].
      rewrite <-Z.pow_succ_r by lia. rewrite Nat2Z.inj_succ in Hn. lia. }
    exists (ds ++ [z2b (48 + n mod 10)]). rewrite <-app_assoc, length_app. split_and!; [done|..].
    + apply Forall_app. split; [done|by constructor].
    + simpl. lia.
    + intros a c rest. rewrite <-app_assoc, Hr. simpl app. rewrite Hlast. f_equal; [|simpl; lia].
      simpl length. rewrite Nat2Z.inj_add, Z.pow_add_r by lia. simpl Z.of_nat.
      rewrite Z.pow_1_r. pose proof (Z.div_mod n 10). nia.
Qed.

Lemma to_string_spec n : (0 <= n < 10 ^ 20)%Z ->
  Forall (fun b => is_digit b = true) (to_string n) /\ 0 < length (to_string n)
  /\ forall a c rest, read_digits a c (to_string n ++ rest)
       = read_digits (a * 10 ^ Z.of_nat (length (to_string n)) + n)%Z (c + length (to_string n)) rest.
Proof.
  intros Hn. destruct (digits_of_spec 20 n []) as (ds & E & Hd & Hl & Hr); [done|lia|].
  rewrite app_nil_r in E. unfold to_string. by rewrite E.
Qed.

Lemma to_string_inj m n : (0 <= m < 10 ^ 20)%Z -> (0 <= n < 10 ^ 20)%Z ->
  to_string m = to_string n -> m = n.
Proof.
  intros Hm Hn E. destruct (to_string_spec m Hm) as (_ & _ & Em).
  destruct (to_string_spec n Hn) as (_ & _ & En).
  specialize (Em 0%Z 0 []). specialize (En 0%Z 0 []). rewrite E in Em. rewrite Em in En.
  by injection En.
Qed.

(** [std::stoi] reads back a number followed by something that is no digit. *)
Lemma stoi_to_string n b rest : (0 <= n < 2 ^ 31)%Z -> is_digit b = false ->
  stoi (to_string n ++ b :: rest) = Some n.
Proof.
  intros Hn Hb. destruct (to_string_spec n ltac:(lia)) as (Hd & Hl & Hr).
  unfold stoi. pose proof (Hr 0%Z 0 (b :: rest)) as E.
  destruct (to_string n) as [|d ds] eqn:Es; [simpl in Hl; lia|]. clear Hr.
  apply Forall_cons in Hd as [Hd _]. cbn [app skip_spaces].
  assert (48 <= b2z d <= 57)%Z as Hr.
  { unfold is_digit in Hd. rewrite andb_true_iff, !Z.leb_le in Hd. lia. }
  assert (is_space d = false) as ->.
  { unfold is_space. apply orb_false_iff. rewrite andb_false_iff, Z.eqb_neq, !Z.leb_gt. lia. }
  rewrite !(proj2 (Z.eqb_neq _ _)) by lia. change (d :: ds ++ b :: rest) with ((d :: ds) ++ b :: rest).
  rewrite E. cbn [read_digits]. rewrite Hb, decide_False by lia. by rewrite decide_True by lia.
Qed.

(** ** Strict total orders on keys *)

(** What [<] on a key type of an ordered container promises. *)
Class KeyOrder (K : Type) `{EqDecision K} := {
  key_ltb : K -> K -> bool;
  key_lt_irrefl : forall k, key_ltb k k = false;
  key_lt_trans : forall a b c, key_ltb a b = true -> key_ltb b c = true -> key_ltb a c = true;
  key_lt_total : forall a b, key_ltb a b = false -> key_ltb b a = false -> a = b
}.

Lemma key_lt_asym `{KeyOrder K} (a b : K) : key_ltb a b = true -> key_ltb b a = false.
Proof.
  intros Hab. apply not_true_iff_false. intros Hba.
  pose proof (key_lt_trans _ _ _ Hab Hba). by rewrite key_lt_irrefl in *.
Qed.

Lemma key_lt_ne `{KeyOrder K} (a b : K) : key_ltb a b = true -> a ≠ b.
Proof. intros Hab ->. by rewrite key_lt_irrefl in Hab. Qed.

(** [operator<] of [std::string]: lexicographic, bytes as [unsigned char]. *)
Fixpoint bytes_ltb (a b : bytes) : bool :=
  match a, b with
  | _, [] => false
  | [], _ => true
  | x :: a, y :: b => if decide (x = y) then bytes_ltb a b else (b2z x <? b2z y)%Z
  end.

Lemma bytes_ltb_irrefl a : bytes_ltb a a = false.
Proof. induction a as [|x a IH]; [done|]. simpl. by rewrite decide_True. Qed.

Lemma bytes_ltb_trans a b c :
  bytes_ltb a b = true -> bytes_ltb b c = true -> bytes_ltb a c = true.
Proof.
  revert b c. induction a as [|x a IH]; intros [|y b] [|z c]; simpl; try done.
  repeat case_decide; subst; rewrite ?Z.ltb_lt; try congruence; try lia; try by eauto.
Qed.

Lemma bytes_ltb_total a b : bytes_ltb a b = false -> bytes_ltb b a = false -> a = b.
Proof.
  revert b. induction a as [|x a IH]; intros [|y b]; simpl; try done.
  repeat case_decide; subst; try congruence; [intros; f_equal; by apply IH|].
  rewrite !Z.ltb_ge. intros. assert (x = y) by (apply (inj b2z); lia). congruence.
Qed.

#[export] Instance bytes_KeyOrder : KeyOrder bytes := {|
  key_ltb := bytes_ltb;
  key_lt_irrefl := bytes_ltb_irrefl;
  key_lt_trans := bytes_ltb_trans;
  key_lt_total := bytes_ltb_total
|}.

(** Closes a decidable closed goal by evaluating its decision procedure. *)
Ltac vm_decide := refine (bool_decide_unpack _ _); vm_compute; exact I.
