(* ===== verification/Coding.v ===== *)
(** * Integer codecs (src/bitdb/utils/coding.h, coding.cpp)

    Variable-length and fixed-width integers.  A [char*] the source reads from
    is the list of bytes from that address to the end of the readable memory;
    a decoder answers [None] where the C++ function leaves defined behaviour
    (it reads past that memory, or shifts an [int] by its width or more). *)

From S2P Require Import Prelude.
Local Open Scope Z_scope.

(** ** Definitions *)

Definition K_MAX_VARINT32_LEN : Z := 4.
Definition K_MAX_VARINT64_LEN : Z := 8.

(** The [while (value >= 0x80)] loop both encoders share; [fuel] bounds its
    iterations (5 for 32 bits, 10 for 64: [encode_varint_step] shows that
    the bound is never hit). *)
Fixpoint encode_varint (fuel : nat) (value : Z) : bytes :=
  match fuel with
  | O => []
  | S fuel =>
      if value >=? 0x80
      then z2b (Z.lor value 0x80) :: encode_varint fuel (Z.shiftr value 7)
      else [z2b value]
  end.

(** The bytes written at [dst]; their number is the returned length. *)
Definition EncodeVarint32 (value : Z) : bytes := encode_varint 5 value.
Definition EncodeVarint64 (value : Z) : bytes := encode_varint 10 value.

(** [x << bitsize] on [int]: the [uint8_t] operand is promoted first. *)
Definition int_shl (x bitsize : Z) : option Z :=
  if bitsize <? 32 then Some (s32 (Z.shiftl x bitsize)) else None.

(** The decoders' loop: [wrap] converts the shifted [int] to the type of
    [result] before the [|=]; the answer is [*value] and the bytes consumed. *)
Fixpoint decode_varint (wrap : Z -> Z) (src : bytes) (bitsize result n : Z)
    : option (Z * Z) :=
  match src with
  | [] => None
  | b :: src =>
      if negb (Z.land (b2z b) 0x80 =? 0) then
        x ← int_shl (Z.lxor (b2z b) 0x80) bitsize;
        decode_varint wrap src (bitsize + 7) (Z.lor result (wrap x)) (n + 1)
      else
        x ← int_shl (b2z b) bitsize;
        Some (Z.lor result (wrap x), n + 1)
  end.

Definition DecodeVarint32 (src : bytes) : option (Z * Z) :=
  decode_varint u32 src 0 0 0.
Definition DecodeVarint64 (src : bytes) : option (Z * Z) :=
  decode_varint u64 src 0 0 0.

Definition EncodeFixed32 (value : Z) : bytes :=
  [z2b value; z2b (Z.shiftr value 8); z2b (Z.shiftr value 16);
   z2b (Z.shiftr value 24)].

Definition EncodeFixed64 (value : Z) : bytes :=
  [z2b value; z2b (Z.shiftr value 8); z2b (Z.shiftr value 16);
   z2b (Z.shiftr value 24); z2b (Z.shiftr value 32); z2b (Z.shiftr value 40);
   z2b (Z.shiftr value 48); z2b (Z.shiftr value 56)].

Definition DecodeFixed32 (ptr : bytes) : option Z :=
  match ptr with
  | b0 :: b1 :: b2 :: b3 :: _ =>
      Some (Z.lor (Z.lor (Z.lor (b2z b0) (Z.shiftl (b2z b1) 8))
        (Z.shiftl (b2z b2) 16)) (Z.shiftl (b2z b3) 24))
  | _ => None
  end.

Definition DecodeFixed64 (ptr : bytes) : option Z :=
  match ptr with
  | b0 :: b1 :: b2 :: b3 :: b4 :: b5 :: b6 :: b7 :: _ =>
      Some (Z.lor (Z.lor (Z.lor (Z.lor (Z.lor (Z.lor (Z.lor (b2z b0)
        (Z.shiftl (b2z b1) 8)) (Z.shiftl (b2z b2) 16))
        (Z.shiftl (b2z b3) 24)) (Z.shiftl (b2z b4) 32))
        (Z.shiftl (b2z b5) 40)) (Z.shiftl (b2z b6) 48))
        (Z.shiftl (b2z b7) 56))
  | _ => None
  end.

(** ** Varint lemmas *)

Lemma b2z_cont v : 0 <= v -> b2z (z2b (Z.lor v 0x80)) = 128 + v mod 128.
Proof.
  intros Hv. rewrite b2z_z2b. unfold u8. rewrite lor_mod_pow2 by lia.
  rewrite <-(Z.mod_small (v mod 2 ^ 8) (2 ^ 8)) by (apply Z.mod_pos_bound; lia).
  fold (u8 (v mod 2 ^ 8)). rewrite <-b2z_z2b.
  replace (v mod 128) with (b2z (z2b v) mod 128)
    by (rewrite b2z_z2b; unfold u8; by rewrite Z.mod_mod_divide by (by exists 2)).
  replace (z2b (v mod 2 ^ 8)) with (z2b v)
    by (apply (inj b2z); rewrite !b2z_z2b; unfold u8; by rewrite Z.mod_mod by lia).
  generalize (z2b v) as b. intros b. byte_cases b.
Qed.

Lemma cont_bit b : negb (Z.land (b2z b) 0x80 =? 0) = (128 <=? b2z b).
Proof. byte_cases b. Qed.

Lemma lxor_80 b :
  Z.lxor (b2z b) 0x80 = if 128 <=? b2z b then b2z b - 128 else b2z b + 128.
Proof. byte_cases b. Qed.

(** The loop as the source writes it: every iteration of an encoder started
    with enough fuel unfolds to the loop body. *)
Lemma encode_varint_step fuel v :
  0 <= v < 2 ^ (7 * Z.of_nat (S fuel)) ->
  encode_varint (S fuel) v =
    if 128 <=? v then z2b (Z.lor v 0x80) :: encode_varint fuel (v / 128) else [z2b v].
Proof.
  intros Hv. simpl. rewrite Z.shiftr_div_pow2, Z.geb_leb by lia. done.
Qed.

Lemma encode_varint_fuel fuel v :
  0 <= v < 2 ^ (7 * Z.of_nat (S fuel)) -> 128 <= v ->
  0 <= v / 128 < 2 ^ (7 * Z.of_nat fuel) /\ (0 < fuel)%nat.
Proof.
  intros Hv H128. destruct fuel as [|fuel]; [simpl in Hv; lia|].
  rewrite Nat2Z.inj_succ, Z.mul_succ_r, Z.pow_add_r in Hv by lia.
  split; [|lia]. split; [apply Z.div_pos; lia|].
  apply Z.div_lt_upper_bound; lia.
Qed.

Lemma decode_last wrap b rest bitsize r n :
  b2z b < 128 -> bitsize < 32 ->
  decode_varint wrap (b :: rest) bitsize r n
  = Some (Z.lor r (wrap (s32 (Z.shiftl (b2z b) bitsize))), n + 1).
Proof.
  intros Hb Hs. cbn [decode_varint]. rewrite cont_bit.
  destruct (Z.leb_spec 128 (b2z b)); [lia|].
  unfold int_shl. destruct (Z.ltb_spec bitsize 32); [done|lia].
Qed.

Lemma decode_cont wrap b rest bitsize r n :
  128 <= b2z b -> bitsize < 32 ->
  decode_varint wrap (b :: rest) bitsize r n
  = decode_varint wrap rest (bitsize + 7)
      (Z.lor r (wrap (s32 (Z.shiftl (b2z b - 128) bitsize)))) (n + 1).
Proof.
  intros Hb Hs. cbn [decode_varint]. rewrite cont_bit, lxor_80.
  destruct (Z.leb_spec 128 (b2z b)); [|lia].
  unfold int_shl. destruct (Z.ltb_spec bitsize 32); [done|lia].
Qed.

Section decode_encode.
(** [wrap] is the conversion of an [int] to the result type; it is exact on
    what the code shifts below [W]. *)
Context (wrap : Z -> Z) (W : Z).
Context (HW : W <= 2 ^ 32) (Hwrap : forall x, 0 <= x < W -> wrap (s32 x) = x).

Lemma lor_chunk r x bitsize :
  0 <= bitsize -> 0 <= r < 2 ^ bitsize -> 0 <= x -> x * 2 ^ bitsize < W ->
  Z.lor r (wrap (s32 (Z.shiftl x bitsize))) = r + x * 2 ^ bitsize.
Proof using HW Hwrap.
  intros Hb Hr Hx Hlt. rewrite Hwrap; [by apply lor_shiftl_add|].
  rewrite Z.shiftl_mul_pow2 by lia. nia.
Qed.

Lemma decode_encode fuel : forall v bitsize r n rest,
  0 <= v < 2 ^ (7 * Z.of_nat fuel) -> (0 < fuel)%nat -> 0 <= bitsize < 32 ->
  0 <= r < 2 ^ bitsize -> v * 2 ^ bitsize < W ->
  decode_varint wrap (encode_varint fuel v ++ rest) bitsize r n
  = Some (r + v * 2 ^ bitsize, n + Z.of_nat (length (encode_varint fuel v))).
Proof using HW Hwrap.
  induction fuel as [|fuel IH]; intros v bitsize r n rest Hv Hf Hb Hr Hlt; [lia|].
  rewrite encode_varint_step by done. destruct (Z.leb_spec 128 v) as [H128|H128].
  - destruct (encode_varint_fuel _ _ Hv H128) as [Hv' Hf'].
    pose proof (b2z_cont v ltac:(lia)) as Eb.
    pose proof (Z.mod_pos_bound v 128). pose proof (Z.div_mod v 128).
    assert (0 < 2 ^ bitsize) by lia.
    assert (E7 : 2 ^ (bitsize + 7) = 2 ^ bitsize * 128) by (rewrite Z.pow_add_r; lia).
    assert (Hb7 : bitsize + 7 < 32)
      by (apply (Z.pow_lt_mono_r_iff 2); [lia..|]; rewrite E7; nia).
    rewrite <-app_comm_cons, decode_cont, Eb by lia.
    replace (128 + v mod 128 - 128) with (v mod 128) by lia.
    rewrite lor_chunk by nia.
    rewrite IH by (try rewrite E7; nia).
    rewrite E7. f_equal. f_equal; [nia|]. cbn [length]. lia.
  - pose proof (b2z_z2b v) as Eb. unfold u8 in Eb. rewrite Z.mod_small in Eb by lia.
    simpl app. rewrite decode_last, Eb, lor_chunk by lia. done.
Qed.
End decode_encode.

Lemma encode_varint_length fuel v :
  (0 < fuel)%nat -> (1 <= length (encode_varint fuel v) <= fuel)%nat.
Proof.
  revert v. induction fuel as [|fuel IH]; intros v Hf; [lia|]. simpl.
  destruct (v >=? 128); simpl; [|lia].
  destruct fuel; [simpl; lia|]. specialize (IH (Z.shiftr v 7)). lia.
Qed.

(** The encoded size grows by one byte every seven bits. *)
Lemma encode_varint_length_le fuel k v :
  0 <= v < 2 ^ (7 * Z.of_nat fuel) -> (0 < k)%nat ->
  (length (encode_varint fuel v) <= k)%nat <-> v < 2 ^ (7 * Z.of_nat k).
Proof.
  revert k v. induction fuel as [|fuel IH]; intros k v Hv Hk.
  { simpl in *. split; [|lia]. assert (0 < 2 ^ (7 * Z.of_nat k)) by lia. lia. }
  rewrite encode_varint_step by done. destruct (Z.leb_spec 128 v) as [H128|H128].
  - destruct (encode_varint_fuel _ _ Hv H128) as [Hv' Hf'].
    destruct k as [|k]; [lia|]. destruct k as [|k].
    { pose proof (encode_varint_length fuel (v / 128) Hf'). simpl length.
      change (2 ^ (7 * Z.of_nat 1)) with 128. lia. }
    simpl length. rewrite <-Nat.succ_le_mono, IH by lia.
    replace (7 * Z.of_nat (S (S k))) with (7 * Z.of_nat (S k) + 7) by lia.
    rewrite Z.pow_add_r by lia. pose proof (Z.div_mod v 128). pose proof (Z.mod_pos_bound v 128).
    change (2 ^ 7) with 128. nia.
  - simpl length. assert (2 ^ 7 <= 2 ^ (7 * Z.of_nat k)) by (apply Z.pow_le_mono_r; lia). lia.
Qed.

(** A 64-bit result is always the sign extension of an [int]. *)
Lemma decode64_sign src : forall bitsize t n v m,
  - 2 ^ 31 <= t < 2 ^ 31 ->
  decode_varint u64 src bitsize (u64 t) n = Some (v, m) ->
  exists t', - 2 ^ 31 <= t' < 2 ^ 31 /\ v = u64 t'.
Proof.
  assert (Hlor : forall a x, - 2 ^ 31 <= a < 2 ^ 31 -> exists t',
    - 2 ^ 31 <= t' < 2 ^ 31 /\ Z.lor (u64 a) (u64 (s32 x)) = u64 t').
  { intros a x Ha. exists (Z.lor a (s32 x)). unfold u64. rewrite lor_mod_pow2 by lia.
    split; [|done]. pose proof (s32_range x) as Hx.
    rewrite Z.bounded_iff_bits in Ha, Hx by lia. rewrite Z.bounded_iff_bits by lia.
    intros l Hl. rewrite Z.lor_spec, Ha, Hx by done.
    repeat case_bool_decide; pose proof (Z.lor_neg a (s32 x)); simpl; tauto. }
  induction src as [|b src IH]; intros bitsize t n v m Ht; [done|].
  cbn [decode_varint]. unfold int_shl.
  destruct (negb _), (bitsize <? 32); simpl; intros E; simplify_eq.
  - destruct (Hlor t (Z.shiftl (Z.lxor (b2z b) 128) bitsize) Ht) as (t' & Ht' & E').
    rewrite E' in E. by eapply IH.
  - by apply Hlor.
Qed.

(** Every byte consumed was shifted by less than the width of [int]. *)
Lemma decode_consumed wrap src : forall bitsize r n v m,
  decode_varint wrap src bitsize r n = Some (v, m) -> 7 * (m - n - 1) + bitsize < 32.
Proof.
  induction src as [|b src IH]; intros bitsize r n v m; [done|].
  cbn [decode_varint]. unfold int_shl.
  destruct (negb _), (Z.ltb_spec bitsize 32); simpl; intros E; simplify_eq.
  - apply IH in E. lia.
  - lia.
Qed.

(** A decoder stops exactly where the encoder stopped. *)
Lemma decode_encode_consumed wrap fuel : forall v bitsize r n rest x m,
  0 <= v < 2 ^ (7 * Z.of_nat fuel) -> (0 < fuel)%nat ->
  decode_varint wrap (encode_varint fuel v ++ rest) bitsize r n = Some (x, m) ->
  m = n + Z.of_nat (length (encode_varint fuel v)).
Proof.
  induction fuel as [|fuel IH]; intros v bitsize r n rest x m Hv Hf; [lia|].
  rewrite encode_varint_step by done. destruct (Z.leb_spec 128 v) as [H128|H128].
  - destruct (encode_varint_fuel _ _ Hv H128) as [Hv' Hf']. cbn [app decode_varint].
    rewrite cont_bit, b2z_cont by lia. pose proof (Z.mod_pos_bound v 128).
    destruct (Z.leb_spec 128 (128 + v mod 128)); [|lia].
    destruct (int_shl _ _); [|done]. cbn [mbind option_bind].
    intros E%IH; [|done..]. simpl length. lia.
  - cbn [app decode_varint]. rewrite cont_bit, b2z_z2b. unfold u8.
    rewrite Z.mod_small by lia. destruct (Z.leb_spec 128 v); [lia|].
    destruct (int_shl _ _); [|done]. cbn [mbind option_bind]. intros [= <- <-]. simpl. lia.
Qed.

Lemma varint64_exact v rest m :
  0 <= v < 2 ^ 64 -> DecodeVarint64 (EncodeVarint64 v ++ rest) = Some (v, m) -> v < 2 ^ 31.
Proof.
  intros Hv E. pose proof (decode_consumed _ _ _ _ _ _ _ E) as Hc.
  destruct (decode64_sign _ 0 0 0 _ _ ltac:(lia) E) as (t & Ht & Ev).
  apply decode_encode_consumed in E; [|lia..].
  destruct (Z.lt_ge_cases t 0).
  - assert (v < 2 ^ (7 * Z.of_nat 5)).
    { apply (encode_varint_length_le 10); lia. }
    unfold u64 in Ev. rewrite <-(Z.mod_add t 1), Z.mod_small in Ev by lia. clear E Hc. simpl in *. lia.
  - unfold u64 in Ev. rewrite Z.mod_small in Ev by lia. lia.
Qed.

Lemma varint32_roundtrip v rest :
  0 <= v < 2 ^ 32 ->
  DecodeVarint32 (EncodeVarint32 v ++ rest)
  = Some (v, Z.of_nat (length (EncodeVarint32 v))).
Proof.
  intros Hv. unfold DecodeVarint32, EncodeVarint32.
  rewrite (decode_encode u32 (2 ^ 32)); [f_equal; f_equal; lia|lia| |simpl; lia..].
  intros x Hx. rewrite u32_s32. by apply Z.mod_small.
Qed.

Lemma varint64_roundtrip v rest :
  0 <= v < 2 ^ 31 ->
  DecodeVarint64 (EncodeVarint64 v ++ rest)
  = Some (v, Z.of_nat (length (EncodeVarint64 v))).
Proof.
  intros Hv. unfold DecodeVarint64, EncodeVarint64.
  rewrite (decode_encode u64 (2 ^ 31)); [f_equal; f_equal; lia|lia| |simpl; lia..].
  intros x Hx. rewrite s32_small by lia. apply Z.mod_small. lia.
Qed.

(** ** Fixed-width lemmas: both codecs are the little-endian number codec *)

Fixpoint le_split (n : nat) (v : Z) : bytes :=
  match n with O => [] | S n => z2b v :: le_split n (v / 256) end.

Fixpoint le_join (bs : bytes) : Z :=
  match bs with [] => 0 | b :: bs => b2z b + 256 * le_join bs end.

Lemma le_split_length n v : length (le_split n v) = n.
Proof. revert v. induction n; intros v; simpl; [done|by f_equal]. Qed.

Lemma le_join_range bs : 0 <= le_join bs < 256 ^ Z.of_nat (length bs).
Proof.
  induction bs as [|b bs IH]; simpl length; [simpl; lia|].
  rewrite Nat2Z.inj_succ, Z.pow_succ_r by lia. simpl. pose proof (b2z_range b). lia.
Qed.

Lemma le_join_split n v : 0 <= v < 256 ^ Z.of_nat n -> le_join (le_split n v) = v.
Proof.
  revert v. induction n as [|n IH]; intros v Hv; [simpl in *; lia|].
  rewrite Nat2Z.inj_succ, Z.pow_succ_r in Hv by lia. simpl.
  rewrite IH, b2z_z2b by (split; [apply Z.div_pos; lia|apply Z.div_lt_upper_bound; lia]).
  unfold u8. pose proof (Z.div_mod v 256). change (2 ^ 8) with 256. lia.
Qed.

Lemma le_split_join bs : le_split (length bs) (le_join bs) = bs.
Proof.
  induction bs as [|b bs IH]; [done|]. simpl. pose proof (b2z_range b).
  replace ((b2z b + 256 * le_join bs) / 256) with (le_join bs)
    by (rewrite Z.mul_comm, Z.div_add, Z.div_small by lia; done).
  rewrite IH. f_equal. rewrite <-(z2b_b2z b) at 2. apply (inj b2z). rewrite !b2z_z2b.
  unfold u8. by rewrite Z.mul_comm, Z.mod_add by lia.
Qed.

Lemma EncodeFixed32_split v : EncodeFixed32 v = le_split 4 v.
Proof.
  unfold EncodeFixed32. rewrite !Z.shiftr_div_pow2 by lia. simpl.
  by rewrite !Z.div_div by lia.
Qed.

Lemma EncodeFixed64_split v : EncodeFixed64 v = le_split 8 v.
Proof.
  unfold EncodeFixed64. rewrite !Z.shiftr_div_pow2 by lia. simpl.
  by rewrite !Z.div_div by lia.
Qed.

Lemma le_join_cons b bs :
  le_join (b :: bs) = Z.lor (b2z b) (Z.shiftl (le_join bs) 8).
Proof. pose proof (b2z_range b). rewrite lor_shiftl_add by lia. simpl. lia. Qed.

Ltac fixed_join :=
  cbn [app DecodeFixed32 DecodeFixed64]; f_equal; rewrite !le_join_cons; cbn [le_join];
  rewrite !Z.shiftl_lor, !Z.shiftl_shiftl, !Z.shiftl_0_l, Z.lor_0_r, !Z.lor_assoc by lia;
  reflexivity.

Lemma DecodeFixed32_join bs rest :
  length bs = 4%nat -> DecodeFixed32 (bs ++ rest) = Some (le_join bs).
Proof.
  destruct bs as [|b0 [|b1 [|b2 [|b3 [|]]]]]; try done. intros _. fixed_join.
Qed.

Lemma DecodeFixed64_join bs rest :
  length bs = 8%nat -> DecodeFixed64 (bs ++ rest) = Some (le_join bs).
Proof.
  destruct bs as [|b0 [|b1 [|b2 [|b3 [|b4 [|b5 [|b6 [|b7 [|]]]]]]]]]; try done.
  intros _. fixed_join.
Qed.

Lemma fixed32_roundtrip v rest :
  0 <= v < 2 ^ 32 -> DecodeFixed32 (EncodeFixed32 v ++ rest) = Some v.
Proof.
  intros Hv. rewrite EncodeFixed32_split, DecodeFixed32_join by apply le_split_length.
  f_equal. apply le_join_split. simpl. lia.
Qed.

(** ** Properties *)

(** C26: every [uint32_t] survives [EncodeVarint32] and [DecodeVarint32],
    whatever bytes follow it in the buffer, the decoder reports exactly the
    number of bytes the encoder wrote, and that number is between 1 and 5. *)
Theorem varint32_codec (v : Z) (rest : bytes) :
  0 <= v < 2 ^ 32 ->
  DecodeVarint32 (EncodeVarint32 v ++ rest)
    = Some (v, Z.of_nat (length (EncodeVarint32 v)))
  /\ (1 <= length (EncodeVarint32 v) <= 5)%nat.
Proof.
  intros Hv. split; [by apply varint32_roundtrip|]. apply encode_varint_length. lia.
Qed.

Lemma varint32_codec_witness :
  DecodeVarint32 (EncodeVarint32 300 ++ [z2b 7]) = Some (300, 2)
  /\ (1 <= length (EncodeVarint32 300) <= 5)%nat.
Proof. apply (varint32_codec 300 [z2b 7]). lia. Defined.

(** C27: [DecodeVarint64] inverts [EncodeVarint64] exactly on the values below
    2^31: it shifts an [int], so a 64-bit value with a higher bit set comes
    back sign-extended, truncated, or not at all. *)
Theorem varint64_codec (v : Z) (rest : bytes) :
  0 <= v < 2 ^ 64 ->
  DecodeVarint64 (EncodeVarint64 v ++ rest)
    = Some (v, Z.of_nat (length (EncodeVarint64 v)))
  <-> v < 2 ^ 31.
Proof.
  intros Hv. split; [by apply varint64_exact|]. intros. apply varint64_roundtrip. lia.
Qed.

Lemma varint64_codec_witness :
  DecodeVarint64 (EncodeVarint64 (2 ^ 31) ++ [])
    = Some (2 ^ 31, Z.of_nat (length (EncodeVarint64 (2 ^ 31)))) <-> 2 ^ 31 < 2 ^ 31.
Proof. apply (varint64_codec (2 ^ 31) []). lia. Defined.

(** The fixed-width codecs are inverse to each other: a value of the
    width is decoded back from its bytes (whatever follows them), and any 4
    or 8 bytes are re-encoded from the value decoded from them. *)
Lemma fixed_codec (v32 v64 : Z) (b4 b8 rest : bytes) :
  0 <= v32 < 2 ^ 32 -> 0 <= v64 < 2 ^ 64 ->
  length b4 = 4%nat -> length b8 = 8%nat ->
  DecodeFixed32 (EncodeFixed32 v32 ++ rest) = Some v32
  /\ DecodeFixed64 (EncodeFixed64 v64 ++ rest) = Some v64
  /\ (EncodeFixed32 <$> DecodeFixed32 (b4 ++ rest)) = Some b4
  /\ (EncodeFixed64 <$> DecodeFixed64 (b8 ++ rest)) = Some b8.
Proof.
  intros H32 H64 L4 L8. split_and!.
  - by apply fixed32_roundtrip.
  - rewrite EncodeFixed64_split, DecodeFixed64_join by apply le_split_length.
    f_equal. apply le_join_split. simpl. lia.
  - rewrite DecodeFixed32_join by done. simpl.
    by rewrite EncodeFixed32_split, <-L4, le_split_join.
  - rewrite DecodeFixed64_join by done. simpl.
    by rewrite EncodeFixed64_split, <-L8, le_split_join.
Qed.

Lemma fixed_codec_witness :
  DecodeFixed32 (EncodeFixed32 305419896 ++ [z2b 1]) = Some 305419896
  /\ DecodeFixed64 (EncodeFixed64 (2 ^ 63 + 5) ++ [z2b 1]) = Some (2 ^ 63 + 5)
  /\ (EncodeFixed32 <$> DecodeFixed32 (lit "abcd" ++ [z2b 1])) = Some (lit "abcd")
  /\ (EncodeFixed64 <$> DecodeFixed64 (lit "abcdefgh" ++ [z2b 1])) = Some (lit "abcdefgh").
Proof. apply fixed_codec; [lia|lia|reflexivity|reflexivity]. Defined.
