(* ===== verification/Strings.v ===== *)
(** * String helpers (src/bitdb/common/string_utils.cpp, common/format.h)

    The helpers the rest of the program builds its file names, its HTTP parser
    and its router keys with.  A [std::string_view] is the list of its bytes;
    [find] and its kin answer [None] for [npos]. *)

From S2P Require Import Prelude.

(** ** The standard library's searches *)

(** [s.find(sub)]: the first position at which [sub] occurs. *)
Fixpoint find_sub (sub s : bytes) : option nat :=
  if decide (sub `prefix_of` s) then Some 0
  else match s with [] => None | _ :: s => S <$> find_sub sub s end.

(** [s.find(sub, pos)]. *)
Definition find_from (sub : bytes) (pos : nat) (s : bytes) : option nat :=
  if decide (pos <= length s) then Nat.add pos <$> find_sub sub (drop pos s)
  else None.

(** [s.find_first_not_of(c)] and [s.find_last_not_of(c)]. *)
Fixpoint find_first_not_of (c : byte) (s : bytes) : option nat :=
  match s with
  | [] => None
  | b :: s => if decide (b = c) then S <$> find_first_not_of c s else Some 0
  end.

Definition find_last_not_of (c : byte) (s : bytes) : option nat :=
  (fun i => length s - 1 - i) <$> find_first_not_of c (reverse s).

(** [s.find_last_of(c)]. *)
Fixpoint find_last_of (c : byte) (s : bytes) : option nat :=
  match s with
  | [] => None
  | b :: s =>
      match find_last_of c s with
      | Some i => Some (S i)
      | None => if decide (b = c) then Some 0 else None
      end
  end.

(** [s.substr(pos, n)]; [n = None] is [npos]. *)
Definition substr (pos : nat) (n : option nat) (s : bytes) : bytes :=
  match n with Some n => take n (drop pos s) | None => drop pos s end.

(** ** string_utils.cpp *)

Module String.

Fixpoint join_tail (delim : bytes) (parts : list bytes) : bytes :=
  match parts with [] => [] | p :: ps => delim ++ p ++ join_tail delim ps end.

(** JoinImpl: nothing when the parts and delimiters have no byte at all. *)
Definition Join (parts : list bytes) (delim : bytes) : bytes :=
  let size := sum_list ((fun item => length item + length delim) <$> parts) in
  if decide (size = 0) then []
  else match parts with [] => [] | p :: ps => p ++ join_tail delim ps end.

Definition StartsWith (str prefix : bytes) : bool :=
  bool_decide (length prefix <= length str)
  && bool_decide (substr 0 (Some (length prefix)) str = prefix).

Definition EndsWith (str suffix : bytes) : bool :=
  bool_decide (length suffix <= length str)
  && bool_decide (substr (length str - length suffix) None str = suffix).

(** The loop of Replace; [p] is the position of the next occurrence. *)
Fixpoint replace_loop (from to_ : bytes) (count : nat) (p : option nat)
    (target : bytes) : bytes :=
  match p, count with
  | Some p, S count =>
      let target := take p target ++ to_ ++ drop (p + length from) target in
      replace_loop from to_ count (find_from from (p + length to_) target) target
  | _, _ => target
  end.

Definition Replace (target from to_ : bytes) (count : nat) : bytes :=
  replace_loop from to_ count (find_sub from target) target.

Definition Trim (str : bytes) : bytes :=
  match str, last str with
  | front :: _, Some back =>
      let start := if decide (front = z2b 32)
                   then find_first_not_of (z2b 32) str else Some 0 in
      match start with
      | None => []
      | Some start =>
          (* a non-blank exists, so find_last_not_of does not answer npos *)
          let end_ := if decide (back = z2b 32)
                      then default 0 (find_last_not_of (z2b 32) str)
                      else length str in
          substr start (Some (end_ - start + 1)) str
      end
  | _, _ => []
  end.

(** The loop of Split on [current]; [None] when [fuel] runs out, which a
    non-empty delimiter excludes. *)
Fixpoint split_loop (fuel : nat) (delim : bytes) (keep_empty : bool)
    (current : bytes) : option (list bytes) :=
  match fuel with
  | O => None
  | S fuel =>
      let pos := find_sub delim current in
      let piece := if bool_decide (pos ≠ Some 0) || keep_empty
                   then [substr 0 pos current] else [] in
      match pos with
      | None => Some piece
      | Some p =>
          let current := drop (p + length delim) current in
          match current with
          | [] => Some (piece ++ if keep_empty then [[]] else [])
          | _ => app piece <$> split_loop fuel delim keep_empty current
          end
      end
  end.

Definition Split (str delim : bytes) (keep_empty : bool) : option (list bytes) :=
  match str with
  | [] => Some []
  | _ => split_loop (S (length str)) delim keep_empty str
  end.

Definition Contains (str target : bytes) : bool :=
  if decide (str = target) then true
  else match str, target with
       | [], _ => false
       | _, [] => true
       | _, _ => bool_decide (is_Some (find_sub target str))
       end.

End String.

(** ** format.h *)

(** FormatHelper: the text before the first braces and the argument go to the
    stream, the text after them remains. *)
Definition FormatHelper (oss str value : bytes) : bytes * bytes :=
  match find_sub (lit "{") str with
  | None => (oss, str)
  | Some open_bracket =>
      match find_from (lit "}") (open_bracket + 1) str with
      | None => (oss, str)
      | Some close_bracket =>
          (oss ++ substr 0 (Some open_bracket) str ++ value,
           substr (close_bracket + 1) None str)
      end
  end.

Fixpoint format_args (oss str : bytes) (args : list bytes) : bytes :=
  match args with
  | [] => oss ++ str
  | a :: args => let '(oss, str) := FormatHelper oss str a in format_args oss str args
  end.

(** Format, its arguments already printed. *)
Definition Format (str : bytes) (args : list bytes) : bytes := format_args [] str args.

(** PathBase (src/bitdb/utils/os_utils.h): what follows the last slash. *)
Definition PathBase (full_path : bytes) : bytes :=
  match find_last_of (z2b 47) full_path with
  | Some last_slash => substr (last_slash + 1) None full_path
  | None => full_path
  end.

(** ** Lemmas *)

Lemma find_sub_Some sub s i :
  find_sub sub s = Some i ->
  s = take i s ++ sub ++ drop (i + length sub) s
  /\ (forall j, j < i -> ~ sub `prefix_of` drop j s).
Proof.
  revert i. induction s as [|b s IH]; intros i; simpl; case_decide as Hp; intros E;
    simplify_eq; try (split; [|lia]).
  - destruct Hp as [k ->]. simpl. by rewrite drop_app_length.
  - destruct Hp as [k ->]. simpl. by rewrite drop_app_length.
  - apply fmap_Some in E as (i' & E & ->). destruct (IH _ E) as [E1 E2]. split.
    + simpl. by rewrite <-E1.
    + intros [|j] Hj; [done|]. simpl. apply E2. lia.
Qed.

Lemma find_sub_None sub s : find_sub sub s = None <-> forall j, ~ sub `prefix_of` drop j s.
Proof.
  induction s as [|b s IH]; simpl; case_decide as Hp.
  - split; [done|]. intros H. by destruct (H 0).
  - split; [|done]. intros _ j. by rewrite drop_nil.
  - split; [done|]. intros H. by destruct (H 0).
  - rewrite fmap_None, IH. split.
    + intros H [|j]; [done|]. apply H.
    + intros H j. apply (H (S j)).
Qed.

Lemma find_sub_length sub s i : find_sub sub s = Some i -> i + length sub <= length s.
Proof.
  revert i. induction s as [|b s IH]; intros i; simpl; case_decide as Hp; intros E; simplify_eq;
    [by apply prefix_length in Hp..|].
  apply fmap_Some in E as (i' & E & ->). apply IH in E. lia.
Qed.

Lemma nonempty_length (s : bytes) : s ≠ [] -> 0 < length s.
Proof. destruct s; [done|]. simpl. lia. Qed.

Lemma prefix_take_drop (sub s : bytes) i j :
  sub `prefix_of` drop j (take i s) -> sub `prefix_of` drop j s.
Proof.
  intros [k E]. rewrite <-(take_drop i s), drop_app, E. rewrite <-app_assoc. by eexists.
Qed.

Lemma find_sub_before sub s i :
  sub ≠ [] -> find_sub sub s = Some i -> find_sub sub (take i s) = None.
Proof.
  intros Hne E. apply find_sub_Some in E as [_ E]. apply find_sub_None. intros j Hj.
  destruct (decide (j < i)) as [Hlt|Hge].
  - by eapply E, prefix_take_drop.
  - rewrite drop_ge in Hj by (rewrite length_take; lia).
    by apply prefix_nil_inv in Hj.
Qed.

Module SplitLemmas.
Import String.

Lemma split_loop_join delim fuel : forall current,
  delim ≠ [] -> length current < fuel -> current ≠ [] ->
  exists p ps, split_loop fuel delim true current = Some (p :: ps)
    /\ p ++ join_tail delim ps = current
    /\ Forall (fun q => find_sub delim q = None) (p :: ps).
Proof.
  induction fuel as [|fuel IH]; intros current Hd Hf Hc; [lia|]. cbn [split_loop].
  rewrite orb_true_r. destruct (find_sub delim current) as [p|] eqn:E; cbn [substr].
  - pose proof (find_sub_before _ _ _ Hd E) as Hb.
    pose proof (find_sub_Some _ _ _ E) as [Es _].
    destruct (drop (p + length delim) current) as [|c cs] eqn:Ed.
    + eexists _, [[]]. split; [done|]. simpl. split; [by rewrite Es at 2|].
      repeat constructor; [by rewrite drop_0|]. by destruct delim.
    + destruct (IH (c :: cs)) as (q & qs & -> & Ej & Hall); [done| |done|].
      { apply (f_equal length) in Ed. rewrite length_drop in Ed. rewrite <-Ed.
        apply nonempty_length in Hd, Hc. lia. }
      eexists _, (q :: qs). split; [done|]. simpl. rewrite Ej, drop_0.
      split; [by rewrite Es at 2|]. by constructor.
  - eexists _, []. split; [done|]. simpl. rewrite app_nil_r, drop_0.
    split; [done|]. by constructor.
Qed.

(** Without [keep_empty]: the pieces that are not empty. *)
Lemma split_loop_nonempty delim fuel : forall current, current ≠ [] ->
  split_loop fuel delim false current = filter (fun p => p ≠ []) <$> split_loop fuel delim true current.
Proof.
  induction fuel as [|fuel IH]; intros current Hc; [done|]. cbn [split_loop]. rewrite orb_true_r, orb_false_r.
  destruct (find_sub delim current) as [p|] eqn:E; cbn [substr]; rewrite ?drop_0.
  - assert ((if bool_decide (Some p ≠ Some 0) then [take p current] else [])
            = filter (fun p => p ≠ []) [take p current]) as ->.
    { rewrite filter_cons, filter_nil. destruct p; [done|]. destruct current; [done|]. by rewrite bool_decide_true. }
    assert (forall qs, filter (fun p => p ≠ []) [take p current] ++ filter (fun p => p ≠ []) qs
              = filter (fun p => p ≠ []) ([take p current] ++ qs)) as Happ by (intros qs; by rewrite filter_app).
    destruct (drop (p + length delim) current) as [|c cs]; [exact (f_equal Some (Happ [[]]))|].
    rewrite IH by done. destruct (split_loop fuel delim true (c :: cs)) as [qs|]; [exact (f_equal Some (Happ qs))|done].
  - rewrite bool_decide_true by done. by destruct current.
Qed.

Lemma Join_intercalate p ps delim :
  delim ≠ [] -> Join (p :: ps) delim = p ++ join_tail delim ps.
Proof.
  intros Hd. unfold Join. rewrite decide_False; [done|].
  destruct delim; [done|]. simpl. lia.
Qed.

End SplitLemmas.

Module TrimLemmas.
Import String.
Abbreviation blank := (z2b 32).

Lemma find_first_replicate c n b s :
  b ≠ c -> find_first_not_of c (replicate n c ++ b :: s) = Some n.
Proof.
  intros Hb. induction n as [|n IH]; simpl; [by rewrite decide_False|].
  by rewrite decide_True, IH.
Qed.

(** Every string is blank, or a core with visible ends between blanks. *)
Lemma trim_decompose (s : bytes) :
  s = replicate (length s) blank \/
  exists i k x y u, s = replicate i blank ++ u ++ replicate k blank
    /\ head u = Some x /\ last u = Some y /\ x ≠ blank /\ y ≠ blank.
Proof.
  induction s as [|b s IH]; [by left|]. destruct IH as [E|(i & k & x & y & u & -> & Hx & Hy & Nx & Ny)].
  - destruct (decide (b = blank)) as [->|Hb].
    + left. simpl. by f_equal.
    + right. exists 0, (length s), b, b, [b]. simpl. by rewrite <-E.
  - right. destruct (decide (b = blank)) as [->|Hb].
    + by exists (S i), k, x, y, u.
    + exists 0, k, b, y, (b :: replicate i blank ++ u). simpl. split_and!; try done.
      * by rewrite <-app_assoc.
      * destruct u; [done|]. by rewrite app_comm_cons, last_app_cons.
Qed.

Lemma Trim_core i k u x y :
  head u = Some x -> last u = Some y -> x ≠ blank -> y ≠ blank ->
  Trim (replicate i blank ++ u ++ replicate k blank) = u.
Proof.
  intros Hx Hy Nx Ny. set (s := replicate i blank ++ u ++ replicate k blank).
  assert (Hlen : 0 < length u) by (destruct u; [done|simpl; lia]).
  assert (Efirst : find_first_not_of blank s = Some i).
  { destruct u as [|x' u]; [done|]. injection Hx as ->. by apply find_first_replicate. }
  assert (Elast : find_last_not_of blank s = Some (length s - 1 - k)).
  { unfold find_last_not_of, s. rewrite !reverse_app, !reverse_replicate, <-app_assoc.
    apply last_Some in Hy as [u' ->]. rewrite reverse_snoc. simpl.
    by rewrite find_first_replicate. }
  assert (Hs : length s = i + length u + k)
    by (unfold s; rewrite !length_app, !length_replicate; lia).
  assert (Edrop : drop i s = u ++ replicate k blank)
    by (unfold s; by rewrite drop_app_length' by (by rewrite length_replicate)).
  destruct s as [|front s'] eqn:Es; [simpl in Hs; lia|].
  destruct (last (front :: s')) as [back|] eqn:El; [|by apply last_None in El].
  unfold Trim. rewrite El.
  assert ((if decide (front = blank) then find_first_not_of blank (front :: s') else Some 0)
    = Some i) as ->.
  { case_decide; [done|]. simpl in Efirst. by rewrite decide_False in Efirst. }
  unfold substr. rewrite Edrop. case_decide as Hback.
  - rewrite Elast. cbn [default from_option id]. rewrite Hs.
    by rewrite take_app_length' by lia.
  - assert (k = 0) as ->.
    { destruct k; [done|]. exfalso. apply Hback. rewrite <-Es in El.
      unfold s in El. rewrite replicate_S_end, !app_assoc, last_snoc in El. congruence. }
    rewrite take_ge; [by rewrite app_nil_r|]. rewrite Hs, length_app. simpl. lia.
Qed.

Lemma Trim_blank n : Trim (replicate n blank) = [].
Proof.
  assert (E : find_first_not_of blank (replicate n blank) = None).
  { induction n as [|n IH]; [done|]. simpl. by rewrite IH. }
  destruct n as [|n]; [done|]. unfold Trim. rewrite E. simpl. by destruct (last _).
Qed.

End TrimLemmas.

(** ** Prefix, suffix and containment tests *)

Lemma StartsWith_spec str prefix :
  String.StartsWith str prefix = true <-> prefix `prefix_of` str.
Proof.
  unfold String.StartsWith, substr. rewrite andb_true_iff, !bool_decide_eq_true, drop_0.
  split.
  - intros [_ <-]. exists (drop (length prefix) str). by rewrite take_drop.
  - intros [k ->]. rewrite length_app, take_app_length. split; [lia|done].
Qed.

Lemma EndsWith_spec str suffix :
  String.EndsWith str suffix = true <-> suffix `suffix_of` str.
Proof.
  unfold String.EndsWith, substr. rewrite andb_true_iff, !bool_decide_eq_true. split.
  - intros [_ <-]. exists (take (length str - length suffix) str). by rewrite take_drop.
  - intros [k ->]. rewrite length_app, drop_app_length' by lia. split; [lia|done].
Qed.

Lemma Contains_spec str target :
  String.Contains str target = true <-> exists a b, str = a ++ target ++ b.
Proof.
  assert (Hfind : is_Some (find_sub target str) <-> exists a b, str = a ++ target ++ b).
  { split.
    - intros [i [E _]%find_sub_Some]. eauto.
    - intros (a & b & ->). apply not_eq_None_Some. rewrite find_sub_None.
      intros H. apply (H (length a)). rewrite drop_app_length. by exists b. }
  unfold String.Contains. case_decide as Heq.
  - split; [|done]. intros _. subst. exists [], []. by rewrite app_nil_r.
  - destruct str as [|c str].
    + split; [done|]. intros (a & b & E). destruct a, target; done.
    + destruct target as [|t target]; [|by rewrite bool_decide_eq_true].
      split; [|done]. intros _. by exists [], (c :: str).
Qed.

(** ** Properties *)

(** C33: splitting at a non-empty delimiter always ends.  With [keep_empty] no piece holds the
    delimiter and joining the pieces with it gives the string back, the empty one
    included; without [keep_empty] the pieces are the same less the empty ones. *)
Theorem Split_Join (s delim : bytes) : delim ≠ [] ->
  exists ps, String.Split s delim true = Some ps
    /\ String.Join ps delim = s
    /\ Forall (fun p => String.Contains p delim = false) ps
    /\ String.Split s delim false = Some (filter (fun p => p ≠ []) ps).
Proof.
  intros Hd. destruct s as [|c s]; [by exists []|].
  destruct (SplitLemmas.split_loop_join delim (S (length (c :: s))) (c :: s))
    as (p & ps & E & Ej & Hall); [done|lia|done|].
  exists (p :: ps). split; [done|]. rewrite SplitLemmas.Join_intercalate by done.
  split; [done|]. split; [|unfold String.Split; by rewrite SplitLemmas.split_loop_nonempty, E].
  eapply Forall_impl; [done|]. intros q Hq. simpl in Hq.
  apply not_true_iff_false. rewrite Contains_spec. intros (a & b & ->).
  rewrite find_sub_None in Hq. apply (Hq (length a)). rewrite drop_app_length. by exists b.
Qed.

Lemma Split_Join_witness :
  exists ps, String.Split (lit "a, b,, c,") (lit ",") true = Some ps
    /\ String.Join ps (lit ",") = lit "a, b,, c,"
    /\ Forall (fun p => String.Contains p (lit ",") = false) ps
    /\ String.Split (lit "a, b,, c,") (lit ",") false = Some (filter (fun p => p ≠ []) ps).
Proof. apply Split_Join; discriminate. Defined.

(** At the empty delimiter a non-empty string is split for ever. *)
Lemma Split_empty_delimiter s keep_empty fuel : s ≠ [] -> String.split_loop fuel [] keep_empty s = None.
Proof.
  intros Hs. induction fuel as [|fuel IH]; [done|]. cbn [String.split_loop].
  destruct s as [|c s]; [done|]. simpl. by rewrite IH.
Qed.

(** Trim takes away exactly the blanks at both ends: the string is some
    blanks, the result, and some blanks, and the result neither starts nor
    ends with one. *)
Lemma Trim_spec (s : bytes) :
  exists i j, s = replicate i (z2b 32) ++ String.Trim s ++ replicate j (z2b 32)
    /\ head (String.Trim s) ≠ Some (z2b 32) /\ last (String.Trim s) ≠ Some (z2b 32).
Proof.
  destruct (TrimLemmas.trim_decompose s) as [E|(i & k & x & y & u & -> & Hx & Hy & Nx & Ny)].
  - assert (String.Trim s = []) as -> by (rewrite E; apply TrimLemmas.Trim_blank).
    exists (length s), 0. split_and!; [|done..]. simpl. by rewrite app_nil_r.
  - exists i, k. rewrite (TrimLemmas.Trim_core i k u x y) by done. rewrite Hx, Hy.
    split_and!; [done|congruence..].
Qed.
