(* ===== verification/Status.v ===== *)
(** * Status values (src/bitdb/status.h, status.cpp)

    The result type of every storage operation, its printing, and the early
    return macros as steps of the error monad: an operation that returns a
    status other than Ok is a [Throw] of it. *)

From S2P Require Import Prelude Strings.

(** ** Definitions *)

Inductive StatusCode :=
| kOk | kNotFound | kCorruption | kInvalidArgument | kNotSupported | kIOError
| kInternalError | kCheckError.

#[export] Instance StatusCode_eq_dec : EqDecision StatusCode.
Proof. solve_decision. Defined.

Record Status := mkStatus { code_ : StatusCode; state_ : bytes }.

#[export] Instance Status_eq_dec : EqDecision Status.
Proof. solve_decision. Defined.

(** The constructor Status(code, msg, msg2). *)
Definition Status_make (code : StatusCode) (msg msg2 : bytes) : Status :=
  mkStatus code (match msg2 with [] => msg | _ => msg ++ lit ": " ++ msg2 end).

(** The default constructor, and Status::Ok(). *)
Definition Status_Ok : Status := mkStatus kOk [].

(** The functions REGISTER_STATUS_FUNC generates. *)
Definition Ok2 := Status_make kOk.
Definition NotFound := Status_make kNotFound.
Definition Corruption := Status_make kCorruption.
Definition InvalidArgument := Status_make kInvalidArgument.
Definition NotSupported := Status_make kNotSupported.
Definition IOError := Status_make kIOError.
Definition InternalError := Status_make kInternalError.
Definition CheckError := Status_make kCheckError.

Definition IsCode (c : StatusCode) (s : Status) : bool := bool_decide (code_ s = c).
Definition IsOk := IsCode kOk.
Definition IsNotFound := IsCode kNotFound.
Definition IsInvalidArgument := IsCode kInvalidArgument.

Definition CodeToString (c : StatusCode) : bytes :=
  match c with
  | kOk => lit "Ok"
  | kNotFound => lit "Not Found"
  | kCorruption => lit "Corruption"
  | kInvalidArgument => lit "Invalid argument"
  | kNotSupported => lit "Not implemented"
  | kIOError => lit "IO error"
  | kInternalError => lit "Internal Error in system"
  | kCheckError => lit "Check failed"
  end ++ lit ": ".

Definition ToString (s : Status) : bytes :=
  match state_ s with
  | [] => lit "OK"
  | st => CodeToString (code_ s) ++ st
  end.

(** CHECK_TRUE(expression): the message is the text of the expression (the
    source also prints its own file and line). *)
Definition CHECK_TRUE {S} (b : bool) (expr msg : bytes) : M S Status unit :=
  if b then mret tt else throw (CheckError expr msg).

(** CHECK_TRUE(expression) with no message: GetDebugStr is called on a
    default-constructed [string_view] and makes a [std::string] of its null
    [data()], so a failed check never gets to return its status. *)
Definition CHECK_TRUE_ {S} (b : bool) : M S Status unit :=
  if b then mret tt else undef NullDeref.

(** CHECK_NOT_NULL_STATUS(pointer). *)
Definition CHECK_NOT_NULL_STATUS {S A} (p : option A) (name : bytes) : M S Status A :=
  match p with
  | Some a => mret a
  | None => throw (InternalError (name ++ lit " is nullptr") [])
  end.

(** A status as a computation: Ok goes on, anything else returns early. *)
Definition CHECK_OK {S} (s : Status) : M S Status unit :=
  if IsOk s then mret tt else throw s.
