(* ===== verification/Bytes.v ===== *)
(** * Byte slices (src/bitdb/utils/bytes.h)

    A [Bytes] is a pointer and a size.  [data_] is the readable memory from the
    pointer on, so it may be longer than [size_]: a slice of a [std::string]
    is followed by at least its terminating NUL.  Operations that read outside
    that memory, or that fail an [assert], answer [None]. *)

From S2P Require Import Prelude.

(** ** Definitions *)

Record Bytes := mkBytes { data_ : bytes; size_ : nat; deep_copy_ : bool }.

(** The constructor from a [std::string]: the string's buffer ends with a NUL. *)
Definition Bytes_of_string (str : bytes) : Bytes :=
  mkBytes (str ++ [NUL]) (length str) false.

(** The constructors from a pointer and a size. *)
Definition Bytes_of_memory (data : bytes) (size : nat) : Bytes := mkBytes data size false.

(** The constructor from a C string: [size_] is its [strlen]. *)
Definition Bytes_of_c_str (mem : bytes) : option Bytes :=
  s ← c_str mem; Some (mkBytes mem (length s) false).

(** DeepCopy: a buffer of exactly [size] bytes, with no terminator. *)
Definition DeepCopy (data : bytes) (size : nat) : option Bytes :=
  if decide (size <= length data) then Some (mkBytes (take size data) size true) else None.

(** The copy constructor. *)
Definition Bytes_copy (other : Bytes) : option Bytes :=
  if deep_copy_ other then DeepCopy (data_ other) (size_ other) else Some other.

Definition at_ (b : Bytes) (n : nat) : option byte :=
  if decide (n < size_ b) then data_ b !! n else None.

Definition empty_ (b : Bytes) : bool := bool_decide (size_ b = 0).

(** ToString. *)
Definition to_str (b : Bytes) : option bytes :=
  if decide (size_ b <= length (data_ b)) then Some (take (size_ b) (data_ b)) else None.

(** RemovePrefix. *)
Definition RemovePrefix (n : nat) (b : Bytes) : option Bytes :=
  if decide (n <= size_ b)
  then Some (mkBytes (drop n (data_ b)) (size_ b - n) (deep_copy_ b)) else None.

(** [std::memcmp] on [n] bytes, compared as [unsigned char]. *)
Fixpoint memcmp (a b : bytes) (n : nat) {struct n} : option Z :=
  match n with
  | O => Some 0%Z
  | S n =>
      match a, b with
      | x :: a, y :: b =>
          if decide (x = y) then memcmp a b n else Some (b2z x - b2z y)%Z
      | _, _ => None
      end
  end.

Definition compare (x y : Bytes) : option Z :=
  res ← memcmp (data_ x) (data_ y) (Nat.min (size_ y) (size_ x));
  Some (if decide (res = 0%Z)
        then if decide (size_ x < size_ y) then (-1)%Z else 1%Z
        else res).

Definition eqb_ (x y : Bytes) : option bool :=
  if decide (size_ x = size_ y)
  then r ← memcmp (data_ x) (data_ y) (size_ x); Some (bool_decide (r = 0%Z))
  else Some false.

Definition gtb_ (x y : Bytes) : option bool := (fun c => bool_decide (c > 0)%Z) <$> compare x y.
Definition geb_ (x y : Bytes) : option bool := (fun c => bool_decide (c >= 0)%Z) <$> compare x y.
Definition ltb_ (x y : Bytes) : option bool := (fun c => bool_decide (c < 0)%Z) <$> compare x y.
Definition leb_ (x y : Bytes) : option bool := (fun c => bool_decide (c <= 0)%Z) <$> compare x y.

(** ** Lemmas *)

Lemma memcmp_app a b c d n :
  n <= length a -> n <= length b -> memcmp (a ++ c) (b ++ d) n = memcmp a b n.
Proof.
  revert a b. induction n as [|n IH]; intros a b Ha Hb; [done|].
  destruct a as [|x a], b as [|y b]; simpl in *; try lia.
  case_decide; [|done]. apply IH; lia.
Qed.

(** [memcmp] over the shorter length decides the lexicographic order up to the
    case where one string is a prefix of the other. *)
Lemma memcmp_lex (a b : bytes) :
  exists r, memcmp a b (Nat.min (length b) (length a)) = Some r
    /\ bytes_ltb a b = (if decide (r = 0%Z) then bool_decide (length a < length b)
                        else (r <? 0)%Z)
    /\ (r = 0%Z -> length a = length b -> a = b).
Proof.
  revert b. induction a as [|x a IH]; intros [|y b]; simpl; try by eexists.
  case_decide as Hxy; subst.
  - destruct (IH b) as (r & -> & Hlt & Heq). exists r. split; [done|]. split.
    + rewrite Hlt. case_decide; [|done]. apply bool_decide_ext. lia.
    + intros. f_equal. apply Heq; [done|lia].
  - exists (b2z x - b2z y)%Z. split; [done|].
    assert (b2z x ≠ b2z y) by (intros E; by apply (inj b2z) in E).
    rewrite decide_False by lia. split; [|lia].
    destruct (Z.ltb_spec (b2z x) (b2z y)), (Z.ltb_spec (b2z x - b2z y) 0); lia || done.
Qed.

Lemma to_str_of_string s : to_str (Bytes_of_string s) = Some s.
Proof.
  unfold to_str, Bytes_of_string. simpl. rewrite length_app, decide_True by lia.
  by rewrite take_app_length.
Qed.

Lemma c_str_of_string s : NUL ∉ s -> c_str (data_ (Bytes_of_string s)) = Some s.
Proof. apply c_str_no_nul. Qed.

(** ** Properties *)

(** On slices of strings, [==] is string equality and [<] the
    lexicographic order of the bytes; [compare] never answers 0, so [>=] and
    [>] both mean "not less" and [<=] and [<] both mean "less": a slice is not
    [<=] itself and is [>] itself. *)
Lemma Bytes_order (a b : bytes) :
  let x := Bytes_of_string a in
  let y := Bytes_of_string b in
  eqb_ x y = Some (bool_decide (a = b))
  /\ ltb_ x y = Some (bytes_ltb a b) /\ leb_ x y = Some (bytes_ltb a b)
  /\ gtb_ x y = Some (negb (bytes_ltb a b)) /\ geb_ x y = Some (negb (bytes_ltb a b)).
Proof.
  intros x y. destruct (memcmp_lex a b) as (r & Er & Hlt & Heq).
  assert (Hc : compare x y = Some (if decide (r = 0%Z)
    then if decide (length a < length b) then (-1)%Z else 1%Z else r)).
  { unfold compare, x, y, Bytes_of_string. simpl. rewrite memcmp_app by lia. by rewrite Er. }
  split.
  - unfold eqb_, x, y, Bytes_of_string. simpl. destruct (decide (length a = length b)) as [Hl|Hl].
    + rewrite memcmp_app by lia. rewrite <-Hl, Nat.min_id in Er. rewrite Er. simpl. f_equal.
      apply bool_decide_ext. split; [by auto|]. intros ->.
      assert (memcmp b b (length b) = Some 0%Z) as E.
      { clear. induction b; simpl; [done|]. by rewrite decide_True. }
      congruence.
    + symmetry. f_equal. apply bool_decide_eq_false. congruence.
  - unfold ltb_, leb_, gtb_, geb_. rewrite Hc, Hlt. simpl.
    repeat case_decide; repeat case_bool_decide; destruct (Z.ltb_spec r 0); simpl;
      split_and!; first [done | exfalso; lia].
Qed.
