(* ===== verification/LogRecord.v ===== *)
(** * Log records (src/bitdb/data/log_record.{h,cpp}, transaction_record.{h,cpp})

    The on-disk format of the log: record headers with their CRC, positions of
    records, and keys tagged with a transaction id.  The CRC comes from the
    crc32c library, which is a parameter with the two facts its header
    documents; a fixed-size [char] buffer on the stack is checked where the
    source fills it, an overflow is [None]. *)

From S2P Require Import Prelude Coding Strings Bytes.
Local Open Scope Z_scope.

(** ** The crc32c library *)

(** [Extend c b] is the CRC of the concatenation when [c] is the CRC of the
    first part (crc32c/crc32c.h). *)
Class Crc32cLib := {
  Crc32c : bytes -> Z;
  Extend : Z -> bytes -> Z;
  Crc32c_range : forall bs, 0 <= Crc32c bs < 2 ^ 32;
  Extend_app : forall a b, Extend (Crc32c a) b = Crc32c (a ++ b)
}.

(** ** Definitions *)

Record LogRecordPst := mkPst { fid : Z; offset : Z }.

#[export] Instance LogRecordPst_eq_dec : EqDecision LogRecordPst.
Proof. solve_decision. Defined.

(** An [enum : int8_t]; a byte read from a file can be any value. *)
Inductive LogRecordType :=
| NormalLogRecord | DeletedLogRecord | TxnFinishedLogRecord
| UnnamedLogRecord (v : byte).

#[export] Instance LogRecordType_eq_dec : EqDecision LogRecordType.
Proof. solve_decision. Defined.

Definition byte_of_type (t : LogRecordType) : byte :=
  match t with
  | NormalLogRecord => z2b 1
  | DeletedLogRecord => z2b 2
  | TxnFinishedLogRecord => z2b 3
  | UnnamedLogRecord v => v
  end.

Definition type_of_byte (b : byte) : LogRecordType :=
  if decide (b = z2b 1) then NormalLogRecord
  else if decide (b = z2b 2) then DeletedLogRecord
  else if decide (b = z2b 3) then TxnFinishedLogRecord
  else UnnamedLogRecord b.

(** The type as its value: the enumerators are the bytes 1, 2 and 3. *)
Definition type_wf (t : LogRecordType) : Prop := type_of_byte (byte_of_type t) = t.

Definition K_LOG_RECORD_TYPE_SIZE : nat := 1.
Definition K_CRC_SIZE : nat := 4.
Definition K_MAX_LOG_RECORD_HEADER_SIZE : nat := 15.

Record LogRecordHeader := mkHeader {
  crc : Z; record_type : LogRecordType; key_size : Z; value_size : Z
}.

Record LogRecord := mkRecord { key : bytes; value : bytes; type : LogRecordType }.

#[export] Instance LogRecord_eq_dec : EqDecision LogRecord.
Proof. solve_decision. Defined.

Definition LogRecord_ToString (r : LogRecord) : bytes :=
  Format (lit "{}_{}_{}") [key r; value r;
    match type r with
    | NormalLogRecord => lit "Normal"
    | DeletedLogRecord => lit "Deleted"
    | _ => lit "Unknown"
    end].

Section crc.
Context `{Crc : Crc32cLib}.

(** What the header holds after the CRC: the type and the two sizes. *)
Definition header_tail (r : LogRecord) : bytes :=
  byte_of_type (type r)
  :: EncodeVarint32 (u32 (Z.of_nat (length (key r))))
  ++ EncodeVarint32 (u32 (Z.of_nat (length (value r)))).

Definition EncodeLogRecord (r : LogRecord) : bytes :=
  match key r with
  | [] => []
  | _ =>
      let body := header_tail r ++ key r ++ value r in
      EncodeFixed32 (Crc32c body) ++ body
  end.

(** The header and its size; a buffer of fewer than 4 bytes gives size 0. *)
Definition DecodeLogRecordHeader (buf : Bytes) : option (LogRecordHeader * Z) :=
  if decide (size_ buf < K_CRC_SIZE)%nat
  then Some (mkHeader 0 (type_of_byte (z2b 0)) 0 0, 0)
  else
    c ← DecodeFixed32 (data_ buf);
    t ← at_ buf K_CRC_SIZE;
    let header_idx := 5 in
    '(ks, n1) ← DecodeVarint32 (drop 5 (data_ buf));
    '(vs, n2) ← DecodeVarint32 (drop (Z.to_nat (header_idx + n1)) (data_ buf));
    Some (mkHeader c (type_of_byte t) ks vs, header_idx + n1 + n2).

(** [header] must hold the CRC field: [size - 4] would wrap around. *)
Definition GetLogRecordCRC (r : LogRecord) (header : bytes) : option Z :=
  match header with
  | [] => Some 0
  | _ =>
      if decide (K_CRC_SIZE <= length header)%nat
      then Some (Extend (Extend (Crc32c (drop K_CRC_SIZE header)) (key r)) (value r))
      else None
  end.
End crc.

(** The buffer holds [K_MAX_VARINT32_LEN + K_MAX_VARINT64_LEN] bytes. *)
Definition EncodeLogRecordPosition (pst : LogRecordPst) : option bytes :=
  let buffer := EncodeVarint32 (fid pst) ++ EncodeVarint64 (offset pst) in
  if decide (Z.of_nat (length buffer) <= K_MAX_VARINT32_LEN + K_MAX_VARINT64_LEN)
  then Some buffer else None.

Definition DecodeLogRecordPosition (buf : Bytes) : option LogRecordPst :=
  '(f, n1) ← DecodeVarint32 (data_ buf);
  '(o, _) ← DecodeVarint64 (drop (Z.to_nat n1) (data_ buf));
  Some (mkPst f o).

(** *** transaction_record *)

Definition K_NON_TXN_ID : Z := 0.
Definition K_TXN_FINISHED_KEY : bytes := lit "Txn-finished".

Record TxnRecord := mkTxnRecord { log_record : LogRecord; pst : LogRecordPst }.

(** The stack buffer holds [K_MAX_VARINT32_LEN] bytes; the key is appended as
    a C string. *)
Definition EncodeLogRecordWithTxnID (k : Bytes) (txn_id : Z) : option bytes :=
  let buf := EncodeVarint64 txn_id in
  if decide (Z.of_nat (length buf) <= K_MAX_VARINT32_LEN)
  then s ← c_str (data_ k); Some (buf ++ s) else None.

Definition DecodeLogRecordWithTxnID (k : Bytes) : option (bytes * Z) :=
  '(txn_id, len) ← DecodeVarint64 (data_ k);
  k ← RemovePrefix (Z.to_nat len) k;
  s ← to_str k;
  Some (s, txn_id).

(** ** Lemmas *)

Lemma type_of_byte_wf b : type_wf (type_of_byte b).
Proof. unfold type_wf, type_of_byte. repeat case_decide; subst; done. Qed.

(** A record the format can hold and one [read] can return. *)
Record record_wf (r : LogRecord) : Prop := {
  wf_key : key r ≠ [];
  wf_type : type_wf (type r);
  wf_sizes : Z.of_nat (length (key r)) + Z.of_nat (length (value r)) + 15 <= 0x7ffff000
}.

Section crc_lemmas.
Context `{Crc : Crc32cLib}.

Definition record_body (r : LogRecord) : bytes := header_tail r ++ key r ++ value r.
Definition header_bytes (r : LogRecord) : bytes :=
  EncodeFixed32 (Crc32c (record_body r)) ++ header_tail r.

Lemma EncodeLogRecord_eq r :
  key r ≠ [] -> EncodeLogRecord r = header_bytes r ++ key r ++ value r.
Proof.
  unfold EncodeLogRecord, header_bytes, record_body. destruct (key r); [done|].
  by rewrite <-app_assoc.
Qed.

Lemma header_tail_length r :
  (3 <= length (header_tail r) <= 11)%nat.
Proof.
  unfold header_tail. rewrite length_cons, length_app.
  pose proof (encode_varint_length 5 (u32 (Z.of_nat (length (key r)))) ltac:(lia)).
  pose proof (encode_varint_length 5 (u32 (Z.of_nat (length (value r)))) ltac:(lia)).
  unfold EncodeVarint32. lia.
Qed.

Lemma header_bytes_length r :
  length (header_bytes r) = (4 + length (header_tail r))%nat.
Proof. unfold header_bytes. by rewrite length_app. Qed.

Lemma EncodeLogRecord_length r :
  key r ≠ [] ->
  length (EncodeLogRecord r)
  = (length (header_bytes r) + (length (key r) + length (value r)))%nat.
Proof. intros Hk. by rewrite EncodeLogRecord_eq, !length_app by done. Qed.

(** A header followed by anything is decoded back. *)
Lemma DecodeLogRecordHeader_header r rest n dc :
  record_wf r -> (5 <= n)%nat ->
  DecodeLogRecordHeader (mkBytes (header_bytes r ++ rest) n dc)
  = Some (mkHeader (Crc32c (record_body r)) (type r) (Z.of_nat (length (key r)))
            (Z.of_nat (length (value r))), Z.of_nat (length (header_bytes r))).
Proof.
  intros [Hk Ht Hs] Hn. unfold DecodeLogRecordHeader, header_bytes. cbn [size_ data_].
  rewrite decide_False by (unfold K_CRC_SIZE; lia).
  rewrite <-app_assoc, fixed32_roundtrip by apply Crc32c_range. cbn [mbind option_bind].
  assert (Eu : forall l : bytes, Z.of_nat (length l) < 2 ^ 32 ->
    u32 (Z.of_nat (length l)) = Z.of_nat (length l)) by (intros; apply Z.mod_small; lia).
  unfold at_. cbn [size_ data_]. rewrite decide_True by (unfold K_CRC_SIZE; lia).
  rewrite lookup_app_r by done. simpl lookup. cbn [mbind option_bind].
  replace (drop 5 _) with (EncodeVarint32 (Z.of_nat (length (key r)))
    ++ EncodeVarint32 (Z.of_nat (length (value r))) ++ rest)
    by (unfold header_tail; rewrite !Eu by lia; simpl; by rewrite <-app_assoc).
  rewrite varint32_roundtrip by lia. cbn [mbind option_bind].
  set (n1 := length (EncodeVarint32 (Z.of_nat (length (key r))))).
  replace (Z.to_nat (5 + Z.of_nat n1)) with (5 + n1)%nat by lia.
  replace (drop (5 + n1) _) with (EncodeVarint32 (Z.of_nat (length (value r))) ++ rest).
  2: { unfold header_tail. rewrite !Eu by lia. rewrite <-drop_drop. simpl drop at 1.
       rewrite <-app_assoc. symmetry. apply drop_app_length. }
  rewrite varint32_roundtrip by lia. cbn [mbind option_bind].
  rewrite Ht. do 2 f_equal. rewrite length_app. unfold header_tail.
  rewrite !Eu by lia. rewrite length_cons, length_app. unfold n1.
  change (length (EncodeFixed32 (Crc32c (record_body r)))) with 4%nat. lia.
Qed.

Lemma GetLogRecordCRC_header r :
  GetLogRecordCRC r (header_bytes r) = Some (Crc32c (record_body r)).
Proof.
  unfold GetLogRecordCRC. pose proof (header_bytes_length r) as Hl.
  destruct (header_bytes r) as [|b h] eqn:E; [simpl in Hl; lia|]. rewrite <-E in *.
  rewrite decide_True by (unfold K_CRC_SIZE; lia).
  unfold header_bytes at 1. rewrite drop_app_length' by done.
  rewrite !Extend_app. unfold record_body. by rewrite <-!app_assoc.
Qed.
End crc_lemmas.

(** *** Positions and transaction keys *)

Lemma position_roundtrip p :
  0 <= fid p < 2 ^ 32 -> 0 <= offset p < 2 ^ 31 ->
  exists s, EncodeLogRecordPosition p = Some s
    /\ DecodeLogRecordPosition (Bytes_of_string s) = Some p.
Proof.
  intros Hf Ho. unfold EncodeLogRecordPosition.
  assert (Hl : (length (EncodeVarint64 (offset p)) <= 5)%nat)
    by (apply encode_varint_length_le; simpl; lia).
  pose proof (encode_varint_length 5 (fid p) ltac:(lia)).
  rewrite decide_True
    by (rewrite length_app; unfold EncodeVarint32, K_MAX_VARINT32_LEN, K_MAX_VARINT64_LEN; lia).
  eexists. split; [done|]. unfold DecodeLogRecordPosition, Bytes_of_string. cbn [data_].
  rewrite <-app_assoc, varint32_roundtrip by done. cbn [mbind option_bind].
  rewrite Nat2Z.id, drop_app_length, varint64_roundtrip by done. by destruct p.
Qed.

(** The transaction id and the key, up to its first NUL, are recovered from a tagged
    key. *)
Lemma txn_key_cut k key txn :
  c_str (data_ (Bytes_of_string k)) = Some key -> 0 <= txn < 2 ^ 28 ->
  exists s, EncodeLogRecordWithTxnID (Bytes_of_string k) txn = Some s
    /\ s = EncodeVarint64 txn ++ key
    /\ DecodeLogRecordWithTxnID (Bytes_of_string s) = Some (key, txn).
Proof.
  intros Hk Ht. unfold EncodeLogRecordWithTxnID.
  assert (Hl : (length (EncodeVarint64 txn) <= 4)%nat)
    by (apply encode_varint_length_le; simpl; lia).
  rewrite decide_True by (unfold K_MAX_VARINT32_LEN; lia).
  rewrite Hk. eexists. split; [done|]. split; [done|].
  unfold DecodeLogRecordWithTxnID. cbn [Bytes_of_string data_].
  rewrite <-app_assoc, varint64_roundtrip by lia. cbn [mbind option_bind].
  unfold RemovePrefix. cbn [Bytes_of_string size_ data_ deep_copy_].
  rewrite Nat2Z.id, length_app, decide_True by lia. cbn [mbind option_bind].
  unfold to_str. cbn [size_ data_].
  rewrite <-app_assoc, drop_app_length, length_app, decide_True by lia.
  cbn [mbind option_bind]. rewrite take_app_length' by lia. done.
Qed.

Lemma txn_key_roundtrip k txn :
  NUL ∉ k -> 0 <= txn < 2 ^ 28 ->
  exists s, EncodeLogRecordWithTxnID (Bytes_of_string k) txn = Some s
    /\ s = EncodeVarint64 txn ++ k
    /\ DecodeLogRecordWithTxnID (Bytes_of_string s) = Some (k, txn).
Proof. intros Hk. apply txn_key_cut. by apply c_str_of_string. Qed.

(** A key, as far as a C string goes. *)
Lemma c_str_cut k : exists key rest, c_str (data_ (Bytes_of_string k)) = Some key
  /\ NUL ∉ key /\ (k = key \/ k = key ++ NUL :: rest).
Proof.
  destruct (decide (NUL ∈ k)) as [(l1 & l2 & -> & Hn)%list_elem_of_split_l|Hn].
  - exists l1, l2. split_and!; [|done|by right]. cbn [Bytes_of_string data_].
    rewrite <-app_assoc. by apply c_str_no_nul.
  - exists k, []. split_and!; [by apply c_str_of_string|done|by left].
Qed.

(** ** A reference implementation of the crc32c library *)

Module Reference.
Definition poly : Z := 0x82F63B78.
Definition step_bit (c : Z) : Z :=
  if Z.odd c then Z.lxor (Z.shiftr c 1) poly else Z.shiftr c 1.
Definition step_byte (c : Z) (b : byte) : Z :=
  Nat.iter 8 step_bit (Z.lxor c (b2z b)).
Definition extend (c : Z) (bs : bytes) : Z :=
  Z.lxor (fold_left step_byte bs (Z.lxor c (2 ^ 32 - 1))) (2 ^ 32 - 1).

Lemma lxor_u32 a b : 0 <= a < 2 ^ 32 -> 0 <= b < 2 ^ 32 -> 0 <= Z.lxor a b < 2 ^ 32.
Proof.
  intros Ha Hb. split; [apply Z.lxor_nonneg; lia|].
  apply Z.bounded_iff_bits_nonneg; [lia|apply Z.lxor_nonneg; lia|]. intros l Hl.
  assert (forall z, 0 <= z < 2 ^ 32 -> Z.testbit z l = false) as Hz.
  { intros z Hz. apply (Z.bounded_iff_bits_nonneg 32 z); lia. }
  by rewrite Z.lxor_spec, !Hz.
Qed.

Lemma step_bit_u32 c : 0 <= c < 2 ^ 32 -> 0 <= step_bit c < 2 ^ 32.
Proof.
  intros Hc. unfold step_bit.
  assert (0 <= Z.shiftr c 1 < 2 ^ 32).
  { rewrite Z.shiftr_div_pow2 by lia. split; [apply Z.div_pos; lia|].
    apply Z.div_lt_upper_bound; lia. }
  destruct (Z.odd c); [|done]. apply lxor_u32; [done|unfold poly; lia].
Qed.

Lemma step_byte_u32 c b : 0 <= c < 2 ^ 32 -> 0 <= step_byte c b < 2 ^ 32.
Proof.
  intros Hc. unfold step_byte. pose proof (b2z_range b).
  apply Nat.iter_invariant; [intros; by apply step_bit_u32|]. apply lxor_u32; lia.
Qed.

Lemma fold_u32 bs c : 0 <= c < 2 ^ 32 -> 0 <= fold_left step_byte bs c < 2 ^ 32.
Proof. revert c. induction bs; intros c Hc; simpl; auto using step_byte_u32. Qed.

Lemma extend_u32 c bs : 0 <= c < 2 ^ 32 -> 0 <= extend c bs < 2 ^ 32.
Proof. intros Hc. apply lxor_u32; [|lia]. apply fold_u32, lxor_u32; lia. Qed.

Lemma extend_app a b : extend (extend 0 a) b = extend 0 (a ++ b).
Proof.
  unfold extend at 1 3. rewrite fold_left_app. unfold extend.
  by rewrite Z.lxor_assoc, Z.lxor_nilpotent, Z.lxor_0_r.
Qed.

Definition crc32c : Crc32cLib := {|
  Crc32c := extend 0; Extend := extend;
  Crc32c_range := fun bs => extend_u32 0 bs ltac:(lia);
  Extend_app := extend_app
|}.

(** The check value of the CRC-32C standard. *)
Example crc32c_check : @Crc32c crc32c (lit "123456789") = 0xE3069283.
Proof. vm_compute. reflexivity. Qed.
End Reference.

(** ** Properties *)

(** C25: a key written with its transaction id decodes to the id and to the key up to
    its first NUL, so to the key itself when it holds none, for every id whose varint
    fits the 4-byte stack buffer; that is the ids below 2^28, and for every larger 64-bit
    id the encoder overruns its buffer. *)
Theorem txn_key_codec (k : bytes) (txn : Z) : 0 <= txn < 2 ^ 64 ->
  exists key rest, NUL ∉ key /\ (k = key \/ k = key ++ NUL :: rest)
  /\ ((txn < 2 ^ 28 /\ exists s, EncodeLogRecordWithTxnID (Bytes_of_string k) txn = Some s
        /\ DecodeLogRecordWithTxnID (Bytes_of_string s) = Some (key, txn))
      \/ (2 ^ 28 <= txn /\ EncodeLogRecordWithTxnID (Bytes_of_string k) txn = None)).
Proof.
  intros Ht. destruct (c_str_cut k) as (key & rest & Hk & Hn & Hc). exists key, rest. split_and!; [done..|].
  destruct (Z.lt_ge_cases txn (2 ^ 28)) as [Hlt|Hge].
  - left. split; [done|]. destruct (txn_key_cut k key txn) as (s & ? & ? & ?); [done|lia|eauto].
  - right. split; [done|]. unfold EncodeLogRecordWithTxnID. rewrite decide_False; [done|].
    intros Hl. assert (txn < 2 ^ (7 * Z.of_nat 4)); [|simpl in *; lia].
    apply (encode_varint_length_le 10); [simpl; lia|lia|].
    unfold EncodeVarint64, K_MAX_VARINT32_LEN in Hl. lia.
Qed.

Lemma txn_key_codec_witness :
  exists key rest, NUL ∉ key /\ (lit "key" = key \/ lit "key" = key ++ NUL :: rest)
  /\ ((77 < 2 ^ 28 /\ exists s, EncodeLogRecordWithTxnID (Bytes_of_string (lit "key")) 77 = Some s
        /\ DecodeLogRecordWithTxnID (Bytes_of_string s) = Some (key, 77))
      \/ (2 ^ 28 <= 77 /\ EncodeLogRecordWithTxnID (Bytes_of_string (lit "key")) 77 = None)).
Proof. apply txn_key_codec. lia. Defined.

(** A record position written to the hint file is read back unchanged
    exactly when its offset is below 2^31 (within the [uint32_t] file ids);
    below that bound the 12-byte stack buffer always suffices. *)
Lemma position_codec (p : LogRecordPst) :
  0 <= fid p < 2 ^ 32 -> 0 <= offset p < 2 ^ 64 ->
  (exists s, EncodeLogRecordPosition p = Some s
     /\ DecodeLogRecordPosition (Bytes_of_string s) = Some p) <-> offset p < 2 ^ 31.
Proof.
  intros Hf Ho. split; [|intros; apply position_roundtrip; lia].
  unfold EncodeLogRecordPosition. intros (s & E & Ed). case_decide; [|done].
  injection E as <-. revert Ed. unfold DecodeLogRecordPosition, Bytes_of_string. cbn [data_].
  rewrite <-app_assoc, varint32_roundtrip by done. cbn [mbind option_bind].
  rewrite Nat2Z.id, drop_app_length. destruct (DecodeVarint64 _) as [[o m]|] eqn:E; [|done].
  cbn [mbind option_bind]. intros [= Ep]. assert (o = offset p) as -> by (by rewrite <-Ep).
  by apply varint64_exact in E.
Qed.

Lemma position_codec_witness :
  (exists s, EncodeLogRecordPosition (mkPst 3 4096) = Some s
     /\ DecodeLogRecordPosition (Bytes_of_string s) = Some (mkPst 3 4096))
  <-> 4096 < 2 ^ 31.
Proof. apply (position_codec (mkPst 3 4096)); simpl; lia. Defined.
