(* ===== verification/FileIO.v ===== *)
(** * Files (src/bitdb/io/file_io.{h,cpp}, io_interface.{h,cpp}, utils/os_utils.h)

    The host as a map from path to contents and a set of directories, and the
    system calls the program makes on it.  The host may let a call of FileIO
    fail, or transfer less than asked for: [faults] lists what happens to the
    next of these calls in order, and calls succeed once it is empty.  A file is
    known by the path it was opened with (no open file is renamed or unlinked by
    the code modelled here); paths are compared as strings. *)

From S2P Require Import Prelude Strings Bytes Status.

(** ** The host *)

Inductive fault :=
| Pass              (** the call succeeds *)
| Short (n : nat)   (** at most [n] bytes are transferred *)
| Fail.             (** the call returns -1 *)

Record World := mkWorld {
  files : gmap bytes bytes;
  dirs : gset bytes;
  faults : list fault
}.

Definition set_files (f : gmap bytes bytes) (w : World) : World := mkWorld f (dirs w) (faults w).
Definition set_dirs (d : gset bytes) (w : World) : World := mkWorld (files w) d (faults w).

(** The outcome of the next system call. *)
Definition next_fault : M World Status fault := fun w =>
  match faults w with
  | [] => (Ret Pass, w)
  | f :: fs => (Ret f, mkWorld (files w) (dirs w) fs)
  end.

Definition slash : byte := z2b 47.

(** The directory a path lies in. *)
Definition parent_dir (path : bytes) : bytes :=
  match find_last_of slash path with Some i => take i path | None => lit "." end.

(** What one call of [read] or [write] transfers at most on Linux. *)
Definition K_MAX_TRANSFER : Z := 0x7ffff000.

(** ** FileIO *)

(** [fd_]: the open file, or [None] for -1. *)
Record FileIO := mkFileIO { fd_ : option bytes }.

(** The constructor: [open] with O_CREAT | O_RDWR | O_APPEND; a failure is only
    logged.  NewIOHandler allocates one and never answers null. *)
Definition NewIOHandler (file_name : bytes) : M World Status FileIO :=
  f ← next_fault;
  match f with
  | Fail => mret (mkFileIO None)
  | _ =>
      w ← get;
      match files w !! file_name with
      | Some _ => mret (mkFileIO (Some file_name))
      | None =>
          if decide ((file_name ∉ dirs w) /\ parent_dir file_name ∈ dirs w) then
            put (set_files (<[file_name := []]> (files w)) w);;
            mret (mkFileIO (Some file_name))
          else mret (mkFileIO None)
      end
  end.

(** The contents behind a descriptor; an open file exists. *)
Definition contents (io : FileIO) (w : World) : option bytes :=
  p ← fd_ io; files w !! p.

(** [pread64]: the bytes read, or [None] for -1. *)
Definition Read (io : FileIO) (count offset : Z) : M World Status (option bytes) :=
  f ← next_fault;
  w ← get;
  mret (match f, contents io w with
        | Fail, _ | _, None => None
        | Short n, Some c => Some (take n (take (Z.to_nat (Z.min count K_MAX_TRANSFER)) (drop (Z.to_nat offset) c)))
        | Pass, Some c => Some (take (Z.to_nat (Z.min count K_MAX_TRANSFER)) (drop (Z.to_nat offset) c))
        end).

(** [write] on a file opened with O_APPEND: the number of bytes written, or
    [None] for -1. *)
Definition Write (io : FileIO) (buf : bytes) : M World Status (option nat) :=
  f ← next_fault;
  w ← get;
  let buf := take (Z.to_nat (Z.min (Z.of_nat (length buf)) K_MAX_TRANSFER)) buf in
  match f, fd_ io, contents io w with
  | Fail, _, _ | _, None, _ | _, _, None => mret None
  | Short n, Some p, Some c =>
      put (set_files (<[p := c ++ take n buf]> (files w)) w);;
      mret (Some (length (take n buf)))
  | Pass, Some p, Some c =>
      put (set_files (<[p := c ++ buf]> (files w)) w);;
      mret (Some (length buf))
  end.

(** [fsync]: whether it succeeded. *)
Definition FSync (io : FileIO) : M World Status bool :=
  f ← next_fault;
  mret (match f, fd_ io with Fail, _ | _, None => false | _, _ => true end).

(** Size: 0 when [fstat] fails. *)
Definition Size (io : FileIO) : M World Status Z :=
  w ← get;
  mret (match contents io w with Some c => Z.of_nat (length c) | None => 0%Z end).

(** ** os_utils.h *)

(** CheckOrCreateDirectory. *)
Definition CheckOrCreateDirectory (dir_path : bytes) : M World Status bool :=
  w ← get;
  if decide (dir_path ∈ dirs w) then mret true
  else if decide (is_Some (files w !! dir_path)) then mret false
  else if decide (parent_dir dir_path ∈ dirs w) then
    put (set_dirs ({[ dir_path ]} ∪ dirs w) w);; mret true
  else mret false.

Definition IsFileExist (file_path : bytes) : M World Status bool :=
  w ← get; mret (bool_decide (is_Some (files w !! file_path) \/ file_path ∈ dirs w)).

(** RemoveFile: ends the process when [unlink] fails. *)
Definition RemoveFile (file_name : bytes) : M World Status unit :=
  w ← get;
  if decide (is_Some (files w !! file_name))
  then put (set_files (delete file_name (files w)) w) else undef ProcessExit.

(** The name of a path within a directory, when it is an entry of it. *)
Definition entry_of (dir path : bytes) : option bytes :=
  if decide (parent_dir path = dir /\ (dir ++ [slash]) `prefix_of` path)
  then Some (drop (S (length dir)) path) else None.

(** The order in which [readdir] lists a directory is up to the host. *)
Class DirOrder := {
  dir_order : list bytes -> list bytes;
  dir_order_perm : forall l, dir_order l ≡ₚ l
}.

Section dir_order.
Context `{DirOrder}.

Definition entries (dir : bytes) (w : World) : list bytes :=
  omap (entry_of dir) ((map_to_list (files w)).*1 ++ elements (dirs w)).

(** [opendir] and [readdir] to the end; [None] when there is no such directory. *)
Definition list_dir (dir : bytes) : M World Status (option (list bytes)) :=
  w ← get;
  mret (if decide (dir ∈ dirs w)
        then Some (dir_order (lit "." :: lit ".." :: entries dir w)) else None).

(** RemoveDir, with the entries it finds; [fuel] bounds the depth of the tree. *)
Fixpoint RemoveDir (fuel : nat) (dir_name : bytes) : M World Status unit :=
  match fuel with
  | O => undef OutOfFuel
  | S fuel =>
      l ← list_dir dir_name;
      match l with
      | None => undef ProcessExit
      | Some l =>
          (fix go (l : list bytes) : M World Status unit :=
             match l with
             | [] => mret tt
             | file_name :: l =>
                 if decide (file_name = lit "." \/ file_name = lit "..") then go l
                 else
                   let full_file_name := Format (lit "{}/{}") [dir_name; file_name] in
                   w ← get;
                   (if decide (full_file_name ∈ dirs w) then RemoveDir fuel full_file_name
                    else if decide (is_Some (files w !! full_file_name))
                    then RemoveFile full_file_name else mret tt);;
                   go l
             end) l;;
          w ← get;
          match entries dir_name w with
          | [] => put (set_dirs (dirs w ∖ {[ dir_name ]}) w)
          | _ => undef ProcessExit
          end
      end
  end.
End dir_order.

(** [std::rename] of a regular file; [false] for -1, which is the answer for the
    entries [.] and [..]. *)
Definition rename (old_path new_path : bytes) : M World Status bool :=
  w ← get;
  match files w !! old_path with
  | Some c =>
      if decide (new_path ∈ dirs w) then mret false
      else if decide (parent_dir new_path ∈ dirs w) then
        put (set_files (<[new_path := c]> (delete old_path (files w))) w);; mret true
      else mret false
  | None => mret false
  end.

(** ** Lemmas: calls on a host with no faults left *)

Definition no_faults (w : World) : Prop := faults w = [].

Lemma next_fault_none w : no_faults w -> next_fault w = (Ret Pass, w).
Proof. unfold no_faults, next_fault. by intros ->. Qed.

Lemma contents_file w p c :
  files w !! p = Some c -> contents (mkFileIO (Some p)) w = Some c.
Proof. done. Qed.

Lemma Size_file w p c :
  files w !! p = Some c -> Size (mkFileIO (Some p)) w = (Ret (Z.of_nat (length c)), w).
Proof. intros E. unfold Size. autorewrite with monad. by rewrite (contents_file _ _ _ E). Qed.

Lemma Read_file w p c n off :
  no_faults w -> files w !! p = Some c ->
  Read (mkFileIO (Some p)) n off w
  = (Ret (Some (take (Z.to_nat (Z.min n K_MAX_TRANSFER)) (drop (Z.to_nat off) c))), w).
Proof.
  intros Hf E. unfold Read. mstep (next_fault_none w Hf).
  by rewrite (contents_file _ _ _ E).
Qed.

Lemma Write_file w p c buf :
  no_faults w -> files w !! p = Some c -> (Z.of_nat (length buf) <= K_MAX_TRANSFER)%Z ->
  Write (mkFileIO (Some p)) buf w
  = (Ret (Some (length buf)), set_files (<[p := c ++ buf]> (files w)) w).
Proof.
  intros Hf E Hl. unfold Write. mstep (next_fault_none w Hf).
  rewrite Z.min_l, Nat2Z.id, take_ge by lia. by rewrite (contents_file _ _ _ E).
Qed.

Lemma FSync_file w p : no_faults w -> FSync (mkFileIO (Some p)) w = (Ret true, w).
Proof. intros Hf. unfold FSync. by mstep (next_fault_none w Hf). Qed.

Lemma NewIOHandler_existing w p c :
  no_faults w -> files w !! p = Some c ->
  NewIOHandler p w = (Ret (mkFileIO (Some p)), w).
Proof.
  intros Hf E. unfold NewIOHandler. mstep (next_fault_none w Hf).
  by rewrite E.
Qed.

Lemma NewIOHandler_new w p :
  no_faults w -> files w !! p = None -> p ∉ dirs w -> parent_dir p ∈ dirs w ->
  NewIOHandler p w = (Ret (mkFileIO (Some p)), set_files (<[p := []]> (files w)) w).
Proof.
  intros Hf E Hd Hp. unfold NewIOHandler. mstep (next_fault_none w Hf).
  rewrite E. by rewrite decide_True.
Qed.

Lemma find_last_of_app c (d n : bytes) : c ∉ n -> find_last_of c (d ++ c :: n) = Some (length d).
Proof.
  intros Hn. assert (Hnone : find_last_of c n = None).
  { induction n as [|b n IH]; [done|]. apply not_elem_of_cons in Hn as [Hb Hn]. simpl.
    rewrite (IH Hn), decide_False; congruence. }
  induction d as [|b d IH]; simpl; [by rewrite Hnone, decide_True|]. by rewrite IH.
Qed.

Lemma parent_dir_app d n : slash ∉ n -> parent_dir (d ++ slash :: n) = d.
Proof. intros Hn. unfold parent_dir. by rewrite find_last_of_app, take_app_length. Qed.

Lemma entry_of_app d n : slash ∉ n -> entry_of d (d ++ slash :: n) = Some n.
Proof.
  intros Hn. unfold entry_of. rewrite decide_True.
  - rewrite cons_middle, app_assoc, drop_app_length'; [done|]. rewrite length_app. simpl. lia.
  - split; [by apply parent_dir_app|]. exists n. by rewrite <-app_assoc.
Qed.

Lemma entry_of_Some d p n : entry_of d p = Some n -> p = d ++ slash :: n /\ parent_dir p = d.
Proof.
  unfold entry_of. case_decide as Hd; [|done]. destruct Hd as [Hp [k ->]]. intros [= <-].
  split; [|done]. rewrite <-app_assoc. simpl. f_equal.
  rewrite cons_middle, app_assoc, drop_app_length'; [done|]. rewrite length_app. simpl. lia.
Qed.
