(* ===== verification/DataFile.v ===== *)
(** * Data files (src/bitdb/data/data_file.{h,cpp})

    A data file is an append-only sequence of encoded log records.  The model
    keeps the source's order of checks in ReadLogRecord, its 32-bit arithmetic
    on sizes, and the reads that would leave the buffers ([Undef]). *)

From S2P Require Import Prelude Coding Strings Bytes Status LogRecord FileIO.
Local Open Scope Z_scope.

(** ** Names *)

Definition K_DATA_FILE_SUFFIX : bytes := lit ".bitdb-data".
Definition K_HINT_FILE_NAME : bytes := lit "hint-index".
Definition K_MERGED_FILE_NAME : bytes := lit "merged".
Definition K_MERGENCE_FOLDER_SUFFIX : bytes := lit "-merge".
Definition K_MERGED_LOG_RECORD_KEY : bytes := lit "merged".

Definition GetDataFileName (path : bytes) (file_id : Z) : bytes :=
  Format (lit "{}/{}{}") [path; to_string file_id; K_DATA_FILE_SUFFIX].

Definition GetHintFileName (path : bytes) : bytes :=
  Format (lit "{}/{}") [path; K_HINT_FILE_NAME].

Definition GetMergedFileName (path : bytes) : bytes :=
  Format (lit "{}/{}") [path; K_MERGED_FILE_NAME].

Definition GetMergenceDirectory (db_path : bytes) : bytes :=
  Format (lit "{}/{}") [db_path; PathBase db_path ++ K_MERGENCE_FOLDER_SUFFIX].

(** ** Operations *)

Record DataFile := mkDataFile { file_id : Z; write_off : Z; io_handler : FileIO }.

Definition set_write_off (off : Z) (df : DataFile) : DataFile :=
  mkDataFile (file_id df) off (io_handler df).

Definition NewDataFile (file_name : bytes) (file_id : Z) : M World Status DataFile :=
  io ← NewIOHandler file_name;
  mret (mkDataFile file_id 0 io).

Definition OpenDataFile (path : bytes) (file_id : Z) : M World Status DataFile :=
  NewDataFile (GetDataFileName path file_id) file_id.
Definition OpenHintFile (path : bytes) : M World Status DataFile :=
  NewDataFile (GetHintFileName path) 0.
Definition OpenMergedFile (path : bytes) : M World Status DataFile :=
  NewDataFile (GetMergedFileName path) 0.

(** ReadNBytes: a failed read gives the empty string. *)
Definition ReadNBytes (df : DataFile) (n offset : Z) : M World Status bytes :=
  res ← Read (io_handler df) n offset;
  mret (default [] res).

(** A [LogRecord] declared without initialiser: its type is indeterminate. *)
Definition LogRecord_uninit : LogRecord := mkRecord [] [] (UnnamedLogRecord NUL).

Section crc.
Context `{Crc : Crc32cLib}.

(** The record at [offset] and its size; size 0 at the end of the file. *)
Definition ReadLogRecord (df : DataFile) (offset : Z) : M World Status (LogRecord * Z) :=
  file_size ← Size (io_handler df);
  if file_size =? 0 then
    throw (IOError (lit "Data::ReadLogRecord") (lit "file size equals zero."))
  else if file_size =? offset then mret (LogRecord_uninit, 0)
  else
    let max := Z.of_nat K_MAX_LOG_RECORD_HEADER_SIZE in
    let try_read_header_size :=
      if u64 (offset + max) >? file_size then file_size - offset else max in
    (* a negative size of the variable-length array *)
    if try_read_header_size <? 0 then undef OutOfBounds else
    header_buf ← ReadNBytes df try_read_header_size offset;
    match header_buf with
    | [] => throw (IOError (lit "Data::ReadLogRecord") (lit "header equals zero."))
    | _ =>
      '(header, header_size) ←
        some_or AssertFailed (DecodeLogRecordHeader (Bytes_of_string header_buf));
      if header_size =? 0 then
        throw (IOError (lit "Data::ReadLogRecord") (lit "io EOF"))
      else if (crc header =? 0) && (key_size header =? 0) && (value_size header =? 0) then
        throw (IOError (lit "Data::ReadLogRecord") (lit "io EOF"))
      else
        let ks := key_size header in
        let vs := value_size header in
        let record_size := u32 (u32 (header_size + ks) + vs) in
        r ←
          (if (ks >? 0) || (vs >? 0) then
             if negb (u32 (ks + vs) <? file_size) then undef AssertFailed else
             kv_buf ← ReadNBytes df (u32 (ks + vs)) (offset + header_size);
             match kv_buf with
             | [] => throw (IOError (lit "Data::ReadLogRecord")
                              (lit "kv pair size equals zero"))
             | _ =>
                 if Z.of_nat (length kv_buf) <? ks + vs then undef OutOfBounds else
                 mret (mkRecord (take (Z.to_nat ks) kv_buf)
                         (take (Z.to_nat vs) (drop (Z.to_nat ks) kv_buf))
                         (record_type header))
             end
           else mret (mkRecord [] [] (record_type header)));
        if Z.of_nat (length header_buf) <? header_size then undef OutOfBounds else
        c ← some_or OutOfBounds (GetLogRecordCRC r (take (Z.to_nat header_size) header_buf));
        if negb (c =? crc header) then
          throw (Corruption (lit "DataFile::ReadLogRecord")
                   (lit "invalid crc value, log record maybe corrupted."))
        else mret (r, record_size)
    end.
End crc.

(** Write: a short write counts as a success of the bytes it wrote. *)
Definition DataFile_Write (df : DataFile) (buf : bytes) : M World Status DataFile :=
  res ← Write (io_handler df) buf;
  match res with
  | None => throw (IOError (lit "DataFile::Write") (lit "write datafile failed."))
  | Some size => mret (set_write_off (write_off df + Z.of_nat size) df)
  end.

Definition DataFile_Sync (df : DataFile) : M World Status unit :=
  ok ← FSync (io_handler df);
  if (ok : bool) then mret tt
  else throw (IOError (lit "DataFile::Sync()") (lit "sync failed.")).

(** WriteHintRecord: the key is taken as a C string; the record's type is
    value-initialised. *)
Definition WriteHintRecord `{Crc32cLib} (hint_file : DataFile) (k : Bytes)
    (p : LogRecordPst) : M World Status DataFile :=
  s ← some_or OutOfBounds (c_str (data_ k));
  v ← some_or OutOfBounds (EncodeLogRecordPosition p);
  DataFile_Write hint_file (EncodeLogRecord (mkRecord s v (UnnamedLogRecord NUL))).

(** ** Lemmas *)

(** The data file is open on a file with contents [c]. *)
Definition file_at (w : World) (df : DataFile) (c : bytes) : Prop :=
  exists p, fd_ (io_handler df) = Some p /\ files w !! p = Some c.

Lemma ReadNBytes_file w df c n off :
  no_faults w -> file_at w df c ->
  n <= K_MAX_TRANSFER ->
  ReadNBytes df n off w = (Ret (take (Z.to_nat n) (drop (Z.to_nat off) c)), w).
Proof.
  intros Hf (p & Hp & E) Hn. unfold ReadNBytes. destruct df as [? ? [fd]]. simpl in *. subst.
  mstep (Read_file w p c n off Hf E). by rewrite Z.min_l.
Qed.

Lemma Size_at w df c :
  file_at w df c -> Size (io_handler df) w = (Ret (Z.of_nat (length c)), w).
Proof. intros (p & Hp & E). destruct df as [? ? [fd]]. simpl in *. subst. by apply Size_file. Qed.

Section crc.
Context `{Crc : Crc32cLib}.

Lemma ReadLogRecord_eof w df c :
  file_at w df c -> c ≠ [] ->
  ReadLogRecord df (Z.of_nat (length c)) w = (Ret (LogRecord_uninit, 0), w).
Proof.
  intros Hc Hne. unfold ReadLogRecord. mstep (Size_at w df c Hc).
  apply nonempty_length in Hne. rewrite (proj2 (Z.eqb_neq _ 0)), Z.eqb_refl by lia. done.
Qed.

(** The buffer the header is read into holds the whole header of a record that
    starts at the offset. *)
Lemma header_buf_of r (pre post : bytes) :
  key r ≠ [] ->
  exists tail, take (Z.to_nat (if Z.of_nat (length pre) + 15 >?
        Z.of_nat (length (pre ++ EncodeLogRecord r ++ post))
      then Z.of_nat (length (pre ++ EncodeLogRecord r ++ post)) - Z.of_nat (length pre)
      else 15)) (EncodeLogRecord r ++ post) = header_bytes r ++ tail.
Proof.
  intros Hk. rewrite EncodeLogRecord_eq by done. rewrite <-!app_assoc.
  set (rest := key r ++ value r ++ post). rewrite !length_app.
  pose proof (header_bytes_length r). pose proof (header_tail_length r).
  destruct (Z.gtb_spec (Z.of_nat (length pre) + 15)
    (Z.of_nat (length pre + (length (header_bytes r) + length rest)))).
  - exists rest. rewrite take_ge; [done|]. rewrite length_app. lia.
  - eexists. rewrite take_app_ge by lia. done.
Qed.

(** A record read at the offset it was written at is the record. *)
Lemma ReadLogRecord_record w df r pre post :
  no_faults w -> record_wf r ->
  file_at w df (pre ++ EncodeLogRecord r ++ post) ->
  Z.of_nat (length pre) + 15 < 2 ^ 64 ->
  ReadLogRecord df (Z.of_nat (length pre)) w
  = (Ret (r, Z.of_nat (length (EncodeLogRecord r))), w).
Proof.
  intros Hf Hwf Hc Hoff. pose proof Hwf as [Hk Ht Hs]. unfold K_MAX_TRANSFER in *.
  pose proof (header_bytes_length r) as Hhl. pose proof (header_tail_length r) as Htl.
  pose proof (EncodeLogRecord_length r Hk) as Hel.
  pose proof (nonempty_length _ Hk) as Hkl.
  set (c := pre ++ EncodeLogRecord r ++ post) in *.
  assert (Hcl : length c = (length pre + (length (EncodeLogRecord r) + length post))%nat)
    by (unfold c; by rewrite !length_app).
  unfold ReadLogRecord. mstep (Size_at w df c Hc).
  rewrite (proj2 (Z.eqb_neq _ _)) by lia. rewrite (proj2 (Z.eqb_neq _ _)) by lia.
  change (Z.of_nat K_MAX_LOG_RECORD_HEADER_SIZE) with 15. unfold u64.
  rewrite (Z.mod_small (_ + 15)) by lia.
  set (n := if _ >? _ then _ else 15).
  assert ((n <? 0) = false) as -> by (unfold n; destruct (_ >? _); lia).
  destruct (header_buf_of r pre post Hk) as [tail Htail]. fold c in Htail. fold n in Htail.
  assert (Hbuf : ReadNBytes df n (Z.of_nat (length pre)) w = (Ret (header_bytes r ++ tail), w)).
  { rewrite (ReadNBytes_file w df c) by (done || (unfold n, K_MAX_TRANSFER; destruct (_ >? _) eqn:?; lia)). rewrite Nat2Z.id. unfold c.
    by rewrite drop_app_length, Htail. }
  mstep Hbuf. clear Hbuf Htail n.
  assert (Hmatch : forall (x y : M World Status (LogRecord * Z)),
    match header_bytes r ++ tail with [] => x | _ => y end = y).
  { destruct (header_bytes r ++ tail) eqn:E; [|done]. apply (f_equal length) in E.
    rewrite length_app in E. simpl in E. lia. }
  rewrite Hmatch. unfold Bytes_of_string. rewrite <-(app_assoc (header_bytes r) tail [NUL]).
  rewrite DecodeLogRecordHeader_header by (rewrite ?length_app; done || lia).
  autorewrite with monad. cbn [crc key_size value_size record_type].
  rewrite (proj2 (Z.eqb_neq _ 0)) by lia. rewrite (proj2 (Z.eqb_neq (Z.of_nat (length (key r))) 0)) by lia.
  rewrite andb_false_r. cbn [andb].
  rewrite (proj2 (Z.gtb_lt _ 0)) by lia. cbn [orb]. unfold u32.
  rewrite !Z.mod_small by (rewrite ?Z.mod_small; lia).
  rewrite (proj2 (Z.ltb_lt _ (Z.of_nat (length c)))) by lia. cbn [negb].
  rewrite bind_assoc.
  assert (Hkv : ReadNBytes df (Z.of_nat (length (key r)) + Z.of_nat (length (value r)))
    (Z.of_nat (length pre) + Z.of_nat (length (header_bytes r))) w = (Ret (key r ++ value r), w)).
  { rewrite (ReadNBytes_file w df c) by (done || (unfold K_MAX_TRANSFER; lia)). unfold c. rewrite EncodeLogRecord_eq by done.
    rewrite <-!Nat2Z.inj_add, !Nat2Z.id, <-drop_drop, drop_app_length, <-!app_assoc.
    rewrite drop_app_length, app_assoc, take_app_length'; [done|]. by rewrite length_app. }
  mstep Hkv.
  assert (Hkvm : forall (x y : M World Status LogRecord),
    match key r ++ value r with [] => x | _ => y end = y).
  { destruct (key r); [done|]. done. }
  rewrite Hkvm, !Nat2Z.id, !take_app_length, drop_app_length.
  rewrite (take_ge (value r)) by lia. rewrite length_app, (proj2 (Z.ltb_ge _ _)) by lia.
  assert (mkRecord (key r) (value r) (type r) = r) as -> by (by destruct r).
  autorewrite with monad. rewrite length_app, (proj2 (Z.ltb_ge _ _)) by lia.
  cbv beta iota. autorewrite with monad. rewrite GetLogRecordCRC_header. autorewrite with monad. rewrite Z.eqb_refl. cbn [negb].
  rewrite Hel. unfold mret, M_ret. do 3 f_equal. lia.
Qed.
End crc.
