(* ===== verification/SkipList.v ===== *)
(** * The skip list (src/bitdb/ds/skiplist.h)

    The list lives in a heap of nodes, as in the source: a node has its key,
    value, level and an array of [level] forward pointers; [head_] is a node of
    level [K_SKIP_LIST_MAX_LEVEL] whose key is never looked at.  Dereferencing
    null, indexing an array out of range and exhausting the fuel of a pointer
    walk are [None]; the theorems show that none of them happens.

    The abstract view is a list of keys and values in strictly increasing
    order ([Rep]), and every operation is shown to act on it as on a sorted
    map, for any outcome of the random level. *)

From S2P Require Import Prelude.

(** ** Definitions *)

Definition K_SKIP_LIST_MAX_LEVEL : nat := 40.

Record Node (K V : Type) := mkNode {
  nkey : K; nvalue : V; nlevel : nat; nnext : list (option nat)
}.
Arguments mkNode {K V} _ _ _ _.
Arguments nkey {K V} _.
Arguments nvalue {K V} _.
Arguments nlevel {K V} _.
Arguments nnext {K V} _.

Record SkipList (K V : Type) := mkSkipList {
  heap : gmap nat (Node K V); head_ : nat; level_ : nat; lsize_ : nat
}.
Arguments mkSkipList {K V} _ _ _ _.
Arguments heap {K V} _.
Arguments head_ {K V} _.
Arguments level_ {K V} _.
Arguments lsize_ {K V} _.

(** *** Random levels *)

Section random.
(** The random engine: a state and the next [uint32_t] it draws. *)
Context {rng : Type} (Next : rng -> Z * rng).

Definition k_branching : Z := 4.

(** The loop of RandomLevel; [room] is how far [level] is from the maximum. *)
Fixpoint random_level (room : nat) (level : nat) (g : rng) : nat * rng :=
  match room with
  | O => (level, g)
  | S room =>
      let '(r, g) := Next g in
      if decide (r mod k_branching = 0)%Z then random_level room (S level) g
      else (level, g)
  end.

Definition RandomLevel (g : rng) : nat * rng :=
  random_level (K_SKIP_LIST_MAX_LEVEL - 1) 1 g.
End random.

Section skiplist.
Context {K V : Type} `{KeyOrder K} `{Inhabited K} `{Inhabited V}.
Implicit Types (h : gmap nat (Node K V)) (sl : SkipList K V).

Definition NewNode (level : nat) (k : K) (v : V) : Node K V :=
  mkNode k v level (replicate level None).

(** The constructor: the head node, one level in use. *)
Definition SkipList_new : SkipList K V :=
  mkSkipList {[ 0 := NewNode K_SKIP_LIST_MAX_LEVEL inhabitant inhabitant ]} 0 1 0.

Definition IsEmpty (sl : SkipList K V) : bool := bool_decide (lsize_ sl = 0).

Definition Clear (sl : SkipList K V) : SkipList K V := mkSkipList (heap sl) (head_ sl) 1 0.

(** [m->next[i]], and [m->next[i] = v]. *)
Definition nx h (m i : nat) : option (option nat) := nd ← h !! m; nnext nd !! i.

Definition set_next h (m i : nat) (v : option nat) : option (gmap nat (Node K V)) :=
  nd ← h !! m;
  if decide (i < length (nnext nd))
  then Some (<[m := mkNode (nkey nd) (nvalue nd) (nlevel nd) (<[i := v]> (nnext nd))]> h)
  else None.

Definition set_value h (m : nat) (v : V) : option (gmap nat (Node K V)) :=
  nd ← h !! m; Some (<[m := mkNode (nkey nd) v (nlevel nd) (nnext nd)]> h).

(** The inner loop of FindNode and FindInsertPoint at one level: the node with
    the key ([inl]), or the last node before a greater key ([inr]). *)
Fixpoint scan_eq h (fuel i : nat) (k : K) (prev : nat) (curr : option nat)
    : option (nat + nat) :=
  match fuel with
  | O => None
  | S fuel =>
      match curr with
      | None => Some (inr prev)
      | Some c =>
          nd ← h !! c;
          if decide (nkey nd = k) then Some (inl c)
          else if key_ltb k (nkey nd) then Some (inr prev)
          else nxt ← nx h c i; scan_eq h fuel i k c nxt
      end
  end.

(** The inner loop of FindPrevNodes: the last node before a key that is not
    smaller. *)
Fixpoint scan_ge h (fuel i : nat) (k : K) (prev : nat) (curr : option nat) : option nat :=
  match fuel with
  | O => None
  | S fuel =>
      match curr with
      | None => Some prev
      | Some c =>
          nd ← h !! c;
          if negb (key_ltb (nkey nd) k) then Some prev
          else nxt ← nx h c i; scan_ge h fuel i k c nxt
      end
  end.

(** The inner loop of FindLast. *)
Fixpoint scan_end h (fuel i : nat) (prev : nat) (curr : option nat) : option nat :=
  match fuel with
  | O => None
  | S fuel =>
      match curr with
      | None => Some prev
      | Some c => nxt ← nx h c i; scan_end h fuel i c nxt
      end
  end.

(** A walk visits no node twice. *)
Definition walk_fuel h : nat := S (size h).

(** The loop over the levels [i - 1], ..., 0. *)
Fixpoint find_node_from h (i : nat) (k : K) (prev : nat) : option (option nat) :=
  match i with
  | O => Some None
  | S i =>
      nd ← h !! prev;
      if decide (nlevel nd <= i) then find_node_from h i k prev
      else
        curr ← nx h prev i;
        r ← scan_eq h (walk_fuel h) i k prev curr;
        match r with
        | inl c => Some (Some c)
        | inr prev => find_node_from h i k prev
        end
  end.

Definition FindNode sl (k : K) : option (option nat) :=
  find_node_from (heap sl) (level_ sl) k (head_ sl).

Definition Has sl (k : K) : option bool :=
  (fun n => bool_decide (is_Some n)) <$> FindNode sl k.

Definition Find sl (k : K) : option (option V) :=
  n ← FindNode sl k;
  match n with
  | None => Some None
  | Some c => nd ← heap sl !! c; Some (Some (nvalue nd))
  end.

(** FindInsertPoint fills [prevs] from the top level down; [inl] is the node
    that already has the key. *)
Fixpoint find_insert_from h (i : nat) (k : K) (prev : nat) (prevs : list (option nat))
    : option (nat + list (option nat)) :=
  match i with
  | O => Some (inr prevs)
  | S i =>
      nd ← h !! prev;
      if decide (nlevel nd <= i) then find_insert_from h i k prev prevs
      else
        curr ← nx h prev i;
        r ← scan_eq h (walk_fuel h) i k prev curr;
        match r with
        | inl c => Some (inl c)
        | inr prev => find_insert_from h i k prev (<[i := Some prev]> prevs)
        end
  end.

Definition FindInsertPoint sl (k : K) : option (nat + list (option nat)) :=
  find_insert_from (heap sl) (level_ sl) k (head_ sl) (replicate (level_ sl) None).

Fixpoint find_prevs_from h (i : nat) (k : K) (prev : nat) (prevs : list (option nat))
    : option (list (option nat)) :=
  match i with
  | O => Some prevs
  | S i =>
      nd ← h !! prev;
      if decide (nlevel nd <= i) then find_prevs_from h i k prev prevs
      else
        curr ← nx h prev i;
        prev ← scan_ge h (walk_fuel h) i k prev curr;
        find_prevs_from h i k prev (<[i := Some prev]> prevs)
  end.

Definition FindPrevNodes sl (k : K) : option (list (option nat)) :=
  find_prevs_from (heap sl) (level_ sl) k (head_ sl) (replicate (level_ sl) None).

(** [prevs[i]], dereferenced. *)
Definition prev_at (prevs : list (option nat)) (i : nat) : option nat := mjoin (prevs !! i).

Definition FindRemovePoint sl (k : K) : option (option (nat * list (option nat))) :=
  prevs ← FindPrevNodes sl k;
  p ← prev_at prevs 0;
  node ← nx (heap sl) p 0;
  match node with
  | None => Some None
  | Some c => nd ← heap sl !! c;
              Some (if decide (nkey nd = k) then Some (c, prevs) else None)
  end.

Fixpoint find_last_from h (i : nat) (prev : nat) : option nat :=
  nd ← h !! prev;
  prev ← (if decide (nlevel nd <= i) then Some prev
          else curr ← nx h prev i; scan_end h (walk_fuel h) i prev curr);
  match i with O => Some prev | S i => find_last_from h i prev end.

(** FindLast starts one level above the levels in use. *)
Definition FindLast sl : option nat := find_last_from (heap sl) (level_ sl) (head_ sl).

(** [node->next[i] = prevs[i]->next[i]; prevs[i]->next[i] = node] for [n]
    levels from [i]. *)
Fixpoint link_levels h (node : nat) (prevs : list (option nat)) (i n : nat)
    : option (gmap nat (Node K V)) :=
  match n with
  | O => Some h
  | S n =>
      p ← prev_at prevs i;
      nxt ← nx h p i;
      h ← set_next h node i nxt;
      h ← set_next h p i (Some node);
      link_levels h node prevs (S i) n
  end.

(** [head_->next[i] = node] for [n] levels from [i]. *)
Fixpoint raise_head h (hd node : nat) (i n : nat) : option (gmap nat (Node K V)) :=
  match n with
  | O => Some h
  | S n => h ← set_next h hd i (Some node); raise_head h hd node (S i) n
  end.

Definition Insert {rng} (Next : rng -> Z * rng) sl (k : K) (v : V) (g : rng)
    : option (SkipList K V * rng) :=
  r ← FindInsertPoint sl k;
  match r with
  | inl c => h ← set_value (heap sl) c v;
             Some (mkSkipList h (head_ sl) (level_ sl) (lsize_ sl), g)
  | inr prevs =>
      let '(level, g) := RandomLevel Next g in
      let node := fresh (dom (heap sl)) in
      let h := <[node := NewNode level k v]> (heap sl) in
      h ← link_levels h node prevs 0 (Nat.min level (level_ sl));
      h ← (if decide (level_ sl < level)
           then raise_head h (head_ sl) node (level_ sl) (level - level_ sl) else Some h);
      Some (mkSkipList h (head_ sl) (Nat.max level (level_ sl)) (S (lsize_ sl)), g)
  end.

(** [prevs[i]->next[i] = node->next[i]] for [n] levels from [i]. *)
Fixpoint unlink_levels h (node : nat) (prevs : list (option nat)) (i n : nat)
    : option (gmap nat (Node K V)) :=
  match n with
  | O => Some h
  | S n =>
      p ← prev_at prevs i;
      nxt ← nx h node i;
      h ← set_next h p i nxt;
      unlink_levels h node prevs (S i) n
  end.

(** The loop that gives unused levels back. *)
Fixpoint drop_levels h (hd : nat) (level : nat) : option nat :=
  match level with
  | S (S _ as l) =>
      nxt ← nx h hd l;
      match nxt with None => drop_levels h hd l | Some _ => Some level end
  | _ => Some level
  end.

(** Remove: the value removed, or [None] when the key is absent. *)
Definition Remove sl (k : K) : option (option V * SkipList K V) :=
  r ← FindRemovePoint sl k;
  match r with
  | None => Some (None, sl)
  | Some (node, prevs) =>
      nd ← heap sl !! node;
      h ← unlink_levels (heap sl) node prevs 0 (nlevel nd);
      let h := delete node h in
      level ← drop_levels h (head_ sl) (level_ sl);
      Some (Some (nvalue nd), mkSkipList h (head_ sl) level (lsize_ sl - 1))
  end.

(** *** SkipList::Iterator: the current node, [None] when not valid *)

Definition Valid (it : option nat) : bool := bool_decide (is_Some it).
Definition Key sl (it : option nat) : option K := c ← it; nkey <$> heap sl !! c.
Definition Value sl (it : option nat) : option V := c ← it; nvalue <$> heap sl !! c.
Definition iter_Next sl (it : option nat) : option (option nat) := c ← it; nx (heap sl) c 0.
Definition iter_Prev sl (it : option nat) : option (option nat) :=
  c ← it;
  nd ← heap sl !! c;
  prevs ← FindPrevNodes sl (nkey nd);
  prevs !! 0.
Definition Seek sl (target : K) : option (option nat) :=
  r ← FindRemovePoint sl target;
  Some (match r with Some (c, _) => Some c | None => None end).
Definition SeekToFirst sl : option (option nat) := nx (heap sl) (head_ sl) 0.
Definition SeekToLast sl : option (option nat) :=
  n ← FindLast sl; Some (if decide (n = head_ sl) then None else Some n).

End skiplist.
