(* ===== verification/SkipListProofs.v ===== *)
(** * Correctness of the skip list

    [Rep sl ns]: the heap of [sl] is the linked structure of the nodes [ns] in
    key order.  Every pointer walk follows it, so a search returns the node of
    the key, an insertion and a removal change [ns] at one place, and the
    operations refine those of a finite map. *)

From S2P Require Import Prelude SkipList.

(** A node as the proofs see it: its address, key, value and level. *)
Record gnode (K V : Type) := mkG { gid : nat; gk : K; gv : V; gl : nat }.
Arguments mkG {K V} _ _ _ _.
Arguments gid {K V} _.
Arguments gk {K V} _.
Arguments gv {K V} _.
Arguments gl {K V} _.

Section rep.
Context {K V : Type} `{KO : KeyOrder K} `{Inhabited K} `{Inhabited V}.
Implicit Types (h : gmap nat (Node K V)) (sl : SkipList K V) (ns : list (gnode K V)).

Abbreviation above i := (fun n : gnode K V => i < gl n).

(** Where [next[i]] of a node points: the first later node of that level. *)
Definition first_above (i : nat) ns : option nat := gid <$> head (filter (above i) ns).
Definition links (lvl : nat) ns : list (option nat) := (fun i => first_above i ns) <$> seq 0 lvl.
Definition node_of (n : gnode K V) ns : Node K V := mkNode (gk n) (gv n) (gl n) (links (gl n) ns).

Fixpoint chain h ns : Prop :=
  match ns with
  | [] => True
  | n :: ns => h !! gid n = Some (node_of n ns) /\ chain h ns
  end.

Definition klt (a b : gnode K V) : Prop := key_ltb (gk a) (gk b) = true.

Record Rep_at (hd : gnode K V) sl ns : Prop := {
  rep_head : gid hd = head_ sl;
  rep_head_level : gl hd = K_SKIP_LIST_MAX_LEVEL;
  rep_chain : chain (heap sl) (hd :: ns);
  rep_nodup : NoDup (gid <$> hd :: ns);
  rep_sorted : StronglySorted klt ns;
  rep_levels : Forall (fun n => 1 <= gl n <= level_ sl) ns;
  rep_level : 1 <= level_ sl <= K_SKIP_LIST_MAX_LEVEL;
  rep_size : lsize_ sl = length ns
  }.

Definition Rep sl ns : Prop := exists hd, Rep_at hd sl ns.

(** ** Links *)

Lemma first_above_cons_above i n ns : i < gl n -> first_above i (n :: ns) = Some (gid n).
Proof. intros Hn. unfold first_above. by rewrite filter_cons_True. Qed.

Lemma first_above_cons_below i n ns : gl n <= i -> first_above i (n :: ns) = first_above i ns.
Proof. intros Hn. unfold first_above. rewrite filter_cons_False; [done|]. lia. Qed.

Lemma first_above_Some i ns q :
  first_above i ns = Some q ->
  exists a n b, ns = a ++ n :: b /\ gid n = q /\ i < gl n /\ Forall (fun m => gl m <= i) a.
Proof.
  induction ns as [|n ns IH]; [done|]. destruct (decide (i < gl n)).
  - rewrite first_above_cons_above by done. intros [= <-]. by exists [], n, ns.
  - rewrite first_above_cons_below by lia. intros (a & m & b & -> & ? & ? & ?)%IH.
    exists (n :: a), m, b. split_and!; try done. constructor; [lia|done].
Qed.

Lemma filter_below i ns : Forall (fun m => gl m <= i) ns -> filter (above i) ns = [].
Proof.
  induction 1 as [|m ns Hm _ IH]; [done|]. rewrite filter_cons_False; [done|lia].
Qed.

Lemma links_lookup lvl ns i : i < lvl -> links lvl ns !! i = Some (first_above i ns).
Proof. intros Hi. unfold links. by rewrite list_lookup_fmap, lookup_seq_lt. Qed.

Lemma links_length lvl ns : length (links lvl ns) = lvl.
Proof. unfold links. by rewrite length_fmap, length_seq. Qed.

Lemma chain_app h a b : chain h (a ++ b) -> chain h b.
Proof. induction a as [|n a IH]; [done|]. intros [_ Hc]. auto. Qed.

Lemma chain_node h a n b : chain h (a ++ n :: b) -> h !! gid n = Some (node_of n b).
Proof. intros Hc%chain_app. apply Hc. Qed.

Lemma chain_nx h a n b i :
  chain h (a ++ n :: b) -> i < gl n -> nx h (gid n) i = Some (first_above i b).
Proof.
  intros Hc Hi. unfold nx. rewrite (chain_node _ _ _ _ Hc). cbn. by apply links_lookup.
Qed.

Lemma chain_dom h ns : chain h ns -> NoDup (gid <$> ns) -> length ns <= size h.
Proof.
  intros Hc Hnd. rewrite <-size_dom, <-(length_fmap gid ns), <-(size_list_to_set (C := gset nat))
    by done.
  apply subseteq_size. intros x. rewrite elem_of_list_to_set, list_elem_of_fmap.
  intros (n & -> & (a & b & ->)%list_elem_of_split).
  apply elem_of_dom. rewrite (chain_node _ _ _ _ Hc). by eexists.
Qed.

(** ** Walking one level *)

Lemma scan_ge_spec h k i ge : forall b p fuel,
  length b < fuel -> chain h (b ++ ge) -> i < gl p ->
  Forall (fun n => key_ltb (gk n) k = true) b ->
  Forall (fun n => key_ltb (gk n) k = false) ge ->
  scan_ge h fuel i k (gid p) (first_above i (b ++ ge))
  = gid <$> last (filter (above i) (p :: b)).
Proof.
  induction b as [|n b IH]; intros p fuel Hf Hc Hp Hb Hge; (destruct fuel as [|fuel]; [simpl in Hf; lia|]).
  - rewrite filter_cons_True by done. simpl.
    destruct (first_above i ge) as [q|] eqn:E; [|done].
    apply first_above_Some in E as (a & n & c & -> & <- & ? & ?).
    rewrite (chain_node _ _ _ _ Hc). cbn.
    rewrite Forall_app, Forall_cons in Hge. destruct Hge as (_ & -> & _). done.
  - apply Forall_cons in Hb as [Hn Hb]. simpl in Hf. simpl app in *.
    rewrite filter_cons_True by done. destruct (decide (i < gl n)).
    + rewrite first_above_cons_above by done. cbn [scan_ge]. destruct Hc as [Hn' Hc].
      rewrite Hn'. cbn [mbind option_bind node_of nkey]. rewrite Hn. cbn [negb].
      rewrite (chain_nx h [] n (b ++ ge)) by done. cbn [mbind option_bind].
      rewrite IH by (done || lia). rewrite !filter_cons_True by done.
      by rewrite last_cons_cons.
    + rewrite first_above_cons_below by lia. rewrite (IH p (S fuel)) by (apply Hc || done || lia).
      rewrite filter_cons_True by done. rewrite (filter_cons_False _ n); [done|]. lia.
Qed.

(** What the search at one level meets first among the keys not smaller. *)
Definition hit (i : nat) (k : K) ns : option (gnode K V) :=
  q ← head (filter (above i) ns); if decide (gk q = k) then Some q else None.

Lemma hit_absent i k ns : Forall (fun n => gk n ≠ k) ns -> hit i k ns = None.
Proof.
  intros Hne. unfold hit. destruct (head (filter (above i) ns)) as [q|] eqn:E; [|done].
  apply head_filter_Some in E as (a & b & -> & _). cbn.
  rewrite Forall_app, Forall_cons in Hne. rewrite decide_False; [done|]. apply Hne.
Qed.

Lemma hit_present i k e gt :
  gk e = k -> Forall (fun n => gk n ≠ k) gt ->
  hit i k (e :: gt) = if decide (i < gl e) then Some e else None.
Proof.
  intros He Hgt. case_decide as Hi.
  - unfold hit. rewrite filter_cons_True by done. cbn. by rewrite decide_True.
  - unfold hit. rewrite filter_cons_False by done. by apply hit_absent.
Qed.

Lemma scan_eq_spec h k i ge : forall b p fuel,
  length b < fuel -> chain h (b ++ ge) -> i < gl p ->
  Forall (fun n => key_ltb (gk n) k = true) b ->
  Forall (fun n => key_ltb (gk n) k = false) ge ->
  scan_eq h fuel i k (gid p) (first_above i (b ++ ge))
  = match hit i k ge with
    | Some q => Some (inl (gid q))
    | None => (fun n => inr (gid n)) <$> last (filter (above i) (p :: b))
    end.
Proof.
  induction b as [|n b IH]; intros p fuel Hf Hc Hp Hb Hge; (destruct fuel as [|fuel]; [simpl in Hf; lia|]).
  - rewrite filter_cons_True by done. simpl. unfold hit.
    destruct (first_above i ge) as [q|] eqn:E.
    + apply first_above_Some in E as (a & n & c & -> & <- & Hn & Ha).
      rewrite (chain_node _ _ _ _ Hc). cbn [mbind option_bind node_of nkey].
      rewrite Forall_app, Forall_cons in Hge. destruct Hge as (_ & Hkn & _).
      rewrite filter_app, filter_cons_True by done.
      rewrite filter_below by done. cbn. case_decide; [done|].
      destruct (key_ltb k (gk n)) eqn:E; [done|]. by destruct (key_lt_total _ _ E Hkn).
    + unfold first_above in E. rewrite fmap_None in E. by rewrite E.
  - apply Forall_cons in Hb as [Hn Hb]. simpl in Hf. simpl app in *.
    rewrite filter_cons_True by done. destruct (decide (i < gl n)).
    + rewrite first_above_cons_above by done. cbn [scan_eq]. destruct Hc as [Hn' Hc].
      rewrite Hn'. cbn [mbind option_bind node_of nkey].
      rewrite decide_False by (by apply key_lt_ne). rewrite key_lt_asym by done.
      rewrite (chain_nx h [] n (b ++ ge)) by done. cbn [mbind option_bind].
      rewrite IH by (done || lia). rewrite !filter_cons_True by done.
      by rewrite last_cons_cons.
    + rewrite first_above_cons_below by lia. rewrite (IH p (S fuel)) by (apply Hc || done || lia).
      rewrite filter_cons_True by done. rewrite (filter_cons_False _ n); [done|]. lia.
Qed.

Lemma scan_end_spec h i : forall b p fuel,
  length b < fuel -> chain h b -> i < gl p ->
  scan_end h fuel i (gid p) (first_above i b) = gid <$> last (filter (above i) (p :: b)).
Proof.
  induction b as [|n b IH]; intros p fuel Hf Hc Hp; (destruct fuel as [|fuel]; [simpl in Hf; lia|]).
  - by rewrite filter_cons_True.
  - simpl in Hf. rewrite filter_cons_True by done. destruct (decide (i < gl n)).
    + rewrite first_above_cons_above by done. cbn [scan_end].
      rewrite (chain_nx h [] n b) by done. cbn [mbind option_bind].
      rewrite IH by (apply Hc || lia). rewrite !filter_cons_True by done.
      by rewrite last_cons_cons.
    + rewrite first_above_cons_below by lia. rewrite (IH p (S fuel)) by (apply Hc || lia).
      rewrite filter_cons_True by done. rewrite (filter_cons_False _ n); [done|]. lia.
Qed.

(** ** Descending the levels *)

(** The last node of [ns] on level [i], for a list whose first node is on it. *)
Definition last_above (i : nat) ns : option (gnode K V) := last (filter (above i) ns).

Lemma last_above_from i a p b :
  i < gl p -> last_above i (a ++ p :: b) = last_above i (p :: b).
Proof.
  intros Hp. unfold last_above. rewrite filter_app, !filter_cons_True by done.
  by rewrite last_app_cons.
Qed.

Lemma last_above_split i p b :
  i < gl p -> exists a q c, p :: b = a ++ q :: c /\ i < gl q
    /\ last_above i (p :: b) = Some q /\ Forall (fun n => gl n <= i) c.
Proof.
  intros Hp. unfold last_above. destruct (last (filter (above i) (p :: b))) as [q|] eqn:E.
  - destruct (last_filter_Some _ _ _ E) as (a & c & Eq & Hc).
    apply last_Some_elem_of, list_elem_of_filter in E as [Hq _].
    exists a, q, c. split_and!; [done..|]. eapply Forall_impl; [done|]. simpl. lia.
  - rewrite filter_cons_True in E by done. by apply last_None in E.
Qed.

Section descend.
(** A list cut at a key: [lt] before it, [ge] from it on. *)
Context (h : gmap nat (Node K V)) (hd : gnode K V) (lt ge : list (gnode K V)) (k : K).
Context (Hchain : chain h (hd :: lt ++ ge)) (Hsize : length (hd :: lt ++ ge) <= size h).
Context (Hlt : Forall (fun n => key_ltb (gk n) k = true) lt).
Context (Hge : Forall (fun n => key_ltb (gk n) k = false) ge).

(** The walk stands on [p], a node of level at least [i] before the key. *)
Definition cursor (i : nat) (p : gnode K V) : Prop :=
  exists a b, hd :: lt = a ++ p :: b /\ i <= gl p.

Lemma cursor_step i p :
  cursor (S i) p -> exists b q,
    h !! gid p = Some (node_of p (b ++ ge))
    /\ chain h (b ++ ge) /\ length b < walk_fuel h
    /\ Forall (fun n => key_ltb (gk n) k = true) b
    /\ last (filter (above i) (p :: b)) = Some q
    /\ last_above i (hd :: lt) = Some q /\ cursor i q.
Proof using Hchain Hlt Hsize.
  intros (a & b & E & Hp).
  assert (Es : hd :: lt ++ ge = a ++ p :: b ++ ge)
    by (rewrite app_comm_cons, E, <-app_assoc; done).
  destruct (last_above_split i p b Hp) as (a' & q & c & Eq & Hq & El & _).
  exists b, q. rewrite Es in Hchain, Hsize. split_and!.
  - by apply chain_node in Hchain.
  - by apply chain_app in Hchain as [_ ?].
  - rewrite length_app in Hsize. simpl in Hsize. rewrite length_app in Hsize.
    unfold walk_fuel. lia.
  - destruct a as [|? a]; injection E as -> ->; [done|].
    by apply Forall_app in Hlt as [_ [_ ?]%Forall_cons].
  - done.
  - rewrite E, last_above_from by done. done.
  - exists (a ++ a'), c. rewrite E, Eq, app_assoc. split; [done|lia].
Qed.

Lemma find_prevs_spec i : forall p prevs,
  cursor i p -> i <= length prevs ->
  exists prevs', find_prevs_from h i k (gid p) prevs = Some prevs'
    /\ (forall j, j < i -> prevs' !! j = Some (gid <$> last_above j (hd :: lt)))
    /\ (forall j, i <= j -> prevs' !! j = prevs !! j).
Proof using Hchain Hlt Hge Hsize.
  induction i as [|i IH]; intros p prevs Hc Hl.
  { exists prevs. split_and!; [done|lia|done]. }
  pose proof Hc as (? & ? & ? & Hp). destruct (cursor_step i p Hc)
    as (b & q & Hn & Hb & Hf & Hbk & Eq & El & Hq).
  cbn [find_prevs_from]. rewrite Hn. cbn [mbind option_bind node_of nlevel].
  rewrite decide_False by lia. unfold nx. rewrite Hn. cbn [mbind option_bind node_of nnext].
  rewrite links_lookup by lia. cbn [mbind option_bind].
  rewrite scan_ge_spec, Eq by (done || lia). cbn [fmap option_fmap option_map mbind option_bind].
  destruct (IH q (<[i := Some (gid q)]> prevs) Hq) as (prevs' & -> & Hlo & Hhi).
  { rewrite length_insert. lia. }
  exists prevs'. split; [done|]. split; intros j Hj.
  - destruct (decide (j = i)) as [->|]; [|apply Hlo; lia].
    rewrite Hhi by lia. rewrite list_lookup_insert_eq by lia. by rewrite El.
  - rewrite Hhi by lia. apply list_lookup_insert_ne. lia.
Qed.

Lemma find_insert_spec i : forall p prevs,
  Forall (fun n => gk n ≠ k) ge -> cursor i p -> i <= length prevs ->
  exists prevs', find_insert_from h i k (gid p) prevs = Some (inr prevs')
    /\ (forall j, j < i -> prevs' !! j = Some (gid <$> last_above j (hd :: lt)))
    /\ (forall j, i <= j -> prevs' !! j = prevs !! j).
Proof using Hchain Hlt Hge Hsize.
  intros p prevs Hne. revert p prevs. induction i as [|i IH]; intros p prevs Hc Hl.
  { exists prevs. split_and!; [done|lia|done]. }
  pose proof Hc as (? & ? & ? & Hp). destruct (cursor_step i p Hc)
    as (b & q & Hn & Hb & Hf & Hbk & Eq & El & Hq).
  cbn [find_insert_from]. rewrite Hn. cbn [mbind option_bind node_of nlevel].
  rewrite decide_False by lia. unfold nx. rewrite Hn. cbn [mbind option_bind node_of nnext].
  rewrite links_lookup by lia. cbn [mbind option_bind].
  rewrite scan_eq_spec, Eq by (done || lia).
  rewrite hit_absent by done. cbn [fmap option_fmap option_map mbind option_bind].
  destruct (IH q (<[i := Some (gid q)]> prevs) Hq) as (prevs' & -> & Hlo & Hhi).
  { rewrite length_insert. lia. }
  exists prevs'. split; [done|]. split; intros j Hj.
  - destruct (decide (j = i)) as [->|]; [|apply Hlo; lia].
    rewrite Hhi by lia. rewrite list_lookup_insert_eq by lia. by rewrite El.
  - rewrite Hhi by lia. apply list_lookup_insert_ne. lia.
Qed.

Lemma find_insert_present i e gt : forall p prevs,
  ge = e :: gt -> gk e = k -> Forall (fun n => gk n ≠ k) gt -> 1 <= gl e -> 1 <= i ->
  cursor i p -> find_insert_from h i k (gid p) prevs = Some (inl (gid e)).
Proof using Hchain Hlt Hge Hsize.
  intros p prevs Ege Hk Hgt Hl. revert p prevs.
  induction i as [|i IH]; intros p prevs Hi Hc; [lia|].
  pose proof Hc as (? & ? & ? & Hp). destruct (cursor_step i p Hc)
    as (b & q & Hn & Hb & Hf & Hbk & Eq & El & Hq).
  cbn [find_insert_from]. rewrite Hn. cbn [mbind option_bind node_of nlevel].
  rewrite decide_False by lia. unfold nx. rewrite Hn. cbn [mbind option_bind node_of nnext].
  rewrite links_lookup by lia. cbn [mbind option_bind].
  rewrite scan_eq_spec, Eq by (done || lia).
  rewrite Ege, hit_present by done. destruct (decide (i < gl e)); [done|].
  cbn [fmap option_fmap option_map mbind option_bind]. apply IH; [lia|done].
Qed.
End descend.

(** FindNode is FindInsertPoint without the vector. *)
Lemma find_node_insert h i k : forall p prevs,
  find_node_from h i k p
  = match find_insert_from h i k p prevs with
    | Some (inl c) => Some (Some c)
    | Some (inr _) => Some None
    | None => None
    end.
Proof.
  induction i as [|i IH]; intros p prevs; [done|]. cbn [find_node_from find_insert_from].
  destruct (h !! p) as [nd|]; [|done]. cbn [mbind option_bind].
  case_decide; [apply IH|]. destruct (nx h p i) as [c|]; [|done]. cbn [mbind option_bind].
  destruct (scan_eq _ _ _ _ _ _) as [[c'|q]|]; cbn [mbind option_bind]; [done|apply IH|done].
Qed.

Lemma find_last_spec h hd ns i : forall a p b,
  chain h (hd :: ns) -> length (hd :: ns) <= size h ->
  Forall (fun n => 1 <= gl n) (hd :: ns) -> hd :: ns = a ++ p :: b ->
  find_last_from h i (gid p) = gid <$> last (hd :: ns).
Proof.
  intros a p b Hc Hs Hl. revert a p b. induction i as [|i IH]; intros a p b E;
    pose proof Hc as Hc'; rewrite E in Hc'; pose proof (chain_node _ _ _ _ Hc') as Hn;
    cbn [find_last_from]; rewrite Hn; cbn [mbind option_bind node_of nlevel].
  - assert (Hp : Forall (fun n => 1 <= gl n) (p :: b)) by (rewrite E in Hl; by apply Forall_app in Hl as [_ ?]).
    assert (Hpl : 1 <= gl p) by (by apply Forall_cons in Hp as [? _]).
    rewrite decide_False by lia. rewrite (chain_nx _ _ _ _ 0 Hc') by lia. cbn [mbind option_bind].
    rewrite scan_end_spec; [|rewrite E, length_app in Hs; simpl in Hs; unfold walk_fuel; lia
      |by apply chain_app in Hc' as [_ ?]|lia].
    rewrite E, last_app_cons. replace (filter (above 0) (p :: b)) with (p :: b).
    + by destruct (last (p :: b)).
    + clear -Hp. induction Hp as [|n l Hn _ IHl]; [done|]. rewrite filter_cons_True by lia.
      by rewrite <-IHl.
  - case_decide as Hd; [by apply (IH a p b)|].
    rewrite (chain_nx _ _ _ _ (S i) Hc') by lia. cbn [mbind option_bind].
    rewrite scan_end_spec; [|rewrite E, length_app in Hs; simpl in Hs; unfold walk_fuel; lia
      |by apply chain_app in Hc' as [_ ?]|lia].
    destruct (last_above_split (S i) p b ltac:(lia)) as (a' & q & c & Eq & _ & El & _).
    unfold last_above in El. rewrite El. cbn [fmap option_fmap option_map mbind option_bind].
    apply (IH (a ++ a') q c). by rewrite E, Eq, app_assoc.
Qed.

(** ** Cutting at a key *)

Lemma cut_at ns k :
  StronglySorted klt ns -> exists lt ge, ns = lt ++ ge
    /\ Forall (fun n => key_ltb (gk n) k = true) lt
    /\ Forall (fun n => key_ltb (gk n) k = false) ge
    /\ (Forall (fun n => key_ltb k (gk n) = true) ge \/
        exists e gt, ge = e :: gt /\ gk e = k /\ Forall (fun n => key_ltb k (gk n) = true) gt).
Proof.
  induction 1 as [|n ns Hs (lt & ge & -> & Hlt & Hge & Hcase) Hn].
  { exists [], []. split_and!; auto. }
  destruct (key_ltb (gk n) k) eqn:Enk.
  - exists (n :: lt), ge. split_and!; auto.
  - assert (Hall : Forall (fun m => key_ltb k (gk m) = true) (lt ++ ge)).
    { eapply Forall_impl; [exact Hn|]. intros m Hm. unfold klt in Hm. simpl.
      destruct (key_ltb k (gk n)) eqn:Ekn; [by eapply key_lt_trans|].
      by rewrite (key_lt_total _ _ Ekn Enk). }
    exists [], (n :: lt ++ ge). split_and!; [done|done|..].
    + constructor; [done|]. eapply Forall_impl; [done|]. intros m. apply key_lt_asym.
    + destruct (decide (gk n = k)) as [Hk|Hk]; [right; by exists n, (lt ++ ge)|left].
      constructor; [|done]. destruct (key_ltb k (gk n)) eqn:Ekn; [done|].
      by destruct (key_lt_total _ _ Ekn Enk).
Qed.

Lemma greater_ne k ns :
  Forall (fun n => key_ltb k (gk n) = true) ns -> Forall (fun n => gk n ≠ k) ns.
Proof. intros Hg. eapply Forall_impl; [done|]. intros n Hn E. simpl in Hn. by rewrite E, key_lt_irrefl in Hn. Qed.

(** ** Pointer updates *)

(** Everything of the nodes but their pointers. *)
Definition shape h : gmap nat (K * V * nat * nat) :=
  (fun nd => (nkey nd, nvalue nd, nlevel nd, length (nnext nd))) <$> h.

Lemma node_of_iff h n ns :
  h !! gid n = Some (node_of n ns) <->
  shape h !! gid n = Some (gk n, gv n, gl n, gl n)
  /\ forall i, i < gl n -> nx h (gid n) i = Some (first_above i ns).
Proof.
  unfold shape, nx. rewrite lookup_fmap. split.
  - intros ->. cbn. rewrite links_length. split; [done|]. intros. by apply links_lookup.
  - intros [Hs Hn]. destruct (h !! gid n) as [[k v l nxs]|]; [|done].
    cbn in Hs. injection Hs as -> -> -> Hlen. f_equal. unfold node_of. f_equal.
    apply list_eq_same_length with (gl n); [by rewrite links_length|done|].
    intros i x y Hi Hx Hy. rewrite links_lookup in Hy by done.
    specialize (Hn i Hi). cbn in Hn. congruence.
Qed.

Lemma shape_nx h m k v l L i :
  shape h !! m = Some (k, v, l, L) -> i < L -> exists x, nx h m i = Some x.
Proof.
  unfold shape, nx. rewrite lookup_fmap. destruct (h !! m) as [nd|]; [|done].
  cbn. intros [= <- <- <- <-] Hi. apply lookup_lt_is_Some_2 in Hi as [x ->]. by exists x.
Qed.

Lemma set_next_spec h m i v x :
  nx h m i = Some x -> exists h', set_next h m i v = Some h' /\ shape h' = shape h
    /\ forall m' i', nx h' m' i' = if decide (m' = m /\ i' = i) then Some v else nx h m' i'.
Proof.
  unfold nx, set_next. destruct (h !! m) as [nd|] eqn:E; [|done]. cbn. intros Hx.
  pose proof (lookup_lt_Some _ _ _ Hx) as Hi. rewrite decide_True by done.
  eexists. split; [done|]. split.
  - unfold shape. rewrite fmap_insert. cbn. rewrite length_insert.
    apply insert_id. by rewrite lookup_fmap, E.
  - intros m' i'. destruct (decide (m' = m)) as [->|Hm].
    + rewrite lookup_insert_eq, E. cbn. destruct (decide (i' = i)) as [->|Hi'].
      * rewrite decide_True by done. by apply list_lookup_insert_eq.
      * rewrite decide_False by naive_solver. by apply list_lookup_insert_ne.
    + rewrite lookup_insert_ne by done. rewrite decide_False; naive_solver.
Qed.

Lemma link_levels_spec node prevs (P : nat -> nat) n : forall h i,
  (forall j, i <= j < i + n -> prev_at prevs j = Some (P j) /\ P j ≠ node
     /\ is_Some (nx h (P j) j) /\ is_Some (nx h node j)) ->
  exists h', link_levels h node prevs i n = Some h' /\ shape h' = shape h
    /\ forall m j, nx h' m j = if decide (i <= j < i + n) then
          if decide (m = node) then nx h (P j) j
          else if decide (m = P j) then Some (Some node) else nx h m j
        else nx h m j.
Proof.
  induction n as [|n IH]; intros h i Hp; cbn [link_levels].
  { exists h. split_and!; [done..|]. intros. rewrite decide_False by lia. done. }
  destruct (Hp i) as (-> & HPi & [x Hx] & [y Hy]); [lia|]. cbn [mbind option_bind].
  rewrite Hx. cbn [mbind option_bind].
  destruct (set_next_spec h node i x y Hy) as (h1 & -> & Hs1 & Hn1). cbn [mbind option_bind].
  destruct (set_next_spec h1 (P i) i (Some node) x) as (h2 & -> & Hs2 & Hn2).
  { rewrite Hn1, decide_False by naive_solver. done. }
  cbn [mbind option_bind]. destruct (IH h2 (S i)) as (h3 & -> & Hs3 & Hn3).
  { intros j Hj. destruct (Hp j) as (? & ? & [? ?] & [? ?]); [lia|].
    rewrite !Hn2, !Hn1, !decide_False by lia. eauto. }
  exists h3. split; [done|]. split; [congruence|]. intros m j.
  assert (Hsame : forall m', j ≠ i -> nx h2 m' j = nx h m' j).
  { intros m' Hj. by rewrite Hn2, Hn1, !decide_False by (intros [_ ?]; lia). }
  rewrite Hn3. destruct (decide (j = i)) as [->|Hj].
  - rewrite decide_False, decide_True by lia. rewrite Hn2, Hn1.
    destruct (decide (m = node)) as [->|].
    + rewrite decide_False, decide_True by naive_solver. done.
    + destruct (decide (m = P i)); [by rewrite decide_True|].
      by rewrite !decide_False by naive_solver.
  - rewrite !Hsame by done.
    by rewrite (decide_ext (S i <= j < S i + n) (i <= j < i + S n)) by lia.
Qed.

Lemma raise_head_spec hd node n : forall h i,
  (forall j, i <= j < i + n -> is_Some (nx h hd j)) ->
  exists h', raise_head h hd node i n = Some h' /\ shape h' = shape h
    /\ forall m j, nx h' m j
        = if decide (m = hd /\ i <= j < i + n) then Some (Some node) else nx h m j.
Proof.
  induction n as [|n IH]; intros h i Hp; cbn [raise_head].
  { exists h. split_and!; [done..|]. intros. rewrite decide_False by lia. done. }
  destruct (Hp i) as [x Hx]; [lia|].
  destruct (set_next_spec h hd i (Some node) x Hx) as (h1 & -> & Hs1 & Hn1). cbn [mbind option_bind].
  destruct (IH h1 (S i)) as (h2 & -> & Hs2 & Hn2).
  { intros j Hj. rewrite Hn1, decide_False by lia. apply Hp. lia. }
  exists h2. split; [done|]. split; [congruence|]. intros m j.
  rewrite Hn2, Hn1. destruct (decide (m = hd /\ i <= j < i + S n)) as [[-> ?]|].
  - destruct (decide (j = i)) as [->|].
    + rewrite decide_False, decide_True by lia. done.
    + rewrite decide_True by lia. done.
  - by rewrite !decide_False by lia.
Qed.

Lemma unlink_levels_spec node prevs (P : nat -> nat) n : forall h i,
  (forall j, i <= j < i + n -> prev_at prevs j = Some (P j) /\ P j ≠ node
     /\ is_Some (nx h (P j) j) /\ is_Some (nx h node j)) ->
  exists h', unlink_levels h node prevs i n = Some h' /\ shape h' = shape h
    /\ forall m j, nx h' m j
        = if decide (i <= j < i + n /\ m = P j) then nx h node j else nx h m j.
Proof.
  induction n as [|n IH]; intros h i Hp; cbn [unlink_levels].
  { exists h. split_and!; [done..|]. intros. rewrite decide_False by lia. done. }
  destruct (Hp i) as (-> & HPi & [x Hx] & [y Hy]); [lia|]. cbn [mbind option_bind].
  rewrite Hy. cbn [mbind option_bind].
  destruct (set_next_spec h (P i) i y x Hx) as (h1 & -> & Hs1 & Hn1). cbn [mbind option_bind].
  destruct (IH h1 (S i)) as (h2 & -> & Hs2 & Hn2).
  { intros j Hj. destruct (Hp j) as (? & ? & [? ?] & [? ?]); [lia|].
    rewrite !Hn1, !decide_False by lia. eauto. }
  exists h2. split; [done|]. split; [congruence|]. intros m j.
  rewrite Hn2, !Hn1. destruct (decide (j = i)) as [->|Hj].
  - rewrite decide_False by lia. destruct (decide (m = P i)) as [->|].
    + by rewrite !decide_True by (split; [lia|done]).
    + by rewrite !decide_False by naive_solver.
  - rewrite (decide_False (P := m = P i /\ j = i)) by naive_solver.
    rewrite (decide_False (P := node = P i /\ j = i)) by naive_solver.
    apply decide_ext. lia.
Qed.

(** ** The predecessor of a key on each level *)

Section pred.
Context (hd : gnode K V) (lt : list (gnode K V)).
Context (Hnd : NoDup (gid <$> hd :: lt)).

Definition pred_id (i : nat) : nat := default 0 (gid <$> last_above i (hd :: lt)).

Lemma pred_last i q : last_above i (hd :: lt) = Some q -> pred_id i = gid q.
Proof using Type. unfold pred_id. by intros ->. Qed.

(** A node on level [i] is the predecessor, or a later one is. *)
Lemma pred_cases i a m b :
  hd :: lt = a ++ m :: b -> i < gl m ->
  (pred_id i = gid m /\ Forall (fun n => gl n <= i) b) \/
  (pred_id i ≠ gid m /\ forall r1 r2, first_above i (b ++ r1) = first_above i (b ++ r2)).
Proof using Hnd.
  intros E Hm. destruct (last_above_split i m b Hm) as (a' & q & c & Eq & Hq & El & Hc).
  assert (Hp : pred_id i = gid q).
  { apply pred_last. by rewrite E, last_above_from. }
  destruct a' as [|m' a']; injection Eq as -> ->; [left; done|right].
  split.
  - rewrite Hp. intros Eid. rewrite E in Hnd. rewrite fmap_app, fmap_cons in Hnd.
    apply NoDup_app in Hnd as (_ & _ & [Hn _]%NoDup_cons). apply Hn.
    rewrite fmap_app, fmap_cons, <-Eid. apply elem_of_app. right. by left.
  - intros r1 r2. unfold first_above. rewrite <-!app_assoc, !filter_app. simpl.
    destruct (filter _ a'); [|done]. simpl. by rewrite !filter_cons_True.
Qed.
End pred.

Lemma first_above_below i b ns :
  Forall (fun n => gl n <= i) b -> first_above i (b ++ ns) = first_above i ns.
Proof. intros Hb. unfold first_above. by rewrite filter_app, filter_below. Qed.

Lemma chain_intro h ns :
  (forall a n b, ns = a ++ n :: b -> h !! gid n = Some (node_of n b)) -> chain h ns.
Proof.
  induction ns as [|n ns IH]; intros Hn; simpl; [done|].
  split; [by apply (Hn [])|]. apply IH. intros a m b ->. by apply (Hn (n :: a)).
Qed.

(** ** Insertion of a new node *)

Section insert.
Context (sl : SkipList K V) (hd : gnode K V) (lt ge : list (gnode K V)) (k : K) (v : V).
Context (HR : Rep_at hd sl (lt ++ ge)).

Lemma rep_nodup_lt : NoDup (gid <$> hd :: lt).
Proof using HR.
  pose proof (rep_nodup _ _ _ HR) as Hnd. change (hd :: lt ++ ge) with ((hd :: lt) ++ ge) in Hnd.
  rewrite fmap_app in Hnd. by apply NoDup_app in Hnd as [? _].
Qed.

Lemma rep_at_level i n : n ∈ hd :: lt -> i < level_ sl \/ gl n <= i \/ n = hd.
Proof using HR.
  intros [->|Hn]%elem_of_cons; [by auto|].
  pose proof (rep_levels _ _ _ HR) as Hl. rewrite Forall_forall in Hl.
  specialize (Hl n ltac:(apply elem_of_app; by left)). lia.
Qed.

Lemma rep_dom n : n ∈ hd :: lt ++ ge -> gid n ∈ dom (heap sl).
Proof using HR.
  intros (a & b & E)%list_elem_of_split. apply elem_of_dom.
  pose proof (rep_chain _ _ _ HR) as Hc. rewrite E in Hc.
  rewrite (chain_node _ _ _ _ Hc). by eexists.
Qed.

Lemma pred_in i : i < K_SKIP_LIST_MAX_LEVEL ->
  exists a q b, hd :: lt = a ++ q :: b /\ i < gl q /\ last_above i (hd :: lt) = Some q.
Proof using HR.
  intros Hi. destruct (last_above_split i hd lt) as (a & q & b & E & Hq & El & _).
  { by rewrite (rep_head_level _ _ _ HR). }
  eauto 10.
Qed.

Context (L node : nat) (prevs : list (option nat)).
Context (HL : 1 <= L <= K_SKIP_LIST_MAX_LEVEL) (Hnode : node ∉ dom (heap sl)).
Context (Hprevs : forall j, j < level_ sl -> prev_at prevs j = Some (pred_id hd lt j)).

Let h0 : gmap nat (Node K V) := <[node := NewNode L k v]> (heap sl).
Let x : gnode K V := mkG node k v L.

Lemma nx_new m i : nx h0 m i =
  if decide (m = node) then (if decide (i < L) then Some None else None) else nx (heap sl) m i.
Proof using HL.
  unfold nx, h0. case_decide as Hm; subst.
  - rewrite lookup_insert_eq. cbn. case_decide; [by apply lookup_replicate_2|].
    apply lookup_ge_None_2. rewrite length_replicate. lia.
  - by rewrite lookup_insert_ne.
Qed.

Lemma pred_links i : i < level_ sl ->
  exists b, nx (heap sl) (pred_id hd lt i) i = Some (first_above i (b ++ ge))
    /\ Forall (fun n => gl n <= i) b /\ pred_id hd lt i ≠ node.
Proof using HR HL Hnode.
  intros Hi. pose proof (rep_level _ _ _ HR). destruct (pred_in i) as (a & q & b & E & Hq & El); [lia|].
  exists b. rewrite (pred_last _ _ _ _ El).
  pose proof (rep_chain _ _ _ HR) as Hc.
  change (hd :: lt ++ ge) with ((hd :: lt) ++ ge) in Hc. rewrite E, <-app_assoc in Hc.
  split; [by apply (chain_nx _ a)|]. split.
  - destruct (pred_cases hd lt rep_nodup_lt i a q b E Hq) as [[_ ?]|[Hne _]]; [done|].
    by rewrite (pred_last _ _ _ _ El) in Hne.
  - intros En. apply Hnode. rewrite <-En. apply rep_dom.
    change (hd :: lt ++ ge) with ((hd :: lt) ++ ge). rewrite E, <-app_assoc.
    apply elem_of_app. right. by left.
Qed.

(** The pointers after the links: the new node is put before [ge] on its
    levels, and everything else is as it was. *)
Lemma insert_pointers :
  exists h1 h2, link_levels h0 node prevs 0 (Nat.min L (level_ sl)) = Some h1
    /\ (if decide (level_ sl < L)
        then raise_head h1 (head_ sl) node (level_ sl) (L - level_ sl) else Some h1) = Some h2
    /\ shape h2 = shape h0
    /\ (forall i, i < L -> nx h2 node i = Some (first_above i ge))
    /\ (forall m i, m ≠ node -> nx h2 m i =
         if decide (i < L /\ (m = pred_id hd lt i /\ i < level_ sl \/ m = gid hd /\ level_ sl <= i))
         then Some (Some node) else nx (heap sl) m i).
Proof using HR HL Hnode Hprevs.
  pose proof (rep_level _ _ _ HR) as Hlev.
  destruct (link_levels_spec node prevs (pred_id hd lt) (Nat.min L (level_ sl)) h0 0)
    as (h1 & E1 & Hs1 & Hn1).
  { intros j Hj. destruct (pred_links j) as (b & Hb & _ & Hne); [lia|].
    rewrite !nx_new. rewrite (decide_False _ _ Hne), Hb, (decide_True (P := node = node)) by done.
    rewrite decide_True by lia. split_and!; [apply Hprevs; lia|done|eauto..]. }
  exists h1. destruct (raise_head_spec (head_ sl) node (L - level_ sl) h1 (level_ sl))
    as (h2 & E2 & Hs2 & Hn2).
  { intros j Hj. rewrite Hn1, decide_False by lia. rewrite nx_new, <-(rep_head _ _ _ HR).
    rewrite decide_False.
    - rewrite (chain_nx _ [] hd (lt ++ ge)); [eauto|apply HR|]. rewrite (rep_head_level _ _ _ HR). lia.
    - intros En. apply Hnode. rewrite <-En. apply rep_dom. by left. }
  exists h2. split; [done|].
  assert (E2' : (if decide (level_ sl < L)
    then raise_head h1 (head_ sl) node (level_ sl) (L - level_ sl) else Some h1) = Some h2).
  { case_decide; [done|]. replace (L - level_ sl) with 0 in E2 by lia. done. }
  split; [done|]. split; [congruence|].
  assert (Hhd : head_ sl ≠ node).
  { intros En. apply Hnode. rewrite <-En, <-(rep_head _ _ _ HR). apply rep_dom. by left. }
  split.
  - intros i Hi. rewrite Hn2, decide_False by naive_solver. rewrite Hn1.
    destruct (decide (i < level_ sl)) as [Hil|Hil].
    + rewrite !decide_True by lia. destruct (pred_links i Hil) as (b & Hb & Hbl & Hne).
      rewrite nx_new, decide_False, Hb by done. by rewrite first_above_below.
    + rewrite decide_False by lia. rewrite nx_new, !decide_True by lia. f_equal.
      unfold first_above. rewrite filter_below; [done|].
      pose proof (rep_levels _ _ _ HR) as Hl. apply Forall_app in Hl as [_ Hl].
      eapply Forall_impl; [exact Hl|]. simpl. lia.
  - intros m i Hm. rewrite Hn2, Hn1, <-(rep_head _ _ _ HR), (decide_False _ _ Hm).
    rewrite (nx_new m i), (decide_False _ _ Hm).
    repeat case_decide; try done; exfalso; lia.
Qed.

Context (h2 : gmap nat (Node K V)) (Hs : shape h2 = shape h0).
Context (Hx : forall i, i < L -> nx h2 node i = Some (first_above i ge)).
Context (Hm : forall m i, m ≠ node -> nx h2 m i =
  if decide (i < L /\ (m = pred_id hd lt i /\ i < level_ sl \/ m = gid hd /\ level_ sl <= i))
  then Some (Some node) else nx (heap sl) m i).

Lemma insert_old a n b : hd :: lt ++ ge = a ++ n :: b ->
  gid n ≠ node /\ shape h2 !! gid n = Some (gk n, gv n, gl n, gl n)
  /\ forall i, i < gl n -> nx (heap sl) (gid n) i = Some (first_above i b).
Proof using HR Hnode Hs.
  intros E. pose proof (rep_chain _ _ _ HR) as Hc. rewrite E in Hc.
  apply chain_node, node_of_iff in Hc as [Hsh Hnx].
  assert (gid n ≠ node).
  { intros En. apply Hnode. rewrite <-En. apply rep_dom. rewrite E.
    apply elem_of_app. right. by left. }
  split; [done|]. split; [|done]. rewrite Hs. unfold shape, h0.
  by rewrite fmap_insert, lookup_insert_ne.
Qed.

(** A node before the new one. *)
Lemma insert_before a n b i : hd :: lt = a ++ n :: b -> i < gl n ->
  nx h2 (gid n) i = Some (first_above i (b ++ x :: ge)).
Proof using HR HL Hnode Hs Hm.
  intros E Hi. destruct (insert_old a n (b ++ ge)) as (Hne & _ & Hnx).
  { change (hd :: lt ++ ge) with ((hd :: lt) ++ ge). by rewrite E, <-app_assoc. }
  specialize (Hnx i Hi). rewrite (Hm _ _ Hne), Hnx.
  assert (Hlv : i < level_ sl \/ n = hd).
  { destruct (rep_at_level i n) as [?|[?|?]]; [|by auto|lia|by auto].
    rewrite E. apply elem_of_app. right. by left. }
  destruct (pred_cases hd lt rep_nodup_lt i a n b E Hi) as [[Hp Hb]|[Hp Hb]].
  - rewrite !first_above_below by done. destruct (decide (i < L)) as [HiL|HiL].
    + rewrite decide_True; [by rewrite first_above_cons_above|].
      split; [done|]. destruct Hlv as [?| ->]; [by left|].
      destruct (decide (i < level_ sl)); [by left|right; split; [done|lia]].
    + rewrite decide_False by naive_solver. by rewrite first_above_cons_below by (simpl; lia).
  - rewrite decide_False, (Hb ge (x :: ge)); [done|]. intros (_ & [[? _]|[Eh Hge]]); [congruence|].
    (* the head above the levels in use has no later node *)
    destruct (pred_in i) as (a' & q & b' & E' & Hq & El).
    { pose proof (rep_head_level _ _ _ HR). assert (n = hd) as -> by (destruct Hlv; [lia|done]). lia. }
    apply Hp. rewrite (pred_last _ _ _ _ El). destruct (rep_at_level i q) as [?|[?| ->]]; [|lia|lia|done].
    rewrite E'. apply elem_of_app. right. by left.
Qed.

(** A node after the new one. *)
Lemma insert_after a n b i : ge = a ++ n :: b -> i < gl n ->
  nx h2 (gid n) i = Some (first_above i b).
Proof using HR HL Hnode Hs Hm.
  intros E Hi. destruct (insert_old ((hd :: lt) ++ a) n b) as (Hne & _ & Hnx).
  { rewrite E. simpl. by rewrite <-app_assoc. }
  rewrite (Hm _ _ Hne), (Hnx i Hi), decide_False; [done|].
  pose proof (rep_nodup _ _ _ HR) as Hnd. change (hd :: lt ++ ge) with ((hd :: lt) ++ ge) in Hnd.
  rewrite fmap_app in Hnd. apply NoDup_app in Hnd as (_ & Hdis & _).
  assert (Hin : forall q, q ∈ hd :: lt -> gid n ≠ gid q).
  { intros q Hq En. apply (Hdis (gid q)); [apply list_elem_of_fmap; by exists q|].
    rewrite <-En, E. apply list_elem_of_fmap. exists n. split; [done|].
    apply elem_of_app. right. by left. }
  intros (_ & [[Ep Hil]|[Eh _]]); [|by apply (Hin hd); [left|]].
  pose proof (rep_level _ _ _ HR). destruct (pred_in i) as (a' & q & b' & E' & Hq & El); [lia|].
  apply (Hin q); [rewrite E'; apply elem_of_app; right; by left|].
  by rewrite <-(pred_last _ _ _ _ El).
Qed.

Lemma insert_chain : chain h2 (hd :: lt ++ x :: ge).
Proof using HR HL Hnode Hs Hx Hm.
  apply chain_intro. intros a n b E. apply node_of_iff.
  change (hd :: lt ++ x :: ge) with ((hd :: lt) ++ x :: ge) in E.
  assert (Hshx : shape h2 !! node = Some (k, v, L, L)).
  { rewrite Hs. unfold shape, h0. rewrite fmap_insert, lookup_insert_eq. cbn.
    by rewrite length_replicate. }
  apply app_eq_inv in E as [(d & E1 & E2)|(d & E1 & E2)].
  - destruct d as [|n' d]; simpl in E2; injection E2; [intros <- ->|intros -> <-].
    + split; [done|]. intros i Hi. by apply Hx.
    + split; [|intros i Hi; by apply (insert_before a)].
      apply (insert_old a n (d ++ ge)). change (hd :: lt ++ ge) with ((hd :: lt) ++ ge).
      by rewrite E1, <-app_assoc.
  - destruct d as [|n' d]; simpl in E2; injection E2; [intros -> <-|intros E3 <-].
    + split; [done|]. intros i Hi. by apply Hx.
    + split; [|intros i Hi; by apply (insert_after d)].
      apply (insert_old ((hd :: lt) ++ d) n b). rewrite E3. simpl. by rewrite <-app_assoc.
Qed.
End insert.

(** ** Removal of a node *)

Lemma gid_in n ns : n ∈ ns -> gid n ∈ gid <$> ns.
Proof. intros Hn. apply list_elem_of_fmap. by exists n. Qed.

Section remove.
Context (sl : SkipList K V) (hd e : gnode K V) (lt gt : list (gnode K V)).
Context (HR : Rep_at hd sl (lt ++ e :: gt)).
Context (prevs : list (option nat)).
Context (Hprevs : forall j, j < level_ sl -> prev_at prevs j = Some (pred_id hd lt j)).

Lemma rep_member a n b : hd :: lt ++ e :: gt = a ++ n :: b ->
  shape (heap sl) !! gid n = Some (gk n, gv n, gl n, gl n)
  /\ forall i, i < gl n -> nx (heap sl) (gid n) i = Some (first_above i b).
Proof using HR.
  intros E. pose proof (rep_chain _ _ _ HR) as Hc. rewrite E in Hc.
  by apply chain_node, node_of_iff in Hc.
Qed.

Lemma rep_e_level : 1 <= gl e <= level_ sl.
Proof using HR.
  pose proof (rep_levels _ _ _ HR) as Hl. apply Forall_app in Hl as [_ Hl].
  by apply Forall_cons in Hl as [? _].
Qed.

Lemma rep_distinct n : n ∈ hd :: lt ++ gt -> gid n ≠ gid e.
Proof using HR.
  pose proof (rep_nodup _ _ _ HR) as Hnd.
  change (hd :: lt ++ e :: gt) with ((hd :: lt) ++ e :: gt) in Hnd.
  rewrite fmap_app, fmap_cons in Hnd. apply NoDup_app in Hnd as (_ & Hdis & [Hg _]%NoDup_cons).
  change (hd :: lt ++ gt) with ((hd :: lt) ++ gt).
  intros [Hn|Hn]%elem_of_app En.
  - apply (Hdis (gid n)); [exact (gid_in n (hd :: lt) Hn)|]. rewrite En. by left.
  - apply Hg. rewrite <-En. exact (gid_in n gt Hn).
Qed.

Lemma pred_before i : i < K_SKIP_LIST_MAX_LEVEL -> exists a q b,
  hd :: lt = a ++ q :: b /\ i < gl q /\ pred_id hd lt i = gid q /\ q ∈ hd :: lt.
Proof using HR.
  intros Hi. destruct (pred_in sl hd lt (e :: gt) HR i Hi) as (a & q & b & E & Hq & El).
  exists a, q, b. split_and!; [done..|by apply pred_last|].
  rewrite E. apply elem_of_app. right. by left.
Qed.

Lemma remove_pointers :
  exists h1, unlink_levels (heap sl) (gid e) prevs 0 (gl e) = Some h1
    /\ shape h1 = shape (heap sl)
    /\ (forall m i, nx h1 m i =
         if decide (i < gl e /\ m = pred_id hd lt i) then Some (first_above i gt)
         else nx (heap sl) m i).
Proof using HR Hprevs.
  pose proof (rep_level _ _ _ HR) as Hlev. pose proof rep_e_level as Hle.
  assert (Ee : hd :: lt ++ e :: gt = (hd :: lt) ++ e :: gt) by done.
  destruct (rep_member _ _ _ Ee) as [_ Hnx].
  destruct (unlink_levels_spec (gid e) prevs (pred_id hd lt) (gl e) (heap sl) 0)
    as (h1 & E1 & Hs1 & Hn1).
  { intros j Hj. destruct (pred_before j) as (a & q & b & E & Hq & Ep & Hin); [lia|].
    split; [apply Hprevs; lia|]. rewrite Ep. split.
    - apply rep_distinct. change (hd :: lt ++ gt) with ((hd :: lt) ++ gt). apply elem_of_app. by left.
    - destruct (rep_member a q (b ++ e :: gt)) as [_ Hqn]; [rewrite Ee, E, <-app_assoc; done|].
      rewrite Hqn, Hnx by lia. split; by eexists. }
  exists h1. split_and!; [done..|]. intros m i. rewrite Hn1.
  destruct (decide (i < gl e /\ m = pred_id hd lt i)) as [[Hi ->]|Hi].
  - rewrite decide_True by (split; [lia|done]). by apply Hnx.
  - by rewrite decide_False by naive_solver lia.
Qed.

Context (h1 : gmap nat (Node K V)) (Hs : shape h1 = shape (heap sl)).
Context (Hm : forall m i, nx h1 m i =
  if decide (i < gl e /\ m = pred_id hd lt i) then Some (first_above i gt)
  else nx (heap sl) m i).

Lemma remove_before a n b i : hd :: lt = a ++ n :: b -> i < gl n ->
  nx h1 (gid n) i = Some (first_above i (b ++ gt)).
Proof using HR Hm.
  intros E Hi. destruct (rep_member a n (b ++ e :: gt)) as [_ Hnx].
  { change (hd :: lt ++ e :: gt) with ((hd :: lt) ++ e :: gt). by rewrite E, <-app_assoc. }
  rewrite Hm, (Hnx i Hi).
  destruct (pred_cases hd lt (rep_nodup_lt _ _ _ _ HR) i a n b E Hi) as [[Hp Hb]|[Hp Hb]].
  - rewrite !first_above_below by done. case_decide as Hd; [done|].
    rewrite first_above_cons_below; [done|]. destruct (decide (gl e <= i)); [done|].
    exfalso. apply Hd. split; [lia|done].
  - rewrite decide_False by naive_solver. by rewrite (Hb (e :: gt) gt).
Qed.

Lemma remove_after a n b i : gt = a ++ n :: b -> i < gl n ->
  nx h1 (gid n) i = Some (first_above i b).
Proof using HR Hm.
  intros E Hi. destruct (rep_member ((hd :: lt) ++ e :: a) n b) as [_ Hnx].
  { rewrite E. simpl. by rewrite <-app_assoc. }
  rewrite Hm, (Hnx i Hi), decide_False; [done|]. intros [Hie Hp].
  pose proof (rep_level _ _ _ HR). pose proof rep_e_level.
  destruct (pred_before i) as (a' & q & b' & E' & _ & Ep & Hq); [lia|].
  pose proof (rep_nodup _ _ _ HR) as Hnd.
  change (hd :: lt ++ e :: gt) with ((hd :: lt) ++ e :: gt) in Hnd.
  rewrite fmap_app in Hnd. apply NoDup_app in Hnd as (_ & Hdis & _).
  apply (Hdis (gid q)); [apply list_elem_of_fmap; by exists q|].
  rewrite <-Ep, <-Hp. apply list_elem_of_fmap. exists n. split; [done|].
  rewrite E. right. apply elem_of_app. right. by left.
Qed.

Lemma remove_chain : chain (delete (gid e) h1) (hd :: lt ++ gt).
Proof using HR Hs Hm.
  apply chain_intro. intros a n b E.
  assert (Hne : gid n ≠ gid e).
  { apply rep_distinct. rewrite E. apply elem_of_app. right. by left. }
  rewrite lookup_delete_ne by done. apply node_of_iff. rewrite Hs.
  change (hd :: lt ++ gt) with ((hd :: lt) ++ gt) in E.
  assert (Hgt : forall d, gt = d ++ n :: b ->
    shape (heap sl) !! gid n = Some (gk n, gv n, gl n, gl n)
    /\ forall i, i < gl n -> nx h1 (gid n) i = Some (first_above i b)).
  { intros d Ed. split; [|intros i Hi; by apply (remove_after d)].
    apply (rep_member ((hd :: lt) ++ e :: d) n b). rewrite Ed. simpl. by rewrite <-app_assoc. }
  apply app_eq_inv in E as [(d & E1 & E2)|(d & E1 & E2)]; [|by apply (Hgt d)].
  destruct d as [|n' d]; [by apply (Hgt [])|]. simpl in E2; injection E2; intros -> <-.
  split; [|intros i Hi; by apply (remove_before a)].
  apply (rep_member a n (d ++ e :: gt)).
  change (hd :: lt ++ e :: gt) with ((hd :: lt) ++ e :: gt). by rewrite E1, <-app_assoc.
Qed.
End remove.

(** Levels no node uses are given back, and no other. *)
Lemma drop_levels_spec h hd ns level :
  chain h (hd :: ns) -> 1 <= level <= gl hd -> Forall (fun n => 1 <= gl n <= level) ns ->
  exists l, drop_levels h (gid hd) level = Some l /\ 1 <= l <= level
    /\ Forall (fun n => 1 <= gl n <= l) ns.
Proof.
  intros Hc. induction level as [|[|l] IH]; intros Hl Hns; [lia|by exists 1; split_and!; auto with lia|].
  cbn [drop_levels]. rewrite (chain_nx _ [] hd ns (S l) Hc) by lia. cbn [mbind option_bind].
  destruct (first_above (S l) ns) as [q|] eqn:Eq; [by exists (S (S l)); split_and!; auto with lia|].
  destruct IH as (l' & E & Hl' & Hf); [lia| |by exists l'; split_and!; [done|lia|lia|done]].
  apply Forall_forall. intros n Hn. pose proof (proj1 (Forall_forall _ _) Hns n Hn) as Hb. simpl in Hb.
  destruct (decide (gl n <= S l)); [lia|]. exfalso.
  unfold first_above in Eq. destruct (filter (above (S l)) ns) as [|f fs] eqn:Ef; [|done].
  assert (n ∈ filter (above (S l)) ns) as Hin by (apply list_elem_of_filter; split; [lia|done]).
  rewrite Ef in Hin. by apply not_elem_of_nil in Hin.
Qed.
End rep.
