(* ===== verification/SkipListSpec.v ===== *)
(** * The skip list refines a finite map

    The contract of src/bitdb/ds/skiplist.h, operation by operation: no
    operation of a well-formed list dereferences null or runs out of a
    node's array, and each acts on the map of its keys and values as the
    operation of a map does, whatever levels the random engine draws. *)

From S2P Require Import Prelude SkipList SkipListProofs.

Section spec.
Context {K V : Type} `{EqDecision K} `{!KeyOrder K} `{!Countable K}.
Context `{!Inhabited K} `{!Inhabited V}.
Implicit Types (sl : SkipList K V) (hd e x : gnode K V) (ns lt ge gt : list (gnode K V)).

(** The abstract map of a list of nodes. *)
Definition kvs ns : list (K * V) := (fun n => (gk n, gv n)) <$> ns.
Definition abs_map ns : gmap K V := list_to_map (kvs ns).

Lemma abs_map_app a b : abs_map (a ++ b) = abs_map a ∪ abs_map b.
Proof. unfold abs_map, kvs. by rewrite fmap_app, list_to_map_app. Qed.

Lemma abs_map_absent ns k : Forall (fun n => gk n ≠ k) ns -> abs_map ns !! k = None.
Proof.
  intros Hn. unfold abs_map, kvs. apply not_elem_of_list_to_map_1. rewrite <-list_fmap_compose.
  intros (n & -> & Hin)%list_elem_of_fmap. by apply (proj1 (Forall_forall _ _) Hn n Hin).
Qed.

Lemma smaller_ne k ns :
  Forall (fun n => key_ltb (gk n) k = true) ns -> Forall (fun n : gnode K V => gk n ≠ k) ns.
Proof. intros Hl. eapply Forall_impl; [done|]. intros n Hn. by apply key_lt_ne. Qed.

Lemma abs_map_mid lt ge k :
  Forall (fun n => key_ltb (gk n) k = true) lt -> abs_map (lt ++ ge) !! k = abs_map ge !! k.
Proof.
  intros Hl. rewrite abs_map_app, lookup_union_r; [done|].
  by apply abs_map_absent, smaller_ne.
Qed.

Lemma abs_map_insert lt ge x :
  Forall (fun n => gk n ≠ gk x) lt ->
  abs_map (lt ++ x :: ge) = <[gk x := gv x]> (abs_map (lt ++ ge)).
Proof.
  intros Hl. rewrite !abs_map_app.
  change (abs_map (x :: ge)) with (<[gk x := gv x]> (abs_map ge)).
  symmetry. apply insert_union_r. by apply abs_map_absent.
Qed.

(** ** Searching *)

Lemma rep_at_fuel hd sl ns : Rep_at hd sl ns -> length (hd :: ns) <= size (heap sl).
Proof. intros HR. apply chain_dom; apply HR. Qed.

Lemma rep_cursor (hd : gnode K V) sl lt : gl hd = K_SKIP_LIST_MAX_LEVEL ->
  level_ sl <= K_SKIP_LIST_MAX_LEVEL -> cursor hd lt (level_ sl) hd.
Proof. intros El Hl. exists [], lt. split; [done|lia]. Qed.

(** The search of the removal point: [prevs] are the predecessors. *)
Lemma FindPrevNodes_spec hd sl lt ge k :
  Rep_at hd sl (lt ++ ge) ->
  Forall (fun n => key_ltb (gk n) k = true) lt -> Forall (fun n => key_ltb (gk n) k = false) ge ->
  exists prevs, FindPrevNodes sl k = Some prevs
    /\ (forall j, j < level_ sl -> prevs !! j = Some (Some (pred_id hd lt j))).
Proof.
  intros HR Hlt Hge. pose proof (rep_level _ _ _ HR) as Hlev.
  destruct (find_prevs_spec (heap sl) hd lt ge k (rep_chain _ _ _ HR) (rep_at_fuel _ _ _ HR) Hlt Hge
    (level_ sl) hd (replicate (level_ sl) None)) as (prevs & E & Hp & _).
  { apply rep_cursor; [apply HR|lia]. }
  { by rewrite length_replicate. }
  exists prevs. unfold FindPrevNodes. rewrite <-(rep_head _ _ _ HR). split; [done|].
  intros j Hj. destruct (pred_in sl hd lt ge HR j) as (? & q & ? & _ & _ & El); [lia|].
  rewrite (Hp j Hj), El. simpl. by rewrite (pred_last _ _ _ _ El).
Qed.

Lemma FindInsertPoint_absent hd sl lt ge k :
  Rep_at hd sl (lt ++ ge) ->
  Forall (fun n => key_ltb (gk n) k = true) lt -> Forall (fun n => key_ltb k (gk n) = true) ge ->
  exists prevs, FindInsertPoint sl k = Some (inr prevs)
    /\ (forall j, j < level_ sl -> prev_at prevs j = Some (pred_id hd lt j)).
Proof.
  intros HR Hlt Hge. pose proof (rep_level _ _ _ HR) as Hlev.
  assert (Hge' : Forall (fun n => key_ltb (gk n) k = false) ge)
    by (eapply Forall_impl; [exact Hge|]; intros n; apply key_lt_asym).
  destruct (find_insert_spec (heap sl) hd lt ge k (rep_chain _ _ _ HR) (rep_at_fuel _ _ _ HR) Hlt Hge'
    (level_ sl) hd (replicate (level_ sl) None)) as (prevs & E & Hp & _).
  { by apply greater_ne. }
  { apply rep_cursor; [apply HR|lia]. }
  { by rewrite length_replicate. }
  exists prevs. unfold FindInsertPoint. rewrite <-(rep_head _ _ _ HR). split; [done|].
  intros j Hj. destruct (pred_in sl hd lt ge HR j) as (? & q & ? & _ & _ & El); [lia|].
  unfold prev_at. rewrite (Hp j Hj), El. simpl. by rewrite (pred_last _ _ _ _ El).
Qed.

Lemma FindInsertPoint_present hd sl lt e gt :
  Rep_at hd sl (lt ++ e :: gt) ->
  Forall (fun n => key_ltb (gk n) (gk e) = true) lt ->
  Forall (fun n => key_ltb (gk e) (gk n) = true) gt ->
  FindInsertPoint sl (gk e) = Some (inl (gid e)).
Proof.
  intros HR Hlt Hgt. pose proof (rep_level _ _ _ HR) as Hlev.
  unfold FindInsertPoint. rewrite <-(rep_head _ _ _ HR).
  apply (find_insert_present (heap sl) hd lt (e :: gt) (gk e) (rep_chain _ _ _ HR)
    (rep_at_fuel _ _ _ HR) Hlt) with (gt := gt); try done.
  - constructor; [apply key_lt_irrefl|]. eapply Forall_impl; [exact Hgt|]. intros n. apply key_lt_asym.
  - by apply greater_ne.
  - apply (rep_e_level sl hd e lt gt HR).
  - lia.
  - apply rep_cursor; [apply HR|lia].
Qed.

Lemma FindNode_InsertPoint sl k :
  FindNode sl k = match FindInsertPoint sl k with
                  | Some (inl c) => Some (Some c) | Some (inr _) => Some None | None => None end.
Proof. apply find_node_insert. Qed.

Lemma Rep_node hd sl lt e gt :
  Rep_at hd sl (lt ++ e :: gt) -> heap sl !! gid e = Some (node_of e gt).
Proof.
  intros HR. pose proof (rep_chain _ _ _ HR) as Hc.
  change (hd :: lt ++ e :: gt) with ((hd :: lt) ++ e :: gt) in Hc. by apply chain_node in Hc.
Qed.

Lemma Find_map sl ns k : Rep sl ns -> Find sl k = Some (abs_map ns !! k).
Proof.
  intros [hd HR]. unfold Find. rewrite FindNode_InsertPoint.
  destruct (cut_at ns k (rep_sorted _ _ _ HR)) as (lt & ge & -> & Hlt & Hge & [Hgt|(e & gt & -> & <- & Hgt)]).
  - destruct (FindInsertPoint_absent _ _ _ _ _ HR Hlt Hgt) as (prevs & -> & _). simpl.
    rewrite abs_map_mid by done. by rewrite abs_map_absent by by apply greater_ne.
  - rewrite (FindInsertPoint_present _ _ _ _ _ HR Hlt Hgt). simpl.
    rewrite (Rep_node _ _ _ _ _ HR). simpl. rewrite abs_map_mid by done.
    unfold abs_map. simpl. by rewrite lookup_insert_eq.
Qed.

Lemma Has_map sl ns k : Rep sl ns -> Has sl k = Some (bool_decide (is_Some (abs_map ns !! k))).
Proof.
  intros HR. pose proof (Find_map sl ns k HR) as HF. unfold Find, Has in *.
  destruct (FindNode sl k) as [[c|]|]; [|simpl in *; by injection HF as <-|done]. simpl in *.
  destruct (heap sl !! c); [|done]. simpl in HF. by injection HF as <-.
Qed.

(** ** Insertion *)

Lemma random_level_range {rng} (Next : rng -> Z * rng) room : forall level g,
  level <= (random_level Next room level g).1 <= level + room.
Proof.
  induction room as [|room IH]; intros level g; cbn [random_level]; [simpl; lia|].
  destruct (Next g) as [r g']. case_decide; [specialize (IH (S level) g')|simpl]; lia.
Qed.

Lemma RandomLevel_range {rng} (Next : rng -> Z * rng) g :
  1 <= (RandomLevel Next g).1 <= K_SKIP_LIST_MAX_LEVEL.
Proof. unfold RandomLevel. pose proof (random_level_range Next (K_SKIP_LIST_MAX_LEVEL - 1) 1 g). unfold K_SKIP_LIST_MAX_LEVEL in *. lia. Qed.

Lemma sorted_insert lt ge x :
  StronglySorted klt (lt ++ ge) ->
  Forall (fun n => key_ltb (gk n) (gk x) = true) lt ->
  Forall (fun n => key_ltb (gk x) (gk n) = true) ge ->
  StronglySorted klt (lt ++ x :: ge).
Proof.
  induction lt as [|n lt IH]; simpl; intros Hs Hl Hg.
  - constructor; [done|]. exact Hg.
  - apply StronglySorted_inv in Hs as [Hs Hn]. apply Forall_cons in Hl as [Hx Hl].
    constructor; [by apply IH|]. apply Forall_app in Hn as [Hn1 Hn2].
    apply Forall_app. split; [done|]. constructor; [exact Hx|done].
Qed.

Lemma Insert_new hd sl lt ge k v {rng} (Next : rng -> Z * rng) g :
  Rep_at hd sl (lt ++ ge) ->
  Forall (fun n => key_ltb (gk n) k = true) lt -> Forall (fun n => key_ltb k (gk n) = true) ge ->
  exists sl' g' x, Insert Next sl k v g = Some (sl', g') /\ gk x = k /\ gv x = v
    /\ Rep_at hd sl' (lt ++ x :: ge).
Proof.
  intros HR Hlt Hge. pose proof (RandomLevel_range Next g) as HL.
  destruct (FindInsertPoint_absent _ _ _ _ _ HR Hlt Hge) as (prevs & E & Hp).
  unfold Insert. rewrite E. cbn [mbind option_bind].
  destruct (RandomLevel Next g) as [L g'] eqn:EL. simpl in HL.
  set (node := fresh (dom (heap sl))).
  assert (Hnode : node ∉ dom (heap sl)) by apply is_fresh.
  destruct (insert_pointers sl hd lt ge k v HR L node prevs HL Hnode Hp)
    as (h1 & h2 & E1 & E2 & Hs & Hx & Hm).
  rewrite E1. cbn [mbind option_bind]. rewrite E2.
  eexists _, g', (mkG node k v L). split_and!; [done..|].
  pose proof (insert_chain sl hd lt ge k v HR L node HL Hnode h2 Hs Hx Hm) as Hc.
  constructor; cbn [heap head_ level_ lsize_]; [apply HR|apply HR|exact Hc| | | | |].
  - pose proof (rep_nodup _ _ _ HR) as Hnd.
    apply (NoDup_Permutation_proper _ (gid <$> mkG node k v L :: hd :: lt ++ ge)).
    { apply (fmap_Permutation gid). symmetry. apply (Permutation_middle (hd :: lt)). }
    rewrite fmap_cons. constructor; [|done].
    intros (n & En & Hin)%list_elem_of_fmap. apply Hnode. cbn in En. rewrite En.
    by eapply (rep_dom sl hd lt ge HR).
  - by apply sorted_insert; [apply HR|..].
  - pose proof (rep_levels _ _ _ HR) as Hl. rewrite !Forall_app, Forall_cons in *.
    destruct Hl as [Hl1 Hl2]. simpl.
    split_and!; [|lia|lia|]; (eapply Forall_impl; [eassumption|]; simpl; lia).
  - pose proof (rep_level _ _ _ HR). lia.
  - rewrite (rep_size _ _ _ HR), !length_app. simpl. lia.
Qed.

Lemma first_above_gid i (a b : list (gnode K V)) : (fun n : gnode K V => (gid n, gl n)) <$> a = (fun n => (gid n, gl n)) <$> b ->
  first_above i a = first_above i b.
Proof.
  revert b. induction a as [|n a IH]; intros [|m b]; try done. intros [= Eid El Eab].
  destruct (decide (i < gl n)).
  - rewrite !first_above_cons_above by lia. congruence.
  - rewrite !first_above_cons_below by lia. by apply IH.
Qed.

Lemma Insert_update hd sl lt e gt v {rng} (Next : rng -> Z * rng) g :
  Rep_at hd sl (lt ++ e :: gt) ->
  Forall (fun n => key_ltb (gk n) (gk e) = true) lt ->
  Forall (fun n => key_ltb (gk e) (gk n) = true) gt ->
  exists sl', Insert Next sl (gk e) v g = Some (sl', g)
    /\ Rep_at hd sl' (lt ++ mkG (gid e) (gk e) v (gl e) :: gt).
Proof.
  intros HR Hlt Hgt. unfold Insert. rewrite (FindInsertPoint_present _ _ _ _ _ HR Hlt Hgt).
  cbn [mbind option_bind]. unfold set_value. rewrite (Rep_node _ _ _ _ _ HR). cbn [mbind option_bind].
  eexists. split; [done|]. constructor; cbn [heap head_ level_ lsize_]; try apply HR.
  - pose proof (rep_distinct sl hd e lt gt HR) as Hd. pose proof (rep_chain _ _ _ HR) as Hc.
    change (chain (<[gid e:=mkNode (gk e) v (gl e) (links (gl e) gt)]> (heap sl))
      (hd :: lt ++ mkG (gid e) (gk e) v (gl e) :: gt)).
    apply chain_intro. intros a n b E.
    change (hd :: lt ++ mkG (gid e) (gk e) v (gl e) :: gt) with ((hd :: lt) ++ mkG (gid e) (gk e) v (gl e) :: gt) in E.
    assert (Hafter : forall d, gt = d ++ n :: b -> heap sl !! gid n = Some (node_of n b) /\ n ∈ hd :: lt ++ gt).
    { intros d Ed. split.
      - apply (chain_node _ ((hd :: lt) ++ e :: d)). rewrite <-app_assoc. simpl. by rewrite <-Ed.
      - right. apply elem_of_app. right. rewrite Ed. apply elem_of_app. right. by left. }
    apply app_eq_inv in E as [([|n' d] & E1 & E2)|([|n' d] & E1 & E2)]; simpl in E2; injection E2.
    + intros -> ->. simpl. by rewrite lookup_insert_eq.
    + intros -> <-. rewrite lookup_insert_ne; cycle 1.
      { apply not_eq_sym, Hd. change (hd :: lt ++ gt) with ((hd :: lt) ++ gt). rewrite E1.
        apply elem_of_app. left. apply elem_of_app. right. by left. }
      rewrite (chain_node (heap sl) a n (d ++ e :: gt)).
      * unfold node_of, links. do 2 f_equal. apply list_fmap_ext. intros i ? _.
        apply first_above_gid. rewrite !fmap_app. done.
      * change (hd :: lt ++ e :: gt) with ((hd :: lt) ++ e :: gt) in Hc. by rewrite E1, <-app_assoc in Hc.
    + intros -> <-. simpl. by rewrite lookup_insert_eq.
    + intros E3 <-. destruct (Hafter _ E3) as [Hn Hin]. rewrite lookup_insert_ne; [done|].
      apply not_eq_sym. by apply Hd.
  - pose proof (rep_nodup _ _ _ HR) as Hnd. by rewrite fmap_cons, fmap_app in *.
  - pose proof (rep_sorted _ _ _ HR) as Hs. apply sorted_insert; [|done..].
    clear -Hs. induction lt as [|n lt IH]; simpl in *; apply StronglySorted_inv in Hs as [Hs Hn]; [done|].
    constructor; [by apply IH|]. apply Forall_app in Hn as [Hn1 Hn2].
    apply Forall_cons in Hn2 as [_ ?]. apply Forall_app. done.
  - pose proof (rep_levels _ _ _ HR) as Hl. by rewrite !Forall_app, !Forall_cons in *.
  - rewrite (rep_size _ _ _ HR), !length_app. done.
Qed.

Lemma Insert_map sl ns k v {rng} (Next : rng -> Z * rng) g :
  Rep sl ns -> exists sl' g' ns', Insert Next sl k v g = Some (sl', g')
    /\ Rep sl' ns' /\ abs_map ns' = <[k := v]> (abs_map ns).
Proof.
  intros [hd HR].
  destruct (cut_at ns k (rep_sorted _ _ _ HR)) as (lt & ge & -> & Hlt & Hge & [Hgt|(e & gt & -> & <- & Hgt)]).
  - destruct (Insert_new _ _ _ _ _ v Next g HR Hlt Hgt) as (sl' & g' & x & E & <- & <- & HR').
    exists sl', g', (lt ++ x :: ge). split_and!; [done|by exists hd|].
    by apply abs_map_insert, smaller_ne.
  - destruct (Insert_update _ _ _ _ _ v Next g HR Hlt Hgt) as (sl' & E & HR').
    eexists sl', g, _. split_and!; [done|by exists hd|].
    rewrite !abs_map_insert by by apply smaller_ne. simpl. by rewrite insert_insert_eq.
Qed.

(** ** Removal *)

Lemma FindRemovePoint_present hd sl lt e gt :
  Rep_at hd sl (lt ++ e :: gt) ->
  Forall (fun n => key_ltb (gk n) (gk e) = true) lt ->
  Forall (fun n => key_ltb (gk e) (gk n) = true) gt ->
  exists prevs, FindRemovePoint sl (gk e) = Some (Some (gid e, prevs))
    /\ (forall j, j < level_ sl -> prev_at prevs j = Some (pred_id hd lt j)).
Proof.
  intros HR Hlt Hgt. pose proof (rep_level _ _ _ HR) as Hlev. pose proof (rep_e_level sl hd e lt gt HR) as Hle.
  destruct (FindPrevNodes_spec hd sl lt (e :: gt) (gk e) HR Hlt) as (prevs & E & Hp).
  { constructor; [apply key_lt_irrefl|]. eapply Forall_impl; [exact Hgt|]. intros n. apply key_lt_asym. }
  assert (Hp' : forall j, j < level_ sl -> prev_at prevs j = Some (pred_id hd lt j)).
  { intros j Hj. unfold prev_at. by rewrite (Hp j Hj). }
  exists prevs. split; [|done]. unfold FindRemovePoint. rewrite E. cbn [mbind option_bind].
  rewrite Hp' by lia. cbn [mbind option_bind].
  destruct (pred_before sl hd e lt gt HR 0) as (a & q & b & Eq & Hq & Ep & Hin); [lia|].
  destruct (pred_cases hd lt (rep_nodup_lt _ _ _ _ HR) 0 a q b Eq Hq) as [[_ Hb]|[Hne _]]; [|congruence].
  rewrite Ep. destruct (rep_member sl hd e lt gt HR a q (b ++ e :: gt)) as [_ Hnx].
  { change (hd :: lt ++ e :: gt) with ((hd :: lt) ++ e :: gt). by rewrite Eq, <-app_assoc. }
  rewrite Hnx by done. cbn [mbind option_bind].
  rewrite first_above_below, first_above_cons_above by (done || lia).
  rewrite (Rep_node _ _ _ _ _ HR). cbn [mbind option_bind]. by rewrite decide_True.
Qed.

Lemma FindRemovePoint_absent hd sl lt ge k :
  Rep_at hd sl (lt ++ ge) ->
  Forall (fun n => key_ltb (gk n) k = true) lt -> Forall (fun n => key_ltb k (gk n) = true) ge ->
  FindRemovePoint sl k = Some None.
Proof.
  intros HR Hlt Hgt. pose proof (rep_level _ _ _ HR) as Hlev.
  destruct (FindPrevNodes_spec hd sl lt ge k HR Hlt) as (prevs & E & Hp).
  { eapply Forall_impl; [exact Hgt|]. intros n. apply key_lt_asym. }
  unfold FindRemovePoint. rewrite E. cbn [mbind option_bind].
  unfold prev_at. rewrite (Hp 0) by lia. simpl.
  destruct (pred_links sl hd lt ge HR 1 (fresh (dom (heap sl))) ltac:(unfold K_SKIP_LIST_MAX_LEVEL; lia)
    (is_fresh _) 0) as (b & -> & Hb & _); [lia|]. simpl.
  rewrite first_above_below by done. destruct (first_above 0 ge) as [q|] eqn:Eq; [|done].
  apply first_above_Some in Eq as (a & n & c & -> & <- & _ & _).
  rewrite app_assoc in HR. rewrite (Rep_node _ _ _ _ _ HR). simpl.
  rewrite decide_False; [done|]. apply Forall_app in Hgt as [_ [Hn _]%Forall_cons].
  intros E'. by rewrite <-E', key_lt_irrefl in Hn.
Qed.

Lemma sorted_remove lt ge x : StronglySorted klt (lt ++ x :: ge) -> StronglySorted klt (lt ++ ge).
Proof.
  induction lt as [|n lt IH]; simpl; intros Hs; apply StronglySorted_inv in Hs as [Hs Hn]; [done|].
  constructor; [by apply IH|]. apply Forall_app in Hn as [Hn1 [_ Hn2]%Forall_cons].
  by apply Forall_app.
Qed.

Lemma Remove_present hd sl lt e gt :
  Rep_at hd sl (lt ++ e :: gt) ->
  Forall (fun n => key_ltb (gk n) (gk e) = true) lt ->
  Forall (fun n => key_ltb (gk e) (gk n) = true) gt ->
  exists sl', Remove sl (gk e) = Some (Some (gv e), sl') /\ Rep_at hd sl' (lt ++ gt).
Proof.
  intros HR Hlt Hgt. destruct (FindRemovePoint_present _ _ _ _ _ HR Hlt Hgt) as (prevs & E & Hp).
  unfold Remove. rewrite E. cbn [mbind option_bind]. rewrite (Rep_node _ _ _ _ _ HR).
  cbn [mbind option_bind node_of nlevel nvalue].
  destruct (remove_pointers sl hd e lt gt HR prevs Hp) as (h1 & -> & Hs & Hm).
  cbn [mbind option_bind]. pose proof (remove_chain sl hd e lt gt HR h1 Hs Hm) as Hc.
  pose proof (rep_levels _ _ _ HR) as Hl. pose proof (rep_level _ _ _ HR) as Hlev.
  assert (Hl' : Forall (fun n => 1 <= gl n <= level_ sl) (lt ++ gt)).
  { apply Forall_app in Hl as [Hl1 [_ Hl2]%Forall_cons]. by apply Forall_app. }
  destruct (drop_levels_spec _ _ _ (level_ sl) Hc) as (l & El & Hll & Hf); [|done|].
  { rewrite (rep_head_level _ _ _ HR). lia. }
  rewrite (rep_head _ _ _ HR) in El. rewrite El. eexists. split; [done|].
  constructor; cbn [heap head_ level_ lsize_]; [apply HR|apply HR|done| | |done|lia|].
  - pose proof (rep_nodup _ _ _ HR) as Hnd. rewrite fmap_cons, fmap_app, fmap_cons in Hnd.
    rewrite fmap_cons, fmap_app. rewrite <-Permutation_middle in Hnd.
    rewrite Permutation_swap in Hnd. by apply NoDup_cons in Hnd as [_ ?].
  - eapply sorted_remove, HR.
  - rewrite (rep_size _ _ _ HR), !length_app. simpl. lia.
Qed.

Lemma Remove_map sl ns k :
  Rep sl ns -> exists sl' ns', Remove sl k = Some (abs_map ns !! k, sl')
    /\ Rep sl' ns' /\ abs_map ns' = delete k (abs_map ns).
Proof.
  intros [hd HR].
  destruct (cut_at ns k (rep_sorted _ _ _ HR)) as (lt & ge & -> & Hlt & Hge & [Hgt|(e & gt & -> & <- & Hgt)]);
    rewrite abs_map_mid by done.
  - rewrite abs_map_absent by by apply greater_ne. exists sl, (lt ++ ge).
    unfold Remove. rewrite (FindRemovePoint_absent _ _ _ _ _ HR Hlt Hgt).
    split_and!; [done|by exists hd|]. symmetry. apply delete_id.
    rewrite abs_map_mid by done. by apply abs_map_absent, greater_ne.
  - destruct (Remove_present _ _ _ _ _ HR Hlt Hgt) as (sl' & E & HR').
    exists sl', (lt ++ gt). unfold abs_map at 1. simpl. rewrite lookup_insert_eq.
    split_and!; [done|by exists hd|]. rewrite abs_map_insert, delete_insert_id; [done| |].
    + rewrite abs_map_mid by done. by apply abs_map_absent, greater_ne.
    + by apply smaller_ne.
Qed.

Lemma Rep_new : Rep (SkipList_new : SkipList K V) [].
Proof.
  exists (mkG 0 inhabitant inhabitant K_SKIP_LIST_MAX_LEVEL).
  unfold SkipList_new. constructor; cbn [heap head_ level_ lsize_];
    [done|done|by split|apply NoDup_singleton|constructor|constructor| |done].
  unfold K_SKIP_LIST_MAX_LEVEL. lia.
Qed.

(** ** Iteration *)

(** The loop [for (it.SeekToFirst(); it.Valid(); it.Next()) ...]. *)
Fixpoint walk sl (fuel : nat) (it : option nat) : option (list (K * V)) :=
  if Valid it then
    match fuel with
    | O => None
    | S fuel => k ← Key sl it; v ← Value sl it; it' ← iter_Next sl it;
                rest ← walk sl fuel it'; Some ((k, v) :: rest)
    end
  else Some [].

Lemma walk_chain sl ns : Forall (fun n => 1 <= gl n) ns -> chain (heap sl) ns ->
  walk sl (length ns) (first_above 0 ns) = Some (kvs ns).
Proof.
  induction 1 as [|n ns Hn Hl IH]; [done|]. intros [Hc Hcs].
  rewrite first_above_cons_above by lia. cbn [walk length]. unfold Key, Value, iter_Next, nx.
  cbn [mbind option_bind Valid]. rewrite Hc. cbn.
  rewrite links_lookup by lia. cbn [mbind option_bind]. by rewrite (IH Hcs).
Qed.

Lemma rep_pos hd sl ns : Rep_at hd sl ns -> Forall (fun n => 1 <= gl n) ns.
Proof. intros HR. eapply Forall_impl; [apply (rep_levels _ _ _ HR)|]. simpl. lia. Qed.

Lemma SeekToFirst_spec hd sl ns : Rep_at hd sl ns -> SeekToFirst sl = Some (first_above 0 ns).
Proof.
  intros HR. unfold SeekToFirst. rewrite <-(rep_head _ _ _ HR).
  apply (chain_nx _ [] hd ns 0); [apply HR|]. rewrite (rep_head_level _ _ _ HR).
  unfold K_SKIP_LIST_MAX_LEVEL. lia.
Qed.

Lemma abs_map_size ns : StronglySorted klt ns -> size (abs_map ns) = length ns.
Proof.
  induction 1 as [|n ns Hs IH Hn]; [apply map_size_empty|].
  change (abs_map (n :: ns)) with (<[gk n := gv n]> (abs_map ns)).
  rewrite map_size_insert_None, IH; [done|]. apply abs_map_absent, greater_ne, Hn.
Qed.
End spec.

(** ** Properties *)

Section properties.
Context {K V : Type} `{EqDecision K} `{!KeyOrder K} `{!Countable K}.
Context `{!Inhabited K} `{!Inhabited V}.
Implicit Types (sl : SkipList K V) (ns : list (gnode K V)).

(** An operation of a client, and what a map answers. *)
Inductive op := OInsert (k : K) (v : V) | ORemove (k : K) | OFind (k : K) | OHas (k : K).
Inductive answer := AUnit | ARemoved (v : option V) | AFound (v : option V) | AHas (b : bool).

Definition run_op {rng} (Next : rng -> Z * rng) (o : op) (st : SkipList K V * rng)
    : option (answer * (SkipList K V * rng)) :=
  let '(sl, g) := st in
  match o with
  | OInsert k v => st ← Insert Next sl k v g; Some (AUnit, st)
  | ORemove k => '(v, sl) ← Remove sl k; Some (ARemoved v, (sl, g))
  | OFind k => v ← Find sl k; Some (AFound v, (sl, g))
  | OHas k => b ← Has sl k; Some (AHas b, (sl, g))
  end.

Fixpoint run_ops {rng} (Next : rng -> Z * rng) (os : list op) (st : SkipList K V * rng)
    : option (list answer * (SkipList K V * rng)) :=
  match os with
  | [] => Some ([], st)
  | o :: os => '(a, st) ← run_op Next o st; '(r, st) ← run_ops Next os st; Some (a :: r, st)
  end.

(** The specification: a finite map. *)
Definition spec_op (o : op) (m : gmap K V) : answer * gmap K V :=
  match o with
  | OInsert k v => (AUnit, <[k := v]> m)
  | ORemove k => (ARemoved (m !! k), delete k m)
  | OFind k => (AFound (m !! k), m)
  | OHas k => (AHas (bool_decide (is_Some (m !! k))), m)
  end.

Fixpoint spec_ops (os : list op) (m : gmap K V) : list answer * gmap K V :=
  match os with
  | [] => ([], m)
  | o :: os => let '(a, m) := spec_op o m in let '(r, m) := spec_ops os m in (a :: r, m)
  end.

Lemma run_op_refines {rng} (Next : rng -> Z * rng) o sl g ns :
  Rep sl ns -> exists sl' g' ns',
    run_op Next o (sl, g) = Some ((spec_op o (abs_map ns)).1, (sl', g'))
    /\ Rep sl' ns' /\ abs_map ns' = (spec_op o (abs_map ns)).2.
Proof.
  intros HR. destruct o as [k v|k|k|k]; simpl.
  - destruct (Insert_map sl ns k v Next g HR) as (sl' & g' & ns' & -> & ? & ?). eauto 10.
  - destruct (Remove_map sl ns k HR) as (sl' & ns' & -> & ? & ?). eauto 10.
  - rewrite (Find_map sl ns k HR). simpl. eauto 10.
  - rewrite (Has_map sl ns k HR). simpl. eauto 10.
Qed.

Lemma run_ops_refines {rng} (Next : rng -> Z * rng) os : forall sl g ns,
  Rep sl ns -> exists sl' g' ns',
    run_ops Next os (sl, g) = Some ((spec_ops os (abs_map ns)).1, (sl', g'))
    /\ Rep sl' ns' /\ abs_map ns' = (spec_ops os (abs_map ns)).2.
Proof.
  induction os as [|o os IH]; intros sl g ns HR; cbn [run_ops spec_ops]; [eauto 10|].
  destruct (run_op_refines Next o sl g ns HR) as (sl1 & g1 & ns1 & -> & HR1 & E1). cbn [mbind option_bind].
  destruct (IH sl1 g1 ns1 HR1) as (sl2 & g2 & ns2 & -> & HR2 & E2). rewrite E1 in *.
  destruct (spec_op o (abs_map ns)) as [a m]. simpl in *.
  destruct (spec_ops os m) as [r m2]. simpl in *. eauto 10.
Qed.

(** C2: Any sequence of Insert, Remove, Find and Has on a new skip list runs
    without a null dereference or an access outside a node's array, and gives
    the answers that a finite map gives, whatever the random levels; Size is
    then the number of entries of the map. *)
Theorem skiplist_refines_map {rng} (Next : rng -> Z * rng) (g : rng) (os : list op) :
  exists sl g' ns, run_ops Next os (SkipList_new, g) = Some ((spec_ops os ∅).1, (sl, g'))
    /\ Rep sl ns /\ abs_map ns = (spec_ops os ∅).2 /\ lsize_ sl = size (spec_ops os ∅).2.
Proof.
  destruct (run_ops_refines Next os SkipList_new g [] Rep_new) as (sl & g' & ns & E & HR & Em).
  change (abs_map []) with (∅ : gmap K V) in *.
  exists sl, g', ns. split_and!; [done..|]. destruct HR as [hd HR].
  rewrite <-Em, abs_map_size by apply HR. apply HR.
Qed.

(** C24: A forward iteration of a well-formed skip list visits each entry of its
    map once, in increasing order of keys, and ends. *)
Theorem skiplist_iteration sl ns :
  Rep sl ns -> exists it l, SeekToFirst sl = Some it /\ walk sl (lsize_ sl) it = Some l
    /\ StronglySorted (fun a b => key_ltb a b = true) l.*1
    /\ list_to_map l = abs_map ns /\ length l = size (abs_map ns).
Proof.
  intros [hd HR]. exists (first_above 0 ns), (kvs ns).
  split; [by eapply SeekToFirst_spec|]. split.
  { rewrite (rep_size _ _ _ HR). apply walk_chain; [by eapply rep_pos|]. apply HR. }
  split_and!; [|done|].
  - pose proof (rep_sorted _ _ _ HR) as Hs. unfold kvs. rewrite <-list_fmap_compose.
    clear -Hs. induction Hs as [|n ns Hs IH Hn]; [constructor|]. constructor; [done|].
    apply Forall_fmap. exact Hn.
  - unfold kvs. rewrite length_fmap, abs_map_size; [done|apply HR].
Qed.

(** Seek stands on the entry of exactly the given key and is not valid when
    the key is absent; SeekToLast stands on the greatest key and is not valid
    for an empty list. *)
Lemma skiplist_seek sl ns k :
  Rep sl ns ->
  (exists it, Seek sl k = Some it /\ Value sl it = abs_map ns !! k
     /\ Valid it = bool_decide (is_Some (abs_map ns !! k)))
  /\ (exists it, SeekToLast sl = Some it /\ Key sl it = gk <$> last ns /\ Value sl it = gv <$> last ns).
Proof.
  intros [hd HR]. split.
  - unfold Seek.
    destruct (cut_at ns k (rep_sorted _ _ _ HR)) as (lt & ge & -> & Hlt & Hge & [Hgt|(e & gt & -> & <- & Hgt)]);
      rewrite abs_map_mid by done.
    + rewrite (FindRemovePoint_absent _ _ _ _ _ HR Hlt Hgt). rewrite abs_map_absent by by apply greater_ne.
      by exists None.
    + destruct (FindRemovePoint_present _ _ _ _ _ HR Hlt Hgt) as (prevs & -> & _).
      exists (Some (gid e)). unfold abs_map. simpl. rewrite lookup_insert_eq, (Rep_node _ _ _ _ _ HR). done.
  - unfold SeekToLast, FindLast. rewrite <-(rep_head _ _ _ HR).
    rewrite (find_last_spec (heap sl) hd ns (level_ sl) [] hd ns); [|apply HR|by apply rep_at_fuel| |done]; cycle 1.
    { constructor; [rewrite (rep_head_level _ _ _ HR); unfold K_SKIP_LIST_MAX_LEVEL; lia|]. by eapply rep_pos. }
    destruct ns as [|n ns _] using rev_ind; simpl.
    { rewrite decide_True by done. by exists None. }
    rewrite app_comm_cons, !last_snoc. simpl. exists (Some (gid n)).
    rewrite decide_False; cycle 1.
    { pose proof (rep_distinct sl hd n ns [] HR hd). intros E. by apply H; [left|]. }
    unfold Key, Value. simpl. by rewrite (Rep_node _ _ _ _ _ HR).
Qed.

(** Clear leaves every node linked: the list counts no entries, and Find
    still answers for every key it held. *)
Lemma Clear_keeps_entries sl ns k :
  Rep sl ns -> IsEmpty (Clear sl) = true /\ Find (Clear sl) k = Some (abs_map ns !! k).
Proof.
  intros [hd HR]. split; [done|]. unfold Find, FindNode.
  rewrite (find_node_insert _ _ _ _ [None]). unfold Clear. cbn [heap level_ head_].
  rewrite <-(rep_head _ _ _ HR). pose proof (rep_at_fuel _ _ _ HR) as Hf. pose proof (rep_chain _ _ _ HR) as Hc.
  destruct (cut_at ns k (rep_sorted _ _ _ HR)) as (lt & ge & -> & Hlt & Hge & [Hgt|(e & gt & -> & <- & Hgt)]);
    rewrite abs_map_mid by done.
  - destruct (find_insert_spec _ _ _ _ _ Hc Hf Hlt Hge 1 hd [None]) as (prevs & E & _).
    { by apply greater_ne. } { exists [], lt. rewrite (rep_head_level _ _ _ HR). split; [done|]. unfold K_SKIP_LIST_MAX_LEVEL. lia. } { done. }
    rewrite E, abs_map_absent by by apply greater_ne. done.
  - rewrite (find_insert_present _ _ _ _ _ Hc Hf Hlt Hge 1 e gt); try done.
    + simpl. rewrite (Rep_node _ _ _ _ _ HR). unfold abs_map. simpl. by rewrite lookup_insert_eq.
    + by apply greater_ne.
    + apply (rep_e_level sl hd e lt gt HR).
    + exists [], lt. rewrite (rep_head_level _ _ _ HR). split; [done|]. unfold K_SKIP_LIST_MAX_LEVEL. lia.
Qed.

Lemma sorted_cut a n b k :
  StronglySorted klt (a ++ n :: b) -> gk n = k ->
  Forall (fun m : gnode K V => key_ltb (gk m) k = true) a
  /\ Forall (fun m => key_ltb (gk m) k = false) (n :: b).
Proof.
  intros Hs <-. induction a as [|m a IH]; simpl in *; apply StronglySorted_inv in Hs as [Hs Hn].
  - split; [done|]. constructor; [apply key_lt_irrefl|].
    eapply Forall_impl; [exact Hn|]. intros m. apply key_lt_asym.
  - destruct (IH Hs) as [Ha Hb]. split; [|done]. constructor; [|done].
    apply Forall_app in Hn as [_ [Hn _]%Forall_cons]. exact Hn.
Qed.

Lemma filter_all i ns : Forall (fun n => i < gl n) ns -> filter (fun n => i < gl n) ns = ns.
Proof. induction 1 as [|n ns Hn _ IH]; [done|]. by rewrite filter_cons_True, IH. Qed.

Lemma iter_Prev_pred hd sl a n b :
  Rep_at hd sl (a ++ n :: b) -> iter_Prev sl (Some (gid n)) = Some (gid <$> last (hd :: a)).
Proof.
  intros HR. unfold iter_Prev. cbn [mbind option_bind]. rewrite (Rep_node _ _ _ _ _ HR). cbn.
  destruct (sorted_cut a n b (gk n) (rep_sorted _ _ _ HR) eq_refl) as [Ha Hb].
  destruct (FindPrevNodes_spec hd sl a (n :: b) (gk n) HR Ha Hb) as (prevs & -> & Hp). cbn [mbind option_bind].
  pose proof (rep_level _ _ _ HR). rewrite Hp by lia. f_equal.
  unfold pred_id, last_above. rewrite filter_all; [by destruct (proj2 (last_is_Some (hd :: a)) ltac:(done)) as [q ->]|].
  constructor; [rewrite (rep_head_level _ _ _ HR); unfold K_SKIP_LIST_MAX_LEVEL; lia|].
  pose proof (rep_pos _ _ _ HR) as Hl. apply Forall_app in Hl as [Hl _].
  eapply Forall_impl; [exact Hl|]. simpl. lia.
Qed.

(** The entry an iterator shows. *)
Definition shown sl (it : option nat) : option (K * V) :=
  k ← Key sl it; v ← Value sl it; Some (k, v).

(** Prev moves to the entry before the current one, so the iterator shows
    that entry's key and value; on the first entry it moves to the head node
    instead of becoming invalid, and shows the head's default key and value,
    which were never inserted. *)
Lemma skiplist_prev sl ns :
  Rep sl ns ->
  (forall a m n b, ns = a ++ m :: n :: b ->
     exists it, iter_Prev sl (Some (gid n)) = Some it /\ shown sl it = Some (gk m, gv m))
  /\ (forall n b, ns = n :: b -> exists it kv,
       iter_Prev sl (Some (gid n)) = Some it /\ it = Some (head_ sl) /\ Valid it = true
       /\ shown sl it = Some kv).
Proof.
  intros [hd HR]. pose proof (rep_chain _ _ _ HR) as Hc. split.
  - intros a m n b ->. exists (Some (gid m)).
    replace (a ++ m :: n :: b) with ((a ++ [m]) ++ n :: b) in HR by (by rewrite <-app_assoc).
    rewrite (iter_Prev_pred _ _ _ _ _ HR), app_comm_cons, last_snoc. split; [done|].
    unfold shown, Key, Value. cbn.
    by rewrite (chain_node _ (hd :: a) m (n :: b) Hc).
  - intros n b ->. exists (Some (head_ sl)), (gk hd, gv hd). split_and!; [|done|done|].
    + by rewrite (iter_Prev_pred hd sl [] n b HR), <-(rep_head _ _ _ HR).
    + unfold shown, Key, Value. cbn. rewrite <-(rep_head _ _ _ HR).
      by rewrite (chain_node _ [] hd (n :: b) Hc).
Qed.
End properties.

(** A list with two entries, to instantiate the properties at. *)
Definition two_entries : SkipList bytes Z :=
  let Next (g : Z) := (g, (g - 1)%Z) in
  match run_ops Next [OInsert (lit "b") 2%Z; OInsert (lit "a") 1%Z] (SkipList_new, 4%Z) with
  | Some (_, (sl, _)) => sl
  | None => SkipList_new
  end.

Lemma two_entries_rep :
  Rep two_entries [mkG 2 (lit "a") 1%Z 1; mkG 1 (lit "b") 2%Z 2].
Proof.
  exists (mkG 0 inhabitant inhabitant 40). constructor; try vm_decide; vm_compute;
    repeat first [reflexivity | constructor | split].
Qed.

Lemma skiplist_iteration_witness :
  Rep two_entries [mkG 2 (lit "a") 1%Z 1; mkG 1 (lit "b") 2%Z 2] /\
  exists it l, SeekToFirst two_entries = Some it
    /\ walk two_entries (lsize_ two_entries) it = Some l /\ length l = 2.
Proof.
  split; [apply two_entries_rep|].
  destruct (skiplist_iteration two_entries _ two_entries_rep) as (it & l & E1 & E2 & _ & _ & E3).
  exists it, l. split; [exact E1|]. split; [exact E2|]. rewrite E3. vm_compute. reflexivity.
Defined.

Lemma skiplist_seek_witness :
  exists it, Seek two_entries (lit "b") = Some it /\ Value two_entries it = Some 2%Z.
Proof.
  destruct (skiplist_seek two_entries _ (lit "b") two_entries_rep) as [(it & E1 & E2 & _) _].
  exists it. split; [exact E1|]. rewrite E2. vm_compute. reflexivity.
Defined.

Lemma Clear_keeps_entries_witness :
  lsize_ two_entries = 2 /\ IsEmpty (Clear two_entries) = true
  /\ Find (Clear two_entries) (lit "b") = Some (Some 2%Z).
Proof.
  destruct (Clear_keeps_entries two_entries _ (lit "b") two_entries_rep) as [E1 E2].
  split; [vm_compute; reflexivity|]. split; [exact E1|]. rewrite E2. vm_compute. reflexivity.
Defined.

Lemma skiplist_prev_witness :
  (exists it, iter_Prev two_entries (Some 1) = Some it /\ shown two_entries it = Some (lit "a", 1%Z)) /\
  exists it, iter_Prev two_entries (Some 2) = Some it /\ Valid it = true.
Proof.
  destruct (skiplist_prev two_entries _ two_entries_rep) as [H1 H2]. split.
  - exact (H1 [] _ _ [] eq_refl).
  - destruct (H2 _ _ eq_refl) as (it & kv & E1 & _ & E2 & _). exists it. split; [exact E1|exact E2].
Defined.
