(* ===== verification/Index.v ===== *)
(** * The in-memory index (src/bitdb/index)

    [Indexer] is the abstract class of index.h as a typeclass of operations,
    with an implementation per class of the source; [IndexerLaws] is what the
    database relies on, a refinement of the finite map from keys to positions,
    proved of every implementation.  Each implementation stores [key.data()],
    the key up to its first NUL.  [None] is a read outside the memory of a key,
    or a failure inside the skip list (which the laws exclude).

    The locks of the indexers are not modelled: the operations are atomic. *)

From S2P Require Import Prelude Bytes LogRecord SkipList SkipListProofs SkipListSpec.

(** ** Interface *)

(** Delete answers whether the key was there, and the position it had. *)
Class Indexer (I : Type) := {
  idx_Put : Bytes -> LogRecordPst -> I -> option (bool * I);
  idx_Get : Bytes -> I -> option (option LogRecordPst);
  idx_Delete : Bytes -> I -> option (bool * option LogRecordPst * I);
  idx_Size : I -> nat
}.

(** [idx_rep i m]: the indexer [i] holds the map [m]. *)
Class IndexerLaws (I : Type) `{Indexer I} := {
  idx_rep : I -> gmap bytes LogRecordPst -> Prop;
  idx_Put_spec : forall i m k s p, idx_rep i m -> c_str (data_ k) = Some s ->
    exists i', idx_Put k p i = Some (true, i') /\ idx_rep i' (<[s := p]> m);
  idx_Get_spec : forall i m k s, idx_rep i m -> c_str (data_ k) = Some s ->
    idx_Get k i = Some (m !! s);
  idx_Delete_spec : forall i m k s, idx_rep i m -> c_str (data_ k) = Some s ->
    exists i', idx_Delete k i = Some (bool_decide (is_Some (m !! s)), m !! s, i')
      /\ idx_rep i' (delete s m);
  idx_Size_spec : forall i m, idx_rep i m -> idx_Size i = size m
}.

(** ** HashIndexer and TreeIndexer: [std::unordered_map] and [std::map] *)

Definition StdMap : Type := gmap bytes LogRecordPst.

Definition StdMap_Put (k : Bytes) (p : LogRecordPst) (ds : StdMap) : option (bool * StdMap) :=
  s ← c_str (data_ k); Some (true, <[s := p]> ds).

Definition StdMap_Get (k : Bytes) (ds : StdMap) : option (option LogRecordPst) :=
  s ← c_str (data_ k);
  if decide (is_Some (ds !! s)) then Some (ds !! s) else Some None.

(** [*pos] is set when the key is there; [erase] counts what it removes. *)
Definition StdMap_Delete (k : Bytes) (ds : StdMap) : option (bool * option LogRecordPst * StdMap) :=
  s ← c_str (data_ k);
  let pos := ds !! s in
  let erased := if decide (is_Some (ds !! s)) then 1 else 0 in
  Some (bool_decide (erased = 1), pos, delete s ds).

Record HashIndexer := mkHash { hash_ds_ : StdMap }.
Record TreeIndexer := mkTree { tree_ds_ : StdMap }.

#[export] Instance HashIndexer_Indexer : Indexer HashIndexer := {|
  idx_Put k p i := '(b, m) ← StdMap_Put k p (hash_ds_ i); Some (b, mkHash m);
  idx_Get k i := StdMap_Get k (hash_ds_ i);
  idx_Delete k i := '(b, p, m) ← StdMap_Delete k (hash_ds_ i); Some (b, p, mkHash m);
  idx_Size i := size (hash_ds_ i)
|}.

#[export] Instance TreeIndexer_Indexer : Indexer TreeIndexer := {|
  idx_Put k p i := '(b, m) ← StdMap_Put k p (tree_ds_ i); Some (b, mkTree m);
  idx_Get k i := StdMap_Get k (tree_ds_ i);
  idx_Delete k i := '(b, p, m) ← StdMap_Delete k (tree_ds_ i); Some (b, p, mkTree m);
  idx_Size i := size (tree_ds_ i)
|}.

(** ** SkipListIndexer *)

#[export] Instance LogRecordPst_inhabited : Inhabited LogRecordPst := populate (mkPst 0 0).

(** The random engine of the list (utils/random.h), with its state. *)
Class RandomEngine := { rng : Type; rng_seed : rng; rng_Next : rng -> Z * rng }.

Section skiplist.
Context `{RandomEngine}.

(** [index_iter_]: the one iterator the indexer hands out, once it exists. *)
Record SkipListIndexer := mkSkip {
  ds_ : SkipList bytes LogRecordPst; rander_ : rng; index_iter_ : option (option nat)
}.

Definition Skip_Put (k : Bytes) (p : LogRecordPst) (i : SkipListIndexer)
    : option (bool * SkipListIndexer) :=
  s ← c_str (data_ k);
  '(ds, g) ← Insert rng_Next (ds_ i) s p (rander_ i);
  Some (true, mkSkip ds g (index_iter_ i)).

Definition Skip_Get (k : Bytes) (i : SkipListIndexer) : option (option LogRecordPst) :=
  s ← c_str (data_ k); Find (ds_ i) s.

Definition Skip_Delete (k : Bytes) (i : SkipListIndexer)
    : option (bool * option LogRecordPst * SkipListIndexer) :=
  s ← c_str (data_ k);
  '(res, ds) ← Remove (ds_ i) s;
  Some (bool_decide (is_Some res), res, mkSkip ds (rander_ i) (index_iter_ i)).

#[export] Instance SkipListIndexer_Indexer : Indexer SkipListIndexer := {|
  idx_Put := Skip_Put; idx_Get := Skip_Get; idx_Delete := Skip_Delete;
  idx_Size i := lsize_ (ds_ i)
|}.

(** Iterator(): made at the first call, the same one afterwards. *)
Definition Skip_Iterator (i : SkipListIndexer) : SkipListIndexer :=
  match index_iter_ i with
  | None => mkSkip (ds_ i) (rander_ i) (Some None)
  | Some _ => i
  end.

(** *** SkipListIndexerIterator: the calls the iterator forwards *)

Definition SkipIter_Valid (i : SkipListIndexer) : option bool := Valid <$> index_iter_ i.
Definition SkipIter_Key (i : SkipListIndexer) : option bytes :=
  it ← index_iter_ i; Key (ds_ i) it.
Definition SkipIter_Value (i : SkipListIndexer) : option LogRecordPst :=
  it ← index_iter_ i; Value (ds_ i) it.

Definition move (f : SkipList bytes LogRecordPst -> option nat -> option (option nat))
    (i : SkipListIndexer) : option SkipListIndexer :=
  it ← index_iter_ i; it ← f (ds_ i) it; Some (mkSkip (ds_ i) (rander_ i) (Some it)).

Definition SkipIter_Next : SkipListIndexer -> option SkipListIndexer := move iter_Next.
Definition SkipIter_Prev : SkipListIndexer -> option SkipListIndexer := move iter_Prev.
Definition SkipIter_SeekToFirst : SkipListIndexer -> option SkipListIndexer :=
  move (fun ds _ => SeekToFirst ds).
Definition SkipIter_SeekToLast : SkipListIndexer -> option SkipListIndexer :=
  move (fun ds _ => SeekToLast ds).
Definition SkipIter_Seek (target : Bytes) : SkipListIndexer -> option SkipListIndexer :=
  move (fun ds _ => s ← c_str (data_ target); Seek ds s).

(** ** NewIndexer: the implementation is chosen when the database is opened *)

Inductive IndexerType := HashMapIndex | TreeMapIndex | SkipListIndex.

(** [std::unique_ptr<Indexer>]. *)
Inductive Index :=
| IHash (i : HashIndexer) | ITree (i : TreeIndexer) | ISkip (i : SkipListIndexer).

Definition NewIndexer (type : IndexerType) : Index :=
  match type with
  | HashMapIndex => IHash (mkHash ∅)
  | TreeMapIndex => ITree (mkTree ∅)
  | SkipListIndex => ISkip (mkSkip SkipList_new rng_seed None)
  end.

(** Virtual calls. *)
#[export] Instance Index_Indexer : Indexer Index := {|
  idx_Put k p i := match i with
    | IHash i => '(b, i) ← idx_Put k p i; Some (b, IHash i)
    | ITree i => '(b, i) ← idx_Put k p i; Some (b, ITree i)
    | ISkip i => '(b, i) ← idx_Put k p i; Some (b, ISkip i) end;
  idx_Get k i := match i with
    | IHash i => idx_Get k i | ITree i => idx_Get k i | ISkip i => idx_Get k i end;
  idx_Delete k i := match i with
    | IHash i => '(b, p, i) ← idx_Delete k i; Some (b, p, IHash i)
    | ITree i => '(b, p, i) ← idx_Delete k i; Some (b, p, ITree i)
    | ISkip i => '(b, p, i) ← idx_Delete k i; Some (b, p, ISkip i) end;
  idx_Size i := match i with
    | IHash i => idx_Size i | ITree i => idx_Size i | ISkip i => idx_Size i end
|}.

(** Iterator(): null but for the skip list. *)
Definition Index_Iterator (i : Index) : option SkipListIndexer :=
  match i with ISkip i => Some (Skip_Iterator i) | _ => None end.
End skiplist.

(** ** The laws *)

Lemma StdMap_Get_spec k s m : c_str (data_ k) = Some s -> StdMap_Get k m = Some (m !! s).
Proof. unfold StdMap_Get. intros ->. simpl. by destruct (m !! s). Qed.

Lemma StdMap_Delete_spec k s m : c_str (data_ k) = Some s ->
  StdMap_Delete k m = Some (bool_decide (is_Some (m !! s)), m !! s, delete s m).
Proof. unfold StdMap_Delete. intros ->. simpl. by destruct (m !! s). Qed.

#[export] Program Instance HashIndexer_Laws : IndexerLaws HashIndexer :=
  {| idx_rep i m := hash_ds_ i = m |}.
Next Obligation. intros i m k s p <- E. simpl. unfold StdMap_Put. rewrite E. simpl. eauto. Qed.
Next Obligation. intros i m k s <- E. by apply StdMap_Get_spec. Qed.
Next Obligation. intros i m k s <- E. simpl. rewrite (StdMap_Delete_spec _ _ _ E). simpl. eauto. Qed.
Next Obligation. by intros i m <-. Qed.

#[export] Program Instance TreeIndexer_Laws : IndexerLaws TreeIndexer :=
  {| idx_rep i m := tree_ds_ i = m |}.
Next Obligation. intros i m k s p <- E. simpl. unfold StdMap_Put. rewrite E. simpl. eauto. Qed.
Next Obligation. intros i m k s <- E. by apply StdMap_Get_spec. Qed.
Next Obligation. intros i m k s <- E. simpl. rewrite (StdMap_Delete_spec _ _ _ E). simpl. eauto. Qed.
Next Obligation. by intros i m <-. Qed.

Section laws.
Context `{RandomEngine}.

#[export] Program Instance SkipListIndexer_Laws : IndexerLaws SkipListIndexer :=
  {| idx_rep i m := exists ns, Rep (ds_ i) ns /\ abs_map ns = m |}.
Next Obligation.
  intros i m k s p (ns & HR & <-) E. simpl. unfold Skip_Put. rewrite E. simpl.
  destruct (Insert_map (ds_ i) ns s p rng_Next (rander_ i) HR) as (sl & g & ns' & -> & HR' & Em).
  simpl. eauto 10.
Qed.
Next Obligation.
  intros i m k s (ns & HR & <-) E. simpl. unfold Skip_Get. rewrite E. simpl. by apply Find_map.
Qed.
Next Obligation.
  intros i m k s (ns & HR & <-) E. simpl. unfold Skip_Delete. rewrite E. simpl.
  destruct (Remove_map (ds_ i) ns s HR) as (sl & ns' & -> & HR' & Em). simpl. eauto 10.
Qed.
Next Obligation.
  intros i m (ns & [hd HR] & <-). simpl. rewrite (rep_size _ _ _ HR), abs_map_size; [done|apply HR].
Qed.

#[export] Program Instance Index_Laws : IndexerLaws Index :=
  {| idx_rep i m := match i with IHash i => idx_rep i m | ITree i => idx_rep i m
                               | ISkip i => idx_rep i m end |}.
Next Obligation.
  intros [i|i|i] m k s p HR E; destruct (idx_Put_spec i m k s p HR E) as (i' & Ep & HR');
    simpl in *; rewrite Ep; simpl; eexists; eauto.
Qed.
Next Obligation. intros [i|i|i] m k s HR E; exact (idx_Get_spec i m k s HR E). Qed.
Next Obligation.
  intros [i|i|i] m k s HR E; destruct (idx_Delete_spec i m k s HR E) as (i' & Ep & HR');
    simpl in *; rewrite Ep; simpl; eexists; eauto.
Qed.
Next Obligation. intros [i|i|i] m HR; exact (idx_Size_spec i m HR). Qed.

Lemma NewIndexer_rep t : idx_rep (NewIndexer t) ∅.
Proof. destruct t; [done|done|]. exists []. split; [apply Rep_new|done]. Qed.
End laws.

(** ** Properties *)

Section properties.
Context `{RandomEngine}.

(** A call of a client, and its answer. *)
Inductive call := CPut (k : Bytes) (p : LogRecordPst) | CGet (k : Bytes) | CDelete (k : Bytes) | CSize.
Inductive reply := RBool (b : bool) | RPos (p : option LogRecordPst)
  | RDeleted (b : bool) (p : option LogRecordPst) | RSize (n : nat).

Definition run_call (c : call) (i : Index) : option (reply * Index) :=
  match c with
  | CPut k p => '(b, i) ← idx_Put k p i; Some (RBool b, i)
  | CGet k => p ← idx_Get k i; Some (RPos p, i)
  | CDelete k => '(b, p, i) ← idx_Delete k i; Some (RDeleted b p, i)
  | CSize => Some (RSize (idx_Size i), i)
  end.

Fixpoint run_calls (cs : list call) (i : Index) : option (list reply * Index) :=
  match cs with
  | [] => Some ([], i)
  | c :: cs => '(r, i) ← run_call c i; '(rs, i) ← run_calls cs i; Some (r :: rs, i)
  end.

(** The key a call stores or looks up: the bytes before the first NUL. *)
Definition key_of (k : Bytes) : bytes := default [] (c_str (data_ k)).

Definition spec_call (c : call) (m : gmap bytes LogRecordPst) : reply * gmap bytes LogRecordPst :=
  match c with
  | CPut k p => (RBool true, <[key_of k := p]> m)
  | CGet k => (RPos (m !! key_of k), m)
  | CDelete k => (RDeleted (bool_decide (is_Some (m !! key_of k))) (m !! key_of k), delete (key_of k) m)
  | CSize => (RSize (size m), m)
  end.

Fixpoint spec_calls (cs : list call) (m : gmap bytes LogRecordPst) : list reply :=
  match cs with
  | [] => []
  | c :: cs => let '(r, m) := spec_call c m in r :: spec_calls cs m
  end.

(** Every key of a call is a terminated string. *)
Definition call_ok (c : call) : bool :=
  match c with
  | CPut k _ | CGet k | CDelete k => bool_decide (is_Some (c_str (data_ k)))
  | CSize => true
  end.

Lemma run_call_spec c i m : call_ok c = true -> idx_rep i m -> exists i',
  run_call c i = Some ((spec_call c m).1, i') /\ idx_rep i' (spec_call c m).2.
Proof.
  intros Hok HR. destruct c as [k p|k|k|]; cbn [call_ok run_call spec_call fst snd] in *;
    try (apply bool_decide_eq_true in Hok as [s E]; unfold key_of; rewrite E; cbn [default]).
  - destruct (idx_Put_spec i m k s p HR E) as (i' & -> & HR'). exists i'. done.
  - rewrite (idx_Get_spec i m k s HR E). exists i. done.
  - destruct (idx_Delete_spec i m k s HR E) as (i' & -> & HR'). exists i'. done.
  - rewrite (idx_Size_spec i m HR). exists i. done.
Qed.

Lemma run_calls_spec cs : forall i m, forallb call_ok cs = true -> idx_rep i m ->
  exists i', run_calls cs i = Some (spec_calls cs m, i').
Proof.
  induction cs as [|c cs IH]; intros i m Hok HR; cbn [run_calls spec_calls]; [eauto|].
  cbn [forallb] in Hok. apply andb_true_iff in Hok as [Hc Hok].
  destruct (run_call_spec c i m Hc HR) as (i1 & -> & HR1). cbn [mbind option_bind].
  destruct (spec_call c m) as [r m1]. destruct (IH i1 m1 Hok HR1) as (i2 & ->). simpl. eauto.
Qed.

(** C9: The three indexers NewIndexer chooses from are interchangeable: on any
    sequence of Put, Get, Delete and Size whose keys are terminated strings,
    each answers as the finite map from the keys, cut at their first NUL, to
    positions does, and none of them fails. *)
Theorem indexers_agree (type : IndexerType) (cs : list call) :
  forallb call_ok cs = true ->
  exists i, run_calls cs (NewIndexer type) = Some (spec_calls cs ∅, i).
Proof. intros Hok. apply run_calls_spec; [done|apply NewIndexer_rep]. Qed.
End properties.

(** An engine, to instantiate the properties at: the levels 2, 1, 1, 1, ... *)
Definition countdown_engine : RandomEngine :=
  {| rng := Z; rng_seed := 4%Z; rng_Next g := (g, Z.pred g) |}.

Lemma indexers_agree_witness :
  let k := Bytes_of_string (lit "k") in
  exists i, run_calls [CPut k (mkPst 1 2); CGet k; CDelete k; CSize] (@NewIndexer countdown_engine SkipListIndex)
    = Some ([RBool true; RPos (Some (mkPst 1 2)); RDeleted true (Some (mkPst 1 2)); RSize 0], i).
Proof.
  exact (@indexers_agree countdown_engine SkipListIndex
    (let k := Bytes_of_string (lit "k") in [CPut k (mkPst 1 2); CGet k; CDelete k; CSize]) eq_refl).
Defined.
