(* ===== verification/DB.v ===== *)
(** * The database (src/bitdb/db.{h,cpp}, options.h, iterator.h)

    The fields of class DB and the host it runs on are the state of a monad
    that fails with a Status.  Every function of db.cpp is a definition, in the
    order of its statements; [CHECK_OK] is the bind of the monad.  A
    [unique_ptr<DataFile>] is an option, so that the null pointers the code
    stores ([older_files_[fid]] inserts one) are there.  The shared mutex is
    not modelled: each operation runs alone.  A function that fills an output
    parameter returns it. *)

From S2P Require Import Prelude Strings Bytes Status LogRecord FileIO DataFile.
From S2P Require Import SkipList Index.
Local Open Scope Z_scope.

(** ** options.h *)

Record Options := mkOptions {
  dir_path : bytes; data_file_size : Z; is_sync_write : bool; index_type : IndexerType
}.

Definition CheckOptions {S} (options : Options) : M S Status unit :=
  match dir_path options with
  | [] => throw (InvalidArgument (lit "Options") (lit "dir_path is emtpy."))
  | _ =>
      if data_file_size options <=? 0
      then throw (InvalidArgument (lit "Options") (lit "data file size isn't positive"))
      else mret tt
  end.

(** GetTempDir of os_utils.h, on an environment. *)
Definition GetTempDir (getenv : bytes -> option bytes) : bytes :=
  match getenv (lit "TMPDIR") with
  | Some d => d
  | None => match getenv (lit "TEMP") with
            | Some d => d
            | None => default (lit "/tmp/") (getenv (lit "TMP"))
            end
  end.

Definition DefaultOptions (getenv : bytes -> option bytes) : Options :=
  mkOptions (GetTempDir getenv) (256 * 1024 * 1024) false SkipListIndex.

Record WriteBatchOptions := mkBatchOptions { max_batch_num : Z; batch_is_sync_write : bool }.
Definition DefaultWriteBatchOptions : WriteBatchOptions := mkBatchOptions 100 false.

(** ** db.h *)

Section db.
Context `{Crc32cLib} `{RandomEngine} `{DirOrder}.

Record DB := mkDB {
  options_ : Options;
  active_file_ : option DataFile;
  older_files_ : gmap Z (option DataFile);
  index_ : Index;
  file_ids_ : option (list Z);
  next_file_id_ : Z;
  txn_id_ : Z;
  is_merging_ : bool
}.

Definition DB_new (options : Options) : DB :=
  mkDB options None ∅ (NewIndexer (index_type options)) None 0 0 false.

Definition set_active (a : option DataFile) (db : DB) : DB :=
  mkDB (options_ db) a (older_files_ db) (index_ db) (file_ids_ db) (next_file_id_ db)
    (txn_id_ db) (is_merging_ db).
Definition set_older (o : gmap Z (option DataFile)) (db : DB) : DB :=
  mkDB (options_ db) (active_file_ db) o (index_ db) (file_ids_ db) (next_file_id_ db)
    (txn_id_ db) (is_merging_ db).
Definition set_index (i : Index) (db : DB) : DB :=
  mkDB (options_ db) (active_file_ db) (older_files_ db) i (file_ids_ db) (next_file_id_ db)
    (txn_id_ db) (is_merging_ db).
Definition set_file_ids (l : option (list Z)) (db : DB) : DB :=
  mkDB (options_ db) (active_file_ db) (older_files_ db) (index_ db) l (next_file_id_ db)
    (txn_id_ db) (is_merging_ db).
Definition set_next (n : Z) (db : DB) : DB :=
  mkDB (options_ db) (active_file_ db) (older_files_ db) (index_ db) (file_ids_ db) n
    (txn_id_ db) (is_merging_ db).
Definition set_txn_id (t : Z) (db : DB) : DB :=
  mkDB (options_ db) (active_file_ db) (older_files_ db) (index_ db) (file_ids_ db)
    (next_file_id_ db) t (is_merging_ db).
Definition set_merging (b : bool) (db : DB) : DB :=
  mkDB (options_ db) (active_file_ db) (older_files_ db) (index_ db) (file_ids_ db)
    (next_file_id_ db) (txn_id_ db) b.

(** A database and the host. *)
Definition DBW : Type := DB * World.
Abbreviation D := (M DBW Status).

Definition get_db : D DB := gets fst.
Definition modify_db (f : DB -> DB) : D unit := modify (fun s => (f s.1, s.2)).
(** A call on the host alone, and one on another database on the same host. *)
Definition io {A} (m : M World Status A) : D A := zoom snd (fun s w => (s.1, w)) m.
Definition run_on {A} (d : DB) (m : D A) : D (A * DB) := fun s =>
  let '(r, (d', w')) := m (d, s.2) in
  (match r with Ret a => Ret (a, d') | Throw e => Throw e | Undef u => Undef u end, (s.1, w')).

(** [active_file_->], [index_->Put] and so on. *)
Definition active : D DataFile := db ← get_db; some_or NullDeref (active_file_ db).
Definition index_Put (k : Bytes) (p : LogRecordPst) : D bool :=
  db ← get_db;
  '(b, i) ← some_or OutOfBounds (idx_Put k p (index_ db));
  modify_db (set_index i);; mret b.
Definition index_Get (k : Bytes) : D (option LogRecordPst) :=
  db ← get_db; some_or OutOfBounds (idx_Get k (index_ db)).
Definition index_Delete (k : Bytes) : D (bool * option LogRecordPst) :=
  db ← get_db;
  '(b, p, i) ← some_or OutOfBounds (idx_Delete k (index_ db));
  modify_db (set_index i);; mret (b, p).

(** ** Writing *)

Definition NewActiveDataFile : D unit :=
  db ← get_db;
  data_file ← io (OpenDataFile (dir_path (options_ db)) (next_file_id_ db));
  modify_db (fun db => set_active (Some data_file) (set_next (u32 (next_file_id_ db + 1)) db)).

(** [older_files_[active_file_->file_id] = std::move(active_file_)]. *)
Definition retire_active : D unit :=
  df ← active;
  modify_db (fun db => set_active None (set_older (<[file_id df := Some df]> (older_files_ db)) db)).

Definition AppendLogRecord (log_record : LogRecord) : D LogRecordPst :=
  db ← get_db;
  when (bool_decide (active_file_ db = None)) NewActiveDataFile;;
  let encode_bytes := EncodeLogRecord log_record in
  df ← active;
  when (u64 (write_off df + Z.of_nat (length encode_bytes)) >? data_file_size (options_ db))
    (io (DataFile_Sync df);; retire_active;; NewActiveDataFile);;
  df ← active;
  df' ← io (DataFile_Write df encode_bytes);
  modify_db (set_active (Some df'));;
  when (is_sync_write (options_ db)) (io (DataFile_Sync df'));;
  mret (mkPst (file_id df) (write_off df)).

(** The text of a key in a message. *)
Definition key_text (k : Bytes) : D bytes := some_or OutOfBounds (to_str k).

Definition Put (k v : Bytes) : D Status :=
  if empty_ k then throw (InvalidArgument (lit "DB::Put") (lit "key is empty")) else
  ek ← some_or OutOfBounds (EncodeLogRecordWithTxnID k K_NON_TXN_ID);
  sv ← some_or OutOfBounds (c_str (data_ v));
  pst ← AppendLogRecord (mkRecord ek sv NormalLogRecord);
  ok ← index_Put k pst;
  text ← key_text k;
  CHECK_TRUE ok (lit "index_->Put(key, pst)")
    (Format (lit "fail to put index of key: {}") [text]);;
  mret Status_Ok.

(** ** Reading *)

(** [to_null]: the caller passes a null [value]. *)
Definition GetValueByLogRecordPst (p : LogRecordPst) (k : Bytes) (to_null : bool) : D bytes :=
  act ← active;
  data_file ←
    (if fid p =? file_id act then mret (Some act)
     else
       db ← get_db;
       match older_files_ db !! fid p with
       | Some df => mret df
       | None => modify_db (set_older (<[fid p := None]> (older_files_ db)));; mret None
       end);
  text ← key_text k;
  match data_file with
  | None => throw (NotFound (lit "DataFile") (lit "data file of key: " ++ text ++ lit " Not found"))
  | Some df =>
      '(log_record, _) ← io (ReadLogRecord df (offset p));
      if bool_decide (type log_record = DeletedLogRecord)
      then throw (NotFound (lit "index") (lit "index of key " ++ text ++ lit " not_found"))
      else if to_null then undef NullDeref else mret (value log_record)
  end.

Definition Get (k : Bytes) (to_null : bool) : D bytes :=
  if empty_ k then throw (InvalidArgument (lit "DB::Get") (lit "key is empty")) else
  log_record_pst ← index_Get k;
  match log_record_pst with
  | None =>
      text ← key_text k;
      throw (NotFound (lit "index") (lit "index of key " ++ text ++ lit " not_found"))
  | Some p => GetValueByLogRecordPst p k to_null
  end.

(** AppendLogRecord overwrites the position that the index holds, which the
    index then drops. *)
Definition Delete (k : Bytes) : D Status :=
  if empty_ k then throw (InvalidArgument (lit "DB::Delete") (lit "key is empty")) else
  pst ← index_Get k;
  text ← key_text k;
  match pst with
  | None => mret (Ok2 (lit "DB::Delete") (Format (lit "key: {} don't exist.") [text]))
  | Some _ =>
      ek ← some_or OutOfBounds (EncodeLogRecordWithTxnID k K_NON_TXN_ID);
      pst ← AppendLogRecord (mkRecord ek [] DeletedLogRecord);
      '(ok, _) ← index_Delete k;
      CHECK_TRUE ok (lit "index_->Delete(key, &pst)")
        (Format (lit "index delete key: {} failed.") [text]);;
      mret Status_Ok
  end.

Definition Sync : D unit := df ← active; io (DataFile_Sync df).

Definition GetDirPath : D bytes := db ← get_db; mret (dir_path (options_ db)).
Definition GetOlderDataFileNum : D nat := db ← get_db; mret (size (older_files_ db)).

(** ** Iteration (db.cpp, iterator.h) *)

Definition not_supported {A} : D A :=
  throw (NotSupported (lit "DB::NewIterator")
           (lit "this kind of indexer didn't support iterator now")).

(** NewIterator: the iterator of the index, made at its first use. *)
Definition NewIterator : D unit :=
  db ← get_db;
  match Index_Iterator (index_ db) with
  | None => not_supported
  | Some i => modify_db (set_index (ISkip i))
  end.

(** A call of the index iterator. *)
Definition iter_ask {A} (f : SkipListIndexer -> option A) : D A :=
  db ← get_db;
  match index_ db with ISkip i => some_or OutOfBounds (f i) | _ => undef NullDeref end.
Definition iter_move (f : SkipListIndexer -> option SkipListIndexer) : D unit :=
  i ← iter_ask f; modify_db (set_index (ISkip i)).

Definition Iterator_Valid : D bool := iter_ask SkipIter_Valid.
Definition Iterator_Key : D bytes := iter_ask SkipIter_Key.
Definition Iterator_Next : D unit := iter_move SkipIter_Next.
Definition Iterator_Prev : D unit := iter_move SkipIter_Prev.
Definition Iterator_Seek (target : Bytes) : D unit := iter_move (SkipIter_Seek target).
Definition Iterator_SeekToFirst : D unit := iter_move SkipIter_SeekToFirst.
Definition Iterator_SeekToLast : D unit := iter_move SkipIter_SeekToLast.

(** Value: an error is logged, and the value is empty. *)
Definition or_empty (m : D bytes) : D bytes := fun s =>
  match m s with (Throw _, s') => (Ret [], s') | r => r end.
Definition Iterator_Value : D bytes :=
  pst ← iter_ask SkipIter_Value;
  k ← Iterator_Key;
  or_empty (GetValueByLogRecordPst pst (Bytes_of_string k) false).

(** A walk visits each node of the list at most once. *)
Definition iter_fuel (db : DB) : nat :=
  match index_ db with ISkip i => S (size (heap (ds_ i))) | _ => O end.

(** The loop of ListKeys; [keys] has [Size()] elements. *)
Fixpoint list_keys_loop (fuel : nat) (keys : list bytes) (idx : nat) : D (list bytes) :=
  match fuel with
  | O => undef OutOfFuel
  | S fuel =>
      valid ← Iterator_Valid;
      if (valid : bool) then
        k ← Iterator_Key;
        if decide (idx < length keys)%nat then
          Iterator_Next;;
          list_keys_loop fuel (<[idx := k]> keys) (S idx)
        else undef OutOfBounds
      else mret keys
  end.

Definition ListKeys : D (list bytes) :=
  NewIterator;;
  db ← get_db;
  Iterator_SeekToFirst;;
  list_keys_loop (iter_fuel db) (replicate (idx_Size (index_ db)) []) 0.

(** Fold, with the state [A] of the user's function. *)
Fixpoint fold_loop {A} (fn : A -> bytes -> bytes -> bool * A) (fuel : nat) (a : A) : D A :=
  match fuel with
  | O => undef OutOfFuel
  | S fuel =>
      valid ← Iterator_Valid;
      if (valid : bool) then
        k ← Iterator_Key;
        p ← iter_ask SkipIter_Value;
        v ← GetValueByLogRecordPst p (Bytes_of_string k) false;
        let '(go_on, a) := fn a k v in
        if (go_on : bool) then Iterator_Next;; fold_loop fn fuel a else mret a
      else mret a
  end.

Definition Fold {A} (fn : A -> bytes -> bytes -> bool * A) (a : A) : D A :=
  NewIterator;;
  db ← get_db;
  Iterator_SeekToFirst;;
  fold_loop fn (iter_fuel db) a.

(** ** Loading *)

Fixpoint data_file_ids (names : list bytes) : D (list Z) :=
  match names with
  | [] => mret []
  | name :: names =>
      if String.EndsWith name K_DATA_FILE_SUFFIX then
        split_names ← some_or OutOfFuel (String.Split name (lit ".") true);
        match split_names with
        | [_; _] =>
            (* the first piece is a view into the name: it is read on *)
            id ← some_or UncaughtException (stoi name);
            ids ← data_file_ids names; mret (u32 id :: ids)
        | _ => throw (Corruption (lit "DB::LoadDataFiles") (lit "database dir maybe corrupted"))
        end
      else data_file_ids names
  end.

(** The last file is the active one. *)
Fixpoint open_data_files (ids : list Z) : D unit :=
  match ids with
  | [] => mret tt
  | fid :: ids =>
      db ← get_db;
      data_file ← io (OpenDataFile (dir_path (options_ db)) fid);
      modify_db (match ids with
                 | [] => set_active (Some data_file)
                 | _ => fun db => set_older (<[fid := Some data_file]> (older_files_ db)) db
                 end);;
      open_data_files ids
  end.

Definition LoadDataFiles : D unit :=
  db ← get_db;
  names ← io (list_dir (dir_path (options_ db)));
  match names with
  | None => throw (InvalidArgument (lit "DB::LoadDataFiles") (lit "failed to open dir."))
  | Some names =>
      ids ← data_file_ids names;
      let ids := merge_sort Z.le ids in
      modify_db (set_file_ids (Some ids));;
      open_data_files ids;;
      modify_db (fun db => set_next (match active_file_ db with
                                     | Some df => u32 (file_id df + 1) | None => 0 end) db)
  end.

Definition GetNonMergedFileID (directory : bytes) : D Z :=
  merged_file ← io (OpenMergedFile directory);
  '(log_record, _) ← io (ReadLogRecord merged_file 0);
  v ← some_or UncaughtException (stoi (value log_record));
  mret (u32 v).

(** Runs [f] on each element in turn. *)
Fixpoint for_each {A} (f : A -> D unit) (l : list A) : D unit :=
  match l with [] => mret tt | a :: l => f a;; for_each f l end.

(** The depth of the directory trees this program makes. *)
Definition dir_fuel : nat := 4.

Definition LoadMergenceFiles : D Status :=
  db ← get_db;
  let dir := dir_path (options_ db) in
  let merge_dir := GetMergenceDirectory dir in
  names ← io (list_dir merge_dir);
  match names with
  | None => mret (Ok2 (lit "DB::LoadMergenceFiles") (lit "have no mergence files"))
  | Some names =>
      defer (io (RemoveDir dir_fuel merge_dir))
        (if negb (bool_decide (K_MERGED_FILE_NAME ∈ names)) then
           mret (Ok2 (lit "DB::LoadMergenceFiles") (lit "mergence is not finished"))
         else
           non_merged_file_id ← GetNonMergedFileID merge_dir;
           for_each (fun file_id => io (RemoveFile (GetDataFileName dir file_id)))
             (seqZ 0 non_merged_file_id);;
           for_each (fun file_name =>
               ok ← io (rename (Format (lit "{}/{}") [merge_dir; file_name])
                          (Format (lit "{}/{}") [dir; file_name]));
               CHECK_TRUE_ ok) names;;
           mret Status_Ok)
  end.

(** How often a loop that reads a file record by record can go round. *)
Definition file_fuel (df : DataFile) (w : World) : nat :=
  S (match contents (io_handler df) w with Some c => length c | None => O end).

Fixpoint hint_loop (fuel : nat) (hint_file : DataFile) (off : Z) : D unit :=
  match fuel with
  | O => undef OutOfFuel
  | S fuel =>
      '(r, sz) ← io (ReadLogRecord hint_file off);
      if sz =? 0 then mret tt else
      p ← some_or OutOfBounds (DecodeLogRecordPosition (Bytes_of_string (value r)));
      ok ← index_Put (Bytes_of_string (key r)) p;
      CHECK_TRUE ok (lit "index_->Put(log_record.key, pst)")
        (Format (lit "fail to put index of key: {}") [key r]);;
      hint_loop fuel hint_file (u64 (off + sz))
  end.

Definition LoadIndexFromHintFile : D Status :=
  db ← get_db;
  let hint_file_name := GetHintFileName (dir_path (options_ db)) in
  ex ← io (IsFileExist hint_file_name);
  if negb ex then mret (Ok2 (lit "DB::LoadIndexFromHintFile") (lit "has no hint file")) else
  hint_file ← io (OpenHintFile (dir_path (options_ db)));
  s ← get;
  hint_loop (file_fuel hint_file s.2) hint_file 0;;
  mret Status_Ok.

(** *** Replaying the log *)

(** The lambda update_index. *)
Definition update_index (k : bytes) (t : LogRecordType) (p : LogRecordPst) : D unit :=
  if bool_decide (t = DeletedLogRecord) then
    '(ok, _) ← index_Delete (Bytes_of_string k); CHECK_TRUE_ ok
  else ok ← index_Put (Bytes_of_string k) p; CHECK_TRUE_ ok.

(** The unfinished transactions and the greatest id so far. *)
Record Replay := mkReplay { txn_records : gmap Z (list TxnRecord); current_txn_id : Z }.

Definition replay_record (fid off : Z) (r : LogRecord) (st : Replay) : D Replay :=
  '(real_key, txn_id) ← some_or OutOfBounds (DecodeLogRecordWithTxnID (Bytes_of_string (key r)));
  txns ←
    (if txn_id =? K_NON_TXN_ID then
       update_index real_key (type r) (mkPst fid off);; mret (txn_records st)
     else if bool_decide (type r = TxnFinishedLogRecord) then
       for_each (fun t => update_index (key (log_record t)) (type (log_record t)) (pst t))
         (default [] (txn_records st !! u32 txn_id));;
       mret (delete (u32 txn_id) (txn_records st))
     else
       let t := mkTxnRecord (mkRecord real_key (value r) (type r)) (mkPst fid off) in
       mret (<[u32 txn_id := default [] (txn_records st !! u32 txn_id) ++ [t]]> (txn_records st)));
  mret (mkReplay txns (if txn_id >? current_txn_id st then txn_id else current_txn_id st)).

(** The records of one file from [off] on; the offset of its end. *)
Fixpoint replay_loop (fuel : nat) (df : DataFile) (fid off : Z) (st : Replay) : D (Z * Replay) :=
  match fuel with
  | O => undef OutOfFuel
  | S fuel =>
      '(r, sz) ← io (ReadLogRecord df off);
      if sz =? 0 then mret (off, st) else
      st ← replay_record fid off r st;
      replay_loop fuel df fid (u64 (off + sz)) st
  end.

Fixpoint replay_files (merged : option Z) (ids : list Z) (st : Replay) : D Replay :=
  match ids with
  | [] => mret st
  | fid :: ids =>
      if match merged with Some non_merged => fid <? non_merged | None => false end
      then replay_files merged ids st
      else
        act ← active;
        df ← (if fid =? file_id act then mret act
              else
                db ← get_db;
                match older_files_ db !! fid with
                | Some (Some df) => mret df
                | _ => undef NullDeref
                end);
        s ← get;
        '(off, st) ← replay_loop (file_fuel df s.2) df fid 0 st;
        when (bool_decide (ids = []))
          (act ← active; modify_db (set_active (Some (set_write_off off act))));;
        replay_files merged ids st
  end.

Definition LoadIndexFromDataFiles : D unit :=
  db ← get_db;
  ids ← some_or NullDeref (file_ids_ db);
  match ids with
  | [] => mret tt
  | _ =>
      ex ← io (IsFileExist (Format (lit "{}/{}") [dir_path (options_ db); K_MERGED_FILE_NAME]));
      merged ← (if (ex : bool) then id ← GetNonMergedFileID (dir_path (options_ db)); mret (Some id)
                else mret None);
      st ← replay_files merged ids (mkReplay ∅ K_NON_TXN_ID);
      modify_db (fun db => set_file_ids (Some []) (set_txn_id (current_txn_id st) db))
  end.

(** ** Opening and merging *)

(** A new database object and the calls that set it up. *)
Definition start (db : DB) (m : D unit) : M World Status DB := fun w =>
  let '(r, (db', w')) := m (db, w) in
  (match r with Ret _ => Ret db' | Throw e => Throw e | Undef u => Undef u end, w').

(** Open, given the Merge it may end with. *)
Definition open_with (merge : D unit) (options : Options) (merge_after_open : bool)
    : M World Status DB :=
  CheckOptions options;;
  ok ← CheckOrCreateDirectory (dir_path options);
  CHECK_TRUE_ ok;;
  start (DB_new options)
    (LoadMergenceFiles;;
     LoadDataFiles;;
     LoadIndexFromHintFile;;
     LoadIndexFromDataFiles;;
     when merge_after_open merge).

(** Close, of a database that is there. *)
Definition Close (db : option DB) : M World Status Status :=
  match db with
  | None => throw (InvalidArgument (lit "DB::Close") (lit "db is null"))
  | Some _ => mret Status_Ok
  end.

(** Merge: the records of [df] from [off] on that the index still points to go
    to the other database and to the hint file. *)
Fixpoint merge_loop (fuel : nat) (df : DataFile) (off : Z) (temp_db : DB) (hint_file : DataFile)
    : D (DB * DataFile) :=
  match fuel with
  | O => undef OutOfFuel
  | S fuel =>
      '(r, sz) ← io (ReadLogRecord df off);
      if sz =? 0 then mret (temp_db, hint_file) else
      '(real_key, _) ← some_or OutOfBounds (DecodeLogRecordWithTxnID (Bytes_of_string (key r)));
      p ← index_Get (Bytes_of_string real_key);
      '(temp_db, hint_file) ←
        (if bool_decide (p = Some (mkPst (file_id df) off)) then
           ek ← some_or OutOfBounds (EncodeLogRecordWithTxnID (Bytes_of_string real_key) K_NON_TXN_ID);
           '(tmp_pst, temp_db) ← run_on temp_db (AppendLogRecord (mkRecord ek (value r) (type r)));
           hint_file ← io (WriteHintRecord hint_file (Bytes_of_string real_key) tmp_pst);
           mret (temp_db, hint_file)
         else mret (temp_db, hint_file));
      merge_loop fuel df (u64 (off + sz)) temp_db hint_file
  end.

Fixpoint merge_files (files : list DataFile) (temp_db : DB) (hint_file : DataFile)
    : D (DB * DataFile) :=
  match files with
  | [] => mret (temp_db, hint_file)
  | df :: files =>
      s ← get;
      '(temp_db, hint_file) ← merge_loop (file_fuel df s.2) df 0 temp_db hint_file;
      merge_files files temp_db hint_file
  end.

Definition file_le (a b : DataFile) : Prop := file_id a <= file_id b.
#[export] Instance file_le_dec : RelDecision file_le := fun a b => Z.le_dec (file_id a) (file_id b).

(** The files by id; a null entry of [older_files_] is dereferenced. *)
Definition files_to_be_merged (older : gmap Z (option DataFile)) : option (list DataFile) :=
  merge_sort file_le <$> mapM id (map_to_list older).*2.

(** Merge opens a database in the merge directory, which may merge in turn:
    [fuel] is the depth.  The directory is new, so the inner Merge has no active
    file and returns at once. *)
Fixpoint Merge (fuel : nat) : D unit :=
  match fuel with
  | O => undef OutOfFuel
  | S fuel =>
      db ← get_db;
      match active_file_ db with
      | None => mret tt
      | Some active_file =>
          if is_merging_ db then
            throw (CheckError (lit "DB::Merge")
              (lit "merging is in process, one time for one merging, try again later"))
          else
            modify_db (set_merging true);;
            defer (modify_db (set_merging false))
              (io (DataFile_Sync active_file);;
               let non_merged_file_id := file_id active_file in
               retire_active;;
               NewActiveDataFile;;
               db ← get_db;
               files ← some_or NullDeref (files_to_be_merged (older_files_ db));
               let merge_dir := GetMergenceDirectory (dir_path (options_ db)) in
               ex ← io (IsFileExist merge_dir);
               when ex (io (RemoveDir dir_fuel merge_dir));;
               ok ← io (CheckOrCreateDirectory merge_dir);
               CHECK_TRUE_ ok;;
               let mergence_options :=
                 mkOptions merge_dir (data_file_size (options_ db)) false (index_type (options_ db)) in
               temp_db ← io (open_with (Merge fuel) mergence_options true);
               hint_file ← io (OpenHintFile merge_dir);
               '(temp_db, hint_file) ← merge_files files temp_db hint_file;
               io (DataFile_Sync hint_file);;
               run_on temp_db Sync;;
               io (Close (Some temp_db));;
               merged_file ← io (OpenMergedFile merge_dir);
               io (DataFile_Write merged_file (EncodeLogRecord
                 (mkRecord K_MERGED_LOG_RECORD_KEY (to_string non_merged_file_id)
                    (UnnamedLogRecord NUL))));;
               io (DataFile_Sync merged_file))
      end
  end.

Definition merge_depth : nat := 3.
Definition Open (options : Options) (merge_after_open : bool) : M World Status DB :=
  open_with (Merge merge_depth) options merge_after_open.

(** ** Steps of the monad *)

Lemma io_Ret {A} (m : M World Status A) db w a w' :
  m w = (Ret a, w') -> io m (db, w) = (Ret a, (db, w')).
Proof. intros E. unfold io. by rewrite (zoom_Ret snd _ _ (db, w) _ _ E). Qed.

Lemma io_Throw {A} (m : M World Status A) db w e w' :
  m w = (Throw e, w') -> io m (db, w) = (Throw e, (db, w')).
Proof. intros E. unfold io, zoom. cbn [snd]. by rewrite E. Qed.

Lemma get_db_step {B} (k : DB -> D B) db w : (x ← get_db; k x) (db, w) = k db (db, w).
Proof. done. Qed.

Lemma modify_db_step {B} f (k : unit -> D B) db w : (x ← modify_db f; k x) (db, w) = k tt (f db, w).
Proof. done. Qed.

Lemma active_Ret db w df : active_file_ db = Some df -> active (db, w) = (Ret df, (db, w)).
Proof. intros E. unfold active. rewrite get_db_step, E. done. Qed.
End db.

#[export] Hint Rewrite @get_db_step @modify_db_step : monad.

Abbreviation D := (M DBW Status).
