(* ===== verification/DBFiles.v ===== *)
(** * The data files of a database

    The abstract view of the disk: a list of segments, one per data file in
    increasing order of file ids, each a list of records.  [disk_ok] says that
    the directory holds exactly the encodings of the segments, [files_inv] that
    the open files of a database are those of the disk, and appending a record
    extends the log by one entry. *)

From S2P Require Import Prelude Coding Strings Bytes Status LogRecord FileIO DataFile.
From S2P Require Import SkipList Index DB.
Local Open Scope Z_scope.

(** ** File names *)

Lemma Format2 a b : Format (lit "{}/{}") [a; b] = a ++ slash :: b.
Proof. unfold Format. simpl. rewrite app_nil_r. done. Qed.

Definition data_name (id : Z) : bytes := to_string id ++ K_DATA_FILE_SUFFIX.

Lemma GetDataFileName_eq dir id : GetDataFileName dir id = dir ++ slash :: data_name id.
Proof.
  unfold GetDataFileName, Format, data_name. simpl. by rewrite app_nil_r, <-!app_assoc.
Qed.

Definition id_ok (id : Z) : Prop := 0 <= id < 2 ^ 31.

Lemma digit_not_slash b : is_digit b = true -> b ≠ slash.
Proof. intros Hb ->. by vm_compute in Hb. Qed.

Lemma data_name_no_slash id : id_ok id -> slash ∉ data_name id.
Proof.
  intros Hid [Hs|Hs]%elem_of_app;
    [|by revert Hs; assert (slash ∉ K_DATA_FILE_SUFFIX) by vm_decide].
  destruct (to_string_spec id) as (Hd & _); [unfold id_ok in Hid; lia|].
  rewrite Forall_forall in Hd. by apply (digit_not_slash slash (Hd _ Hs)).
Qed.

Lemma data_name_inj m n : id_ok m -> id_ok n -> data_name m = data_name n -> m = n.
Proof.
  unfold id_ok, data_name. intros Hm Hn E. apply app_inj_2 in E as [E _]; [|done].
  apply to_string_inj in E; [done|lia..].
Qed.

Lemma data_file_parent dir id : id_ok id -> parent_dir (GetDataFileName dir id) = dir.
Proof. intros. rewrite GetDataFileName_eq. by apply parent_dir_app, data_name_no_slash. Qed.

Lemma data_file_entry dir id : id_ok id -> entry_of dir (GetDataFileName dir id) = Some (data_name id).
Proof. intros. rewrite GetDataFileName_eq. by apply entry_of_app, data_name_no_slash. Qed.

Lemma data_file_inj dir m n : id_ok m -> id_ok n ->
  GetDataFileName dir m = GetDataFileName dir n -> m = n.
Proof.
  intros Hm Hn. rewrite !GetDataFileName_eq. intros E. apply app_inv_head in E. injection E as E.
  by apply data_name_inj.
Qed.

(** ** Segments *)

Section files.
Context `{Crc32cLib} `{RandomEngine} `{DirOrder}.

Definition Segs : Type := list (Z * list LogRecord).

Definition encode_all (rs : list LogRecord) : bytes := concat (EncodeLogRecord <$> rs).

(** The entries of a segment with their positions, from an offset on. *)
Fixpoint file_entries (fid off : Z) (rs : list LogRecord) : list (LogRecordPst * LogRecord) :=
  match rs with
  | [] => []
  | r :: rs => (mkPst fid off, r)
      :: file_entries fid (off + Z.of_nat (length (EncodeLogRecord r))) rs
  end.

Definition log_entries (segs : Segs) : list (LogRecordPst * LogRecord) :=
  concat ((fun '(id, rs) => file_entries id 0 rs) <$> segs).

(** A record that replay understands: its key is a transaction id the encoder
    can write and a NUL-free key. *)
Definition record_ok (r : LogRecord) : Prop :=
  record_wf r /\ exists k txn, DecodeLogRecordWithTxnID (Bytes_of_string (key r)) = Some (k, txn)
    /\ (NUL ∉ k) /\ 0 <= txn < 2 ^ 28.

Record disk_ok (dir : bytes) (segs : Segs) (w : World) : Prop := {
  dk_faults : no_faults w;
  dk_dir : dir ∈ dirs w;
  dk_files : forall id rs, (id, rs) ∈ segs -> files w !! GetDataFileName dir id = Some (encode_all rs);
  dk_only : forall p n, is_Some (files w !! p) -> entry_of dir p = Some n ->
    exists id, id ∈ segs.*1 /\ n = data_name id;
  dk_nosub : forall p, p ∈ dirs w -> entry_of dir p = None;
  dk_sorted : StronglySorted Z.lt segs.*1;
  dk_ids : Forall id_ok segs.*1;
  dk_records : Forall (fun seg => Forall record_ok seg.2) segs
}.

(** The open file of a segment. *)
Definition open_seg (dir : bytes) (off : Z) (id : Z) : DataFile :=
  mkDataFile id off (mkFileIO (Some (GetDataFileName dir id))).

(** The open files of a database: the last segment is the active file, whose
    write offset is its end. *)
Record files_inv (db : DB) (segs : Segs) (w : World) : Prop := {
  fi_disk : disk_ok (dir_path (options_ db)) segs w;
  fi_active : match last segs with
    | None => active_file_ db = None
    | Some (id, rs) => active_file_ db
        = Some (open_seg (dir_path (options_ db)) (Z.of_nat (length (encode_all rs))) id)
    end;
  fi_older : forall id, id ∈ segs.*1 -> fst <$> last segs ≠ Some id ->
    exists off, older_files_ db !! id = Some (Some (open_seg (dir_path (options_ db)) off id));
  fi_next : next_file_id_ db = match last segs with None => 0 | Some (id, _) => id + 1 end
}.

(** ** Entries *)

Lemma encode_all_app a b : encode_all (a ++ b) = encode_all a ++ encode_all b.
Proof. unfold encode_all. by rewrite fmap_app, concat_app. Qed.

Lemma encode_all_snoc a r : encode_all (a ++ [r]) = encode_all a ++ EncodeLogRecord r.
Proof. rewrite encode_all_app. unfold encode_all at 2. simpl. by rewrite app_nil_r. Qed.

Lemma encode_all_cons r a : encode_all (r :: a) = EncodeLogRecord r ++ encode_all a.
Proof. done. Qed.

Lemma file_entries_app id a b : forall off,
  file_entries id off (a ++ b)
  = file_entries id off a ++ file_entries id (off + Z.of_nat (length (encode_all a))) b.
Proof.
  induction a as [|r a IH]; intros off; simpl; [by rewrite Z.add_0_r|].
  rewrite IH. unfold encode_all at 2. simpl. rewrite length_app, Nat2Z.inj_add, Z.add_assoc. done.
Qed.

Lemma log_entries_snoc segs id rs : log_entries (segs ++ [(id, rs)]) = log_entries segs ++ file_entries id 0 rs.
Proof. unfold log_entries. rewrite fmap_app, concat_app. simpl. by rewrite app_nil_r. Qed.

(** An entry of the log is found where its position says. *)
Lemma log_entry_at segs p r :
  (p, r) ∈ log_entries segs -> exists a b, (fid p, a ++ r :: b) ∈ segs
    /\ offset p = Z.of_nat (length (encode_all a)).
Proof.
  unfold log_entries. intros Hin. 
  apply list_elem_of_In, in_concat in Hin as (l & Hin & Hl). apply list_elem_of_In in Hl, Hin.
  apply list_elem_of_fmap in Hin as ([id rs] & -> & Hseg).
  assert (Hg : forall rs off, (p, r) ∈ file_entries id off rs -> exists a b, rs = a ++ r :: b
    /\ fid p = id /\ offset p = off + Z.of_nat (length (encode_all a))).
  { clear. induction rs as [|r' rs IH]; intros off; simpl; [by intros ?%not_elem_of_nil|].
    intros [[= -> ->]|Hin]%elem_of_cons.
    - exists [], rs. split_and!; [done..|]. simpl. lia.
    - destruct (IH _ Hin) as (a & b & -> & ? & E). exists (r' :: a), b. split_and!; [done..|].
      rewrite E, encode_all_cons, length_app. lia. }
  destruct (Hg rs 0 Hl) as (a & b & -> & -> & E). exists a, b. split; [done|]. lia.
Qed.

Lemma record_at_disk dir segs w df id a r b :
  disk_ok dir segs w -> (id, a ++ r :: b) ∈ segs -> df = open_seg dir (write_off df) id ->
  Z.of_nat (length (encode_all a)) + 15 < 2 ^ 64 ->
  ReadLogRecord df (Z.of_nat (length (encode_all a))) w
  = (Ret (r, Z.of_nat (length (EncodeLogRecord r))), w).
Proof.
  intros Hd Hin Edf Hlen. apply (ReadLogRecord_record w df r (encode_all a) (encode_all b)).
  - apply Hd.
  - pose proof (dk_records _ _ _ Hd) as Hr. rewrite Forall_forall in Hr.
    specialize (Hr _ Hin). simpl in Hr. apply Forall_app in Hr as [_ [Hr _]%Forall_cons]. apply Hr.
  - rewrite Edf. eexists. split; [done|]. rewrite (dk_files _ _ _ Hd _ _ Hin). f_equal.
    rewrite encode_all_app. done.
  - done.
Qed.

(** ** Operations on the disk *)

Lemma Sync_open dir off id w : no_faults w -> DataFile_Sync (open_seg dir off id) w = (Ret tt, w).
Proof. intros Hf. unfold DataFile_Sync, open_seg. cbn [io_handler]. by mstep (FSync_file w (GetDataFileName dir id) Hf). Qed.

Lemma Write_open dir off id w c buf :
  no_faults w -> files w !! GetDataFileName dir id = Some c -> Z.of_nat (length buf) <= K_MAX_TRANSFER ->
  DataFile_Write (open_seg dir off id) buf w
  = (Ret (open_seg dir (off + Z.of_nat (length buf)) id),
     set_files (<[GetDataFileName dir id := c ++ buf]> (files w)) w).
Proof.
  intros Hf Hc Hl. unfold DataFile_Write, open_seg. cbn [io_handler].
  by mstep (Write_file w _ c buf Hf Hc Hl).
Qed.

Lemma seg_id_in (segs : Segs) id rs : (id, rs) ∈ segs -> id ∈ segs.*1.
Proof. intros Hin. apply list_elem_of_fmap. by exists (id, rs). Qed.

Lemma disk_id dir segs w id : disk_ok dir segs w -> id ∈ segs.*1 -> id_ok id.
Proof. intros Hd Hin. pose proof (dk_ids _ _ _ Hd) as Hi. rewrite Forall_forall in Hi. by apply Hi. Qed.

(** A file of no segment does not exist. *)
Lemma disk_absent dir segs w id :
  disk_ok dir segs w -> id_ok id -> id ∉ segs.*1 -> files w !! GetDataFileName dir id = None.
Proof.
  intros Hd Hid Hn. destruct (files w !! GetDataFileName dir id) eqn:E; [|done]. exfalso.
  destruct (dk_only _ _ _ Hd (GetDataFileName dir id) (data_name id)) as (id' & Hin & En);
    [by eexists|by apply data_file_entry|].
  apply data_name_inj in En as ->; [done|done|by eapply disk_id].
Qed.

Lemma sorted_snoc (l : list Z) x :
  StronglySorted Z.lt l -> Forall (fun y => y < x) l -> StronglySorted Z.lt (l ++ [x]).
Proof.
  induction 1 as [|y l Hs IH Hy]; intros Hl; simpl; [by repeat constructor|].
  apply Forall_cons in Hl as [Hyx Hl]. constructor; [by apply IH|].
  apply Forall_app. split; [done|by repeat constructor].
Qed.

(** Creating the file of the next segment. *)
Lemma OpenDataFile_new dir segs w id :
  disk_ok dir segs w -> id_ok id -> Forall (fun j => j < id) segs.*1 ->
  exists w', OpenDataFile dir id w = (Ret (open_seg dir 0 id), w')
    /\ disk_ok dir (segs ++ [(id, [])]) w'.
Proof.
  intros Hd Hid Hlt. assert (Hn : id ∉ segs.*1).
  { intros Hin. rewrite Forall_forall in Hlt. specialize (Hlt _ Hin). lia. }
  pose proof (disk_absent _ _ _ _ Hd Hid Hn) as Habs.
  assert (Hnd : GetDataFileName dir id ∉ dirs w).
  { intros Hin. apply (dk_nosub _ _ _ Hd) in Hin. by rewrite data_file_entry in Hin. }
  eexists. split.
  { unfold OpenDataFile, NewDataFile. rewrite (bind_Ret _ _ _ _ _ (NewIOHandler_new w _ (dk_faults _ _ _ Hd) Habs
      Hnd ltac:(rewrite data_file_parent by done; apply Hd))). reflexivity. }
  constructor; cbn [set_files files dirs faults]; try apply Hd.
  - intros id' rs [Hin|[= -> ->]%list_elem_of_singleton]%elem_of_app.
    + rewrite lookup_insert_ne; [by apply Hd|]. intros E. apply data_file_inj in E as ->; [|done|].
      * by apply Hn, (seg_id_in _ _ rs).
      * eapply disk_id; [done|by eapply seg_id_in].
    + by rewrite lookup_insert_eq.
  - intros p n Hp He. rewrite fmap_app. destruct (decide (p = GetDataFileName dir id)) as [->|Hne].
    + rewrite data_file_entry in He by done. injection He as <-. exists id. split; [|done].
      apply elem_of_app. right. by left.
    + rewrite lookup_insert_ne in Hp by done. destruct (dk_only _ _ _ Hd p n Hp He) as (id' & ? & ?).
      exists id'. split; [|done]. apply elem_of_app. by left.
  - rewrite fmap_app. apply sorted_snoc; [apply Hd|done].
  - rewrite fmap_app. apply Forall_app. split; [apply Hd|by apply Forall_singleton].
  - apply Forall_app. split; [apply Hd|by apply Forall_singleton].
Qed.

Lemma OpenDataFile_seg dir segs w id rs :
  disk_ok dir segs w -> (id, rs) ∈ segs -> OpenDataFile dir id w = (Ret (open_seg dir 0 id), w).
Proof.
  intros Hd Hin. unfold OpenDataFile, NewDataFile.
  by rewrite (bind_Ret _ _ _ _ _ (NewIOHandler_existing w _ _ (dk_faults _ _ _ Hd) (dk_files _ _ _ Hd _ _ Hin))).
Qed.

Lemma snoc_ids (segs : Segs) id rs rs' : (segs ++ [(id, rs)]).*1 = (segs ++ [(id, rs')]).*1.
Proof. by rewrite !fmap_app. Qed.

(** Appending to the last segment. *)
Lemma Write_last dir segs w id rs r off :
  disk_ok dir (segs ++ [(id, rs)]) w -> record_ok r ->
  exists w', DataFile_Write (open_seg dir off id) (EncodeLogRecord r) w
      = (Ret (open_seg dir (off + Z.of_nat (length (EncodeLogRecord r))) id), w')
    /\ disk_ok dir (segs ++ [(id, rs ++ [r])]) w'.
Proof.
  intros Hd Hr. assert (Hin : (id, rs) ∈ segs ++ [(id, rs)]) by (apply elem_of_app; right; by left).
  pose proof (dk_sorted _ _ _ Hd) as Hs. pose proof (dk_ids _ _ _ Hd) as Hids.
  assert (Hid : id_ok id) by (eapply disk_id; [done|by eapply seg_id_in]).
  eexists. split.
  { apply Write_open; [apply Hd|by apply (dk_files _ _ _ Hd)|].
    destruct Hr as [[Hk _ Hsz] _]. rewrite EncodeLogRecord_length by done.
    pose proof (header_bytes_length r). pose proof (header_tail_length r). unfold K_MAX_TRANSFER. lia. }
  constructor; cbn [set_files files dirs faults]; try apply Hd; rewrite 1?(snoc_ids segs id _ rs); try done.
  - intros id' rs' [Hin'|[= -> ->]%list_elem_of_singleton]%elem_of_app.
    + rewrite lookup_insert_ne; [apply Hd; apply elem_of_app; by left|].
      intros E. apply data_file_inj in E as <-; [|done|].
      * rewrite fmap_app in Hs. apply seg_id_in in Hin'. clear -Hs Hin'.
        induction segs as [|[j l] segs IH]; [by apply not_elem_of_nil in Hin'|].
        simpl in *. apply StronglySorted_inv in Hs as [Hs Hj].
        apply elem_of_cons in Hin' as [->|Hin']; [|by apply IH].
        apply Forall_app in Hj as [_ [Hj _]%Forall_cons]. lia.
      * eapply disk_id; [done|]. rewrite fmap_app. apply elem_of_app. left. by eapply seg_id_in.
    + rewrite lookup_insert_eq, encode_all_snoc. done.
  - intros p n Hp He. destruct (decide (p = GetDataFileName dir id)) as [->|Hne].
    + rewrite data_file_entry in He by done. injection He as <-. exists id. split; [|done].
      rewrite fmap_app. apply elem_of_app. right. by left.
    + rewrite lookup_insert_ne in Hp by done. by apply (dk_only _ _ _ Hd p n Hp He).
  - pose proof (dk_records _ _ _ Hd) as Hrs. apply Forall_app in Hrs as [Hrs1 [Hrs2 _]%Forall_cons].
    apply Forall_app. split; [done|]. constructor; [|done]. simpl in *. apply Forall_app.
    split; [done|by apply Forall_singleton].
Qed.

(** ** AppendLogRecord *)

(** What an append leaves alone. *)
Record same_rest (db db' : DB) : Prop := {
  sr_options : options_ db' = options_ db;
  sr_index : index_ db' = index_ db;
  sr_file_ids : file_ids_ db' = file_ids_ db;
  sr_txn : txn_id_ db' = txn_id_ db;
  sr_merging : is_merging_ db' = is_merging_ db
}.

#[export] Instance same_rest_preorder : PreOrder same_rest.
Proof.
  split; [by constructor|]. intros a b c [E1 E2 E3 E4 E5] [F1 F2 F3 F4 F5].
  constructor; etrans; eassumption.
Qed.

Lemma last_app_snoc {A} (l : list A) x : last (l ++ [x]) = Some x.
Proof. apply last_snoc. Qed.

Lemma files_inv_fresh db segs w : files_inv db segs w -> Forall (fun j => j < next_file_id_ db) segs.*1.
Proof.
  intros HI. rewrite (fi_next _ _ _ HI). pose proof (dk_sorted _ _ _ (fi_disk _ _ _ HI)) as Hs.
  destruct segs as [|[id rs] segs _] using rev_ind; [done|]. rewrite last_app_snoc.
  rewrite fmap_app in *. apply Forall_app. split; [|apply Forall_singleton; simpl; lia].
  clear HI. induction segs as [|[j l] segs IH]; [done|]. simpl in *.
  apply StronglySorted_inv in Hs as [Hs Hj]. constructor; [|by apply IH].
  apply Forall_app in Hj as [_ [Hj _]%Forall_cons]. lia.
Qed.

(** NewActiveDataFile after [retire_active], or at the start. *)
Lemma NewActive_inv db segs w :
  disk_ok (dir_path (options_ db)) segs w -> Forall (fun j => j < next_file_id_ db) segs.*1 ->
  id_ok (next_file_id_ db) -> next_file_id_ db + 1 < 2 ^ 31 ->
  (forall id, id ∈ segs.*1 -> exists off,
     older_files_ db !! id = Some (Some (open_seg (dir_path (options_ db)) off id))) ->
  exists db' w', NewActiveDataFile (db, w) = (Ret tt, (db', w'))
    /\ files_inv db' (segs ++ [(next_file_id_ db, [])]) w' /\ same_rest db db'
    /\ next_file_id_ db' = next_file_id_ db + 1.
Proof.
  intros Hd Hlt Hid Hn Hold.
  destruct (OpenDataFile_new _ _ _ _ Hd Hid Hlt) as (w' & E & Hd').
  assert (Eu : u32 (next_file_id_ db + 1) = next_file_id_ db + 1)
    by (apply Z.mod_small; unfold id_ok in Hid; lia).
  eexists _, w'. split.
  { unfold NewActiveDataFile. autorewrite with monad. mstep (io_Ret _ db w _ _ E). reflexivity. }
  cbn [fst]. rewrite Eu. split; [|split; [by constructor|done]].
  constructor; cbn [options_ set_active set_next active_file_ older_files_ next_file_id_];
    rewrite ?last_app_snoc; try done.
  intros id. rewrite fmap_app. intros [Hin|Heq%list_elem_of_singleton]%elem_of_app Hne; [by apply Hold|].
  by subst.
Qed.

Lemma files_inv_older db segs w : files_inv db segs w -> forall df, active_file_ db = Some df ->
  forall id, id ∈ segs.*1 -> exists off,
    <[file_id df := Some df]> (older_files_ db) !! id
    = Some (Some (open_seg (dir_path (options_ db)) off id)).
Proof.
  intros HI df Ha id Hin. pose proof (fi_active _ _ _ HI) as Hact.
  destruct (last segs) as [[j rs]|] eqn:El; [|congruence].
  rewrite Hact in Ha. injection Ha as <-. cbn [file_id open_seg].
  destruct (decide (id = j)) as [->|Hne]; [rewrite lookup_insert_eq; eauto|].
  rewrite lookup_insert_ne by done. apply (fi_older _ _ _ HI); [done|]. rewrite El. simpl. congruence.
Qed.

(** Rotation: the active file is retired and a new one opened. *)
Lemma rotate_inv db segs w df :
  files_inv db segs w -> active_file_ db = Some df -> 0 <= next_file_id_ db -> next_file_id_ db + 1 < 2 ^ 31 ->
  exists db' w', (retire_active;; NewActiveDataFile) (db, w) = (Ret tt, (db', w'))
    /\ files_inv db' (segs ++ [(next_file_id_ db, [])]) w' /\ same_rest db db'
    /\ next_file_id_ db' = next_file_id_ db + 1.
Proof.
  intros HI Ha H0' Hn.
  set (db1 := set_active None (set_older (<[file_id df := Some df]> (older_files_ db)) db)).
  assert (Er : retire_active (db, w) = (Ret tt, (db1, w))).
  { unfold retire_active. mstep (active_Ret db w df Ha). reflexivity. }
  rewrite (bind_Ret _ _ _ _ _ Er).
  destruct (NewActive_inv db1 segs w) as (db' & w' & E & HI' & Hs & Hn').
  - apply HI.
  - by apply (files_inv_fresh db segs w).
  - cbn. unfold id_ok. lia.
  - done.
  - exact (files_inv_older db segs w HI df Ha).
  - exists db', w'. split_and!; [done..| |done]. etrans; [|exact Hs]. by constructor.
Qed.

Definition nonempty_segs (segs : Segs) : Prop := Forall (fun seg => seg.2 ≠ []) segs.

Definition ret_tt {S E} : M S E unit := mret tt.

(** The first statement of AppendLogRecord. *)
Lemma ensure_active db segs w :
  files_inv db segs w -> 0 <= next_file_id_ db -> next_file_id_ db + 2 < 2 ^ 31 ->
  exists db' w' init id rs,
    when (bool_decide (active_file_ db = None)) NewActiveDataFile (db, w) = (Ret tt, (db', w'))
    /\ files_inv db' (init ++ [(id, rs)]) w' /\ same_rest db db'
    /\ log_entries (init ++ [(id, rs)]) = log_entries segs
    /\ (segs = init ++ [(id, rs)] /\ next_file_id_ db' = next_file_id_ db
        \/ segs = [] /\ init = [] /\ rs = [] /\ next_file_id_ db' = next_file_id_ db + 1).
Proof.
  intros HI Hn0 Hn. pose proof (fi_active _ _ _ HI) as Ha. pose proof (fi_next _ _ _ HI) as Hx.
  destruct segs as [|[id rs] init _] using rev_ind.
  - simpl in Ha. rewrite Ha. cbn [when bool_decide decide_rel].
    destruct (NewActive_inv db [] w) as (db' & w' & E & HI' & Hs & Hn'); try done.
    + apply HI.
    + unfold id_ok. lia.
    + lia.
    + intros id. by intros ?%not_elem_of_nil.
    + exists db', w', [], (next_file_id_ db), []. split_and!; [exact E|done..|by right].
  - rewrite last_app_snoc in Ha. rewrite Ha. exists db, w, init, id, rs.
    split_and!; [done..| |done|by left]. reflexivity.
Qed.

(** The write itself, on a database whose active file is the last segment. *)
Definition append_active (r : LogRecord) (sync : bool) : D LogRecordPst :=
  df ← active;
  df' ← io (DataFile_Write df (EncodeLogRecord r));
  modify_db (set_active (Some df'));;
  when sync (io (DataFile_Sync df'));;
  mret (mkPst (file_id df) (write_off df)).

Lemma append_active_inv db init id rs w r sync :
  files_inv db (init ++ [(id, rs)]) w -> record_ok r ->
  exists db' w' p, append_active r sync (db, w) = (Ret p, (db', w'))
    /\ files_inv db' (init ++ [(id, rs ++ [r])]) w' /\ same_rest db db'
    /\ log_entries (init ++ [(id, rs ++ [r])]) = log_entries (init ++ [(id, rs)]) ++ [(p, r)]
    /\ next_file_id_ db' = next_file_id_ db.
Proof.
  intros HI Hr. pose proof (fi_active _ _ _ HI) as Ha. rewrite last_app_snoc in Ha.
  set (dir := dir_path (options_ db)) in *. set (off := Z.of_nat (length (encode_all rs))) in *.
  destruct (Write_last dir init w id rs r off (fi_disk _ _ _ HI) Hr) as (w' & Ew & Hd').
  set (df' := open_seg dir (off + Z.of_nat (length (EncodeLogRecord r))) id) in *.
  set (db' := set_active (Some df') db).
  exists db', w', (mkPst id off). split_and!.
  - unfold append_active. mstep (active_Ret db w _ Ha). mstep (io_Ret _ db w _ _ Ew). fold db'.
    destruct sync; cbn [when]; [|reflexivity].
    mstep (io_Ret _ db' w' _ _ (Sync_open dir (off + Z.of_nat (length (EncodeLogRecord r))) id
      w' (dk_faults _ _ _ Hd'))). reflexivity.
  - pose proof (fi_next _ _ _ HI) as Hx. rewrite last_app_snoc in Hx.
    constructor; cbn [options_ set_active db' active_file_ older_files_ next_file_id_];
      rewrite ?last_app_snoc; [exact Hd'| | |exact Hx].
    + unfold df', off. do 3 f_equal. rewrite encode_all_snoc, length_app. lia.
    + intros j Hj Hne. apply (fi_older _ _ _ HI).
      * by rewrite (snoc_ids init id rs (rs ++ [r])).
      * rewrite last_app_snoc. exact Hne.
  - by constructor.
  - rewrite !log_entries_snoc, file_entries_app, app_assoc. done.
  - done.
Qed.

Lemma record_ok_length r : record_ok r ->
  u64 (0 + Z.of_nat (length (EncodeLogRecord r))) = Z.of_nat (length (EncodeLogRecord r)).
Proof.
  intros [[Hk _ Hsz] _]. rewrite EncodeLogRecord_length by done.
  pose proof (header_bytes_length r). pose proof (header_tail_length r). apply Z.mod_small. lia.
Qed.

Lemma AppendLogRecord_inv db segs w r :
  files_inv db segs w -> record_ok r -> 0 <= next_file_id_ db -> next_file_id_ db + 2 < 2 ^ 31 ->
  exists db' w' segs' p, AppendLogRecord r (db, w) = (Ret p, (db', w'))
    /\ files_inv db' segs' w' /\ same_rest db db'
    /\ log_entries segs' = log_entries segs ++ [(p, r)]
    /\ next_file_id_ db <= next_file_id_ db'
    /\ next_file_id_ db' <= next_file_id_ db + (if decide (segs = []) then 2 else 1)
    /\ (nonempty_segs segs -> Z.of_nat (length (EncodeLogRecord r)) <= data_file_size (options_ db)
         -> nonempty_segs segs').
Proof.
  intros HI Hr Hn0 Hn.
  destruct (ensure_active db segs w HI Hn0 Hn) as (db1 & w1 & init & id & rs & E1 & HI1 & Hs1 & Hl1 & Hc).
  assert (Hn1 : next_file_id_ db <= next_file_id_ db1 <= next_file_id_ db + 1)
    by (destruct Hc as [[_ ?]|(_ & _ & _ & ?)]; lia).
  pose proof (fi_active _ _ _ HI1) as Ha1. rewrite last_app_snoc in Ha1.
  set (df := open_seg _ _ id) in Ha1.
  set (full := u64 (write_off df + Z.of_nat (length (EncodeLogRecord r))) >? data_file_size (options_ db)).
  assert (Hstart : AppendLogRecord r (db, w) =
    (when full (io (DataFile_Sync df);; retire_active;; NewActiveDataFile);;
     append_active r (is_sync_write (options_ db))) (db1, w1)).
  { unfold AppendLogRecord. rewrite get_db_step. mstep E1. cbv zeta.
    mstep (active_Ret db1 w1 _ Ha1). reflexivity. }
  rewrite Hstart. clear Hstart. destruct full eqn:Ef; cbn [when].
  - (* the record does not fit *)
    assert (Hsync : (io (DataFile_Sync df);; retire_active;; NewActiveDataFile) (db1, w1)
      = (retire_active;; NewActiveDataFile) (db1, w1)).
    { mstep (io_Ret _ db1 w1 _ _ (Sync_open (dir_path (options_ db1)) (Z.of_nat (length (encode_all rs)))
        id w1 (dk_faults _ _ _ (fi_disk _ _ _ HI1)))). reflexivity. }
    destruct (rotate_inv db1 _ w1 df HI1 Ha1) as (db2 & w2 & E2 & HI2 & Hs2 & Hn2); [lia|lia|].
    rewrite <-Hsync in E2. rewrite (bind_Ret _ _ _ _ _ E2).
    destruct (append_active_inv db2 _ _ _ w2 r (is_sync_write (options_ db)) HI2 Hr)
      as (db3 & w3 & p & E3 & HI3 & Hs3 & Hl3 & Hn3).
    exists db3, w3. eexists _, p. split_and!; [exact E3|exact HI3|by etrans; [|etrans]| | | |].
    + rewrite Hl3, log_entries_snoc, Hl1. simpl. by rewrite app_nil_r.
    + lia.
    + case_decide; [lia|]. destruct Hc as [[_ ?]|(? & _)]; [lia|done].
    + intros Hne Hfit. apply Forall_app. split; [|apply Forall_singleton; by destruct rs].
      destruct Hc as [[-> _]|(-> & -> & -> & _)]; [done|]. exfalso.
      unfold full, df in Ef. cbn [write_off open_seg] in Ef. apply Z.gtb_lt in Ef.
      revert Ef. change (Z.of_nat (length (encode_all []))) with 0. rewrite (record_ok_length r Hr). lia.
  - destruct (append_active_inv db1 _ _ _ w1 r (is_sync_write (options_ db)) HI1 Hr)
      as (db3 & w3 & p & E3 & HI3 & Hs3 & Hl3 & Hn3).
    exists db3, w3. eexists _, p. split_and!; [exact E3|exact HI3|by etrans| |lia| |].
    + by rewrite Hl3, Hl1.
    + case_decide; lia.
    + intros Hne _. apply Forall_app. split; [|apply Forall_singleton; by destruct rs].
      destruct Hc as [[-> _]|(-> & -> & -> & _)]; [by apply Forall_app in Hne as [? _]|done].
Qed.
End files.
