(* ===== verification/DBReplay.v ===== *)
(** * Loading a database

    What a log means: [abs_run] folds its entries into a map from keys to
    positions and values, with the unfinished transactions beside it.  Opening a
    directory of data files gives an index that is exactly the meaning of the
    log on disk. *)

From S2P Require Import Prelude Coding Strings Bytes Status LogRecord FileIO DataFile.
From S2P Require Import SkipList Index DB DBFiles.
Local Open Scope Z_scope.

(** ** The meaning of a log *)

Record Abs := mkAbs {
  vals : gmap bytes (LogRecordPst * bytes);
  pend : gmap Z (list TxnRecord);
  maxt : Z
}.

Definition abs_init : Abs := mkAbs ∅ ∅ 0.

(** An update of the map; deleting an absent key has no meaning. *)
Definition apply_update (k : bytes) (t : LogRecordType) (p : LogRecordPst) (v : bytes)
    (m : gmap bytes (LogRecordPst * bytes)) : option (gmap bytes (LogRecordPst * bytes)) :=
  if bool_decide (t = DeletedLogRecord)
  then if decide (is_Some (m !! k)) then Some (delete k m) else None
  else Some (<[k := (p, v)]> m).

Fixpoint apply_txn (l : list TxnRecord) (m : gmap bytes (LogRecordPst * bytes))
    : option (gmap bytes (LogRecordPst * bytes)) :=
  match l with
  | [] => Some m
  | t :: l =>
      m ← apply_update (key (log_record t)) (type (log_record t)) (pst t) (value (log_record t)) m;
      apply_txn l m
  end.

Definition abs_step (e : LogRecordPst * LogRecord) (a : Abs) : option Abs :=
  let '(p, r) := e in
  '(k, txn) ← DecodeLogRecordWithTxnID (Bytes_of_string (key r));
  let open := default [] (pend a !! u32 txn) in
  '(m, q) ←
    (if txn =? K_NON_TXN_ID then m ← apply_update k (type r) p (value r) (vals a); Some (m, pend a)
     else if bool_decide (type r = TxnFinishedLogRecord) then
       m ← apply_txn open (vals a); Some (m, delete (u32 txn) (pend a))
     else Some (vals a, <[u32 txn := open ++ [mkTxnRecord (mkRecord k (value r) (type r)) p]]> (pend a)));
  Some (mkAbs m q (if txn >? maxt a then txn else maxt a)).

Fixpoint abs_run (es : list (LogRecordPst * LogRecord)) (a : Abs) : option Abs :=
  match es with
  | [] => Some a
  | e :: es => a ← abs_step e a; abs_run es a
  end.

Lemma abs_run_app es1 es2 a : abs_run (es1 ++ es2) a = (b ← abs_run es1 a; abs_run es2 b).
Proof.
  revert a. induction es1 as [|e es IH]; intros a; simpl; [done|].
  destruct (abs_step e a); simpl; [apply IH|done].
Qed.

Definition txn_ok (t : TxnRecord) : Prop := NUL ∉ key (log_record t).

(** The unfinished transactions have NUL-free keys, and ids up to the greatest
    one seen. *)
Definition pend_ok (a : Abs) : Prop :=
  0 <= maxt a < 2 ^ 28 /\ map_Forall (fun t l => Forall txn_ok l /\ t <= maxt a) (pend a).

Section replay.
Context `{Crc32cLib} `{RandomEngine} `{DirOrder}.

Lemma pend_open a txn : pend_ok a -> Forall txn_ok (default [] (pend a !! txn)).
Proof. intros [_ Hp]. destruct (pend a !! txn) eqn:E; [exact (proj1 (Hp _ _ E))|done]. Qed.

Lemma abs_step_pend p r a a' :
  record_ok r -> pend_ok a -> abs_step (p, r) a = Some a' -> pend_ok a'.
Proof.
  intros (_ & k & txn & Ek & Hk & Ht) Hp. unfold abs_step. rewrite Ek. cbn [mbind option_bind].
  set (mt := if txn >? maxt a then txn else maxt a).
  assert (Hmt : maxt a <= mt /\ txn <= mt /\ 0 <= mt < 2 ^ 28)
    by (destruct Hp; unfold mt; destruct (Z.gtb_spec txn (maxt a)); lia).
  assert (Hp' : map_Forall (fun t l => Forall txn_ok l /\ t <= mt) (pend a)).
  { eapply map_Forall_impl; [exact (proj2 Hp)|]. intros t l [? ?]. split; [done|lia]. }
  destruct (txn =? K_NON_TXN_ID); [|case_bool_decide].
  - destruct (apply_update _ _ _ _ _); [|done]. intros [= <-]. split; [apply Hmt|done].
  - destruct (apply_txn _ _); [|done]. intros [= <-]. split; [apply Hmt|by apply map_Forall_delete].
  - intros [= <-]. split; [apply Hmt|]. apply map_Forall_insert_2; [|done]. split.
    + apply Forall_app. split; [by apply pend_open|by apply Forall_singleton].
    + unfold u32. cbn. rewrite Z.mod_small; lia.
Qed.

Lemma abs_run_pend es : forall a a',
  Forall (fun e => record_ok e.2) es -> pend_ok a -> abs_run es a = Some a' -> pend_ok a'.
Proof.
  induction es as [|[p r] es IH]; intros a a' Hes Hp; cbn [abs_run]; [by intros [= <-]|].
  apply Forall_cons in Hes as [Hr Hes]. destruct (abs_step (p, r) a) as [a1|] eqn:E; [|done].
  cbn [mbind option_bind]. apply IH; [done|]. by eapply abs_step_pend.
Qed.

Lemma abs_init_pend : pend_ok abs_init.
Proof. split; [simpl; lia|apply map_Forall_empty]. Qed.

Lemma log_records dir segs w : disk_ok dir segs w -> Forall (fun e => record_ok e.2) (log_entries segs).
Proof.
  intros Hd. apply Forall_forall. intros [p r] Hin.
  destruct (log_entry_at _ _ _ Hin) as (x & y & Hseg & _). pose proof (dk_records _ _ _ Hd) as Hr.
  rewrite Forall_forall in Hr. specialize (Hr _ Hseg). apply Forall_app in Hr as [_ [Hr _]%Forall_cons].
  exact Hr.
Qed.

(** [i] holds the positions of the map [m]. *)
Definition holds (db : DB) (m : gmap bytes (LogRecordPst * bytes)) : Prop :=
  idx_rep (index_ db) (fst <$> m).

Lemma index_Get_step k m db w : holds db m -> NUL ∉ k ->
  index_Get (Bytes_of_string k) (db, w) = (Ret (fst <$> m !! k), (db, w)).
Proof.
  intros Hh Hk. unfold index_Get. rewrite get_db_step.
  rewrite (idx_Get_spec _ _ _ k Hh (c_str_of_string k Hk)), lookup_fmap. done.
Qed.

Lemma index_Put_step k p v m db w : holds db m -> NUL ∉ k ->
  exists i, index_Put (Bytes_of_string k) p (db, w) = (Ret true, (set_index i db, w))
    /\ holds (set_index i db) (<[k := (p, v)]> m).
Proof.
  intros Hh Hk. destruct (idx_Put_spec _ _ _ k p Hh (c_str_of_string k Hk)) as (i & E & Hr).
  exists i. unfold index_Put. rewrite get_db_step, E. split; [done|].
  unfold holds. cbn. by rewrite fmap_insert.
Qed.

Lemma index_Delete_step k m db w : holds db m -> NUL ∉ k ->
  exists i, index_Delete (Bytes_of_string k) (db, w)
      = (Ret (bool_decide (is_Some (m !! k)), fst <$> m !! k), (set_index i db, w))
    /\ holds (set_index i db) (delete k m).
Proof.
  intros Hh Hk. destruct (idx_Delete_spec _ _ _ k Hh (c_str_of_string k Hk)) as (i & E & Hr).
  exists i. unfold index_Delete. rewrite get_db_step, E. split.
  - rewrite lookup_fmap, (bool_decide_ext (is_Some (fst <$> m !! k)) (is_Some (m !! k))) by apply fmap_is_Some.
    done.
  - unfold holds. cbn. by rewrite fmap_delete.
Qed.

Lemma update_index_step k t p v m m' db w :
  holds db m -> NUL ∉ k -> apply_update k t p v m = Some m' ->
  exists i, update_index k t p (db, w) = (Ret tt, (set_index i db, w)) /\ holds (set_index i db) m'.
Proof.
  intros Hh Hk. unfold apply_update, update_index. case_bool_decide.
  - case_decide as Hin; [|done]. intros [= <-].
    destruct (index_Delete_step k m db w Hh Hk) as (i & E & Hh'). exists i. mstep E.
    by rewrite bool_decide_eq_true_2.
  - intros [= <-]. destruct (index_Put_step k p v m db w Hh Hk) as (i & E & Hh'). exists i. by mstep E.
Qed.

Lemma set_index_twice i j db : set_index i (set_index j db) = set_index i db.
Proof. done. Qed.

Lemma set_index_same db : set_index (index_ db) db = db.
Proof. by destruct db. Qed.

Lemma apply_txn_step l : forall m m' db w,
  holds db m -> Forall txn_ok l -> apply_txn l m = Some m' ->
  exists i, for_each (fun t => update_index (key (log_record t)) (type (log_record t)) (pst t)) l (db, w)
      = (Ret tt, (set_index i db, w)) /\ holds (set_index i db) m'.
Proof.
  induction l as [|t l IH]; intros m m' db w Hh Hok; cbn [apply_txn for_each].
  { intros [= <-]. exists (index_ db). by rewrite set_index_same. }
  apply Forall_cons in Hok as [Ht Hok]. destruct (apply_update _ _ _ _ m) as [m1|] eqn:E1; [|done].
  cbn [mbind option_bind]. intros E2.
  destruct (update_index_step _ _ _ _ _ _ db w Hh Ht E1) as (i1 & S1 & Hh1). mstep S1.
  destruct (IH m1 m' _ w Hh1 Hok E2) as (i2 & S2 & Hh2). exists i2. by rewrite S2, set_index_twice.
Qed.

Lemma replay_record_step id off r a a' db w :
  record_ok r -> pend_ok a -> holds db (vals a) -> abs_step (mkPst id off, r) a = Some a' ->
  exists i, replay_record id off r (mkReplay (pend a) (maxt a)) (db, w)
      = (Ret (mkReplay (pend a') (maxt a')), (set_index i db, w)) /\ holds (set_index i db) (vals a').
Proof.
  intros (_ & k & txn & Ek & Hk & _) Hp Hh. unfold abs_step, replay_record. rewrite Ek.
  cbn [mbind option_bind]. rewrite bind_some. cbn [txn_records current_txn_id].
  destruct (txn =? K_NON_TXN_ID); [|case_bool_decide].
  - destruct (apply_update _ _ _ _ _) as [m|] eqn:E; [|done]. intros [= <-].
    destruct (update_index_step _ _ _ _ _ _ db w Hh Hk E) as (i & S & Hh'). exists i.
    rewrite bind_assoc. mstep S. done.
  - destruct (apply_txn _ _) as [m|] eqn:E; [|done]. intros [= <-].
    destruct (apply_txn_step _ _ _ db w Hh (pend_open _ _ Hp) E) as (i & S & Hh').
    exists i. rewrite bind_assoc. mstep S. done.
  - intros [= <-]. exists (index_ db). rewrite set_index_same. done.
Qed.

(** ** Reading one file *)

Lemma record_pos r : record_ok r -> 0 < Z.of_nat (length (EncodeLogRecord r)) <= K_MAX_TRANSFER.
Proof.
  intros [[Hk _ Hsz] _]. rewrite EncodeLogRecord_length by done.
  pose proof (header_bytes_length r). pose proof (header_tail_length r). unfold K_MAX_TRANSFER. lia.
Qed.

(** Sizes that keep the 64-bit offsets exact. *)
Definition small_segs (segs : Segs) : Prop :=
  Forall (fun seg => Z.of_nat (length (encode_all seg.2)) + 15 < 2 ^ 64) segs.

Lemma record_ok_in dir segs w id rs r : disk_ok dir segs w -> (id, rs) ∈ segs -> r ∈ rs -> record_ok r.
Proof.
  intros Hd Hin Hr. pose proof (dk_records _ _ _ Hd) as Hrs. rewrite Forall_forall in Hrs.
  specialize (Hrs _ Hin). simpl in Hrs. rewrite Forall_forall in Hrs. by apply Hrs.
Qed.

Lemma replay_loop_step dir segs w df id rs : forall pre fuel a a' db,
  disk_ok dir segs w -> small_segs segs -> (id, pre ++ rs) ∈ segs -> pre ++ rs ≠ [] ->
  df = open_seg dir (write_off df) id -> (length rs < fuel)%nat ->
  pend_ok a -> holds db (vals a) ->
  abs_run (file_entries id (Z.of_nat (length (encode_all pre))) rs) a = Some a' ->
  exists i, replay_loop fuel df id (Z.of_nat (length (encode_all pre))) (mkReplay (pend a) (maxt a)) (db, w)
      = (Ret (Z.of_nat (length (encode_all (pre ++ rs))), mkReplay (pend a') (maxt a')), (set_index i db, w))
    /\ holds (set_index i db) (vals a') /\ pend_ok a'.
Proof.
  induction rs as [|r rs IH]; intros pre fuel a a' db Hd Hsm Hin Hne Edf Hf Hp Hh;
    destruct fuel as [|fuel]; [simpl in Hf; lia| |simpl in Hf; lia|];
    cbn [file_entries abs_run replay_loop].
  - rewrite app_nil_r in *. intros [= <-].
    assert (Hc : encode_all pre ≠ []).
    { destruct pre as [|r0 pre]; [done|]. rewrite encode_all_cons. intros E%(f_equal length).
      pose proof (record_pos r0 (record_ok_in _ _ _ _ _ r0 Hd Hin ltac:(by left))).
      rewrite length_app in E. simpl in E. lia. }
    assert (Hat : file_at w df (encode_all pre)).
    { rewrite Edf. eexists. split; [done|]. by apply Hd. }
    mstep (io_Ret _ db w _ _ (ReadLogRecord_eof w df _ Hat Hc)). exists (index_ db).
    by rewrite set_index_same.
  - assert (Hr : record_ok r)
      by (apply (record_ok_in _ _ _ _ _ r Hd Hin); apply elem_of_app; right; by left).
    destruct (abs_step _ a) as [a1|] eqn:E1; [|done]. cbn [mbind option_bind]. intros E2.
    pose proof (record_pos r Hr) as Hpos.
    assert (Hoff : Z.of_nat (length (encode_all (pre ++ r :: rs))) + 15 < 2 ^ 64).
    { unfold small_segs in Hsm. rewrite Forall_forall in Hsm. exact (Hsm _ Hin). }
    rewrite encode_all_app, encode_all_cons, !length_app in Hoff.
    mstep (io_Ret _ db w _ _ (record_at_disk dir segs w df id pre r rs Hd Hin Edf ltac:(lia))).
    rewrite (proj2 (Z.eqb_neq _ 0)) by lia.
    destruct (replay_record_step _ _ _ _ _ db w Hr Hp Hh E1) as (i1 & S1 & Hh1). mstep S1.
    unfold u64. rewrite Z.mod_small by lia. rewrite <-Nat2Z.inj_add, <-length_app, <-encode_all_snoc in *.
    replace (pre ++ r :: rs) with ((pre ++ [r]) ++ rs) in * by (by rewrite <-app_assoc).
    destruct (IH (pre ++ [r]) fuel a1 a' (set_index i1 db) Hd Hsm Hin Hne Edf) as (i2 & S2 & Hh2 & Hp2);
      [simpl in Hf; lia|by eapply abs_step_pend|done|done|].
    exists i2. by rewrite S2, set_index_twice.
Qed.

Lemma encode_all_ge rs : Forall record_ok rs -> (length rs <= length (encode_all rs))%nat.
Proof.
  induction 1 as [|r rs Hr _ IH]; [done|]. rewrite encode_all_cons, length_app. simpl.
  pose proof (record_pos r Hr). lia.
Qed.

(** ** Reading all files *)

(** The open files before the replay; [off] is the offset of the active one. *)
Record loaded (db : DB) (segs : Segs) (off : Z) : Prop := {
  ld_active : forall id rs, last segs = Some (id, rs) ->
    active_file_ db = Some (open_seg (dir_path (options_ db)) off id);
  ld_older : forall id, id ∈ segs.*1 -> fst <$> last segs ≠ Some id ->
    exists off, older_files_ db !! id = Some (Some (open_seg (dir_path (options_ db)) off id))
}.

Lemma loaded_index db segs off i : loaded db segs off -> loaded (set_index i db) segs off.
Proof. intros [? ?]. by constructor. Qed.

Lemma loaded_file db segs off w id : loaded db segs off -> id ∈ segs.*1 ->
  exists act, active_file_ db = Some act /\ exists df off',
    (if id =? file_id act then mret act
     else db0 ← get_db;
       match older_files_ db0 !! id with Some (Some df) => mret df | _ => undef NullDeref end : D DataFile) (db, w)
      = (Ret df, (db, w)) /\ df = open_seg (dir_path (options_ db)) off' id.
Proof.
  intros Hl Hin. destruct (last segs) as [[j rs]|] eqn:El.
  2: { apply last_None in El as ->. by apply not_elem_of_nil in Hin. }
  eexists. split; [by eapply ld_active|]. cbn [file_id open_seg].
  destruct (Z.eqb_spec id j) as [->|Hne]; [by eexists _, off|].
  destruct (ld_older _ _ _ Hl id Hin) as [off' E]; [rewrite El; simpl; congruence|].
  eexists _, off'. rewrite get_db_step, E. done.
Qed.

Lemma replay_files_step dir all w : forall segs pre a a' db off,
  disk_ok dir all w -> small_segs all -> nonempty_segs all -> all = pre ++ segs -> segs ≠ [] ->
  dir = dir_path (options_ db) -> loaded db all off -> pend_ok a -> holds db (vals a) ->
  abs_run (log_entries segs) a = Some a' ->
  exists i id rs, last segs = Some (id, rs) /\
    let db' := set_active (Some (open_seg dir (Z.of_nat (length (encode_all rs))) id)) (set_index i db) in
    replay_files None segs.*1 (mkReplay (pend a) (maxt a)) (db, w)
      = (Ret (mkReplay (pend a') (maxt a')), (db', w)) /\ holds db' (vals a').
Proof.
  induction segs as [|[id rs] segs IH]; intros pre a a' db off Hd Hsm Hne Eall Hnn Edir Hl Hp Hh; [done|].
  intros Hrun. unfold log_entries in Hrun. cbn [fmap list_fmap concat] in Hrun. rewrite abs_run_app in Hrun.
  destruct (abs_run (file_entries id 0 rs) a) as [a1|] eqn:E1; [|done]. cbn [mbind option_bind] in Hrun.
  assert (Hin : (id, rs) ∈ all) by (rewrite Eall; apply elem_of_app; right; by left).
  destruct (loaded_file db all off w id Hl (seg_id_in _ _ _ Hin)) as (act & Ha & df & off' & Edf & Hdf).
  cbn [fmap list_fmap replay_files fst]. mstep (active_Ret db w act Ha). mstep Edf.
  assert (Hrs : rs ≠ []).
  { unfold nonempty_segs in Hne. rewrite Forall_forall in Hne. exact (Hne _ Hin). }
  destruct (replay_loop_step dir all w df id rs [] (file_fuel df w) a a1 db) as (i1 & S1 & Hh1 & Hp1); try done.
  { rewrite Hdf, Edir. done. }
  { unfold file_fuel, contents. rewrite Hdf, <-Edir. cbn [io_handler open_seg fd_ mbind option_bind].
    rewrite (dk_files _ _ _ Hd _ _ Hin). apply Nat.lt_succ_r, encode_all_ge, Forall_forall.
    intros r Hr. by apply (record_ok_in _ _ _ _ _ r Hd Hin). }
  rewrite (bind_Ret _ _ _ _ _ S1). cbn [app].
  destruct segs as [|seg segs].
  - injection Hrun as <-. exists i1, id, rs. split; [done|]. split; [|exact Hh1].
    rewrite bool_decide_eq_true_2 by done. cbn [when]. rewrite bind_assoc.
    assert (Ha' : active_file_ (set_index i1 db) = Some (open_seg dir off id)).
    { cbn. rewrite Edir. apply (ld_active _ _ _ Hl id rs). by rewrite Eall, last_snoc. }
    mstep (active_Ret (set_index i1 db) w _ Ha'). done.
  - rewrite bool_decide_eq_false_2 by done. cbn [when]. autorewrite with monad.
    destruct (IH (pre ++ [(id, rs)]) a1 a' (set_index i1 db) off) as (i2 & id2 & rs2 & El & S2 & Hh2); try done.
    + by rewrite <-app_assoc.
    + by apply loaded_index.
    + exists i2, id2, rs2. split; [done|]. split; [exact S2|exact Hh2].
Qed.
End replay.
