(* ===== verification/DBOpen.v ===== *)
(** * Opening a directory of data files

    Open on a directory that holds the data files of a log, and nothing else,
    finds them in order and rebuilds the index from them. *)

From S2P Require Import Prelude Coding Strings Bytes Status LogRecord FileIO DataFile.
From S2P Require Import SkipList Index DB DBFiles DBReplay.
Local Open Scope Z_scope.

(** ** The ids in the names *)

Definition dot : byte := z2b 46.

Lemma find_sub_char c (s rest : bytes) : c ∉ s -> find_sub [c] (s ++ c :: rest) = Some (length s).
Proof.
  induction s as [|b s IH]; intros Hs; simpl.
  - rewrite decide_True; [done|]. by exists rest.
  - apply not_elem_of_cons in Hs as [Hb Hs]. rewrite decide_False.
    + by rewrite (IH Hs).
    + intros [k E]. by injection E as ->.
Qed.

Lemma digit_not_dot b : is_digit b = true -> b ≠ dot.
Proof. intros Hb ->. by vm_compute in Hb. Qed.

Lemma id_digits id : id_ok id -> (dot ∉ to_string id) /\ (0 < length (to_string id))%nat.
Proof.
  intros Hid. destruct (to_string_spec id) as (Hd & Hl & _); [unfold id_ok in Hid; lia|].
  split; [|done]. intros Hin. rewrite Forall_forall in Hd. by apply (digit_not_dot dot (Hd _ Hin)).
Qed.

Lemma Split_data_name id : id_ok id ->
  String.Split (data_name id) (lit ".") true = Some [to_string id; lit "bitdb-data"].
Proof.
  intros Hid. destruct (id_digits id Hid) as [Hd Hl]. unfold String.Split, data_name.
  assert (E : find_sub (lit ".") (to_string id ++ K_DATA_FILE_SUFFIX) = Some (length (to_string id))).
  { apply (find_sub_char dot (to_string id) (lit "bitdb-data") Hd). }
  destruct (to_string id ++ K_DATA_FILE_SUFFIX) as [|b s] eqn:Es.
  { apply (f_equal length) in Es. rewrite length_app in Es. simpl in Es. lia. }
  rewrite <-Es in *. clear b s Es. cbn [String.split_loop]. rewrite E, orb_true_r.
  change (K_DATA_FILE_SUFFIX) with (dot :: lit "bitdb-data").
  rewrite cons_middle, app_assoc, drop_app_length' by (rewrite length_app; done).
  replace (length ((to_string id ++ [dot]) ++ lit "bitdb-data")) with (S (length (to_string id) + 10))%nat
    by (rewrite !length_app; simpl; lia).
  unfold substr. rewrite drop_0, <-app_assoc, take_app_length. reflexivity.
Qed.

Definition id_of_name (n : bytes) : option Z :=
  if String.EndsWith n K_DATA_FILE_SUFFIX then stoi n else None.

Lemma id_of_data_name id : id_ok id -> id_of_name (data_name id) = Some id.
Proof.
  intros Hid. unfold id_of_name. rewrite (proj2 (EndsWith_spec _ _)) by (by exists (to_string id)).
  by apply (stoi_to_string id dot (lit "bitdb-data")).
Qed.

(** The names in a directory of data files. *)
Definition name_ok (n : bytes) : Prop :=
  n = lit "." \/ n = lit ".." \/ exists id, id_ok id /\ n = data_name id.

Section open.
Context `{Crc32cLib} `{RandomEngine} `{DirOrder}.

Lemma data_file_ids_step names s : Forall name_ok names ->
  data_file_ids names s = (Ret (omap id_of_name names), s).
Proof.
  induction 1 as [|n names Hn _ IH]; [done|]. cbn [data_file_ids omap list_omap].
  destruct Hn as [-> |[-> |(id & Hid & ->)]]; [exact IH|exact IH|].
  rewrite id_of_data_name, Split_data_name by done.
  rewrite (proj2 (EndsWith_spec _ _)) by (by exists (to_string id)).
  rewrite !bind_some. change (data_name id) with (to_string id ++ dot :: lit "bitdb-data").
  rewrite stoi_to_string by done. rewrite bind_some. mstep IH. unfold u32.
  rewrite Z.mod_small by (unfold id_ok in Hid; lia). done.
Qed.

Lemma NoDup_omap_inj {A B} (f : A -> option B) l :
  (forall x y z, f x = Some z -> f y = Some z -> x = y) -> NoDup l -> NoDup (omap f l).
Proof.
  intros Hf. induction 1 as [|x l Hx _ IH]; [constructor|]. cbn [omap list_omap].
  destruct (f x) as [z|] eqn:E; [|done]. constructor; [|done].
  intros (y & Hy & Ey)%list_elem_of_omap. by rewrite (Hf x y z E Ey) in Hx.
Qed.

Lemma omap_none {A B} (f : A -> option B) l : Forall (fun x => f x = None) l -> omap f l = [].
Proof. induction 1 as [|x l Hx _ IH]; [done|]. cbn [omap list_omap]. by rewrite Hx. Qed.

Lemma disk_entries dir segs w : disk_ok dir segs w -> entries dir w ≡ₚ data_name <$> segs.*1.
Proof.
  intros Hd. unfold entries. rewrite omap_app.
  rewrite (omap_none _ (elements (dirs w))), app_nil_r.
  2: { apply Forall_forall. intros p Hp%elem_of_elements. by apply (dk_nosub _ _ _ Hd). }
  apply NoDup_Permutation.
  - apply NoDup_omap_inj; [|apply NoDup_fst_map_to_list].
    intros x y z [-> _]%entry_of_Some [-> _]%entry_of_Some. done.
  - apply NoDup_fmap_2_strong.
    + intros x y Hx Hy. apply data_name_inj; by eapply disk_id.
    + pose proof (dk_sorted _ _ _ Hd) as Hs. induction Hs as [|x l Hs IH Hx]; [constructor|].
      constructor; [|done]. intros Hin. rewrite Forall_forall in Hx. specialize (Hx _ Hin). lia.
  - intros n. rewrite list_elem_of_omap, list_elem_of_fmap. split.
    + intros (p & Hp & En). apply list_elem_of_fmap in Hp as ([p' c] & -> & Hp).
      apply elem_of_map_to_list in Hp. destruct (dk_only _ _ _ Hd p' n) as (id & ? & ?); eauto.
    + intros (id & -> & Hin). exists (GetDataFileName dir id). split.
      * apply list_elem_of_fmap in Hin as ([id' rs] & -> & Hin).
        apply list_elem_of_fmap. exists (GetDataFileName dir id', encode_all rs). split; [done|].
        apply elem_of_map_to_list. by apply Hd.
      * apply data_file_entry. by eapply disk_id.
Qed.

Lemma omap_ids ids : Forall id_ok ids -> omap id_of_name (data_name <$> ids) = ids.
Proof.
  induction 1 as [|id ids Hid _ IH]; [done|]. cbn [fmap list_fmap omap list_omap].
  rewrite id_of_data_name by done. cbn in IH. by rewrite IH.
Qed.

(** The ids found, sorted, are those of the segments. *)
Lemma found_ids dir segs w names : disk_ok dir segs w ->
  names ≡ₚ lit "." :: lit ".." :: entries dir w ->
  Forall name_ok names /\ merge_sort Z.le (omap id_of_name names) = segs.*1.
Proof.
  intros Hd Hp. rewrite (disk_entries _ _ _ Hd) in Hp. pose proof (dk_ids _ _ _ Hd) as Hids. split.
  - rewrite Hp. constructor; [by left|]. constructor; [by right; left|]. apply Forall_fmap.
    eapply Forall_impl; [exact Hids|]. intros id Hid. right. right. by exists id.
  - apply (StronglySorted_unique Z.le).
    + apply StronglySorted_merge_sort; apply _.
    + pose proof (dk_sorted _ _ _ Hd) as Hs. clear -Hs. induction Hs as [|x l Hs IH Hx]; constructor; [done|].
      eapply Forall_impl; [exact Hx|]. simpl. lia.
    + rewrite merge_sort_Permutation, Hp.
      change (omap id_of_name (data_name <$> segs.*1) ≡ₚ segs.*1). by rewrite omap_ids.
Qed.

(** ** Names that are no data files *)

Lemma find_last_of_spec c (s : bytes) :
  match find_last_of c s with Some i => c ∉ drop (S i) s | None => c ∉ s end.
Proof.
  induction s as [|b s IH]; simpl; [apply not_elem_of_nil|].
  destruct (find_last_of c s) as [i|]; [exact IH|]. case_decide as Hb; [by rewrite drop_0|].
  apply not_elem_of_cons. split; [congruence|done].
Qed.

Lemma PathBase_no_slash path : slash ∉ PathBase path.
Proof.
  unfold PathBase. pose proof (find_last_of_spec slash path) as Hs. unfold slash in *.
  destruct (find_last_of _ path) as [i|]; [|done]. unfold substr. by rewrite Nat.add_1_r.
Qed.

Lemma merge_dir_entry dir :
  entry_of dir (GetMergenceDirectory dir) = Some (PathBase dir ++ K_MERGENCE_FOLDER_SUFFIX).
Proof.
  unfold GetMergenceDirectory. rewrite Format2. apply entry_of_app.
  intros [Hs|Hs]%elem_of_app; [by apply PathBase_no_slash in Hs|].
  revert Hs. assert (slash ∉ K_MERGENCE_FOLDER_SUFFIX) by vm_decide. done.
Qed.

(** A name that does not end like a data file. *)
Lemma not_data_file dir segs w n : disk_ok dir segs w -> slash ∉ n -> last n ≠ last K_DATA_FILE_SUFFIX ->
  files w !! (dir ++ slash :: n) = None /\ dir ++ slash :: n ∉ dirs w.
Proof.
  intros Hd Hn Hl. split.
  - apply eq_None_not_Some. intros Hs. destruct (dk_only _ _ _ Hd _ n Hs (entry_of_app _ _ Hn)) as (id & _ & ->).
    apply Hl. unfold data_name. change K_DATA_FILE_SUFFIX with (dot :: lit "bitdb-data").
    by rewrite last_app_cons.
  - intros Hin. apply (dk_nosub _ _ _ Hd) in Hin. by rewrite entry_of_app in Hin.
Qed.

Lemma IsFileExist_no dir segs w n : disk_ok dir segs w -> slash ∉ n -> last n ≠ last K_DATA_FILE_SUFFIX ->
  IsFileExist (Format (lit "{}/{}") [dir; n]) w = (Ret false, w).
Proof.
  intros Hd Hn Hl. destruct (not_data_file _ _ _ _ Hd Hn Hl) as [Hf Hdir]. rewrite Format2.
  unfold IsFileExist. autorewrite with monad. rewrite bool_decide_eq_false_2; [done|].
  rewrite Hf. intros [[? ?]|?]; done.
Qed.

(** ** The parts of Open *)

Lemma LoadMergenceFiles_none segs db w : disk_ok (dir_path (options_ db)) segs w ->
  exists st, LoadMergenceFiles (db, w) = (Ret st, (db, w)).
Proof.
  intros Hd. unfold LoadMergenceFiles. rewrite get_db_step. cbv zeta.
  assert (E : list_dir (GetMergenceDirectory (dir_path (options_ db))) w = (Ret None, w)).
  { unfold list_dir. autorewrite with monad. rewrite decide_False; [done|].
    intros Hin. apply (dk_nosub _ _ _ Hd) in Hin. by rewrite merge_dir_entry in Hin. }
  mstep (io_Ret _ db w _ _ E). by eexists.
Qed.

Lemma LoadIndexFromHintFile_none segs db w : disk_ok (dir_path (options_ db)) segs w ->
  exists st, LoadIndexFromHintFile (db, w) = (Ret st, (db, w)).
Proof.
  intros Hd. unfold LoadIndexFromHintFile. rewrite get_db_step. cbv zeta.
  mstep (io_Ret _ db w _ _ (IsFileExist_no _ _ _ K_HINT_FILE_NAME Hd ltac:(vm_decide) ltac:(done))).
  by eexists.
Qed.

Lemma open_data_files_step dir all w : forall segs db,
  disk_ok dir all w -> dir = dir_path (options_ db) -> (forall seg, seg ∈ segs -> seg ∈ all) ->
  NoDup segs.*1 -> segs ≠ [] ->
  exists db', open_data_files segs.*1 (db, w) = (Ret tt, (db', w)) /\ loaded db' segs 0 /\ same_rest db db'
    /\ (forall id, id ∉ segs.*1 -> older_files_ db' !! id = older_files_ db !! id).
Proof.
  induction segs as [|[id rs] segs IH]; intros db Hd Edir Hsub Hnd Hne; [done|].
  cbn [fmap list_fmap fst open_data_files]. rewrite get_db_step, <-Edir.
  mstep (io_Ret _ db w _ _ (OpenDataFile_seg dir all w id rs Hd ltac:(apply Hsub; by left))).
  apply NoDup_cons in Hnd as [Hid Hnd]. destruct segs as [|seg segs].
  - eexists. split; [reflexivity|]. split; [|split; [by constructor|done]]. constructor.
    + intros ? ? [= <- <-]. cbn. by rewrite <-Edir.
    + intros j [->|Hj]%elem_of_cons Hl; [done|by apply not_elem_of_nil in Hj].
  - set (db1 := set_older (<[id := Some (open_seg dir 0 id)]> (older_files_ db)) db).
    destruct (IH db1) as (db' & E & Hl & Hs & Ho); [done|done| |done|done|].
    { intros s Hs. apply Hsub. by right. }
    exists db'. split; [exact E|]. split; [|split].
    + destruct Hl as [Hla Hlo]. constructor; [exact Hla|].
      intros j [->|Hj]%elem_of_cons Hnl; [|by apply Hlo].
      exists 0. rewrite (Ho _ Hid), (sr_options _ _ Hs). cbn. by rewrite lookup_insert_eq, <-Edir.
    + etrans; [|exact Hs]. by constructor.
    + intros j Hj. apply not_elem_of_cons in Hj as [Hj1 Hj2]. rewrite (Ho _ Hj2). cbn.
      by rewrite lookup_insert_ne.
Qed.

Lemma sorted_nodup (l : list Z) : StronglySorted Z.lt l -> NoDup l.
Proof.
  induction 1 as [|x l Hs IH Hx]; [constructor|]. constructor; [|done].
  intros Hin. rewrite Forall_forall in Hx. specialize (Hx _ Hin). lia.
Qed.

Definition next_of (segs : Segs) : Z := match last segs with None => 0 | Some (id, _) => id + 1 end.

Lemma LoadDataFiles_step segs db w :
  disk_ok (dir_path (options_ db)) segs w -> active_file_ db = None ->
  exists db', LoadDataFiles (db, w) = (Ret tt, (db', w)) /\ loaded db' segs 0
    /\ (segs = [] -> active_file_ db' = None) /\ options_ db' = options_ db /\ index_ db' = index_ db
    /\ file_ids_ db' = Some segs.*1 /\ next_file_id_ db' = next_of segs
    /\ txn_id_ db' = txn_id_ db /\ is_merging_ db' = is_merging_ db.
Proof.
  intros Hd Ha. set (dir := dir_path (options_ db)) in *.
  set (names := dir_order (lit "." :: lit ".." :: entries dir w)).
  assert (El : list_dir dir w = (Ret (Some names), w)).
  { unfold list_dir. autorewrite with monad. rewrite decide_True by apply Hd. done. }
  destruct (found_ids dir segs w names Hd (dir_order_perm _)) as [Hok Hids].
  set (db1 := set_file_ids (Some segs.*1) db).
  assert (Hpre : LoadDataFiles (db, w) =
    (open_data_files segs.*1;;
     modify_db (fun db => set_next (match active_file_ db with
       | Some df => u32 (file_id df + 1) | None => 0 end) db)) (db1, w)).
  { unfold LoadDataFiles. rewrite get_db_step. fold dir. mstep (io_Ret _ db w _ _ El).
    mstep (data_file_ids_step names (db, w) Hok). cbv zeta. by rewrite Hids. }
  rewrite Hpre. destruct segs as [|seg segs]; [|remember (seg :: segs) as all eqn:Eall].
  - eexists. split; [reflexivity|]. cbn. rewrite Ha. split_and!; [|done..].
    constructor; [done|]. intros id Hin. by apply not_elem_of_nil in Hin.
  - destruct (open_data_files_step dir all w all db1) as (db2 & E2 & Hl & Hs & _);
      [done|done|done|apply sorted_nodup, Hd|by subst|].
    mstep E2. eexists. split; [reflexivity|]. destruct Hs as [S1 S2 S3 S4 S5]. cbn in *.
    split_and!; try done; [by destruct Hl|by subst|].
    assert (exists id rs, last all = Some (id, rs)) as (id & rs & Elast).
    { destruct (last all) as [[id rs]|] eqn:E; [by exists id, rs|]. apply last_None in E. by subst. }
    rewrite (ld_active _ _ _ Hl _ _ Elast). unfold next_of. rewrite Elast. cbn. unfold u32.
    assert (id_ok id).
    { eapply disk_id; [exact Hd|]. apply (seg_id_in _ _ rs). by apply last_Some_elem_of. }
    unfold id_ok in *. apply Z.mod_small. lia.
Qed.

(** ** Open *)

Definition options_ok (o : Options) : Prop := dir_path o ≠ [] /\ 0 < data_file_size o.

(** The database is on the log [segs] whose meaning is [a]. *)
Record db_inv (db : DB) (segs : Segs) (a : Abs) (w : World) : Prop := {
  di_files : files_inv db segs w;
  di_run : abs_run (log_entries segs) abs_init = Some a;
  di_holds : holds db (vals a);
  di_pend : pend_ok a;
  di_txn : maxt a <= txn_id_ db < 2 ^ 28
}.

Lemma Open_inv o segs a w :
  options_ok o -> disk_ok (dir_path o) segs w -> small_segs segs -> nonempty_segs segs ->
  abs_run (log_entries segs) abs_init = Some a ->
  exists db, Open o false w = (Ret db, w) /\ db_inv db segs a w /\ options_ db = o /\ txn_id_ db = maxt a.
Proof.
  intros [Hdir Hsz] Hd Hsm Hne Hrun.
  pose proof (abs_run_pend _ _ _ (log_records _ _ _ Hd) abs_init_pend Hrun) as Hpa. unfold Open, open_with, CheckOptions.
  destruct (dir_path o) as [|b0 d0] eqn:Edir; [done|]. rewrite <-Edir in *. clear Hdir.
  rewrite (proj2 (Z.leb_gt _ _)) by lia. autorewrite with monad.
  assert (Ec : CheckOrCreateDirectory (dir_path o) w = (Ret true, w)).
  { unfold CheckOrCreateDirectory. autorewrite with monad. by rewrite decide_True by apply Hd. }
  mstep Ec. cbn [CHECK_TRUE_]. autorewrite with monad. unfold start.
  set (db0 := DB_new o).
  destruct (LoadMergenceFiles_none segs db0 w Hd) as [st1 E1]. rewrite (bind_Ret _ _ _ _ _ E1).
  destruct (LoadDataFiles_step segs db0 w Hd eq_refl) as (db1 & E2 & Hl & Hact & Ho & Hi & Hf & Hn & Ht & Hm).
  rewrite (bind_Ret _ _ _ _ _ E2).
  destruct (LoadIndexFromHintFile_none segs db1 w) as [st3 E3]; [by rewrite Ho|].
  rewrite (bind_Ret _ _ _ _ _ E3). unfold LoadIndexFromDataFiles.
  assert (Hh0 : holds db1 (vals abs_init)).
  { unfold holds. rewrite Hi. cbn [abs_init vals]. rewrite fmap_empty. apply NewIndexer_rep. }
  rewrite bind_assoc, get_db_step, Hf, bind_assoc, bind_some.
  destruct segs as [|seg segs]; [|remember (seg :: segs) as all eqn:Eall].
  - injection Hrun as <-. exists db1. split; [done|]. split; [|done].
    constructor; [|done|done|done|rewrite Ht; cbn; lia]. constructor.
    + by rewrite Ho.
    + by apply Hact.
    + intros id Hin. by apply not_elem_of_nil in Hin.
    + done.
  - destruct (replay_files_step (dir_path o) all w all [] abs_init a db1 0) as (i & id & rs & El & S & Hh);
      try done; [by subst|by rewrite Ho|].
    destruct (all.*1) as [|id0 ids] eqn:Eids; [by subst|]. rewrite <-Eids in *. clear id0 ids Eids.
    rewrite Ho. change (options_ db0) with o. rewrite bind_assoc.
    mstep (io_Ret _ db1 w _ _ (IsFileExist_no _ _ _ K_MERGED_FILE_NAME Hd ltac:(vm_decide) ltac:(done))).
    rewrite bind_assoc. autorewrite with monad. rewrite bind_assoc. mstep S.
    eexists. split; [reflexivity|]. split; [|done]. constructor; [|done|exact Hh|done|destruct Hpa; cbn; lia].
    constructor; cbn; rewrite ?Ho; cbn.
    + done.
    + by rewrite El.
    + intros j Hj Hnl. pose proof (ld_older _ _ _ Hl j Hj Hnl) as Hold. by rewrite Ho in Hold.
    + rewrite Hn. done.
Qed.
End open.
