(* ===== verification/Batch.v ===== *)
(** * Write batches (src/bitdb/batch.{h,cpp})

    A batch keeps pending records by key, in the order of [std::map], and
    Commit appends them under a new transaction id, ends with a finish record,
    and only then updates the index.  The batch and the database it points to
    are the state; the mutex of the batch is not modelled. *)

From S2P Require Import Prelude Strings Bytes Status LogRecord FileIO DataFile.
From S2P Require Import SkipList Index DB.
Local Open Scope Z_scope.

(** Iteration of a [std::map] with string keys: by increasing key. *)
Definition item_le {A} (a b : bytes * A) : Prop := bytes_ltb b.1 a.1 = false.
#[export] Instance item_le_dec {A} : RelDecision (@item_le A).
Proof. intros a b. unfold item_le. apply _. Defined.

Definition items {A} (m : gmap bytes A) : list (bytes * A) := merge_sort item_le (map_to_list m).

Record WriteBatch := mkBatch {
  batch_options_ : WriteBatchOptions;
  pending_writes_ : gmap bytes LogRecord;
  committed_ : bool;
  rollbacked_ : bool
}.

Definition set_pending (p : gmap bytes LogRecord) (b : WriteBatch) : WriteBatch :=
  mkBatch (batch_options_ b) p (committed_ b) (rollbacked_ b).

(** [std::map::emplace]: an existing entry stays. *)
Definition emplace {A} (k : bytes) (a : A) (m : gmap bytes A) : gmap bytes A :=
  match m !! k with Some _ => m | None => <[k := a]> m end.

Section batch.
Context `{Crc32cLib} `{RandomEngine} `{DirOrder}.

(** DB::NewWriteBach, with its output parameter. *)
Definition NewWriteBach (wb_ptr_null : bool) (options : WriteBatchOptions) : D WriteBatch :=
  if wb_ptr_null then throw (InvalidArgument (lit "DB::NewWriteBatch") (lit "wb is nullptr"))
  else mret (mkBatch options ∅ false false).

(** The batch, the database and the host. *)
Definition BW : Type := WriteBatch * DBW.
Abbreviation B := (M BW Status).

Definition get_batch : B WriteBatch := gets fst.
Definition modify_batch (f : WriteBatch -> WriteBatch) : B unit := modify (fun s => (f s.1, s.2)).
Definition on_db {A} (m : D A) : B A := zoom snd (fun s d => (s.1, d)) m.

Definition WriteBatch_Put (k v : Bytes) : B Status :=
  if empty_ k then throw (InvalidArgument (lit "WriteBatch::Put") (lit "key is empty")) else
  ks ← some_or OutOfBounds (c_str (data_ k));
  vs ← some_or OutOfBounds (c_str (data_ v));
  modify_batch (fun b => set_pending (emplace ks (mkRecord ks vs NormalLogRecord) (pending_writes_ b)) b);;
  mret Status_Ok.

(** The status of a call, as a value. *)
Definition status_of {A} (m : D A) : D Status := fun s =>
  match m s with
  | (Ret _, s') => (Ret Status_Ok, s')
  | (Throw e, s') => (Ret e, s')
  | (Undef u, s') => (Undef u, s')
  end.

(** Delete: [db_->Get(key, nullptr)] tells whether the key exists. *)
Definition WriteBatch_Delete (k : Bytes) : B Status :=
  if empty_ k then throw (InvalidArgument (lit "DB::Delete") (lit "key is empty")) else
  st ← on_db (status_of (Get k true));
  ks ← some_or OutOfBounds (c_str (data_ k));
  if IsNotFound st then
    modify_batch (fun b => set_pending (delete ks (pending_writes_ b)) b);;
    mret Status_Ok
  else
    modify_batch (fun b => set_pending (emplace ks (mkRecord ks [] DeletedLogRecord) (pending_writes_ b)) b);;
    mret Status_Ok.

(** The first loop of Commit: the records are appended, and the pending ones
    keep the key they were written with. *)
Fixpoint commit_append (txn_id : Z) (l : list (bytes * LogRecord)) (positions : gmap bytes LogRecordPst)
    : B (gmap bytes LogRecordPst) :=
  match l with
  | [] => mret positions
  | (k, r) :: l =>
      ek ← some_or OutOfBounds (EncodeLogRecordWithTxnID (Bytes_of_string (key r)) txn_id);
      let r := mkRecord ek (value r) (type r) in
      modify_batch (fun b => set_pending (<[k := r]> (pending_writes_ b)) b);;
      p ← on_db (AppendLogRecord r);
      commit_append txn_id l (emplace k p positions)
  end.

(** The last loop of Commit. *)
Fixpoint commit_index (positions : gmap bytes LogRecordPst) (l : list (bytes * LogRecord)) : B unit :=
  match l with
  | [] => mret tt
  | (k, r) :: l =>
      p ← some_or NullDeref (positions !! k);
      (match type r with
       | NormalLogRecord => ok ← on_db (index_Put (Bytes_of_string k) p); CHECK_TRUE_ ok
       | DeletedLogRecord => '(ok, _) ← on_db (index_Delete (Bytes_of_string k)); CHECK_TRUE_ ok
       | _ => mret tt
       end);;
      commit_index positions l
  end.

Definition Commit : B Status :=
  b ← get_batch;
  if decide (size (pending_writes_ b) = 0%nat) then mret Status_Ok
  else if Z.of_nat (size (pending_writes_ b)) >? max_batch_num (batch_options_ b) then
    throw (NotSupported (lit "WriteBatch::Commit") (lit "exceed max batch number"))
  else
    on_db (modify_db (fun db => set_txn_id (u64 (txn_id_ db + 1)) db));;
    db ← on_db get_db;
    let txn_id := txn_id_ db in
    positions ← commit_append txn_id (items (pending_writes_ b)) ∅;
    ek ← some_or OutOfBounds (EncodeLogRecordWithTxnID (Bytes_of_string K_TXN_FINISHED_KEY) txn_id);
    on_db (AppendLogRecord (mkRecord ek [] TxnFinishedLogRecord));;
    b ← get_batch;
    commit_index positions (items (pending_writes_ b));;
    modify_batch (fun b => mkBatch (batch_options_ b) (pending_writes_ b) true (rollbacked_ b));;
    mret Status_Ok.

Definition Rollback : B Status :=
  b ← get_batch;
  if committed_ b then
    throw (CheckError (lit "WriteBatch::Rollback()")
             (lit "WriteBatch has been commited, could not rollback."))
  else if rollbacked_ b then
    throw (CheckError (lit "WriteBatch::Rollback()") (lit "WriteBatch has been rollbaked."))
  else
    modify_batch (fun b => mkBatch (batch_options_ b) ∅ (committed_ b) true);;
    mret Status_Ok.
End batch.

Abbreviation B := (M BW Status).
