(* ===== verification/DBSpec.v ===== *)
(** * The database refines a map

    Put, Get, Delete, committed batches and reopening, on a host whose calls
    succeed: the map of keys and values that the log means is the map a client
    sees, before and after the directory is opened again. *)

From S2P Require Import Prelude Coding Strings Bytes Status LogRecord FileIO DataFile.
From S2P Require Import SkipList Index DB DBFiles DBReplay DBOpen Batch.
Local Open Scope Z_scope.

(** ** Positions of the map are entries of the log *)

Definition from_log (es : list (LogRecordPst * LogRecord)) (p : LogRecordPst) (v : bytes) : Prop :=
  exists r, (p, r) ∈ es /\ value r = v /\ type r ≠ DeletedLogRecord.

Definition pend_from_log (es : list (LogRecordPst * LogRecord)) (t : TxnRecord) : Prop :=
  exists r, (pst t, r) ∈ es /\ value r = value (log_record t) /\ type r = type (log_record t).

Definition grounded (es : list (LogRecordPst * LogRecord)) (a : Abs) : Prop :=
  map_Forall (fun _ pv => from_log es pv.1 pv.2) (vals a)
  /\ map_Forall (fun _ l => Forall (pend_from_log es) l) (pend a).

Lemma grounded_mono es es' a : es ⊆ es' -> grounded es a -> grounded es' a.
Proof.
  intros Hsub [Hv Hp]. split.
  - eapply map_Forall_impl; [exact Hv|]. intros k [p v] (r & ? & ?). exists r. split; [by apply Hsub|done].
  - eapply map_Forall_impl; [exact Hp|]. intros t l Hl. eapply Forall_impl; [exact Hl|].
    intros x (r & ? & ?). exists r. split; [by apply Hsub|done].
Qed.

Lemma apply_update_grounded es k t p v m m' :
  map_Forall (fun _ pv => from_log es pv.1 pv.2) m ->
  (exists r, (p, r) ∈ es /\ value r = v /\ type r = t) -> apply_update k t p v m = Some m' ->
  map_Forall (fun _ pv => from_log es pv.1 pv.2) m'.
Proof.
  intros Hm (r & Hin & Hv & Ht). unfold apply_update. case_bool_decide as Hd.
  - case_decide; [|done]. intros [= <-]. by apply map_Forall_delete.
  - intros [= <-]. apply map_Forall_insert_2; [|done]. exists r. by rewrite Ht.
Qed.

Lemma apply_txn_grounded es l : forall m m',
  map_Forall (fun _ pv => from_log es pv.1 pv.2) m -> Forall (pend_from_log es) l ->
  apply_txn l m = Some m' -> map_Forall (fun _ pv => from_log es pv.1 pv.2) m'.
Proof.
  induction l as [|t l IH]; intros m m' Hm Hl; cbn [apply_txn]; [by intros [= <-]|].
  apply Forall_cons in Hl as [Ht Hl]. destruct (apply_update _ _ _ _ m) as [m1|] eqn:E; [|done].
  cbn [mbind option_bind]. apply IH; [|done]. by eapply apply_update_grounded.
Qed.

Lemma abs_step_grounded es p r a a' :
  grounded es a -> (p, r) ∈ es -> abs_step (p, r) a = Some a' -> grounded es a'.
Proof.
  intros [Hv Hp] Hin. unfold abs_step.
  destruct (DecodeLogRecordWithTxnID _) as [[k txn]|]; [|done]. cbn [mbind option_bind].
  assert (Hopen : Forall (pend_from_log es) (default [] (pend a !! u32 txn)))
    by (destruct (pend a !! u32 txn) eqn:E; [exact (Hp _ _ E)|done]).
  destruct (txn =? K_NON_TXN_ID); [|case_bool_decide].
  - destruct (apply_update _ _ _ _ _) as [m|] eqn:E; [|done]. intros [= <-]. split; [|done].
    eapply apply_update_grounded; [exact Hv| |exact E]. eauto.
  - destruct (apply_txn _ _) as [m|] eqn:E; [|done]. intros [= <-]. split.
    + by eapply apply_txn_grounded.
    + by apply map_Forall_delete.
  - intros [= <-]. split; [done|]. apply map_Forall_insert_2; [|done].
    apply Forall_app. split; [done|]. apply Forall_singleton. exists r. done.
Qed.

Lemma abs_run_grounded es : forall a a' all,
  grounded all a -> es ⊆ all -> abs_run es a = Some a' -> grounded all a'.
Proof.
  induction es as [|[p r] es IH]; intros a a' all Hg Hsub; cbn [abs_run]; [by intros [= <-]|].
  destruct (abs_step (p, r) a) as [a1|] eqn:E; [|done]. cbn [mbind option_bind].
  apply IH; [|set_solver]. eapply abs_step_grounded; [done| |exact E]. apply Hsub. by left.
Qed.

Lemma vals_from_log es a k p v :
  abs_run es abs_init = Some a -> vals a !! k = Some (p, v) -> from_log es p v.
Proof.
  intros Hr Hk. destruct (abs_run_grounded es abs_init a es) as [Hv _]; [|done|done|exact (Hv _ _ Hk)].
  split; apply map_Forall_empty.
Qed.

(** ** The map a client sees *)

Definition contents_of (a : Abs) : gmap bytes bytes := snd <$> vals a.

(** A key the database can hold, and a value beside it. *)
Record kv_ok (o : Options) (k v : bytes) : Prop := {
  kv_key : k ≠ [];
  kv_key_nul : NUL ∉ k;
  kv_value_nul : NUL ∉ v;
  kv_fits : Z.of_nat (length k) + Z.of_nat (length v) + 19 <= data_file_size o;
  kv_transfer : Z.of_nat (length k) + Z.of_nat (length v) + 19 <= K_MAX_TRANSFER
}.

Section spec.
Context `{Crc32cLib} `{RandomEngine} `{DirOrder}.

(** The record a key, value and transaction id are written as. *)
Definition txn_record (txn : Z) (k v : bytes) (t : LogRecordType) : LogRecord :=
  mkRecord (EncodeVarint64 txn ++ k) v t.

Lemma txn_key_length txn : 0 <= txn < 2 ^ 28 -> (1 <= length (EncodeVarint64 txn) <= 4)%nat.
Proof.
  intros Ht. assert (Hl : (length (EncodeVarint64 txn) <= 4)%nat)
    by (apply encode_varint_length_le; simpl; lia).
  pose proof (encode_varint_length 10 txn ltac:(lia)). unfold EncodeVarint64 in *. lia.
Qed.

Lemma txn_record_decode txn k v t : NUL ∉ k -> 0 <= txn < 2 ^ 28 ->
  DecodeLogRecordWithTxnID (Bytes_of_string (key (txn_record txn k v t))) = Some (k, txn).
Proof. intros Hk Ht. destruct (txn_key_roundtrip k txn Hk Ht) as (s & _ & -> & E). exact E. Qed.

Lemma txn_record_encode txn k : NUL ∉ k -> 0 <= txn < 2 ^ 28 ->
  EncodeLogRecordWithTxnID (Bytes_of_string k) txn = Some (EncodeVarint64 txn ++ k).
Proof. intros Hk Ht. destruct (txn_key_roundtrip k txn Hk Ht) as (s & E & -> & _). exact E. Qed.

Lemma txn_record_ok txn k v t :
  NUL ∉ k -> 0 <= txn < 2 ^ 28 -> type_wf t ->
  Z.of_nat (length k) + Z.of_nat (length v) + 19 <= K_MAX_TRANSFER ->
  record_ok (txn_record txn k v t)
  /\ Z.of_nat (length (EncodeLogRecord (txn_record txn k v t)))
     <= Z.of_nat (length k) + Z.of_nat (length v) + 19.
Proof.
  intros Hk Ht Hty Hsz. pose proof (txn_key_length txn Ht) as Hl.
  assert (Hne : key (txn_record txn k v t) ≠ []).
  { cbn [txn_record key]. intros E%(f_equal length). rewrite length_app in E. cbn [length] in E. lia. }
  split.
  - split.
    + constructor; [done|done|]. cbn [txn_record key value]. rewrite length_app.
      unfold K_MAX_TRANSFER in Hsz. lia.
    + exists k, txn. split_and!; [by apply txn_record_decode|done|lia|lia].
  - rewrite EncodeLogRecord_length by done. cbn [txn_record key value]. rewrite length_app.
    pose proof (header_bytes_length (txn_record txn k v t)).
    pose proof (header_tail_length (txn_record txn k v t)). lia.
Qed.

(** A session: the log so far fits the ids and offsets, and every file holds a
    record. *)
Record session (db : DB) (segs : Segs) (a : Abs) (w : World) : Prop := {
  ss_inv : db_inv db segs a w;
  ss_options : options_ok (options_ db);
  ss_nonempty : nonempty_segs segs;
  ss_next : next_file_id_ db <= 1 + Z.of_nat (length (log_entries segs))
}.

Lemma next_nonneg db segs w : files_inv db segs w -> 0 <= next_file_id_ db.
Proof.
  intros HI. rewrite (fi_next _ _ _ HI). destruct (last segs) as [[id rs]|] eqn:E; [|lia].
  assert (id_ok id); [|unfold id_ok in *; lia].
  eapply disk_id; [apply HI|]. apply (seg_id_in _ _ rs). by apply last_Some_elem_of.
Qed.

(** Appending one record to a session. *)
Lemma append_session db segs a w r a' :
  session db segs a w -> record_ok r ->
  Z.of_nat (length (EncodeLogRecord r)) <= data_file_size (options_ db) ->
  Z.of_nat (length (log_entries segs)) < 2 ^ 30 ->
  (forall p, abs_step (p, r) a = Some (a' p)) ->
  exists db' w' segs' p, AppendLogRecord r (db, w) = (Ret p, (db', w'))
    /\ files_inv db' segs' w' /\ same_rest db db' /\ nonempty_segs segs'
    /\ abs_run (log_entries segs') abs_init = Some (a' p)
    /\ log_entries segs' = log_entries segs ++ [(p, r)] /\ pend_ok (a' p)
    /\ next_file_id_ db' <= 1 + Z.of_nat (length (log_entries segs')).
Proof.
  intros [[HI Hrun Hh Hp Ht] Ho Hne Hnext] Hr Hfit Hlen Hstep.
  pose proof (next_nonneg _ _ _ HI) as Hn0.
  destruct (AppendLogRecord_inv db segs w r HI Hr Hn0) as (db' & w' & segs' & p & E & HI' & Hs & Hl & Hn1 & Hn2 & Hne');
    [lia|]. exists db', w', segs', p.
  split_and!; [done|done|done|by apply Hne'| |done| |].
  - rewrite Hl, abs_run_app, Hrun. cbn [mbind option_bind abs_run]. by rewrite Hstep.
  - by eapply abs_step_pend.
  - rewrite Hl, length_app. simpl. case_decide; [subst|lia].
    pose proof (fi_next _ _ _ HI) as Hx. simpl in Hx. lia.
Qed.

(** ** Put *)

Lemma Put_session db segs a w k v :
  session db segs a w -> kv_ok (options_ db) k v -> Z.of_nat (length (log_entries segs)) < 2 ^ 30 ->
  exists db' segs' a' w', Put (Bytes_of_string k) (Bytes_of_string v) (db, w) = (Ret Status_Ok, (db', w'))
    /\ session db' segs' a' w' /\ options_ db' = options_ db /\ txn_id_ db' = txn_id_ db
    /\ contents_of a' = <[k := v]> (contents_of a)
    /\ length (log_entries segs') = S (length (log_entries segs)).
Proof.
  intros HS [Hk Hkn Hvn Hfit Htr] Hlen. pose proof HS as [[HI Hrun Hh Hp Ht] Ho Hne Hnext].
  set (r := txn_record 0 k v NormalLogRecord).
  destruct (txn_record_ok 0 k v NormalLogRecord) as [Hr Hrl]; [done|lia|done|done|].
  destruct (append_session db segs a w r (fun p => mkAbs (<[k := (p, v)]> (vals a)) (pend a)
    (if 0 >? maxt a then 0 else maxt a))) as (db1 & w1 & segs1 & p & E & HI1 & Hs & Hne1 & Hrun1 & Hl1 & Hp1 & Hn1);
    [done|done|fold r in Hrl; lia|done| |].
  { intros p. unfold abs_step, r. rewrite txn_record_decode by (done || lia). done. }
  assert (Hh1 : holds db1 (vals a)) by (unfold holds; by rewrite (sr_index _ _ Hs)).
  destruct (index_Put_step k p v (vals a) db1 w1 Hh1 Hkn) as (i & Ei & Hh2).
  eexists (set_index i db1), segs1, _, w1. split; [|split; [|split_and!; [apply Hs|apply Hs| |]]].
  - unfold Put. unfold empty_. cbn [Bytes_of_string size_].
    rewrite bool_decide_eq_false_2 by (by intros ?%nil_length_inv).
    rewrite txn_record_encode by (done || lia). rewrite bind_some, c_str_of_string, bind_some by done.
    mstep E. mstep Ei. unfold key_text. rewrite to_str_of_string. done.
  - constructor; [|by rewrite <-(sr_options _ _ Hs) in Ho|done|done].
    constructor; [|exact Hrun1|exact Hh2|exact Hp1|].
    + destruct HI1. by constructor.
    + cbn. rewrite (sr_txn _ _ Hs). destruct Hp as [? _]. destruct (Z.gtb_spec 0 (maxt a)); lia.
  - unfold contents_of. cbn [vals]. by rewrite fmap_insert.
  - rewrite Hl1, length_app. simpl. lia.
Qed.

(** ** Get *)

Lemma encode_all_le rs : Forall record_ok rs ->
  Z.of_nat (length (encode_all rs)) <= Z.of_nat (length rs) * K_MAX_TRANSFER.
Proof.
  induction 1 as [|r rs Hr _ IH]; [done|]. rewrite encode_all_cons, length_app. cbn [length].
  pose proof (record_pos r Hr). lia.
Qed.

Lemma file_entries_length id rs : forall off, length (file_entries id off rs) = length rs.
Proof. induction rs as [|r rs IH]; intros off; cbn [file_entries length]; [done|]. by rewrite IH. Qed.

Lemma seg_length segs id rs : (id, rs) ∈ segs -> (length rs <= length (log_entries segs))%nat.
Proof.
  intros (s1 & s2 & ->)%list_elem_of_split. unfold log_entries. rewrite fmap_app, concat_app, length_app.
  cbn [fmap list_fmap concat]. rewrite length_app, file_entries_length. lia.
Qed.

Lemma small_segs_count dir segs w :
  disk_ok dir segs w -> Z.of_nat (length (log_entries segs)) < 2 ^ 30 -> small_segs segs.
Proof.
  intros Hd Hlen. apply Forall_forall. intros [id rs] Hin. pose proof (seg_length _ _ _ Hin).
  pose proof (encode_all_le rs) as Hle. assert (Forall record_ok rs) as Hr.
  { apply Forall_forall. intros r. by apply (record_ok_in _ _ _ _ _ r Hd Hin). }
  specialize (Hle Hr). unfold K_MAX_TRANSFER in Hle. simpl. lia.
Qed.

(** An entry of the log is read back through its position. *)
Lemma GetValue_entry db segs a w k p r to_null :
  session db segs a w -> Z.of_nat (length (log_entries segs)) < 2 ^ 30 ->
  (p, r) ∈ log_entries segs -> type r ≠ DeletedLogRecord ->
  GetValueByLogRecordPst p (Bytes_of_string k) to_null (db, w)
  = (if to_null then Undef NullDeref else Ret (value r), (db, w)).
Proof.
  intros [[HI _ _ _ _] _ _ _] Hlen Hin Hty. pose proof (fi_disk _ _ _ HI) as Hd.
  destruct (log_entry_at _ _ _ Hin) as (x & y & Hseg & Hoff).
  pose proof (small_segs_count _ _ _ Hd Hlen) as Hsm. unfold small_segs in Hsm. rewrite Forall_forall in Hsm.
  specialize (Hsm _ Hseg). cbn [snd] in Hsm. rewrite encode_all_app, length_app in Hsm.
  assert (Hread : forall off, io (ReadLogRecord (open_seg (dir_path (options_ db)) off (fid p)) (offset p)) (db, w)
    = (Ret (r, Z.of_nat (length (EncodeLogRecord r))), (db, w))).
  { intros off. rewrite Hoff. apply io_Ret. by apply (record_at_disk _ _ _ _ _ _ _ _ Hd Hseg); [|lia]. }
  pose proof (fi_active _ _ _ HI) as Ha. pose proof (seg_id_in _ _ _ Hseg) as Hid.
  destruct (last segs) as [[j rs]|] eqn:El.
  2: { apply last_None in El as ->. by apply not_elem_of_nil in Hseg. }
  assert (Hdf : exists off, (if fid p =? j then mret (Some (open_seg (dir_path (options_ db))
        (Z.of_nat (length (encode_all rs))) j))
      else db0 ← get_db; match older_files_ db0 !! fid p with
        | Some df => mret df
        | None => modify_db (set_older (<[fid p := None]> (older_files_ db0)));; mret None end : D (option DataFile)) (db, w)
      = (Ret (Some (open_seg (dir_path (options_ db)) off (fid p))), (db, w))).
  { destruct (Z.eqb_spec (fid p) j) as [->|Hne]; [by eexists|].
    destruct (fi_older _ _ _ HI (fid p) Hid) as [off Eo]; [rewrite El; simpl; congruence|].
    exists off. rewrite get_db_step, Eo. done. }
  destruct Hdf as [off Hdf]. unfold GetValueByLogRecordPst. mstep (active_Ret db w _ Ha).
  cbn [file_id open_seg]. mstep Hdf. unfold key_text. rewrite to_str_of_string, bind_some.
  mstep (Hread off). rewrite bool_decide_eq_false_2 by done. by destruct to_null.
Qed.

Lemma Get_session db segs a w k to_null :
  session db segs a w -> k ≠ [] -> NUL ∉ k -> Z.of_nat (length (log_entries segs)) < 2 ^ 30 ->
  Get (Bytes_of_string k) to_null (db, w)
  = (match contents_of a !! k with
     | Some v => if to_null then Undef NullDeref else Ret v
     | None => Throw (NotFound (lit "index") (lit "index of key " ++ k ++ lit " not_found"))
     end, (db, w)).
Proof.
  intros HS Hk Hkn Hlen. pose proof HS as [[HI Hrun Hh Hp Ht] Ho Hne Hnext].
  unfold Get. unfold empty_. cbn [Bytes_of_string size_].
  rewrite bool_decide_eq_false_2 by (by intros ?%nil_length_inv).
  mstep (index_Get_step k (vals a) db w Hh Hkn). unfold contents_of. rewrite lookup_fmap.
  destruct (vals a !! k) as [[p v]|] eqn:E; cbn [fmap option_fmap option_map fst snd].
  - destruct (vals_from_log _ _ _ _ _ Hrun E) as (r & Hin & <- & Hty). by eapply GetValue_entry.
  - unfold key_text. rewrite to_str_of_string, bind_some. done.
Qed.

(** ** Delete *)

Lemma Delete_session db segs a w k :
  session db segs a w -> kv_ok (options_ db) k [] -> Z.of_nat (length (log_entries segs)) < 2 ^ 30 ->
  exists st db' segs' a' w', Delete (Bytes_of_string k) (db, w) = (Ret st, (db', w'))
    /\ session db' segs' a' w' /\ options_ db' = options_ db /\ txn_id_ db' = txn_id_ db
    /\ contents_of a' = delete k (contents_of a)
    /\ (length (log_entries segs') <= S (length (log_entries segs)))%nat.
Proof.
  intros HS [Hk Hkn _ Hfit Htr] Hlen. pose proof HS as [[HI Hrun Hh Hp Ht] Ho Hne Hnext].
  unfold Delete. unfold empty_. cbn [Bytes_of_string size_].
  rewrite bool_decide_eq_false_2 by (by intros ?%nil_length_inv).
  rewrite (bind_Ret _ _ _ _ _ (index_Get_step k (vals a) db w Hh Hkn)).
  unfold key_text. rewrite to_str_of_string, bind_some.
  destruct (vals a !! k) as [pv|] eqn:Ek; cbn [fmap option_fmap option_map fst].
  2: { eexists _, db, segs, a, w. split; [reflexivity|]. split_and!; [done..| |lia].
       unfold contents_of. rewrite delete_id; [done|]. by rewrite lookup_fmap, Ek. }
  set (r := txn_record 0 k [] DeletedLogRecord).
  destruct (txn_record_ok 0 k [] DeletedLogRecord) as [Hr Hrl]; [done|lia|done|done|].
  destruct (append_session db segs a w r (fun p => mkAbs (delete k (vals a)) (pend a)
    (if 0 >? maxt a then 0 else maxt a))) as (db1 & w1 & segs1 & p & E & HI1 & Hs & Hne1 & Hrun1 & Hl1 & Hp1 & Hn1);
    [done|done|fold r in Hrl; lia|done| |].
  { intros p. unfold abs_step, r. rewrite txn_record_decode by (done || lia).
    cbn [mbind option_bind txn_record type]. unfold apply_update.
    by rewrite bool_decide_eq_true_2, decide_True by (by rewrite ?Ek; eauto). }
  assert (Hh1 : holds db1 (vals a)) by (unfold holds; by rewrite (sr_index _ _ Hs)).
  destruct (index_Delete_step k (vals a) db1 w1 Hh1 Hkn) as (i & Ei & Hh2).
  eexists _, (set_index i db1), segs1, _, w1. split; [|split; [|split_and!; [apply Hs|apply Hs| |]]].
  - rewrite txn_record_encode by (done || lia). rewrite bind_some. mstep E. mstep Ei.
    rewrite bool_decide_eq_true_2 by (rewrite Ek; eauto). reflexivity.
  - constructor; [|by rewrite <-(sr_options _ _ Hs) in Ho|done|done].
    constructor; [|exact Hrun1|exact Hh2|exact Hp1|].
    + destruct HI1. by constructor.
    + cbn. rewrite (sr_txn _ _ Hs). destruct Hp as [? _]. destruct (Z.gtb_spec 0 (maxt a)); lia.
  - unfold contents_of. cbn [vals]. by rewrite fmap_delete.
  - rewrite Hl1, length_app. simpl. lia.
Qed.

(** ** Reopening *)

Lemma Open_session db segs a w :
  session db segs a w -> Z.of_nat (length (log_entries segs)) < 2 ^ 30 ->
  exists db', Open (options_ db) false w = (Ret db', w) /\ session db' segs a w
    /\ options_ db' = options_ db /\ txn_id_ db' <= txn_id_ db.
Proof.
  intros [[HI Hrun Hh Hp Ht] Ho Hne Hnext] Hlen. pose proof (fi_disk _ _ _ HI) as Hd.
  destruct (Open_inv (options_ db) segs a w) as (db' & E & HI' & Eo & Et);
    [done|done|by eapply small_segs_count|done|done|].
  exists db'. split; [done|]. split; [|split; [done|]].
  - constructor; [done|by rewrite Eo|done|].
    rewrite (fi_next _ _ _ (di_files _ _ _ _ HI')), <-(fi_next _ _ _ HI). done.
  - rewrite Et. apply Ht.
Qed.

(** ** Batches *)

Lemma on_db_Ret {A} (m : D A) b s x s' : m s = (Ret x, s') -> on_db m (b, s) = (Ret x, (b, s')).
Proof. intros E. unfold on_db, zoom. cbn [snd]. by rewrite E. Qed.

Lemma get_batch_step {A} (f : WriteBatch -> B A) b s : (x ← get_batch; f x) (b, s) = f b (b, s).
Proof. done. Qed.

Lemma modify_batch_step {A} g (f : unit -> B A) b s : (x ← modify_batch g; f x) (b, s) = f tt (g b, s).
Proof. done. Qed.

(** The positions, the transaction's records and the values of a list of
    pending records appended at [ps]. *)
Definition txs (l : list (bytes * LogRecord)) (ps : list LogRecordPst) : list TxnRecord :=
  zip_with (fun kr p => mkTxnRecord (mkRecord kr.1 (value kr.2) (type kr.2)) p) l ps.
Definition pvs (l : list (bytes * LogRecord)) (ps : list LogRecordPst) : list (bytes * (LogRecordPst * bytes)) :=
  zip_with (fun kr p => (kr.1, (p, value kr.2))) l ps.

Fixpoint put_all (l : list (bytes * (LogRecordPst * bytes))) (m : gmap bytes (LogRecordPst * bytes)) :=
  match l with [] => m | (k, x) :: l => put_all l (<[k := x]> m) end.

Lemma apply_txn_puts l : forall ps m, Forall (fun kr => type kr.2 = NormalLogRecord) l ->
  apply_txn (txs l ps) m = Some (put_all (pvs l ps) m).
Proof.
  induction l as [|[k r] l IH]; intros [|p ps] m Hl; try done.
  apply Forall_cons in Hl as [Hr Hl]. cbn. cbn in Hr. rewrite Hr. cbn. by apply IH.
Qed.

Lemma put_all_union l : forall m, NoDup l.*1 -> put_all l m = list_to_map l ∪ m.
Proof.
  induction l as [|[k x] l IH]; intros m; cbn [fmap list_fmap put_all fst];
    [by rewrite list_to_map_nil, map_empty_union|].
  intros [Hk Hnd]%NoDup_cons. rewrite IH, list_to_map_cons by done.
  rewrite <-insert_union_r by (by apply not_elem_of_list_to_map_1).
  by rewrite insert_union_l.
Qed.

(** The appends of a commit. *)
Record pending_ok (o : Options) (kr : bytes * LogRecord) : Prop := {
  po_key : key kr.2 = kr.1;
  po_type : type kr.2 = NormalLogRecord;
  po_kv : kv_ok o kr.1 (value kr.2)
}.

Lemma abs_step_txn p k v a t :
  NUL ∉ k -> 0 < t < 2 ^ 28 ->
  abs_step (p, txn_record t k v NormalLogRecord) a
  = Some (mkAbs (vals a)
      (<[t := default [] (pend a !! t) ++ [mkTxnRecord (mkRecord k v NormalLogRecord) p]]> (pend a))
      (if t >? maxt a then t else maxt a)).
Proof.
  intros Hk Ht. unfold abs_step. rewrite txn_record_decode by (done || lia). cbn [mbind option_bind].
  unfold K_NON_TXN_ID. rewrite (proj2 (Z.eqb_neq t 0)) by lia.
  rewrite bool_decide_eq_false_2 by done. unfold u32. rewrite Z.mod_small by lia. done.
Qed.

(** What the pending records have become: only their keys matter now. *)
Definition written (t : Z) (kr : bytes * LogRecord) : bytes * LogRecord :=
  (kr.1, txn_record t kr.1 (value kr.2) NormalLogRecord).

Lemma written_keys t l : (written t <$> l).*1 = l.*1.
Proof. by rewrite <-list_fmap_compose. Qed.

Lemma commit_append_step t l : forall b db segs a w positions,
  session db segs a w -> txn_id_ db = t -> 0 < t < 2 ^ 28 ->
  Forall (pending_ok (options_ db)) l -> NoDup l.*1 -> Forall (fun kr => positions !! kr.1 = None) l ->
  Z.of_nat (length (log_entries segs) + length l) < 2 ^ 30 ->
  exists b' db' segs' a' w' ps,
    commit_append t l positions (b, (db, w)) = (Ret (list_to_map (zip l.*1 ps) ∪ positions), (b', (db', w')))
    /\ session db' segs' a' w' /\ same_rest db db' /\ length ps = length l
    /\ vals a' = vals a /\ default [] (pend a' !! t) = default [] (pend a !! t) ++ txs l ps
    /\ pending_writes_ b' = list_to_map (written t <$> l) ∪ pending_writes_ b
    /\ batch_options_ b' = batch_options_ b
    /\ length (log_entries segs') = (length (log_entries segs) + length l)%nat.
Proof.
  induction l as [|[k r] l IH]; intros b db segs a w positions HS Et Ht Hok Hnd Hnone Hlen.
  { exists b, db, segs, a, w, []. cbn [fmap list_fmap zip zip_with txs].
    rewrite !list_to_map_nil, !map_empty_union, app_nil_r. split_and!; (done || (cbn; lia)). }
  apply Forall_cons in Hok as [[Hkey Hty [Hk Hkn Hvn Hfit Htr]] Hok]. cbn [fst snd] in *.
  apply NoDup_cons in Hnd as [Hkl Hnd]. apply Forall_cons in Hnone as [Hnk Hnone]. cbn [fst] in Hnk.
  cbn [commit_append]. rewrite Hkey, txn_record_encode, bind_some by (done || lia). rewrite Hty.
  fold (txn_record t k (value r) NormalLogRecord). rewrite modify_batch_step.
  destruct (txn_record_ok t k (value r) NormalLogRecord) as [Hr Hrl]; [done|lia|done|done|].
  pose proof HS as [[HI Hrun Hh Hp Htx] Ho Hne Hnext]. cbn [length] in Hlen.
  destruct (append_session db segs a w _ _ HS Hr ltac:(lia) ltac:(lia)
    (fun p => abs_step_txn p k (value r) a t Hkn Ht))
    as (db1 & w1 & segs1 & p & E & HI1 & Hs & Hne1 & Hrun1 & Hl1 & Hp1 & Hn1).
  rewrite (bind_Ret _ _ _ _ _ (on_db_Ret _ _ _ _ _ E)).
  assert (HS1 : session db1 segs1 (mkAbs (vals a)
    (<[t := default [] (pend a !! t) ++ [mkTxnRecord (mkRecord k (value r) NormalLogRecord) p]]> (pend a))
    (if t >? maxt a then t else maxt a)) w1).
  { constructor; [|by rewrite (sr_options _ _ Hs)|done|done]. constructor; [done|done| |done|].
    - unfold holds. rewrite (sr_index _ _ Hs). exact Hh.
    - rewrite (sr_txn _ _ Hs), Et. cbn. destruct (Z.gtb_spec t (maxt a)); lia. }
  destruct (IH (set_pending (<[k := txn_record t k (value r) NormalLogRecord]> (pending_writes_ b)) b)
    db1 segs1 _ w1 (emplace k p positions) HS1) as (b' & db' & segs' & a' & w' & ps & E2 & HS2 & Hs2 & Hps & Hv2 & Hq2 & Hb2 & Hbo & Hl2).
  { by rewrite (sr_txn _ _ Hs). } { done. } { by rewrite (sr_options _ _ Hs). } { done. }
  { unfold emplace. rewrite Hnk. apply Forall_forall. intros kr Hin.
    rewrite lookup_insert_ne; [by apply (proj1 (Forall_forall _ _) Hnone)|].
    intros ->. apply Hkl. apply list_elem_of_fmap. by exists kr. }
  { rewrite Hl1, length_app. cbn. lia. }
  exists b', db', segs', a', w', (p :: ps).
  assert (Hnl : list_to_map (M := gmap bytes LogRecordPst) (zip l.*1 ps) !! k = None).
  { apply not_elem_of_list_to_map_1. rewrite fst_zip by (rewrite length_fmap; lia). done. }
  split_and!; [| done|by etrans|cbn; lia|done| | |by rewrite Hbo|].
  - etrans; [exact E2|]. unfold emplace. rewrite Hnk.
    cbn [fmap list_fmap fst zip zip_with]. rewrite list_to_map_cons.
    by rewrite <-insert_union_r, insert_union_l by done.
  - rewrite Hq2. cbn [pend]. rewrite lookup_insert_eq. cbn [from_option id].
    rewrite <-app_assoc.
    unfold txs. cbn. by rewrite Hty.
  - change (written t <$> (k, r) :: l)
      with ((k, txn_record t k (value r) NormalLogRecord) :: (written t <$> l)).
    rewrite Hb2, list_to_map_cons. cbn [set_pending pending_writes_].
    rewrite <-insert_union_r, insert_union_l; [done|].
    apply not_elem_of_list_to_map_1. rewrite written_keys. exact Hkl.
  - rewrite Hl2, Hl1, length_app. cbn. lia.
Qed.

(** The index updates of a commit; they depend on the keys alone. *)
Definition put_of (positions : gmap bytes LogRecordPst) (vs : bytes -> bytes) (k : bytes)
    : bytes * (LogRecordPst * bytes) :=
  (k, (default inhabitant (positions !! k), vs k)).

Lemma commit_index_step positions vs l : forall b db w m,
  holds db m ->
  Forall (fun kr => type kr.2 = NormalLogRecord /\ (NUL ∉ kr.1) /\ is_Some (positions !! kr.1)) l ->
  exists i, commit_index positions l (b, (db, w)) = (Ret tt, (b, (set_index i db, w)))
    /\ holds (set_index i db) (put_all (put_of positions vs <$> l.*1) m).
Proof.
  induction l as [|[k r] l IH]; intros b db w m Hh Hl.
  { exists (index_ db). by rewrite set_index_same. }
  apply Forall_cons in Hl as [(Hty & Hkn & [p Hp]) Hl]. cbn [fst snd commit_index] in *.
  rewrite Hp, bind_some, Hty, bind_assoc.
  destruct (index_Put_step k p (vs k) m db w Hh Hkn) as (i & Ei & Hh').
  mstep (on_db_Ret _ b _ _ _ Ei). destruct (IH b _ w _ Hh' Hl) as (j & Ej & Hj). exists j.
  split; [exact Ej|]. cbn. unfold put_of at 1. by rewrite Hp.
Qed.

Lemma items_perm {A} (m : gmap bytes A) : items m ≡ₚ map_to_list m.
Proof. apply merge_sort_Permutation. Qed.

Lemma items_elem {A} (m : gmap bytes A) k x : (k, x) ∈ items m <-> m !! k = Some x.
Proof. rewrite items_perm. apply elem_of_map_to_list. Qed.

Lemma items_nodup {A} (m : gmap bytes A) : NoDup (items m).*1.
Proof. rewrite items_perm. apply NoDup_fst_map_to_list. Qed.

Lemma items_map {A} (m : gmap bytes A) : list_to_map (items m) = m.
Proof.
  rewrite (list_to_map_proper _ (map_to_list m)); [apply list_to_map_to_list|apply items_nodup|apply items_perm].
Qed.

Lemma items_length {A} (m : gmap bytes A) : length (items m) = size m.
Proof. rewrite items_perm. apply length_map_to_list. Qed.

Lemma pvs_put_of (pending : gmap bytes LogRecord) l ps :
  (forall k r, (k, r) ∈ l -> pending !! k = Some r) -> NoDup l.*1 -> length ps = length l ->
  pvs l ps = put_of (list_to_map (zip l.*1 ps)) (fun k => default [] (value <$> pending !! k)) <$> l.*1.
Proof.
  intros Hl Hnd Hlen. apply list_eq. intros i. unfold pvs. rewrite lookup_zip_with, !list_lookup_fmap.
  destruct (l !! i) as [[k r]|] eqn:El; [|done]. cbn.
  destruct (lookup_lt_is_Some_2 ps i) as [p Ep].
  { rewrite Hlen. by apply lookup_lt_is_Some_1; eexists. }
  rewrite Ep. cbn. unfold put_of. rewrite (Hl k r) by (by eapply list_elem_of_lookup_2).
  rewrite (elem_of_list_to_map_1 _ k p); [done| |].
  - rewrite fst_zip; [done|]. rewrite length_fmap. lia.
  - apply list_elem_of_lookup. exists i. rewrite lookup_zip_with, list_lookup_fmap, El, Ep. done.
Qed.

Definition batch_values (pending : gmap bytes LogRecord) : gmap bytes bytes := value <$> pending.

Lemma pvs_values (pending : gmap bytes LogRecord) ps : length ps = size pending ->
  snd <$> (list_to_map (pvs (items pending) ps) : gmap bytes (LogRecordPst * bytes)) = batch_values pending.
Proof.
  intros Hlen. rewrite <-list_to_map_fmap. unfold batch_values.
  rewrite <-(items_map pending) at 2. rewrite <-list_to_map_fmap. f_equal.
  rewrite <-items_length in Hlen. unfold pvs. revert ps Hlen.
  generalize (items pending) as l. induction l as [|[k r] l IH]; intros [|p ps] Hlen; try done.
  cbn in *. f_equal. apply IH. lia.
Qed.

Lemma session_set_txn db segs a w t :
  session db segs a w -> maxt a <= t < 2 ^ 28 -> session (set_txn_id t db) segs a w.
Proof.
  intros [[[? ? ? ?] ? ? ? ?] ? ? ?] Ht. constructor; [|done|done|done]. constructor; try done.
Qed.

Lemma finish_record_ok o t : 0 < t < 2 ^ 28 -> 31 <= data_file_size o ->
  record_ok (txn_record t K_TXN_FINISHED_KEY [] TxnFinishedLogRecord)
  /\ Z.of_nat (length (EncodeLogRecord (txn_record t K_TXN_FINISHED_KEY [] TxnFinishedLogRecord)))
     <= data_file_size o.
Proof.
  intros Ht Ho. destruct (txn_record_ok t K_TXN_FINISHED_KEY [] TxnFinishedLogRecord) as [Hr Hl];
    [vm_decide|lia|done|vm_compute; congruence|]. split; [done|].
  change (Z.of_nat (length K_TXN_FINISHED_KEY) + Z.of_nat (length (@nil byte)) + 19) with 31 in Hl. lia.
Qed.

Lemma abs_step_finish p a t :
  0 < t < 2 ^ 28 ->
  abs_step (p, txn_record t K_TXN_FINISHED_KEY [] TxnFinishedLogRecord) a
  = (m ← apply_txn (default [] (pend a !! t)) (vals a);
     Some (mkAbs m (delete t (pend a)) (if t >? maxt a then t else maxt a))).
Proof.
  intros Ht. unfold abs_step. rewrite txn_record_decode by (lia || vm_decide). cbn [mbind option_bind].
  unfold K_NON_TXN_ID. rewrite (proj2 (Z.eqb_neq t 0)) by lia. cbn [txn_record type].
  rewrite bool_decide_eq_true_2 by done. unfold u32. rewrite Z.mod_small by lia.
  by destruct (apply_txn _ _).
Qed.

Lemma items_written (t : Z) (P : gmap bytes LogRecord) :
  items ((list_to_map (written t <$> items P) : gmap bytes LogRecord) ∪ P) ≡ₚ written t <$> items P.
Proof.
  assert (E : (list_to_map (written t <$> items P) : gmap bytes LogRecord) ∪ P
    = list_to_map (written t <$> items P)).
  { apply map_eq. intros k. rewrite lookup_union.
    destruct ((list_to_map (written t <$> items P) : gmap bytes LogRecord) !! k) eqn:Ek; [by destruct (P !! k)|].
    destruct (P !! k) as [r|] eqn:Er; [|done]. exfalso.
    apply not_elem_of_list_to_map in Ek. apply Ek. rewrite written_keys.
    apply list_elem_of_fmap. exists (k, r). split; [done|]. by apply items_elem. }
  rewrite E, items_perm. apply map_to_list_to_map. rewrite written_keys. apply items_nodup.
Qed.

(** The second half of a commit: the finish record and the index. *)
Lemma commit_finish b db segs a w t P ps :
  session db segs a w -> txn_id_ db = t -> 0 < t < 2 ^ 28 -> maxt a <= t ->
  31 <= data_file_size (options_ db) ->
  map_Forall (fun k r => pending_ok (options_ db) (k, r)) P -> length ps = size P ->
  default [] (pend a !! t) = txs (items P) ps ->
  pending_writes_ b = list_to_map (written t <$> items P) ∪ P ->
  Z.of_nat (length (log_entries segs)) < 2 ^ 30 ->
  exists b' db' segs' a' w',
    (on_db (AppendLogRecord (txn_record t K_TXN_FINISHED_KEY [] TxnFinishedLogRecord));;
     b ← get_batch;
     commit_index (list_to_map (zip (items P).*1 ps)) (items (pending_writes_ b));;
     modify_batch (fun b => mkBatch (batch_options_ b) (pending_writes_ b) true (rollbacked_ b));;
     mret Status_Ok) (b, (db, w)) = (Ret Status_Ok, (b', (db', w')))
    /\ session db' segs' a' w' /\ options_ db' = options_ db /\ txn_id_ db' = t
    /\ contents_of a' = batch_values P ∪ contents_of a
    /\ length (log_entries segs') = S (length (log_entries segs)).
Proof.
  intros HS Etx Ht Hmt Hds Hok Hps Hq Hb Hlen. pose proof HS as [[HI Hrun Hh Hp _] Ho _ _].
  set (l := items P) in *.
  assert (Htypes : Forall (fun kr => type kr.2 = NormalLogRecord) l).
  { apply Forall_forall. intros [k r] Hin%items_elem. apply (Hok k r Hin). }
  assert (Hpsl : length ps = length l) by (unfold l; by rewrite items_length).
  assert (Hpv : pvs l ps = put_of (list_to_map (zip l.*1 ps)) (fun k => default [] (value <$> P !! k)) <$> l.*1).
  { apply pvs_put_of; [|apply items_nodup|done]. intros k r. apply items_elem. }
  assert (Hpk : (pvs l ps).*1 = l.*1) by (rewrite Hpv, <-list_fmap_compose; apply list_fmap_id).
  destruct (finish_record_ok (options_ db) t) as [Hfr Hfl]; [lia|done|].
  destruct (append_session db segs a w _ (fun _ => mkAbs (put_all (pvs l ps) (vals a)) (delete t (pend a))
    (if t >? maxt a then t else maxt a)) HS Hfr Hfl Hlen)
    as (db2 & w2 & segs2 & p & E2 & HI2 & Hs2 & Hne2 & Hrun2 & Hl2 & Hp2 & Hn2).
  { intros p. rewrite abs_step_finish by lia. by rewrite Hq, apply_txn_puts. }
  mstep (on_db_Ret _ b _ _ _ E2). rewrite get_batch_step.
  assert (Hh2 : holds db2 (vals a)) by (unfold holds; by rewrite (sr_index _ _ Hs2)).
  assert (Hitems : items (pending_writes_ b) ≡ₚ written t <$> l) by (rewrite Hb; apply items_written).
  destruct (commit_index_step (list_to_map (zip l.*1 ps)) (fun k => default [] (value <$> P !! k))
    (items (pending_writes_ b)) b db2 w2 (vals a) Hh2) as (i & E3 & Hh3).
  { rewrite Hitems. apply Forall_fmap, Forall_forall. intros [k r] Hin. cbn. split; [done|].
    split; [apply (Hok k r), items_elem, Hin|]. destruct (list_to_map _ !! k) eqn:Ek; [by eexists|].
    apply not_elem_of_list_to_map in Ek. rewrite fst_zip in Ek by (rewrite length_fmap; lia).
    exfalso. apply Ek, list_elem_of_fmap. by exists (k, r). }
  mstep E3. rewrite modify_batch_step. eexists _, (set_index i db2), segs2, _, w2.
  split; [reflexivity|]. split; [|split_and!; [apply Hs2|by rewrite <-Etx; apply Hs2| |]].
  - constructor; [|by rewrite <-(sr_options _ _ Hs2) in Ho|done|done].
    constructor; [by destruct HI2|exact Hrun2| |exact Hp2|].
    + cbn [vals]. revert Hh3. rewrite !put_all_union, Hpv.
      * rewrite (list_to_map_proper _ (put_of (list_to_map (zip l.*1 ps)) (fun k => default [] (value <$> P !! k)) <$> l.*1));
          [done| |].
        -- rewrite <-list_fmap_compose, list_fmap_id. apply items_nodup.
        -- apply fmap_Permutation. rewrite Hitems, written_keys. done.
      * rewrite Hpk. apply items_nodup.
      * rewrite <-list_fmap_compose, list_fmap_id. apply items_nodup.
    + cbn. rewrite (sr_txn _ _ Hs2), Etx. destruct (Z.gtb_spec t (maxt a)); lia.
  - unfold contents_of. cbn [vals]. rewrite put_all_union by (rewrite Hpk; apply items_nodup).
    rewrite map_fmap_union. unfold l. by rewrite pvs_values.
  - rewrite Hl2, length_app. cbn. lia.
Qed.

Lemma Commit_session b db segs a w :
  session db segs a w -> txn_id_ db + 1 < 2 ^ 28 -> 31 <= data_file_size (options_ db) ->
  map_Forall (fun k r => pending_ok (options_ db) (k, r)) (pending_writes_ b) ->
  Z.of_nat (size (pending_writes_ b)) <= max_batch_num (batch_options_ b) ->
  Z.of_nat (length (log_entries segs) + size (pending_writes_ b)) + 1 < 2 ^ 30 ->
  exists b' db' segs' a' w', Commit (b, (db, w)) = (Ret Status_Ok, (b', (db', w')))
    /\ session db' segs' a' w' /\ options_ db' = options_ db /\ txn_id_ db' <= txn_id_ db + 1
    /\ contents_of a' = batch_values (pending_writes_ b) ∪ contents_of a
    /\ (length (log_entries segs') <= length (log_entries segs) + size (pending_writes_ b) + 1)%nat.
Proof.
  intros HS Htx Hds Hok Hmax Hlen. pose proof HS as [[HI Hrun Hh Hp Ht] Ho Hne Hnext].
  set (P := pending_writes_ b) in *. set (t := txn_id_ db + 1). set (l := items P).
  unfold Commit. rewrite get_batch_step. fold P. destruct (decide (size P = 0%nat)) as [Hz|Hz].
  { exists b, db, segs, a, w. split; [done|]. split_and!; [done|done|lia| |lia].
    apply map_size_empty_inv in Hz. unfold batch_values. by rewrite Hz, fmap_empty, map_empty_union. }
  destruct (Z.gtb_spec (Z.of_nat (size P)) (max_batch_num (batch_options_ b))); [lia|].
  set (db0 := set_txn_id t db). destruct Hp as [Hm0 Hpm].
  assert (Et : set_txn_id (u64 (txn_id_ db + 1)) db = db0)
    by (unfold db0, t, u64; by rewrite Z.mod_small by lia).
  assert (Emod : modify_db (fun db => set_txn_id (u64 (txn_id_ db + 1)) db) (db, w) = (Ret tt, (db0, w)))
    by (rewrite <-Et; done).
  mstep (on_db_Ret _ b _ _ _ Emod).
  assert (Eget : get_db (db0, w) = (Ret db0, (db0, w))) by done.
  mstep (on_db_Ret _ b _ _ _ Eget). cbv zeta. change (txn_id_ db0) with t. fold l.
  assert (HS0 : session db0 segs a w) by (apply session_set_txn; [done|lia]).
  destruct (commit_append_step t l b db0 segs a w ∅ HS0) as
    (b1 & db1 & segs1 & a1 & w1 & ps & E1 & HS1 & Hs1 & Hps & Hv1 & Hq1 & Hb1 & _ & Hl1).
  { done. } { lia. }
  { apply Forall_forall. intros [k r] Hin%items_elem. exact (Hok k r Hin). }
  { apply items_nodup. } { by apply Forall_forall. }
  { unfold l. rewrite items_length. lia. }
  rewrite map_union_empty in E1. mstep E1. rewrite txn_record_encode, bind_some by (lia || vm_decide).
  fold (txn_record t K_TXN_FINISHED_KEY [] TxnFinishedLogRecord).
  assert (Hpend0 : pend a !! t = None).
  { destruct (pend a !! t) as [q|] eqn:Eq; [|done]. destruct (Hpm _ _ Eq) as [_ Hle]. lia. }
  rewrite Hpend0 in Hq1. cbn [from_option id app] in Hq1. change (length l) with (length (items P)) in Hps.
  rewrite items_length in Hps.
  destruct (commit_finish b1 db1 segs1 a1 w1 t P ps HS1) as (b2 & db2 & segs2 & a2 & w2 & E2 & HS2 & Ho2 & Ht2 & Hc2 & Hl2).
  { by rewrite (sr_txn _ _ Hs1). } { lia. }
  { pose proof (di_txn _ _ _ _ (ss_inv _ _ _ _ HS1)) as Hd. rewrite (sr_txn _ _ Hs1) in Hd. cbn in Hd. lia. }
  { by rewrite (sr_options _ _ Hs1). } { by rewrite (sr_options _ _ Hs1). } { done. } { done. } { done. }
  { rewrite Hl1. unfold l. rewrite items_length. lia. }
  exists b2, db2, segs2, a2, w2. split; [exact E2|]. split_and!; [done| |lia| |].
  - by rewrite Ho2, (sr_options _ _ Hs1).
  - rewrite Hc2. unfold contents_of. by rewrite Hv1.
  - rewrite Hl2, Hl1. unfold l. rewrite items_length. lia.
Qed.
End spec.
