(* ===== verification/DBTheorems.v ===== *)
(** * What the storage engine promises

    Whole sessions of a client: any sequence of Put, Get, Delete, batches and
    reopening of the directory answers as a finite map does. *)

From S2P Require Import Prelude Coding Strings Bytes Status LogRecord FileIO DataFile.
From S2P Require Import SkipList Index DB DBFiles DBReplay DBOpen Batch DBSpec.
Local Open Scope Z_scope.

Section sessions.
Context `{Crc32cLib} `{RandomEngine} `{DirOrder}.

(** ** Clients *)

Inductive db_op :=
| OpPut (k v : bytes) | OpGet (k : bytes) | OpDelete (k : bytes)
| OpBatch (kvs : list (bytes * bytes)) | OpReopen
| OpCrash (kvs : list (bytes * bytes)) (n : nat).

(** Done, or the value a Get found. *)
Inductive db_answer := ADone | AValue (v : option bytes).

(** A Get whose NotFound is an answer. *)
Definition try_get (k : bytes) : D db_answer := fun s =>
  match Get (Bytes_of_string k) false s with
  | (Ret v, s') => (Ret (AValue (Some v)), s')
  | (Throw e, s') => (if IsNotFound e then Ret (AValue None) else Throw e, s')
  | (Undef u, s') => (Undef u, s')
  end.

Fixpoint batch_puts (kvs : list (bytes * bytes)) : B unit :=
  match kvs with
  | [] => mret tt
  | (k, v) :: kvs => WriteBatch_Put (Bytes_of_string k) (Bytes_of_string v);; batch_puts kvs
  end.

Definition in_batch {A} (b : WriteBatch) (m : B A) : D A := fun s =>
  let '(r, (_, s')) := m (b, s) in (r, s').

(** A new batch of puts, committed. *)
Definition run_batch (kvs : list (bytes * bytes)) : D Status :=
  b ← NewWriteBach false DefaultWriteBatchOptions;
  in_batch b (batch_puts kvs;; Commit).

(** Closing the database and opening the directory again. *)
Definition reopen : D unit := fun s =>
  match Open (options_ s.1) false s.2 with
  | (Ret db, w) => (Ret tt, (db, w))
  | (Throw e, w) => (Throw e, (s.1, w))
  | (Undef u, w) => (Undef u, (s.1, w))
  end.

(** A commit that the process does not survive: [n] records were appended, the
    finish record was not. *)
Definition interrupted_commit (n : nat) : B unit :=
  b ← get_batch;
  on_db (modify_db (fun db => set_txn_id (u64 (txn_id_ db + 1)) db));;
  db ← on_db get_db;
  commit_append (txn_id_ db) (take n (items (pending_writes_ b))) ∅;;
  mret tt.

Definition run_crash (kvs : list (bytes * bytes)) (n : nat) : D unit :=
  b ← NewWriteBach false DefaultWriteBatchOptions;
  in_batch b (batch_puts kvs;; interrupted_commit n);;
  reopen.

Definition run_db_op (o : db_op) : D db_answer :=
  match o with
  | OpPut k v => Put (Bytes_of_string k) (Bytes_of_string v);; mret ADone
  | OpGet k => try_get k
  | OpDelete k => Delete (Bytes_of_string k);; mret ADone
  | OpBatch kvs => run_batch kvs;; mret ADone
  | OpReopen => reopen;; mret ADone
  | OpCrash kvs n => run_crash kvs n;; mret ADone
  end.

Fixpoint run_db_ops (os : list db_op) : D (list db_answer) :=
  match os with
  | [] => mret []
  | o :: os => a ← run_db_op o; l ← run_db_ops os; mret (a :: l)
  end.

(** ** The specification *)

(** In a batch the first value of a key wins ([std::map::emplace]). *)
Definition spec_db_op (o : db_op) (m : gmap bytes bytes) : db_answer * gmap bytes bytes :=
  match o with
  | OpPut k v => (ADone, <[k := v]> m)
  | OpGet k => (AValue (m !! k), m)
  | OpDelete k => (ADone, delete k m)
  | OpBatch kvs => (ADone, list_to_map kvs ∪ m)
  | OpReopen => (ADone, m)
  | OpCrash _ _ => (ADone, m)
  end.

Fixpoint spec_db_ops (os : list db_op) (m : gmap bytes bytes) : list db_answer :=
  match os with
  | [] => []
  | o :: os => let '(a, m) := spec_db_op o m in a :: spec_db_ops os m
  end.

(** What the client keeps to: keys are not empty and NUL-free, values NUL-free,
    a record (and the finish record of a batch) fits a data file, a batch has at
    most 100 entries. *)
Definition op_ok (opts : Options) (o : db_op) : Prop :=
  match o with
  | OpPut k v => kv_ok opts k v
  | OpGet k => k ≠ [] /\ (NUL ∉ k)
  | OpDelete k => kv_ok opts k []
  | OpBatch kvs => Forall (fun kv => kv_ok opts kv.1 kv.2) kvs /\ (length kvs <= 100)%nat
      /\ 31 <= data_file_size opts
  | OpReopen => True
  | OpCrash kvs _ => Forall (fun kv => kv_ok opts kv.1 kv.2) kvs
  end.

(** Records an operation may append. *)
Definition op_weight (o : db_op) : nat :=
  match o with OpBatch kvs | OpCrash kvs _ => S (length kvs) | _ => 1%nat end.

Definition weight (os : list db_op) : nat := sum_list (op_weight <$> os).

(** ** Steps *)

Lemma emplace_union {A} k (x : A) m : emplace k x m = m ∪ {[ k := x ]}.
Proof.
  unfold emplace. apply map_eq. intros j. rewrite lookup_union.
  destruct (m !! k) eqn:E; destruct (decide (j = k)) as [->|Hj].
  - by rewrite E, lookup_singleton_eq.
  - rewrite lookup_singleton_ne by done. by destruct (m !! j).
  - by rewrite lookup_insert_eq, E, lookup_singleton_eq.
  - rewrite lookup_insert_ne, lookup_singleton_ne by done. by destruct (m !! j).
Qed.

Lemma batch_puts_step opts kvs : forall b s,
  Forall (fun kv => kv_ok opts kv.1 kv.2) kvs ->
  map_Forall (fun k r => pending_ok opts (k, r)) (pending_writes_ b) ->
  exists b', batch_puts kvs (b, s) = (Ret tt, (b', s))
    /\ map_Forall (fun k r => pending_ok opts (k, r)) (pending_writes_ b')
    /\ batch_values (pending_writes_ b') = batch_values (pending_writes_ b) ∪ list_to_map kvs
    /\ batch_options_ b' = batch_options_ b
    /\ (size (pending_writes_ b') <= size (pending_writes_ b) + length kvs)%nat.
Proof.
  induction kvs as [|[k v] kvs IH]; intros b s Hok Hb.
  { exists b. rewrite list_to_map_nil, map_union_empty. split_and!; (done || lia). }
  apply Forall_cons in Hok as [Hkv Hok]. pose proof Hkv as [Hk Hkn Hvn _ _]. cbn [fst snd] in *.
  set (b1 := set_pending (emplace k (mkRecord k v NormalLogRecord) (pending_writes_ b)) b).
  assert (E1 : WriteBatch_Put (Bytes_of_string k) (Bytes_of_string v) (b, s) = (Ret Status_Ok, (b1, s))).
  { unfold WriteBatch_Put, empty_. cbn [Bytes_of_string size_].
    rewrite bool_decide_eq_false_2 by (by intros ?%nil_length_inv).
    by rewrite !c_str_of_string, !bind_some by done. }
  assert (Hb1 : map_Forall (fun k r => pending_ok opts (k, r)) (pending_writes_ b1)).
  { cbn. unfold emplace. destruct (_ !! k); [done|]. by apply map_Forall_insert_2. }
  assert (Hsz : (size (pending_writes_ b1) <= S (size (pending_writes_ b)))%nat).
  { cbn. unfold emplace. destruct (_ !! k) eqn:E; [lia|]. by rewrite map_size_insert_None. }
  destruct (IH b1 s Hok Hb1) as (b' & E2 & Hb2 & Hv2 & Ho2 & Hs2).
  exists b'. cbn [batch_puts]. rewrite (bind_Ret _ _ _ _ _ E1). split_and!; [done|done| |done|cbn; lia].
  rewrite Hv2. unfold b1. cbn [set_pending pending_writes_]. rewrite emplace_union. unfold batch_values.
  rewrite map_fmap_union, map_fmap_singleton, <-(assoc_L _), list_to_map_cons.
  by rewrite insert_union_singleton_l.
Qed.

Lemma run_batch_session db segs a w kvs :
  session db segs a w -> op_ok (options_ db) (OpBatch kvs) -> txn_id_ db + 1 < 2 ^ 28 ->
  Z.of_nat (length (log_entries segs) + S (length kvs)) < 2 ^ 30 ->
  exists st db' segs' a' w', run_batch kvs (db, w) = (Ret st, (db', w'))
    /\ session db' segs' a' w' /\ options_ db' = options_ db /\ txn_id_ db' <= txn_id_ db + 1
    /\ contents_of a' = list_to_map kvs ∪ contents_of a
    /\ (length (log_entries segs') <= length (log_entries segs) + S (length kvs))%nat.
Proof.
  intros HS (Hkvs & Hn & Hds) Ht Hlen. set (b0 := mkBatch DefaultWriteBatchOptions ∅ false false).
  destruct (batch_puts_step (options_ db) kvs b0 (db, w) Hkvs (map_Forall_empty _))
    as (b1 & E1 & Hb1 & Hv1 & Ho1 & Hs1).
  change (pending_writes_ b0) with (∅ : gmap bytes LogRecord) in Hs1, Hv1. rewrite map_size_empty in Hs1.
  assert (Hval : batch_values (pending_writes_ b1) = list_to_map kvs).
  { rewrite Hv1. unfold batch_values. by rewrite fmap_empty, map_empty_union. }
  destruct (Commit_session b1 db segs a w HS Ht Hds Hb1) as (b2 & db2 & segs2 & a2 & w2 & E2 & HS2 & Ho2 & Ht2 & Hc2 & Hl2).
  { rewrite Ho1. cbn. lia. } { lia. }
  exists Status_Ok, db2, segs2, a2, w2. split_and!; [|done|done|done| |lia].
  - unfold run_batch, NewWriteBach. autorewrite with monad. fold b0. unfold in_batch.
    rewrite (bind_Ret _ _ _ _ _ E1). exact (f_equal (fun x => let '(r, (_, s')) := x in (r, s')) E2).
  - by rewrite Hc2, Hval.
Qed.

Lemma reopen_session db segs a w :
  session db segs a w -> Z.of_nat (length (log_entries segs)) < 2 ^ 30 ->
  exists db', reopen (db, w) = (Ret tt, (db', w)) /\ session db' segs a w
    /\ options_ db' = options_ db /\ txn_id_ db' <= txn_id_ db.
Proof.
  intros HS Hlen. destruct (Open_session db segs a w HS Hlen) as (db' & E & HS' & Ho & Ht).
  exists db'. split_and!; try done. unfold reopen. cbn [fst snd]. by rewrite E.
Qed.

Lemma interrupted_session b db segs a w n :
  session db segs a w -> txn_id_ db + 1 < 2 ^ 28 ->
  map_Forall (fun k r => pending_ok (options_ db) (k, r)) (pending_writes_ b) ->
  Z.of_nat (length (log_entries segs) + size (pending_writes_ b)) < 2 ^ 30 ->
  exists b' db' segs' a' w', interrupted_commit n (b, (db, w)) = (Ret tt, (b', (db', w')))
    /\ session db' segs' a' w' /\ options_ db' = options_ db /\ txn_id_ db' = txn_id_ db + 1
    /\ contents_of a' = contents_of a
    /\ (length (log_entries segs') <= length (log_entries segs) + size (pending_writes_ b))%nat.
Proof.
  intros HS Ht Hb Hlen. pose proof HS as [[_ _ _ [Hm _] Htx] _ _ _].
  set (l := take n (items (pending_writes_ b))). set (t := txn_id_ db + 1).
  assert (Hsub : l `sublist_of` items (pending_writes_ b)) by apply sublist_take.
  assert (Hll : (length l <= size (pending_writes_ b))%nat) by (rewrite <-items_length; by apply sublist_length).
  assert (HS0 : session (set_txn_id t db) segs a w) by (apply session_set_txn; [done|lia]).
  destruct (commit_append_step t l b (set_txn_id t db) segs a w ∅ HS0) as
    (b1 & db1 & segs1 & a1 & w1 & ps & E1 & HS1 & Hs1 & _ & Hv1 & _ & _ & _ & Hl1).
  { done. } { lia. }
  { apply Forall_forall. intros [k r] Hin. apply (Hb k r), items_elem. by apply (elem_of_submseteq _ _ _ Hin), sublist_submseteq. }
  { unfold l. rewrite fmap_take. eapply sublist_NoDup; [apply (items_nodup (pending_writes_ b))|apply sublist_take]. }
  { by apply Forall_forall. } { lia. }
  exists b1, db1, segs1, a1, w1. split_and!; [|done|apply Hs1|by rewrite (sr_txn _ _ Hs1)| |lia].
  - unfold interrupted_commit. etrans; [apply (get_batch_step _ b (db, w))|]. cbv beta.
    assert (Emod : modify_db (fun db => set_txn_id (u64 (txn_id_ db + 1)) db) (db, w)
      = (Ret tt, (set_txn_id t db, w)))
      by (unfold modify_db, modify, t, u64; cbn [fst snd]; by rewrite Z.mod_small by lia).
    mstep (on_db_Ret _ b _ _ _ Emod).
    assert (Eget : get_db (set_txn_id t db, w) = (Ret (set_txn_id t db), (set_txn_id t db, w))) by done.
    mstep (on_db_Ret _ b _ _ _ Eget). change (txn_id_ (set_txn_id t db)) with t. fold l. by mstep E1.
  - unfold contents_of. by rewrite Hv1.
Qed.

Lemma run_crash_session db segs a w kvs n :
  session db segs a w -> Forall (fun kv => kv_ok (options_ db) kv.1 kv.2) kvs -> txn_id_ db + 1 < 2 ^ 28 ->
  Z.of_nat (length (log_entries segs) + length kvs) < 2 ^ 30 ->
  exists db' segs' a' w', run_crash kvs n (db, w) = (Ret tt, (db', w'))
    /\ session db' segs' a' w' /\ options_ db' = options_ db /\ txn_id_ db' <= txn_id_ db + 1
    /\ contents_of a' = contents_of a
    /\ (length (log_entries segs') <= length (log_entries segs) + length kvs)%nat.
Proof.
  intros HS Hkvs Ht Hlen. set (b0 := mkBatch DefaultWriteBatchOptions ∅ false false).
  destruct (batch_puts_step (options_ db) kvs b0 (db, w) Hkvs (map_Forall_empty _))
    as (b1 & E1 & Hb1 & _ & _ & Hs1).
  change (pending_writes_ b0) with (∅ : gmap bytes LogRecord) in Hs1. rewrite map_size_empty in Hs1.
  destruct (interrupted_session b1 db segs a w n HS Ht Hb1) as (b2 & db2 & segs2 & a2 & w2 & E2 & HS2 & Ho2 & Ht2 & Hc2 & Hl2); [lia|].
  destruct (reopen_session db2 segs2 a2 w2 HS2) as (db3 & E3 & HS3 & Ho3 & Ht3); [lia|].
  exists db3, segs2, a2, w2. split_and!; [|done|congruence|lia|done|lia].
  unfold run_crash, NewWriteBach. autorewrite with monad. fold b0.
  assert (Ein : in_batch b0 (batch_puts kvs;; interrupted_commit n) (db, w) = (Ret tt, (db2, w2))).
  { unfold in_batch. rewrite (bind_Ret _ _ _ _ _ E1).
    exact (f_equal (fun x => let '(r, (_, s')) := x in (r, s')) E2). }
  by rewrite (bind_Ret _ _ _ _ _ Ein).
Qed.

Lemma run_db_op_session o db segs a w n :
  session db segs a w -> op_ok (options_ db) o ->
  Z.of_nat (length (log_entries segs)) <= n -> txn_id_ db <= n -> n + Z.of_nat (op_weight o) < 2 ^ 28 ->
  exists db' segs' a' w', run_db_op o (db, w) = (Ret (spec_db_op o (contents_of a)).1, (db', w'))
    /\ session db' segs' a' w' /\ options_ db' = options_ db
    /\ contents_of a' = (spec_db_op o (contents_of a)).2
    /\ Z.of_nat (length (log_entries segs')) <= n + Z.of_nat (op_weight o)
    /\ txn_id_ db' <= n + Z.of_nat (op_weight o).
Proof.
  intros HS Hok Hlen Htx Hn. destruct o as [k v|k|k|kvs| |kvs n0]; cbn [run_db_op spec_db_op fst snd op_weight] in *.
  - destruct (Put_session db segs a w k v HS Hok) as (db' & segs' & a' & w' & E & HS' & Ho & Ht & Hc & Hl); [lia|].
    exists db', segs', a', w'. mstep E. split_and!; (done || lia).
  - destruct Hok as [Hk Hkn]. exists db, segs, a, w. split_and!; [|done..|lia|lia].
    unfold try_get. rewrite (Get_session db segs a w k false) by (done || lia). by destruct (contents_of a !! k).
  - destruct (Delete_session db segs a w k HS Hok) as (st & db' & segs' & a' & w' & E & HS' & Ho & Ht & Hc & Hl); [lia|].
    exists db', segs', a', w'. mstep E. split_and!; (done || lia).
  - destruct (run_batch_session db segs a w kvs HS Hok) as (st & db' & segs' & a' & w' & E & HS' & Ho & Ht & Hc & Hl);
      [lia|lia|]. exists db', segs', a', w'. mstep E. split_and!; (done || lia).
  - destruct (reopen_session db segs a w HS) as (db' & E & HS' & Ho & Ht); [lia|].
    exists db', segs, a, w. mstep E. split_and!; (done || lia).
  - destruct (run_crash_session db segs a w kvs n0 HS Hok) as (db' & segs' & a' & w' & E & HS' & Ho & Ht & Hc & Hl);
      [lia|lia|]. exists db', segs', a', w'. mstep E. split_and!; (done || lia).
Qed.

Lemma run_db_ops_session os : forall db segs a w n,
  session db segs a w -> Forall (op_ok (options_ db)) os ->
  Z.of_nat (length (log_entries segs)) <= n -> txn_id_ db <= n -> n + Z.of_nat (weight os) < 2 ^ 28 ->
  exists db' w', run_db_ops os (db, w) = (Ret (spec_db_ops os (contents_of a)), (db', w')).
Proof.
  induction os as [|o os IH]; intros db segs a w n HS Hok Hlen Htx Hn; cbn [run_db_ops spec_db_ops]; [by eexists _, _|].
  apply Forall_cons in Hok as [Ho Hok]. unfold weight in *. cbn in Hn.
  destruct (run_db_op_session o db segs a w n HS Ho Hlen Htx) as (db1 & segs1 & a1 & w1 & E1 & HS1 & Ho1 & Hc1 & Hl1 & Ht1); [lia|].
  mstep E1. destruct (spec_db_op o (contents_of a)) as [ans m]. cbn [fst snd] in *.
  destruct (IH db1 segs1 a1 w1 _ HS1 ltac:(by rewrite Ho1) Hl1 Ht1) as (db2 & w2 & E2); [lia|].
  mstep E2. exists db2, w2. by rewrite Hc1.
Qed.

(** An existing directory with nothing in it, on a host whose calls succeed. *)
Definition empty_dir (dir : bytes) (w : World) : Prop :=
  no_faults w /\ dir ∈ dirs w
  /\ map_Forall (fun p _ => entry_of dir p = None) (files w)
  /\ set_Forall (fun p => entry_of dir p = None) (dirs w).

Lemma empty_dir_disk dir w : empty_dir dir w -> disk_ok dir [] w.
Proof.
  intros (Hf & Hd & Hfiles & Hdirs). constructor; try done.
  - intros id rs Hin. by apply not_elem_of_nil in Hin.
  - intros p n [c Hc] En. specialize (Hfiles _ _ Hc). cbn in Hfiles. congruence.
  - constructor.
Qed.

(** A merge that does nothing at the end of Open. *)
Lemma open_with_merge merge o w db w' : open_with merge o false w = (Ret db, w') ->
  merge (db, w') = (Ret tt, (db, w')) -> open_with merge o true w = (Ret db, w').
Proof.
  unfold open_with. intros E Hm. minv E. rewrite (bind_Ret _ _ _ _ _ Hm0). minv E. rewrite (bind_Ret _ _ _ _ _ Hm1).
  minv E. rewrite (bind_Ret _ _ _ _ _ Hm2). unfold start in *.
  destruct ((LoadMergenceFiles;; LoadDataFiles;; LoadIndexFromHintFile;; LoadIndexFromDataFiles;; when false merge) _)
    as [r [db1 w1]] eqn:E1. destruct r as [[]| |]; simplify_eq. do 4 minv E1. injection E1 as ->.
  rewrite (bind_Ret _ _ _ _ _ Hm3), (bind_Ret _ _ _ _ _ Hm4), (bind_Ret _ _ _ _ _ Hm5), (bind_Ret _ _ _ _ _ Hm6).
  cbn [when]. by rewrite Hm.
Qed.

(** C1: On a host whose calls succeed, a session with the database answers as a finite
    map does: after Open on an empty directory, with or without the merge, any sequence of
    Put, Get, Delete, committed batches of Puts and reopenings of the directory without the
    merge returns Ok at every step and gives each Get the value the map has, for
    any of the three indexers, any random levels and any order in which the host lists the
    directory.  Keys and values hold no NUL, keys are not empty and a record fits a data
    file.  Reopening in the middle loses and resurrects nothing, and a batch whose
    commit stops after any number of its records, before the finish record, leaves
    no trace once the directory is opened again.  (What the merge and a batch's
    Delete do instead is in [open_after_merge_fails] and
    [batch_delete_dereferences_null].) *)
Theorem db_refines_map (o : Options) (w : World) (os : list db_op) :
  options_ok o -> empty_dir (dir_path o) w -> Forall (op_ok o) os -> Z.of_nat (weight os) < 2 ^ 28 ->
  exists db db' w', (forall merge_after_open, Open o merge_after_open w = (Ret db, w))
    /\ run_db_ops os (db, w) = (Ret (spec_db_ops os ∅), (db', w')).
Proof.
  intros Ho Hd Hos Hw.
  destruct (Open_inv o [] abs_init w Ho (empty_dir_disk _ _ Hd)) as (db & E & HI & Eo & Et);
    [constructor|constructor|done|].
  destruct (run_db_ops_session os db [] abs_init w 0) as (db' & w' & E').
  - constructor; [done|by rewrite Eo|constructor|]. rewrite (fi_next _ _ _ (di_files _ _ _ _ HI)). cbn. lia.
  - by rewrite Eo.
  - cbn. lia.
  - rewrite Et. cbn. lia.
  - lia.
  - exists db, db', w'. split.
    + intros []; [|done]. apply open_with_merge; [done|]. cbn [Merge merge_depth]. rewrite get_db_step.
      by rewrite (fi_active _ _ _ (di_files _ _ _ _ HI)).
    + rewrite E'. unfold contents_of. cbn [vals abs_init]. by rewrite fmap_empty.
Qed.

(** Deleting a key through a batch works only for keys the database does not
    have, where it drops the pending write; for a key that the database has,
    WriteBatch::Delete dereferences a null pointer, since it passes Get a null
    output parameter. *)
Lemma batch_delete_dereferences_null (o : Options) (w : World) (k v : bytes) (b : WriteBatch) :
  options_ok o -> empty_dir (dir_path o) w -> kv_ok o k v ->
  exists db, Open o false w = (Ret db, w)
    /\ WriteBatch_Delete (Bytes_of_string k) (b, (db, w))
       = (Ret Status_Ok, (set_pending (delete k (pending_writes_ b)) b, (db, w)))
    /\ exists db' w', Put (Bytes_of_string k) (Bytes_of_string v) (db, w) = (Ret Status_Ok, (db', w'))
    /\ WriteBatch_Delete (Bytes_of_string k) (b, (db', w')) = (Undef NullDeref, (b, (db', w'))).
Proof.
  intros Ho Hd Hkv. pose proof Hkv as [Hk Hkn _ _ _].
  destruct (Open_inv o [] abs_init w Ho (empty_dir_disk _ _ Hd)) as (db & E & HI & Eo & Et);
    [constructor|constructor|done|]. exists db. split; [done|].
  assert (HS : session db [] abs_init w).
  { constructor; [done|by rewrite Eo|constructor|]. rewrite (fi_next _ _ _ (di_files _ _ _ _ HI)). cbn. lia. }
  destruct (Put_session db [] abs_init w k v HS) as (db' & segs' & a' & w' & E' & HS' & Ho' & _ & Hc' & Hl');
    [by rewrite Eo|cbn; lia|].
  assert (Hempty : empty_ (Bytes_of_string k) = false)
    by (unfold empty_; cbn; rewrite bool_decide_eq_false_2; [done|by intros ?%nil_length_inv]).
  split; [|exists db', w'; split; [done|]]; unfold WriteBatch_Delete; rewrite Hempty.
  - assert (Es : status_of (Get (Bytes_of_string k) true) (db, w)
      = (Ret (NotFound (lit "index") (lit "index of key " ++ k ++ lit " not_found")), (db, w))).
    { unfold status_of. rewrite (Get_session db [] abs_init w k true HS Hk Hkn) by (cbn; lia). done. }
    mstep (on_db_Ret _ b _ _ _ Es). rewrite c_str_of_string, bind_some by done. done.
  - assert (Es : on_db (status_of (Get (Bytes_of_string k) true)) (b, (db', w'))
      = (Undef NullDeref, (b, (db', w')))).
    { unfold on_db, zoom, status_of. cbn [fst snd].
      rewrite (Get_session db' segs' a' w' k true HS' Hk Hkn) by (cbn in Hl'; lia).
      by rewrite Hc', lookup_insert_eq. }
    by rewrite (bind_Undef _ _ _ _ _ Es).
Qed.
End sessions.

(** ** Concrete sessions *)

Module Examples.
#[local] Existing Instance Reference.crc32c.
#[local] Existing Instance countdown_engine.
#[local] Instance listing_order : DirOrder := {| dir_order l := l; dir_order_perm l := reflexivity l |}.

Definition opts (size : Z) : Options := mkOptions (lit "/d") size false SkipListIndex.
Definition host : World := mkWorld ∅ {[ lit "/d" ]} [].

Lemma host_empty : empty_dir (lit "/d") host.
Proof. split_and!; [done|vm_decide|vm_decide|vm_decide]. Qed.

Lemma small_kv k v : bool_decide (k ≠ [] /\ (NUL ∉ k) /\ (NUL ∉ v)) = true ->
  Z.of_nat (length k) + Z.of_nat (length v) <= 40 -> kv_ok (opts 60) k v.
Proof.
  intros (H1 & H2 & H3)%bool_decide_eq_true Hl.
  constructor; [done..| |]; cbn; unfold K_MAX_TRANSFER; lia.
Qed.

Definition client : list db_op :=
  [OpPut (lit "a") (lit "1"); OpBatch [(lit "b", lit "2"); (lit "a", lit "3")]; OpGet (lit "a");
   OpCrash [(lit "c", lit "4"); (lit "b", lit "5")] 1; OpReopen; OpGet (lit "b"); OpGet (lit "c")].

Lemma db_refines_map_witness :
  exists db db' w', (forall merge_after_open, Open (opts 60) merge_after_open host = (Ret db, host))
    /\ run_db_ops client (db, host)
       = (Ret [ADone; ADone; AValue (Some (lit "3")); ADone; ADone; AValue (Some (lit "2")); AValue None], (db', w')).
Proof.
  apply (db_refines_map (opts 60) host client).
  - split; [done|cbn; lia].
  - apply host_empty.
  - repeat constructor; cbn [fst snd]; try (apply small_kv; [reflexivity|cbn; lia]); try (vm_decide || lia).
  - vm_compute. reflexivity.
Defined.

Lemma batch_delete_dereferences_null_witness :
  let b := mkBatch DefaultWriteBatchOptions ∅ false false in
  exists db db' w', Open (opts 60) false host = (Ret db, host)
    /\ Put (Bytes_of_string (lit "k")) (Bytes_of_string (lit "v")) (db, host) = (Ret Status_Ok, (db', w'))
    /\ WriteBatch_Delete (Bytes_of_string (lit "k")) (b, (db', w')) = (Undef NullDeref, (b, (db', w'))).
Proof.
  intros b.
  destruct (batch_delete_dereferences_null (opts 60) host (lit "k") (lit "v") b) as (db & E1 & _ & db' & w' & E2 & E3).
  - split; [done|cbn; lia].
  - apply host_empty.
  - apply small_kv; [reflexivity|cbn; lia].
  - exists db, db', w'. split; [exact E1|]. split; [exact E2|exact E3].
Defined.

(** Opening a directory and running a client on it: the answer and the host. *)
Definition session_on {A} (size : Z) (w : World) (m : D A) : outcome Status A * World :=
  match Open (opts size) false w with
  | (Ret db, w) => let '(r, (_, w)) := m (db, w) in (r, w)
  | (Throw e, w) => (Throw e, w)
  | (Undef u, w) => (Undef u, w)
  end.

Definition put_ (k v : bytes) : D Status := Put (Bytes_of_string k) (Bytes_of_string v).
Definition get_ (k : bytes) : D bytes := Get (Bytes_of_string k) false.

(** A first record larger than a data file is written to a second file and
    leaves the first one empty; reading an empty file is an error, so the
    directory can not be opened again. *)
Lemma oversized_first_record_blocks_open :
  let '(r, w) := session_on 5 host (put_ (lit "a") (lit "1");; get_ (lit "a")) in
  r = Ret (lit "1")
  /\ files w !! GetDataFileName (lit "/d") 0 = Some []
  /\ (Open (opts 5) false w).1
     = Throw (IOError (lit "Data::ReadLogRecord") (lit "file size equals zero.")).
Proof. vm_compute. split_and!; reflexivity. Qed.

(** After a finished Merge the next Open removes the merged data files and
    then renames every entry of the merge directory, [.] and [..] included; that
    fails, and the failed check makes a string of a null pointer.  The records
    of the removed files are left in the merge directory only. *)
Lemma open_after_merge_fails :
  let '(r, w) := session_on 25 host
    (put_ (lit "a") (lit "1");; put_ (lit "b") (lit "2");; put_ (lit "c") (lit "3");; Merge merge_depth) in
  r = Ret tt
  /\ files w !! GetDataFileName (lit "/d") 0 ≠ None
  /\ (Open (opts 25) false w).1 = Undef NullDeref
  /\ files (Open (opts 25) false w).2 !! GetDataFileName (lit "/d") 0 = None.
Proof. vm_compute. split_and!; first [reflexivity | discriminate]. Qed.

(** Commit keeps the pending writes with the keys it wrote them under, so
    committing a batch twice writes records whose keys carry two transaction
    ids, and a key nobody put appears once the directory is opened again. *)
Lemma second_commit_writes_ghost_keys :
  let ghost := z2b 1 :: lit "a" in
  let '(r, w) := session_on 100 host
    (in_batch (mkBatch DefaultWriteBatchOptions ∅ false false)
       (batch_puts [(lit "a", lit "1")];; Commit;; Commit);; get_ ghost) in
  r = Throw (NotFound (lit "index") (lit "index of key " ++ ghost ++ lit " not_found"))
  /\ (session_on 100 w (get_ ghost)).1 = Ret (lit "1").
Proof. vm_compute. split; reflexivity. Qed.

(** Merging a database whose keys were all deleted writes no record to the
    temporary database, which then has no active file for Sync to dereference. *)
Lemma merge_without_live_records :
  (session_on 100 host (put_ (lit "a") (lit "1");; Delete (Bytes_of_string (lit "a"));; Merge merge_depth)).1
  = Undef NullDeref.
Proof. vm_compute. reflexivity. Qed.

(** A host on which the last byte of every file was lost. *)
Definition torn (w : World) : World := set_files ((fun c => take (length c - 1) c) <$> files w) w.

(** A log whose last record is incomplete is not recovered: Open reads past
    the end of the bytes it got from the file. *)
Lemma torn_record_reads_out_of_bounds :
  let '(r, w) := session_on 100 host (put_ (lit "a") (lit "1");; put_ (lit "b") (lit "22")) in
  r = Ret Status_Ok /\ (Open (opts 100) false (torn w)).1 = Undef OutOfBounds.
Proof. vm_compute. split; reflexivity. Qed.
End Examples.
