(* ===== verification/Serializer.v ===== *)
(** * The binary serializer (src/bitdb/codec/serializer.h)

    A Serializer is a byte buffer with a read position.  The overloads of
    [serialize] and [deserialize] the source selects by type are values of
    [Codec] here, one per type, and the containers are combinators on them.
    [deserialize] fills an object that exists already, so it takes the object's
    old value: a type whose [deserialize] does nothing keeps it. *)

From S2P Require Import Prelude.

(** ** Little-endian integers *)

Fixpoint le_bytes (n : nat) (z : Z) : bytes :=
  match n with O => [] | S n => z2b z :: le_bytes n (z / 256)%Z end.

Fixpoint le_value (bs : bytes) : Z :=
  match bs with [] => 0 | b :: bs => b2z b + 256 * le_value bs end%Z.

Lemma le_bytes_length n z : length (le_bytes n z) = n.
Proof. revert z. induction n; intros; simpl; auto. Qed.

Lemma le_value_bytes n : forall z, le_value (le_bytes n z) = (z mod 2 ^ (8 * Z.of_nat n))%Z.
Proof.
  induction n as [|n IH]; intros z; [by rewrite Z.mod_1_r|].
  cbn [le_bytes le_value]. rewrite IH, b2z_z2b. unfold u8.
  replace (8 * Z.of_nat (S n))%Z with (8 + 8 * Z.of_nat n)%Z by lia.
  rewrite Z.pow_add_r, Z.rem_mul_r by lia. done.
Qed.

Lemma le_value_range bs : (0 <= le_value bs < 2 ^ (8 * Z.of_nat (length bs)))%Z.
Proof.
  induction bs as [|b bs IH]; simpl length; [simpl; lia|].
  replace (8 * Z.of_nat (S (length bs)))%Z with (8 + 8 * Z.of_nat (length bs))%Z by lia.
  rewrite Z.pow_add_r by lia. pose proof (b2z_range b). cbn [le_value]. lia.
Qed.

(** ** The buffer *)

Record Serializer := mkSerializer { buffer_ : bytes; deserialize_pos_ : nat }.

(** [buffer_.insert(buffer_.end(), ...)]. *)
Definition emit (bs : bytes) (s : Serializer) : Serializer :=
  mkSerializer (buffer_ s ++ bs) (deserialize_pos_ s).

Definition Serializer_empty : Serializer := mkSerializer [] 0.
(** The constructors from a string and from iterators. *)
Definition Serializer_of (data : bytes) : Serializer := mkSerializer data 0.
Definition str (s : Serializer) : bytes := buffer_ s.
Definition Serializer_size (s : Serializer) : Z := Z.of_nat (length (buffer_ s)).
Definition Serializer_clear (s : Serializer) : Serializer := mkSerializer [] 0.

(** Deserializing has no error of its own: it reads past the buffer. *)
Abbreviation SerM := (M Serializer Empty_set).

(** [std::copy] of [n] bytes from the read position, which moves past them. *)
Definition take_bytes (n : nat) : SerM bytes := fun s =>
  let p := deserialize_pos_ s in
  if decide (p + n <= length (buffer_ s))
  then (Ret (take n (drop p (buffer_ s))), mkSerializer (buffer_ s) (p + n))
  else (Undef OutOfBounds, s).

Record Codec (A : Type) := mkCodec {
  serialize : A -> Serializer -> Serializer;
  deserialize : A -> SerM A
}.
Arguments mkCodec {A} _ _.
Arguments serialize {A} _ _ _.
Arguments deserialize {A} _ _.

(** ** Arithmetic types *)

(** An unsigned integer of [n] bytes. *)
Definition unsigned_ (n : nat) : Codec Z :=
  mkCodec (fun v => emit (le_bytes n v))
          (fun _ => bs ← take_bytes n; mret (le_value bs)).

(** A signed integer of [n] bytes, in two's complement. *)
Definition signed_ (n : nat) : Codec Z :=
  mkCodec (fun v => emit (le_bytes n v))
          (fun _ => bs ← take_bytes n;
             let v := le_value bs in
             mret (if decide (v < 2 ^ (8 * Z.of_nat n - 1))%Z then v
                   else (v - 2 ^ (8 * Z.of_nat n))%Z)).

Definition uint16_ : Codec Z := unsigned_ 2.
Definition uint32_ : Codec Z := unsigned_ 4.
Definition size_t_ : Codec Z := unsigned_ 8.
Definition int32_ : Codec Z := signed_ 4.

(** [bool]: one byte; a byte other than 0 and 1 is not a value of the type. *)
Definition bool_ : Codec bool :=
  mkCodec (fun v => emit [if v : bool then z2b 1 else z2b 0])
          (fun _ => bs ← take_bytes 1;
             match le_value bs with
             | 0%Z => mret false
             | 1%Z => mret true
             | _ => undef BadRepresentation
             end).

(** ** std::string *)

(** The longest string [resize] makes; beyond it [resize] throws. *)
Definition K_STRING_MAX_SIZE : Z := 2 ^ 63 - 1.

Definition string_ : Codec bytes :=
  mkCodec (fun v s => emit v (serialize size_t_ (Z.of_nat (length v)) s))
          (fun old =>
             size ← deserialize size_t_ (Z.of_nat (length old));
             if decide (size <= K_STRING_MAX_SIZE)%Z then
               (* a size beyond the buffer is not turned into a unary number *)
               s ← get;
               if decide (size <= Z.of_nat (length (buffer_ s)))%Z
               then take_bytes (Z.to_nat size) else undef OutOfBounds
             else undef UncaughtException).

(** ** Sequence containers *)

Fixpoint deserialize_each {A} (c : Codec A) (olds : list A) : SerM (list A) :=
  match olds with
  | [] => mret []
  | old :: olds => x ← deserialize c old; xs ← deserialize_each c olds; mret (x :: xs)
  end.

(** [std::vector] and the other sequence containers: a 32-bit count, then the
    items; [resize] keeps the items the container held and adds [dflt]. *)
Definition sequence_ {A} (dflt : A) (c : Codec A) : Codec (list A) :=
  mkCodec (fun v s => foldl (fun s x => serialize c x s)
                            (serialize uint32_ (u32 (Z.of_nat (length v))) s) v)
          (fun old =>
             size ← deserialize uint32_ 0%Z;
             deserialize_each c (resize (Z.to_nat size) dflt old)).

(** [std::map]: a 64-bit count, then key and value of each entry in key order.
    Its [deserialize] hands objects where pointers are expected, so no
    instance of it compiles: there is only [serialize]. *)
Definition map_serialize {A B} (c : Codec A) (d : Codec B) (v : list (A * B))
    (s : Serializer) : Serializer :=
  foldl (fun s kv => serialize d kv.2 (serialize c kv.1 s))
        (serialize size_t_ (Z.of_nat (length v)) s) v.

(** ** std::tuple and structs *)

Definition tuple0_ : Codec unit := mkCodec (fun _ s => s) (fun old => mret old).

(** One more component in front. *)
Definition tuple_ {A B} (c : Codec A) (d : Codec B) : Codec (A * B) :=
  mkCodec (fun v s => serialize d v.2 (serialize c v.1 s))
          (fun old => x ← deserialize c old.1; y ← deserialize d old.2; mret (x, y)).

(** A struct whose [serialize] and [deserialize] run through its fields is its
    tuple of fields. *)
Definition struct_ {A B} (fields : A -> B) (make : B -> A) (c : Codec B) : Codec A :=
  mkCodec (fun v => serialize c (fields v))
          (fun old => b ← deserialize c (fields old); mret (make b)).

(** ** Round trips *)

(** [c] writes the bytes [enc a], and reads the values satisfying [wf] back
    from them, whatever comes before and after in the buffer and whatever the
    object held. *)
Class RoundTrip {A} (c : Codec A) (wf : A -> Prop) (enc : A -> bytes) : Prop := {
  serialize_enc : forall a s, serialize c a s = emit (enc a) s;
  deserialize_enc : forall a old p r, wf a ->
    deserialize c old (mkSerializer (p ++ enc a ++ r) (length p))
    = (Ret a, mkSerializer (p ++ enc a ++ r) (length p + length (enc a)))
}.

Lemma emit_emit a b s : emit b (emit a s) = emit (a ++ b) s.
Proof. unfold emit. simpl. by rewrite <-app_assoc. Qed.

Lemma take_bytes_app p b r :
  take_bytes (length b) (mkSerializer (p ++ b ++ r) (length p))
  = (Ret b, mkSerializer (p ++ b ++ r) (length p + length b)).
Proof.
  unfold take_bytes. simpl. rewrite decide_True by (rewrite !length_app; lia).
  by rewrite drop_app_length, take_app_length.
Qed.

(** The same codec reads on after [b]. *)
Lemma deserialize_next {A} (c : Codec A) wf enc `{!RoundTrip c wf enc} a old p b r :
  wf a ->
  deserialize c old (mkSerializer (p ++ (b ++ enc a) ++ r) (length p + length b))
  = (Ret a, mkSerializer (p ++ (b ++ enc a) ++ r) (length p + length (b ++ enc a))).
Proof.
  intros Ha. pose proof (deserialize_enc (c := c) a old (p ++ b) r Ha) as H.
  rewrite length_app, <-!app_assoc in H. rewrite <-!app_assoc, length_app, Nat.add_assoc.
  exact H.
Qed.

Definition fits_unsigned (n : nat) (z : Z) : Prop := (0 <= z < 2 ^ (8 * Z.of_nat n))%Z.
Definition fits_signed (n : nat) (z : Z) : Prop :=
  (- 2 ^ (8 * Z.of_nat n - 1) <= z < 2 ^ (8 * Z.of_nat n - 1))%Z.

#[export] Instance unsigned_roundtrip n : RoundTrip (unsigned_ n) (fits_unsigned n) (le_bytes n).
Proof.
  split; [done|]. intros a old p r Ha. cbn [unsigned_ deserialize].
  pose proof (take_bytes_app p (le_bytes n a) r) as H. rewrite le_bytes_length in H |- *.
  mstep H. by rewrite le_value_bytes, Z.mod_small.
Qed.

Lemma signed_value n z : 0 < n -> fits_signed n z ->
  let w := (2 ^ (8 * Z.of_nat n))%Z in
  (if decide (z mod w < 2 ^ (8 * Z.of_nat n - 1)) then z mod w else z mod w - w)%Z = z.
Proof.
  intros Hn Hz w. unfold fits_signed in Hz.
  assert (w = 2 * 2 ^ (8 * Z.of_nat n - 1))%Z as Hw.
  { subst w. rewrite <-Z.pow_succ_r by lia. f_equal. lia. }
  destruct (decide (0 <= z)%Z).
  - rewrite Z.mod_small by lia. by rewrite decide_True by lia.
  - rewrite <-(Z.mod_unique z w (-1) (z + w)) by lia.
    rewrite decide_False by lia. lia.
Qed.

#[export] Instance signed_roundtrip n : RoundTrip (signed_ (S n)) (fits_signed (S n)) (le_bytes (S n)).
Proof.
  split; [done|]. intros a old p r Ha. cbn [signed_ deserialize].
  pose proof (take_bytes_app p (le_bytes (S n) a) r) as H. rewrite le_bytes_length in H |- *.
  mstep H. rewrite le_value_bytes, (signed_value (S n) a) by (lia || done). done.
Qed.

Definition bool_enc (b : bool) : bytes := [if b then z2b 1 else z2b 0].

#[export] Instance bool_roundtrip : RoundTrip bool_ (fun _ => True) bool_enc.
Proof.
  split; [done|]. intros a old p r _. cbn [bool_ deserialize].
  mstep (take_bytes_app p (bool_enc a) r). by destruct a.
Qed.

Definition string_wf (v : bytes) : Prop := (Z.of_nat (length v) <= K_STRING_MAX_SIZE)%Z.
Definition string_enc (v : bytes) : bytes := le_bytes 8 (Z.of_nat (length v)) ++ v.

#[export] Instance string_roundtrip : RoundTrip string_ string_wf string_enc.
Proof.
  split.
  - intros v s. cbn [string_ serialize]. by rewrite serialize_enc, emit_emit.
  - intros v old p r Hv. unfold string_enc. cbn [string_ deserialize].
    assert (fits_unsigned 8 (Z.of_nat (length v))) as Hf.
    { unfold fits_unsigned, string_wf, K_STRING_MAX_SIZE in *. simpl. lia. }
    rewrite <-app_assoc.
    mstep (deserialize_enc (c := size_t_) _ (Z.of_nat (length old)) p (v ++ r) Hf).
    rewrite decide_True by done. autorewrite with monad.
    rewrite decide_True by (cbn [buffer_]; rewrite !length_app; lia). rewrite Nat2Z.id.
    pose proof (take_bytes_app (p ++ le_bytes 8 (Z.of_nat (length v))) v r) as H.
    rewrite <-app_assoc, length_app in H. rewrite H, length_app. by rewrite Nat.add_assoc.
Qed.

Section sequence.
Context {A} (c : Codec A) (wf : A -> Prop) (enc : A -> bytes) `{!RoundTrip c wf enc}.

Definition sequence_wf (v : list A) : Prop :=
  (Z.of_nat (length v) < 2 ^ 32)%Z /\ Forall wf v.
Definition sequence_enc (v : list A) : bytes :=
  le_bytes 4 (u32 (Z.of_nat (length v))) ++ mjoin (enc <$> v).

Lemma serialize_each_enc v s :
  foldl (fun s x => serialize c x s) s v = emit (mjoin (enc <$> v)) s.
Proof.
  revert s. induction v as [|x v IH]; intros s; cbn.
  - unfold emit. rewrite app_nil_r. by destruct s.
  - by rewrite IH, serialize_enc, emit_emit.
Qed.

Lemma deserialize_each_enc v : forall olds p r, length olds = length v -> Forall wf v ->
  deserialize_each c olds (mkSerializer (p ++ mjoin (enc <$> v) ++ r) (length p))
  = (Ret v, mkSerializer (p ++ mjoin (enc <$> v) ++ r) (length p + length (mjoin (enc <$> v)))).
Proof.
  induction v as [|x v IH]; intros [|old olds] p r Hl Hv; try discriminate Hl.
  - simpl. unfold mret, M_ret. by rewrite Nat.add_0_r.
  - apply Forall_cons in Hv as [Hx Hv]. cbn [deserialize_each fmap list_fmap mjoin list_join].
    rewrite <-app_assoc.
    mstep (deserialize_enc (c := c) x old p (mjoin (enc <$> v) ++ r) Hx).
    pose proof (IH olds (p ++ enc x) r ltac:(simpl in Hl; lia) Hv) as H.
    rewrite <-app_assoc, length_app in H. mstep H.
    by rewrite length_app, Nat.add_assoc.
Qed.

#[export] Instance sequence_roundtrip dflt : RoundTrip (sequence_ dflt c) sequence_wf sequence_enc.
Proof.
  split.
  - intros v s. cbn [sequence_ serialize]. by rewrite serialize_each_enc, serialize_enc, emit_emit.
  - intros v old p r [Hl Hv]. unfold sequence_enc. cbn [sequence_ deserialize].
    assert (u32 (Z.of_nat (length v)) = Z.of_nat (length v)) as -> by (apply Z.mod_small; lia).
    assert (fits_unsigned 4 (Z.of_nat (length v))) as Hf by (unfold fits_unsigned; simpl; lia).
    rewrite <-app_assoc.
    mstep (deserialize_enc (c := uint32_) _ 0%Z p (mjoin (enc <$> v) ++ r) Hf).
    rewrite Nat2Z.id.
    pose proof (deserialize_each_enc v (resize (length v) dflt old)
                  (p ++ le_bytes 4 (Z.of_nat (length v))) r (length_resize _ _ _) Hv) as H.
    rewrite <-app_assoc, length_app in H. rewrite H, length_app. by rewrite Nat.add_assoc.
Qed.
End sequence.

#[export] Instance tuple0_roundtrip : RoundTrip tuple0_ (fun _ => True) (fun _ => []).
Proof.
  split; [intros a s; unfold emit; rewrite app_nil_r; by destruct s|].
  intros [] [] p r _. cbn. unfold mret, M_ret. by rewrite Nat.add_0_r.
Qed.

#[export] Instance tuple_roundtrip {A B} (c : Codec A) wfc encc (d : Codec B) wfd encd
    `{!RoundTrip c wfc encc, !RoundTrip d wfd encd} :
  RoundTrip (tuple_ c d) (fun v => wfc v.1 /\ wfd v.2) (fun v => encc v.1 ++ encd v.2).
Proof.
  split.
  - intros a s. cbn [tuple_ serialize]. by rewrite !serialize_enc, emit_emit.
  - intros [x y] old p r [Hx Hy]. cbn [tuple_ deserialize fst snd] in *.
    pose proof (deserialize_enc (c := c) x old.1 p (encd y ++ r) Hx) as H.
    rewrite app_assoc in H. rewrite <-app_assoc. rewrite <-app_assoc in H. mstep H.
    pose proof (deserialize_next d wfd encd y old.2 p (encc x) r Hy) as H'.
    rewrite <-app_assoc in H'. mstep H'. done.
Qed.

Lemma struct_roundtrip {A B} (fields : A -> B) make (c : Codec B) wf enc `{!RoundTrip c wf enc} :
  (forall a, make (fields a) = a) ->
  RoundTrip (struct_ fields make c) (fun a => wf (fields a)) (fun a => enc (fields a)).
Proof.
  intros Hm. split; [intros a s; cbn [struct_ serialize]; by rewrite serialize_enc|].
  intros a old p r Ha. cbn [struct_ deserialize].
  mstep (deserialize_enc (c := c) (fields a) (fields old) p r Ha). by rewrite Hm.
Qed.

(** What a fresh Serializer on the bytes of another one reads back. *)
Lemma deserialize_serialize {A} (c : Codec A) wf enc `{!RoundTrip c wf enc} a old :
  wf a ->
  deserialize c old (Serializer_of (str (serialize c a Serializer_empty)))
  = (Ret a, mkSerializer (enc a) (length (enc a))).
Proof.
  intros Ha. rewrite serialize_enc. unfold Serializer_of, str. simpl.
  pose proof (deserialize_enc (c := c) a old [] [] Ha) as H. by rewrite app_nil_r in H.
Qed.
