(* ===== verification/Packet.v ===== *)
(** * Reads, writes and packets on a connection (src/bitdb/net/io_awaiter.{h,cpp})

    A connection is the bytes its peer has sent, the bytes sent to the peer, and
    what the next [read] and [write] calls on the socket will do: transfer some
    of the bytes asked for, fail with an error that means "try again", or fail
    for good.  Calls transfer all they can once [events] is empty; a [read] with
    no bytes left answers 0, as it does when the peer has closed.  Packets are a
    32-bit length followed by the payload. *)

From S2P Require Import Prelude Serializer.

Inductive io_event :=
| Ready (k : nat)   (** at most [k + 1] bytes *)
| Again             (** -1 with EINTR, EWOULDBLOCK or EAGAIN *)
| Err.              (** -1 with another error *)

#[export] Instance io_event_eq_dec : EqDecision io_event.
Proof. solve_decision. Defined.

Record Socket := mkSocket {
  inbox : bytes;
  sent : bytes;
  is_closed_ : bool;
  events : list io_event
}.

(** The value of [read] or [write]: bytes, or -1 and whether to try again. *)
Inductive io_res := Done (bs : bytes) | Neg (again : bool).

Abbreviation SockM := (M Socket Empty_set).

Definition next_event : SockM (option io_event) := fun s =>
  match events s with
  | [] => (Ret None, s)
  | e :: es => (Ret (Some e), mkSocket (inbox s) (sent s) (is_closed_ s) es)
  end.

(** How many of [n] bytes the next call may transfer. *)
Definition limit (e : option io_event) (n : nat) : option nat :=
  match e with
  | None => Some n
  | Some (Ready k) => Some (n `min` S k)
  | Some (Again | Err) => None
  end.

Definition again (e : option io_event) : bool := if e is Some Again then true else false.

(** [::read] unless the connection is closed; [recv_] is 0 before it. *)
Definition try_read (n : nat) : SockM io_res :=
  s ← get;
  if is_closed_ s then mret (Done []) else
  e ← next_event;
  s ← get;
  match limit e n with
  | Some m =>
      put (mkSocket (drop m (inbox s)) (sent s) (is_closed_ s) (events s));;
      mret (Done (take m (inbox s)))
  | None => mret (Neg (again e))
  end.

Definition try_write (bs : bytes) : SockM io_res :=
  s ← get;
  if is_closed_ s then mret (Done []) else
  e ← next_event;
  s ← get;
  match limit e (length bs) with
  | Some m =>
      put (mkSocket (inbox s) (sent s ++ take m bs) (is_closed_ s) (events s));;
      mret (Done (take m bs))
  | None => mret (Neg (again e))
  end.

(** ReadInnerAwaiter and WriteInnerAwaiter: after a failed call the coroutine
    waits for the socket and calls once more. *)
Definition ReadInnerAwaiter (n : nat) : SockM io_res :=
  r ← try_read n; if r is Neg _ then try_read n else mret r.

Definition WriteInnerAwaiter (bs : bytes) : SockM io_res :=
  r ← try_write bs; if r is Neg _ then try_write bs else mret r.

(** [while (size != 0)]: read [n] more bytes; [None] for [co_return false]. *)
Fixpoint read_loop (fuel n : nat) (acc : bytes) : SockM (option bytes) :=
  match n with
  | O => mret (Some acc)
  | _ =>
      match fuel with
      | O => undef OutOfFuel
      | S fuel =>
          res ← ReadInnerAwaiter n;
          match res with
          | Done [] => mret None
          | Done bs => read_loop fuel (n - length bs) (acc ++ bs)
          | Neg true => read_loop fuel n acc
          | Neg false => mret None
          end
      end
  end.

Fixpoint write_loop (fuel : nat) (bs : bytes) : SockM bool :=
  match bs with
  | [] => mret true
  | _ =>
      match fuel with
      | O => undef OutOfFuel
      | S fuel =>
          res ← WriteInnerAwaiter bs;
          match res with
          | Done [] => mret false
          | Done w => write_loop fuel (drop (length w) bs)
          | Neg true => write_loop fuel bs
          | Neg false => mret false
          end
      end
  end.

(** Every call moves bytes, uses up an event, or ends the loop. *)
Definition io_fuel (n : nat) (s : Socket) : nat := S (n + length (events s)).

Definition read_n (n : nat) : SockM (option bytes) :=
  s ← get; read_loop (io_fuel n s) n [].
Definition write_n (bs : bytes) : SockM bool :=
  s ← get; write_loop (io_fuel (length bs) s) bs.

Definition HEADER_SIZE : nat := 4.

(** AsyncReadPacket: the buffer, or [None] for [co_return false]. *)
Definition AsyncReadPacket : SockM (option bytes) :=
  head ← read_n HEADER_SIZE;
  match head with
  | None => mret None
  | Some head_buffer => read_n (Z.to_nat (le_value head_buffer))
  end.

(** AsyncWritePacket: the size is kept in 32 bits. *)
Definition AsyncWritePacket (buffer : bytes) : SockM bool :=
  let total_write_size := u32 (Z.of_nat (length buffer)) in
  ok ← write_n (le_bytes HEADER_SIZE total_write_size);
  if ok : bool then write_n (take (Z.to_nat total_write_size) buffer) else mret false.

(** AsyncRead: one successful [read] into a buffer of [n] bytes. *)
Fixpoint async_read_loop (fuel n : nat) : SockM bytes :=
  match fuel with
  | O => undef OutOfFuel
  | S fuel =>
      res ← ReadInnerAwaiter n;
      match res with
      | Done bs => mret bs
      | Neg true => async_read_loop fuel n
      | Neg false => mret []
      end
  end.
Definition AsyncRead (n : nat) : SockM bytes := s ← get; async_read_loop (io_fuel n s) n.

(** AsyncWrite: how many bytes went out before an error. *)
Fixpoint async_write_loop (fuel : nat) (bs : bytes) (already_write_size : nat) : SockM nat :=
  match bs with
  | [] => mret already_write_size
  | _ =>
      match fuel with
      | O => undef OutOfFuel
      | S fuel =>
          res ← WriteInnerAwaiter bs;
          match res with
          | Done [] => mret already_write_size
          | Done w => async_write_loop fuel (drop (length w) bs) (already_write_size + length w)
          | Neg true => async_write_loop fuel bs already_write_size
          | Neg false => mret already_write_size
          end
      end
  end.
Definition AsyncWrite (bs : bytes) : SockM nat :=
  s ← get; async_write_loop (io_fuel (length bs) s) bs 0.

(** ** A connection that stays up *)

(** The peer is there and no call fails for good. *)
Definition up (s : Socket) : Prop := is_closed_ s = false /\ Err ∉ events s.

Inductive read_result (n : nat) (s : Socket) : io_res -> Socket -> Prop :=
| read_bytes bs rest es :
    inbox s = bs ++ rest -> length bs <= n -> bs ≠ [] -> es `suffix_of` events s ->
    read_result n s (Done bs) (mkSocket rest (sent s) false es)
| read_again es : es `suffix_of` events s -> length es < length (events s) ->
    read_result n s (Neg true) (mkSocket (inbox s) (sent s) false es).

Inductive write_result (bs : bytes) (s : Socket) : io_res -> Socket -> Prop :=
| write_bytes w rest es :
    bs = w ++ rest -> w ≠ [] -> es `suffix_of` events s ->
    write_result bs s (Done w) (mkSocket (inbox s) (sent s ++ w) false es)
| write_again es : es `suffix_of` events s -> length es < length (events s) ->
    write_result bs s (Neg true) (mkSocket (inbox s) (sent s) false es).

Lemma take_nonempty {A} (m : nat) (l : list A) : 0 < m -> l ≠ [] -> take m l ≠ [].
Proof. destruct l, m; naive_solver lia. Qed.

Lemma limit_event e n m : limit (Some e) n = Some m -> 0 < n -> 0 < m <= n.
Proof. destruct e; simpl; naive_solver lia. Qed.

Ltac run_io := unfold try_read, try_write, next_event, mbind, M_bind, get, put, mret, M_ret; simpl.

Lemma try_read_up n s : up s -> 0 < n -> inbox s ≠ [] ->
  exists r s', try_read n s = (Ret r, s') /\ read_result n s r s'.
Proof.
  intros [Hc He] Hn Hi. destruct s as [ib st cl es]. simpl in *. subst cl. run_io.
  destruct es as [|[k| |] es]; simpl; eexists _, _; (split; [reflexivity|]).
  - apply read_bytes; simpl; [by rewrite take_drop|rewrite length_take; lia|by apply take_nonempty|done].
  - apply read_bytes; simpl; [by rewrite take_drop|rewrite length_take; lia
      |apply take_nonempty; [lia|done]|by apply suffix_cons_r].
  - apply read_again; simpl; [by apply suffix_cons_r|lia].
  - set_solver.
Qed.

Lemma try_write_up bs s : up s -> bs ≠ [] ->
  exists r s', try_write bs s = (Ret r, s') /\ write_result bs s r s'.
Proof.
  intros [Hc He] Hb. assert (0 < length bs) by (destruct bs; simpl; [done|lia]).
  destruct s as [ib st cl es]. simpl in *. subst cl. run_io.
  destruct es as [|[k| |] es]; simpl; eexists _, _; (split; [reflexivity|]).
  - apply write_bytes with (rest := drop (length bs) bs); simpl;
      [by rewrite take_drop|by apply take_nonempty|done].
  - apply write_bytes with (rest := drop (length bs `min` S k) bs); simpl;
      [by rewrite take_drop|apply take_nonempty; [lia|done]|by apply suffix_cons_r].
  - apply write_again; simpl; [by apply suffix_cons_r|lia].
  - set_solver.
Qed.

Lemma up_suffix s es ib st : up s -> es `suffix_of` events s -> up (mkSocket ib st false es).
Proof. intros [_ He] [k Hk]. split; [done|]. simpl. rewrite Hk in He. set_solver. Qed.

Lemma ReadInnerAwaiter_up n s : up s -> 0 < n -> inbox s ≠ [] ->
  exists r s', ReadInnerAwaiter n s = (Ret r, s') /\ read_result n s r s'.
Proof.
  intros Hu Hn Hi. destruct (try_read_up n s Hu Hn Hi) as (r & s1 & E & Hr).
  unfold ReadInnerAwaiter. mstep E. destruct Hr as [bs rest es H1 H2 H3 H4|es Hes Hl].
  - eexists _, _. split; [done|]. by apply read_bytes.
  - destruct (try_read_up n (mkSocket (inbox s) (sent s) false es)) as (r & s2 & E2 & Hr);
      [by apply (up_suffix s)|done|done|].
    exists r, s2. split; [done|].
    inversion Hr; subst; simpl in *; [apply read_bytes|apply read_again]; auto; try lia;
      by etrans.
Qed.

Lemma WriteInnerAwaiter_up bs s : up s -> bs ≠ [] ->
  exists r s', WriteInnerAwaiter bs s = (Ret r, s') /\ write_result bs s r s'.
Proof.
  intros Hu Hb. destruct (try_write_up bs s Hu Hb) as (r & s1 & E & Hr).
  unfold WriteInnerAwaiter. mstep E. destruct Hr as [w rest es H1 H2 H3|es Hes Hl].
  - eexists _, _. split; [done|]. by eapply write_bytes.
  - destruct (try_write_up bs (mkSocket (inbox s) (sent s) false es)) as (r & s2 & E2 & Hr);
      [by apply (up_suffix s)|done|].
    exists r, s2. split; [done|].
    inversion Hr; subst; simpl in *; [eapply write_bytes|apply write_again]; eauto; try lia;
      by etrans.
Qed.

(** The bytes read are the first of those asked for. *)
Lemma read_split (b rest bs rest1 : bytes) : b ++ rest = bs ++ rest1 -> length bs <= length b ->
  exists b1, b = bs ++ b1 /\ rest1 = b1 ++ rest.
Proof.
  intros H1 Hle. exists (drop (length bs) b). split.
  - rewrite <-(take_drop (length bs) b) at 1. f_equal.
    rewrite <-(take_app_le b rest), H1, take_app_length by lia. done.
  - rewrite <-(drop_app_le b rest), H1, drop_app_length by lia. done.
Qed.

(** The loop reads exactly the next [n] bytes, however they arrive. *)
Lemma read_loop_up fuel : forall n acc s b rest,
  up s -> inbox s = b ++ rest -> length b = n -> n + length (events s) < fuel ->
  exists es, es `suffix_of` events s /\
    read_loop fuel n acc s = (Ret (Some (acc ++ b)), mkSocket rest (sent s) false es).
Proof.
  induction fuel as [|fuel IH]; intros n acc s b rest Hu Hi Hl Hf; [lia|].
  destruct n as [|n].
  - destruct b; [|done]. exists (events s). split; [done|]. cbn. rewrite app_nil_r.
    destruct s, Hu. simpl in *. by subst.
  - destruct (ReadInnerAwaiter_up (S n) s Hu) as (r & s1 & E & Hr);
      [lia|rewrite Hi; by destruct b|].
    cbn [read_loop]. mstep E. destruct Hr as [bs rest1 es H1 H2 H3 H4|es Hes Hlt].
    + destruct bs as [|x bs]; [done|].
      rewrite Hi in H1. destruct (read_split _ _ _ _ H1) as (b1 & -> & ->); [lia|].
      destruct (IH (S n - length (x :: bs)) (acc ++ x :: bs) (mkSocket (b1 ++ rest) (sent s) false es)
                   b1 rest) as (es' & Hs & ->).
      * by eapply up_suffix.
      * done.
      * rewrite length_app in Hl. lia.
      * apply suffix_length in H4. simpl in *. lia.
      * exists es'. split; [by etrans|]. by rewrite <-app_assoc.
    + destruct (IH (S n) acc (mkSocket (inbox s) (sent s) false es) b rest) as (es' & Hs & ->);
        [by eapply up_suffix|done|done|simpl; lia|].
      exists es'. split; [by etrans|done].
Qed.

Lemma write_loop_up fuel : forall bs s, up s -> length bs + length (events s) < fuel ->
  exists es, es `suffix_of` events s /\
    write_loop fuel bs s = (Ret true, mkSocket (inbox s) (sent s ++ bs) false es).
Proof.
  induction fuel as [|fuel IH]; intros bs s Hu Hf; [lia|].
  destruct bs as [|b bs].
  - exists (events s). split; [done|]. cbn. rewrite app_nil_r. destruct s, Hu. simpl in *. by subst.
  - destruct (WriteInnerAwaiter_up (b :: bs) s Hu) as (r & s1 & E & Hr); [done|].
    cbn [write_loop]. mstep E. destruct Hr as [w rest es H1 H2 H3|es Hes Hlt].
    + destruct w as [|x w]; [done|]. rewrite H1, drop_app_length.
      destruct (IH rest (mkSocket (inbox s) (sent s ++ x :: w) false es)) as (es' & Hs & ->).
      * by eapply up_suffix.
      * apply suffix_length in H3. rewrite H1, length_app in Hf. simpl in *. lia.
      * exists es'. split; [by etrans|]. simpl. by rewrite <-app_assoc.
    + destruct (IH (b :: bs) (mkSocket (inbox s) (sent s) false es)) as (es' & Hs & ->);
        [by eapply up_suffix|simpl in *; lia|].
      exists es'. split; [by etrans|done].
Qed.

Lemma read_n_up n s b rest : up s -> inbox s = b ++ rest -> length b = n ->
  exists es, es `suffix_of` events s /\
    read_n n s = (Ret (Some b), mkSocket rest (sent s) false es).
Proof.
  intros Hu Hi Hl. unfold read_n. autorewrite with monad.
  destruct (read_loop_up (io_fuel n s) n [] s b rest) as (es & ? & ->); eauto.
Qed.

Lemma write_n_up bs s : up s ->
  exists es, es `suffix_of` events s /\
    write_n bs s = (Ret true, mkSocket (inbox s) (sent s ++ bs) false es).
Proof.
  intros Hu. unfold write_n. autorewrite with monad.
  destruct (write_loop_up (io_fuel (length bs) s) bs s) as (es & ? & ->); eauto.
Qed.

(** At the end of the stream a packet read answers [false]. *)
Inductive eof_result (s : Socket) : io_res -> Socket -> Prop :=
| eof_closed es : es `suffix_of` events s ->
    eof_result s (Done []) (mkSocket [] (sent s) false es)
| eof_again es : es `suffix_of` events s -> length es < length (events s) ->
    eof_result s (Neg true) (mkSocket [] (sent s) false es).

Lemma try_read_eof n s : up s -> inbox s = [] ->
  exists r s', try_read n s = (Ret r, s') /\ eof_result s r s'.
Proof.
  intros [Hc He] Hi. destruct s as [ib st cl es]. simpl in *. subst. run_io.
  destruct es as [|[k| |] es]; simpl; rewrite ?take_nil, ?drop_nil; eexists _, _; (split; [reflexivity|]).
  - by apply eof_closed.
  - apply eof_closed. simpl. by apply suffix_cons_r.
  - apply eof_again; simpl; [by apply suffix_cons_r|lia].
  - set_solver.
Qed.

Lemma ReadInnerAwaiter_eof n s : up s -> inbox s = [] ->
  exists r s', ReadInnerAwaiter n s = (Ret r, s') /\ eof_result s r s'.
Proof.
  intros Hu Hi. destruct (try_read_eof n s Hu Hi) as (r & s1 & E & Hr).
  unfold ReadInnerAwaiter. mstep E. destruct Hr as [es Hes|es Hes Hl].
  - eexists _, _. split; [done|]. by apply eof_closed.
  - destruct (try_read_eof n (mkSocket [] (sent s) false es)) as (r & s2 & E2 & Hr);
      [by apply (up_suffix s)|done|].
    exists r, s2. split; [done|].
    inversion Hr; subst; simpl in *; [apply eof_closed|apply eof_again]; auto; try lia; by etrans.
Qed.

Lemma read_loop_eof n acc fuel : forall s, up s -> inbox s = [] -> length (events s) < fuel ->
  exists s', read_loop fuel (S n) acc s = (Ret None, s') /\ sent s' = sent s.
Proof.
  induction fuel as [|fuel IH]; intros s Hu Hi Hf; [lia|]. cbn [read_loop].
  destruct (ReadInnerAwaiter_eof (S n) s Hu Hi) as (r & s1 & E & Hr). mstep E.
  destruct Hr as [es Hes|es Hes Hl]; [by eexists|].
  apply (IH (mkSocket [] (sent s) false es)); [by eapply up_suffix|done|simpl; lia].
Qed.

Lemma AsyncReadPacket_eof s : up s -> inbox s = [] ->
  exists s', AsyncReadPacket s = (Ret None, s') /\ sent s' = sent s.
Proof.
  intros Hu Hi. unfold AsyncReadPacket, read_n. rewrite bind_assoc. autorewrite with monad.
  destruct (read_loop_eof 3 [] (io_fuel HEADER_SIZE s) s Hu Hi) as (s' & E & Hs);
    [unfold io_fuel; lia|].
  exists s'. by mstep E.
Qed.

Definition packet (payload : bytes) : bytes :=
  le_bytes HEADER_SIZE (Z.of_nat (length payload)) ++ payload.

Lemma AsyncWritePacket_up buffer s : up s -> (Z.of_nat (length buffer) < 2 ^ 32)%Z ->
  exists es, es `suffix_of` events s /\
    AsyncWritePacket buffer s = (Ret true, mkSocket (inbox s) (sent s ++ packet buffer) false es).
Proof.
  intros Hu Hl. unfold AsyncWritePacket.
  assert (u32 (Z.of_nat (length buffer)) = Z.of_nat (length buffer)) as -> by (apply Z.mod_small; lia).
  destruct (write_n_up (le_bytes HEADER_SIZE (Z.of_nat (length buffer))) s Hu) as (es & Hs & E).
  mstep E. rewrite Nat2Z.id, take_ge by lia.
  destruct (write_n_up buffer (mkSocket (inbox s)
    (sent s ++ le_bytes HEADER_SIZE (Z.of_nat (length buffer))) false es)) as (es' & Hs' & ->);
    [by eapply up_suffix|].
  exists es'. split; [by etrans|]. unfold packet. simpl sent. by rewrite <-app_assoc.
Qed.

Lemma AsyncReadPacket_up buffer rest s :
  up s -> (Z.of_nat (length buffer) < 2 ^ 32)%Z -> inbox s = packet buffer ++ rest ->
  exists es, es `suffix_of` events s /\
    AsyncReadPacket s = (Ret (Some buffer), mkSocket rest (sent s) false es).
Proof.
  intros Hu Hl Hi. unfold AsyncReadPacket. unfold packet in Hi. rewrite <-app_assoc in Hi.
  destruct (read_n_up HEADER_SIZE s _ _ Hu Hi (le_bytes_length _ _)) as (es & Hs & E).
  mstep E. rewrite le_value_bytes, Z.mod_small, Nat2Z.id by (change (8 * Z.of_nat HEADER_SIZE)%Z with 32%Z; lia).
  destruct (read_n_up (length buffer) (mkSocket (buffer ++ rest) (sent s) false es) buffer rest)
    as (es' & Hs' & ->); [by eapply up_suffix|done|done|].
  exists es'. split; [by etrans|done].
Qed.

(** C21: a packet shorter than 4 GiB written to one end of a connection and read
    at the other is the same packet, and the reader stops at its end, for every
    way the two sides' writes and reads are cut into pieces and retried. *)
Theorem packet_roundtrip buffer rest sw sr :
  up sw -> up sr -> (Z.of_nat (length buffer) < 2 ^ 32)%Z ->
  exists sw', AsyncWritePacket buffer sw = (Ret true, sw') /\
    forall stream, sent sw' = sent sw ++ stream -> inbox sr = stream ++ rest ->
    exists es, AsyncReadPacket sr = (Ret (Some buffer), mkSocket rest (sent sr) false es).
Proof.
  intros Hw Hr Hl. destruct (AsyncWritePacket_up buffer sw Hw Hl) as (es & _ & ->).
  eexists. split; [done|]. simpl. intros stream Hs%app_inv_head Hi. subst stream.
  destruct (AsyncReadPacket_up buffer rest sr Hr Hl Hi) as (es' & _ & ->). by exists es'.
Qed.

Lemma packet_roundtrip_witness :
  let sw := mkSocket [] [] false [Ready 1; Again; Ready 0] in
  let sr := mkSocket (packet (lit "abc") ++ lit "d") [] false [Again; Again; Ready 0; Ready 2; Again] in
  exists es, AsyncReadPacket sr = (Ret (Some (lit "abc")), mkSocket (lit "d") [] false es).
Proof.
  intros sw sr.
  destruct (packet_roundtrip (lit "abc") (lit "d") sw sr) as (sw' & E & H);
    [split; [done|vm_decide]|split; [done|vm_decide]|vm_compute; reflexivity|].
  apply (H (packet (lit "abc"))); [|reflexivity].
  vm_compute in E. injection E as <-. reflexivity.
Defined.
