(* ===== verification/Rpc.v ===== *)
(** * Remote procedure calls (src/bitdb/net/rpc/)

    The client serializes a function's name and its argument tuple into a packet;
    the server looks the name up, deserializes the arguments into fresh objects,
    calls the function and serializes an RpcResponse; the client deserializes
    that.  The objects the bound functions work on are the state [W]. *)

From S2P Require Import Prelude Serializer Packet.

(** ** rpc_err_code.h, rpc_value.h *)

Inductive RpcErrCode := RPC_SUCCECC | RPC_ERR_FUNCTION_NOT_FOUND | RPC_ERR_RECV_TIMEOUT.

Definition code_of (e : RpcErrCode) : Z :=
  match e with RPC_SUCCECC => 0 | RPC_ERR_FUNCTION_NOT_FOUND => 1 | RPC_ERR_RECV_TIMEOUT => 2 end.

Record RpcResponse (T : Type) := mkResponse { err_code : Z; err_msg : bytes; detail_value : T }.
Arguments mkResponse {T} _ _ _.
Arguments err_code {T} _.
Arguments err_msg {T} _.
Arguments detail_value {T} _.

(** [serialize] and [deserialize] of RpcResponse. *)
Definition RpcResponse_ {T} (c : Codec T) : Codec (RpcResponse T) :=
  struct_ (fun r => (err_code r, (err_msg r, (detail_value r, tt))))
          (fun '(e, (m, (v, _))) => mkResponse e m v)
          (tuple_ uint16_ (tuple_ string_ (tuple_ c tuple0_))).

#[export] Instance RpcResponse_roundtrip {T} (c : Codec T) wf enc `{!RoundTrip c wf enc} :
  RoundTrip (RpcResponse_ c) _ _ := struct_roundtrip _ _ _ _ _ (fun '(mkResponse _ _ _) => eq_refl).

(** ** rpc_server.h *)

Abbreviation HandleFunc W := (Serializer -> Serializer -> M W Empty_set Serializer).

Record RpcServer (W : Type) := mkServer { handlers_ : gmap bytes (HandleFunc W) }.
Arguments mkServer {W} _.
Arguments handlers_ {W} _.

(** A run of the deserializer inside a computation on [W]. *)
Definition with_serializer {W A} (m : SerM A) (s : Serializer) : M W Empty_set (A * Serializer) :=
  fun w => match m s with
           | (Ret a, s') => (Ret (a, s'), w)
           | (Throw e, _) => (Throw e, w)
           | (Undef u, _) => (Undef u, w)
           end.

Section server.
Context {W : Type}.
Implicit Types (srv : RpcServer W) (w : W).

(** CallProxy and its overloads for functions, member functions and functors:
    [args] starts out as [args0]. *)
Definition CallProxy {P R} (pc : Codec P) (args0 : P) (rc : Codec R) (func : P -> M W Empty_set R)
    : HandleFunc W := fun input_serializer output_serializer =>
  r ← with_serializer (deserialize pc args0) input_serializer;
  res ← func r.1;
  mret (serialize (RpcResponse_ rc) (mkResponse (code_of RPC_SUCCECC) [] res) output_serializer).

(** Bind: the name is kept up to its first NUL. *)
Definition Bind {P R} (name : bytes) (pc : Codec P) (args0 : P) (rc : Codec R)
    (func : P -> M W Empty_set R) srv : RpcServer W :=
  mkServer (<[default [] (c_str (name ++ [NUL])) := CallProxy pc args0 rc func]> (handlers_ srv)).

(** CallImpl: a name that is not bound gets a code and a message, and no value. *)
Definition CallImpl srv (name : bytes) (input_serializer : Serializer) : M W Empty_set Serializer :=
  match handlers_ srv !! name with
  | None =>
      mret (serialize string_ (lit "function not bind: " ++ name)
             (serialize uint16_ (code_of RPC_ERR_FUNCTION_NOT_FOUND) Serializer_empty))
  | Some func => func input_serializer Serializer_empty
  end.

(** One turn of OnRequest: from the bytes of a request to those of the answer. *)
Definition answer srv (request : bytes) : M W Empty_set bytes :=
  r ← with_serializer (deserialize string_ []) (Serializer_of request);
  out ← CallImpl srv r.1 r.2;
  mret (str out).

(** OnRequest: answer packets until the client closes.  A failed response is
    only logged. *)
Fixpoint on_request_loop srv (fuel : nat) : M (Socket * W) Empty_set unit :=
  match fuel with
  | O => undef OutOfFuel
  | S fuel =>
      buffer ← zoom fst (fun sw s => (s, snd sw)) AsyncReadPacket;
      match buffer with
      | None => mret tt
      | Some buffer =>
          out ← zoom snd (fun sw w => (fst sw, w)) (answer srv buffer);
          _ ← zoom fst (fun sw s => (s, snd sw)) (AsyncWritePacket out);
          on_request_loop srv fuel
      end
  end.

(** Every packet takes bytes from the connection. *)
Definition OnRequest srv : M (Socket * W) Empty_set unit :=
  sw ← get; on_request_loop srv (S (length (inbox (fst sw)))).
End server.

(** ** rpc_client.h *)

Record RpcClient := mkClient { err_code_ : Z; conn_ : option Socket }.

Abbreviation ClientM := (M RpcClient Empty_set).

(** [conn_->...]. *)
Definition on_conn {A} (m : SockM A) : ClientM A := fun c =>
  match conn_ c with
  | None => (Undef NullDeref, c)
  | Some s => let '(r, s') := m s in (r, mkClient (err_code_ c) (Some s'))
  end.

Definition set_err_code (e : Z) : ClientM unit := modify (fun c => mkClient e (conn_ c)).

(** NetCall: after a timeout the request is not sent again, only awaited. *)
Definition NetCall {R} (rc : Codec R) (value0 : R) (serializer : Serializer)
    : ClientM (RpcResponse R) :=
  c ← get;
  (if decide (err_code_ c ≠ code_of RPC_ERR_RECV_TIMEOUT) then
     res ← on_conn (AsyncWritePacket (str serializer));
     if res : bool then mret tt else undef ProcessExit
   else mret tt);;
  reply_buffer ← on_conn AsyncReadPacket;
  match reply_buffer with
  | None =>
      set_err_code (code_of RPC_ERR_RECV_TIMEOUT);;
      mret (mkResponse (code_of RPC_ERR_RECV_TIMEOUT) (lit "recv timeout") value0)
  | Some reply_buffer =>
      set_err_code (code_of RPC_SUCCECC);;
      r ← with_serializer (deserialize (RpcResponse_ rc) (mkResponse 0 [] value0))
            (Serializer_of reply_buffer);
      mret r.1
  end.

(** The bytes Call sends for a name and its arguments. *)
Definition request {P} (pc : Codec P) (name : bytes) (args : P) : Serializer :=
  serialize pc args (serialize string_ name Serializer_empty).

Definition Call {P R} (pc : Codec P) (rc : Codec R) (value0 : R) (name : bytes) (args : P)
    : ClientM (RpcResponse R) :=
  NetCall rc value0 (request pc name args).

(** ** A call and its answer *)

Lemma with_serializer_Ret {W A} (m : SerM A) s a s' (w : W) :
  m s = (Ret a, s') -> with_serializer m s w = (Ret (a, s'), w).
Proof. unfold with_serializer. by intros ->. Qed.

Lemma on_conn_Ret {A} (m : SockM A) e s a s' :
  m s = (Ret a, s') -> on_conn m (mkClient e (Some s)) = (Ret a, mkClient e (Some s')).
Proof. unfold on_conn. simpl. by intros ->. Qed.

Section calls.
Context {W P R : Type}.
Context (pc : Codec P) (wfp : P -> Prop) (encp : P -> bytes) `{!RoundTrip pc wfp encp}.
Context (rc : Codec R) (wfr : R -> Prop) (encr : R -> bytes) `{!RoundTrip rc wfr encr}.
Implicit Types (srv : RpcServer W) (w : W).

Lemma request_bytes name args : str (request pc name args) = string_enc name ++ encp args.
Proof. unfold request. by rewrite !serialize_enc. Qed.

(** What a bound function's answer holds. *)
Definition reply (r : R) : bytes :=
  str (serialize (RpcResponse_ rc) (mkResponse (code_of RPC_SUCCECC) [] r) Serializer_empty).

Lemma reply_read r old : wfr r ->
  exists s, deserialize (RpcResponse_ rc) old (Serializer_of (reply r))
            = (Ret (mkResponse (code_of RPC_SUCCECC) [] r), s).
Proof.
  intros Hr. unfold reply. eexists.
  apply deserialize_serialize with (1 := RpcResponse_roundtrip rc wfr encr). simpl.
  split_and!; try done; unfold fits_unsigned, string_wf, K_STRING_MAX_SIZE; simpl; lia.
Qed.

Lemma answer_bound srv name args0 func args w r w' :
  handlers_ srv !! name = Some (CallProxy pc args0 rc func) ->
  string_wf name -> wfp args -> func args w = (Ret r, w') ->
  answer srv (str (request pc name args)) w = (Ret (reply r), w').
Proof.
  intros Hh Hn Ha Hf. unfold answer. rewrite request_bytes.
  pose proof (deserialize_enc (c := string_) name [] [] (encp args) Hn) as E.
  mstep (with_serializer_Ret _ _ _ _ w E). unfold CallImpl. simpl fst. simpl snd. rewrite Hh.
  unfold CallProxy. rewrite bind_assoc.
  pose proof (deserialize_enc (c := pc) args args0 (string_enc name) [] Ha) as E'.
  rewrite app_nil_r in E'. simpl length.
  mstep (with_serializer_Ret _ _ _ _ w E'). rewrite bind_assoc. by mstep Hf.
Qed.

Lemma NetCall_reply value0 e s ser r rest :
  e ≠ code_of RPC_ERR_RECV_TIMEOUT -> up s -> wfr r ->
  (Z.of_nat (length (str ser)) < 2 ^ 32)%Z -> (Z.of_nat (length (reply r)) < 2 ^ 32)%Z ->
  inbox s = packet (reply r) ++ rest ->
  exists es, NetCall rc value0 ser (mkClient e (Some s))
    = (Ret (mkResponse (code_of RPC_SUCCECC) [] r),
       mkClient (code_of RPC_SUCCECC)
         (Some (mkSocket rest (sent s ++ packet (str ser)) false es))).
Proof.
  intros He Hu Hr Hq Hp Hi. unfold NetCall. autorewrite with monad.
  rewrite decide_True by done. rewrite bind_assoc.
  destruct (AsyncWritePacket_up (str ser) s Hu Hq) as (es & Hs & E).
  mstep (on_conn_Ret _ e _ _ _ E).
  destruct (AsyncReadPacket_up (reply r) rest
              (mkSocket (inbox s) (sent s ++ packet (str ser)) false es)) as (es' & _ & E');
    [by eapply up_suffix|done|done|].
  mstep (on_conn_Ret _ e _ _ _ E'). unfold set_err_code. autorewrite with monad.
  destruct (reply_read r (mkResponse 0 [] value0) Hr) as [ss E2].
  exists es'. by mstep (with_serializer_Ret _ _ _ _ (mkClient (code_of RPC_SUCCECC)
    (Some (mkSocket rest (sent s ++ packet (str ser)) false es'))) E2).
Qed.

(** A call of a bound function is transparent.  The server's answer to the
    request Call sends runs the function once, on the caller's arguments; and a
    caller that finds that answer on its connection, behind any cutting of the
    stream into pieces, gets the function's result with code 0, having sent
    exactly the request packet. *)
Lemma rpc_call_transparent srv name args0 func args w r w' value0 e s rest :
  handlers_ srv !! name = Some (CallProxy pc args0 rc func) ->
  string_wf name -> wfp args -> wfr r -> func args w = (Ret r, w') ->
  e ≠ code_of RPC_ERR_RECV_TIMEOUT -> up s ->
  (Z.of_nat (length (str (request pc name args))) < 2 ^ 32)%Z ->
  (Z.of_nat (length (reply r)) < 2 ^ 32)%Z ->
  exists out, answer srv (str (request pc name args)) w = (Ret out, w') /\
    (inbox s = packet out ++ rest ->
     exists es, Call pc rc value0 name args (mkClient e (Some s))
       = (Ret (mkResponse (code_of RPC_SUCCECC) [] r),
          mkClient (code_of RPC_SUCCECC)
            (Some (mkSocket rest (sent s ++ packet (str (request pc name args))) false es)))).
Proof.
  intros Hh Hn Ha Hr Hf He Hu Hq Hp. exists (reply r).
  split; [by eapply answer_bound|]. intros Hi. by apply NetCall_reply.
Qed.
End calls.

Section serving.
Context {W : Type}.
Implicit Types (srv : RpcServer W) (w : W).

(** The answers to a list of requests, one after the other. *)
Inductive answers srv : list bytes -> W -> list bytes -> W -> Prop :=
| answers_nil w : answers srv [] w [] w
| answers_cons q qs w o w1 os w2 :
    answer srv q w = (Ret o, w1) -> answers srv qs w1 os w2 ->
    answers srv (q :: qs) w (o :: os) w2.

Definition small (b : bytes) : Prop := (Z.of_nat (length b) < 2 ^ 32)%Z.

Lemma zoom_fst {A} (m : SockM A) s w a s' :
  m s = (Ret a, s') ->
  zoom (E := Empty_set) fst (fun (sw : Socket * W) s => (s, snd sw)) m (s, w) = (Ret a, (s', w)).
Proof. intros E. by apply (zoom_Ret fst (fun (sw : Socket * W) s => (s, snd sw)) m (s, w)). Qed.

Lemma zoom_snd {A} (m : M W Empty_set A) (s : Socket) w a w' :
  m w = (Ret a, w') ->
  zoom snd (fun (sw : Socket * W) w => (fst sw, w)) m (s, w) = (Ret a, (s, w')).
Proof. intros E. by apply (zoom_Ret snd (fun (sw : Socket * W) w => (fst sw, w)) m (s, w)). Qed.

Lemma on_request_loop_answers srv qs w os w' :
  answers srv qs w os w' -> Forall small qs -> Forall small os ->
  forall fuel s, up s -> inbox s = mjoin (packet <$> qs) -> length qs < fuel ->
  exists s', on_request_loop srv fuel (s, w) = (Ret tt, (s', w'))
    /\ sent s' = sent s ++ mjoin (packet <$> os).
Proof.
  induction 1 as [w|q qs w o w1 os w2 Ha _ IH]; intros Hq Ho fuel s Hu Hi Hf;
    (destruct fuel as [|fuel]; [simpl in Hf; lia|]); cbn [on_request_loop].
  - destruct (AsyncReadPacket_eof s Hu Hi) as (s' & E & Hs).
    mstep (zoom_fst _ _ w _ _ E). exists s'. split; [done|]. by rewrite app_nil_r.
  - apply Forall_cons in Hq as [Hq1 Hq], Ho as [Ho1 Ho]. cbn in Hi.
    destruct (AsyncReadPacket_up q (mjoin (packet <$> qs)) s Hu Hq1 Hi) as (es & Hes1 & E).
    mstep (zoom_fst _ _ w _ _ E). mstep (zoom_snd _ (mkSocket (mjoin (packet <$> qs)) (sent s) false es) _ _ _ Ha).
    assert (up (mkSocket (mjoin (packet <$> qs)) (sent s) false es)) as Hu1 by (by eapply up_suffix).
    destruct (AsyncWritePacket_up o _ Hu1 Ho1) as (es' & Hes2 & E2). mstep (zoom_fst _ _ w1 _ _ E2).
    destruct (IH Hq Ho fuel (mkSocket (mjoin (packet <$> qs)) (sent s ++ packet o) false es'))
      as (s' & E3 & Hs'); [by eapply up_suffix|done|simpl in Hf; lia|].
    exists s'. split; [exact E3|]. cbn. rewrite Hs'. simpl sent. by rewrite <-app_assoc.
Qed.

Lemma packet_length b : 4 <= length (packet b).
Proof. unfold packet. rewrite length_app, le_bytes_length. unfold HEADER_SIZE. lia. Qed.

Lemma packets_length qs : length qs <= length (mjoin (packet <$> qs)).
Proof.
  induction qs as [|q qs IH]; [done|]. change (S (length qs) <= length (packet q ++ mjoin (packet <$> qs))).
  rewrite length_app. pose proof (packet_length q).
  apply (Nat.add_le_mono 1); [lia|exact IH].
Qed.

(** C20: a connection's requests are answered one after the other, each by one
    packet in the order of the requests, on the state the earlier ones left,
    and the loop ends when the client closes, for every way the stream is cut
    into pieces. *)
Theorem rpc_server_in_order srv qs w os w' s :
  answers srv qs w os w' -> Forall small qs -> Forall small os ->
  up s -> inbox s = mjoin (packet <$> qs) ->
  exists s', OnRequest srv (s, w) = (Ret tt, (s', w'))
    /\ sent s' = sent s ++ mjoin (packet <$> os).
Proof.
  intros Ha Hq Ho Hu Hi. unfold OnRequest. autorewrite with monad. simpl fst.
  apply (on_request_loop_answers srv qs w os w' Ha Hq Ho); [done|done|].
  cbn [fst]. rewrite Hi. apply Nat.lt_succ_r, packets_length.
Qed.
End serving.

Lemma unbound_reply_read n old msg : string_wf msg ->
  exists s, deserialize (RpcResponse_ (unsigned_ (S n))) old
              (Serializer_of (le_bytes 2 1 ++ string_enc msg)) = (Undef OutOfBounds, s).
Proof.
  intros Hm. cbn [RpcResponse_ struct_ tuple_ deserialize]. rewrite bind_assoc.
  assert (fits_unsigned 2 1) as H1 by (unfold fits_unsigned; simpl; lia).
  pose proof (deserialize_enc (c := uint16_) 1%Z (err_code old) [] (string_enc msg) H1) as E1.
  mstep E1. rewrite bind_assoc.
  pose proof (deserialize_next string_ string_wf string_enc msg (err_msg old) [] (le_bytes 2 1) [] Hm) as E2.
  rewrite app_nil_r in E2. rewrite bind_assoc. mstep E2.
  eexists. apply bind_Undef, bind_Undef, bind_Undef, bind_Undef.
  unfold take_bytes. simpl deserialize_pos_. simpl buffer_. by rewrite decide_False by (simpl; lia).
Qed.

(** A call of a function that is not bound reads past the server's answer:
    the answer has no value, and the caller deserializes one all the same, so
    every result type that takes at least a byte is read out of bounds. *)
Lemma rpc_unbound_reads_out_of_bounds {W P} (pc : Codec P) wfp encp `{!RoundTrip pc wfp encp}
    (srv : RpcServer W) name args w n value0 s rest :
  handlers_ srv !! name = None -> up s ->
  (Z.of_nat (length name) < 2 ^ 31)%Z ->
  (Z.of_nat (length (str (request pc name args))) < 2 ^ 32)%Z ->
  exists out, answer srv (str (request pc name args)) w = (Ret out, w) /\
    (inbox s = packet out ++ rest ->
     exists c, Call pc (unsigned_ (S n)) value0 name args (mkClient 0 (Some s)) = (Undef OutOfBounds, c)).
Proof.
  intros Hh Hu Hn Hq. unfold answer. rewrite (request_bytes pc wfp encp).
  assert (string_wf name) as Hs by (unfold string_wf, K_STRING_MAX_SIZE; lia).
  pose proof (deserialize_enc (c := string_) name [] [] (encp args) Hs) as E.
  mstep (with_serializer_Ret _ _ _ _ w E). unfold CallImpl. simpl fst. rewrite Hh.
  rewrite !serialize_enc.
  set (msg := lit "function not bind: " ++ name) in *.
  set (out := le_bytes 2 1 ++ string_enc msg). exists out. split; [done|]. intros Hi.
  unfold Call, NetCall. autorewrite with monad. rewrite decide_True by done. rewrite bind_assoc.
  destruct (AsyncWritePacket_up (str (request pc name args)) s Hu Hq) as (es & Hsf & E1).
  mstep (on_conn_Ret _ 0%Z _ _ _ E1).
  assert (Z.of_nat (length msg) < 2 ^ 31 + 19)%Z as Hm.
  { subst msg. rewrite length_app. change (length (lit "function not bind: ")) with 19. lia. }
  assert (length out = 10 + length msg) as Hlo.
  { unfold out, string_enc. rewrite !length_app, !le_bytes_length. lia. }
  destruct (AsyncReadPacket_up out rest
    (mkSocket (inbox s) (sent s ++ packet (str (request pc name args))) false es)) as (es' & _ & E2);
    [by eapply up_suffix|lia|done|].
  mstep (on_conn_Ret _ 0%Z _ _ _ E2). unfold set_err_code. autorewrite with monad.
  destruct (unbound_reply_read n (mkResponse 0 [] value0) msg) as [ss E3];
    [unfold string_wf, K_STRING_MAX_SIZE; lia|].
  eexists. apply bind_Undef. unfold with_serializer. fold out in E3. by rewrite E3.
Qed.

(** ** An instance: a server with one function, that adds its argument to the
    state and answers the sum. *)
Module Examples.
Definition add_to (args : Z * unit) : M Z Empty_set Z := fun w => (Ret (w + args.1)%Z, (w + args.1)%Z).
Definition args_ : Codec (Z * unit) := tuple_ uint32_ tuple0_.
Definition srv : RpcServer Z := Bind (lit "add") args_ (0%Z, tt) uint32_ add_to (mkServer ∅).

Definition out5 : bytes := str (serialize (RpcResponse_ uint32_) (mkResponse 0 [] 12%Z) Serializer_empty).
Definition conn5 : Socket := mkSocket (packet out5) [] false [Again; Ready 2; Ready 0].

Lemma rpc_call_transparent_witness :
  answer srv (str (request args_ (lit "add") (5%Z, tt))) 7%Z = (Ret out5, 12%Z) /\
  exists c, Call args_ uint32_ 0%Z (lit "add") (5%Z, tt) (mkClient 0 (Some conn5))
            = (Ret (mkResponse 0 [] 12%Z), c).
Proof.
  destruct (rpc_call_transparent args_ _ _ uint32_ _ _ srv (lit "add") (0%Z, tt) add_to (5%Z, tt) 7%Z
              12%Z 12%Z 0%Z 0%Z conn5 []) as (out & E & H).
  - reflexivity.
  - vm_compute. discriminate.
  - split; [split; [discriminate|reflexivity]|exact I].
  - split; [discriminate|reflexivity].
  - reflexivity.
  - discriminate.
  - split; [reflexivity|vm_decide].
  - vm_compute. reflexivity.
  - vm_compute. reflexivity.
  - assert (out = out5) as -> by (vm_compute in E; injection E as <-; vm_compute; reflexivity).
    split; [exact E|]. destruct (H ltac:(vm_compute; reflexivity)) as [es Hes].
    eexists. exact Hes.
Defined.

Definition req (n : Z) : bytes := str (request args_ (lit "add") (n, tt)).
Definition resp (n : Z) : bytes :=
  str (serialize (RpcResponse_ uint32_) (mkResponse 0 [] n) Serializer_empty).

Lemma rpc_server_in_order_witness :
  let s := mkSocket (packet (req 1) ++ packet (req 2)) [] false [Ready 3; Again; Again; Ready 0] in
  exists s', OnRequest srv (s, 0%Z) = (Ret tt, (s', 3%Z)) /\ sent s' = packet (resp 1) ++ packet (resp 3).
Proof.
  intros s.
  assert (mjoin (packet <$> [resp 1; resp 3]) = packet (resp 1) ++ packet (resp 3)) as Hj
    by (vm_compute; reflexivity).
  rewrite <-Hj.
  apply (rpc_server_in_order srv [req 1; req 2] 0%Z [resp 1; resp 3] 3%Z s).
  - eapply answers_cons; [vm_compute; reflexivity|].
    eapply answers_cons; [vm_compute; reflexivity|apply answers_nil].
  - repeat constructor.
  - repeat constructor.
  - split; [reflexivity|vm_decide].
  - vm_compute. reflexivity.
Defined.

Lemma rpc_unbound_reads_out_of_bounds_witness :
  exists out, answer srv (str (request args_ (lit "sub") (5%Z, tt))) 7%Z = (Ret out, 7%Z) /\
    exists c, Call args_ uint32_ 0%Z (lit "sub") (5%Z, tt)
      (mkClient 0 (Some (mkSocket (packet out) [] false []))) = (Undef OutOfBounds, c).
Proof.
  set (out := le_bytes 2 1 ++ string_enc (lit "function not bind: sub")).
  destruct (rpc_unbound_reads_out_of_bounds args_ _ _ srv (lit "sub") (5%Z, tt) 7%Z 3 0%Z
              (mkSocket (packet out) [] false []) []) as (out' & E & H).
  - reflexivity.
  - split; [reflexivity|vm_decide].
  - vm_compute. reflexivity.
  - vm_compute. reflexivity.
  - assert (out' = out) as -> by (vm_compute in E; injection E as <-; vm_compute; reflexivity).
    exists out. split; [exact E|]. apply H. vm_compute. reflexivity.
Defined.

(** A call after a timeout does not send its request: it takes the answer of
    the call that timed out for its own. *)
Lemma call_after_timeout_takes_old_answer :
  let c := mkClient (code_of RPC_ERR_RECV_TIMEOUT) (Some (mkSocket (packet (resp 1)) [] false [])) in
  exists c', Call args_ uint32_ 0%Z (lit "add") (100%Z, tt) c = (Ret (mkResponse 0 [] 1%Z), c')
    /\ (sent <$> conn_ c') = Some [].
Proof. eexists. split; vm_compute; reflexivity. Qed.
End Examples.
