(* ===== verification/RaftStorage.v ===== *)
(** * Raft messages and storage (src/bitdb/raft/raft_protocol.h, raft_storage.h,
      raft_state_machine.h)

    The messages and how each is serialized, and the storage: the term, the vote
    and the log in memory, and the file Flush writes them to. *)

From S2P Require Import Prelude FileIO Serializer.

(** ** raft_state_machine.h *)

(** A command, with the [serialize] and [deserialize] it overrides, and what its
    default constructor makes. *)
Class RaftCommand (Command : Type) := {
  Command_ : Codec Command;
  Command_default : Command
}.

(** What Raft relies on: a command is read back from what it was written as. *)
Class RaftCommandLaws (Command : Type) `{RaftCommand Command} := {
  Command_wf : Command -> Prop;
  Command_enc : Command -> bytes;
  #[global] Command_roundtrip :: RoundTrip Command_ Command_wf Command_enc;
  Command_default_wf : Command_wf Command_default
}.

(** The state machine the log is applied to. *)
Class RaftStateMachine (StateMachine Command : Type) := {
  ApplyLog : Command -> StateMachine -> StateMachine
}.

(** ** raft_protocol.h *)

Record RequestVoteArgs := mkRVArgs {
  rv_term : Z; rv_candidate_id : Z; rv_last_log_index : Z; rv_last_log_term : Z
}.

Definition RequestVoteArgs_ : Codec RequestVoteArgs :=
  struct_ (fun a => (rv_term a, (rv_candidate_id a, (rv_last_log_index a, (rv_last_log_term a, tt)))))
          (fun '(t, (c, (i, (l, _)))) => mkRVArgs t c i l)
          (tuple_ int32_ (tuple_ int32_ (tuple_ int32_ (tuple_ int32_ tuple0_)))).

Record RequestVoteReply := mkRVReply { rvr_term : Z; vote_granted : bool }.

Definition RequestVoteReply_ : Codec RequestVoteReply :=
  struct_ (fun r => (rvr_term r, (vote_granted r, tt)))
          (fun '(t, (v, _)) => mkRVReply t v)
          (tuple_ int32_ (tuple_ bool_ tuple0_)).

Record LogEntry (Command : Type) := mkEntry { cmd : Command; term : Z }.
Arguments mkEntry {Command} _ _.
Arguments cmd {Command} _.
Arguments term {Command} _.

Record AppendEntriesArgs (Command : Type) := mkAEArgs {
  ae_term : Z; ae_leader_id : Z; ae_prev_log_index : Z; ae_prev_log_term : Z;
  ae_entries : list (LogEntry Command); ae_leader_commit : Z
}.
Arguments mkAEArgs {Command} _ _ _ _ _ _.
Arguments ae_term {Command} _.
Arguments ae_leader_id {Command} _.
Arguments ae_prev_log_index {Command} _.
Arguments ae_prev_log_term {Command} _.
Arguments ae_entries {Command} _.
Arguments ae_leader_commit {Command} _.

Record AppendEntriesReply := mkAEReply { aer_term : Z; success : bool }.

(** [serialize] and [deserialize] of AppendEntriesReply have empty bodies. *)
Definition AppendEntriesReply_ : Codec AppendEntriesReply :=
  mkCodec (fun _ s => s) (fun old => mret old).

(** InstallSnapshotArgs and InstallSnapshotReply have no fields. *)
Definition InstallSnapshotArgs_ : Codec unit := tuple0_.
Definition InstallSnapshotReply_ : Codec unit := tuple0_.

Section protocol.
Context {Command : Type} `{RaftCommand Command}.

Definition LogEntry_default : LogEntry Command := mkEntry Command_default 0.

Definition LogEntry_ : Codec (LogEntry Command) :=
  struct_ (fun e => (cmd e, (term e, tt))) (fun '(c, (t, _)) => mkEntry c t)
          (tuple_ Command_ (tuple_ int32_ tuple0_)).

Definition AppendEntriesArgs_ : Codec (AppendEntriesArgs Command) :=
  struct_ (fun a => (ae_term a, (ae_leader_id a, (ae_prev_log_index a, (ae_prev_log_term a,
                    (ae_entries a, (ae_leader_commit a, tt)))))))
          (fun '(t, (l, (i, (pt, (es, (c, _)))))) => mkAEArgs t l i pt es c)
          (tuple_ int32_ (tuple_ int32_ (tuple_ int32_ (tuple_ int32_
             (tuple_ (sequence_ LogEntry_default LogEntry_) (tuple_ int32_ tuple0_)))))).

(** ** raft_storage.h *)

(** The open file: its contents, the position of the next [write] (the file is
    not opened with O_APPEND), and what the next system calls do. *)
Record RaftFile := mkFile { file_bytes : bytes; file_pos : nat; file_faults : list fault }.

Record RaftStorage := mkStorage {
  current_term : Z; vote_for : Z; log : list (LogEntry Command); io_handler_ : RaftFile
}.

Definition pop_fault (f : RaftFile) : fault * RaftFile :=
  match file_faults f with
  | [] => (Pass, f)
  | x :: xs => (x, mkFile (file_bytes f) (file_pos f) xs)
  end.

(** [bs] put at [pos]; a gap is filled with zeros. *)
Definition overwrite (pos : nat) (bs c : bytes) : bytes :=
  resize pos NUL c ++ bs ++ drop (pos + length bs) c.

(** [write] at the file position, which moves; -1 leaves the file alone. *)
Definition file_write (buf : bytes) (f : RaftFile) : RaftFile :=
  let buf := take (Z.to_nat (Z.min (Z.of_nat (length buf)) K_MAX_TRANSFER)) buf in
  let put b (f : RaftFile) :=
    mkFile (overwrite (file_pos f) b (file_bytes f)) (file_pos f + length b) (file_faults f) in
  match pop_fault f with
  | (Fail, f) => f
  | (Short n, f) => put (take n buf) f
  | (Pass, f) => put buf f
  end.

(** [pread] of [n] bytes from the start into a zeroed buffer of that size;
    [None] for -1. *)
Definition file_read (n : nat) (f : RaftFile) : option bytes * RaftFile :=
  match pop_fault f with
  | (Fail, f) => (None, f)
  | (Short k, f) => (Some (resize n NUL (take k (take n (file_bytes f)))), f)
  | (Pass, f) => (Some (resize n NUL (take n (file_bytes f))), f)
  end.

(** AddLog, for one entry and for several at the end of the log. *)
Definition AddLog (entry : LogEntry Command) (s : RaftStorage) : RaftStorage :=
  mkStorage (current_term s) (vote_for s) (log s ++ [entry]) (io_handler_ s).
Definition AddLogs (entries : list (LogEntry Command)) (s : RaftStorage) : RaftStorage :=
  mkStorage (current_term s) (vote_for s) (log s ++ entries) (io_handler_ s).

(** [log[i + 0] = entries[0]; log[i + 1] = entries[1]; ...]. *)
Fixpoint overwrite_log (i : nat) (entries l : list (LogEntry Command)) : list (LogEntry Command) :=
  match entries with
  | [] => l
  | e :: entries => overwrite_log (S i) entries (<[i := e]> l)
  end.

(** AddLog at an index: the log grows when it is too short, and never shrinks. *)
Definition AddLogAt (log_insert_index : nat) (entries : list (LogEntry Command)) (s : RaftStorage)
    : RaftStorage :=
  let need_size := log_insert_index + length entries in
  let l := if decide (length (log s) < need_size) then resize need_size LogEntry_default (log s)
           else log s in
  mkStorage (current_term s) (vote_for s) (overwrite_log log_insert_index entries l) (io_handler_ s).

(** What is written: the term, the vote and the log. *)
Definition Storage_ : Codec (Z * (Z * (list (LogEntry Command) * unit))) :=
  tuple_ int32_ (tuple_ int32_ (tuple_ (sequence_ LogEntry_default LogEntry_) tuple0_)).

Definition fields_of (s : RaftStorage) := (current_term s, (vote_for s, (log s, tt))).

Definition Storage_serialize (s : RaftStorage) : bytes :=
  str (serialize Storage_ (fields_of s) Serializer_empty).

(** Flush: a failed write is only logged. *)
Definition Flush (s : RaftStorage) : RaftStorage :=
  mkStorage (current_term s) (vote_for s) (log s) (file_write (Storage_serialize s) (io_handler_ s)).

(** The constructor, on the file as [open] finds or creates it. *)
Definition RaftStorage_open (contents : bytes) (faults : list fault) : outcome Empty_set RaftStorage :=
  let f := mkFile contents 0 faults in
  if decide (0 < length contents) then
    match file_read (length contents) f with
    | (None, f) => Ret (mkStorage 0 (-1) [] f)
    | (Some buffer, f) =>
        match deserialize Storage_ (0%Z, (0%Z, ([], tt))) (Serializer_of buffer) with
        | (Ret (t, (v, (l, _))), _) => Ret (mkStorage t v l f)
        | (Throw e, _) => match e with end
        | (Undef u, _) => Undef u
        end
    end
  else Ret (mkStorage 0 (-1) [] f).
End protocol.
Arguments RaftStorage _ : clear implicits.

(** ** Round trips *)

Definition int32 (z : Z) : Prop := (- 2 ^ 31 <= z < 2 ^ 31)%Z.

#[export] Instance RequestVoteArgs_roundtrip : RoundTrip RequestVoteArgs_ _ _ :=
  struct_roundtrip _ _ _ _ _ (fun '(mkRVArgs _ _ _ _) => eq_refl).
#[export] Instance RequestVoteReply_roundtrip : RoundTrip RequestVoteReply_ _ _ :=
  struct_roundtrip _ _ _ _ _ (fun '(mkRVReply _ _) => eq_refl).

Section laws.
Context {Command : Type} `{RaftCommandLaws Command}.

#[export] Instance LogEntry_roundtrip : RoundTrip LogEntry_ _ _ :=
  struct_roundtrip _ _ _ _ _ (fun '(mkEntry _ _) => eq_refl).
#[export] Instance AppendEntriesArgs_roundtrip : RoundTrip AppendEntriesArgs_ _ _ :=
  struct_roundtrip _ _ _ _ _ (fun '(mkAEArgs _ _ _ _ _ _) => eq_refl).

Implicit Types (s : RaftStorage Command) (l es : list (LogEntry Command)).

Definition entry_wf (e : LogEntry Command) : Prop := Command_wf (cmd e) /\ int32 (term e).

(** A storage whose fields fit the widths they are written with. *)
Definition storage_wf s : Prop :=
  int32 (current_term s) /\ int32 (vote_for s)
  /\ (Z.of_nat (length (log s)) < 2 ^ 32)%Z /\ Forall entry_wf (log s)
  /\ (Z.of_nat (length (Storage_serialize s)) <= K_MAX_TRANSFER)%Z.

Definition Storage_enc (v : Z * (Z * (list (LogEntry Command) * unit))) : bytes :=
  le_bytes 4 v.1 ++ le_bytes 4 v.2.1
  ++ sequence_enc (fun e => Command_enc (cmd e) ++ le_bytes 4 (term e) ++ []) v.2.2.1 ++ [].

Lemma Storage_roundtrip :
  RoundTrip Storage_
    (fun v => fits_signed 4 v.1 /\ fits_signed 4 v.2.1
       /\ sequence_wf (fun e => Command_wf (cmd e) /\ fits_signed 4 (term e) /\ True) v.2.2.1 /\ True)
    Storage_enc.
Proof.
  pose proof (_ : RoundTrip (tuple_ int32_ (tuple_ int32_ (tuple_ (sequence_ LogEntry_default LogEntry_)
    tuple0_))) _ _) as H1. exact H1.
Qed.

Lemma storage_wf_fields s : storage_wf s ->
  fits_signed 4 (current_term s) /\ fits_signed 4 (vote_for s)
  /\ sequence_wf (fun e => Command_wf (cmd e) /\ fits_signed 4 (term e) /\ True) (log s) /\ True.
Proof.
  intros (H1 & H2 & H3 & H4 & _). split_and!; [done|done|split; [done|]|done].
  eapply Forall_impl; [exact H4|]. intros e [He1 He2]. by split_and!.
Qed.

Lemma Storage_serialize_enc s : Storage_serialize s = Storage_enc (fields_of s).
Proof.
  unfold Storage_serialize. by rewrite (serialize_enc (RoundTrip := Storage_roundtrip)).
Qed.

(** ** The file *)

Lemma file_write_end buf c n :
  n = length c -> (Z.of_nat (length buf) <= K_MAX_TRANSFER)%Z ->
  file_write buf (mkFile c n []) = mkFile (c ++ buf) (n + length buf) [].
Proof.
  intros -> Hb. unfold file_write, overwrite. simpl.
  rewrite Z.min_l, Nat2Z.id, take_ge by lia.
  by rewrite resize_all, drop_ge, app_nil_r by lia.
Qed.

Lemma file_read_all c n : file_read (length c) (mkFile c n []) = (Some c, mkFile c n []).
Proof. unfold file_read. cbn. by rewrite take_ge, resize_all. Qed.

(** The file after a sequence of Flush calls on an open storage. *)
Definition flushes (f : RaftFile) (ss : list (RaftStorage Command)) : RaftFile :=
  foldl (fun f s => file_write (Storage_serialize s) f) f ss.

Lemma flushes_end ss : forall c, Forall storage_wf ss ->
  flushes (mkFile c (length c) []) ss
  = mkFile (c ++ mjoin (Storage_serialize <$> ss)) (length (c ++ mjoin (Storage_serialize <$> ss))) [].
Proof.
  induction ss as [|s ss IH]; intros c Hss; cbn [flushes foldl fmap list_fmap mjoin list_join].
  - by rewrite app_nil_r.
  - apply Forall_cons in Hss as [Hs Hss]. rewrite file_write_end by (done || apply Hs).
    rewrite <-length_app. fold (flushes (mkFile (c ++ Storage_serialize s)
      (length (c ++ Storage_serialize s)) []) ss). rewrite IH by done. by rewrite <-app_assoc.
Qed.

(** C32: what a storage opened on an empty file and flushed any number of times
    holds when it is opened again.  One Flush makes a round trip: the term, the
    vote and the whole log come back.  But each further Flush writes behind the
    ones before it, and the constructor reads the front of the file, so every
    later state is lost: the storage comes back as it was at the first Flush. *)
Theorem storage_reload s later :
  storage_wf s -> Forall storage_wf later ->
  exists f, RaftStorage_open (file_bytes (flushes (mkFile [] 0 []) (s :: later))) []
            = Ret (mkStorage (current_term s) (vote_for s) (log s) f).
Proof.
  intros Hs Hl. rewrite (flushes_end (s :: later) [] ltac:(auto) : flushes (mkFile [] 0 []) _ = _).
  cbn [file_bytes app].
  change (mjoin (Storage_serialize <$> s :: later))
    with (Storage_serialize s ++ mjoin (Storage_serialize <$> later)).
  set (rest := mjoin _). rewrite Storage_serialize_enc.
  pose proof (deserialize_enc (RoundTrip := Storage_roundtrip) (fields_of s)
                (0%Z, (0%Z, ([], tt))) [] rest (storage_wf_fields s Hs)) as E.
  unfold RaftStorage_open. rewrite decide_True by (rewrite length_app; simpl; lia).
  rewrite file_read_all. eexists. unfold Serializer_of.
  cbn [app length] in E. by rewrite E.
Qed.

(** ** Inserting entries *)

Lemma overwrite_log_spec es : forall i l, i + length es <= length l ->
  overwrite_log i es l = take i l ++ es ++ drop (i + length es) l.
Proof.
  induction es as [|e es IH]; intros i l Hl; simpl in *.
  - by rewrite Nat.add_0_r, take_drop.
  - rewrite IH by (rewrite length_insert; lia).
    rewrite (take_S_r _ _ e) by (apply list_lookup_insert_eq; lia).
    rewrite take_insert_ge by lia. rewrite <-app_assoc. simpl. do 3 f_equal.
    rewrite drop_insert_lt by lia. f_equal. lia.
Qed.

(** AddLog at an index inside or right behind the log replaces the entries from
    there on, and keeps what lies behind the new ones. *)
Lemma AddLogAt_log i es s : i <= length (log s) ->
  log (AddLogAt i es s) = take i (log s) ++ es ++ drop (i + length es) (log s).
Proof.
  intros Hi. unfold AddLogAt. simpl. case_decide.
  - rewrite overwrite_log_spec by (rewrite length_resize; lia).
    rewrite resize_ge by lia. rewrite take_app_le by done.
    rewrite (drop_ge _ (i + length es)) by (rewrite length_app, length_replicate; lia).
    by rewrite (drop_ge (log s)) by lia.
  - by rewrite overwrite_log_spec by lia.
Qed.

(** In general the log first grows by default entries. *)
Lemma AddLogAt_log_resize i es s :
  log (AddLogAt i es s)
  = take i (resize (length (log s) `max` (i + length es)) LogEntry_default (log s)) ++ es
    ++ drop (i + length es) (log s).
Proof.
  unfold AddLogAt. simpl. case_decide.
  - rewrite Nat.max_r by lia. rewrite overwrite_log_spec by (rewrite length_resize; lia).
    rewrite (drop_ge (resize _ _ _)) by (rewrite length_resize; lia).
    by rewrite (drop_ge (log s)) by lia.
  - rewrite Nat.max_l, resize_all by lia. by rewrite overwrite_log_spec by lia.
Qed.

Lemma AddLogAt_length i es s :
  length (log (AddLogAt i es s)) = length (log s) `max` (i + length es).
Proof.
  rewrite AddLogAt_log_resize, !length_app, length_take, length_resize, length_drop. lia.
Qed.
End laws.

(** ** The commands of the tests: a command is an int, a state machine a list of
    them (tests/raft/raft_test_utils.h). *)
Module Examples.
#[export] Instance ListCommand : RaftCommand Z := {| Command_ := int32_; Command_default := 0%Z |}.
#[export] Instance ListCommandLaws : RaftCommandLaws Z.
Proof.
  refine {| Command_wf := fits_signed 4; Command_enc := le_bytes 4 |}.
  unfold fits_signed. simpl. lia.
Defined.
#[export] Instance ListStateMachine : RaftStateMachine (list Z) Z := {| ApplyLog c l := l ++ [c] |}.

Definition first : RaftStorage Z := mkStorage 1 0 [mkEntry 7%Z 1] (mkFile [] 0 []).
Definition second : RaftStorage Z := mkStorage 2 (-1) [mkEntry 7%Z 1; mkEntry 8%Z 2] (mkFile [] 0 []).

Lemma storage_reload_witness :
  exists f, RaftStorage_open (file_bytes (flushes (mkFile [] 0 []) [first; second])) []
            = Ret (mkStorage 1 0 [mkEntry 7%Z 1] f).
Proof.
  apply (storage_reload first [second]);
    [|constructor; [|constructor]];
    (split; [split; [discriminate|reflexivity]|]); (split; [split; [discriminate|reflexivity]|]);
    (split; [vm_compute; reflexivity|]); (split; [|vm_compute; discriminate]);
    repeat (constructor; [split; split; vm_compute; (discriminate || reflexivity)|]); constructor.
Defined.
End Examples.
