(* ===== verification/Raft.v ===== *)
(** * A Raft node (src/bitdb/raft/raft.h)

    The class Raft as a record and one definition per member function.  The
    handlers and the background threads hold the node's mutex while they run, so
    each is one transition of the node; a background thread is one turn of its
    loop.  The coroutines that call the peers are split where they wait for the
    answer: what is sent is returned as a list of calls, and what happens with
    the answer is a definition of its own ([..._reply]).  What the code reads from
    the clock and from the random generator is an argument. *)

From S2P Require Import Prelude Serializer RaftStorage.

(** ** The node *)

Inductive RaftRole := follower | candidate | leader.

#[export] Instance RaftRole_eq_dec : EqDecision RaftRole.
Proof. solve_decision. Defined.

Section raft.
Context {Command StateMachine : Type} `{RaftCommand Command, RaftStateMachine StateMachine Command}.

(** [leader_id_] is never read or written.  The answer of RoleToString only goes
    to the log. *)
Record Raft := mkRaft {
  my_id_ : nat;
  num_nodes : nat;
  stopped_ : bool;
  role_ : RaftRole;
  last_received_rpc_time_ : Z;
  follower_id_set_ : gset nat;
  current_term_ : Z;
  vote_for_ : Z;
  storage_ : RaftStorage Command;
  commit_index_ : Z;
  last_applied_ : Z;
  next_index_ : list Z;
  match_index_ : list Z;
  state_machine_ : StateMachine
}.

(** Assignments to the members. *)
Definition set_stopped (b : bool) (n : Raft) : Raft :=
  let '(mkRaft id k _ r t f c v s ci la ni mi sm) := n in mkRaft id k b r t f c v s ci la ni mi sm.
Definition set_role (r : RaftRole) (n : Raft) : Raft :=
  let '(mkRaft id k st _ t f c v s ci la ni mi sm) := n in mkRaft id k st r t f c v s ci la ni mi sm.
Definition set_time (t : Z) (n : Raft) : Raft :=
  let '(mkRaft id k st r _ f c v s ci la ni mi sm) := n in mkRaft id k st r t f c v s ci la ni mi sm.
Definition set_followers (f : gset nat) (n : Raft) : Raft :=
  let '(mkRaft id k st r t _ c v s ci la ni mi sm) := n in mkRaft id k st r t f c v s ci la ni mi sm.
Definition set_term (c : Z) (n : Raft) : Raft :=
  let '(mkRaft id k st r t f _ v s ci la ni mi sm) := n in mkRaft id k st r t f c v s ci la ni mi sm.
Definition set_vote (v : Z) (n : Raft) : Raft :=
  let '(mkRaft id k st r t f c _ s ci la ni mi sm) := n in mkRaft id k st r t f c v s ci la ni mi sm.
Definition set_storage (s : RaftStorage Command) (n : Raft) : Raft :=
  let '(mkRaft id k st r t f c v _ ci la ni mi sm) := n in mkRaft id k st r t f c v s ci la ni mi sm.
Definition set_commit (ci : Z) (n : Raft) : Raft :=
  let '(mkRaft id k st r t f c v s _ la ni mi sm) := n in mkRaft id k st r t f c v s ci la ni mi sm.
Definition set_applied (la : Z) (n : Raft) : Raft :=
  let '(mkRaft id k st r t f c v s ci _ ni mi sm) := n in mkRaft id k st r t f c v s ci la ni mi sm.
Definition set_next (ni : list Z) (n : Raft) : Raft :=
  let '(mkRaft id k st r t f c v s ci la _ mi sm) := n in mkRaft id k st r t f c v s ci la ni mi sm.
Definition set_match (mi : list Z) (n : Raft) : Raft :=
  let '(mkRaft id k st r t f c v s ci la ni _ sm) := n in mkRaft id k st r t f c v s ci la ni mi sm.
Definition set_machine (sm : StateMachine) (n : Raft) : Raft :=
  let '(mkRaft id k st r t f c v s ci la ni mi _) := n in mkRaft id k st r t f c v s ci la ni mi sm.

Abbreviation RaftM := (M Raft Empty_set).

(** The constructor. *)
Definition Raft_new (idx num : nat) (storage : RaftStorage Command) (sm : StateMachine) (now : Z) : Raft :=
  mkRaft idx num false follower now ∅ 0 (-1) storage 0 0 [] [] sm.

(** Stop: the background threads see [stopped_] and end. *)
Definition Stop : RaftM unit := modify (set_stopped true).

(** ** The log *)

Definition node_log (n : Raft) : list (LogEntry Command) := log (storage_ n).

(** GetLastLogIndex: the size of the log, as an int32. *)
Definition GetLastLogIndex (n : Raft) : Z := s32 (Z.of_nat (length (node_log n))).

(** [storage_->log[i]]. *)
Definition log_at (i : Z) (n : Raft) : option (LogEntry Command) :=
  if decide (0 <= i)%Z then node_log n !! Z.to_nat i else None.

(** GetLogTerm: entries are counted from 1; [None] when the log is read out of
    its bounds. *)
Definition GetLogTerm (log_index : Z) (n : Raft) : option Z :=
  if decide (GetLastLogIndex n < log_index)%Z then Some (-1)%Z
  else if decide (log_index = 0%Z) then Some 0%Z
  else term <$> log_at (log_index - 1) n.

(** ** Roles *)

Definition BeginNewTerm (now t : Z) (n : Raft) : Raft :=
  let n := set_followers ∅ (set_time now (set_term t n)) in
  let s := storage_ n in
  set_storage (Flush (mkStorage t (-1) (log s) (io_handler_ s))) n.

Definition BecomeFollower (now t : Z) (n : Raft) : Raft :=
  BeginNewTerm now t (set_vote (-1) (set_role follower n)).

Definition BecomeCandidate (now t : Z) (n : Raft) : Raft :=
  BeginNewTerm now t (set_vote (Z.of_nat (my_id_ n)) (set_role candidate n)).

Definition BecomeLeader (n : Raft) : Raft :=
  set_match (replicate (num_nodes n) 0%Z)
    (set_next (replicate (num_nodes n) (GetLastLogIndex n + 1)%Z) (set_role leader n)).

(** ** Handlers *)

Definition RequestVote (now : Z) (args : RequestVoteArgs) : RaftM RequestVoteReply :=
  n ← get;
  if stopped_ n then mret (mkRVReply 0 false) else
  (if decide (current_term_ n < rv_term args)%Z
   then modify (BecomeFollower now (rv_term args)) else mret tt);;
  n ← get;
  granted ←
    (if decide (rv_term args = current_term_ n
                /\ (vote_for_ n = -1 \/ vote_for_ n = rv_candidate_id args))%Z then
       let last_log_index := GetLastLogIndex n in
       last_log_term ← some_or OutOfBounds (GetLogTerm last_log_index n);
       if decide (last_log_term < rv_last_log_term args
                  \/ (last_log_term = rv_last_log_term args
                      /\ last_log_index <= rv_last_log_index args))%Z
       then modify (set_vote (rv_candidate_id args));; mret true
       else mret false
     else mret false);
  n ← get;
  mret (mkRVReply (current_term_ n) granted).

(** The loop that looks for the first entry of the message the log does not
    have: where it is to go, and which one it is. *)
Fixpoint find_insert (l : list (LogEntry Command)) (log_insert_index : nat)
    (entries : list (LogEntry Command)) (new_entries_index : nat) : nat * nat :=
  match entries with
  | [] => (log_insert_index, new_entries_index)
  | e :: entries =>
      match l !! log_insert_index with
      | None => (log_insert_index, new_entries_index)
      | Some e' =>
          if decide (term e' ≠ term e) then (log_insert_index, new_entries_index)
          else find_insert l (S log_insert_index) entries (S new_entries_index)
      end
  end.

(** is_log_index_matched. *)
Definition is_log_index_matched (prev_log_index prev_log_term : Z) : RaftM bool :=
  n ← get;
  if decide (GetLastLogIndex n < prev_log_index)%Z then mret false else
  t ← some_or OutOfBounds (GetLogTerm prev_log_index n);
  mret (bool_decide (prev_log_term = t)).

(** The part of AppendEntries that runs when the logs match; a match implies
    that [prev_log_index] is not negative. *)
Definition append_matched (args : AppendEntriesArgs Command) (n : Raft) : Raft :=
  let '(log_insert_index, new_entries_index) :=
    find_insert (node_log n) (Z.to_nat (ae_prev_log_index args + 1)) (ae_entries args) 0 in
  let n :=
    if decide (new_entries_index < length (ae_entries args))
    then set_storage (AddLogAt log_insert_index (drop new_entries_index (ae_entries args)) (storage_ n)) n
    else n in
  if decide (commit_index_ n < ae_leader_commit args)%Z
  then set_commit (Z.min (ae_leader_commit args) (s32 (Z.of_nat (length (node_log n)) - 1))) n
  else n.

(** AppendEntries; [reply.term] starts out as 0. *)
Definition AppendEntries (now : Z) (args : AppendEntriesArgs Command) : RaftM AppendEntriesReply :=
  n ← get;
  if decide ((ae_term args < current_term_ n)%Z \/ stopped_ n = true)
  then mret (mkAEReply (current_term_ n) false) else
  (if decide (current_term_ n < ae_term args)%Z
   then modify (BecomeFollower now (ae_term args)) else mret tt);;
  n ← get;
  match ae_entries args with
  | [] =>
      (if decide (role_ n ≠ follower) then modify (BecomeFollower now (ae_term args)) else mret tt);;
      modify (set_time now);;
      mret (mkAEReply 0 false)
  | _ =>
      success ←
        (if decide (ae_term args = current_term_ n) then
           (if decide (role_ n ≠ follower) then modify (BecomeFollower now (ae_term args)) else mret tt);;
           modify (set_time now);;
           m ← is_log_index_matched (ae_prev_log_index args) (ae_prev_log_term args);
           if m : bool then modify (append_matched args);; mret true else mret false
         else mret false);
      n ← get;
      mret (mkAEReply (current_term_ n) success)
  end.

(** InstallSnapshot answers without doing anything; SaveSnapshot and
    SendInstallSnapshot have empty bodies. *)
Definition InstallSnapshot (args : unit) : RaftM unit := mret tt.

(** ** Calls to the peers *)

Inductive call :=
| CallRequestVote (target : nat) (arg : RequestVoteArgs) (saved_current_term : Z)
| CallAppendEntries (target : nat) (arg : AppendEntriesArgs Command) (saved_current_term : Z)
    (is_heartbeat : bool).

(** Every node but this one. *)
Definition peers (n : Raft) : list nat :=
  filter (fun i => i ≠ my_id_ n) (seq 0 (num_nodes n)).

(** SendRequestVote, after the answer has come. *)
Definition SendRequestVote_reply (now : Z) (target : nat) (saved_current_term : Z)
    (reply : RequestVoteReply) : RaftM unit :=
  n ← get;
  if decide (role_ n ≠ candidate) then mret tt
  else if decide (saved_current_term < rvr_term reply)%Z
  then modify (BecomeFollower now (rvr_term reply))
  else
    (if decide (rvr_term reply = saved_current_term /\ vote_granted reply = true)
     then modify (set_followers ({[ target ]} ∪ follower_id_set_ n)) else mret tt);;
    n ← get;
    if decide (Z.of_nat (num_nodes n) / 2 < Z.of_nat (size (follower_id_set_ n)) + 1)%Z
    then modify BecomeLeader else mret tt.

(** [match_count] of the entry [i]: the node itself and the followers that are
    known to have it; [None] when [match_index_] is read out of its bounds. *)
Definition match_count (n : Raft) (i : Z) : option Z :=
  ms ← mapM (fun f => match_index_ n !! f) (elements (follower_id_set_ n));
  Some (1 + Z.of_nat (length (filter (fun m => i <= m)%Z ms)))%Z.

(** The loop over the entries behind [commit_index_]. *)
Fixpoint advance_commit (k : nat) (i t : Z) : RaftM unit :=
  match k with
  | O => mret tt
  | S k =>
      n ← get;
      e ← some_or OutOfBounds (log_at i n);
      (if decide (term e = t) then
         c ← some_or OutOfBounds (match_count n i);
         if decide (Z.of_nat (num_nodes n) + 1 < c * 2)%Z then modify (set_commit i) else mret tt
       else mret tt);;
      advance_commit k (i + 1) t
  end.

(** SendAppendEntries, after the answer has come. *)
Definition SendAppendEntries_reply (now : Z) (target : nat) (arg : AppendEntriesArgs Command)
    (saved_current_term : Z) (is_heartbeat : bool) (reply : AppendEntriesReply) : RaftM unit :=
  if is_heartbeat then mret tt else
  n ← get;
  if decide (saved_current_term < aer_term reply)%Z
  then modify (BecomeFollower now (aer_term reply))
  else if decide (role_ n = leader /\ aer_term reply = saved_current_term) then
    next ← some_or OutOfBounds (next_index_ n !! target);
    if success reply then
      let next' := (next + Z.of_nat (length (ae_entries arg)))%Z in
      (if decide (target < length (match_index_ n)) then mret tt else undef OutOfBounds);;
      modify (fun n => set_match (<[target := (next' - 1)%Z]> (match_index_ n))
                         (set_next (<[target := next']> (next_index_ n)) n));;
      n ← get;
      advance_commit (Z.to_nat (Z.of_nat (length (node_log n)) - (commit_index_ n + 1)))
        (commit_index_ n + 1) (aer_term reply)
    else modify (fun n => set_next (<[target := (next - 1)%Z]> (next_index_ n)) n)
  else mret tt.

(** StartElection: the calls it spawns. *)
Definition StartElection (now : Z) : RaftM (list call) :=
  n ← get;
  if decide (current_term_ n = 2 ^ 31 - 1)%Z then undef SignedOverflow else
  modify (BecomeCandidate now (current_term_ n + 1));;
  n ← get;
  let last_log_index := GetLastLogIndex n in
  last_log_term ← some_or OutOfBounds (GetLogTerm last_log_index n);
  let args := mkRVArgs (current_term_ n) (Z.of_nat (my_id_ n)) last_log_index last_log_term in
  mret ((fun i => CallRequestVote i args (current_term_ n)) <$> peers n).

(** Random::UniformRange(150, 300) on the number [Next] answers. *)
Definition random_timeout (next : Z) : Z := (150 + u32 next mod 150)%Z.

(** One turn of RunBackgroundElection. *)
Definition RunBackgroundElection (now next : Z) : RaftM (list call) :=
  n ← get;
  if stopped_ n then mret [] else
  if decide (role_ n = leader) then mret []
  else if decide (random_timeout next < now - last_received_rpc_time_ n)%Z
  then StartElection now else mret [].

(** The call to one peer in LeaderSendHeartbeat. *)
Definition heartbeat_to (n : Raft) (i : nat) : option call :=
  next ← next_index_ n !! i;
  let prev_log_index := (next - 1)%Z in
  prev_log_term ← GetLogTerm prev_log_index n;
  Some (CallAppendEntries i
          (mkAEArgs (current_term_ n) (Z.of_nat (my_id_ n)) prev_log_index prev_log_term []
             (commit_index_ n)) (current_term_ n) true).

Definition LeaderSendHeartbeat : RaftM (list call) :=
  n ← get; some_or OutOfBounds (mapM (heartbeat_to n) (peers n)).

(** One turn of RunBackgroundHeartbeat. *)
Definition RunBackgroundHeartbeat : RaftM (list call) :=
  n ← get;
  if stopped_ n then mret [] else if decide (role_ n = leader) then LeaderSendHeartbeat else mret [].

(** The call to one peer in RunBackgroundCommit: [Some None] when the peer needs
    nothing, [None] when a vector is read out of its bounds. *)
Definition commit_to (n : Raft) (i : nat) : option (option call) :=
  next ← next_index_ n !! i;
  if decide (GetLastLogIndex n < next)%Z then Some None else
  let prev_log_index := (next - 1)%Z in
  prev_log_term ← GetLogTerm prev_log_index n;
  if decide (0 <= prev_log_index <= Z.of_nat (length (node_log n)))%Z then
    Some (Some (CallAppendEntries i
      (mkAEArgs (current_term_ n) (Z.of_nat (my_id_ n)) prev_log_index prev_log_term
         (drop (Z.to_nat prev_log_index) (node_log n)) (commit_index_ n)) (current_term_ n) false))
  else None.

(** One turn of RunBackgroundCommit. *)
Definition RunBackgroundCommit : RaftM (list call) :=
  n ← get;
  if stopped_ n then mret [] else
  if decide (role_ n ≠ leader) then mret [] else
  cs ← some_or OutOfBounds (mapM (commit_to n) (peers n));
  mret (omap id cs).

(** [while (commit_index_ > last_applied_)]. *)
Fixpoint apply_loop (k : nat) : RaftM unit :=
  match k with
  | O => mret tt
  | S k =>
      n ← get;
      e ← some_or OutOfBounds (log_at (last_applied_ n) n);
      modify (fun n => set_applied (last_applied_ n + 1) (set_machine (ApplyLog (cmd e) (state_machine_ n)) n));;
      apply_loop k
  end.

(** One turn of RunBackgroundApply. *)
Definition RunBackgroundApply : RaftM unit :=
  n ← get;
  if stopped_ n then mret tt else apply_loop (Z.to_nat (commit_index_ n - last_applied_ n)).

(** NewCommand: the term and the index it reports, or [None] for [false]. *)
Definition NewCommand (c : Command) : RaftM (option (Z * Z)) :=
  n ← get;
  if decide (stopped_ n = true \/ role_ n ≠ leader) then mret None else
  let index := GetLastLogIndex n in
  modify (set_storage (Flush (AddLog (mkEntry c (current_term_ n)) (storage_ n))));;
  mret (Some (current_term_ n, index)).

(** IsLeader: whether the node leads, and its term. *)
Definition IsLeader (n : Raft) : bool * Z := (bool_decide (role_ n = leader), current_term_ n).
End raft.

Arguments Raft _ _ : clear implicits.
Arguments call _ : clear implicits.
