(* ===== verification/RaftNode.v ===== *)
(** * What the member functions of a Raft node do

    One lemma per member function: the answer and the new state on every branch,
    for a node whose log has fewer than 2^31 entries. *)

From S2P Require Import Prelude Serializer RaftStorage Raft.

Section node.
Context {Command StateMachine : Type} `{RaftCommand Command, RaftStateMachine StateMachine Command}.
Implicit Types (n : Raft Command StateMachine).

Definition short n : Prop := (Z.of_nat (length (node_log n)) < 2 ^ 31)%Z.

Lemma GetLastLogIndex_short n : short n -> GetLastLogIndex n = Z.of_nat (length (node_log n)).
Proof. intros Hs. unfold GetLastLogIndex. apply s32_small. unfold short in Hs. lia. Qed.

Lemma GetLogTerm_short n i : short n -> (0 <= i)%Z -> exists t, GetLogTerm i n = Some t.
Proof.
  intros Hs Hi. unfold GetLogTerm. rewrite (GetLastLogIndex_short n Hs).
  case_decide; [by eexists|]. case_decide; [by eexists|].
  unfold log_at. rewrite decide_True by lia.
  destruct (lookup_lt_is_Some_2 (node_log n) (Z.to_nat (i - 1))) as [e ->]; [lia|]. by eexists.
Qed.

(** ** Fields *)

(** The fields an election depends on. *)
Definition view n := (my_id_ n, num_nodes n, role_ n, current_term_ n, vote_for_ n, follower_id_set_ n).

(** The fields the followers' logs are replicated by. *)
Definition progress n :=
  (node_log n, commit_index_ n, last_applied_ n, next_index_ n, match_index_ n, state_machine_ n).

Lemma view_follower now t n :
  view (BecomeFollower now t n) = (my_id_ n, num_nodes n, follower, t, (-1)%Z, ∅).
Proof. by destruct n. Qed.
Lemma view_candidate now t n :
  view (BecomeCandidate now t n) = (my_id_ n, num_nodes n, candidate, t, Z.of_nat (my_id_ n), ∅).
Proof. by destruct n. Qed.
Lemma view_leader n :
  view (BecomeLeader n) = (my_id_ n, num_nodes n, leader, current_term_ n, vote_for_ n, follower_id_set_ n).
Proof. by destruct n. Qed.
Lemma view_time now n : view (set_time now n) = view n.
Proof. by destruct n. Qed.
Lemma view_vote v n :
  view (set_vote v n) = (my_id_ n, num_nodes n, role_ n, current_term_ n, v, follower_id_set_ n).
Proof. by destruct n. Qed.
Lemma view_followers f n :
  view (set_followers f n) = (my_id_ n, num_nodes n, role_ n, current_term_ n, vote_for_ n, f).
Proof. by destruct n. Qed.
Lemma view_storage s n : view (set_storage s n) = view n.
Proof. by destruct n. Qed.
Lemma view_matched args n : view (append_matched args n) = view n.
Proof.
  unfold append_matched. destruct (find_insert _ _ _ _) as [i k].
  destruct n; simpl; case_decide; simpl; by case_decide.
Qed.

Lemma progress_follower now t n : progress (BecomeFollower now t n) = progress n.
Proof. by destruct n. Qed.
Lemma progress_candidate now t n : progress (BecomeCandidate now t n) = progress n.
Proof. by destruct n. Qed.
Lemma progress_time now n : progress (set_time now n) = progress n.
Proof. by destruct n. Qed.
Lemma progress_vote v n : progress (set_vote v n) = progress n.
Proof. by destruct n. Qed.
Lemma progress_followers f n : progress (set_followers f n) = progress n.
Proof. by destruct n. Qed.
Lemma progress_stopped b n : progress (set_stopped b n) = progress n.
Proof. by destruct n. Qed.

Lemma short_progress n n' : progress n' = progress n -> short n -> short n'.
Proof. unfold short. intros [= ->]. done. Qed.

(** ** Handlers *)

(** The first thing both handlers do with a message of a later term. *)
Definition catch_up (now t : Z) n : Raft Command StateMachine :=
  if decide (current_term_ n < t)%Z then BecomeFollower now t n else n.

Lemma progress_catch_up now t n : progress (catch_up now t n) = progress n.
Proof. unfold catch_up. case_decide; [apply progress_follower|done]. Qed.

Lemma run_catch_up {B} now t (k : unit -> M _ Empty_set B) n :
  (u ← (if decide (current_term_ n < t)%Z then modify (BecomeFollower now t) else mret tt); k u) n
  = k tt (catch_up now t n).
Proof. unfold catch_up. by case_decide. Qed.

(** A vote is granted only to a candidate of the node's own term, which the node
    has not voted against and whose log is at least as long as its own. *)
Definition may_grant (a : RequestVoteArgs) n : Prop :=
  rv_term a = current_term_ n /\ (vote_for_ n = (-1)%Z \/ vote_for_ n = rv_candidate_id a)
  /\ exists t, GetLogTerm (GetLastLogIndex n) n = Some t
     /\ (t < rv_last_log_term a \/ (t = rv_last_log_term a /\ GetLastLogIndex n <= rv_last_log_index a))%Z.

Lemma RequestVote_spec now a n : short n -> stopped_ n = false ->
  let n1 := catch_up now (rv_term a) n in
  (may_grant a n1
   /\ RequestVote now a n = (Ret (mkRVReply (current_term_ n1) true), set_vote (rv_candidate_id a) n1))
  \/ (~ may_grant a n1 /\ RequestVote now a n = (Ret (mkRVReply (current_term_ n1) false), n1)).
Proof.
  intros Hs Hst n1. unfold RequestVote. autorewrite with monad. rewrite Hst, run_catch_up. fold n1.
  assert (short n1) as Hs1 by (eapply short_progress; [apply progress_catch_up|done]).
  autorewrite with monad.
  case_decide as D1.
  - destruct (GetLogTerm_short n1 (GetLastLogIndex n1) Hs1) as [t Ht];
      [rewrite (GetLastLogIndex_short _ Hs1); lia|].
    rewrite bind_assoc, Ht. autorewrite with monad. case_decide as D2.
    + left. split; [by destruct D1; split_and!; eauto|].
      rewrite bind_assoc. autorewrite with monad. by destruct n1.
    + right. split; [|done]. intros (_ & _ & t' & Ht' & Hc). congruence.
  - right. split; [|done]. intros (? & ? & _). naive_solver.
Qed.

Lemma RequestVote_stopped now a n : stopped_ n = true ->
  RequestVote now a n = (Ret (mkRVReply 0 false), n).
Proof. intros Hst. unfold RequestVote. autorewrite with monad. by rewrite Hst. Qed.

(** A message of the node's own term makes any node a follower. *)
Definition step_down (now t : Z) n : Raft Command StateMachine :=
  if decide (role_ n ≠ follower) then BecomeFollower now t n else n.

Lemma progress_step_down now t n : progress (step_down now t n) = progress n.
Proof. unfold step_down. case_decide; [apply progress_follower|done]. Qed.

Lemma run_step_down {B} now t (k : unit -> M _ Empty_set B) n :
  (u ← (if decide (role_ n ≠ follower) then modify (BecomeFollower now t) else mret tt); k u) n
  = k tt (step_down now t n).
Proof. unfold step_down. by case_decide. Qed.

(** The state in which AppendEntries looks at the entries. *)
Definition heard (now t : Z) n : Raft Command StateMachine :=
  set_time now (step_down now t (catch_up now t n)).

Lemma progress_heard now t n : progress (heard now t n) = progress n.
Proof. unfold heard. by rewrite progress_time, progress_step_down, progress_catch_up. Qed.

Lemma catch_up_term now t n : (current_term_ n <= t)%Z -> current_term_ (catch_up now t n) = t.
Proof. intros Ht. unfold catch_up. case_decide; [by destruct n|lia]. Qed.

Lemma heard_term now t n : (current_term_ n <= t)%Z -> current_term_ (heard now t n) = t.
Proof.
  intros Ht. unfold heard, step_down. pose proof (catch_up_term now t n Ht) as Hc.
  revert Hc. generalize (catch_up now t n). intros m Hm. case_decide; by destruct m.
Qed.

Lemma heard_view now t n : (current_term_ n <= t)%Z ->
  view (heard now t n)
  = (my_id_ n, num_nodes n, follower, t,
     (if decide (current_term_ n = t /\ role_ n = follower) then vote_for_ n else -1)%Z,
     (if decide (current_term_ n = t /\ role_ n = follower) then follower_id_set_ n else ∅)).
Proof.
  intros Ht. unfold heard, step_down, catch_up.
  destruct n; simpl in *; repeat (case_decide; simpl in *); naive_solver lia.
Qed.

Definition matches (a : AppendEntriesArgs Command) n : Prop :=
  (ae_prev_log_index a <= GetLastLogIndex n)%Z
  /\ GetLogTerm (ae_prev_log_index a) n = Some (ae_prev_log_term a).

#[export] Instance matches_dec a n : Decision (matches a n).
Proof. unfold matches. apply _. Defined.

(** AppendEntries of a message that is stale, a heartbeat, does not match, or
    does. *)
Lemma AppendEntries_stale now a n : (ae_term a < current_term_ n)%Z \/ stopped_ n = true ->
  AppendEntries now a n = (Ret (mkAEReply (current_term_ n) false), n).
Proof. intros Hc. unfold AppendEntries. autorewrite with monad. by rewrite decide_True. Qed.

Lemma AppendEntries_heartbeat now a n :
  (current_term_ n <= ae_term a)%Z -> stopped_ n = false -> ae_entries a = [] ->
  AppendEntries now a n = (Ret (mkAEReply 0 false), heard now (ae_term a) n).
Proof.
  intros Ht Hst He. unfold AppendEntries. autorewrite with monad.
  rewrite decide_False by (rewrite Hst; naive_solver lia).
  rewrite run_catch_up. autorewrite with monad. rewrite He, run_step_down. done.
Qed.

Lemma AppendEntries_entries now a n :
  (current_term_ n <= ae_term a)%Z -> stopped_ n = false -> ae_entries a ≠ [] ->
  short n -> (0 <= ae_prev_log_index a)%Z ->
  let n1 := heard now (ae_term a) n in
  AppendEntries now a n
  = if decide (matches a n1)
    then (Ret (mkAEReply (ae_term a) true), append_matched a n1)
    else (Ret (mkAEReply (ae_term a) false), n1).
Proof.
  intros Ht Hst He Hs Hp n1. unfold AppendEntries. autorewrite with monad.
  rewrite decide_False by (rewrite Hst; naive_solver lia).
  rewrite run_catch_up. autorewrite with monad.
  destruct (ae_entries a) as [|e es] eqn:Hes; [done|]. clear He.
  rewrite decide_True by (by rewrite catch_up_term).
  rewrite bind_assoc, run_step_down, bind_assoc. autorewrite with monad.
  fold (heard now (ae_term a) n). fold n1.
  assert (short n1) as Hs1 by (eapply short_progress; [apply progress_heard|done]).
  unfold is_log_index_matched. rewrite !bind_assoc. autorewrite with monad.
  pose proof (heard_term now (ae_term a) n Ht) as Ht1. fold n1 in Ht1.
  case_decide as D1.
  { rewrite decide_False by (unfold matches; naive_solver lia).
    autorewrite with monad. by rewrite Ht1. }
  destruct (GetLogTerm_short n1 _ Hs1 Hp) as [t Hg]. rewrite Hg, bind_assoc.
  autorewrite with monad. case_bool_decide as D2.
  - rewrite decide_True by (unfold matches; split; [lia|by subst]).
    rewrite bind_assoc. autorewrite with monad.
    enough (current_term_ (append_matched a n1) = ae_term a) as -> by done.
    pose proof (view_matched a n1) as [= _ _ _ E _ _]. by rewrite E.
  - rewrite decide_False by (unfold matches; naive_solver).
    autorewrite with monad. by rewrite Ht1.
Qed.

(** ** The entries of a message *)

Lemma insert_point_spec (l : list (LogEntry Command)) : forall es i k, exists j,
  find_insert l i es k = (i + j, k + j) /\ j <= length es
  /\ (forall m, m < j -> exists e e', l !! (i + m) = Some e /\ es !! m = Some e' /\ term e = term e')
  /\ (j < length es -> forall e e', l !! (i + j) = Some e -> es !! j = Some e' -> term e ≠ term e').
Proof.
  induction es as [|e es IH]; intros i k; simpl.
  { exists 0. rewrite !Nat.add_0_r. split_and!; naive_solver lia. }
  destruct (l !! i) as [e'|] eqn:Hl.
  2: { exists 0. rewrite !Nat.add_0_r, Hl. split_and!; naive_solver lia. }
  case_decide as D.
  { exists 0. rewrite !Nat.add_0_r, Hl. split_and!; simpl; naive_solver lia. }
  destruct (IH (S i) (S k)) as (j & -> & Hj & Hm & Hn). exists (S j).
  rewrite !Nat.add_succ_r. simpl. split_and!; [done|lia| |].
  - intros [|m] Hlt; simpl.
    + exists e', e. rewrite Nat.add_0_r. split_and!; first [done|by apply dec_stable].
    + rewrite Nat.add_succ_r. apply (Hm m). lia.
  - intros Hlt a b Ha Hb. apply (Hn ltac:(lia) a b); [|done]. by rewrite Nat.add_succ_l.
Qed.

(** What a matching message makes of a log, when its entries go to index [i]. *)
Definition log_extended (i : nat) (es l l' : list (LogEntry Command)) : Prop :=
  length l' = length l `max` (i + length es)
  /\ (forall m e, es !! m = Some e -> exists e', l' !! (i + m) = Some e' /\ term e' = term e)
  /\ (forall m, m < i -> m < length l -> l' !! m = l !! m)
  /\ (forall m, i + length es <= m -> l' !! m = l !! m).

Lemma AddLogAt_extended i j es (s : RaftStorage Command) : j <= length es ->
  (forall m, m < j -> exists e e', log s !! (i + m) = Some e /\ es !! m = Some e' /\ term e = term e') ->
  log_extended i es (log s) (log (AddLogAt (i + j) (drop j es) s)).
Proof.
  intros Hj Hm. assert (j = 0 \/ i + j <= length (log s)) as Hij.
  { destruct j as [|j]; [by left|right]. destruct (Hm j ltac:(lia)) as (e & _ & He & _).
    apply lookup_lt_Some in He. lia. }
  split_and!.
  - rewrite AddLogAt_length, length_drop. lia.
  - intros m e He. pose proof (lookup_lt_Some _ _ _ He) as Hlt. rewrite AddLogAt_log_resize.
    destruct (decide (m < j)) as [Hmj|Hmj].
    + destruct (Hm m Hmj) as (e1 & e2 & H1 & H2 & H3). exists e1.
      pose proof (lookup_lt_Some _ _ _ H1).
      rewrite lookup_app_l, lookup_take_lt by (rewrite ?length_take, ?length_resize, ?length_drop; lia).
      rewrite lookup_resize by (rewrite ?length_drop; lia). split; [done|]. congruence.
    + exists e. rewrite lookup_app_r by (rewrite length_take, length_resize, length_drop; lia).
      rewrite length_take, length_resize, length_drop, Nat.min_l by lia.
      rewrite lookup_app_l by (rewrite length_drop; lia). rewrite lookup_drop.
      split; [|done]. rewrite <-He. f_equal. lia.
  - intros m H1 H2. rewrite AddLogAt_log_resize, length_drop.
    rewrite lookup_app_l, lookup_take_lt by (rewrite ?length_take, ?length_resize; lia).
    by rewrite lookup_resize by lia.
  - intros m Hlt. rewrite AddLogAt_log_resize, length_drop.
    rewrite app_assoc, lookup_app_r
      by (rewrite length_app, length_take, length_resize, length_drop; lia).
    rewrite length_app, length_take, length_resize, length_drop, lookup_drop. f_equal. lia.
Qed.

Lemma append_matched_log a n : (0 <= ae_prev_log_index a)%Z -> ae_entries a ≠ [] ->
  log_extended (S (Z.to_nat (ae_prev_log_index a))) (ae_entries a) (node_log n)
    (node_log (append_matched a n)).
Proof.
  intros Hp Hne. unfold append_matched.
  replace (Z.to_nat (ae_prev_log_index a + 1)) with (S (Z.to_nat (ae_prev_log_index a))) by lia.
  set (i := S _).
  destruct (insert_point_spec (node_log n) (ae_entries a) i 0) as (j & -> & Hj & Hm & _).
  assert (forall m : Raft Command StateMachine, node_log (if decide (commit_index_ m < ae_leader_commit a)%Z
    then set_commit (Z.min (ae_leader_commit a) (s32 (Z.of_nat (length (node_log m)) - 1))) m
    else m) = node_log m) as Hc by (intros m; case_decide; by destruct m).
  rewrite Hc. simpl. case_decide as D.
  - pose proof (AddLogAt_extended i j (ae_entries a) (storage_ n) Hj Hm) as HE.
    by destruct n.
  - assert (j = length (ae_entries a)) as -> by lia. split_and!; try done.
    + destruct (ae_entries a) as [|e es]; [done|].
      destruct (Hm (length es) ltac:(simpl; lia)) as (e1 & _ & H1 & _).
      apply lookup_lt_Some in H1. simpl. lia.
    + intros m e He. destruct (Hm m (lookup_lt_Some _ _ _ He)) as (e1 & e2 & H1 & H2 & H3).
      exists e1. split; [done|]. congruence.
Qed.

Lemma append_matched_commit a n : (ae_leader_commit a <= commit_index_ n)%Z ->
  commit_index_ (append_matched a n) = commit_index_ n.
Proof.
  intros Hc. unfold append_matched. destruct (find_insert _ _ _ _) as [i k].
  destruct n; simpl in *; repeat (case_decide; simpl in *); first [done|lia].
Qed.

Lemma append_matched_rest a n :
  last_applied_ (append_matched a n) = last_applied_ n
  /\ next_index_ (append_matched a n) = next_index_ n
  /\ match_index_ (append_matched a n) = match_index_ n
  /\ state_machine_ (append_matched a n) = state_machine_ n
  /\ stopped_ (append_matched a n) = stopped_ n.
Proof.
  unfold append_matched. destruct (find_insert _ _ _ _) as [i k].
  destruct n; simpl in *; case_decide; simpl; by case_decide.
Qed.

(** ** Answers *)

(** What the caller of a vote does with an answer it still waits for. *)
Lemma SendRequestVote_reply_idle now t saved r n :
  role_ n ≠ candidate -> SendRequestVote_reply now t saved r n = (Ret tt, n).
Proof. intros Hr. unfold SendRequestVote_reply. autorewrite with monad. by rewrite decide_True. Qed.

Lemma SendRequestVote_reply_later now t saved r n :
  role_ n = candidate -> (saved < rvr_term r)%Z ->
  SendRequestVote_reply now t saved r n = (Ret tt, BecomeFollower now (rvr_term r) n).
Proof.
  intros Hr Ht. unfold SendRequestVote_reply. autorewrite with monad.
  rewrite decide_False by naive_solver. by rewrite decide_True.
Qed.

(** The candidate counts the vote, and leads once the votes and its own are more
    than half of the nodes. *)
Definition counted (t : nat) (saved : Z) (r : RequestVoteReply) n : Raft Command StateMachine :=
  if decide (rvr_term r = saved /\ vote_granted r = true)
  then set_followers ({[ t ]} ∪ follower_id_set_ n) n else n.

Definition majority n : Prop :=
  (Z.of_nat (num_nodes n) / 2 < Z.of_nat (size (follower_id_set_ n)) + 1)%Z.

#[export] Instance majority_dec n : Decision (majority n).
Proof. unfold majority. apply _. Defined.

Lemma SendRequestVote_reply_count now t saved r n :
  role_ n = candidate -> (rvr_term r <= saved)%Z ->
  let n1 := counted t saved r n in
  SendRequestVote_reply now t saved r n
  = (Ret tt, if decide (majority n1) then BecomeLeader n1 else n1).
Proof.
  intros Hr Ht n1. unfold SendRequestVote_reply. autorewrite with monad.
  rewrite decide_False by naive_solver. rewrite decide_False by lia.
  transitivity ((if decide (majority n1) then modify BecomeLeader else mret tt : M _ Empty_set unit) n1).
  - unfold n1, counted. case_decide; autorewrite with monad; done.
  - by case_decide.
Qed.

(** Every answer to AppendEntries is read as term 0 and failure. *)
Lemma SendAppendEntries_reply_zero now t a saved hb n : (1 <= saved)%Z ->
  SendAppendEntries_reply now t a saved hb (mkAEReply 0 false) n = (Ret tt, n).
Proof.
  intros Hs. unfold SendAppendEntries_reply. destruct hb; [done|]. autorewrite with monad. simpl.
  rewrite decide_False by lia. rewrite decide_False by naive_solver lia. done.
Qed.

(** ** Background threads *)

Definition vote_calls n : list (call Command) :=
  match GetLogTerm (GetLastLogIndex n) n with
  | Some lt =>
      (fun i => CallRequestVote i
         (mkRVArgs (current_term_ n) (Z.of_nat (my_id_ n)) (GetLastLogIndex n) lt) (current_term_ n))
      <$> peers n
  | None => []
  end.

Lemma RunBackgroundElection_spec now next n : short n ->
  RunBackgroundElection now next n = (Ret [], n)
  \/ (current_term_ n = 2 ^ 31 - 1 /\ RunBackgroundElection now next n = (Undef SignedOverflow, n))%Z
  \/ (role_ n ≠ leader /\ (current_term_ n ≠ 2 ^ 31 - 1)%Z /\
      let n1 := BecomeCandidate now (current_term_ n + 1) n in
      RunBackgroundElection now next n = (Ret (vote_calls n1), n1)).
Proof.
  intros Hs. unfold RunBackgroundElection. autorewrite with monad.
  destruct (stopped_ n); [by left|]. case_decide; [by left|]. case_decide; [|by left].
  right. unfold StartElection. autorewrite with monad. case_decide; [by left|].
  right. split_and!; [done|done|]. cbv zeta. autorewrite with monad.
  set (n1 := BecomeCandidate _ _ _).
  assert (short n1) as Hs1 by (eapply short_progress; [apply progress_candidate|done]).
  destruct (GetLogTerm_short n1 (GetLastLogIndex n1) Hs1) as [t Ht];
    [rewrite (GetLastLogIndex_short _ Hs1); lia|].
  unfold vote_calls. rewrite Ht. by autorewrite with monad.
Qed.

(** [next_index_] has an entry per node, and each lies in the log or right
    behind it. *)
Definition next_ok n : Prop :=
  length (next_index_ n) = num_nodes n
  /\ Forall (fun x => 1 <= x <= Z.of_nat (length (node_log n)) + 1)%Z (next_index_ n).

Lemma peers_spec n i : i ∈ peers n <-> i ≠ my_id_ n /\ i < num_nodes n.
Proof. unfold peers. rewrite list_elem_of_filter, elem_of_seq. naive_solver lia. Qed.

Lemma next_ok_lookup n i : next_ok n -> i ∈ peers n -> exists x,
  next_index_ n !! i = Some x /\ (1 <= x <= Z.of_nat (length (node_log n)) + 1)%Z.
Proof.
  intros [Hl Hf] [_ Hi]%peers_spec. destruct (lookup_lt_is_Some_2 (next_index_ n) i) as [x Hx]; [lia|].
  exists x. split; [done|]. by apply (Forall_lookup_1 _ _ _ _ Hf Hx).
Qed.

(** A call of a leader that carries entries of its log, or none. *)
Definition append_call n (c : call Command) : Prop :=
  exists t a hb, c = CallAppendEntries t a (current_term_ n) hb /\ t ∈ peers n
    /\ ae_term a = current_term_ n /\ ae_leader_commit a = commit_index_ n
    /\ ae_leader_id a = Z.of_nat (my_id_ n)
    /\ (0 <= ae_prev_log_index a)%Z
    /\ GetLogTerm (ae_prev_log_index a) n = Some (ae_prev_log_term a)
    /\ (ae_entries a = [] /\ (ae_prev_log_index a <= Z.of_nat (length (node_log n)))%Z
        \/ ae_entries a = drop (Z.to_nat (ae_prev_log_index a)) (node_log n)
           /\ (ae_prev_log_index a < Z.of_nat (length (node_log n)))%Z).

Lemma heartbeat_to_spec n i : short n -> next_ok n -> i ∈ peers n ->
  exists c, heartbeat_to n i = Some c /\ append_call n c.
Proof.
  intros Hs Hn Hi. destruct (next_ok_lookup n i Hn Hi) as (x & Hx & Hr).
  destruct (GetLogTerm_short n (x - 1) Hs ltac:(lia)) as [t Ht].
  unfold heartbeat_to. rewrite Hx. cbn. rewrite Ht. cbn. eexists. split; [done|].
  eexists _, _, _. split; [done|]. simpl. split_and!; try done; try lia. left. split; [done|lia].
Qed.

Lemma commit_to_spec n i : short n -> next_ok n -> i ∈ peers n ->
  exists o, commit_to n i = Some o /\ forall c, o = Some c -> append_call n c.
Proof.
  intros Hs Hn Hi. destruct (next_ok_lookup n i Hn Hi) as (x & Hx & Hr).
  unfold commit_to. rewrite Hx. cbn. rewrite (GetLastLogIndex_short n Hs).
  case_decide; [by exists None|].
  destruct (GetLogTerm_short n (x - 1) Hs ltac:(lia)) as [t Ht]. rewrite Ht. cbn.
  rewrite decide_True by lia. eexists. split; [done|]. intros c [= <-].
  eexists _, _, _. split; [done|]. simpl. split_and!; try done; try lia. right. split; [done|lia].
Qed.

Lemma mapM_all {A B} (f : A -> option B) (P : B -> Prop) l :
  (forall x, x ∈ l -> exists y, f x = Some y /\ P y) -> exists ys, mapM f l = Some ys /\ Forall P ys.
Proof.
  induction l as [|x l IH]; intros Hf; [by exists []|].
  destruct (Hf x) as (y & Hy & HP); [set_solver|].
  destruct IH as (ys & Hys & HPs); [set_solver|].
  exists (y :: ys). cbn. rewrite Hy. cbn. rewrite Hys. cbn. auto.
Qed.

Lemma RunBackgroundHeartbeat_spec n : short n -> (role_ n = leader -> next_ok n) ->
  exists cs, RunBackgroundHeartbeat n = (Ret cs, n)
    /\ (role_ n = leader \/ cs = []) /\ Forall (append_call n) cs.
Proof.
  intros Hs Hn. unfold RunBackgroundHeartbeat. autorewrite with monad.
  destruct (stopped_ n); [by eexists; split_and!; auto|].
  case_decide as D; [|by eexists; split_and!; auto].
  destruct (mapM_all (heartbeat_to n) (append_call n) (peers n)) as (cs & E & HF).
  { intros i Hi. apply heartbeat_to_spec; auto. }
  unfold LeaderSendHeartbeat. autorewrite with monad. rewrite E. exists cs. auto.
Qed.

Lemma RunBackgroundCommit_spec n : short n -> (role_ n = leader -> next_ok n) ->
  exists cs, RunBackgroundCommit n = (Ret cs, n)
    /\ (role_ n = leader \/ cs = []) /\ Forall (append_call n) cs.
Proof.
  intros Hs Hn. unfold RunBackgroundCommit. autorewrite with monad.
  destruct (stopped_ n); [by eexists; split_and!; auto|].
  case_decide as D; [by eexists; split_and!; auto|].
  destruct (mapM_all (commit_to n) (fun o => forall c, o = Some c -> append_call n c) (peers n))
    as (os & E & HF).
  { intros i Hi. apply commit_to_spec; auto. }
  rewrite E. autorewrite with monad. exists (omap id os). split_and!; [done|by left|].
  apply Forall_forall. intros c (o & Ho & [= ->])%list_elem_of_omap.
  by apply (proj1 (Forall_forall _ _) HF _ Ho).
Qed.

Lemma RunBackgroundApply_idle n : (commit_index_ n <= last_applied_ n)%Z ->
  RunBackgroundApply n = (Ret tt, n).
Proof.
  intros Hc. unfold RunBackgroundApply. autorewrite with monad.
  destruct (stopped_ n); [done|]. by replace (Z.to_nat _) with 0 by lia.
Qed.

Lemma NewCommand_spec c n :
  NewCommand c n
  = if decide (stopped_ n = true \/ role_ n ≠ leader) then (Ret None, n)
    else (Ret (Some (current_term_ n, GetLastLogIndex n)),
          set_storage (Flush (AddLog (mkEntry c (current_term_ n)) (storage_ n))) n).
Proof.
  unfold NewCommand. autorewrite with monad. case_decide; [done|]. autorewrite with monad.
  by destruct n.
Qed.

(** ** The two handlers *)

Lemma matches_progress a n n' : progress n' = progress n -> matches a n' <-> matches a n.
Proof.
  intros [= E _ _ _ _ _]. unfold matches, GetLogTerm, GetLastLogIndex, log_at. by rewrite E.
Qed.

(** C28: AppendEntries, on every message whose [prev_log_index] is not negative.  It
    answers success exactly when the message has entries, is of the node's term or a later
    one, the node is not stopped and its log has the entry before the new ones; a
    heartbeat is always answered with failure.  On success the log has
    the terms of the message's entries from index [prev_log_index + 1] on, is otherwise
    as it was, and has only grown; else it is unchanged.  A stale message, or any to a
    stopped node, changes nothing and is answered with the node's term; after any other
    the node is a follower of the message's term, which it answers unless the message was
    a heartbeat, answered with term 0. *)
Theorem append_entries_log now a n : short n -> (0 <= ae_prev_log_index a)%Z ->
  let ignored := (ae_term a < current_term_ n)%Z \/ stopped_ n = true in
  exists r n', AppendEntries now a n = (Ret r, n')
    /\ (success r = true <-> ~ ignored /\ ae_entries a ≠ [] /\ matches a n)
    /\ (if success r
        then log_extended (S (Z.to_nat (ae_prev_log_index a))) (ae_entries a) (node_log n) (node_log n')
        else node_log n' = node_log n)
    /\ (ignored -> n' = n /\ aer_term r = current_term_ n)
    /\ (~ ignored -> role_ n' = follower /\ current_term_ n' = ae_term a
        /\ aer_term r = if decide (ae_entries a = []) then 0%Z else ae_term a).
Proof.
  intros Hs Hp ignored. destruct (decide ignored) as [Hi|Hi].
  { rewrite AppendEntries_stale by done. eexists _, _. split; [done|]. split_and!; [naive_solver|done|done|done]. }
  assert ((current_term_ n <= ae_term a)%Z /\ stopped_ n = false) as [Ht Hst]
    by (subst ignored; destruct (stopped_ n); split; (lia || tauto || naive_solver lia)).
  pose proof (heard_view now (ae_term a) n Ht) as [= _ _ Hr Htm _ _].
  pose proof (progress_heard now (ae_term a) n) as [= Hlog _ _ _ _ _].
  destruct (decide (ae_entries a = [])) as [He|Hne].
  { rewrite AppendEntries_heartbeat by done. eexists _, _. split; [done|].
    split_and!; [naive_solver|by rewrite Hlog|done|done]. }
  rewrite (AppendEntries_entries now a n) by done.
  pose proof (matches_progress a n _ (progress_heard now (ae_term a) n)) as Hm.
  case_decide as D; eexists _, _; (split; [done|]).
  - pose proof (view_matched a (heard now (ae_term a) n)) as [= _ _ -> -> _ _].
    split_and!; [by rewrite <-Hm| |done|done]. simpl. rewrite <-Hlog. by apply append_matched_log.
  - split_and!; [rewrite <-Hm; naive_solver|done|done|done].
Qed.

(** C29: RequestVote grants its vote exactly when the node is not stopped and the
    candidate is of its term, is the one it voted for if it voted, and has a last
    entry of a later term, or of the same term in a log at least as long.  Its
    term never decreases, it answers with it, and its log is not touched. *)
Theorem request_vote_grants now a n : short n ->
  exists r n', RequestVote now a n = (Ret r, n')
    /\ (vote_granted r = true <-> stopped_ n = false /\ may_grant a (catch_up now (rv_term a) n))
    /\ (vote_granted r = true -> vote_for_ n' = rv_candidate_id a /\ rvr_term r = rv_term a)
    /\ (current_term_ n <= current_term_ n')%Z
    /\ (stopped_ n = false -> rvr_term r = current_term_ n')
    /\ node_log n' = node_log n.
Proof.
  intros Hs. destruct (stopped_ n) eqn:Hst.
  { rewrite RequestVote_stopped by done. eexists _, _. split; [done|].
    split_and!; naive_solver lia. }
  set (n1 := catch_up now (rv_term a) n).
  assert (node_log n1 = node_log n) as Hlog
    by (pose proof (progress_catch_up now (rv_term a) n) as [= E _ _ _ _ _]; exact E).
  assert (current_term_ n <= current_term_ n1)%Z as Hle
    by (unfold n1, catch_up; case_decide; [destruct n; simpl in *; lia|lia]).
  destruct (RequestVote_spec now a n Hs Hst) as [[Hg ->]|[Hg ->]]; fold n1; eexists _, _;
    (split; [done|]); simpl.
  - pose proof (view_vote (rv_candidate_id a) n1) as [= _ _ _ E4 E5 _].
    pose proof (progress_vote (rv_candidate_id a) n1) as [= E6 _ _ _ _ _].
    rewrite E4, E5, E6. split_and!; try done. intros _. split; [done|]. by destruct Hg as [-> _].
  - split_and!; naive_solver.
Qed.
End node.

Module Examples.
Import RaftStorage.Examples.

(** A follower of term 1 with one entry, and a message of term 2 for it. *)
Definition follower1 : Raft Z (list Z) :=
  let n := Raft_new 1 3 (mkStorage 1 (-1) [mkEntry 5%Z 1] (mkFile [] 0 [])) [] 0 in set_term 1 n.
Definition message : AppendEntriesArgs Z := mkAEArgs 2 0 1 1 [mkEntry 6%Z 2] 0.

Lemma append_entries_log_witness :
  exists r n', AppendEntries 10 message follower1 = (Ret r, n') /\ success r = true /\ aer_term r = 2%Z
    /\ log_extended 2 [mkEntry 6%Z 2] [mkEntry 5%Z 1] (node_log n').
Proof.
  destruct (append_entries_log 10 message follower1) as (r & n' & E & Hok & Hl & _ & Ha);
    [vm_compute; reflexivity|vm_compute; discriminate|].
  assert (~ ((ae_term message < current_term_ follower1)%Z \/ stopped_ follower1 = true)) as Hn
    by (intros [H|H]; vm_compute in H; discriminate).
  assert (success r = true) as Hs by (apply Hok; split_and!; [exact Hn|discriminate|split; vm_compute; (reflexivity || discriminate)]).
  rewrite Hs in Hl. exists r, n'. split; [exact E|]. split; [exact Hs|]. split; [apply (Ha Hn)|exact Hl].
Defined.

Lemma request_vote_grants_witness :
  exists r n', RequestVote 10 (mkRVArgs 2 0 1 1) follower1 = (Ret r, n') /\ vote_granted r = true
    /\ vote_for_ n' = 0%Z.
Proof.
  destruct (request_vote_grants 10 (mkRVArgs 2 0 1 1) follower1) as (r & n' & E & Hg & Hv & _);
    [vm_compute; reflexivity|].
  assert (vote_granted r = true) as Hr.
  { apply Hg. split; [reflexivity|]. split; [reflexivity|]. split; [left; reflexivity|].
    exists 1%Z. split; [reflexivity|]. right. split; [reflexivity|vm_compute; discriminate]. }
  exists r, n'. split; [exact E|]. split; [exact Hr|]. exact (proj1 (Hv Hr)).
Defined.
End Examples.
