(* ===== verification/RaftCluster.v ===== *)
(** * A cluster of Raft nodes (src/bitdb/raft/raft.h over src/bitdb/net/rpc/)

    The nodes and the calls in flight between them.  A run is a sequence of
    events: a turn of one of a node's threads, a request reaching its target, an
    answer reaching its caller, a call that fails and is made again, a command of
    a client, a node that stops.  Messages may overtake each other and be handled
    more than once; each passes through the serializer on its way, as it does in
    a remote call (Rpc.v). *)

From S2P Require Import Prelude Serializer Rpc RaftStorage Raft.

Section cluster.
Context {Command StateMachine : Type} `{RaftCommand Command, RaftStateMachine StateMachine Command}.

Inductive answer_msg := AnswerVote (r : RequestVoteReply) | AnswerAppend (r : AppendEntriesReply).

(** A call: who made it, what it asks, and the answer once the target has
    handled it. *)
Record flight := mkFlight { fl_src : nat; fl_call : call Command; fl_answer : option answer_msg }.

Record cluster := mkCluster { nodes : list (Raft Command StateMachine); flights : list flight }.

Abbreviation ClusterM := (M cluster Empty_set).

(** ** Messages on the wire *)

(** A value written by one serializer and read by another into [old]. *)
Definition wire {S A} (c : Codec A) (old v : A) : M S Empty_set A := fun s =>
  match deserialize c old (Serializer_of (str (serialize c v Serializer_empty))) with
  | (Ret a, _) => (Ret a, s)
  | (Throw e, _) => (Throw e, s)
  | (Undef u, _) => (Undef u, s)
  end.

(** Arguments travel as a tuple, into a value-initialised object; results inside
    an RpcResponse. *)
Definition wire_args {S A} (c : Codec A) (dflt v : A) : M S Empty_set A :=
  r ← wire (tuple_ c tuple0_) (dflt, tt) (v, tt); mret r.1.
Definition wire_result {S A} (c : Codec A) (dflt v : A) : M S Empty_set A :=
  r ← wire (RpcResponse_ c) (mkResponse 0 [] dflt) (mkResponse (code_of RPC_SUCCECC) [] v);
  mret (detail_value r).

(** ** Events *)

Inductive event :=
| ElectionTurn (i : nat) (now next : Z)   (** a turn of RunBackgroundElection *)
| HeartbeatTurn (i : nat)                 (** of RunBackgroundHeartbeat *)
| CommitTurn (i : nat)                    (** of RunBackgroundCommit *)
| ApplyTurn (i : nat)                     (** of RunBackgroundApply *)
| Submit (i : nat) (c : Command)          (** NewCommand *)
| StopNode (i : nat)
| Deliver (k : nat) (now : Z)             (** the [k]-th call reaches its target *)
| Answer (k : nat) (now : Z)              (** its answer reaches the caller *)
| Retry (k : nat).                        (** it fails, and is made again *)

(** Run a member function of node [i]; no such node, no effect. *)
Definition on_node {A} (i : nat) (m : M (Raft Command StateMachine) Empty_set A) : ClusterM (option A) :=
  fun c => match nodes c !! i with
           | None => (Ret None, c)
           | Some n =>
               match m n with
               | (Ret a, n') => (Ret (Some a), mkCluster (<[i := n']> (nodes c)) (flights c))
               | (Throw e, n') => (Throw e, mkCluster (<[i := n']> (nodes c)) (flights c))
               | (Undef u, n') => (Undef u, mkCluster (<[i := n']> (nodes c)) (flights c))
               end
           end.

Definition set_flights (f : list flight -> list flight) : ClusterM unit :=
  modify (fun c => mkCluster (nodes c) (f (flights c))).

(** [co_spawn] of calls of node [i]. *)
Definition spawn (i : nat) (cs : option (list (call Command))) : ClusterM unit :=
  set_flights (fun fs => fs ++ ((fun c => mkFlight i c None) <$> default [] cs)).

Definition RequestVoteArgs_zero : RequestVoteArgs := mkRVArgs 0 0 0 0.
Definition AppendEntriesArgs_zero : AppendEntriesArgs Command := mkAEArgs 0 0 0 0 [] 0.

(** The request of call [k] is handled by its target.  A call and its answer belong
    together: no other call is on the connection at the time. *)
Definition deliver (k : nat) (now : Z) : ClusterM unit :=
  c ← get;
  match flights c !! k with
  | Some (mkFlight src (CallRequestVote target arg saved as cl) None) =>
      a ← wire_args RequestVoteArgs_ RequestVoteArgs_zero arg;
      r ← on_node target (RequestVote now a);
      match r with
      | None => mret tt
      | Some r =>
          r ← wire_result RequestVoteReply_ (mkRVReply 0 false) r;
          set_flights (<[k := mkFlight src cl (Some (AnswerVote r))]>)
      end
  | Some (mkFlight src (CallAppendEntries target arg saved hb as cl) None) =>
      a ← wire_args AppendEntriesArgs_ AppendEntriesArgs_zero arg;
      r ← on_node target (AppendEntries now a);
      match r with
      | None => mret tt
      | Some r =>
          r ← wire_result AppendEntriesReply_ (mkAEReply 0 false) r;
          set_flights (<[k := mkFlight src cl (Some (AnswerAppend r))]>)
      end
  | _ => mret tt
  end.

(** The answer of call [k] is handled by its caller. *)
Definition answered (k : nat) (now : Z) : ClusterM unit :=
  c ← get;
  match flights c !! k with
  | Some (mkFlight src (CallRequestVote target arg saved) (Some (AnswerVote r))) =>
      _ ← on_node src (SendRequestVote_reply now target saved r);
      set_flights (delete k)
  | Some (mkFlight src (CallAppendEntries target arg saved hb) (Some (AnswerAppend r))) =>
      _ ← on_node src (SendAppendEntries_reply now target arg saved hb r);
      set_flights (delete k)
  | _ => mret tt
  end.

(** The call is made again after an error that is not a timeout (after a timeout
    RpcClient::NetCall does not send the request again); SendAppendEntries forgets
    that it was a heartbeat. *)
Definition retry_call (f : flight) : flight :=
  match fl_call f with
  | CallRequestVote t a s => mkFlight (fl_src f) (CallRequestVote t a s) None
  | CallAppendEntries t a s _ => mkFlight (fl_src f) (CallAppendEntries t a s false) None
  end.

Definition step (e : event) : ClusterM unit :=
  match e with
  | ElectionTurn i now next => cs ← on_node i (RunBackgroundElection now next); spawn i cs
  | HeartbeatTurn i => cs ← on_node i RunBackgroundHeartbeat; spawn i cs
  | CommitTurn i => cs ← on_node i RunBackgroundCommit; spawn i cs
  | ApplyTurn i => _ ← on_node i RunBackgroundApply; mret tt
  | Submit i c => _ ← on_node i (NewCommand c); mret tt
  | StopNode i => _ ← on_node i Stop; mret tt
  | Deliver k now => deliver k now
  | Answer k now => answered k now
  | Retry k => set_flights (alter retry_call k)
  end.

Fixpoint run (es : list event) : ClusterM unit :=
  match es with [] => mret tt | e :: es => step e;; run es end.

(** Nodes just constructed, on storages and state machines of their own. *)
Definition init (now : Z) (l : list (RaftStorage Command * StateMachine)) : cluster :=
  mkCluster (imap (fun i x => Raft_new i (length l) x.1 x.2 now) l) [].
End cluster.
Arguments cluster _ _ : clear implicits.
Arguments flight _ : clear implicits.
Arguments event _ : clear implicits.
