(* ===== verification/RaftInvariant.v ===== *)
(** * The steps of a Raft cluster, and an invariant of all of them

    [trans] says what one event does to the nodes and the calls in flight;
    [step_trans] shows that the executable [step] does exactly that, and
    [cluster_ok] is an invariant of it.  Logs grow by at most one entry per event,
    so [cluster_ok] carries a bound on their length. *)

From S2P Require Import Prelude Serializer Rpc RaftStorage Raft RaftNode RaftCluster.

(** ** Messages arrive as they were sent *)

Section wire.
Context {S : Type}.

Lemma wire_exact {A} (c : Codec A) wf enc `{!RoundTrip c wf enc} old v (s : S) :
  wf v -> wire c old v s = (Ret v, s).
Proof. intros Hv. unfold wire. by rewrite (deserialize_serialize c wf enc v old Hv). Qed.

Lemma wire_args_exact {A} (c : Codec A) wf enc `{!RoundTrip c wf enc} dflt v (s : S) :
  wf v -> wire_args c dflt v s = (Ret v, s).
Proof.
  intros Hv. unfold wire_args.
  pose proof (wire_exact (tuple_ c tuple0_) _ _ (dflt, tt) (v, tt) s (conj Hv I)) as E. by mstep E.
Qed.

Lemma wire_result_exact {A} (c : Codec A) wf enc `{!RoundTrip c wf enc} dflt v (s : S) :
  wf v -> wire_result c dflt v s = (Ret v, s).
Proof.
  intros Hv. unfold wire_result.
  assert (E : wire (RpcResponse_ c) (mkResponse 0 [] dflt) (mkResponse (code_of RPC_SUCCECC) [] v) s
              = (Ret (mkResponse (code_of RPC_SUCCECC) [] v), s)).
  { apply (wire_exact (RpcResponse_ c) _ _). simpl.
    split_and!; try done; unfold fits_unsigned, string_wf, K_STRING_MAX_SIZE; simpl; lia. }
  by mstep E.
Qed.

(** The answer to AppendEntries always arrives as zeros. *)
Lemma wire_append_reply r (s : S) :
  wire_result AppendEntriesReply_ (mkAEReply 0 false) r s = (Ret (mkAEReply 0 false), s).
Proof. vm_compute. reflexivity. Qed.
End wire.

Section invariant.
Context {Command StateMachine : Type}
  `{RaftCommandLaws Command, RaftStateMachine StateMachine Command}.
Implicit Types (n : Raft Command StateMachine) (c : cluster Command StateMachine)
  (f : flight Command) (e : event Command).

Lemma fits_int32 z : int32 z <-> fits_signed 4 z.
Proof. unfold int32, fits_signed. simpl. lia. Qed.

Lemma wire_vote_args (a : RequestVoteArgs) old {S} (s : S) :
  int32 (rv_term a) -> int32 (rv_candidate_id a) -> int32 (rv_last_log_index a) ->
  int32 (rv_last_log_term a) ->
  wire_args RequestVoteArgs_ old a s = (Ret a, s).
Proof.
  intros. apply (wire_args_exact RequestVoteArgs_ _ _). simpl.
  by rewrite <-!fits_int32.
Qed.

Lemma wire_vote_reply (r : RequestVoteReply) old {S} (s : S) :
  int32 (rvr_term r) -> wire_result RequestVoteReply_ old r s = (Ret r, s).
Proof.
  intros. apply (wire_result_exact RequestVoteReply_ _ _). simpl. by rewrite <-fits_int32.
Qed.

Definition append_args_wf (a : AppendEntriesArgs Command) : Prop :=
  int32 (ae_term a) /\ int32 (ae_leader_id a) /\ int32 (ae_prev_log_index a)
  /\ int32 (ae_prev_log_term a) /\ int32 (ae_leader_commit a)
  /\ (Z.of_nat (length (ae_entries a)) < 2 ^ 32)%Z /\ Forall entry_wf (ae_entries a).

Lemma wire_append_args (a : AppendEntriesArgs Command) old {S} (s : S) :
  append_args_wf a -> wire_args AppendEntriesArgs_ old a s = (Ret a, s).
Proof.
  intros (H1' & H2 & H3 & H4 & H5 & H6 & H7). apply (wire_args_exact AppendEntriesArgs_ _ _). simpl.
  rewrite <-!fits_int32. split_and!; try done. split; [done|].
  eapply Forall_impl; [exact H7|]. intros x [Hx1 Hx2]. split_and!; [done|by apply fits_int32|done].
Qed.

(** ** One event *)

(** [n'] is what the target of an AppendEntries call becomes. *)
Definition append_result (a : AppendEntriesArgs Command) n n' : Prop :=
  n' = n
  \/ ((current_term_ n <= ae_term a)%Z /\ stopped_ n = false /\ exists now, n' = heard now (ae_term a) n)
  \/ ((current_term_ n <= ae_term a)%Z /\ stopped_ n = false /\ ae_entries a ≠ []
     /\ exists now, matches a (heard now (ae_term a) n) /\ n' = append_matched a (heard now (ae_term a) n)).

(** [n'] is what the caller of a vote becomes with the answer [r]. *)
Definition count_result (t : nat) (saved : Z) (r : RequestVoteReply) n n' : Prop :=
  (role_ n ≠ candidate /\ n' = n)
  \/ (role_ n = candidate /\ (saved < rvr_term r)%Z /\ exists now, n' = BecomeFollower now (rvr_term r) n)
  \/ (role_ n = candidate /\ (rvr_term r <= saved)%Z /\
      let n1 := counted t saved r n in n' = if decide (majority n1) then BecomeLeader n1 else n1).

(** [n'] and [r] are what the target of a RequestVote call becomes and answers. *)
Definition vote_result (a : RequestVoteArgs) n n' (r : RequestVoteReply) : Prop :=
  (n' = n /\ r = mkRVReply 0 false)
  \/ exists now, let n1 := catch_up now (rv_term a) n in
     (may_grant a n1 /\ n' = set_vote (rv_candidate_id a) n1 /\ r = mkRVReply (current_term_ n1) true)
     \/ (n' = n1 /\ r = mkRVReply (current_term_ n1) false).

Inductive trans c : event Command -> cluster Command StateMachine -> Prop :=
| T_none e : trans c e c
| T_elect i now next n :
    nodes c !! i = Some n -> role_ n ≠ leader -> (current_term_ n ≠ 2 ^ 31 - 1)%Z ->
    let n1 := BecomeCandidate now (current_term_ n + 1) n in
    trans c (ElectionTurn i now next)
      (mkCluster (<[i := n1]> (nodes c)) (flights c ++ ((fun x => mkFlight i x None) <$> vote_calls n1)))
| T_lead e i n cs :
    nodes c !! i = Some n -> role_ n = leader -> Forall (append_call n) cs ->
    trans c e (mkCluster (nodes c) (flights c ++ ((fun x => mkFlight i x None) <$> cs)))
| T_submit i n x :
    nodes c !! i = Some n -> role_ n = leader -> Command_wf x ->
    trans c (Submit i x)
      (mkCluster (<[i := set_storage (Flush (AddLog (mkEntry x (current_term_ n)) (storage_ n))) n]> (nodes c))
         (flights c))
| T_stop i n :
    nodes c !! i = Some n ->
    trans c (StopNode i) (mkCluster (<[i := set_stopped true n]> (nodes c)) (flights c))
| T_vote k now src t a saved n n' r :
    flights c !! k = Some (mkFlight src (CallRequestVote t a saved) None) -> nodes c !! t = Some n ->
    vote_result a n n' r ->
    trans c (Deliver k now)
      (mkCluster (<[t := n']> (nodes c))
         (<[k := mkFlight src (CallRequestVote t a saved) (Some (AnswerVote r))]> (flights c)))
| T_append k now src t a saved hb n n' :
    flights c !! k = Some (mkFlight src (CallAppendEntries t a saved hb) None) -> nodes c !! t = Some n ->
    append_result a n n' ->
    trans c (Deliver k now)
      (mkCluster (<[t := n']> (nodes c))
         (<[k := mkFlight src (CallAppendEntries t a saved hb) (Some (AnswerAppend (mkAEReply 0 false)))]>
            (flights c)))
| T_count k now src t a saved r n n' :
    flights c !! k = Some (mkFlight src (CallRequestVote t a saved) (Some (AnswerVote r))) ->
    nodes c !! src = Some n -> count_result t saved r n n' ->
    trans c (Answer k now) (mkCluster (<[src := n']> (nodes c)) (delete k (flights c)))
| T_drop k now : trans c (Answer k now) (mkCluster (nodes c) (delete k (flights c)))
| T_retry k : trans c (Retry k) (mkCluster (nodes c) (alter retry_call k (flights c))).

(** ** The invariant *)

Record node_ok (N : Z) (sz i : nat) n : Prop := {
  ok_id : my_id_ n = i;
  ok_num : num_nodes n = sz;
  ok_term : (0 <= current_term_ n < 2 ^ 31)%Z;
  ok_role : role_ n ≠ follower -> (1 <= current_term_ n)%Z;
  ok_entries : Forall entry_wf (node_log n);
  ok_size : (Z.of_nat (length (node_log n)) <= N)%Z;
  ok_commit : commit_index_ n = 0%Z;
  ok_applied : last_applied_ n = 0%Z;
  ok_next : role_ n = leader -> next_ok n
}.

Definition call_ok (N : Z) (sz src : nat) (cl : call Command) : Prop :=
  match cl with
  | CallRequestVote t a saved =>
      t < sz /\ t ≠ src /\ rv_term a = saved /\ rv_candidate_id a = Z.of_nat src
      /\ (1 <= saved < 2 ^ 31)%Z /\ int32 (rv_last_log_index a) /\ int32 (rv_last_log_term a)
  | CallAppendEntries t a saved hb =>
      t < sz /\ t ≠ src /\ ae_term a = saved /\ ae_leader_id a = Z.of_nat src
      /\ (1 <= saved < 2 ^ 31)%Z /\ ae_leader_commit a = 0%Z
      /\ (0 <= ae_prev_log_index a)%Z
      /\ (ae_prev_log_index a + Z.of_nat (length (ae_entries a)) <= N)%Z
      /\ int32 (ae_prev_log_term a) /\ Forall entry_wf (ae_entries a)
  end.

Definition answer_ok (f : flight Command) : Prop :=
  match fl_call f, fl_answer f with
  | _, None => True
  | CallRequestVote _ _ _, Some (AnswerVote r) => (0 <= rvr_term r < 2 ^ 31)%Z
  | CallAppendEntries _ _ _ _, Some (AnswerAppend r) => r = mkAEReply 0 false
  | _, _ => False
  end.

Definition flight_ok (N : Z) (sz : nat) f : Prop :=
  fl_src f < sz /\ call_ok N sz (fl_src f) (fl_call f) /\ answer_ok f.

Record cluster_ok (N : Z) (sz : nat) c : Prop := {
  ok_length : length (nodes c) = sz;
  ok_nodes : forall i n, nodes c !! i = Some n -> node_ok N sz i n;
  ok_flights : Forall (flight_ok N sz) (flights c)
}.

Definition event_wf e : Prop := match e with Submit _ x => Command_wf x | _ => True end.

(** ** Every event is a step *)

Lemma on_node_none {A} i (m : M _ Empty_set A) c :
  nodes c !! i = None -> on_node i m c = (Ret None, c).
Proof. unfold on_node. by intros ->. Qed.

Lemma on_node_Ret {A} i (m : M _ Empty_set A) c n a n' :
  nodes c !! i = Some n -> m n = (Ret a, n') ->
  on_node i m c = (Ret (Some a), mkCluster (<[i := n']> (nodes c)) (flights c)).
Proof. unfold on_node. by intros -> ->. Qed.

(** A member function that leaves the node as it is. *)
Lemma on_node_same {A} i (m : M _ Empty_set A) c n a :
  nodes c !! i = Some n -> m n = (Ret a, n) -> on_node i m c = (Ret (Some a), c).
Proof.
  intros Hi Hm. rewrite (on_node_Ret i m c n a n Hi Hm).
  rewrite list_insert_id by done. by destruct c.
Qed.

Lemma spawn_app i cs c :
  spawn i cs c
  = (Ret tt, mkCluster (nodes c) (flights c ++ ((fun x => mkFlight i x None) <$> default [] cs))).
Proof. done. Qed.

Lemma spawn_nil i c : spawn i (Some []) c = (Ret tt, c).
Proof. rewrite spawn_app. simpl. rewrite app_nil_r. by destruct c. Qed.
Lemma spawn_none i c : spawn i None c = (Ret tt, c).
Proof. exact (spawn_nil i c). Qed.

Section step.
Context (N : Z) (sz : nat) (HN : (0 <= N < 2 ^ 31 - 1)%Z) (Hsz : (Z.of_nat sz < 2 ^ 31)%Z).

(** The two ways an event may end; the second needs a node in the last term an int32 can
    count. *)
Definition step_ends e c : Prop :=
  (exists c', step e c = (Ret tt, c') /\ trans c e c')
  \/ exists c', step e c = (Undef SignedOverflow, c')
     /\ exists i n, nodes c !! i = Some n /\ current_term_ n = (2 ^ 31 - 1)%Z.

Lemma node_short i n : node_ok N sz i n -> short n.
Proof. intros Hn. unfold short. pose proof (ok_size _ _ _ _ Hn). lia. Qed.

Lemma none_ends e c : step e c = (Ret tt, c) -> step_ends e c.
Proof. intros E. left. exists c. split; [done|constructor]. Qed.

Lemma elect_ends i now next c : cluster_ok N sz c -> step_ends (ElectionTurn i now next) c.
Proof.
  intros Hc. destruct (nodes c !! i) as [n|] eqn:Hi.
  2: { apply none_ends. cbn [step]. rewrite (bind_Ret _ _ _ _ _ (on_node_none _ _ _ Hi)).
       apply spawn_none. }
  pose proof (node_short _ _ (ok_nodes _ _ _ Hc _ _ Hi)) as Hs.
  destruct (RunBackgroundElection_spec now next n Hs) as [E|[[Ht E]|(H1' & H2' & E)]].
  - apply none_ends. cbn [step]. rewrite (bind_Ret _ _ _ _ _ (on_node_same _ _ _ _ _ Hi E)).
    apply spawn_nil.
  - right. eexists. split; [cbn [step]; apply bind_Undef; unfold on_node; by rewrite Hi, E|eauto].
  - left. eexists. split.
    + cbn [step]. rewrite (bind_Ret _ _ _ _ _ (on_node_Ret _ _ _ _ _ _ Hi E)). apply spawn_app.
    + by apply (T_elect c i now next n).
Qed.

Lemma lead_ends e i (m : M _ Empty_set (list (call Command))) c :
  cluster_ok N sz c -> step e c = (cs ← on_node i m; spawn i cs) c ->
  (forall n, nodes c !! i = Some n -> exists cs, m n = (Ret cs, n)
     /\ (role_ n = leader \/ cs = []) /\ Forall (append_call n) cs) ->
  step_ends e c.
Proof.
  intros Hc He Hm. destruct (nodes c !! i) as [n|] eqn:Hi.
  2: { apply none_ends. rewrite He, (bind_Ret _ _ _ _ _ (on_node_none _ _ _ Hi)). apply spawn_none. }
  destruct (Hm n eq_refl) as (cs & E & Hl & Ha).
  assert (step e c = spawn i (Some cs) c) as Es
    by (by rewrite He, (bind_Ret _ _ _ _ _ (on_node_same _ _ _ _ _ Hi E))).
  destruct Hl as [Hl| ->]; [|apply none_ends; rewrite Es; apply spawn_nil].
  left. eexists. split; [rewrite Es; apply spawn_app|]. by eapply T_lead.
Qed.

Lemma apply_ends i c : cluster_ok N sz c -> step_ends (ApplyTurn i) c.
Proof.
  intros Hc. apply none_ends. cbn [step]. destruct (nodes c !! i) as [n|] eqn:Hi.
  - destruct (ok_nodes _ _ _ Hc _ _ Hi) as [_ _ _ _ _ _ Hci Hla _].
    assert (RunBackgroundApply n = (Ret tt, n)) as E by (apply RunBackgroundApply_idle; lia).
    by rewrite (bind_Ret _ _ _ _ _ (on_node_same _ _ _ _ _ Hi E)).
  - by rewrite (bind_Ret _ _ _ _ _ (on_node_none _ _ _ Hi)).
Qed.

Lemma submit_ends i x c : Command_wf x -> step_ends (Submit i x) c.
Proof.
  intros Hx. destruct (nodes c !! i) as [n|] eqn:Hi.
  2: { apply none_ends. cbn [step]. by rewrite (bind_Ret _ _ _ _ _ (on_node_none _ _ _ Hi)). }
  pose proof (NewCommand_spec x n) as E. case_decide as D.
  - apply none_ends. cbn [step]. by rewrite (bind_Ret _ _ _ _ _ (on_node_same _ _ _ _ _ Hi E)).
  - left. eexists. split.
    + cbn [step]. by rewrite (bind_Ret _ _ _ _ _ (on_node_Ret _ _ _ _ _ _ Hi E)).
    + apply T_submit; [done| |done]. destruct (decide (role_ n = leader)); naive_solver.
Qed.

Lemma stop_ends i c : step_ends (StopNode i) c.
Proof.
  destruct (nodes c !! i) as [n|] eqn:Hi.
  - left. eexists. split; [|by apply T_stop]. cbn [step].
    by rewrite (bind_Ret _ _ _ _ _ (on_node_Ret i Stop c n tt (set_stopped true n) Hi eq_refl)).
  - apply none_ends. cbn [step]. by rewrite (bind_Ret _ _ _ _ _ (on_node_none _ _ _ Hi)).
Qed.

Lemma RequestVote_result now a n : short n -> exists n' r,
  RequestVote now a n = (Ret r, n') /\ vote_result a n n' r.
Proof.
  intros Hs. destruct (stopped_ n) eqn:Hst.
  - eexists _, _. split; [by apply RequestVote_stopped|]. by left.
  - destruct (RequestVote_spec now a n Hs Hst) as [[Hg ->]|[_ ->]]; eexists _, _; (split; [done|]);
      right; exists now; cbv zeta; [left|right]; auto.
Qed.

Lemma AppendEntries_result now a n : short n -> (0 <= ae_prev_log_index a)%Z -> exists n' r,
  AppendEntries now a n = (Ret r, n') /\ append_result a n n'.
Proof.
  intros Hs Hp. destruct (decide ((ae_term a < current_term_ n)%Z \/ stopped_ n = true)) as [D|D].
  { rewrite AppendEntries_stale by done. eexists _, _. split; [done|]. by left. }
  assert (current_term_ n <= ae_term a)%Z as Ht by lia.
  assert (stopped_ n = false) as Hst by (destruct (stopped_ n); naive_solver).
  destruct (decide (ae_entries a = [])) as [He|He].
  { rewrite AppendEntries_heartbeat by done. eexists _, _. split; [done|]. right. left. eauto. }
  rewrite AppendEntries_entries by done. case_decide as D2; eexists _, _; (split; [done|]); right.
  - right. split_and!; eauto.
  - left. eauto.
Qed.

Lemma count_result_spec now t saved r n : exists n',
  SendRequestVote_reply now t saved r n = (Ret tt, n') /\ count_result t saved r n n'.
Proof.
  destruct (decide (role_ n = candidate)) as [D|D].
  2: { eexists. split; [by apply SendRequestVote_reply_idle|]. by left. }
  destruct (decide (saved < rvr_term r)%Z).
  - eexists. split; [by apply SendRequestVote_reply_later|]. right. left. eauto.
  - eexists. split; [apply SendRequestVote_reply_count; [done|lia]|]. right. right. split_and!; [done|lia|done].
Qed.

Lemma cluster_node c i : cluster_ok N sz c -> i < sz -> exists n, nodes c !! i = Some n.
Proof.
  intros Hc Hi. apply lookup_lt_is_Some_2. rewrite (ok_length _ _ _ Hc). done.
Qed.

Lemma flight_at c k f : cluster_ok N sz c -> flights c !! k = Some f -> flight_ok N sz f.
Proof. intros Hc Hk. by apply (Forall_lookup_1 _ _ _ _ (ok_flights _ _ _ Hc) Hk). Qed.

Lemma vote_result_term a n n' r i : node_ok N sz i n -> (0 <= rv_term a < 2 ^ 31)%Z ->
  vote_result a n n' r -> (0 <= rvr_term r < 2 ^ 31)%Z.
Proof.
  intros Hn Ha [[_ ->]|(now & [(_ & _ & ->)|[_ ->]])]; simpl; [lia| |];
    pose proof (ok_term _ _ _ _ Hn); unfold catch_up; case_decide; try lia; by destruct n.
Qed.

Lemma call_append_wf src t a saved hb : src < sz ->
  call_ok N sz src (CallAppendEntries t a saved hb) -> append_args_wf a.
Proof.
  intros Hsrc (_ & _ & H1' & H2 & H3 & H4 & H5 & H6 & H7 & H8).
  unfold append_args_wf, int32 in *. split_and!; try done; lia.
Qed.

Lemma deliver_ends k now c : cluster_ok N sz c -> step_ends (Deliver k now) c.
Proof.
  intros Hc. assert (step (Deliver k now) c = deliver k now c) as Es by done.
  unfold deliver in Es. autorewrite with monad in Es.
  destruct (flights c !! k) as [[src [t a saved|t a saved hb] [ans|]]|] eqn:Hk;
    try (by apply none_ends; rewrite Es).
  - destruct (flight_at c k _ Hc Hk) as (Hsrc & (Ht & _ & Hta & Hca & Hsv & Hi & Hl) & _). simpl in Hsrc, Hca.
    destruct (cluster_node c t Hc Ht) as [n Hn]. pose proof (ok_nodes _ _ _ Hc _ _ Hn) as Hok.
    destruct (RequestVote_result now a n (node_short _ _ Hok)) as (n' & r & E & Hr).
    assert (0 <= rvr_term r < 2 ^ 31)%Z as Hrt by (eapply (vote_result_term a); [exact Hok|lia|exact Hr]).
    rewrite (bind_Ret _ _ _ _ _ (wire_vote_args a _ c ltac:(unfold int32; lia)
               ltac:(unfold int32; lia) Hi Hl)) in Es.
    rewrite (bind_Ret _ _ _ _ _ (on_node_Ret _ _ _ _ _ _ Hn E)) in Es.
    rewrite (bind_Ret _ _ _ _ _ (wire_vote_reply r _ _ ltac:(unfold int32; lia))) in Es.
    left. eexists. split; [exact Es|]. exact (T_vote c k now src t a saved n n' r Hk Hn Hr).
  - destruct (flight_at c k _ Hc Hk) as (Hsrc & Hcl & _). simpl in Hsrc, Hcl.
    destruct (cluster_node c t Hc ltac:(apply Hcl)) as [n Hn].
    pose proof (ok_nodes _ _ _ Hc _ _ Hn) as Hok.
    destruct (AppendEntries_result now a n (node_short _ _ Hok) ltac:(apply Hcl)) as (n' & r & E & Hr).
    rewrite (bind_Ret _ _ _ _ _ (wire_append_args a _ c (call_append_wf src t a saved hb Hsrc Hcl))) in Es.
    rewrite (bind_Ret _ _ _ _ _ (on_node_Ret _ _ _ _ _ _ Hn E)) in Es.
    rewrite (bind_Ret _ _ _ _ _ (wire_append_reply r _)) in Es.
    left. eexists. split; [exact Es|]. exact (T_append c k now src t a saved hb n n' Hk Hn Hr).
Qed.

Lemma answer_ends k now c : cluster_ok N sz c -> step_ends (Answer k now) c.
Proof.
  intros Hc. assert (step (Answer k now) c = answered k now c) as Es by done.
  unfold answered in Es. autorewrite with monad in Es.
  destruct (flights c !! k) as [[src [t a saved|t a saved hb] [[r|r]|]]|] eqn:Hk;
    try (by apply none_ends; rewrite Es);
    destruct (flight_at c k _ Hc Hk) as (Hsrc & Hcl & Ha); simpl in Hsrc, Hcl, Ha;
    destruct (cluster_node c src Hc Hsrc) as [n Hn].
  - destruct (count_result_spec now t saved r n) as (n' & E & Hr).
    rewrite (bind_Ret _ _ _ _ _ (on_node_Ret _ _ _ _ _ _ Hn E)) in Es.
    left. eexists. split; [exact Es|]. exact (T_count c k now src t a saved r n n' Hk Hn Hr).
  - rewrite Ha in Es.
    assert (1 <= saved)%Z as Hsv by (destruct Hcl as (_ & _ & _ & _ & ? & _); lia).
    pose proof (SendAppendEntries_reply_zero now t a saved hb n Hsv) as E.
    rewrite (bind_Ret _ _ _ _ _ (on_node_same _ _ _ _ _ Hn E)) in Es.
    left. eexists. split; [exact Es|]. apply T_drop.
Qed.

(** Every event of a sound cluster is one of the steps, or an election in the
    last term an int32 can count. *)
Lemma step_trans e c : cluster_ok N sz c -> event_wf e -> step_ends e c.
Proof.
  intros Hc He. destruct e.
  - by apply elect_ends.
  - eapply lead_ends; [done|done|]. intros n Hn. pose proof (ok_nodes _ _ _ Hc _ _ Hn) as Hok.
    apply RunBackgroundHeartbeat_spec; [by eapply node_short|apply Hok].
  - eapply lead_ends; [done|done|]. intros n Hn. pose proof (ok_nodes _ _ _ Hc _ _ Hn) as Hok.
    apply RunBackgroundCommit_spec; [by eapply node_short|apply Hok].
  - by apply apply_ends.
  - by apply submit_ends.
  - apply stop_ends.
  - by apply deliver_ends.
  - by apply answer_ends.
  - left. eexists. split; [done|]. apply T_retry.
Qed.
End step.

(** ** The steps keep the invariant *)

Section preservation.
Context (N : Z) (sz : nat) (HN : (0 <= N < 2 ^ 31 - 1)%Z) (Hsz : (Z.of_nat sz < 2 ^ 31)%Z).

Lemma node_ok_mono i n : node_ok N sz i n -> node_ok (N + 1) sz i n.
Proof. intros []. constructor; try done. lia. Qed.

Lemma call_ok_mono src cl : call_ok N sz src cl -> call_ok (N + 1) sz src cl.
Proof. destruct cl; simpl; [done|]. intros (?&?&?&?&?&?&?&?&?&?). split_and!; try done; lia. Qed.

Lemma flight_ok_mono f : flight_ok N sz f -> flight_ok (N + 1) sz f.
Proof. intros (? & ? & ?). split_and!; auto using call_ok_mono. Qed.

(** A node that differs in fields the invariant does not speak of. *)
Lemma node_ok_same i n n' : node_ok N sz i n -> progress n' = progress n ->
  my_id_ n' = my_id_ n -> num_nodes n' = num_nodes n ->
  (0 <= current_term_ n' < 2 ^ 31)%Z -> (role_ n' ≠ follower -> 1 <= current_term_ n')%Z ->
  (role_ n' = leader -> role_ n = leader) -> node_ok N sz i n'.
Proof.
  intros Hn [= E1 E2 E3 E4 E5 E6] Hid Hnum Ht Hr Hl. destruct Hn.
  constructor; try first [assumption|congruence].
  intros Hl'. unfold next_ok. rewrite E4, E1, Hnum. exact (ok_next0 (Hl Hl')).
Qed.

Lemma node_ok_follower i n now t : node_ok N sz i n -> (0 <= t < 2 ^ 31)%Z ->
  node_ok N sz i (BecomeFollower now t n).
Proof. intros Hn Ht. eapply node_ok_same; [exact Hn|apply progress_follower|..]; by destruct n. Qed.

Lemma node_ok_catch_up i n now t : node_ok N sz i n -> (0 <= t < 2 ^ 31)%Z ->
  node_ok N sz i (catch_up now t n).
Proof. intros Hn Ht. unfold catch_up. case_decide; [by apply node_ok_follower|done]. Qed.

Lemma node_ok_time i n now : node_ok N sz i n -> node_ok N sz i (set_time now n).
Proof.
  intros Hn. pose proof (ok_term _ _ _ _ Hn). pose proof (ok_role _ _ _ _ Hn).
  eapply node_ok_same; [exact Hn|apply progress_time|..]; by destruct n.
Qed.

Lemma node_ok_vote i n v : node_ok N sz i n -> node_ok N sz i (set_vote v n).
Proof.
  intros Hn. pose proof (ok_term _ _ _ _ Hn). pose proof (ok_role _ _ _ _ Hn).
  eapply node_ok_same; [exact Hn|apply progress_vote|..]; by destruct n.
Qed.

Lemma node_ok_heard i n now t : node_ok N sz i n -> (0 <= t < 2 ^ 31)%Z ->
  node_ok N sz i (heard now t n).
Proof.
  intros Hn Ht. unfold heard. apply node_ok_time. unfold step_down.
  pose proof (node_ok_catch_up i n now t Hn Ht). case_decide; [by apply node_ok_follower|done].
Qed.

Lemma AddLogAt_wf i es (s : RaftStorage Command) :
  Forall entry_wf (log s) -> Forall entry_wf es -> Forall entry_wf (log (AddLogAt i es s)).
Proof.
  intros Hl Hes. rewrite AddLogAt_log_resize. rewrite !Forall_app. split_and!; [|done|by apply Forall_drop].
  apply Forall_take, Forall_resize; [|done]. split; [apply Command_default_wf|unfold int32; simpl; lia].
Qed.

Lemma append_matched_wf a n : Forall entry_wf (node_log n) -> Forall entry_wf (ae_entries a) ->
  Forall entry_wf (node_log (append_matched a n)).
Proof.
  intros Hl Hes. unfold append_matched. destruct (find_insert _ _ _ _) as [i k].
  assert (Forall entry_wf (log (AddLogAt i (drop k (ae_entries a)) (storage_ n))))
    by (apply AddLogAt_wf; [done|by apply Forall_drop]).
  unfold node_log in *. destruct n; simpl in *; repeat (case_decide; simpl in *); first [assumption|lia].
Qed.

Lemma node_ok_matched i n a : node_ok N sz i n -> role_ n = follower -> ae_leader_commit a = 0%Z ->
  (0 <= ae_prev_log_index a)%Z -> ae_entries a ≠ [] ->
  (ae_prev_log_index a + Z.of_nat (length (ae_entries a)) <= N)%Z -> Forall entry_wf (ae_entries a) ->
  node_ok (N + 1) sz i (append_matched a n).
Proof.
  intros Hn Hr Hc Hp Hne Hle Hwf. pose proof (view_matched a n) as [= V1 V2 V3 V4 V5 V6].
  destruct (append_matched_rest a n) as (R1 & R2 & R3 & R4 & R5).
  destruct (append_matched_log a n Hp Hne) as [Hlen _]. destruct Hn.
  constructor.
  - congruence.
  - congruence.
  - by rewrite V4.
  - by rewrite V3, Hr.
  - by apply append_matched_wf.
  - rewrite Hlen. lia.
  - by rewrite append_matched_commit by lia.
  - congruence.
  - by rewrite V3, Hr.
Qed.

Lemma node_ok_append i n n' a src t saved hb :
  node_ok N sz i n -> call_ok N sz src (CallAppendEntries t a saved hb) -> append_result a n n' ->
  node_ok (N + 1) sz i n'.
Proof.
  intros Hn (_ & _ & <- & _ & Hs & Hc & Hp & Hle & _ & Hwf).
  intros [-> |[(Ht & _ & now & ->)|(Ht & _ & Hne & now & _ & ->)]].
  - by apply node_ok_mono.
  - apply node_ok_mono, node_ok_heard; [done|lia].
  - apply node_ok_matched; try done; [apply node_ok_heard; [done|lia]|].
    by pose proof (heard_view now (ae_term a) n Ht) as [= _ _ -> _ _ _].
Qed.

Lemma node_ok_vote_result i n n' a r : node_ok N sz i n -> (0 <= rv_term a < 2 ^ 31)%Z ->
  vote_result a n n' r -> node_ok N sz i n'.
Proof.
  intros Hn Ht [[-> _]|(now & [(_ & -> & _)|[-> _]])]; [done|apply node_ok_vote|];
    by apply node_ok_catch_up.
Qed.

Lemma node_ok_count i n n' t saved r : node_ok N sz i n -> (1 <= saved)%Z ->
  (0 <= rvr_term r < 2 ^ 31)%Z -> count_result t saved r n n' -> node_ok N sz i n'.
Proof.
  intros Hn Hs Hr [[_ ->]|[(_ & Hlt & now & ->)|(Hc & Hle & ->)]]; [done|by apply node_ok_follower|].
  assert (node_ok N sz i (counted t saved r n)) as Hn1.
  { unfold counted. case_decide; [|done].
    pose proof (ok_term _ _ _ _ Hn). pose proof (ok_role _ _ _ _ Hn).
    eapply node_ok_same; [exact Hn|apply progress_followers|..]; by destruct n. }
  assert (role_ (counted t saved r n) = candidate) as Hr1
    by (unfold counted; case_decide; by destruct n).
  revert Hn1 Hr1. generalize (counted t saved r n). intros m Hm Hrm. case_decide; [|done].
  pose proof (node_short N sz HN i m Hm) as Hsh. destruct Hm.
  assert (num_nodes (BecomeLeader m) = num_nodes m /\ node_log (BecomeLeader m) = node_log m
    /\ next_index_ (BecomeLeader m)
       = replicate (num_nodes m) (Z.of_nat (length (node_log m)) + 1)%Z) as (L1 & L2 & L3).
  { rewrite <-(GetLastLogIndex_short m Hsh). by destruct m. }
  constructor; try (by destruct m).
  - intros _. destruct m. simpl in *. apply ok_role0. congruence.
  - intros _. unfold next_ok. rewrite L1, L2, L3. split; [apply length_replicate|].
    apply Forall_replicate. lia.
Qed.

Lemma node_ok_submit i n x : node_ok N sz i n -> role_ n = leader -> Command_wf x ->
  node_ok (N + 1) sz i (set_storage (Flush (AddLog (mkEntry x (current_term_ n)) (storage_ n))) n).
Proof.
  intros [] Hr Hx. set (n' := set_storage _ n).
  assert (node_log n' = node_log n ++ [mkEntry x (current_term_ n)]) as Hl by (by destruct n).
  constructor; try (by destruct n).
  - rewrite Hl. apply Forall_app. split; [done|]. constructor; [|done].
    split; [done|]. unfold int32. simpl. lia.
  - rewrite Hl, length_app. simpl. lia.
  - intros _. destruct (ok_next0 Hr) as [H1' H2]. split; [by destruct n|].
    replace (next_index_ n') with (next_index_ n) by (by destruct n).
    rewrite Hl, length_app. eapply Forall_impl; [exact H2|]. simpl. lia.
Qed.

Lemma GetLogTerm_int32 i n k t : node_ok N sz i n -> GetLogTerm k n = Some t -> int32 t.
Proof.
  intros Hn. destruct Hn. unfold GetLogTerm.
  case_decide; [intros [= <-]; unfold int32; lia|].
  case_decide; [intros [= <-]; unfold int32; lia|].
  intros (e & He & ->)%fmap_Some. revert He. unfold log_at. case_decide; [|done]. intros He.
  apply (Forall_lookup_1 _ _ _ _ ok_entries0 He).
Qed.

Lemma vote_call_ok i n cl : node_ok N sz i n -> (1 <= current_term_ n)%Z ->
  cl ∈ vote_calls n -> call_ok N sz i cl.
Proof.
  intros Hn Ht. pose proof (node_short N sz HN i n Hn) as Hs. unfold vote_calls.
  destruct (GetLogTerm _ n) as [lt|] eqn:Hlt; [|set_solver].
  pose proof (GetLogTerm_int32 i n _ _ Hn Hlt). destruct Hn.
  intros (t & -> & [Ht1 Ht2]%peers_spec)%list_elem_of_fmap. simpl.
  rewrite (GetLastLogIndex_short n Hs) in *. split_and!; first [congruence|lia|done|unfold int32; lia].
Qed.

Lemma append_call_ok i n cl : node_ok N sz i n -> role_ n = leader ->
  append_call n cl -> call_ok N sz i cl.
Proof.
  intros Hn Hr (t & a & hb & -> & [Ht1 Ht2]%peers_spec & Ha & Hc & Hid & Hp & Hg & He).
  pose proof (GetLogTerm_int32 i n _ _ Hn Hg). destruct Hn. simpl.
  assert (1 <= current_term_ n)%Z by (apply ok_role0; congruence).
  split_and!; try congruence; try lia.
  - destruct He as [[-> ?]|[-> ?]]; [simpl; lia|]. rewrite length_drop. lia.
  - destruct He as [[-> ?]|[-> ?]]; [done|]. by apply Forall_drop.
Qed.

Lemma cluster_ok_update c i n n' fl : cluster_ok N sz c -> nodes c !! i = Some n ->
  node_ok (N + 1) sz i n' -> Forall (flight_ok (N + 1) sz) fl ->
  cluster_ok (N + 1) sz (mkCluster (<[i := n']> (nodes c)) fl).
Proof.
  intros [Hl Hn _] Hi Hn' Hf. constructor; simpl; [by rewrite length_insert| |done].
  intros j m Hj. destruct (decide (i = j)) as [->|Hne].
  - rewrite list_lookup_insert_eq in Hj by (by eapply lookup_lt_Some). by injection Hj as <-.
  - rewrite list_lookup_insert_ne in Hj by done. by apply node_ok_mono, Hn.
Qed.

Lemma cluster_ok_flights c fl : cluster_ok N sz c -> Forall (flight_ok (N + 1) sz) fl ->
  cluster_ok (N + 1) sz (mkCluster (nodes c) fl).
Proof. intros [Hl Hn _] Hf. constructor; simpl; auto using node_ok_mono. Qed.

Lemma flights_mono c : cluster_ok N sz c -> Forall (flight_ok (N + 1) sz) (flights c).
Proof. intros [_ _ Hf]. eapply Forall_impl; [exact Hf|apply flight_ok_mono]. Qed.

Lemma Forall_spawn i cs : i < sz -> Forall (call_ok (N + 1) sz i) cs ->
  Forall (flight_ok (N + 1) sz) ((fun x => mkFlight i x None) <$> cs).
Proof.
  intros Hi Hcs. apply Forall_fmap. eapply Forall_impl; [exact Hcs|]. intros cl Hcl.
  split_and!; try done. unfold answer_ok. simpl. by destruct cl.
Qed.

Lemma trans_ok c e c' : cluster_ok N sz c -> trans c e c' -> cluster_ok (N + 1) sz c'.
Proof.
  intros Hc Ht. pose proof (flights_mono c Hc) as Hf.
  assert (forall i n, nodes c !! i = Some n -> i < sz) as Hlt.
  { intros i n Hi. rewrite <-(ok_length _ _ _ Hc). by eapply lookup_lt_Some. }
  pose proof (ok_nodes _ _ _ Hc) as Hok.
  destruct Ht as [e|i now next n Hi Hr Hm n1|e i n cs Hi Hr Ha|i n x Hi Hr Hx|i n Hi
    |k now src t a saved n n' r Hk Hi Hv|k now src t a saved hb n n' Hk Hi Hv
    |k now src t a saved r n n' Hk Hi Hv|k now|k].
  - pose proof (cluster_ok_flights c (flights c) Hc Hf) as Hc1. by destruct c.
  - assert (node_ok N sz i n1) as Hn1.
    { pose proof (ok_term _ _ _ _ (Hok _ _ Hi)). eapply node_ok_same;
        [exact (Hok _ _ Hi)|apply progress_candidate|by destruct n|by destruct n|..];
        unfold n1; destruct n; simpl in *; try lia; done. }
    eapply cluster_ok_update; [done|done|by apply node_ok_mono|]. apply Forall_app. split; [done|].
    apply Forall_spawn; [by eapply Hlt|]. apply Forall_forall. intros cl Hcl.
    eapply call_ok_mono, vote_call_ok; [exact Hn1| |done].
    pose proof (ok_term _ _ _ _ (Hok _ _ Hi)). unfold n1. destruct n; simpl in *. lia.
  - apply cluster_ok_flights; [done|]. apply Forall_app. split; [done|].
    apply Forall_spawn; [by eapply Hlt|]. eapply Forall_impl; [exact Ha|]. intros cl Hcl.
    apply call_ok_mono. by eapply append_call_ok; [apply Hok|..].
  - eapply cluster_ok_update; [done|done| |done]. by apply node_ok_submit; [apply Hok|..].
  - eapply cluster_ok_update; [done|done| |done]. pose proof (Hok _ _ Hi) as Hn.
    pose proof (ok_term _ _ _ _ Hn). pose proof (ok_role _ _ _ _ Hn).
    apply node_ok_mono. eapply node_ok_same; [exact Hn|apply progress_stopped|..]; by destruct n.
  - destruct (flight_at N sz c k _ Hc Hk) as (Hs & Hcl & _).
    assert (0 <= rv_term a < 2 ^ 31)%Z as Hrt by (destruct Hcl as (_ & _ & ? & _ & ? & _); lia).
    eapply cluster_ok_update; [done|done| |].
    + eapply node_ok_mono, node_ok_vote_result; [apply (Hok _ _ Hi)|exact Hrt|exact Hv].
    + apply Forall_insert; [done|]. split_and!; [done|by apply call_ok_mono|].
      unfold answer_ok. simpl. by eapply (vote_result_term N sz a); [apply (Hok _ _ Hi)|..].
  - destruct (flight_at N sz c k _ Hc Hk) as (Hs & Hcl & _).
    eapply cluster_ok_update; [done|done| |].
    + by eapply node_ok_append; [apply (Hok _ _ Hi)|exact Hcl|].
    + apply Forall_insert; [done|]. split_and!; [done|by apply call_ok_mono|done].
  - destruct (flight_at N sz c k _ Hc Hk) as (Hs & Hcl & Han).
    eapply cluster_ok_update; [done|done| |by apply Forall_delete].
    eapply node_ok_mono, node_ok_count; [apply (Hok _ _ Hi)| |exact Han|exact Hv].
    destruct Hcl as (_ & _ & _ & _ & ? & _). lia.
  - apply cluster_ok_flights; [done|]. by apply Forall_delete.
  - apply cluster_ok_flights; [done|]. apply Forall_alter; [done|].
    intros f Hfk (Hs & Hcl & _). unfold retry_call. destruct f as [src [] ans]; simpl in *; by split_and!.
Qed.
End preservation.
End invariant.
