(* ===== verification/RaftElection.v ===== *)
(** * Elections of a Raft cluster

    Election safety: with the votes of each term recorded in a map from voter and
    term to candidate, every candidate's count is backed by recorded votes and no
    voter has two in a term, so two leaders of one term would share a voter.  The
    code counts an answer without asking which election it belongs to, so this
    needs answers to arrive while the election they answer is on; the last part
    shows a run in which one arrives late and a term gets two leaders. *)

From S2P Require Import Prelude Serializer Rpc RaftStorage Raft RaftNode RaftCluster RaftInvariant RaftSafety.

Section election.
Context {Command StateMachine : Type}
  `{RaftCommandLaws Command, RaftStateMachine StateMachine Command}.
Implicit Types (n : Raft Command StateMachine) (c : cluster Command StateMachine)
  (e : event Command) (l : list (RaftStorage Command * StateMachine)) (f : flight Command)
  (G : gmap (nat * Z) nat).

(** ** Answers in time *)

(** The event hands a candidate the answer of the election it is holding, if it
    hands it an answer. *)
Definition in_time c e : Prop :=
  match e with
  | Answer k _ =>
      match flights c !! k with
      | Some (mkFlight src (CallRequestVote _ _ saved) _) =>
          match nodes c !! src with
          | Some n => role_ n = candidate -> current_term_ n = saved
          | None => True
          end
      | _ => True
      end
  | _ => True
  end.

Fixpoint run_in_time (es : list (event Command)) c : Prop :=
  match es with
  | [] => True
  | e :: es => in_time c e /\ match step e c with (Ret _, c') => run_in_time es c' | _ => True end
  end.

(** ** The votes *)

Record node_votes G (v : nat) n : Prop := {
  votes_past : forall T x, G !! (v, T) = Some x ->
    (T <= current_term_ n)%Z
    /\ (T = current_term_ n -> role_ n = follower /\ vote_for_ n = Z.of_nat x);
  votes_own : role_ n ≠ follower -> vote_for_ n = Z.of_nat v
    /\ forall x, x ∈ follower_id_set_ n -> G !! (x, current_term_ n) = Some v;
  votes_lead : role_ n = leader -> majority n
}.

Definition vote_answer_ok G f : Prop :=
  match fl_call f, fl_answer f with
  | CallRequestVote t _ _, Some (AnswerVote r) =>
      vote_granted r = true -> G !! (t, rvr_term r) = Some (fl_src f)
  | _, _ => True
  end.

Record votes_ok (sz : nat) G c : Prop := {
  votes_range : forall v T x, G !! (v, T) = Some x -> v < sz /\ v ≠ x;
  votes_nodes : forall v n, nodes c !! v = Some n -> node_votes G v n;
  votes_flights : Forall (vote_answer_ok G) (flights c)
}.

(** The record of votes speaks of the election fields only. *)
Lemma node_votes_view G v n n' : view n' = view n -> node_votes G v n -> node_votes G v n'.
Proof.
  intros [= E1 E2 E3 E4 E5 E6] [H1' H2 H3].
  constructor; unfold majority in *; rewrite ?E2, ?E3, ?E4, ?E5, ?E6; auto.
Qed.

Lemma node_votes_mono G G' v n : G ⊆ G' -> (forall T x, G' !! (v, T) = Some x -> G !! (v, T) = Some x) ->
  node_votes G v n -> node_votes G' v n.
Proof.
  intros Hsub Hv [H1' H2 H3]. constructor; [eauto| |done].
  intros Hr. destruct (H2 Hr) as [? Hx]. split; [done|]. intros x Hin.
  eapply lookup_weaken; [by apply Hx|done].
Qed.

Lemma vote_answer_mono G G' f : G ⊆ G' -> vote_answer_ok G f -> vote_answer_ok G' f.
Proof.
  intros Hsub. unfold vote_answer_ok. destruct (fl_call f); [|done].
  destruct (fl_answer f) as [[]|]; try done. intros Hg Hr. eapply lookup_weaken; eauto.
Qed.

(** A node that steps down, into a later term or from another role. *)
Lemma node_votes_follower G v n now t : node_votes G v n ->
  (current_term_ n < t)%Z \/ (t = current_term_ n /\ role_ n ≠ follower) ->
  node_votes G v (BecomeFollower now t n).
Proof.
  intros [H1' H2 H3] Ht. pose proof (view_follower now t n) as [= E1 E2 E3 E4 E5 E6].
  constructor; rewrite ?E3, ?E4; try done.
  intros T x Hx. destruct (H1' T x Hx) as [Hle Heq]. split; [lia|].
  intros ->. destruct Ht as [Ht|[-> Hr]]; [lia|]. by destruct (Heq eq_refl).
Qed.

Lemma node_votes_catch_up G v n now t : node_votes G v n -> node_votes G v (catch_up now t n).
Proof. intros Hn. unfold catch_up. case_decide; [apply node_votes_follower; auto|done]. Qed.

Lemma node_votes_heard G v n now t : node_votes G v n -> (current_term_ n <= t)%Z ->
  node_votes G v (heard now t n).
Proof.
  intros Hn Ht. unfold heard. eapply node_votes_view; [apply view_time|]. unfold step_down.
  pose proof (catch_up_term now t n Ht). pose proof (node_votes_catch_up G v n now t Hn).
  case_decide; [|done]. apply node_votes_follower; [done|]. right. split; [congruence|done].
Qed.

Lemma node_votes_append G v n n' a : node_votes G v n -> append_result a n n' -> node_votes G v n'.
Proof.
  intros Hn [-> |[(Ht & _ & now & ->)|(Ht & _ & _ & now & _ & ->)]]; [done|by apply node_votes_heard|].
  eapply node_votes_view; [apply view_matched|]. by apply node_votes_heard.
Qed.

Lemma node_votes_candidate G v n now : node_votes G v n -> my_id_ n = v ->
  node_votes G v (BecomeCandidate now (current_term_ n + 1) n).
Proof.
  intros [H1' H2 H3] Hid. pose proof (view_candidate now (current_term_ n + 1) n) as [= E1 E2 E3 E4 E5 E6].
  constructor; rewrite ?E3, ?E4, ?E5, ?E6; try done.
  - intros T x Hx. destruct (H1' T x Hx) as [Hle _]. split; lia.
  - intros _. split; [congruence|set_solver].
Qed.

(** A candidate with an answer of its election. *)
Lemma node_votes_count G v n n' t saved r : node_votes G v n ->
  (role_ n = candidate -> current_term_ n = saved) ->
  (vote_granted r = true -> G !! (t, rvr_term r) = Some v) ->
  count_result t saved r n n' -> node_votes G v n'.
Proof.
  intros Hn Hfr Hg [[_ ->]|[(Hc & Hlt & now & ->)|(Hc & Hle & ->)]]; [done| |].
  { apply node_votes_follower; [done|]. left. rewrite (Hfr Hc). done. }
  assert (node_votes G v (counted t saved r n) /\ role_ (counted t saved r n) = candidate) as [Hn1 Hr1].
  { unfold counted. case_decide as D; [|done]. destruct D as [Hrt Hgr], Hn as [H1' H2 H3].
    pose proof (view_followers ({[t]} ∪ follower_id_set_ n) n) as [= E1 E2 E3 E4 E5 E6].
    split; [|by rewrite E3]. destruct (H2 ltac:(congruence)) as [Hv Hx].
    constructor; rewrite ?E3, ?E4, ?E5, ?E6; try done; [|congruence].
    intros _. split; [done|]. intros x [->%elem_of_singleton|Hin]%elem_of_union; [|auto].
    rewrite <-(Hg Hgr), (Hfr Hc), Hrt. done. }
  revert Hn1 Hr1. generalize (counted t saved r n). intros m Hm Hrm.
  destruct (decide (majority m)) as [D|D]; [|done]. destruct Hm as [H1' H2 H3].
  pose proof (view_leader m) as [= E1 E2 E3 E4 E5 E6].
  constructor; rewrite ?E3, ?E4, ?E5, ?E6.
  - intros T x Hx. destruct (H1' T x Hx) as [? Heq]. split; [done|]. intros ->.
    destruct (Heq eq_refl). congruence.
  - intros _. apply H2. congruence.
  - intros _. unfold majority in *. by rewrite E2, E6.
Qed.

(** A node that grants its vote: the vote can be recorded. *)
Lemma grant_fresh G t n src a :
  node_votes G t n -> t ≠ src -> rv_candidate_id a = Z.of_nat src -> may_grant a n ->
  role_ n = follower /\ (G !! (t, current_term_ n) = None \/ G !! (t, current_term_ n) = Some src).
Proof.
  intros [H1' H2 H3] Hne Hid (_ & Hv & _).
  assert (role_ n = follower) as Hr.
  { destruct (decide (role_ n = follower)) as [|D]; [done|]. destruct (H2 D) as [Ho _].
    rewrite Ho, Hid in Hv. lia. }
  split; [done|]. destruct (G !! (t, current_term_ n)) as [x|] eqn:Hx; [right|by left].
  destruct (H1' _ _ Hx) as [_ Heq]. destruct (Heq eq_refl) as [_ Hvx].
  rewrite Hvx, Hid in Hv. f_equal. lia.
Qed.

Lemma node_votes_granted G t n src a : node_votes G t n -> role_ n = follower ->
  rv_candidate_id a = Z.of_nat src ->
  node_votes (<[(t, current_term_ n) := src]> G) t (set_vote (rv_candidate_id a) n).
Proof.
  intros [H1' H2 H3] Hr Hid.
  pose proof (view_vote (rv_candidate_id a) n) as [= E1 E2 E3 E4 E5 E6].
  constructor; rewrite ?E3, ?E4, ?E5, ?E6; try congruence.
  intros T x Hx. destruct (decide (T = current_term_ n)) as [->|HT].
  - rewrite lookup_insert_eq in Hx. injection Hx as <-. done.
  - rewrite lookup_insert_ne in Hx by congruence. destruct (H1' _ _ Hx) as [? _]. done.
Qed.

Lemma votes_ok_update sz G c i n n' fl : votes_ok sz G c -> nodes c !! i = Some n ->
  node_votes G i n' -> Forall (vote_answer_ok G) fl ->
  votes_ok sz G (mkCluster (<[i := n']> (nodes c)) fl).
Proof.
  intros [Hr Hn _] Hi Hn' Hf. constructor; [done| |done]. simpl. intros j m Hj.
  destruct (decide (i = j)) as [->|Hne].
  - rewrite list_lookup_insert_eq in Hj by (by eapply lookup_lt_Some). by injection Hj as <-.
  - rewrite list_lookup_insert_ne in Hj by done. auto.
Qed.

Lemma votes_ok_mono sz G G' c t T src : votes_ok sz G c ->
  G' = <[(t, T) := src]> G -> G !! (t, T) = None \/ G !! (t, T) = Some src -> t < sz -> t ≠ src ->
  (forall v T' x, G' !! (v, T') = Some x -> v < sz /\ v ≠ x)
  /\ (forall v n, v ≠ t -> nodes c !! v = Some n -> node_votes G' v n)
  /\ Forall (vote_answer_ok G') (flights c).
Proof.
  intros [Hr Hn Hf] -> Hor Ht Hne.
  assert (G ⊆ <[(t, T) := src]> G) as Hsub.
  { apply map_subseteq_spec. intros [v T'] x Hx. destruct (decide ((v, T') = (t, T))) as [Heq|Heq].
    - injection Heq as -> ->. rewrite lookup_insert_eq. naive_solver.
    - by rewrite lookup_insert_ne. }
  split_and!.
  - intros v T' x [[[= <- <-] <-]|[_ Hx]]%lookup_insert_Some; [done|eauto].
  - intros v n Hv Hi. eapply node_votes_mono; [exact Hsub| |by apply Hn].
    intros T' x [[[= <- <-] <-]|[_ Hx]]%lookup_insert_Some; done.
  - eapply Forall_impl; [exact Hf|]. intros f. by apply vote_answer_mono.
Qed.

Lemma vote_trans sz N G c k src t a saved n n' r : cluster_ok N sz c -> votes_ok sz G c ->
  flights c !! k = Some (mkFlight src (CallRequestVote t a saved) None) -> nodes c !! t = Some n ->
  vote_result a n n' r ->
  exists G', votes_ok sz G'
    (mkCluster (<[t := n']> (nodes c))
       (<[k := mkFlight src (CallRequestVote t a saved) (Some (AnswerVote r))]> (flights c))).
Proof.
  intros Hc HG Hk Hi Hv. destruct (flight_at _ _ _ _ _ Hc Hk) as (_ & (Ht & Hne & _ & Hid & _) & _).
  simpl in Hid, Hne. destruct Hv as [[-> ->]|(nw & [(Hg & -> & ->)|[-> ->]])].
  - exists G. eapply votes_ok_update; [done|done|by apply (votes_nodes _ _ _ HG)|].
    apply Forall_insert; [apply HG|done].
  - set (n1 := catch_up nw (rv_term a) n) in *.
    assert (node_votes G t n1) as Hn1 by (apply node_votes_catch_up, HG, Hi).
    destruct (grant_fresh G t n1 src a Hn1 Hne Hid Hg) as [Hr Hor].
    destruct (votes_ok_mono sz G _ c t (current_term_ n1) src HG eq_refl Hor Ht Hne) as (M1 & M2 & M3).
    exists (<[(t, current_term_ n1) := src]> G). constructor; [done| |].
    + simpl. intros v m Hm. destruct (decide (t = v)) as [<-|Hvt].
      * rewrite list_lookup_insert_eq in Hm by (by eapply lookup_lt_Some). injection Hm as <-.
        by apply node_votes_granted.
      * rewrite list_lookup_insert_ne in Hm by done. auto.
    + apply Forall_insert; [done|]. unfold vote_answer_ok. simpl. intros _. apply lookup_insert_eq.
  - exists G. eapply votes_ok_update; [done|done|by apply node_votes_catch_up, HG|].
    apply Forall_insert; [apply HG|done].
Qed.

Lemma retry_votes G f : vote_answer_ok G (retry_call f).
Proof. unfold vote_answer_ok, retry_call. by destruct (fl_call f). Qed.

Lemma trans_votes N sz G c e c' : cluster_ok N sz c -> in_time c e -> votes_ok sz G c ->
  trans c e c' -> exists G', votes_ok sz G' c'.
Proof.
  intros Hc Hin HG Ht. pose proof (votes_range _ _ _ HG) as Hr.
  pose proof (votes_nodes _ _ _ HG) as Hn. pose proof (votes_flights _ _ _ HG) as Hf.
  assert (forall i cs, Forall (vote_answer_ok G) (flights c ++ ((fun x => mkFlight i x None) <$> cs))) as Hsp.
  { intros i cs. apply Forall_app. split; [done|]. apply Forall_fmap, Forall_forall. intros x _.
    unfold vote_answer_ok. simpl. by destruct x. }
  destruct Ht as [e|i now next n Hi Hrl Hm n1|e i n cs Hi Hrl Ha|i n x Hi Hrl Hx|i n Hi
    |k now src t a saved n n' r Hk Hi Hv|k now src t a saved hb n n' Hk Hi Hv
    |k now src t a saved r n n' Hk Hi Hv|k now|k].
  - by exists G.
  - exists G. eapply votes_ok_update; [done|done| |done].
    apply node_votes_candidate; [auto|]. apply (ok_id _ _ _ _ (ok_nodes _ _ _ Hc _ _ Hi)).
  - exists G. constructor; simpl; auto.
  - exists G. eapply votes_ok_update; [done|done| |done].
    eapply node_votes_view; [apply view_storage|auto].
  - exists G. eapply votes_ok_update; [done|done| |done].
    eapply node_votes_view; [|by apply Hn]. by destruct n.
  - by eapply vote_trans.
  - exists G. eapply votes_ok_update; [done|done|by eapply node_votes_append; eauto|].
    apply Forall_insert; done.
  - exists G. eapply votes_ok_update; [done|done| |by apply Forall_delete].
    simpl in Hin. rewrite Hk, Hi in Hin.
    eapply node_votes_count; [by apply Hn|exact Hin| |exact Hv].
    exact (Forall_lookup_1 _ _ _ _ Hf Hk).
  - exists G. constructor; simpl; [done|done|by apply Forall_delete].
  - exists G. constructor; simpl; [done|done|]. apply Forall_alter; [done|]. intros. apply retry_votes.
Qed.

Lemma run_votes sz es : forall N G c c', room N sz (length es) -> Forall event_wf es ->
  cluster_ok N sz c -> votes_ok sz G c -> run_in_time es c -> run es c = (Ret tt, c') ->
  (exists N', cluster_ok N' sz c') /\ exists G', votes_ok sz G' c'.
Proof.
  induction es as [|e es IH]; intros N G c c' Hr He Hc HG Hin E.
  - injection E as <-. eauto.
  - apply Forall_cons in He as [He Hes]. destruct Hr as (Hr1 & Hr2 & Hr3). simpl length in Hr2.
    destruct Hin as [Hin Hins]. rewrite run_cons in E.
    destruct (step_trans N sz ltac:(lia) Hr3 e c Hc He) as [(c1 & E1 & Ht)|(c1 & E1 & _)].
    + rewrite (bind_Ret _ _ _ _ _ E1) in E. rewrite E1 in Hins.
      destruct (trans_votes N sz G c e c1 Hc Hin HG Ht) as [G1 HG1].
      eapply (IH (N + 1)%Z); [split_and!; lia|done| |exact HG1|done|done].
      by eapply trans_ok; [lia| |exact Hc|].
    + rewrite (bind_Undef _ _ _ _ _ E1) in E. discriminate.
Qed.

(** ** Quorums *)

(** Two leaders of a term would have a voter in common. *)
Lemma one_leader N sz G c i j ni nj : cluster_ok N sz c -> votes_ok sz G c ->
  nodes c !! i = Some ni -> nodes c !! j = Some nj -> role_ ni = leader -> role_ nj = leader ->
  current_term_ ni = current_term_ nj -> i = j.
Proof.
  intros Hc HG Hi Hj Ri Rj HT. destruct (decide (i = j)) as [|Hne]; [done|]. exfalso.
  destruct (votes_nodes _ _ _ HG _ _ Hi) as [Pi Oi Li], (votes_nodes _ _ _ HG _ _ Hj) as [Pj Oj Lj].
  destruct (Oi ltac:(congruence)) as [_ Fi], (Oj ltac:(congruence)) as [_ Fj].
  pose proof (Li Ri) as Mi. pose proof (Lj Rj) as Mj. unfold majority in Mi, Mj.
  rewrite (ok_num _ _ _ _ (ok_nodes _ _ _ Hc _ _ Hi)) in Mi.
  rewrite (ok_num _ _ _ _ (ok_nodes _ _ _ Hc _ _ Hj)) in Mj.
  set (A := {[i]} ∪ follower_id_set_ ni). set (B := {[j]} ∪ follower_id_set_ nj).
  assert (i ∉ follower_id_set_ ni) as Hii
    by (intros Hx; destruct (votes_range _ _ _ HG _ _ _ (Fi _ Hx)); done).
  assert (j ∉ follower_id_set_ nj) as Hjj
    by (intros Hx; destruct (votes_range _ _ _ HG _ _ _ (Fj _ Hx)); done).
  assert (A ## B) as Hd.
  { intros x [->%elem_of_singleton|Hxi]%elem_of_union [Hx|Hxj]%elem_of_union.
    - apply elem_of_singleton in Hx. congruence.
    - pose proof (Fj _ Hxj) as E. rewrite <-HT in E.
      destruct (Pi _ _ E) as [_ Heq]. destruct (Heq eq_refl). congruence.
    - apply elem_of_singleton in Hx as ->.
      pose proof (Fi _ Hxi) as E. rewrite HT in E.
      destruct (Pj _ _ E) as [_ Heq]. destruct (Heq eq_refl). congruence.
    - pose proof (Fi _ Hxi) as E1. pose proof (Fj _ Hxj) as E2. rewrite HT in E1. congruence. }
  assert (A ∪ B ⊆ list_to_set (seq 0 sz)) as Hsub.
  { assert (i < sz) by (rewrite <-(ok_length _ _ _ Hc); by eapply lookup_lt_Some).
    assert (j < sz) by (rewrite <-(ok_length _ _ _ Hc); by eapply lookup_lt_Some).
    intros x Hx. apply elem_of_list_to_set, elem_of_seq. enough (x < sz) by lia.
    unfold A, B in Hx. rewrite !elem_of_union, !elem_of_singleton in Hx.
    destruct Hx as [[-> |Hx]|[-> |Hx]]; try done;
      [by destruct (votes_range _ _ _ HG _ _ _ (Fi _ Hx))|by destruct (votes_range _ _ _ HG _ _ _ (Fj _ Hx))]. }
  apply subseteq_size in Hsub.
  rewrite (size_list_to_set (seq 0 sz)), length_seq, size_union in Hsub by (apply NoDup_seq || done).
  unfold A, B in Hsub. rewrite !size_union, !size_singleton in Hsub by set_solver.
  pose proof (Z.div_mod (Z.of_nat sz) 2 ltac:(lia)). pose proof (Z.mod_pos_bound (Z.of_nat sz) 2 ltac:(lia)).
  lia.
Qed.

Lemma init_votes now l : votes_ok (length l) ∅ (init now l).
Proof.
  constructor; simpl; [set_solver| |done]. intros v n Hn. rewrite list_lookup_imap in Hn.
  apply fmap_Some in Hn as ([s sm] & Hi & ->). by constructor; simpl.
Qed.

(** C6: election safety.  In every state a cluster reaches by a run in which a
    candidate gets an answer to a vote request only while it holds the election
    it asked for, a term has at most one leader: the threshold is a strict
    majority of all nodes, no node votes for two candidates of a term, and the
    follower set of a candidate holds only nodes that voted for it in its current
    term.  Requests and answers may be delayed, reordered, repeated and lost in
    every other way, heartbeats make candidates and leaders step down, and nodes
    may stop. *)
Theorem election_safety now l N es c i j ni nj :
  storages_ok N l -> Forall event_wf es -> room N (length l) (length es) ->
  run es (init now l) = (Ret tt, c) -> run_in_time es (init now l) ->
  nodes c !! i = Some ni -> nodes c !! j = Some nj -> role_ ni = leader -> role_ nj = leader ->
  current_term_ ni = current_term_ nj -> i = j.
Proof.
  intros Hl He Hr E Hin.
  destruct (run_votes (length l) es N ∅ (init now l) c Hr He (init_ok N now l Hl) (init_votes now l) Hin E)
    as [[N' Hc] [G HG]].
  intros. by eapply (one_leader N' (length l) G c i j ni nj).
Qed.
End election.

(** ** Runs *)

Module Examples.
Import RaftStorage.Examples RaftSafety.Examples.

(** Node 0 is elected by node 1 in time. *)
Definition fair_run : list (event Z) :=
  [ElectionTurn 0 1000 0; Deliver 0 1000; Answer 0 1000; HeartbeatTurn 0; Deliver 1 1010].

Definition fair_cluster : cluster Z (list Z) := (run fair_run three).2.

Lemma fair_run_ends : run fair_run three = (Ret tt, fair_cluster).
Proof. vm_compute. reflexivity. Qed.
Lemma fair_run_wf : Forall event_wf fair_run.
Proof. repeat constructor. Qed.
Lemma fair_run_room : room 0 3 (length fair_run).
Proof. split; [lia|split; vm_compute; reflexivity]. Qed.
Lemma fair_run_in_time : run_in_time fair_run three.
Proof. vm_compute. repeat split; intros; reflexivity || discriminate. Qed.

Lemma election_safety_witness :
  (role_ <$> nodes fair_cluster !! 0) = Some leader
  /\ forall i j ni nj, nodes fair_cluster !! i = Some ni -> nodes fair_cluster !! j = Some nj ->
     role_ ni = leader -> role_ nj = leader -> current_term_ ni = current_term_ nj -> i = j.
Proof.
  split; [vm_compute; reflexivity|]. intros i j ni nj.
  exact (election_safety 0 three_storages 0 fair_run fair_cluster i j ni nj three_ok fair_run_wf
           fair_run_room fair_run_ends fair_run_in_time).
Defined.

(** A late answer elects a second leader.  Node 0 asks for votes in term 1,
    node 1 grants it, and node 0 moves on to term 2 before the answer comes; the
    late answer then counts for term 2, makes node 0 its leader, and node 1,
    which never voted for node 0 in term 2, helps node 2 to be the leader of the
    same term. *)
Lemma two_leaders_in_one_term :
  let es := [ElectionTurn 0 1000 0; Deliver 0 1000; ElectionTurn 0 2000 0; Answer 0 2000;
             ElectionTurn 2 1000 0; ElectionTurn 2 2000 0; Deliver 6 2000; Answer 6 2000] in
  exists c n0 n2, run es three = (Ret tt, c) /\ ~ run_in_time es three
    /\ nodes c !! 0 = Some n0 /\ nodes c !! 2 = Some n2
    /\ role_ n0 = leader /\ role_ n2 = leader
    /\ current_term_ n0 = 2%Z /\ current_term_ n2 = 2%Z.
Proof.
  intros es. eexists _, _, _. split; [vm_compute; reflexivity|].
  split; [|split_and!; reflexivity].
  intros (_ & H). vm_compute in H. destruct H as (_ & _ & H & _). discriminate (H eq_refl).
Qed.

(** A late answer takes a node back to an earlier term.  A candidate of term
    3 that gets the answer of its first election, from a node that was in term 2,
    becomes a follower of term 2. *)
Theorem term_goes_backwards :
  let es := [ElectionTurn 1 1000 0; ElectionTurn 1 2000 0; ElectionTurn 0 1000 0; Deliver 4 1000;
             ElectionTurn 0 2000 0; ElectionTurn 0 3000 0] in
  exists c c' n n', run es three = (Ret tt, c) /\ run [Answer 4 3000] c = (Ret tt, c')
    /\ ~ in_time c (Answer 4 3000) /\ nodes c !! 0 = Some n /\ nodes c' !! 0 = Some n'
    /\ current_term_ n = 3%Z /\ current_term_ n' = 2%Z.
Proof.
  intros es. eexists _, _, _, _. split; [vm_compute; reflexivity|]. split; [vm_compute; reflexivity|].
  split; [|split_and!; reflexivity]. intros H. vm_compute in H. discriminate (H eq_refl).
Qed.
End Examples.
