(* ===== verification/Json.v ===== *)
(** * JSON values, their printer and parser (src/bitdb/common/json/)

    A JObject is a value with its type tag, so here one inductive type; a dict is
    a std::map, here the list of its entries in key order.  The parser is a string
    and a position in it; its errors are std::logic_error and, from
    std::string::compare, std::out_of_range.  Reading [str_[idx_]] at the end gives
    NUL; reading further is out of bounds.  Converting doubles from and to text is
    the C library's, a parameter here. *)

From S2P Require Import Prelude.

(** [strtof64] and [operator<<] on doubles. *)
Class DoubleText := {
  double : Type;
  strtod : bytes -> double;
  double_text : double -> bytes
}.

(** What the functions throw; a call that gives a value or throws. *)
Inductive json_error := LogicError (what : bytes) | OutOfRange.
Abbreviation Res A := (json_error + A)%type.
#[export] Instance Res_bind : MBind (sum json_error) := fun A B f r =>
  match r with inl e => inl e | inr a => f a end.

(** The parser: its string and the position in it. *)
Record Parser := mkParser { str_ : bytes; idx_ : nat }.

Abbreviation ParseM := (M Parser json_error).

Section json.
Context `{DoubleText}.

(** ** jobject.h *)

Inductive JObject :=
| JNull
| JBool (b : bool)
| JInt (z : Z)
| JDouble (d : double)
| JStr (s : bytes)
| JList (l : list JObject)
| JDict (l : list (bytes * JObject)).

Inductive TYPE := T_NULL | T_BOOL | T_INT | T_DOUBLE | T_STR | T_LIST | T_DICT.

Definition Type_ (j : JObject) : TYPE :=
  match j with
  | JNull => T_NULL | JBool _ => T_BOOL | JInt _ => T_INT | JDouble _ => T_DOUBLE
  | JStr _ => T_STR | JList _ => T_LIST | JDict _ => T_DICT
  end.


(** [Value<V>()]: the value of the type asked for, or an exception. *)
Definition type_error {A} (name : bytes) : Res A :=
  inl (LogicError (lit "type error in get " ++ name ++ lit " value!")).
Definition Value_str (j : JObject) : Res bytes :=
  if j is JStr s then inr s else type_error (lit "string").
Definition Value_int (j : JObject) : Res Z :=
  if j is JInt z then inr z else type_error (lit "INT").
Definition Value_bool (j : JObject) : Res bool :=
  if j is JBool b then inr b else type_error (lit "BOOL").
Definition Value_double (j : JObject) : Res double :=
  if j is JDouble d then inr d else type_error (lit "DOUBLE").
Definition Value_list (j : JObject) : Res (list JObject) :=
  if j is JList l then inr l else type_error (lit "LIST").
Definition Value_dict (j : JObject) : Res (list (bytes * JObject)) :=
  if j is JDict l then inr l else type_error (lit "DICT").

(** [std::map] by its entries in key order: [m[k] = v], and [m[k]]. *)
Fixpoint map_set (k : bytes) (v : JObject) (m : list (bytes * JObject)) : list (bytes * JObject) :=
  match m with
  | [] => [(k, v)]
  | (k', v') :: m =>
      if bytes_ltb k k' then (k, v) :: (k', v') :: m
      else if decide (k = k') then (k, v) :: m
      else (k', v') :: map_set k v m
  end.

Fixpoint map_get (k : bytes) (m : list (bytes * JObject)) : option JObject :=
  match m with
  | [] => None
  | (k', v) :: m => if decide (k = k') then Some v else map_get k m
  end.

(** [operator[]]: the entry, made null when it is not there, and the object. *)
Definition index_ (j : JObject) (k : bytes) : Res (JObject * JObject) :=
  match j with
  | JDict m =>
      match map_get k m with
      | Some v => inr (v, j)
      | None => inr (JNull, JDict (map_set k JNull m))
      end
  | _ => inl (LogicError (lit "not dict type! JObject::operator[]"))
  end.

(** [obj[k] = v]. *)
Definition assign (j : JObject) (k : bytes) (v : JObject) : Res JObject :=
  match j with
  | JDict m => inr (JDict (map_set k v m))
  | _ => inl (LogicError (lit "not dict type! JObject::operator[]"))
  end.

Definition push_back (j item : JObject) : Res JObject :=
  match j with
  | JList l => inr (JList (l ++ [item]))
  | _ => inl (LogicError (lit "not list type! JObject::push_back()"))
  end.

(** pop_back; [None] for one on an empty vector, which is undefined. *)
Definition pop_back (j : JObject) : Res (option JObject) :=
  match j with
  | JList [] => inr None
  | JList l => inr (Some (JList (removelast l)))
  | _ => inl (LogicError (lit "not list type! JObject::push_back()"))
  end.

(** ** ToString *)

Definition quote : byte := z2b 34.
Definition backslash : byte := z2b 92.

(** [operator<<] on an int32_t. *)
Definition int_text (z : Z) : bytes :=
  if decide (z < 0)%Z then lit "-" ++ to_string (- z) else to_string z.

(** Items with a comma between them. *)
Fixpoint commas (l : list bytes) : bytes :=
  match l with
  | [] => []
  | [x] => x
  | x :: l => x ++ lit "," ++ commas l
  end.

Definition quoted (s : bytes) : bytes := [quote] ++ s ++ [quote].

Fixpoint ToString (j : JObject) : bytes :=
  match j with
  | JNull => lit "null"
  | JBool true => lit "true"
  | JBool false => lit "false"
  | JInt z => int_text z
  | JDouble d => double_text d
  | JStr s => quoted s
  | JList l => lit "[" ++ commas (map ToString l) ++ lit "]"
  | JDict m => lit "{" ++ commas (map (fun kv => quoted kv.1 ++ lit ":" ++ ToString kv.2) m) ++ lit "}"
  end.

Definition entry_text (kv : bytes * JObject) : bytes := quoted kv.1 ++ lit ":" ++ ToString kv.2.

(** ** parser.cpp *)

Definition set_idx (i : nat) : ParseM unit := modify (fun p => mkParser (str_ p) i).
Definition advance (n : nat) : ParseM unit := modify (fun p => mkParser (str_ p) (idx_ p + n)).

(** [str_[i]]. *)
Definition char_at (i : nat) : ParseM byte :=
  p ← get;
  match str_ p !! i with
  | Some b => mret b
  | None => if decide (i = length (str_ p)) then mret NUL else undef OutOfBounds
  end.
Definition cur : ParseM byte := p ← get; char_at (idx_ p).

(** How many bytes at the front of a string satisfy [f]. *)
Fixpoint count_while (f : byte -> bool) (s : bytes) : nat :=
  match s with b :: s => if f b then S (count_while f s) else 0 | [] => 0 end.

(** [while (f(str_[idx_])) ++idx_]: the NUL at the end satisfies no [f] used here. *)
Definition skip_while (f : byte -> bool) : ParseM unit :=
  p ← get;
  if decide (idx_ p <= length (str_ p))
  then advance (count_while f (drop (idx_ p) (str_ p))) else undef OutOfBounds.

(** [str_.compare(idx_, n, text) == 0]. *)
Definition looking_at (text : bytes) : ParseM bool :=
  p ← get;
  if decide (idx_ p <= length (str_ p))
  then mret (bool_decide (take (length text) (drop (idx_ p) (str_ p)) = text)) else throw OutOfRange.

(** [str_.find(c, from)]. *)
Definition find (c : byte) (from : nat) : ParseM (option nat) :=
  p ← get;
  mret (let s := drop from (str_ p) in
        let n := count_while (fun b => negb (bool_decide (b = c))) s in
        if decide (n < length s) then Some (from + n) else None).

Definition logic_error {A} (s : string) : ParseM A := throw (LogicError (lit s)).

(** SkipComment.  A comment without a newline makes [find] answer npos, which is
    not [str_.size()], and [next_pos + 1] wraps to 0. *)
Fixpoint comment_loop (fuel : nat) : ParseM unit :=
  match fuel with
  | O => undef OutOfFuel
  | S fuel =>
      p ← get;
      next_pos ← find (z2b 10) (idx_ p);
      set_idx (match next_pos with Some i => S i | None => 0 end);;
      skip_while is_space;;
      more ← looking_at (lit "//");
      if more : bool then comment_loop fuel else mret tt
  end.
Definition SkipComment (fuel : nat) : ParseM unit :=
  is_comment ← looking_at (lit "//");
  if is_comment : bool then comment_loop fuel else mret tt.

(** Lines of a comment are left behind one by one, unless the position wraps. *)
Definition comment_fuel (p : Parser) : nat := 2 * length (str_ p) + 2.

Definition GetNextToken : ParseM byte :=
  skip_while is_space;;
  p ← get;
  if decide (length (str_ p) <= idx_ p)
  then logic_error "Unexpected character in parse json" else
  SkipComment (comment_fuel p);;
  cur.

Definition ParseNull : ParseM JObject :=
  ok ← looking_at (lit "null");
  if ok : bool then advance 4;; mret JNull else logic_error "parse null error".

Definition ParseBool : ParseM JObject :=
  t ← looking_at (lit "true");
  if t : bool then advance 4;; mret (JBool true) else
  f ← looking_at (lit "false");
  if f : bool then advance 5;; mret (JBool false) else logic_error "parse bool error".

(** [static_cast<int>(strtol(...))]: strtol stops at LONG_MAX. *)
Definition strtol_int (s : bytes) : Z := s32 (Z.min (read_digits 0 0 s).1 (2 ^ 63 - 1)).

Definition ParseNumber : ParseM JObject :=
  p ← get;
  let begin_ := idx_ p in
  c ← cur;
  (if is_digit c then skip_while is_digit else logic_error "invalid character in number");;
  c ← cur;
  if decide (c ≠ z2b 46) then mret (JInt (strtol_int (drop begin_ (str_ p)))) else
  advance 1;;
  c ← cur;
  if is_digit c then
    skip_while is_digit;;
    mret (JDouble (strtod (drop begin_ (str_ p))))
  else logic_error "at least one digit required in parse float part!".

(** IsEscConsume: whether an even number of backslashes ends at [pos]. *)
Definition IsEscConsume (pos : nat) : ParseM bool :=
  p ← get;
  let n := count_while (fun b => bool_decide (b = backslash)) (reverse (take (S pos) (str_ p))) in
  if decide (n <= pos) then mret (Nat.even n) else undef OutOfBounds.

(** The loop that passes escaped quotes; every turn moves to a later quote. *)
Fixpoint close_quote (fuel pos : nat) : ParseM nat :=
  match fuel with
  | O => undef OutOfFuel
  | S fuel =>
      c ← char_at (pos - 1);
      if decide (c ≠ backslash) then mret pos else
      consumed ← IsEscConsume (pos - 1);
      if consumed : bool then mret pos else
      next ← find quote (S pos);
      match next with
      | None => throw (LogicError (lit "expected left '" ++ [quote] ++ lit "' in parse string"))
      | Some pos => close_quote fuel pos
      end
  end.

Definition ParseString : ParseM JObject :=
  advance 1;;
  p ← get;
  let pre_pos := idx_ p in
  pos ← find quote pre_pos;
  match pos with
  | None => logic_error "parse string error"
  | Some pos =>
      pos ← close_quote (length (str_ p)) pos;
      set_idx (S pos);;
      mret (JStr (take (pos - pre_pos) (drop pre_pos (str_ p))))
  end.

(** [arr.push_back(...)] and [dict[key] = ...] on the object being built. *)
Definition lift {A} (r : Res A) : ParseM A := match r with inl e => throw e | inr a => mret a end.

Section containers.
Context (parse : ParseM JObject).

Fixpoint list_loop (k : nat) (arr : JObject) : ParseM JObject :=
  match k with
  | O => undef OutOfFuel
  | S k =>
      x ← parse;
      arr ← lift (push_back arr x);
      ch ← GetNextToken;
      if decide (ch = z2b 93) then advance 1;; mret arr else
      if decide (ch ≠ z2b 44) then logic_error "expected ',' in parse list" else
      advance 1;; list_loop k arr
  end.

Definition ParseList (k : nat) : ParseM JObject :=
  advance 1;;
  ch ← GetNextToken;
  if decide (ch = z2b 93) then advance 1;; mret (JList []) else list_loop k (JList []).

Fixpoint dict_loop (k : nat) (dict : JObject) : ParseM JObject :=
  match k with
  | O => undef OutOfFuel
  | S k =>
      x ← parse;
      key ← lift (Value_str x);
      ch ← GetNextToken;
      if decide (ch ≠ z2b 58) then logic_error "expected ':' in parse dict" else
      advance 1;;
      v ← parse;
      dict ← lift (assign dict key v);
      ch ← GetNextToken;
      if decide (ch = z2b 125) then advance 1;; mret dict else
      if decide (ch ≠ z2b 44) then logic_error "expected ':' in parse dict" else
      advance 1;; dict_loop k dict
  end.

Definition ParseDict (k : nat) : ParseM JObject :=
  advance 1;;
  ch ← GetNextToken;
  if decide (ch = z2b 125) then advance 1;; mret (JDict []) else dict_loop k (JDict []).
End containers.

(** Parse.  [fuel] bounds the depth of the document and the items of a list. *)
Fixpoint Parse (fuel : nat) : ParseM JObject :=
  match fuel with
  | O => undef OutOfFuel
  | S fuel =>
      token ← GetNextToken;
      if decide (token = z2b 110) then ParseNull
      else if decide (token = z2b 116 \/ token = z2b 102) then ParseBool
      else if decide (token = z2b 45 \/ is_digit token = true) then ParseNumber
      else if decide (token = quote) then ParseString
      else if decide (token = z2b 91) then ParseList (Parse fuel) fuel
      else if decide (token = z2b 123) then ParseDict (Parse fuel) fuel
      else logic_error "Unexpected character in parse json"
  end.

(** TrimRight. *)
Definition TrimRight (s : bytes) : bytes := take (length s - count_while is_space (reverse s)) s.

Definition Init (src : bytes) : Parser := mkParser (TrimRight src) 0.

(** FromString: an object takes at least one byte of the text. *)
Definition FromString (content : bytes) : outcome json_error JObject :=
  let p := Init content in (Parse (S (length (str_ p))) p).1.

(** ToJSON and FromJson of a struct with the methods [_to_json] and [_from_json];
    for the basic types they have no instance that compiles. *)
Definition ToJSON {A} (_to_json : A -> JObject -> Res JObject) (src : A) : Res bytes :=
  obj ← _to_json src (JDict []); inr (ToString obj).

Definition FromJson {A} (_from_json : JObject -> Res A) (src : bytes) : outcome json_error A :=
  match FromString src with
  | Ret obj =>
      if Type_ obj is T_DICT
      then match _from_json obj with inl e => Throw e | inr a => Ret a end
      else Throw (LogicError (lit "not dict type fromjson"))
  | Throw e => Throw e
  | Undef u => Undef u
  end.

(** The macros these methods are written with: [to_struct], [from] and [from_struct];
    [from] reads through operator[], which adds a missing key. *)
Definition to_struct {A} (_to_json : A -> JObject -> Res JObject) (obj : JObject) (key : bytes)
    (member : A) : Res JObject :=
  tmp ← _to_json member (JDict []); assign obj key tmp.

Definition from {A} (get_value : JObject -> Res A) (obj : JObject) (key : bytes) : Res A :=
  '(v, _) ← index_ obj key; get_value v.
End json.

(** An instance to run the parser with: a double is kept as its decimal text. *)
Definition decimal_texts : DoubleText := {|
  double := bytes;
  strtod := fun s => take (count_while (fun b => is_digit b || bool_decide (b = z2b 46)) s) s;
  double_text := fun d => d
|}.
