(* ===== verification/JsonText.v ===== *)
(** * Printed JSON documents are read back

    A combinator-style specification of the parser of Json.v: [reads m t r a] says
    that [m], standing in front of the text [t] followed by [r], consumes exactly [t]
    and gives [a].  The parse functions are specified with it bottom up. *)

From S2P Require Import Prelude Json.

Section json.
Context `{DoubleText}.

(** ** Documents that can be read back *)

(** The contents of a string literal: every quote escaped, no escape left open.
    [esc]: an odd number of backslashes comes before. *)
Fixpoint str_ok (esc : bool) (s : bytes) : bool :=
  match s with
  | [] => negb esc
  | b :: s =>
      if decide (b = quote) then esc && str_ok false s
      else if decide (b = backslash) then str_ok (negb esc) s
      else str_ok false s
  end.

(** Keys in order, as a std::map has them. *)
Fixpoint keys_sorted {A} (m : list (bytes * A)) : bool :=
  match m with
  | (k, _) :: ((k', _) :: _) as m' => bytes_ltb k k' && keys_sorted m'
  | _ => true
  end.

(** No double, no negative number, string literals that are closed. *)
Fixpoint printable (j : JObject) : bool :=
  match j with
  | JNull | JBool _ => true
  | JInt z => bool_decide (0 <= z < 2 ^ 31)%Z
  | JDouble _ => false
  | JStr s => str_ok false s
  | JList l => forallb printable l
  | JDict m => keys_sorted m && forallb (fun '(k, v) => str_ok false k && printable v) m
  end.

(** The fuel an object takes. *)
Fixpoint need (j : JObject) : nat :=
  match j with
  | JList l => S (length l `max` foldr max 0 (map need l))
  | JDict m => S (length m `max` foldr max 0 (map (fun '(k, v) => need v) m))
  | _ => 1
  end.

(** Induction through lists and dicts. *)
Lemma JObject_nested_ind (P : JObject -> Prop) :
  P JNull -> (forall b, P (JBool b)) -> (forall z, P (JInt z)) -> (forall d, P (JDouble d)) ->
  (forall s, P (JStr s)) -> (forall l, Forall P l -> P (JList l)) ->
  (forall m, Forall (fun kv => P kv.2) m -> P (JDict m)) -> forall j, P j.
Proof.
  intros H1 H2 H3 H4 H5 H6 H7. fix IH 1. intros [|b|z|d|s|l|m];
    [exact H1|apply H2|apply H3|apply H4|apply H5| |].
  - apply H6. induction l as [|x l IHl]; constructor; [apply IH|exact IHl].
  - apply H7. induction m as [|[k v] m IHm]; constructor; [apply IH|exact IHm].
Qed.

(** ** The characters of the parser *)

Lemma forallb_true {A} (f : A -> bool) l : forallb f l = true <-> Forall (fun x => f x = true) l.
Proof. rewrite forallb_forall, Forall_forall. by setoid_rewrite list_elem_of_In. Qed.

Lemma count_while_app f a b rest : Forall (fun x => f x = true) a -> f b = false ->
  count_while f (a ++ b :: rest) = length a.
Proof.
  intros Ha Hb. induction Ha as [|x a Hx _ IH]; simpl; [by rewrite Hb|]. by rewrite Hx, IH.
Qed.

Lemma count_while_all f a : Forall (fun x => f x = true) a -> count_while f a = length a.
Proof. induction 1 as [|x a Hx _ IH]; simpl; [done|]. by rewrite Hx, IH. Qed.

Lemma char_at_app p b r i : char_at (length p) (mkParser (p ++ b :: r) i) = (Ret b, mkParser (p ++ b :: r) i).
Proof. unfold char_at. autorewrite with monad. simpl. by rewrite list_lookup_middle. Qed.

Lemma cur_app p b r : cur (mkParser (p ++ b :: r) (length p)) = (Ret b, mkParser (p ++ b :: r) (length p)).
Proof. unfold cur. autorewrite with monad. apply char_at_app. Qed.

Lemma looking_at_app p t r :
  looking_at t (mkParser (p ++ t ++ r) (length p)) = (Ret true, mkParser (p ++ t ++ r) (length p)).
Proof.
  unfold looking_at. autorewrite with monad. simpl. rewrite decide_True by (rewrite length_app; lia).
  rewrite drop_app_length, take_app_length. by rewrite bool_decide_true.
Qed.

Lemma looking_at_not p t r : take (length t) r ≠ t ->
  looking_at t (mkParser (p ++ r) (length p)) = (Ret false, mkParser (p ++ r) (length p)).
Proof.
  intros Ht. unfold looking_at. autorewrite with monad. simpl.
  rewrite decide_True by (rewrite length_app; lia). rewrite drop_app_length. by rewrite bool_decide_false.
Qed.

(** A token that is no blank and starts no comment. *)
Definition token_char (b : byte) : bool := negb (is_space b) && negb (bool_decide (b = z2b 47)).

Lemma GetNextToken_app p b r : token_char b = true ->
  GetNextToken (mkParser (p ++ b :: r) (length p)) = (Ret b, mkParser (p ++ b :: r) (length p)).
Proof.
  unfold token_char. rewrite andb_true_iff, !negb_true_iff, bool_decide_eq_false. intros [Hs Hc].
  unfold GetNextToken, skip_while. rewrite bind_assoc. autorewrite with monad. simpl.
  rewrite decide_True by (rewrite length_app; lia). rewrite drop_app_length. cbn [count_while].
  rewrite Hs. unfold advance. autorewrite with monad. simpl. rewrite Nat.add_0_r.
  rewrite decide_False by (rewrite length_app; simpl; lia).
  unfold SkipComment. rewrite bind_assoc.
  rewrite (bind_Ret _ _ _ _ _ (looking_at_not p (lit "//") (b :: r) ltac:(intros [= ? _]; done))).
  autorewrite with monad. apply cur_app.
Qed.

Lemma advance_app p t r n : n = length t ->
  advance n (mkParser (p ++ t ++ r) (length p)) = (Ret tt, mkParser ((p ++ t) ++ r) (length (p ++ t))).
Proof. intros ->. unfold advance, modify. simpl. by rewrite <-app_assoc, length_app. Qed.

(** ** Numbers *)

(** What may follow a number: neither a digit nor a point. *)
Definition ends (r : bytes) : bool :=
  match r with b :: _ => negb (is_digit b) && negb (bool_decide (b = z2b 46)) | [] => true end.

Lemma ends_char r : ends r = true ->
  is_digit (default NUL (head r)) = false /\ default NUL (head r) ≠ z2b 46.
Proof.
  destruct r as [|b r]; [by split|]. simpl. rewrite andb_true_iff, !negb_true_iff, bool_decide_eq_false. done.
Qed.

Lemma cur_ends p r :
  cur (mkParser (p ++ r) (length p)) = (Ret (default NUL (head r)), mkParser (p ++ r) (length p)).
Proof.
  destruct r as [|b r]; [|apply cur_app]. unfold cur, char_at. autorewrite with monad. simpl.
  rewrite app_nil_r, lookup_ge_None_2 by lia. by rewrite decide_True.
Qed.

Lemma count_while_digits ds r : Forall (fun b => is_digit b = true) ds -> ends r = true ->
  count_while is_digit (ds ++ r) = length ds.
Proof.
  intros Hd He. destruct r as [|b r]; [rewrite app_nil_r; by apply count_while_all|].
  apply count_while_app; [done|]. by destruct (ends_char (b :: r) He).
Qed.

Lemma ParseNumber_int z p r : (0 <= z < 2 ^ 31)%Z -> ends r = true ->
  ParseNumber (mkParser (p ++ to_string z ++ r) (length p))
  = (Ret (JInt z), mkParser (p ++ to_string z ++ r) (length p + length (to_string z))).
Proof.
  intros Hz He. destruct (to_string_spec z ltac:(lia)) as (Hd & Hl & Hr).
  unfold ParseNumber. autorewrite with monad. cbn [idx_ str_].
  destruct (ends_char r He) as [Hnd Hnp].
  assert (cur (mkParser (p ++ to_string z ++ r) (length p))
    = (Ret (default NUL (head (to_string z))), mkParser (p ++ to_string z ++ r) (length p))) as Hcur.
  { rewrite cur_ends. destruct (to_string z); [simpl in Hl; lia|done]. }
  mstep Hcur.
  assert (is_digit (default NUL (head (to_string z))) = true) as ->.
  { destruct (to_string z) as [|d ds]; [simpl in Hl; lia|]. by apply Forall_cons in Hd as [Hd _]. }
  unfold skip_while. rewrite bind_assoc. autorewrite with monad. cbn [idx_ str_].
  rewrite decide_True by (rewrite length_app; lia).
  rewrite drop_app_length, count_while_digits by done.
  rewrite (bind_Ret _ _ _ _ _ (advance_app p (to_string z) r _ eq_refl)).
  mstep (cur_ends (p ++ to_string z) r). rewrite decide_True by done.
  unfold strtol_int. pose proof (Hr 0%Z 0 r) as E. rewrite E.
  assert (forall a c, read_digits a c r = (a, c)) as Hnr.
  { intros a c. destruct r as [|b r']; [done|]. simpl in Hnd |- *. by rewrite Hnd. }
  rewrite Hnr. simpl fst. rewrite Z.mul_0_l, Z.add_0_l, Z.min_l, s32_small by lia.
  by rewrite <-app_assoc, length_app.
Qed.

(** ** Strings *)

Definition is_bs (b : byte) : bool := bool_decide (b = backslash).

(** How many backslashes a string ends with, and their parity along it. *)
Definition trailing (l : bytes) : nat := count_while is_bs (reverse l).
Definition parity (esc : bool) (u : bytes) : bool :=
  foldl (fun e b => if decide (b = backslash) then negb e else false) esc u.

Lemma trailing_snoc l b : trailing (l ++ [b]) = if is_bs b then S (trailing l) else 0.
Proof. unfold trailing. by rewrite reverse_app. Qed.

Lemma trailing_le p w : trailing (p ++ quote :: w) <= length w.
Proof.
  induction w as [|b w IH] using rev_ind; [by rewrite trailing_snoc|].
  rewrite app_comm_cons, app_assoc, trailing_snoc, length_app. simpl. destruct (is_bs b); lia.
Qed.

Lemma trailing_odd p w : Nat.odd (trailing (p ++ quote :: w)) = parity false w.
Proof.
  induction w as [|b w IH] using rev_ind; [by rewrite trailing_snoc|].
  rewrite app_comm_cons, app_assoc, trailing_snoc. unfold parity. rewrite foldl_snoc. fold (parity false w).
  unfold is_bs. destruct (decide (b = backslash)) as [->|Hb].
  - rewrite bool_decide_true by done. by rewrite Nat.odd_succ, <-Nat.negb_odd, IH.
  - by rewrite bool_decide_false.
Qed.

Lemma str_ok_app u : forall esc v, quote ∉ u -> str_ok esc (u ++ v) = str_ok (parity esc u) v.
Proof.
  induction u as [|b u IH]; intros esc v Hu; [done|].
  apply not_elem_of_cons in Hu as [Hb Hu]. simpl. rewrite decide_False by done.
  unfold parity. simpl. case_decide; rewrite IH by done; done.
Qed.

Lemma split_quote s : (quote ∉ s) \/ exists u v, s = u ++ quote :: v /\ quote ∉ u.
Proof.
  induction s as [|b s IH]; [left; set_solver|]. destruct (decide (b = quote)) as [->|Hb].
  - right. exists [], s. split; [done|set_solver].
  - destruct IH as [Hs|(u & v & -> & Hu)]; [left; set_solver|].
    right. exists (b :: u), v. split; [done|set_solver].
Qed.

Lemma find_quote l u v i : quote ∉ u ->
  find quote (length l) (mkParser (l ++ u ++ quote :: v) i)
  = (Ret (Some (length l + length u)), mkParser (l ++ u ++ quote :: v) i).
Proof.
  intros Hu. unfold find. autorewrite with monad. simpl. rewrite drop_app_length.
  rewrite count_while_app; [|apply Forall_forall; intros b Hb; rewrite bool_decide_false; set_solver
                            |by rewrite bool_decide_true].
  rewrite decide_True by (rewrite length_app; simpl; lia). done.
Qed.

(** One turn of the loop at the quote behind [w]. *)
Lemma close_quote_turn fuel p w v i :
  close_quote (S fuel) (length (p ++ quote :: w)) (mkParser ((p ++ quote :: w) ++ quote :: v) i)
  = if parity false w
    then (next ← find quote (S (length (p ++ quote :: w)));
          match next with
          | None => throw (LogicError (lit "expected left '" ++ [quote] ++ lit "' in parse string"))
          | Some pos => close_quote fuel pos
          end) (mkParser ((p ++ quote :: w) ++ quote :: v) i)
    else (Ret (length (p ++ quote :: w)), mkParser ((p ++ quote :: w) ++ quote :: v) i).
Proof.
  set (l := p ++ quote :: w). cbn [close_quote].
  destruct (exists_last (l := l)) as (l' & b & Hl); [by destruct p|].
  assert (length l - 1 = length l') as Hlen by (rewrite Hl, length_app; simpl; lia).
  rewrite Hlen.
  assert (char_at (length l') (mkParser (l ++ quote :: v) i) = (Ret b, mkParser (l ++ quote :: v) i)) as Hc
    by (rewrite Hl, <-app_assoc; apply char_at_app).
  mstep Hc.
  pose proof (trailing_odd p w) as Hodd. fold l in Hodd.
  pose proof (trailing_le p w) as Hle. fold l in Hle.
  assert (length w < length l) as Hw by (unfold l; rewrite length_app; simpl; lia).
  destruct (decide (b = backslash)) as [->|Hb].
  - rewrite decide_False by naive_solver. unfold IsEscConsume. rewrite bind_assoc.
    autorewrite with monad. cbn [str_].
    replace (take (S (length l')) (l ++ quote :: v)) with l
      by (rewrite take_app_le, take_ge by lia; done).
    change (count_while _ (reverse l)) with (trailing l). rewrite decide_True by lia.
    autorewrite with monad. rewrite <-Hodd, <-Nat.negb_odd. by destruct (Nat.odd (trailing l)).
  - rewrite decide_True by done. rewrite <-Hodd.
    replace (trailing l) with 0; [done|]. rewrite Hl, trailing_snoc. unfold is_bs. by rewrite bool_decide_false.
Qed.

Lemma parity_app esc u v : parity esc (u ++ v) = parity (parity esc u) v.
Proof. apply foldl_app. Qed.

Lemma close_quote_ok fuel : forall s2 w p r i, str_ok (parity false w) s2 = true -> length s2 < fuel ->
  let str := (p ++ quote :: w) ++ s2 ++ quote :: r in
  (next ← find quote (length (p ++ quote :: w));
   match next with
   | None => throw (LogicError (lit "expected left '" ++ [quote] ++ lit "' in parse string"))
   | Some pos => close_quote fuel pos
   end) (mkParser str i)
  = (Ret (length (p ++ quote :: w) + length s2), mkParser str i).
Proof.
  induction fuel as [|fuel IH]; intros s2 w p r i Hok Hlt str; [lia|].
  assert (forall u v, s2 ++ quote :: r = u ++ quote :: v -> str = (p ++ quote :: w ++ u) ++ quote :: v) as Hstr.
  { intros u v E. unfold str. rewrite E, <-!app_assoc. simpl. by rewrite <-app_assoc. }
  assert (forall u, length (p ++ quote :: w) + length u = length (p ++ quote :: w ++ u)) as Hlen
    by (intros u; rewrite !length_app; simpl; rewrite length_app; lia).
  destruct (split_quote s2) as [Hs|(u & v & -> & Hu)].
  - unfold str. mstep (find_quote (p ++ quote :: w) s2 r i Hs). rewrite Hlen.
    fold str. rewrite (Hstr s2 r eq_refl), close_quote_turn, parity_app.
    pose proof (str_ok_app s2 (parity false w) [] Hs) as E. rewrite app_nil_r, Hok in E. simpl in E.
    by destruct (parity _ s2).
  - rewrite str_ok_app in Hok by done. cbn [str_ok] in Hok. rewrite decide_True in Hok by done.
    apply andb_true_iff in Hok as [Hpar Hv]. rewrite length_app in Hlt. simpl in Hlt.
    assert (str = (p ++ quote :: w) ++ u ++ quote :: (v ++ quote :: r)) as Es
      by (unfold str; by rewrite <-!app_assoc).
    rewrite Es. mstep (find_quote (p ++ quote :: w) u (v ++ quote :: r) i Hu). rewrite Hlen, <-Es.
    rewrite (Hstr u (v ++ quote :: r)) by (by rewrite <-app_assoc).
    rewrite close_quote_turn, parity_app, Hpar.
    assert (S (length (p ++ quote :: w ++ u)) = length (p ++ quote :: (w ++ u ++ [quote]))) as ->.
    { rewrite !length_app. simpl. rewrite !length_app. simpl. lia. }
    assert ((p ++ quote :: w ++ u) ++ quote :: v ++ quote :: r
            = (p ++ quote :: (w ++ u ++ [quote])) ++ v ++ quote :: r) as ->
      by (rewrite <-!app_assoc; simpl; by rewrite <-!app_assoc).
    rewrite IH; [|by rewrite !parity_app|lia].
    f_equal. f_equal. rewrite !length_app. simpl. rewrite !length_app. simpl. lia.
Qed.

Lemma ParseString_ok p s r : str_ok false s = true ->
  ParseString (mkParser (p ++ quoted s ++ r) (length p))
  = (Ret (JStr s), mkParser (p ++ quoted s ++ r) (length p + length (quoted s))).
Proof.
  intros Hs. unfold ParseString, quoted.
  assert (p ++ ([quote] ++ s ++ [quote]) ++ r = (p ++ [quote]) ++ s ++ quote :: r) as Es
    by (by rewrite <-!app_assoc).
  set (str := p ++ ([quote] ++ s ++ [quote]) ++ r) in *.
  unfold advance. autorewrite with monad. cbn [idx_ str_].
  assert (length s < length str) as Hl by (rewrite Es, !length_app; simpl; lia).
  pose proof (close_quote_ok (length str) s [] p r (length p + 1) Hs Hl) as E.
  cbv zeta in E. change (p ++ [quote]) with (p ++ quote :: []) in Es. rewrite <-Es, length_app in E.
  simpl length in E. minv E.
  assert (s0 = mkParser str (length p + 1)) as -> by (unfold find in Hm; by inversion Hm).
  mstep Hm. destruct a as [pos|]; [|done]. mstep E. unfold set_idx. autorewrite with monad. cbn [str_].
  replace (length p + 1 + length s - (length p + 1)) with (length s) by lia.
  rewrite Es at 1. replace (length p + 1) with (length (p ++ [quote])) by (rewrite length_app; done).
  rewrite drop_app_length, take_app_length. unfold mret, M_ret. f_equal. f_equal.
  rewrite !length_app. simpl. lia.
Qed.

(** ** Reading a text *)

(** In front of [r], the text [t] is read and gives [a]. *)
Definition reads {A} (m : ParseM A) (t r : bytes) (a : A) : Prop := forall p,
  m (mkParser (p ++ t ++ r) (length p)) = (Ret a, mkParser ((p ++ t) ++ r) (length (p ++ t))).

Lemma reads_bind {A B} (m : ParseM A) (k : A -> ParseM B) t u r a b :
  reads m t (u ++ r) a -> reads (k a) u r b -> reads (x ← m; k x) (t ++ u) r b.
Proof.
  intros Hm Hk p. rewrite <-(app_assoc t). rewrite (bind_Ret _ _ _ _ _ (Hm p)).
  rewrite (Hk (p ++ t)). by rewrite <-!app_assoc.
Qed.

Lemma reads_ret {A} (a : A) r : reads (mret a) [] r a.
Proof. intros p. by rewrite app_nil_r. Qed.

Lemma reads_bind0 {A B} (m : ParseM A) (k : A -> ParseM B) u r a b :
  reads m [] (u ++ r) a -> reads (k a) u r b -> reads (x ← m; k x) u r b.
Proof. apply (reads_bind m k []). Qed.

Lemma reads_last {A B} (m : ParseM A) t r a (b : B) :
  reads m t r a -> reads (x ← m; mret b) t r b.
Proof.
  intros Hm. rewrite <-(app_nil_r t). eapply reads_bind; [by rewrite app_nil_l|apply reads_ret].
Qed.

Lemma reads_token b r : token_char b = true -> reads GetNextToken [] (b :: r) b.
Proof. intros Hb p. rewrite app_nil_r. by apply GetNextToken_app. Qed.

Lemma reads_advance t r n : n = length t -> reads (advance n) t r tt.
Proof. intros Hn p. by apply advance_app. Qed.

Lemma reads_looking_at t r : reads (looking_at t) [] (t ++ r) true.
Proof. intros p. rewrite app_nil_r, app_nil_l. apply looking_at_app. Qed.

Lemma reads_looking_not t r : take (length t) r ≠ t -> reads (looking_at t) [] r false.
Proof. intros Ht p. rewrite app_nil_r, app_nil_l. by apply looking_at_not. Qed.

Lemma reads_string s r : str_ok false s = true -> reads ParseString (quoted s) r (JStr s).
Proof. intros Hs p. rewrite ParseString_ok by done. by rewrite <-app_assoc, length_app. Qed.

Lemma reads_number z r : (0 <= z < 2 ^ 31)%Z -> ends r = true -> reads ParseNumber (to_string z) r (JInt z).
Proof. intros Hz Hr p. rewrite ParseNumber_int by done. by rewrite <-app_assoc, length_app. Qed.

(** ** Lists and dicts *)

Lemma keys_sorted_cons {A} k (v : A) m : keys_sorted ((k, v) :: m) = true ->
  Forall (fun kv => bytes_ltb k kv.1 = true) m /\ keys_sorted m = true.
Proof.
  revert k v. induction m as [|[k' v'] m IH]; intros k v Hs; [by split|].
  simpl in Hs. apply andb_true_iff in Hs as [Hlt Hs]. split; [|done].
  constructor; [done|]. eapply Forall_impl; [apply (IH k' v' Hs)|].
  intros kv Hkv. by eapply bytes_ltb_trans.
Qed.

Lemma map_set_last k v m acc : keys_sorted (acc ++ (k, v) :: m) = true ->
  map_set k v acc = acc ++ [(k, v)].
Proof.
  induction acc as [|[k' v'] acc IH]; [done|]. cbn [app]. intros [Hlt Hs]%keys_sorted_cons.
  cbn [map_set]. rewrite Forall_app, Forall_cons in Hlt. destruct Hlt as (_ & Hlt & _). simpl in Hlt.
  rewrite (@key_lt_asym _ _ bytes_KeyOrder k' k Hlt : bytes_ltb k k' = false), decide_False by (intros ->; by rewrite bytes_ltb_irrefl in Hlt).
  by rewrite IH.
Qed.

Section container_texts.
Context (parse : ParseM JObject).

(** Every item is read in front of what may follow it. *)
Definition item_read (x : JObject) : Prop := forall r, ends r = true -> reads parse (ToString x) r x.

Lemma reads_list_loop l : forall x k acc r, length l < k -> Forall item_read (x :: l) ->
  reads (list_loop parse k (JList acc)) (commas (map ToString (x :: l)) ++ lit "]") r
    (JList (acc ++ x :: l)).
Proof.
  induction l as [|y l IH]; intros x k acc r Hk [Hx Hl]%Forall_cons; (destruct k as [|k]; [lia|]);
    cbn [list_loop map commas].
  - eapply reads_bind; [by apply Hx|]. eapply reads_bind0; [apply reads_ret|].
    eapply reads_bind0; [by apply reads_token|]. rewrite decide_True by done.
    eapply reads_last. by apply reads_advance.
  - rewrite <-!app_assoc. eapply reads_bind; [by apply Hx|].
    eapply reads_bind0; [apply reads_ret|]. eapply reads_bind0; [by apply reads_token|].
    rewrite decide_False, decide_False by (first [done|by intros []]).
    eapply reads_bind; [by apply reads_advance|].
    assert (acc ++ x :: y :: l = (acc ++ [x]) ++ y :: l) as -> by (by rewrite <-app_assoc).
    apply (IH y); [simpl in Hk; lia|done].
Qed.

Lemma reads_dict_loop m : forall k v n acc r, length m < n ->
  keys_sorted (acc ++ (k, v) :: m) = true ->
  Forall (fun kv => item_read (JStr kv.1) /\ item_read kv.2) ((k, v) :: m) ->
  reads (dict_loop parse n (JDict acc)) (commas (map entry_text ((k, v) :: m)) ++ lit "}") r
    (JDict (acc ++ (k, v) :: m)).
Proof.
  induction m as [|[k' v'] m IH]; intros k v n acc r Hn Hs [[Hk Hv] Hm]%Forall_cons;
    (destruct n as [|n]; [lia|]); cbn [dict_loop map commas]; unfold entry_text at 1;
    rewrite <-!app_assoc; simpl in Hk, Hv;
    (eapply reads_bind; [by apply Hk|]); (eapply reads_bind0; [apply reads_ret|]);
    (eapply reads_bind0; [by apply reads_token|]); rewrite decide_False by (by intros []);
    (eapply reads_bind; [by apply reads_advance|]).
  - eapply reads_bind; [by apply Hv|]. unfold assign. rewrite (map_set_last k v []) by done.
    eapply reads_bind0; [apply reads_ret|].
    eapply reads_bind0; [by apply reads_token|]. rewrite decide_True by done.
    eapply reads_last. by apply reads_advance.
  - eapply reads_bind; [by apply Hv|]. unfold assign. rewrite (map_set_last k v ((k', v') :: m)) by done.
    eapply reads_bind0; [apply reads_ret|]. eapply reads_bind0; [by apply reads_token|].
    rewrite decide_False, decide_False by (first [done|by intros []]).
    eapply reads_bind; [by apply reads_advance|].
    assert (acc ++ (k, v) :: (k', v') :: m = (acc ++ [(k, v)]) ++ (k', v') :: m) as E by (by rewrite <-app_assoc).
    rewrite E in Hs |- *. apply (IH k' v'); [simpl in Hn; lia|done..].
Qed.
End container_texts.

Lemma reads_null r : reads ParseNull (lit "null") r JNull.
Proof.
  unfold ParseNull. eapply reads_bind0; [apply reads_looking_at|]. eapply reads_last. by apply reads_advance.
Qed.

Lemma reads_bool b r : reads ParseBool (ToString (JBool b)) r (JBool b).
Proof.
  unfold ParseBool. destruct b; (eapply reads_bind0; [|]).
  - apply reads_looking_at.
  - eapply reads_last. by apply reads_advance.
  - by apply reads_looking_not.
  - eapply reads_bind0; [apply reads_looking_at|]. eapply reads_last. by apply reads_advance.
Qed.

Lemma reads_list parse k l r : length l <= k -> Forall (item_read parse) l ->
  (forall x, x ∈ l -> exists b t, ToString x = b :: t /\ token_char b = true /\ b ≠ z2b 93) ->
  reads (ParseList parse k) (ToString (JList l)) r (JList l).
Proof.
  intros Hk Hl Ht. unfold ParseList. cbn [ToString]. eapply reads_bind; [by apply reads_advance|].
  destruct l as [|x l].
  - eapply reads_bind0; [by apply reads_token|]. rewrite decide_True by done.
    eapply reads_last. by apply reads_advance.
  - destruct (Ht x) as (b & t & Eb & Hb & Hne); [set_solver|].
    assert (exists t', (commas (map ToString (x :: l)) ++ lit "]") ++ r = b :: t') as [t' E].
    { simpl. rewrite Eb. destruct (map ToString l); by eexists. }
    eapply reads_bind0; [rewrite E; by apply reads_token|]. rewrite decide_False by done.
    apply (reads_list_loop parse l x k []); [simpl in Hk; lia|done].
Qed.

Lemma reads_dict parse k m r : length m <= k -> keys_sorted m = true ->
  Forall (fun kv => item_read parse (JStr kv.1) /\ item_read parse kv.2) m ->
  reads (ParseDict parse k) (ToString (JDict m)) r (JDict m).
Proof.
  intros Hk Hs Hm. unfold ParseDict. cbn [ToString]. eapply reads_bind; [by apply reads_advance|].
  destruct m as [|[key v] m].
  - eapply reads_bind0; [by apply reads_token|]. rewrite decide_True by done.
    eapply reads_last. by apply reads_advance.
  - assert (exists t', (commas (map entry_text ((key, v) :: m)) ++ lit "}") ++ r = quote :: t') as [t' E].
    { simpl. destruct (map entry_text m); by eexists. }
    eapply reads_bind0; [fold entry_text in E |- *; rewrite E; by apply reads_token|].
    rewrite decide_False by done. apply (reads_dict_loop parse m key v k []); [simpl in Hk; lia|done..].
Qed.

(** ** Printed documents are read back *)

Lemma digit_char b : is_digit b = true -> token_char b = true.
Proof. byte_cases b. Qed.

Lemma ToString_head j : printable j = true ->
  exists b t, ToString j = b :: t /\ token_char b = true /\ b ≠ z2b 93.
Proof.
  destruct j as [|[]|z|d|s|l|m]; cbn [printable]; try done; intros Hp; try (by repeat eexists).
  apply bool_decide_eq_true in Hp. destruct (to_string_spec z ltac:(lia)) as (Hd & Hl & _).
  cbn [ToString]. unfold int_text. rewrite decide_False by lia.
  destruct (to_string z) as [|b t]; [simpl in Hl; lia|]. apply Forall_cons in Hd as [Hd _].
  exists b, t. split_and!; [done|by apply digit_char|]. intros ->. done.
Qed.

Lemma commas_length (l : list bytes) : Forall (fun x => x ≠ []) l ->
  length l <= length (commas l) /\ Forall (fun x => length x <= length (commas l)) l.
Proof.
  induction 1 as [|x l Hx _ [IH1 IH2]]; [by split|]. assert (0 < length x) by (destruct x; simpl; [done|lia]).
  destruct l as [|y l]; [cbn [commas]; split; [simpl; lia|]; by repeat constructor|].
  change (commas (x :: y :: l)) with (x ++ lit "," ++ commas (y :: l)).
  rewrite !length_app. change (length (lit ",")) with 1. split; [cbn [length] in *; lia|].
  constructor; [lia|]. eapply Forall_impl; [exact IH2|]. intros u Hu. cbn beta in Hu. lia.
Qed.

Lemma foldr_max_le (l : list nat) n : Forall (fun x => x <= n) l -> foldr max 0 l <= n.
Proof. induction 1; simpl; lia. Qed.

Lemma ToString_nil j : printable j = true -> ToString j ≠ [].
Proof. intros (b & t & -> & _)%ToString_head. done. Qed.

(** A document takes no more fuel than its text is long. *)
Lemma need_le j : printable j = true -> need j <= length (ToString j).
Proof.
  induction j as [|b|z|d|s|l IH|m IH] using JObject_nested_ind; intros Hp;
    try (apply ToString_nil in Hp; cbn [need]; destruct (ToString _); simpl; [done|lia]).
  - cbn [printable] in Hp. apply forallb_true in Hp.
    assert (Forall (fun x => x ≠ []) (map ToString l)) as Hne.
    { apply Forall_fmap. eapply Forall_impl; [exact Hp|]. intros x Hx. by apply ToString_nil. }
    destruct (commas_length _ Hne) as [H1 H2]. cbn [need ToString]. rewrite !length_app, length_map in *.
    change (length (lit "[")) with 1. change (length (lit "]")) with 1.
    assert (foldr max 0 (map need l) <= length (commas (map ToString l))) as H3; [|lia].
    apply foldr_max_le, Forall_fmap, Forall_forall. intros x Hx. rewrite Forall_forall in IH, Hp.
    rewrite Forall_forall in H2. unfold compose. etrans; [apply IH; [done|by apply Hp]|].
    apply H2. by apply list_elem_of_fmap_2.
  - cbn [printable] in Hp. apply andb_true_iff in Hp as [_ Hp]. apply forallb_true in Hp.
    assert (Forall (fun x => x ≠ []) (map entry_text m)) as Hne
      by (apply Forall_fmap, Forall_forall; by intros [k v] _).
    destruct (commas_length _ Hne) as [H1 H2]. cbn [need ToString]. fold entry_text.
    rewrite !length_app, length_map in *.
    change (length (lit "{")) with 1. change (length (lit "}")) with 1.
    assert (foldr max 0 (map (fun '(k, v) => need v) m) <= length (commas (map entry_text m))) as H3; [|lia].
    apply foldr_max_le, Forall_fmap, Forall_forall. intros [k v] Hx. rewrite Forall_forall in IH, Hp.
    rewrite Forall_forall in H2. simpl.
    specialize (Hp _ Hx). apply andb_true_iff in Hp as [_ Hv].
    pose proof (IH _ Hx Hv) as IHv. simpl in IHv.
    pose proof (H2 _ (list_elem_of_fmap_2 entry_text _ _ Hx)) as Hl. unfold entry_text in Hl at 1.
    rewrite !length_app in Hl. simpl in Hl. lia.
Qed.

Lemma foldr_max_elem (l : list nat) x n : x ∈ l -> foldr max 0 l <= n -> x <= n.
Proof.
  induction l as [|y l IH]; simpl; [by intros ?%not_elem_of_nil|].
  intros [->|Hx]%elem_of_cons Hn; [lia|]. apply IH; [done|lia].
Qed.

(** The head of a text chooses the function that reads it. *)
Ltac dispatch :=
  cbn [Parse]; (eapply reads_bind0; [by apply reads_token|]);
  repeat first [rewrite decide_False by (by vm_compute; intuition congruence)
               |rewrite decide_True by (by vm_compute; intuition congruence)].

Lemma reads_Parse j : forall fuel r, printable j = true -> need j <= fuel -> ends r = true ->
  reads (Parse fuel) (ToString j) r j.
Proof.
  induction j as [|b|z|d|s|l IH|m IH] using JObject_nested_ind; intros fuel r Hp Hf Hr;
    (destruct fuel as [|fuel]; [cbn [need] in Hf; lia|]); cbn [printable] in Hp.
  - dispatch. apply reads_null.
  - destruct b; dispatch; apply (reads_bool _ r).
  - apply bool_decide_eq_true in Hp. cbn [ToString]. unfold int_text. rewrite decide_False by lia.
    destruct (to_string_spec z ltac:(lia)) as (Hd & Hl & _).
    destruct (to_string z) as [|b t] eqn:E; [simpl in Hl; lia|]. apply Forall_cons in Hd as [Hd _].
    cbn [Parse]. eapply reads_bind0; [by apply reads_token, digit_char|].
    rewrite decide_False by (by intros ->). rewrite decide_False by (by intros [->| ->]).
    rewrite decide_True by (by right). rewrite <-E. by apply reads_number.
  - done.
  - dispatch. by apply reads_string.
  - dispatch. apply forallb_true in Hp. cbn [need] in Hf. rewrite Forall_forall in Hp, IH.
    apply reads_list; [lia| |intros x Hx; by apply ToString_head, Hp].
    apply Forall_forall. intros x Hx r' Hr'. apply IH; [done|by apply Hp| |done].
    eapply (foldr_max_elem (map need l)); [by apply list_elem_of_fmap_2|lia].
  - dispatch. apply andb_true_iff in Hp as [Hs Hp]. apply forallb_true in Hp. cbn [need] in Hf.
    rewrite Forall_forall in Hp, IH. apply reads_dict; [lia|done|].
    apply Forall_forall. intros [k v] Hx. specialize (Hp _ Hx). apply andb_true_iff in Hp as [Hk Hv].
    assert (0 < length m) by (destruct m; [by apply not_elem_of_nil in Hx|simpl; lia]).
    split; intros r' Hr'.
    + destruct fuel as [|fuel]; [lia|]. cbn [fst ToString]. unfold quoted. dispatch. by apply reads_string.
    + apply (IH _ Hx); [done| |done].
      eapply (foldr_max_elem (map (fun '(k, v) => need v) m));
        [by apply (list_elem_of_fmap_2 (fun '(k, v) => need v) _ _ Hx)|lia].
Qed.

Lemma TrimRight_snoc t b : is_space b = false -> TrimRight (t ++ [b]) = t ++ [b].
Proof.
  intros Hb. unfold TrimRight. rewrite reverse_app. simpl. rewrite Hb. apply take_ge. lia.
Qed.

Lemma digit_no_space b : is_digit b = true -> is_space b = false.
Proof. byte_cases b. Qed.

Lemma TrimRight_printed j : printable j = true -> TrimRight (ToString j) = ToString j.
Proof.
  destruct j as [|[]|z|d|s|l|m]; cbn [printable ToString]; try done; intros Hp.
  - apply bool_decide_eq_true in Hp. unfold int_text. rewrite decide_False by lia.
    destruct (to_string_spec z ltac:(lia)) as (Hd & Hl & _).
    destruct (exists_last (l := to_string z)) as (t & b & E); [intros E; rewrite E in Hl; simpl in Hl; lia|].
    rewrite E in *. apply TrimRight_snoc, digit_no_space.
    apply Forall_app in Hd as [_ Hd]. by apply Forall_cons in Hd as [Hd _].
  - unfold quoted. rewrite app_assoc. by apply TrimRight_snoc.
  - rewrite app_assoc. by apply TrimRight_snoc.
  - rewrite app_assoc. by apply TrimRight_snoc.
Qed.

(** A negative number is printed, but its text is refused. *)
Lemma negative_not_read z : (- 2 ^ 31 <= z < 0)%Z ->
  FromString (ToString (JInt z)) = Throw (LogicError (lit "invalid character in number")).
Proof.
  intros Hz. cbn [ToString]. unfold int_text. rewrite decide_True by lia.
  destruct (to_string_spec (- z) ltac:(lia)) as (Hd & Hl & _).
  destruct (exists_last (l := to_string (- z))) as (t & b & E); [intros E; rewrite E in Hl; simpl in Hl; lia|].
  assert (is_digit b = true) as Hb.
  { rewrite E in Hd. apply Forall_app in Hd as [_ Hd]. by apply Forall_cons in Hd as [Hd _]. }
  unfold FromString, Init. rewrite E, app_assoc, TrimRight_snoc by by apply digit_no_space.
  rewrite <-app_assoc, <-E. cbn [str_ Parse].
  pose proof (GetNextToken_app [] (z2b 45) (to_string (- z)) eq_refl) as Hg. cbn [app length] in Hg.
  change (lit "-") with [z2b 45]. cbn [app]. rewrite (bind_Ret _ _ _ _ _ Hg).
  rewrite decide_False, decide_False, decide_True by (by vm_compute; intuition congruence).
  unfold ParseNumber. autorewrite with monad.
  pose proof (cur_app [] (z2b 45) (to_string (- z))) as Hc. cbn [app length] in Hc. mstep Hc. done.
Qed.

(** C22: a document without doubles and negative numbers whose strings are closed
    literals (every quote in them escaped, no escape left open) is read back from
    its printed text: FromString of ToString gives the document. *)
Theorem json_roundtrip j : printable j = true -> FromString (ToString j) = Ret j.
Proof.
  intros Hp. unfold FromString, Init. cbn [str_]. rewrite TrimRight_printed by done.
  pose proof (reads_Parse j (S (length (ToString j))) [] Hp) as Hr.
  pose proof (need_le j Hp). specialize (Hr ltac:(lia) eq_refl []).
  rewrite app_nil_r in Hr. cbn [app length] in Hr. by rewrite Hr.
Qed.
End json.

Module Examples.
Local Existing Instance decimal_texts.

Definition doc : JObject :=
  JDict [(lit "id", JInt 42);
         (lit "tags", JList [JStr (lit "a\" ++ [quote] ++ lit "b"); JBool true; JList []; JNull])].

(** A text with double quotes in the place of its single ones. *)
Definition dq (s : string) : bytes := map (fun b => if decide (b = z2b 39) then quote else b) (lit s).

(** The text with blanks, a comment and another order of the keys gives the same
    document. *)
Example read_doc :
  FromString (dq " { 'tags' : ['a\'b', true ,[ ], null], // c" ++ [z2b 10] ++ dq "  'id': 42 } ") = Ret doc.
Proof. vm_compute. reflexivity. Qed.

(** Quotes inside a string are not escaped when it is printed: what comes back is
    another string. *)
Example quote_not_escaped :
  FromString (ToString (JStr (lit "say " ++ [quote] ++ lit "hi" ++ [quote]))) = Ret (JStr (lit "say ")).
Proof. vm_compute. reflexivity. Qed.

(** Text behind the document is not looked at. *)
Example trailing_text : FromString (lit "null garbage") = Ret JNull.
Proof. vm_compute. reflexivity. Qed.

(** A struct with a member of another struct type, written and read with the macros. *)
Record Point := mkPoint { px : Z; py : Z }.
Record Named := mkNamed { label : bytes; point : Point }.
Definition point_to (p : Point) (obj : JObject) : Res JObject :=
  obj ← assign obj (lit "x") (JInt (px p)); assign obj (lit "y") (JInt (py p)).
Definition named_to (n : Named) (obj : JObject) : Res JObject :=
  obj ← assign obj (lit "label") (JStr (label n)); to_struct point_to obj (lit "point") (point n).
Definition point_from (obj : JObject) : Res Point :=
  x ← from Value_int obj (lit "x"); y ← from Value_int obj (lit "y"); inr (mkPoint x y).
Definition named_from (obj : JObject) : Res Named :=
  s ← from Value_str obj (lit "label"); p ← from point_from obj (lit "point"); inr (mkNamed s p).

Example named_point_roundtrip :
  let n := mkNamed (lit "p") (mkPoint 3 4) in
  ToJSON named_to n = inr (dq "{'label':'p','point':{'x':3,'y':4}}")
  /\ FromJson named_from (dq "{'label':'p','point':{'x':3,'y':4}}") = Ret n
  /\ FromJson named_from (dq "{'point':{'x':3,'y':4}}")
     = Throw (LogicError (lit "type error in get string value!")).
Proof. vm_compute. split_and!; reflexivity. Qed.

Lemma json_roundtrip_witness :
  ToString doc = dq "{'id':42,'tags':['a\'b',true,[],null]}"
  /\ FromString (ToString doc) = Ret doc.
Proof. split; [reflexivity|]. apply (json_roundtrip doc). reflexivity. Defined.
End Examples.
