(* ===== verification/JsonTotal.v ===== *)
(** * The JSON parser always answers

    On a text whose comments all end, the parser neither reads outside its string
    nor runs for ever: it gives a document or a std::logic_error. *)

From S2P Require Import Prelude Json JsonText.

(** Every comment of the text has a newline behind it. *)
Fixpoint comments_end (s : bytes) : bool :=
  match s with
  | [] => true
  | b :: s' =>
      (bool_decide (take 2 s ≠ lit "//") || bool_decide (z2b 10 ∈ s)) && comments_end s'
  end.

Section json.
Context `{DoubleText}.

(** From position [i] of [s]: an answer that satisfies [Q] at the position it leaves,
    or a logic_error. *)
Definition safe {A} (s : bytes) (m : ParseM A) (i : nat) (Q : A -> nat -> Prop) : Prop :=
  match m (mkParser s i) with
  | (Ret a, p) => str_ p = s /\ Q a (idx_ p)
  | (Throw (LogicError _), _) => True
  | _ => False
  end.

Context (s : bytes).

Lemma safe_bind {A B} (m : ParseM A) (k : A -> ParseM B) i Q R :
  safe s m i Q -> (forall a j, Q a j -> safe s (k a) j R) -> safe s (x ← m; k x) i R.
Proof.
  unfold safe, mbind, M_bind. intros Hm Hk. destruct (m (mkParser s i)) as [[a|[]|u] [s' j]]; try done.
  simpl in Hm. destruct Hm as [-> Ha]. by apply Hk.
Qed.

Lemma safe_impl {A} (m : ParseM A) i (Q R : A -> nat -> Prop) :
  safe s m i Q -> (forall a j, Q a j -> R a j) -> safe s m i R.
Proof. unfold safe. destruct (m (mkParser s i)) as [[a|[]|u] [s' j]]; naive_solver. Qed.

Lemma safe_get {B} (k : Parser -> ParseM B) i R : safe s (k (mkParser s i)) i R -> safe s (p ← get; k p) i R.
Proof. done. Qed.

Lemma safe_ret {A} (a : A) i (Q : A -> nat -> Prop) : Q a i -> safe s (mret a) i Q.
Proof. by split. Qed.

Lemma safe_error {A} (e : string) i (Q : A -> nat -> Prop) : safe s (logic_error e) i Q.
Proof. done. Qed.

Lemma safe_advance n i (Q : unit -> nat -> Prop) : Q tt (i + n) -> safe s (advance n) i Q.
Proof. by split. Qed.

Lemma safe_set_idx n i (Q : unit -> nat -> Prop) : Q tt n -> safe s (set_idx n) i Q.
Proof. by split. Qed.

Lemma count_while_le f l : count_while f l <= length l.
Proof. induction l as [|b l IH]; simpl; [lia|]. destruct (f b); lia. Qed.

Lemma safe_skip_while f i : i <= length s ->
  safe s (skip_while f) i (fun _ j => i <= j <= length s /\ (forall b, s !! i = Some b -> f b = true -> i < j)).
Proof.
  intros Hi. unfold skip_while. apply safe_get. simpl. rewrite decide_True by done. apply safe_advance.
  pose proof (count_while_le f (drop i s)) as Hc. rewrite length_drop in Hc. split; [lia|].
  intros b Hb Hf. rewrite (drop_S _ _ _ Hb). simpl. rewrite Hf. lia.
Qed.

(** A character read is one of the string, unless it is the NUL at the end. *)
Definition char_of (i : nat) (b : byte) : Prop := b ≠ NUL -> s !! i = Some b.

Lemma safe_char_at n i : n <= length s -> safe s (char_at n) i (fun b j => j = i /\ char_of n b).
Proof.
  intros Hn. unfold char_at. apply safe_get. simpl. destruct (s !! n) as [b|] eqn:E.
  - apply safe_ret. by split; [|intros _].
  - apply lookup_ge_None in E. rewrite decide_True by lia. apply safe_ret. by split; [|intros []].
Qed.

Lemma safe_cur i : i <= length s -> safe s cur i (fun b j => j = i /\ char_of i b).
Proof. intros Hi. unfold cur. apply safe_get. by apply safe_char_at. Qed.

Lemma char_of_lt i b : char_of i b -> b ≠ NUL -> i < length s.
Proof. intros Hc Hb. eapply lookup_lt_Some, Hc, Hb. Qed.

Lemma safe_looking_at t i : i <= length s ->
  safe s (looking_at t) i (fun b j => j = i /\ (b = true -> take (length t) (drop i s) = t)).
Proof.
  intros Hi. unfold looking_at. apply safe_get. simpl. rewrite decide_True by done.
  apply safe_ret. split; [done|]. by rewrite bool_decide_eq_true.
Qed.

Lemma taken_length (t : bytes) i : i <= length s -> take (length t) (drop i s) = t -> i + length t <= length s.
Proof. intros Hi E. apply (f_equal length) in E. rewrite length_take, length_drop in E. lia. Qed.

Lemma count_while_found f l : count_while f l < length l ->
  exists b, l !! count_while f l = Some b /\ f b = false.
Proof.
  induction l as [|b l IH]; simpl; [lia|]. destruct (f b) eqn:E; [|by eexists].
  intros Hl. apply IH. lia.
Qed.

Lemma count_while_none f l : length l <= count_while f l -> Forall (fun b => f b = true) l.
Proof.
  induction l as [|b l IH]; simpl; [done|]. destruct (f b) eqn:E; [|lia].
  intros Hl. constructor; [done|]. apply IH. lia.
Qed.

Lemma safe_find c from i : safe s (find c from) i (fun o j => j = i /\
  match o with Some n => from <= n /\ s !! n = Some c | None => c ∉ drop from s end).
Proof.
  unfold find. apply safe_get. simpl. apply safe_ret. split; [done|].
  set (f := fun b : byte => negb (bool_decide (b = c))). case_decide as Hl.
  - destruct (count_while_found f _ Hl) as (b & Hb & Hf). rewrite lookup_drop in Hb.
    apply negb_false_iff, bool_decide_eq_true in Hf as ->. split; [lia|done].
  - intros Hin. pose proof (count_while_none f (drop from s) ltac:(lia)) as Hall.
    rewrite Forall_forall in Hall. specialize (Hall _ Hin). unfold f in Hall.
    by rewrite bool_decide_true in Hall.
Qed.

(** Passing a character that was looked at. *)
Lemma safe_pass {A} (k : ParseM A) j b R : char_of j b -> b ≠ NUL ->
  (j < length s -> safe s k (j + 1) R) -> safe s (advance 1;; k) j R.
Proof.
  intros Hc Hb Hk. eapply safe_bind; [by apply (safe_advance _ _ (fun _ i => i = j + 1))|].
  intros _ i ->. by eapply Hk, char_of_lt.
Qed.

(** ** Comments *)

Lemma comments_end_drop i : comments_end s = true -> take 2 (drop i s) = lit "//" -> z2b 10 ∈ drop i s.
Proof.
  revert s. induction i as [|i IH]; intros [|b l]; simpl; try done.
  - rewrite andb_true_iff, orb_true_iff, !bool_decide_eq_true. naive_solver.
  - rewrite andb_true_iff. intros [_ Hl]. by apply IH.
Qed.

Hypothesis Hends : comments_end s = true.

Lemma safe_comment_loop fuel : forall i, length s - i < fuel -> i <= length s ->
  take 2 (drop i s) = lit "//" -> safe s (comment_loop fuel) i (fun _ j => i <= j <= length s).
Proof.
  induction fuel as [|fuel IH]; intros i Hf Hi Hc; [lia|]. cbn [comment_loop]. apply safe_get.
  eapply safe_bind; [apply safe_find|]. intros o j [-> Ho]. simpl in Ho.
  destruct o as [n|]; [|by apply comments_end_drop in Hc]. destruct Ho as [Hn Hl].
  apply lookup_lt_Some in Hl. eapply safe_bind; [by apply (safe_set_idx _ _ (fun _ j => j = S n))|].
  intros _ j ->. eapply safe_bind; [apply safe_skip_while; lia|]. intros _ j [Hj _].
  eapply safe_bind; [apply safe_looking_at; lia|]. intros more j' [-> Hm]. destruct more.
  - eapply safe_impl; [apply IH; [lia..|by apply Hm]|]. simpl. lia.
  - apply safe_ret. lia.
Qed.

Lemma safe_GetNextToken i : i <= length s ->
  safe s GetNextToken i (fun b j => i <= j <= length s /\ char_of j b).
Proof.
  intros Hi. unfold GetNextToken. eapply safe_bind; [by apply safe_skip_while|]. intros _ j [Hj _].
  apply safe_get. simpl. case_decide; [apply safe_error|].
  eapply (safe_bind _ _ _ (fun _ j' => j <= j' <= length s)).
  - unfold SkipComment. eapply safe_bind; [apply safe_looking_at; lia|]. intros c j' [-> Hc].
    destruct c; [|apply safe_ret; lia].
    apply safe_comment_loop; [unfold comment_fuel; simpl; lia|lia|by apply Hc].
  - intros _ j' Hj'. eapply safe_impl; [apply safe_cur; lia|]. intros b j'' [-> Hb]. split; [lia|done].
Qed.

(** ** Values *)

(** A value takes at least one byte. *)
Definition value_ok {A} (i : nat) (m : ParseM A) : Prop := safe s m i (fun _ j => i < j <= length s).

Lemma safe_word (t : bytes) (v : JObject) (k : ParseM JObject) i : i <= length s -> 0 < length t -> value_ok i k ->
  value_ok i (b ← looking_at t; if b : bool then advance (length t);; mret v else k).
Proof.
  intros Hi Ht Hk. eapply safe_bind; [by apply safe_looking_at|]. intros [] j [-> Hb]; [|done].
  pose proof (taken_length t i Hi (Hb eq_refl)).
  eapply safe_bind; [by apply (safe_advance _ _ (fun _ j => j = i + length t))|].
  intros _ j ->. apply safe_ret. lia.
Qed.

Lemma safe_ParseNull i : i <= length s -> value_ok i ParseNull.
Proof. intros Hi. apply (safe_word (lit "null")); [done|simpl; lia|apply safe_error]. Qed.

Lemma safe_ParseBool i : i <= length s -> value_ok i ParseBool.
Proof.
  intros Hi. apply (safe_word (lit "true")); [done|simpl; lia|].
  apply (safe_word (lit "false")); [done|simpl; lia|apply safe_error].
Qed.

Lemma digit_not_nul b : is_digit b = true -> b ≠ NUL.
Proof. by intros Hd ->. Qed.

Lemma safe_digits i c : char_of i c -> is_digit c = true ->
  safe s (skip_while is_digit) i (fun _ j => i < j <= length s).
Proof.
  intros Hc Hd. pose proof (char_of_lt i c Hc (digit_not_nul c Hd)).
  eapply safe_impl; [apply safe_skip_while; lia|]. intros _ j [Hj Hlt]. split; [|lia].
  apply (Hlt c); [apply Hc, digit_not_nul, Hd|done].
Qed.

Lemma safe_ParseNumber i : i <= length s -> value_ok i ParseNumber.
Proof.
  intros Hi. unfold ParseNumber. apply safe_get. simpl.
  eapply safe_bind; [by apply safe_cur|]. intros c j [-> Hc].
  eapply (safe_bind _ _ _ (fun _ j => i < j <= length s)).
  { destruct (is_digit c) eqn:Ed; [by eapply safe_digits|apply safe_error]. }
  intros _ j Hj. eapply safe_bind; [apply safe_cur; lia|]. intros c' j' [-> Hc'].
  case_decide as Hp; [apply safe_ret; lia|]. subst c'.
  apply (safe_pass _ _ _ _ Hc' ltac:(done)). intros ?.
  eapply safe_bind; [apply safe_cur; lia|]. intros c'' k [-> Hc''].
  destruct (is_digit c'') eqn:Ed; [|apply safe_error].
  eapply safe_bind; [by eapply safe_digits|]. intros ? k Hk. apply safe_ret. simpl in Hk. lia.
Qed.

(** ** Strings *)

Lemma count_while_stop f a b c : f b = false -> count_while f (a ++ b :: c) <= length a.
Proof. intros Hb. induction a as [|x a IH]; simpl; [by rewrite Hb|]. destruct (f x); lia. Qed.

Lemma trailing_before f q i b : s !! i = Some b -> f b = false -> i <= q < length s ->
  count_while f (reverse (take (S q) s)) <= q - i.
Proof.
  intros Hb Hf Hq. rewrite <-(take_drop_middle (take (S q) s) i b) by (rewrite lookup_take_lt by lia; done).
  rewrite reverse_app, reverse_cons, <-app_assoc. simpl.
  etrans; [by apply count_while_stop|]. rewrite length_reverse, length_drop, length_take. lia.
Qed.

Lemma safe_close_quote i fuel : s !! i = Some quote -> forall pos j, length s - pos < fuel ->
  i < pos -> s !! pos = Some quote ->
  safe s (close_quote fuel pos) j (fun n k => k = j /\ i < n < length s).
Proof.
  intros Hi. induction fuel as [|fuel IH]; intros pos j Hf Hpos Hq; [lia|]. cbn [close_quote].
  pose proof (lookup_lt_Some _ _ _ Hq). eapply safe_bind; [apply safe_char_at; lia|].
  intros c k [-> _]. case_decide; [apply safe_ret; lia|].
  eapply (safe_bind _ _ _ (fun _ k => k = j)).
  { unfold IsEscConsume. apply safe_get. simpl.
    pose proof (trailing_before (fun b => bool_decide (b = backslash)) (pos - 1) i quote Hi eq_refl).
    rewrite decide_True by lia. by apply safe_ret. }
  intros [] k ->; [apply safe_ret; lia|]. eapply safe_bind; [apply safe_find|].
  intros [n|] k [-> Hn]; [|done]. destruct Hn as [Hn Hl]. apply IH; [lia..|done].
Qed.

Lemma safe_ParseString i : s !! i = Some quote -> value_ok i ParseString.
Proof.
  intros Hi. unfold ParseString.
  eapply safe_bind; [by apply (safe_advance _ _ (fun _ k => k = i + 1))|]. intros _ j ->.
  apply safe_get. simpl. eapply safe_bind; [apply safe_find|].
  intros [pos|] j [-> Hp]; [|apply safe_error]. destruct Hp as [Hpos Hq].
  pose proof (lookup_lt_Some _ _ _ Hq).
  eapply safe_bind; [apply (safe_close_quote i); [done|lia|lia|done]|]. intros n j [-> Hn].
  eapply safe_bind; [by apply (safe_set_idx _ _ (fun _ k => k = S n))|].
  intros _ j ->. apply safe_ret. lia.
Qed.

(** ** Lists, dicts and documents *)

Section containers.
Context (parse : ParseM JObject) (lo : nat).
Hypothesis Hparse : forall i, lo < i <= length s -> value_ok i parse.

Lemma safe_list_loop k : forall l i, length s - i < k -> lo < i <= length s ->
  value_ok i (list_loop parse k (JList l)).
Proof.
  induction k as [|k IH]; intros l i Hk Hi; [lia|]. cbn [list_loop].
  eapply safe_bind; [by apply Hparse|]. intros x j Hj. simpl in Hj.
  eapply (safe_bind _ _ _ (fun a k => a = JList (l ++ [x]) /\ k = j)); [by apply safe_ret|].
  intros arr j' [-> ->]. eapply safe_bind; [apply safe_GetNextToken; lia|]. intros ch j' [Hj' Hc].
  case_decide as E.
  - subst ch. apply (safe_pass _ _ _ _ Hc ltac:(done)). intros ?.
    apply safe_ret. lia.
  - case_decide as E'; [apply safe_error|]. subst ch. apply (safe_pass _ _ _ _ Hc ltac:(done)). intros ?.
    eapply safe_impl; [apply IH; lia|]. simpl. lia.
Qed.

Lemma safe_dict_loop k : forall m i, length s - i < k -> lo < i <= length s ->
  value_ok i (dict_loop parse k (JDict m)).
Proof.
  induction k as [|k IH]; intros m i Hk Hi; [lia|]. cbn [dict_loop].
  eapply safe_bind; [by apply Hparse|]. intros x j Hj. simpl in Hj.
  eapply (safe_bind _ _ _ (fun _ k => k = j)).
  { destruct x; simpl; first [by apply safe_ret|done]. }
  intros key j0 ->. eapply safe_bind; [apply safe_GetNextToken; lia|]. intros ch j' [Hj' Hc].
  case_decide as E; [apply safe_error|]. subst ch. apply (safe_pass _ _ _ _ Hc ltac:(done)). intros ?.
  eapply safe_bind; [apply Hparse; lia|]. intros v j2 Hj2. simpl in Hj2.
  eapply (safe_bind _ _ _ (fun a k => a = JDict (map_set key v m) /\ k = j2)); [by apply safe_ret|].
  intros d j3 [-> ->]. eapply safe_bind; [apply safe_GetNextToken; lia|]. intros ch j3 [Hj3 Hc3].
  case_decide as E.
  - subst ch. apply (safe_pass _ _ _ _ Hc3 ltac:(done)). intros ?.
    apply safe_ret. lia.
  - case_decide as E'; [apply safe_error|]. subst ch. apply (safe_pass _ _ _ _ Hc3 ltac:(done)). intros ?.
    eapply safe_impl; [apply IH; lia|]. simpl. lia.
Qed.
End containers.

Lemma safe_ParseList parse k i : length s - i <= k -> s !! i = Some (z2b 91) ->
  (forall j, i < j <= length s -> value_ok j parse) -> value_ok i (ParseList parse k).
Proof.
  intros Hk Hi Hp. pose proof (lookup_lt_Some _ _ _ Hi). unfold ParseList.
  apply (safe_pass _ _ (z2b 91)); [by intros _|done|]. intros _.
  eapply safe_bind; [apply safe_GetNextToken; lia|]. intros ch j [Hj Hc]. case_decide.
  - subst ch. apply (safe_pass _ _ _ _ Hc ltac:(done)). intros ?. apply safe_ret. lia.
  - eapply safe_impl; [by apply (safe_list_loop _ i); [|lia|lia]|]. simpl. lia.
Qed.

Lemma safe_ParseDict parse k i : length s - i <= k -> s !! i = Some (z2b 123) ->
  (forall j, i < j <= length s -> value_ok j parse) -> value_ok i (ParseDict parse k).
Proof.
  intros Hk Hi Hp. pose proof (lookup_lt_Some _ _ _ Hi). unfold ParseDict.
  apply (safe_pass _ _ (z2b 123)); [by intros _|done|]. intros _.
  eapply safe_bind; [apply safe_GetNextToken; lia|]. intros ch j [Hj Hc]. case_decide.
  - subst ch. apply (safe_pass _ _ _ _ Hc ltac:(done)). intros ?. apply safe_ret. lia.
  - eapply safe_impl; [by apply (safe_dict_loop _ i); [|lia|lia]|]. simpl. lia.
Qed.

Lemma safe_Parse fuel : forall i, length s - i < fuel -> i <= length s -> value_ok i (Parse fuel).
Proof.
  induction fuel as [|fuel IH]; intros i Hf Hi; [lia|]. cbn [Parse].
  eapply safe_bind; [by apply safe_GetNextToken|]. intros b j [Hj Hb].
  eapply (safe_impl _ _ (fun _ k => j < k <= length s)); [|simpl; lia].
  repeat case_decide; subst.
  - apply safe_ParseNull. lia.
  - apply safe_ParseBool. lia.
  - apply safe_ParseNumber. lia.
  - apply safe_ParseString. by apply Hb.
  - apply safe_ParseList; [lia|by apply Hb|]. intros k Hk. apply IH; lia.
  - apply safe_ParseDict; [lia|by apply Hb|]. intros k Hk. apply IH; lia.
  - apply safe_error.
Qed.
End json.

(** C23: on a text whose comments all end in a newline (before trailing blanks, which
    are cut off), FromString always answers: a document, or a std::logic_error; it
    never loops, never reads outside the string and throws nothing else. *)
Theorem json_parser_total `{DoubleText} (content : bytes) :
  comments_end (TrimRight content) = true ->
  (exists j, FromString content = Ret j) \/ (exists what, FromString content = Throw (LogicError what)).
Proof.
  intros Hc. unfold FromString, Init. cbn [str_].
  pose proof (safe_Parse (TrimRight content) Hc (S (length (TrimRight content))) 0 ltac:(lia) ltac:(lia)) as Hs.
  unfold value_ok, safe in Hs.
  destruct (Parse _ _) as [[j|[what|]|u] p]; [left|right|done..]; by eexists.
Qed.

(** ** A comment that does not end *)

(** No bound on the number of turns lets a loop return. *)
Definition diverges {A} (m : nat -> ParseM A) (p : Parser) : Prop :=
  forall fuel, (m fuel p).1 = Undef OutOfFuel.

Section open_comment.
Context `{DoubleText} (blanks t : bytes).
Hypothesis Hblanks : Forall (fun b => is_space b = true) blanks.
Hypothesis Hopen : z2b 10 ∉ blanks ++ lit "//" ++ t.
Let s := blanks ++ lit "//" ++ t.

Lemma skip_blanks : skip_while is_space (mkParser s 0) = (Ret tt, mkParser s (length blanks)).
Proof.
  unfold skip_while. autorewrite with monad. cbn [idx_ str_]. rewrite decide_True by lia. rewrite drop_0.
  assert (count_while is_space s = length blanks) as ->; [|done].
  by apply (count_while_app is_space blanks (z2b 47)).
Qed.

Lemma looking_at_comment :
  looking_at (lit "//") (mkParser s (length blanks)) = (Ret true, mkParser s (length blanks)).
Proof.
  unfold looking_at. autorewrite with monad. cbn [idx_ str_].
  unfold s. rewrite decide_True by (rewrite length_app; lia).
  by rewrite drop_app_length, take_app_length, bool_decide_true by done.
Qed.

Lemma find_newline i : find (z2b 10) i (mkParser s i) = (Ret None, mkParser s i).
Proof.
  unfold find. autorewrite with monad. simpl. rewrite decide_False; [done|]. intros Hl.
  destruct (count_while_found _ _ Hl) as (b & Hb & E).
  apply negb_false_iff, bool_decide_eq_true in E as ->. rewrite lookup_drop in Hb.
  apply list_elem_of_lookup_2 in Hb. by apply Hopen.
Qed.

(** The position goes back to 0, over the blanks to the comment, and so on. *)
Lemma comment_loop_forever fuel : forall i, (comment_loop fuel (mkParser s i)).1 = Undef OutOfFuel.
Proof.
  induction fuel as [|fuel IH]; intros i; [done|]. cbn [comment_loop]. autorewrite with monad.
  simpl idx_. mstep (find_newline i). unfold set_idx. autorewrite with monad. cbn [str_].
  mstep skip_blanks. mstep looking_at_comment. apply IH.
Qed.

Lemma SkipComment_forever fuel : (SkipComment fuel (mkParser s (length blanks))).1 = Undef OutOfFuel.
Proof. unfold SkipComment. mstep looking_at_comment. apply comment_loop_forever. Qed.

Lemma Parse_forever fuel : (Parse (S fuel) (mkParser s 0)).1 = Undef OutOfFuel.
Proof.
  cbn [Parse]. unfold GetNextToken. rewrite !bind_assoc. mstep skip_blanks. rewrite bind_assoc. autorewrite with monad. cbn [idx_ str_].
  rewrite decide_False by (unfold s; rewrite !length_app; simpl; lia). rewrite bind_assoc.
  pose proof (SkipComment_forever (comment_fuel (mkParser s (length blanks)))) as Hs.
  destruct (SkipComment _ _) as [[] p] eqn:E; simpl in Hs; try done. injection Hs as ->.
  by rewrite (bind_Undef _ _ _ _ _ E).
Qed.
End open_comment.

(** Trailing blanks are cut off behind the comment's slashes. *)
Lemma TrimRight_comment blanks t : exists t', TrimRight (blanks ++ lit "//" ++ t) = blanks ++ lit "//" ++ t'
  /\ t' ⊆ t.
Proof.
  unfold TrimRight. set (n := count_while _ _).
  assert (n <= length t) as Hn.
  { unfold n. rewrite !reverse_app, <-app_assoc. etrans; [by apply (count_while_stop is_space (reverse t) (z2b 47))|].
    by rewrite length_reverse. }
  exists (take (length t - n) t). split; [|intros b (k & Hk & _)%elem_of_take; by eapply list_elem_of_lookup_2].
  rewrite !length_app. simpl length. rewrite app_assoc, take_app_ge by (rewrite length_app; simpl; lia).
  rewrite <-app_assoc, length_app. simpl length. do 3 f_equal. lia.
Qed.

(** On a text that starts, behind blanks, with a comment no newline ends, the
    parser runs for ever: no number of turns lets SkipComment return, and
    FromString never answers.  (The check for it, meant to throw, compares the
    position of the newline with the size of the text instead of npos.) *)
Lemma json_open_comment_diverges `{DoubleText} (blanks t : bytes) :
  Forall (fun b => is_space b = true) blanks -> z2b 10 ∉ blanks ++ lit "//" ++ t ->
  diverges SkipComment (mkParser (blanks ++ lit "//" ++ t) (length blanks))
  /\ FromString (blanks ++ lit "//" ++ t) = Undef OutOfFuel.
Proof.
  intros Hb Ho. split; [intros fuel; by apply SkipComment_forever|].
  destruct (TrimRight_comment blanks t) as (t' & E & Ht). unfold FromString, Init. rewrite E. cbn [str_].
  apply Parse_forever; [done|]. intros Hin. apply Ho. rewrite !elem_of_app in *. naive_solver.
Qed.

Module JsonExamples.
Local Existing Instance decimal_texts.

Definition commented : bytes := lit "[1, // one" ++ [z2b 10] ++ lit " 2.50 // two" ++ [z2b 10] ++ lit "]".

Lemma json_parser_total_witness :
  (exists j, FromString commented = Ret j) \/ (exists what, FromString commented = Throw (LogicError what)).
Proof. apply (json_parser_total commented). reflexivity. Defined.

Example read_commented : FromString commented = Ret (JList [JInt 1; JDouble (lit "2.50")]).
Proof. vm_compute. reflexivity. Qed.

Lemma json_open_comment_diverges_witness : FromString (lit " //") = Undef OutOfFuel.
Proof.
  apply (json_open_comment_diverges (lit " ") []); [by constructor|].
  apply (bool_decide_unpack _). vm_compute. exact I.
Defined.
End JsonExamples.
