(* ===== verification/Timer.v ===== *)
(** * The timer manager (src/bitdb/timer/timer.h)

    Timers live in a vector kept as a binary heap by expiry time.  The vector is a
    list; an access outside it leaves defined behaviour.  Indexes are uint32_t.
    Times are nanoseconds of the system clock, readings of which are arguments.
    The mutex makes AddTimer, RemoveTimer and a turn of Tick atomic, so a run is a
    sequence of them. *)

From S2P Require Import Prelude.

Section timer.
Context {Task : Type}.

Record Timer := mkTimer { expiry_time : Z; timer_id : Z; task : Task }.

(** The heap, the (static) counter of ids and the stop flag. *)
Record TimerManager := mkManager { timers_ : list Timer; next_timer_id : Z; stop_ : bool }.

Abbreviation HeapM := (M (list Timer) Empty_set).
Abbreviation TimerM := (M TimerManager Empty_set).

(** [timers_[i]] and [std::swap] of two elements. *)
Definition elem (i : nat) : HeapM Timer := l ← get; some_or OutOfBounds (l !! i).
Definition swap (i j : nat) : HeapM unit :=
  x ← elem i;
  y ← elem j;
  modify (fun l => <[j := x]> (<[i := y]> l)).

(** An index computed in uint32_t. *)
Definition idx32 (n : nat) : nat := Z.to_nat (u32 (Z.of_nat n)).

(** HeapifyUp: the index falls with every call. *)
Fixpoint HeapifyUp (fuel index : nat) : HeapM unit :=
  match fuel with
  | O => undef OutOfFuel
  | S fuel =>
      if decide (index = 0) then mret tt else
      let parent_index := (index - 1) / 2 in
      x ← elem index;
      p ← elem parent_index;
      if decide (expiry_time x < expiry_time p)%Z
      then swap index parent_index;; HeapifyUp fuel parent_index
      else mret tt
  end.

(** HeapifyDown: without wrap-around the index grows with every call. *)
Definition smaller_child (child smallest : nat) : HeapM nat :=
  l ← get;
  if decide (child < length l) then
    x ← elem child;
    y ← elem smallest;
    mret (if decide (expiry_time x < expiry_time y)%Z then child else smallest)
  else mret smallest.

Fixpoint HeapifyDown (fuel index : nat) : HeapM unit :=
  match fuel with
  | O => undef OutOfFuel
  | S fuel =>
      let left_child_index := idx32 (index * 2 + 1) in
      let right_child_index := idx32 (index * 2 + 2) in
      smallest_index ← smaller_child left_child_index index;
      smallest_index ← smaller_child right_child_index smallest_index;
      if decide (smallest_index ≠ index)
      then swap smallest_index index;; HeapifyDown fuel smallest_index
      else mret tt
  end.

(** Erase: the last element takes the place of the one erased and sinks. *)
Definition Erase (index : nat) : HeapM unit :=
  l ← get;
  swap index (length l - 1);;
  modify (@removelast Timer);;
  HeapifyDown (length l) index.

Definition Empty : HeapM bool := gets (fun l => bool_decide (l = [])).
Definition top : HeapM Timer := elem 0.

(** pop keeps a reference to the first element over Erase(0), and so returns what
    stands there afterwards; [None] is the default-constructed timer. *)
Definition pop : HeapM (option Timer) :=
  e ← Empty;
  if e : bool then mret None else
  Erase 0;;
  t ← top;
  mret (Some t).

Definition Push (t : Timer) : HeapM unit :=
  modify (fun l => l ++ [t]);;
  l ← get;
  HeapifyUp (S (length l)) (idx32 (length l - 1)).

Definition on_timers {A} (m : HeapM A) : TimerM A :=
  zoom timers_ (fun s l => mkManager l (next_timer_id s) (stop_ s)) m.

Definition AddTimer (now milliseconds : Z) (callback : Task) : TimerM Z :=
  let expiry := (now + milliseconds * 1000000)%Z in
  if decide (2 ^ 63 <= expiry)%Z then undef SignedOverflow else
  s ← get;
  let id := next_timer_id s in
  put (mkManager (timers_ s) (u64 (id + 1)) (stop_ s));;
  on_timers (Push (mkTimer expiry id callback));;
  mret id.

(** The index of the first timer with an id. *)
Definition find_timer (id : Z) (l : list Timer) : option nat :=
  fst <$> list_find (fun t => timer_id t = id) l.

Definition RemoveTimer (id : Z) : TimerM unit :=
  s ← get;
  match find_timer id (timers_ s) with
  | Some i => on_timers (Erase (idx32 i))
  | None => mret tt
  end.

(** One turn of Tick at a reading of the clock: the task it starts, if one. *)
Definition Tick_turn (now : Z) : TimerM (option Task) :=
  e ← on_timers Empty;
  if e : bool then mret None else
  t ← on_timers top;
  if decide (expiry_time t <= now)%Z
  then o ← on_timers pop; mret (task <$> o)
  else mret None.

Definition Shutdown : TimerM unit := modify (fun s => mkManager (timers_ s) (next_timer_id s) true).

(** Tick, for as many turns as there are readings. *)
Fixpoint Tick (clock : list Z) : TimerM (list Task) :=
  match clock with
  | [] => mret []
  | now :: clock =>
      s ← get;
      if stop_ s then mret [] else
      o ← Tick_turn now;
      tasks ← Tick clock;
      mret (option_list o ++ tasks)
  end.

(** ** The heap order *)

Definition key (l : list Timer) (i : nat) : Z := from_option expiry_time 0%Z (l !! i).
Definition child (i c : nat) : Prop := c = 2 * i + 1 \/ c = 2 * i + 2.
Definition le_at (l : list Timer) (i c : nat) : Prop := c < length l -> (key l i <= key l c)%Z.

Definition heap (l : list Timer) : Prop := forall i c, child i c -> le_at l i c.

(** The order holds but for the element at [i] and its parent, or its children. *)
Definition heap_but_up (l : list Timer) (i : nat) : Prop :=
  (forall a c, child a c -> c ≠ i -> le_at l a c) /\ (forall p c, child p i -> child i c -> le_at l p c).
Definition heap_but_down (l : list Timer) (i : nat) : Prop :=
  (forall a c, child a c -> a ≠ i -> le_at l a c) /\ (forall p c, child p i -> child i c -> le_at l p c).

Definition swapped (l : list Timer) (i j : nat) (l' : list Timer) : Prop :=
  l' ≡ₚ l /\ length l' = length l /\ l' !! j = l !! i
  /\ forall k, key l' k = if decide (k = i) then key l j else if decide (k = j) then key l i else key l k.

Lemma swap_spec i j l : i < length l -> j < length l ->
  exists l', swap i j l = (Ret tt, l') /\ swapped l i j l'.
Proof.
  intros Hi Hj. apply lookup_lt_is_Some in Hi as [x Hx]. apply lookup_lt_is_Some in Hj as [y Hy].
  exists (<[j := x]> (<[i := y]> l)). split.
  - unfold swap, elem. rewrite bind_assoc. autorewrite with monad. rewrite Hx. autorewrite with monad.
    rewrite bind_assoc. autorewrite with monad. rewrite Hy. done.
  - pose proof (lookup_lt_Some _ _ _ Hx). pose proof (lookup_lt_Some _ _ _ Hy).
    split_and!; [by apply Permutation_insert_swap|by rewrite !length_insert|
                 by rewrite list_lookup_insert_eq by (by rewrite length_insert)|]. intros k. unfold key.
    destruct (decide (k = j)) as [->|Hkj].
    + rewrite list_lookup_insert_eq by (rewrite length_insert; done).
      case_decide; [subst; by rewrite Hy in Hx |- *; injection Hx as ->|]. by rewrite Hx.
    + rewrite list_lookup_insert_ne by done. case_decide; subst.
      * rewrite list_lookup_insert_eq by done. by rewrite Hy.
      * by rewrite list_lookup_insert_ne by done.
Qed.

Lemma bind_elem {B} i (k : Timer -> HeapM B) l x : l !! i = Some x -> (y ← elem i; k y) l = k x l.
Proof. intros Hx. unfold elem. rewrite bind_assoc. autorewrite with monad. by rewrite Hx. Qed.

Lemma key_Some l i x : l !! i = Some x -> expiry_time x = key l i.
Proof. unfold key. by intros ->. Qed.

(** Goals on the keys of a list two elements of which were exchanged. *)
Ltac keys Hk := unfold le_at, child in *; rewrite ?Hk; repeat case_decide; subst; try lia.

Lemma up_step l l' p i : heap_but_up l i -> child p i -> i < length l -> swapped l i p l' ->
  (key l i < key l p)%Z -> heap_but_up l' p.
Proof.
  intros [H1 H2] Hp Hi (_ & Hl & _ & Hk) Hlt. unfold le_at, child in *. split.
  - intros a c Hac Hc Hlc. rewrite Hl in Hlc. pose proof (H1 a c Hac) as Ha. pose proof (H1 p c) as Hpc.
    pose proof (H2 p c) as Hic. keys Hk.
  - intros g c Hgp Hpc Hlc. rewrite Hl in Hlc. pose proof (H1 g p Hgp) as Hg. pose proof (H1 p c Hpc) as Hc.
    keys Hk.
Qed.

Lemma HeapifyUp_spec fuel : forall i l, i < fuel -> i < length l -> heap_but_up l i ->
  exists l', HeapifyUp fuel i l = (Ret tt, l') /\ l' ≡ₚ l /\ heap l'.
Proof.
  induction fuel as [|fuel IH]; intros i l Hf Hi Hu; [lia|]. cbn [HeapifyUp].
  case_decide as H0.
  { subst. exists l. split_and!; [done..|]. intros a c Hac. apply (proj1 Hu); [done|unfold child in Hac; lia]. }
  pose proof (Nat.div_mod (i - 1) 2 ltac:(done)) as Hdiv.
  pose proof (Nat.mod_upper_bound (i - 1) 2 ltac:(done)) as Hmod.
  set (p := (i - 1) / 2) in *. assert (child p i) as Hp by (unfold child; lia).
  destruct (lookup_lt_is_Some_2 l i Hi) as [x Hx].
  destruct (lookup_lt_is_Some_2 l p ltac:(lia)) as [y Hy].
  rewrite (bind_elem _ _ _ _ Hx), (bind_elem _ _ _ _ Hy), (key_Some _ _ _ Hx), (key_Some _ _ _ Hy).
  case_decide as Hlt.
  - destruct (swap_spec i p l) as (l1 & E & Hs); [lia..|]. rewrite (bind_Ret _ _ _ _ _ E).
    destruct (IH p l1) as (l2 & E2 & Hperm & Hh); [lia|destruct Hs as (_ & -> & _); lia|by eapply up_step|].
    exists l2. split_and!; [done| |done]. rewrite Hperm. apply Hs.
  - exists l. split_and!; [done..|]. intros a c Hac. destruct (decide (c = i)) as [->|Hc]; [|by apply (proj1 Hu)].
    assert (a = p) as -> by (unfold child in *; lia). intros _. lia.
Qed.

Lemma idx32_small n : (Z.of_nat n < 2 ^ 32)%Z -> idx32 n = n.
Proof. intros Hn. unfold idx32, u32. rewrite Z.mod_small by lia. lia. Qed.

(** The smaller of an element and one of its children. *)
Lemma smaller_child_spec c i l : i < length l ->
  exists m, smaller_child c i l = (Ret m, l) /\ (m = i \/ m = c) /\ m < length l
    /\ (key l m <= key l i)%Z /\ (c < length l -> (key l m <= key l c)%Z)
    /\ (m ≠ i -> (key l m < key l i)%Z).
Proof.
  intros Hi. unfold smaller_child. autorewrite with monad. case_decide as Hc.
  - destruct (lookup_lt_is_Some_2 l c Hc) as [x Hx]. destruct (lookup_lt_is_Some_2 l i Hi) as [y Hy].
    rewrite (bind_elem _ _ _ _ Hx), (bind_elem _ _ _ _ Hy), (key_Some _ _ _ Hx), (key_Some _ _ _ Hy).
    eexists. split; [done|]. case_decide; split_and!; auto; lia.
  - exists i. split_and!; auto; lia.
Qed.

Lemma down_step l l' i m : heap_but_down l i -> child i m -> m < length l -> swapped l m i l' ->
  (forall c, child i c -> c < length l -> (key l m <= key l c)%Z) -> (key l m < key l i)%Z ->
  heap_but_down l' m.
Proof.
  intros [H1 H2] Hm Hlm (_ & Hl & _ & Hk) Hmin Hlt. unfold le_at, child in *. split.
  - intros a c Hac Ha Hlc. rewrite Hl in Hlc. pose proof (H1 a c Hac) as Hle. pose proof (Hmin c) as Hc.
    pose proof (H2 a m) as Hg. keys Hk.
  - intros p c Hpm Hmc Hlc. rewrite Hl in Hlc. pose proof (H1 m c Hmc) as Hle. keys Hk.
Qed.

Lemma HeapifyDown_spec fuel : forall i l, length l - i < fuel -> (Z.of_nat i < 2 ^ 31 - 1)%Z ->
  (Z.of_nat (length l) < 2 ^ 31)%Z ->
  exists l', HeapifyDown fuel i l = (Ret tt, l') /\ l' ≡ₚ l /\ (heap_but_down l i -> heap l').
Proof.
  induction fuel as [|fuel IH]; intros i l Hf Hsi Hsl; [lia|]. cbn [HeapifyDown].
  rewrite !idx32_small by lia. destruct (decide (i < length l)) as [Hi|Hi].
  - destruct (smaller_child_spec (i * 2 + 1) i l Hi) as (m1 & E1 & Hm1 & Hl1 & Hle1 & Hc1 & Hlt1).
    destruct (smaller_child_spec (i * 2 + 2) m1 l Hl1) as (m & E2 & Hm & Hl2 & Hle2 & Hc2 & Hlt2).
    rewrite (bind_Ret _ _ _ _ _ E1), (bind_Ret _ _ _ _ _ E2). case_decide as Hne.
    + destruct (swap_spec m i l) as (l1 & E & Hs); [done..|]. rewrite (bind_Ret _ _ _ _ _ E).
      assert (child i m) as Hch by (unfold child; lia). pose proof Hs as (Hp & Hlen & _).
      destruct (IH m l1) as (l2 & E3 & Hperm & Hh); [unfold child in Hch; lia..|].
      exists l2. split_and!; [done|by rewrite Hperm|]. intros Hd. apply Hh.
      apply (down_step l l1 i m); [done..| |destruct (decide (m = m1)); [subst; apply Hlt1|]; lia].
      intros c [->| ->] Hc; rewrite ?(Nat.mul_comm 2); lia.
    + exists l. split_and!; [done..|]. intros [Hd _] a c Hac. destruct (decide (a = i)) as [->|Ha]; [|by apply Hd].
      intros Hc. subst m. unfold child in Hac. rewrite !(Nat.mul_comm 2) in Hac.
      destruct Hac as [->| ->]; lia.
  - unfold smaller_child. exists l. split_and!; [|done|].
    + rewrite bind_assoc. autorewrite with monad. rewrite decide_False by lia. autorewrite with monad.
      rewrite bind_assoc. autorewrite with monad. rewrite decide_False by lia. autorewrite with monad.
      by rewrite decide_False by naive_solver.
    + intros [Hd _] a c Hac. destruct (decide (a = i)) as [->|Ha]; [|by apply Hd].
      intros Hc. unfold child in Hac. lia.
Qed.

Lemma key_app l x k : k < length l -> key (l ++ x) k = key l k.
Proof. intros Hk. unfold key. by rewrite lookup_app_l. Qed.

(** Erase takes out the element at an index; at the root it keeps the order. *)
Lemma Erase_spec i l : i < length l -> (Z.of_nat (length l) < 2 ^ 31)%Z ->
  exists l', Erase i l = (Ret tt, l') /\ l' ≡ₚ delete i l /\ (i = 0 -> heap l -> heap l').
Proof.
  intros Hi Hl. unfold Erase. autorewrite with monad.
  destruct (swap_spec i (length l - 1) l) as (l1 & E & Hperm & Hlen & Hlast & Hk); [lia..|].
  rewrite (bind_Ret _ _ _ _ _ E). autorewrite with monad.
  destruct (exists_last (l := l1)) as (l2 & x & ->); [intros ->; simpl in Hlen; lia|].
  rewrite removelast_last. rewrite length_app in Hlen. simpl in Hlen.
  rewrite lookup_app_r in Hlast by lia. replace (length l - 1 - length l2) with 0 in Hlast by lia.
  simpl in Hlast. destruct (HeapifyDown_spec (length l) i l2) as (l3 & E3 & Hp3 & Hh); [lia..|].
  exists l3. split_and!; [done| |].
  - rewrite Hp3. rewrite (delete_Permutation l i x) in Hperm by done.
    rewrite (Permutation_app_comm l2) in Hperm. simpl in Hperm. by apply Permutation_cons_inv in Hperm.
  - intros -> Hheap. apply Hh. split; [|intros p c Hp; unfold child in Hp; lia].
    intros a c Hac Ha Hc. rewrite <-(key_app l2 [x] a), <-(key_app l2 [x] c) by (unfold child in Hac; lia).
    rewrite !Hk. pose proof (Hheap a c Hac). unfold le_at, child in *. repeat case_decide; subst; lia.
Qed.

Lemma Push_spec t l : heap l -> (Z.of_nat (length l) < 2 ^ 31)%Z ->
  exists l', Push t l = (Ret tt, l') /\ l' ≡ₚ t :: l /\ heap l'.
Proof.
  intros Hh Hl. unfold Push. autorewrite with monad. rewrite length_app. simpl.
  rewrite idx32_small by lia.
  destruct (HeapifyUp_spec (S (length l + 1)) (length l + 1 - 1) (l ++ [t])) as (l' & E & Hp & Hheap);
    [lia|rewrite length_app; simpl; lia| |].
  - split.
    + intros a c Hac Hc Hlc. rewrite length_app in Hlc. simpl in Hlc.
      rewrite !key_app by (unfold child in Hac; lia). apply (Hh a c Hac). lia.
    + intros p c Hp Hc Hlc. rewrite length_app in Hlc. simpl in Hlc. unfold child in Hc. lia.
  - exists l'. split_and!; [done| |done]. rewrite Hp. by rewrite (Permutation_app_comm l).
Qed.

(** The first element expires first. *)
Lemma heap_top_min l : heap l -> forall i, i < length l -> (key l 0 <= key l i)%Z.
Proof.
  intros Hh i. induction i as [i IH] using lt_wf_ind. intros Hi. destruct (decide (i = 0)) as [->|H0]; [done|].
  pose proof (Nat.div_mod (i - 1) 2 ltac:(done)) as Hdiv.
  pose proof (Nat.mod_upper_bound (i - 1) 2 ltac:(done)) as Hmod.
  set (p := (i - 1) / 2) in *. pose proof (Hh p i ltac:(unfold child; lia) Hi).
  pose proof (IH p ltac:(lia) ltac:(lia)). lia.
Qed.

Definition earliest (t : Timer) (l : list Timer) : Prop := forall u, u ∈ l -> (expiry_time t <= expiry_time u)%Z.

Lemma heap_earliest l t : heap l -> l !! 0 = Some t -> earliest t l.
Proof.
  intros Hh Ht u (i & Hu)%list_elem_of_lookup. rewrite (key_Some _ _ _ Ht), (key_Some _ _ _ Hu).
  apply heap_top_min; [done|]. by eapply lookup_lt_Some.
Qed.

Lemma pop_spec t l : heap (t :: l) -> (Z.of_nat (length (t :: l)) < 2 ^ 31)%Z ->
  exists l', l' ≡ₚ l /\ heap l'
    /\ pop (t :: l) = match l' with [] => (Undef OutOfBounds, []) | u :: _ => (Ret (Some u), l') end.
Proof.
  intros Hh Hl. destruct (Erase_spec 0 (t :: l)) as (l' & E & Hp & Hheap); [simpl; lia|done|].
  exists l'. split_and!; [done|by apply Hheap|].
  unfold pop, Empty. autorewrite with monad. rewrite bool_decide_false by done.
  rewrite (bind_Ret _ _ _ _ _ E). unfold top. destruct l' as [|u l']; [done|].
  by rewrite (bind_elem 0 _ _ u).
Qed.

(** ** Runs *)

(** What happens to a manager, in the order in which the mutex is taken. *)
Inductive event := Added (now milliseconds : Z) (callback : Task) | Turn (now : Z).

Definition step (e : event) : TimerM (list Task) :=
  match e with
  | Added now ms cb => AddTimer now ms cb;; mret []
  | Turn now => Tick [now]
  end.

(** The tasks started in a run. *)
Fixpoint run (es : list event) : TimerM (list Task) :=
  match es with
  | [] => mret []
  | e :: es => a ← step e; b ← run es; mret (a ++ b)
  end.

Definition fresh_manager : TimerManager := mkManager [] 0 false.

(** In heap order, ids given out once, the tasks among those added. *)
Definition manager_ok (added : list Task) (n : nat) (s : TimerManager) : Prop :=
  heap (timers_ s) /\ length (timers_ s) <= n /\ next_timer_id s = Z.of_nat n
  /\ NoDup (timer_id <$> timers_ s)
  /\ (forall t, t ∈ timers_ s -> (0 <= timer_id t < Z.of_nat n)%Z /\ task t ∈ added).

(** The tasks added by a run, and that no expiry time overflows. *)
Definition added_by (e : event) : list Task := if e is Added _ _ cb then [cb] else [].
Definition in_range (e : event) : bool :=
  if e is Added now ms _ then bool_decide (now + ms * 1000000 < 2 ^ 63)%Z else true.

(** A turn that finds one timer only, and finds it due; and a run without such a turn. *)
Definition pops_last (now : Z) (s : TimerManager) : bool :=
  if timers_ s is [t] then bool_decide (expiry_time t <= now)%Z else false.
Fixpoint runs_through (es : list event) (s : TimerManager) : bool :=
  match es with
  | [] => true
  | e :: es => negb (if e is Turn now then pops_last now s else false) && runs_through es (step e s).2
  end.

Lemma on_timers_Ret {A} (m : HeapM A) s a l :
  m (timers_ s) = (Ret a, l) -> on_timers m s = (Ret a, mkManager l (next_timer_id s) (stop_ s)).
Proof. intros E. unfold on_timers. by rewrite (zoom_Ret _ _ _ _ _ _ E). Qed.

Lemma AddTimer_ok added n s now ms cb : manager_ok added n s -> (Z.of_nat n < 2 ^ 31)%Z ->
  (now + ms * 1000000 < 2 ^ 63)%Z ->
  exists s', AddTimer now ms cb s = (Ret (Z.of_nat n), s') /\ manager_ok (added ++ [cb]) (S n) s'
    /\ timers_ s' ≡ₚ mkTimer (now + ms * 1000000)%Z (Z.of_nat n) cb :: timers_ s /\ stop_ s' = stop_ s.
Proof.
  intros (Hh & Hlen & Hid & Hnd & Hin) Hn Hnow. unfold AddTimer. rewrite decide_False by lia.
  autorewrite with monad. rewrite Hid.
  set (t := mkTimer _ _ _). set (s1 := mkManager _ _ _).
  destruct (Push_spec t (timers_ s1)) as (l' & E & Hp & Hh'); [done|simpl; lia|].
  rewrite (bind_Ret _ _ _ _ _ (on_timers_Ret _ _ _ _ E)). eexists. split; [done|]. simpl in Hp |- *.
  split; [|done]. split_and!; simpl; [done|rewrite Hp; simpl; lia| | |].
  - unfold u64. rewrite Z.mod_small; lia.
  - rewrite Hp. simpl. constructor; [|done]. intros (u & Eu & Hu)%list_elem_of_fmap.
    apply Hin in Hu as [Hu _]. lia.
  - intros u Hu. rewrite Hp in Hu. apply elem_of_cons in Hu as [->|Hu].
    + split; [simpl; lia|]. simpl. set_solver.
    + apply Hin in Hu as [Hu1 Hu2]. split; [lia|set_solver].
Qed.

Lemma manager_ok_perm added n s l' : manager_ok added n s -> heap l' ->
  (exists t, timers_ s ≡ₚ t :: l') -> manager_ok added n (mkManager l' (next_timer_id s) (stop_ s)).
Proof.
  intros (Hh & Hlen & Hid & Hnd & Hin) Hh' [t Hp]. rewrite Hp in Hlen, Hnd. simpl in Hlen, Hnd.
  split_and!; simpl; [done|lia|done|by apply NoDup_cons in Hnd as [_ ?]|].
  intros u Hu. apply Hin. rewrite Hp. set_solver.
Qed.

(** ** A turn *)

Lemma Tick_turn_empty now s : timers_ s = [] -> Tick_turn now s = (Ret None, s).
Proof. by destruct s as [l id st]; simpl; intros ->. Qed.

Lemma Tick_turn_some now s t l : timers_ s = t :: l ->
  Tick_turn now s = if decide (expiry_time t <= now)%Z
                    then (o ← on_timers pop; mret (task <$> o)) s else (Ret None, s).
Proof. destruct s as [l' id st]; simpl; intros ->. unfold Tick_turn, mbind, M_bind. simpl. by case_decide. Qed.

Lemma Tick_turn_due now s t l : timers_ s = t :: l -> (expiry_time t <= now)%Z -> heap (t :: l) ->
  (Z.of_nat (length (t :: l)) < 2 ^ 31)%Z ->
  exists l', l' ≡ₚ l /\ heap l' /\ Tick_turn now s
    = (match l' with [] => Undef OutOfBounds | u :: _ => Ret (Some (task u)) end,
       mkManager l' (next_timer_id s) (stop_ s)).
Proof.
  intros Ht Hdue Hh Hl. destruct (pop_spec t l Hh Hl) as (l' & Hp & Hh' & E). exists l'. split_and!; [done..|].
  rewrite (Tick_turn_some _ _ _ _ Ht), decide_True by done.
  unfold mbind, M_bind, on_timers, zoom. rewrite Ht, E. by destruct l'.
Qed.

Lemma Turn_ok added n s now : manager_ok added n s -> (Z.of_nat n < 2 ^ 31)%Z -> stop_ s = false ->
  if pops_last now s then (Tick [now] s).1 = Undef OutOfBounds
  else exists ts s', Tick [now] s = (Ret ts, s') /\ manager_ok added n s' /\ stop_ s' = false /\ ts ⊆ added.
Proof.
  intros Hok Hn Es. pose proof Hok as (Hh & Hlen & _ & _ & Hin). cbn [Tick]. autorewrite with monad. rewrite Es.
  unfold pops_last. destruct (timers_ s) as [|t l] eqn:El.
  { rewrite (bind_Ret _ _ _ _ _ (Tick_turn_empty now s El)). exists [], s. split_and!; [done..|set_solver]. }
  destruct (decide (expiry_time t <= now)%Z) as [Hdue|Hwait].
  - destruct (Tick_turn_due now s t l El Hdue) as (l' & Hp & Hh' & E); [done|simpl in *; lia|].
    destruct l' as [|u l'].
    { apply Permutation_nil_l in Hp. subst l. rewrite bool_decide_true by done. by rewrite (bind_Undef _ _ _ _ _ E). }
    assert (l <> []) as Hl by (intros ->; by apply Permutation_nil_r in Hp).
    destruct l as [|v l]; [done|]. rewrite (bind_Ret _ _ _ _ _ E). eexists _, _. split_and!; [done| |done|].
    + apply manager_ok_perm; [done..|]. exists t. by rewrite El, Hp.
    + simpl. intros x [->|[]%not_elem_of_nil]%elem_of_cons. apply Hin. rewrite <-Hp. set_solver.
  - assert (Tick_turn now s = (Ret None, s)) as E
      by (by rewrite (Tick_turn_some _ _ _ _ El), decide_False).
    rewrite (bind_Ret _ _ _ _ _ E). rewrite bool_decide_false by done.
    assert (exists ts s', (Ret [] : outcome Empty_set (list Task), s) = (Ret ts, s') /\ manager_ok added n s'
      /\ stop_ s' = false /\ ts ⊆ added) as H by (exists [], s; split_and!; [done..|set_solver]).
    by destruct l.
Qed.

Lemma run_ok es : forall added n s, manager_ok added n s -> stop_ s = false -> forallb in_range es = true ->
  (Z.of_nat (n + length es) < 2 ^ 31)%Z ->
  if runs_through es s
  then exists ts s' m, run es s = (Ret ts, s') /\ manager_ok (added ++ (es ≫= added_by)) m s'
     /\ ts ⊆ added ++ (es ≫= added_by)
  else (run es s).1 = Undef OutOfBounds.
Proof.
  induction es as [|e es IH]; intros added n s Hok Hst Hr Hn; simpl in Hn, Hr.
  { exists [], s, n. simpl. rewrite app_nil_r. split_and!; [done..|set_solver]. }
  apply andb_true_iff in Hr as [Hr Hrs]. cbn [run runs_through].
  assert (if (if e is Turn now then pops_last now s else false) then (step e s).1 = Undef OutOfBounds
          else exists a s1 n1, step e s = (Ret a, s1) /\ manager_ok (added ++ added_by e) n1 s1 /\ n1 <= S n
            /\ stop_ s1 = false /\ a ⊆ added) as Hstep.
  { destruct e as [now ms cb|now]; cbn [step added_by].
    - apply bool_decide_eq_true in Hr.
      destruct (AddTimer_ok added n s now ms cb Hok) as (s1 & E & Hok1 & _ & Hst1); [lia|done|].
      exists [], s1, (S n). rewrite (bind_Ret _ _ _ _ _ E). split_and!; [done..|congruence|set_solver].
    - rewrite app_nil_r. pose proof (Turn_ok added n s now Hok ltac:(lia) Hst) as H.
      destruct (pops_last now s); [done|]. destruct H as (a & s1 & E & Hok1 & Hs1 & Ha).
      exists a, s1, n. split_and!; [done..|lia|done|done]. }
  destruct (if e is Turn now then pops_last now s else false).
  - destruct (step e s) as [r s1] eqn:Er. simpl in Hstep. subst r. by rewrite (bind_Undef _ _ _ _ _ Er).
  - destruct Hstep as (a & s1 & n1 & E & Hok1 & Hn1 & Hs1 & Ha). rewrite E, (bind_Ret _ _ _ _ _ E). cbn [snd negb andb].
    specialize (IH _ n1 s1 Hok1 Hs1 Hrs ltac:(lia)). destruct (runs_through es s1).
    + destruct IH as (b & s2 & m & E2 & Hok2 & Hb). rewrite (bind_Ret _ _ _ _ _ E2). eexists _, s2, m. split; [done|]. simpl.
      rewrite app_assoc. split; [done|]. set_solver.
    + destruct (run es s1) as [r s2] eqn:Er. simpl in IH. subst r. by rewrite (bind_Undef _ _ _ _ _ Er).
Qed.

Lemma RemoveTimer_spec id s i t : list_find (fun t => timer_id t = id) (timers_ s) = Some (i, t) ->
  (Z.of_nat (length (timers_ s)) < 2 ^ 31)%Z ->
  exists s', RemoveTimer id s = (Ret tt, s') /\ timers_ s ≡ₚ t :: timers_ s'.
Proof.
  intros Hf Hl. unfold RemoveTimer, find_timer. autorewrite with monad. rewrite Hf. simpl.
  apply list_find_Some in Hf as (Hi & _ & _). pose proof (lookup_lt_Some _ _ _ Hi).
  rewrite idx32_small by lia. destruct (Erase_spec i (timers_ s)) as (l' & E & Hp & _); [done..|].
  rewrite (on_timers_Ret _ _ _ _ E). eexists. split; [done|]. simpl. rewrite Hp. by apply delete_Permutation.
Qed.
End timer.

(** C34: every run of AddTimer calls and Tick turns without arithmetic overflow, exactly.
    If no turn finds a single timer that is due, the run goes on to its end, the timers
    stay in heap order, every one under an id of its own, and only tasks that were
    added are started; if one does, the run ends there, reading the element that
    pop has destroyed. *)
Theorem timer_runs {Task} (es : list (event (Task := Task))) :
  forallb in_range es = true -> (Z.of_nat (length es) < 2 ^ 31)%Z ->
  if runs_through es fresh_manager
  then exists ts s' m, run es fresh_manager = (Ret ts, s') /\ manager_ok (es ≫= added_by) m s'
     /\ ts ⊆ es ≫= added_by
  else (run es fresh_manager).1 = Undef OutOfBounds.
Proof.
  intros Hr Hl. apply (run_ok es [] 0); [|done|done|simpl; lia].
  split_and!; [intros i c _ Hc; simpl in Hc; lia|done|done|constructor|].
  by intros t ?%not_elem_of_nil.
Qed.

(** A turn of Tick looks at the timer that expires first.  When it is due, it is
    dropped without its task being started: the task started is the one of the timer
    that comes next, which stays in the heap; with no timer behind it, the turn reads
    an element that is no longer there. *)
Lemma timer_turn {Task} (added : list Task) n s now :
  manager_ok added n s -> (Z.of_nat n < 2 ^ 31)%Z ->
  match timers_ s with
  | [] => Tick_turn now s = (Ret None, s)
  | t :: l =>
      earliest t (t :: l) /\
      if decide (expiry_time t <= now)%Z
      then exists l', l' ≡ₚ l /\ (forall u, head l' = Some u -> earliest u l') /\ Tick_turn now s
        = (match l' with [] => Undef OutOfBounds | u :: _ => Ret (Some (task u)) end,
           mkManager l' (next_timer_id s) (stop_ s))
      else Tick_turn now s = (Ret None, s)
  end.
Proof.
  intros (Hh & Hlen & _) Hn. destruct (timers_ s) as [|t l] eqn:El; [by apply Tick_turn_empty|].
  split; [by apply heap_earliest|]. case_decide as Hdue.
  - destruct (Tick_turn_due now s t l El Hdue Hh) as (l' & Hp & Hh' & E); [simpl in *; lia|].
    exists l'. split_and!; [done| |done]. intros u Hu. apply heap_earliest; [done|]. by destruct l'.
  - by rewrite (Tick_turn_some _ _ _ _ El), decide_False.
Qed.

Module Examples.

(** Two timers, after 10 and after 20 milliseconds. *)
Definition two : list (event (Task := string)) := [Added 0 20 "late"; Added 0 10 "early"]%string%Z.
Definition ms (n : Z) : Z := (n * 1000000)%Z.

Definition two_timers : TimerManager := mkManager [mkTimer (ms 10) 1 "early"; mkTimer (ms 20) 0 "late"]%string 2 false.

(** At 10 milliseconds the late task is started; at 20 the last timer is popped. *)
Example late_task_runs_early :
  run (two ++ [Turn (ms 5); Turn (ms 10)]) fresh_manager
  = (Ret ["late"%string], mkManager [mkTimer (ms 20) 0 "late"%string] 2 false)
  /\ (run (two ++ [Turn (ms 5); Turn (ms 10); Turn (ms 20)]) fresh_manager).1 = Undef OutOfBounds.
Proof. vm_compute. split; reflexivity. Qed.

Lemma timer_runs_witness :
  (exists ts s' m, run (two ++ [Turn (ms 10)]) fresh_manager = (Ret ts, s')
     /\ manager_ok ["late"; "early"]%string m s' /\ ts ⊆ ["late"; "early"]%string)
  /\ (run (two ++ [Turn (ms 10); Turn (ms 20)]) fresh_manager).1 = Undef OutOfBounds.
Proof.
  split.
  - exact (timer_runs (two ++ [Turn (ms 10)]) eq_refl ltac:(simpl; lia)).
  - exact (timer_runs (two ++ [Turn (ms 10); Turn (ms 20)]) eq_refl ltac:(simpl; lia)).
Defined.

Lemma two_timers_ok : manager_ok ["late"; "early"]%string 2 two_timers.
Proof.
  split_and!; simpl; [|lia|done| |].
  - intros i c Hc Hl. simpl in Hl. assert (i = 0 /\ c = 1) as [-> ->] by (unfold child in Hc; lia). vm_compute. discriminate.
  - apply (bool_decide_unpack _). vm_compute. exact I.
  - intros t Ht. assert (t = mkTimer (ms 10) 1 "early"%string \/ t = mkTimer (ms 20) 0 "late"%string) as [-> | ->]
      by set_solver; simpl; split; [lia|set_solver|lia|set_solver].
Qed.

Lemma timer_turn_witness :
  earliest (mkTimer (ms 10) 1 "early"%string) (timers_ two_timers)
  /\ exists l', l' ≡ₚ [mkTimer (ms 20) 0 "late"%string] /\ (forall u, head l' = Some u -> earliest u l')
     /\ Tick_turn (ms 10) two_timers
        = (match l' with [] => Undef OutOfBounds | u :: _ => Ret (Some (task u)) end, mkManager l' 2 false).
Proof. exact (timer_turn ["late"; "early"]%string 2 two_timers (ms 10) two_timers_ok eq_refl). Defined.

(** RemoveTimer lets the last timer only sink: here it should have risen, and the
    timer due at 4 stands below the one due at 10. *)
Example remove_breaks_heap_order :
  let add n := Added 0 n n in
  let s := (run (map add [1; 10; 2; 11; 12; 3; 4]%Z) fresh_manager).2 in
  map expiry_time (timers_ s) = map ms [1; 10; 2; 11; 12; 3; 4]%Z
  /\ map expiry_time (timers_ (RemoveTimer 3 s).2) = map ms [1; 10; 2; 4; 12; 3]%Z
  /\ ~ heap (timers_ (RemoveTimer 3 s).2).
Proof.
  split_and!; [vm_compute; reflexivity..|]. intros Hh. specialize (Hh 1 3 (or_introl eq_refl)).
  vm_compute in Hh. by apply Hh; [lia|].
Qed.
End Examples.
