(* ===== verification/Http.v ===== *)
(** * HTTP requests, responses, routing and the server loop (src/bitdb/net/http/)

    A std::unordered_map of strings is a [gmap]; the order in which it is iterated
    is a parameter.  Handlers act on the context.  The server works on a connection
    of Packet.v and on the timers of Timer.v.  SendFile is in
    HttpFile.v; logging is left out. *)

From S2P Require Import Prelude Strings Json Packet Timer.

Abbreviation params := (gmap bytes bytes).

Definition CR : byte := z2b 13.
Definition CRLF : bytes := [CR; z2b 10].

(** ** http_request.cpp *)

Record HttpRequest := mkRequest {
  method_ : bytes;
  url_ : bytes;
  uri_ : bytes;
  http_version_ : bytes;
  body_ : bytes;
  headers_ : params;
  url_params_ : params;
  body_params_ : params
}.

Definition no_request : HttpRequest := mkRequest [] [] [] [] [] ∅ ∅ ∅.

Abbreviation ReqM := (M HttpRequest Empty_set).

Definition split (str delim : bytes) (keep_empty : bool) : ReqM (list bytes) :=
  some_or OutOfFuel (String.Split str delim keep_empty).
Definition item (l : list bytes) (i : nat) : ReqM bytes := some_or OutOfBounds (l !! i).

(** The results of the calls of Trim are not used. *)
Definition set_param (key value : bytes) (m : params) : params := <[key := value]> m.

(** ParseHeaders: the lines behind the request line. *)
Fixpoint ParseHeaders (headers : list bytes) : ReqM unit :=
  match headers with
  | [] => mret tt
  | h :: headers =>
      (if bool_decide (h ≠ []) && String.Contains h (lit ":") then
         key_value ← split h (lit ":") false;
         match key_value with
         | [key; value] => modify (fun r => mkRequest (method_ r) (url_ r) (uri_ r) (http_version_ r)
             (body_ r) (set_param key value (headers_ r)) (url_params_ r) (body_params_ r))
         | _ => mret tt
         end
       else mret tt);;
      ParseHeaders headers
  end.

(** The loop that ParseURLParams and ParseBody share; [f] stores a parameter. *)
Fixpoint parse_params (f : bytes -> bytes -> HttpRequest -> HttpRequest) (ps : list bytes) : ReqM unit :=
  match ps with
  | [] => mret tt
  | param :: ps =>
      key_value ← split param (lit "=") true;
      match key_value with
      | [key; value] => modify (f key value)
      | _ => mret tt
      end;;
      parse_params f ps
  end.

Definition ParseURLParams (url : bytes) : ReqM unit :=
  ps ← split url (lit "&") true;
  parse_params (fun key value r => mkRequest (method_ r) (url_ r) (uri_ r) (http_version_ r)
    (body_ r) (headers_ r) (set_param key value (url_params_ r)) (body_params_ r)) ps.

Definition ParseBody (body : bytes) : ReqM unit :=
  ps ← split body (lit "&") true;
  parse_params (fun key value r => mkRequest (method_ r) (url_ r) (uri_ r) (http_version_ r)
    (body_ r) (headers_ r) (url_params_ r) (set_param key value (body_params_ r))) ps.

Definition ParseLine (line : bytes) : ReqM unit :=
  line_datas ← split line (lit " ") true;
  method ← item line_datas 0;
  url ← item line_datas 1;
  version ← item line_datas 2;
  modify (fun r => mkRequest method url (uri_ r) version (body_ r) (headers_ r) (url_params_ r) (body_params_ r));;
  url_datas ← split url (lit "&") true;
  match url_datas with
  | [uri; query] =>
      modify (fun r => mkRequest method url uri version (body_ r) (headers_ r) (url_params_ r) (body_params_ r));;
      ParseURLParams query
  | _ => modify (fun r => mkRequest method url url version (body_ r) (headers_ r) (url_params_ r) (body_params_ r))
  end.

Definition HttpRequest_Parse (data : bytes) : ReqM unit :=
  head_and_body ← split data (CRLF ++ CRLF) true;
  body ← item head_and_body 1;
  when (bool_decide (body ≠ []))
    (modify (fun r => mkRequest (method_ r) (url_ r) (uri_ r) (http_version_ r) body
                        (headers_ r) (url_params_ r) (body_params_ r)));;
  head ← item head_and_body 0;
  line_and_head ← split head CRLF false;
  line ← item line_and_head 0;
  ParseLine line;;
  ParseHeaders (drop 1 line_and_head);;
  ParseBody body.

(** ** http_response.cpp *)

(** [status_code_] has no value before it is set. *)
Record HttpResponse := mkResponse {
  buffer_ : bytes;
  status_code_ : option Z;
  res_http_version_ : bytes;
  res_headers_ : params
}.

Definition no_response : HttpResponse := mkResponse [] None [] ∅.

Definition code_table : list (Z * bytes) := [
  (100, lit "Continue"); (101, lit "Switching Protocols"); (200, lit "OK"); (201, lit "Created");
  (202, lit "Accepted"); (203, lit "Non-Authoritative Information"); (204, lit "No Content");
  (205, lit "Reset Content"); (206, lit "Partial Content"); (300, lit "Multiple Choices");
  (301, lit "Moved Permanently"); (302, lit "Found"); (303, lit "See Other"); (304, lit "Not Modified");
  (305, lit "Use Proxy"); (306, lit "Unused"); (307, lit "Temporary Redirect"); (400, lit "Bad Request");
  (401, lit "Unauthorized"); (403, lit "Forbidden"); (404, lit "Not Found");
  (405, lit "Method Not Allowed"); (500, lit "Internal Server Error"); (501, lit "Not Implemented");
  (502, lit "Bad Gateway"); (503, lit "Service Unavailable"); (504, lit "Gateway Time-out");
  (505, lit "HTTP Version not supported")]%Z.

Definition GetCodeDescript (status_code : Z) : bytes :=
  match list_find (fun e => e.1 = status_code) code_table with
  | Some (_, (_, text)) => text
  | None => lit "Unknow Code or Unsupported now"
  end.

Definition type_table : list (bytes * bytes) := [
  (lit "html", lit "text/html; charset=utf-8"); (lit "jpg", lit "image/jpeg"); (lit "gif", lit "image/gif");
  (lit "png", lit "image/png"); (lit "css", lit "text/css"); (lit "au", lit "audio/basic");
  (lit "wav", lit "audio/wav"); (lit "avi", lit "video/x-msvideo"); (lit "mov", lit "video/quicktime");
  (lit "mpeg", lit "video/mpeg"); (lit "vrml", lit "model/vrml"); (lit "midi", lit "audio/midi");
  (lit "mp3", lit "audio/mpeg"); (lit "ogg", lit "application/ogg");
  (lit "pac", lit "application/x-ns-proxy-autoconfig")].

(** [None] when Split does not end, which it always does. *)
Definition GetFileType (file_name : bytes) : option bytes :=
  type ← String.Split file_name (lit ".") true;
  match type with
  | [_; ext] => Some (match list_find (fun e => e.1 = ext) type_table with
                      | Some (_, (_, text)) => text
                      | None => []
                      end)
  | _ => Some (lit "text/plain;charset=utf-8")
  end.

Section responses.
(** The order in which a std::unordered_map is iterated. *)
Context (entries : params -> list (bytes * bytes)).

Abbreviation ResM := (M HttpResponse Empty_set).

Definition SetStatusCode (code : Z) : ResM unit :=
  modify (fun r => mkResponse (buffer_ r) (Some code) (res_http_version_ r) (res_headers_ r)).
Definition SetHeader (key value : bytes) : ResM unit :=
  modify (fun r => mkResponse (buffer_ r) (status_code_ r) (res_http_version_ r) (<[key := value]> (res_headers_ r))).
Definition SetHTTPVersion (version : bytes) : ResM unit :=
  modify (fun r => mkResponse (buffer_ r) (status_code_ r) version (res_headers_ r)).
Definition Clear_ : ResM unit :=
  modify (fun r => mkResponse [] (status_code_ r) (res_http_version_ r) (res_headers_ r)).

Definition header_text (kv : bytes * bytes) : bytes := kv.1 ++ lit ":" ++ kv.2 ++ CRLF.

Definition SetBody (body : bytes) : ResM unit :=
  r ← get;
  code ← some_or BadRepresentation (status_code_ r);
  let text := res_http_version_ r ++ lit " " ++ int_text code ++ lit " " ++ GetCodeDescript code ++ CRLF
    ++ concat (map header_text (entries (res_headers_ r))) ++ CRLF ++ body ++ CRLF in
  put (mkResponse text (status_code_ r) (res_http_version_ r) (res_headers_ r)).

(** ** http_context.h *)

(** The request and the response are shared with the server. *)
Record HttpContext := mkContext {
  req_ : HttpRequest;
  res_ : HttpResponse;
  path_ : bytes;
  ctx_method_ : bytes;
  ctx_status_code_ : Z
}.

Definition HttpContext_new (req : HttpRequest) (res : HttpResponse) : HttpContext :=
  mkContext req res (url_ req) (method_ req) 500.

Abbreviation CtxM := (M HttpContext Empty_set).

Definition on_res {A} (m : ResM A) : CtxM A :=
  zoom res_ (fun c r => mkContext (req_ c) r (path_ c) (ctx_method_ c) (ctx_status_code_ c)) m.

Definition QueryURL (key : bytes) : CtxM bytes := gets (fun c => default [] (url_params_ (req_ c) !! key)).
Definition QueryBody (key : bytes) : CtxM bytes := gets (fun c => default [] (body_params_ (req_ c) !! key)).

Definition Status_ (code : Z) : CtxM unit :=
  modify (fun c => mkContext (req_ c) (res_ c) (path_ c) (ctx_method_ c) code);;
  on_res (SetStatusCode code).

Definition String_ (code : Z) (fmt : bytes) (args : list bytes) : CtxM unit :=
  on_res (SetHeader (lit "Content-Type") (lit "text/plain"));;
  Status_ code;;
  on_res (SetBody (Format fmt args)).

(** JSON sets no body. *)
Definition JSON_ (code : Z) : CtxM unit :=
  on_res (SetHeader (lit "Content-Type") (lit "application/json"));;
  Status_ code.

Definition HTML (code : Z) (html : bytes) : CtxM unit :=
  on_res (SetHeader (lit "Content-Type") (lit "text/html"));;
  Status_ code;;
  on_res (SetBody html).

(** ** http_router.h *)

Abbreviation HandleFunc := (CtxM unit).
Definition Router : Type := gmap bytes HandleFunc.

Definition AddRouter (method url : bytes) (handler : HandleFunc) (handlers_ : Router) : Router :=
  if decide (method = lit "DELETE") then handlers_
  else if String.EndsWith url (lit "/")
  then <[String.Join [method; url] (lit "-") := handler]> handlers_
  else handlers_.

(** The methods of HttpServer that add a route. *)
Definition GET := AddRouter (lit "GET").
Definition POST := AddRouter (lit "POST").
Definition PUT := AddRouter (lit "PUT").
Definition DELETE := AddRouter (lit "DELETE").

Definition Handle (handlers_ : Router) : CtxM unit :=
  c ← get;
  match handlers_ !! String.Join [ctx_method_ c; path_ c] (lit "-") with
  | Some handler => handler
  | None => HTML 404 (Format (lit "404 Not Found: {} not at {}" ++ [z2b 10]) [ctx_method_ c; path_ c])
  end.

(** ** http_server.cpp *)

Record Server := mkServer { conn : Socket; timers : TimerManager (Task := unit) }.
Abbreviation ServerM := (M Server Empty_set).

Definition on_socket {A} (m : SockM A) : ServerM A := zoom conn (fun s c => mkServer c (timers s)) m.
Definition with_timers {A} (m : M (TimerManager (Task := unit)) Empty_set A) : ServerM A :=
  zoom timers (fun s t => mkServer (conn s) t) m.

Definition MAX_REQUEST_SIZE : nat := Z.to_nat (1024 * 64).

(** [buffer[recv_len] = '\0'], which must lie within the capacity of the buffer, and
    then [buffer.data()] as a C string. *)
Definition before_nul (bs : bytes) : bytes := default bs (c_str bs).
Definition received : ServerM bytes :=
  data ← on_socket (AsyncRead MAX_REQUEST_SIZE);
  if decide (length data < MAX_REQUEST_SIZE) then mret data else undef OutOfBounds.

(** The rest of the body; without progress the loop runs for ever. *)
Fixpoint body_loop (fuel : nat) (content_len : Z) (body : bytes) : ServerM bytes :=
  if decide (Z.of_nat (length body) = u64 content_len) then mret body else
  match fuel with
  | O => undef OutOfFuel
  | S fuel => data ← received; body_loop fuel content_len (body ++ before_nul data)
  end.

Definition set_body (r : HttpRequest) (body : bytes) : HttpRequest :=
  mkRequest (method_ r) (url_ r) (uri_ r) (http_version_ r) body (headers_ r) (url_params_ r) (body_params_ r).

Definition SendResponse (r : HttpResponse) : ServerM HttpResponse :=
  on_socket (AsyncWrite (buffer_ r));;
  mret (Clear_ r).2.

Definition ServerHTTP (handlers_ : Router) (req : HttpRequest) (res : HttpResponse) : ServerM unit :=
  match Handle handlers_ (HttpContext_new req res) with
  | (Ret _, c) => SendResponse (res_ c);; mret tt
  | (Undef u, _) => undef u
  | (Throw e, _) => match e with end
  end.

(** One request that has arrived: whether the connection ends with it. *)
Definition serve (handlers_ : Router) (timer_id : Z) (data : bytes) : ServerM bool :=
  match HttpRequest_Parse (before_nul data) no_request with
  | (Ret _, req) =>
      s ← get;
      req ← (match headers_ req !! lit "Content-Length" with
             | Some len =>
                 content_len ← some_or UncaughtException (stoi len);
                 body ← body_loop (length (inbox (conn s)) + 2) content_len (body_ req);
                 mret (set_body req body)
             | None => mret req
             end);
      with_timers (RemoveTimer timer_id);;
      ServerHTTP handlers_ req (SetHTTPVersion (http_version_ req) no_response).2;;
      mret (bool_decide (headers_ req !! lit "Connection" = Some (lit "close")))
  | (Undef u, _) => undef u
  | (Throw e, _) => match e with end
  end.

(** OnRequest, a turn per reading of the clock; [false] when it is still running
    after the last one.  [recv_len] is unsigned, so it is never negative. *)
Fixpoint OnRequest_http (handlers_ : Router) (clock : list Z) : ServerM bool :=
  match clock with
  | [] => mret false
  | now :: clock =>
      timer_id ← with_timers (AddTimer now 1000 tt);
      data ← received;
      match data with
      | [] => OnRequest_http handlers_ clock
      | _ =>
          done_ ← serve handlers_ timer_id data;
          if done_ : bool then mret true else OnRequest_http handlers_ clock
      end
  end.
End responses.
