(* ===== verification/HttpParse.v ===== *)
(** * What the HTTP parser reads

    Split and Join are inverse to each other on pieces without the delimiter's first
    character; with that, a request put together from its parts is parsed into
    them. *)

From S2P Require Import Prelude Strings Json Packet Timer Http.

(** ** Splitting what was joined *)

(** A delimiter is looked for behind a part that lacks its first character. *)
Lemma find_sub_skip c d p s : c ∉ p -> find_sub (c :: d) (p ++ s) = (fun n => length p + n) <$> find_sub (c :: d) s.
Proof.
  induction p as [|b p IH]; intros Hc; simpl app; [by destruct (find_sub _ s)|].
  apply not_elem_of_cons in Hc as [Hb Hc]. cbn [find_sub]. rewrite decide_False.
  - rewrite IH by done. by destruct (find_sub _ s).
  - intros [k E]. by injection E as ->.
Qed.

Lemma find_sub_here (d s : bytes) : find_sub d (d ++ s) = Some 0.
Proof. destruct (d ++ s) eqn:E; simpl; rewrite decide_True; try done; rewrite <-E; by exists s. Qed.

Lemma find_sub_next c d p s : c ∉ p -> find_sub (c :: d) (p ++ (c :: d) ++ s) = Some (length p).
Proof. intros Hc. rewrite find_sub_skip, find_sub_here by done. simpl. by rewrite Nat.add_0_r. Qed.

Lemma find_sub_absent c d p : c ∉ p -> find_sub (c :: d) p = None.
Proof.
  intros Hc. rewrite <-(app_nil_r p), find_sub_skip by done. cbn [find_sub].
  rewrite decide_False; [done|]. by intros [k E].
Qed.

Lemma find_sub_cons (d : bytes) b s : ~ d `prefix_of` (b :: s) -> find_sub d (b :: s) = S <$> find_sub d s.
Proof. intros Hp. cbn [find_sub]. by rewrite decide_False. Qed.

(** Pieces that Split gives back: without the first character of the delimiter, and
    not empty where empty ones are dropped. *)
Definition piece_ok (keep_empty : bool) (c : byte) (p : bytes) : Prop := c ∉ p /\ (keep_empty = false -> p ≠ []).

Lemma split_loop_pieces keep c d ps : forall fuel p, Forall (piece_ok keep c) (p :: ps) ->
  length (p ++ String.join_tail (c :: d) ps) < fuel ->
  String.split_loop fuel (c :: d) keep (p ++ String.join_tail (c :: d) ps) = Some (p :: ps).
Proof.
  induction ps as [|q ps IH]; intros fuel p [[Hp He] Hps]%Forall_cons Hf; (destruct fuel as [|fuel]; [lia|]);
    cbn [String.split_loop String.join_tail].
  - rewrite app_nil_r, find_sub_absent by done. simpl. unfold substr. by rewrite drop_0.
  - assert (bool_decide (Some (length p) ≠ Some 0) || keep = true) as Hpos.
    { destruct keep; [by rewrite orb_true_r|]. rewrite bool_decide_true; [done|]. intros [= E%nil_length_inv]. by apply He. }
    rewrite find_sub_next, Hpos by done. unfold substr. rewrite drop_0, take_app_length.
    rewrite app_assoc, drop_app_length' by (by rewrite length_app).
    assert (length (q ++ String.join_tail (c :: d) ps) < fuel) as Hf'.
    { revert Hf. cbn [String.join_tail]. rewrite ?length_app. simpl. rewrite ?length_app. lia. }
    pose proof (IH fuel q Hps Hf') as E. destruct (q ++ String.join_tail (c :: d) ps) as [|b rest] eqn:Eq.
    + apply app_nil in Eq as [-> Et]. apply Forall_cons in Hps as [[_ Hq] _].
      destruct keep; [|by destruct Hq]. destruct ps; [done|]. by apply app_nil in Et as [? _].
    + by rewrite E.
Qed.

Lemma Split_pieces keep c d p ps : Forall (piece_ok keep c) (p :: ps) -> p ++ String.join_tail (c :: d) ps ≠ [] ->
  String.Split (p ++ String.join_tail (c :: d) ps) (c :: d) keep = Some (p :: ps).
Proof.
  intros Hok Hne. unfold String.Split. destruct (p ++ _) eqn:E; [done|]. rewrite <-E.
  apply split_loop_pieces; [done|]. lia.
Qed.

Lemma Join_cons p ps c d : String.Join (p :: ps) (c :: d) = p ++ String.join_tail (c :: d) ps.
Proof. by apply SplitLemmas.Join_intercalate. Qed.

Lemma Split_of_Join keep delim c d p ps : delim = c :: d -> Forall (piece_ok keep c) (p :: ps) ->
  String.Join (p :: ps) delim ≠ [] -> String.Split (String.Join (p :: ps) delim) delim keep = Some (p :: ps).
Proof. intros ->. rewrite Join_cons. apply Split_pieces. Qed.

(** ** Requests *)

(** None of the bytes [cs] occurs in [s]. *)
Definition free (cs s : bytes) : bool := forallb (fun c => bool_decide (c ∉ s)) cs.

Lemma free_spec cs s c : free cs s = true -> c ∈ cs -> c ∉ s.
Proof. unfold free. rewrite forallb_forall. intros H Hc.
  apply list_elem_of_In, H, bool_decide_eq_true in Hc. done.
Qed.

(** The parts of a request, with their delimiters. *)
Definition header_line (kv : bytes * bytes) : bytes := String.Join [kv.1; kv.2] (lit ":").
Definition pair_text (kv : bytes * bytes) : bytes := String.Join [kv.1; kv.2] (lit "=").
Definition request_line (method url version : bytes) : bytes := String.Join [method; url; version] (lit " ").
Definition head_text (method url version : bytes) (headers : list (bytes * bytes)) : bytes :=
  String.Join (request_line method url version :: map header_line headers) CRLF.
Definition form_text (form : list (bytes * bytes)) : bytes := String.Join (map pair_text form) (lit "&").
Definition request_text (method url version : bytes) (headers form : list (bytes * bytes)) : bytes :=
  head_text method url version headers ++ CRLF ++ CRLF ++ form_text form.

(** Parts that hold no delimiter; a header has a name and a value. *)
Definition word_ok (s : bytes) : bool := free (lit " " ++ [CR]) s.
Definition header_ok (kv : bytes * bytes) : bool :=
  free (lit ":" ++ [CR]) kv.1 && free (lit ":" ++ [CR]) kv.2 && bool_decide (kv.1 ≠ []) && bool_decide (kv.2 ≠ []).
Definition pair_ok (kv : bytes * bytes) : bool :=
  free (lit "&=" ++ [CR]) kv.1 && free (lit "&=" ++ [CR]) kv.2.
Definition request_ok (method url version : bytes) (headers form : list (bytes * bytes)) : bool :=
  word_ok method && word_ok url && free (lit "&") url && word_ok version
  && forallb header_ok headers && forallb pair_ok form.

(** Maps filled in the order of the text. *)
Definition fill (kvs : list (bytes * bytes)) : params := foldl (fun m kv => <[kv.1 := kv.2]> m) ∅ kvs.

(** The blank line is found behind the head. *)
Lemma find_blank_line ls : forall l body, Forall (piece_ok false CR) (l :: ls) ->
  find_sub (CRLF ++ CRLF) ((l ++ String.join_tail CRLF ls) ++ CRLF ++ CRLF ++ body)
  = Some (length (l ++ String.join_tail CRLF ls)).
Proof.
  induction ls as [|q ls IH]; intros l body [[Hl _] Hls]%Forall_cons; change (CRLF ++ CRLF) with (CR :: [z2b 10; CR; z2b 10]).
  - rewrite app_nil_r. apply (find_sub_next CR [z2b 10; CR; z2b 10] l body Hl).
  - cbn [String.join_tail]. rewrite <-!(app_assoc l), find_sub_skip by done.
    pose proof (IH q body Hls) as E. apply Forall_cons in Hls as [[Hq Hne] _].
    destruct q as [|x q]; [by destruct Hne|]. apply not_elem_of_cons in Hq as [Hx _].
    rewrite <-!app_assoc in E |- *. change (CRLF ++ CRLF) with (CR :: [z2b 10; CR; z2b 10]) in E.
    assert (forall s, find_sub (CR :: [z2b 10; CR; z2b 10]) (CRLF ++ (x :: q) ++ s)
            = (fun n => S (S n)) <$> find_sub (CR :: [z2b 10; CR; z2b 10]) ((x :: q) ++ s)) as Estep.
    { intros s. cbn [app CRLF]. rewrite find_sub_cons by (intros [k Ek]; by injection Ek as ->).
      rewrite find_sub_cons by (by intros [k Ek]). by destruct (find_sub _ (x :: q ++ s)). }
    rewrite <-?(app_assoc (x :: q)), Estep, E. simpl. f_equal. rewrite !length_app. simpl. rewrite !length_app. lia.
Qed.

Lemma split_two head body c d : find_sub (c :: d) (head ++ (c :: d) ++ body) = Some (length head) ->
  find_sub (c :: d) body = None ->
  String.Split (head ++ (c :: d) ++ body) (c :: d) true = Some [head; body].
Proof.
  intros Hh Hb. unfold String.Split. destruct (head ++ (c :: d) ++ body) as [|b0 l] eqn:E; [by destruct head|].
  cbn [String.split_loop]. rewrite Hh, orb_true_r, <-E.
  unfold substr. rewrite drop_0, take_app_length, app_assoc, drop_app_length' by (by rewrite length_app).
  destruct body as [|b body]; [done|].
  destruct (length ((head ++ c :: d) ++ b :: body)) as [|fuel] eqn:El; [rewrite !length_app in El; simpl in El; lia|]. cbn [String.split_loop]. rewrite Hb, orb_true_r.
  unfold substr. by rewrite drop_0.
Qed.

Lemma split_Some s delim keep ps r : String.Split s delim keep = Some ps -> split s delim keep r = (Ret ps, r).
Proof. unfold split. by intros ->. Qed.

Section parts.
Variables (method url version : bytes) (headers form : list (bytes * bytes)).
Hypothesis Hok : request_ok method url version headers form = true.

Lemma request_ok_parts :
  word_ok method = true /\ word_ok url = true /\ free (lit "&") url = true /\ word_ok version = true
  /\ Forall (fun kv => header_ok kv = true) headers /\ Forall (fun kv => pair_ok kv = true) form.
Proof.
  pose proof Hok as H. unfold request_ok in H. rewrite !andb_true_iff, !forallb_forall in H.
  rewrite !Forall_forall. setoid_rewrite list_elem_of_In. tauto.
Qed.

Lemma header_line_cons kv : header_line kv = kv.1 ++ lit ":" ++ kv.2.
Proof. unfold header_line. rewrite SplitLemmas.Join_intercalate by done. cbn [String.join_tail]. by rewrite app_nil_r. Qed.

Lemma pair_text_cons kv : pair_text kv = kv.1 ++ lit "=" ++ kv.2.
Proof. unfold pair_text. rewrite SplitLemmas.Join_intercalate by done. cbn [String.join_tail]. by rewrite app_nil_r. Qed.

Lemma request_line_cons : request_line method url version = method ++ lit " " ++ url ++ lit " " ++ version.
Proof. unfold request_line. rewrite SplitLemmas.Join_intercalate by done. cbn [String.join_tail]. by rewrite app_nil_r. Qed.

Lemma head_lines_ok : Forall (piece_ok false CR) (request_line method url version :: map header_line headers).
Proof.
  destruct request_ok_parts as (Hm & Hu & _ & Hv & Hh & _). constructor.
  - split; [|intros _; rewrite request_line_cons; by destruct method].
    rewrite request_line_cons, !not_elem_of_app.
    split_and!; try (eapply free_spec; [eassumption|set_solver]);
      apply (bool_decide_unpack _); vm_compute; exact I.
  - apply Forall_fmap. eapply Forall_impl; [exact Hh|]. intros [k v] Hkv. unfold header_ok in Hkv. cbn [fst snd] in Hkv.
    rewrite !andb_true_iff in Hkv. destruct Hkv as [[[Hk Hv'] _] _].
    split; [|intros _; unfold compose; rewrite header_line_cons; by destruct k].
    unfold compose. rewrite header_line_cons, !not_elem_of_app. cbn [fst snd].
    split_and!; try (eapply free_spec; [eassumption|set_solver]);
      apply (bool_decide_unpack _); vm_compute; exact I.
Qed.

Lemma form_free : CR ∉ form_text form.
Proof.
  destruct request_ok_parts as (_ & _ & _ & _ & _ & Hf). unfold form_text.
  assert (forall ps, Forall (fun p => CR ∉ p) ps -> CR ∉ String.join_tail (lit "&") ps) as Htail.
  { induction 1 as [|p ps Hp _ IH]; cbn [String.join_tail]; [by apply not_elem_of_nil|].
    rewrite !not_elem_of_app. split_and!; [|done..]. apply (bool_decide_unpack _). vm_compute. exact I. }
  assert (Forall (fun p => CR ∉ p) (map pair_text form)) as Hall.
  { apply Forall_fmap. eapply Forall_impl; [exact Hf|]. intros [k v] Hkv. unfold pair_ok in Hkv.
    cbn [fst snd] in Hkv. apply andb_true_iff in Hkv as [Hk Hv]. unfold compose.
    rewrite pair_text_cons, !not_elem_of_app. cbn [fst snd].
    split_and!; try (eapply free_spec; [eassumption|set_solver]);
      apply (bool_decide_unpack _); vm_compute; exact I. }
  destruct (map pair_text form) as [|p ps]; [by apply not_elem_of_nil|].
  rewrite SplitLemmas.Join_intercalate by done. apply Forall_cons in Hall as [Hp Hps].
  rewrite not_elem_of_app. by split; [|apply Htail].
Qed.

Lemma split_request r :
  split (request_text method url version headers form) (CRLF ++ CRLF) true r
  = (Ret [head_text method url version headers; form_text form], r).
Proof.
  apply split_Some. unfold request_text, head_text. rewrite SplitLemmas.Join_intercalate by done.
  rewrite (app_assoc CRLF CRLF). apply (split_two _ _ CR [z2b 10; CR; z2b 10]).
  - pose proof (find_blank_line (map header_line headers) (request_line method url version) (form_text form)
      head_lines_ok) as E. exact E.
  - apply find_sub_absent, form_free.
Qed.

Lemma split_head r : split (head_text method url version headers) CRLF false r
  = (Ret (request_line method url version :: map header_line headers), r).
Proof.
  apply split_Some. unfold head_text. apply (Split_of_Join false CRLF CR [z2b 10]); [done|apply head_lines_ok|].
  rewrite SplitLemmas.Join_intercalate, request_line_cons by done. by destruct method.
Qed.

Lemma ParseLine_ok r : ParseLine (request_line method url version) r
  = (Ret tt, mkRequest method url url version (body_ r) (headers_ r) (url_params_ r) (body_params_ r)).
Proof.
  destruct request_ok_parts as (Hm & Hu & Hamp & Hv & _ & _). unfold ParseLine.
  assert (forall s, word_ok s = true -> piece_ok true (z2b 32) s) as Hw.
  { intros s Hs. split; [|done]. eapply free_spec; [exact Hs|]. by left. }
  rewrite (bind_Ret _ _ _ [method; url; version] r).
  2: { apply split_Some, (Split_of_Join true (lit " ") (z2b 32) []); [done|by repeat constructor; apply Hw|].
       fold (request_line method url version). rewrite request_line_cons. by destruct method. }
  unfold item. cbn [lookup list_lookup]. autorewrite with monad.
  assert (String.Split url (lit "&") true = Some (match url with [] => [] | _ => [url] end)) as Es.
  { destruct url as [|b u]; [done|]. rewrite <-(app_nil_r (b :: u)) at 1.
    apply (Split_pieces true (z2b 38) [] (b :: u) []); [|done].
    repeat constructor; [|done]. eapply free_spec; [exact Hamp|by left]. }
  rewrite (bind_Ret _ _ _ _ _ (split_Some _ _ _ _ _ Es)). by destruct url.
Qed.

Lemma ParseHeaders_ok hs : Forall (fun kv => header_ok kv = true) hs -> forall r,
  ParseHeaders (map header_line hs) r
  = (Ret tt, mkRequest (method_ r) (url_ r) (uri_ r) (http_version_ r) (body_ r)
               (foldl (fun m kv => <[kv.1 := kv.2]> m) (headers_ r) hs) (url_params_ r) (body_params_ r)).
Proof.
  induction 1 as [|[k v] hs Hkv _ IH]; intros r; [by destruct r|]. cbn [map ParseHeaders].
  unfold header_ok in Hkv. cbn [fst snd] in Hkv. rewrite !andb_true_iff, !bool_decide_eq_true in Hkv.
  destruct Hkv as [[[Hk Hv] Hk0] Hv0].
  assert (header_line (k, v) ≠ []) as Hne by (rewrite header_line_cons; by destruct k).
  rewrite bool_decide_true by done.
  assert (String.Contains (header_line (k, v)) (lit ":") = true) as ->
    by (apply Contains_spec; exists k, v; apply header_line_cons).
  cbn [andb]. rewrite bind_assoc, (bind_Ret _ _ _ [k; v] r).
  2: { apply split_Some, (Split_of_Join false (lit ":") (z2b 58) []); [done| |done].
       repeat constructor; first [done|eapply free_spec; [eassumption|by left]]. }
  autorewrite with monad. rewrite IH. done.
Qed.

Lemma parse_params_ok f kvs : Forall (fun kv => pair_ok kv = true) kvs -> forall r,
  parse_params f (map pair_text kvs) r = (Ret tt, foldl (fun r kv => f kv.1 kv.2 r) r kvs).
Proof.
  induction 1 as [|[k v] kvs Hkv _ IH]; intros r; [done|]. cbn [map parse_params].
  unfold pair_ok in Hkv. cbn [fst snd] in Hkv. apply andb_true_iff in Hkv as [Hk Hv].
  rewrite (bind_Ret _ _ _ [k; v] r).
  2: { apply split_Some, (Split_of_Join true (lit "=") (z2b 61) []); [done| |].
       - repeat constructor; first [done|eapply free_spec; [eassumption|by right; left]].
       - change (pair_text (k, v) ≠ []). rewrite pair_text_cons. by destruct k. }
  autorewrite with monad. apply IH.
Qed.

Lemma ParseBody_ok r : ParseBody (form_text form) r
  = (Ret tt, mkRequest (method_ r) (url_ r) (uri_ r) (http_version_ r) (body_ r) (headers_ r) (url_params_ r)
               (foldl (fun m kv => <[kv.1 := kv.2]> m) (body_params_ r) form)).
Proof.
  destruct request_ok_parts as (_ & _ & _ & _ & _ & Hf). unfold ParseBody.
  rewrite (bind_Ret _ _ _ (map pair_text form) r).
  2: { apply split_Some. unfold form_text. destruct form as [|kv kvs]; [done|].
       cbn [map]. apply (Split_of_Join true (lit "&") (z2b 38) []); [done| |].
       - change (pair_text kv :: map pair_text kvs) with (map pair_text (kv :: kvs)).
         apply Forall_fmap. eapply Forall_impl; [exact Hf|]. intros [k v] Hkv. unfold pair_ok in Hkv.
         cbn [fst snd] in Hkv. apply andb_true_iff in Hkv as [Hk Hv]. split; [|done]. unfold compose.
         rewrite pair_text_cons, !not_elem_of_app. cbn [fst snd].
         split_and!; try (eapply free_spec; [eassumption|by left]);
           apply (bool_decide_unpack _); vm_compute; exact I.
       - rewrite SplitLemmas.Join_intercalate, pair_text_cons by done. by destruct kv as [[] ?]. }
  rewrite parse_params_ok by done. f_equal. clear -form. revert r.
  induction form as [|[k v] kvs IH]; intros r; [by destruct r|]. simpl. by rewrite IH.
Qed.

Lemma Parse_request_text :
  HttpRequest_Parse (request_text method url version headers form) no_request
  = (Ret tt, mkRequest method url url version (form_text form) (fill headers) ∅ (fill form)).
Proof.
  destruct request_ok_parts as (_ & _ & _ & _ & Hh & _). unfold HttpRequest_Parse.
  mstep (split_request no_request). unfold item. cbn [lookup list_lookup]. autorewrite with monad.
  set (r1 := mkRequest [] [] [] [] (form_text form) ∅ ∅ ∅).
  rewrite (bind_Ret _ _ _ tt r1) by (unfold when; by destruct (form_text form)).
  cbn [lookup list_lookup]. autorewrite with monad.
  mstep (split_head r1). cbn [lookup list_lookup]. autorewrite with monad. mstep (ParseLine_ok r1).
  simpl drop. mstep (ParseHeaders_ok headers Hh (mkRequest method url url version (form_text form) ∅ ∅ ∅)).
  by rewrite ParseBody_ok.
Qed.
End parts.

(** No blank in a header or a parameter, where a comment says that blanks are removed and
    the code keeps them, and no question mark in the URL, where a comment has the path end
    and the code goes on (Examples.request_as_sent). *)
Definition plain_request (method url version : bytes) (headers form : list (bytes * bytes)) : bool :=
  request_ok method url version headers form && free (lit "?") url
  && forallb (fun kv => free (lit " ") kv.1 && free (lit " ") kv.2) (headers ++ form).


(** A request whose blank line has not arrived is indexed past its only piece. *)
Lemma http_no_blank_line data r : String.Contains data (CRLF ++ CRLF) = false ->
  HttpRequest_Parse data r = (Undef OutOfBounds, r).
Proof.
  intros Hc. assert (exists ps, String.Split data (CRLF ++ CRLF) true = Some ps /\ length ps <= 1) as (ps & E & Hl).
  { unfold String.Split. destruct data as [|b data]; [by exists []; split; [|simpl; lia]|].
    cbn [String.split_loop]. destruct (find_sub (CRLF ++ CRLF) (b :: data)) as [i|] eqn:Ef.
    - apply find_sub_Some in Ef as [Ef _]. exfalso. apply not_true_iff_false in Hc. apply Hc.
      apply Contains_spec. eauto.
    - eexists. split; [done|]. simpl. lia. }
  unfold HttpRequest_Parse. mstep (split_Some _ _ _ _ r E). unfold item.
  by rewrite (lookup_ge_None_2 ps 1) by lia.
Qed.

(** ** A connection the peer has closed *)

Section closed.
Context (entries : params -> list (bytes * bytes)) (handlers : Router).

Definition at_end (s : Socket) : Prop := inbox s = [] /\ events s = [].

Lemma received_at_end s : at_end (conn s) -> received s = (Ret [], s).
Proof.
  intros [Hi He]. unfold received. rewrite (bind_Ret _ _ _ [] s).
  - by rewrite decide_True by (simpl; unfold MAX_REQUEST_SIZE; lia).
  - unfold on_socket, zoom. assert (AsyncRead MAX_REQUEST_SIZE (conn s) = (Ret [], conn s)) as ->; [|by destruct s].
    generalize MAX_REQUEST_SIZE. intros n. destruct s as [[ib st cl es] t]. simpl in Hi, He. subst.
    unfold AsyncRead, io_fuel, ReadInnerAwaiter, mbind, M_bind, get. cbn [async_read_loop].
    unfold try_read, next_event, mbind, M_bind, get, put, mret, M_ret. simpl.
    destruct cl; simpl; by rewrite ?take_nil, ?drop_nil.
Qed.

Lemma OnRequest_at_end clock : forall s added n, at_end (conn s) -> manager_ok added n (timers s) ->
  Forall (fun now => now + 1000 * 1000000 < 2 ^ 63)%Z clock -> (Z.of_nat (n + length clock) < 2 ^ 31)%Z ->
  exists s', OnRequest_http entries handlers clock s = (Ret false, s')
    /\ length (timers_ (timers s')) = length (timers_ (timers s)) + length clock.
Proof.
  induction clock as [|now clock IH]; intros s added n He Hok Hc Hn.
  { exists s. split; [done|]. simpl. lia. }
  apply Forall_cons in Hc as [Hnow Hc]. simpl in Hn. cbn [OnRequest_http].
  destruct (AddTimer_ok added n (timers s) now 1000 tt Hok) as (t' & E & Hok' & Hp & _); [lia|done|].
  assert (with_timers (AddTimer now 1000 tt) s = (Ret (Z.of_nat n), mkServer (conn s) t')) as Ea.
  { unfold with_timers. by rewrite (zoom_Ret _ _ _ _ _ _ E). }
  rewrite (bind_Ret _ _ _ _ _ Ea), (bind_Ret _ _ _ _ _ (received_at_end (mkServer (conn s) t') He)).
  destruct (IH (mkServer (conn s) t') (added ++ [tt]) (S n)) as (s' & E' & Hl); [done..|simpl; lia|].
  exists s'. split; [done|]. rewrite Hl. simpl. rewrite Hp. simpl. lia.
Qed.
End closed.

(** Once the peer has closed the connection and its bytes are used up, OnRequest
    never ends: after any number of turns it is still running, and every turn has
    added a timer that nothing removes. *)
Lemma http_closed_connection_spins entries handlers clock s added n :
  at_end (conn s) -> manager_ok added n (timers s) ->
  Forall (fun now => now + 1000 * 1000000 < 2 ^ 63)%Z clock -> (Z.of_nat (n + length clock) < 2 ^ 31)%Z ->
  exists s', OnRequest_http entries handlers clock s = (Ret false, s')
    /\ length (timers_ (timers s')) = length (timers_ (timers s)) + length clock.
Proof. apply OnRequest_at_end. Qed.

Module Examples.

Definition get_hello : bytes :=
  request_text (lit "GET") (lit "/hello/") (lit "HTTP/1.1")
    [(lit "Accept", lit "text/html"); (lit "Connection", lit "close")] [].


(** Headers and query strings as clients write them: the blank behind the colon stays
    in the value, a value with a colon is dropped, and what follows a question mark
    stays in the path. *)
Example request_as_sent :
  let data := lit "GET /foo?name=pgj HTTP/1.1" ++ CRLF ++ lit "Host: localhost:8080" ++ CRLF
    ++ lit "Connection: close" ++ CRLF ++ CRLF in
  let r := (HttpRequest_Parse data no_request).2 in
  headers_ r !! lit "Host" = None /\ headers_ r !! lit "Connection" = Some (lit " close")
  /\ uri_ r = lit "/foo?name=pgj" /\ url_params_ r = ∅.
Proof. vm_compute. split_and!; reflexivity. Qed.

Definition hello : M HttpContext Empty_set unit := String_ map_to_list 200 (lit "hello {}") [lit "world"].
Definition routes : Router := GET (lit "/hello/") hello ∅.

Definition server (input : bytes) : Server := mkServer (mkSocket input [] false []) fresh_manager.

(** A request is answered, its timer removed and the connection ended; another path is
    answered with 404. *)
Example hello_world :
  OnRequest_http map_to_list routes [0; 0]%Z (server get_hello)
  = (Ret true, mkServer (mkSocket [] (lit "HTTP/1.1 200 OK" ++ CRLF ++ lit "Content-Type:text/plain" ++ CRLF ++ CRLF
                           ++ lit "hello world" ++ CRLF) false []) (mkManager [] 1 false)).
Proof. vm_compute. reflexivity. Qed.

Example no_route :
  sent (conn (OnRequest_http map_to_list routes [0]%Z
    (server (request_text (lit "GET") (lit "/bye/") (lit "HTTP/1.1") [] []))).2)
  = lit "HTTP/1.1 404 Not Found" ++ CRLF ++ lit "Content-Type:text/html" ++ CRLF ++ CRLF
    ++ lit "404 Not Found: GET not at /bye/" ++ [z2b 10] ++ CRLF.
Proof. vm_compute. reflexivity. Qed.

(** Half a request is undefined behaviour. *)
Example half_a_request :
  (OnRequest_http map_to_list routes [0]%Z (server (lit "GET /hello/ HT"))).1 = Undef OutOfBounds.
Proof. vm_compute. reflexivity. Qed.

Lemma fresh_ok : manager_ok (Task := unit) [] 0 fresh_manager.
Proof.
  split_and!; [intros i c _ Hc; simpl in Hc; lia|done|done|constructor|]. by intros t ?%not_elem_of_nil.
Qed.

Lemma http_closed_connection_spins_witness :
  exists s', OnRequest_http map_to_list routes [0; 1; 2]%Z (server []) = (Ret false, s')
    /\ length (timers_ (timers s')) = 3.
Proof.
  apply (http_closed_connection_spins map_to_list routes [0; 1; 2]%Z (server []) [] 0);
    [by split|apply fresh_ok|by repeat constructor|simpl; lia].
Defined.
End Examples.
