(* ===== verification/Arena.v ===== *)
(** * The memory arena (src/bitdb/utils/arena.{h,cpp})

    Memory is addresses; a block is its first address and its size.  [new char[n]] is a
    parameter: it throws std::bad_alloc or gives a block that overlaps no other and is
    aligned as [operator new] promises. *)

From S2P Require Import Prelude.

Abbreviation region := (Z * Z)%type.

(** One region ends before the other begins; one lies within the other. *)
Definition apart (a b : region) : Prop := (a.1 + a.2 <= b.1 \/ b.1 + b.2 <= a.1)%Z.
Definition inside (a b : region) : Prop := (b.1 <= a.1 /\ a.1 + a.2 <= b.1 + b.2)%Z.

Class Allocator := {
  new_char : list region -> Z -> option Z;
  new_char_apart : forall blocks n p, new_char blocks n = Some p -> Forall (apart (p, n)) blocks;
  new_char_aligned : forall blocks n p, new_char blocks n = Some p -> (p mod 16 = 0)%Z;
  new_char_range : forall blocks n p, new_char blocks n = Some p -> (0 < p /\ p + n < 2 ^ 64)%Z
}.

Definition K_BLOCK_SIZE : Z := 4096.

Record Arena := mkArena {
  alloc_ptr_ : Z;
  alloc_bytes_remaining_ : Z;
  blocks_ : list region;
  memory_usage_ : Z
}.

Definition Arena_new : Arena := mkArena 0 0 [] 0.

Inductive bad_alloc := BadAlloc.
Abbreviation ArenaM := (M Arena bad_alloc).

Section arena.
Context `{Allocator}.

Definition AllocateNewBlock (block_bytes : Z) : ArenaM Z :=
  s ← get;
  match new_char (blocks_ s) block_bytes with
  | None => throw BadAlloc
  | Some new_block =>
      put (mkArena (alloc_ptr_ s) (alloc_bytes_remaining_ s) (blocks_ s ++ [(new_block, block_bytes)])
             (u64 (memory_usage_ s + (block_bytes + 8))));;
      mret new_block
  end.

(** The first [needed] of the remaining bytes are given out. *)
Definition give_out (needed : Z) : ArenaM unit :=
  modify (fun s => mkArena (alloc_ptr_ s + needed)%Z (alloc_bytes_remaining_ s - needed)%Z (blocks_ s)
                     (memory_usage_ s)).

Definition AllocateFallback (n : Z) : ArenaM Z :=
  if decide (K_BLOCK_SIZE / 4 < n)%Z then AllocateNewBlock n else
  p ← AllocateNewBlock K_BLOCK_SIZE;
  modify (fun s => mkArena p K_BLOCK_SIZE (blocks_ s) (memory_usage_ s));;
  s ← get;
  give_out n;;
  mret (alloc_ptr_ s).

Definition Allocate (n : Z) : ArenaM Z :=
  if decide (0 < n)%Z then
    s ← get;
    if decide (n <= alloc_bytes_remaining_ s)%Z
    then give_out n;; mret (alloc_ptr_ s)
    else AllocateFallback n
  else undef AssertFailed.

Definition align : Z := 8.

Definition AllocateAligned (n : Z) : ArenaM Z :=
  s ← get;
  let current_mod := Z.land (alloc_ptr_ s) (align - 1) in
  let slop := if decide (current_mod = 0)%Z then 0%Z else (align - current_mod)%Z in
  let needed := u64 (n + slop) in
  result ← (if decide (needed <= alloc_bytes_remaining_ s)%Z
            then give_out needed;; mret (alloc_ptr_ s + slop)%Z
            else AllocateFallback needed);
  if decide (Z.land result (align - 1) = 0)%Z then mret result else undef AssertFailed.

Definition MemoryUsage (s : Arena) : Z := memory_usage_ s.

(** A sequence of requests, with the regions they were given. *)
Inductive arena_request := Plain (n : Z) | Aligned (n : Z).
Definition bytes_of (r : arena_request) : Z := match r with Plain n | Aligned n => n end.
Definition allocate (r : arena_request) : ArenaM Z :=
  match r with Plain n => Allocate n | Aligned n => AllocateAligned n end.

Fixpoint allocate_all (rs : list arena_request) : ArenaM (list region) :=
  match rs with
  | [] => mret []
  | r :: rs =>
      p ← allocate r;
      ps ← allocate_all rs;
      mret ((p, bytes_of r) :: ps)
  end.

(** ** The invariant *)

(** The bytes not given out yet. *)
Definition spare (s : Arena) : region := (alloc_ptr_ s, alloc_bytes_remaining_ s).

Definition usage (blocks : list region) : Z := foldr (fun b u => b.2 + 8 + u)%Z 0%Z blocks.

Record arena_ok (live : list region) (s : Arena) : Prop := {
  ok_spare : spare s = (0, 0)%Z \/ exists b, b ∈ blocks_ s /\ inside (spare s) b;
  ok_size : (0 <= alloc_bytes_remaining_ s)%Z;
  ok_blocks : Forall (fun b => 0 < b.1 /\ 0 <= b.2 /\ b.1 + b.2 < 2 ^ 64)%Z (blocks_ s);
  ok_live : Forall (fun a => 0 < a.2 /\ (exists b, b ∈ blocks_ s /\ inside a b) /\ apart a (spare s))%Z live;
  ok_usage : memory_usage_ s = u64 (usage (blocks_ s))
}.

(** What an allocation adds: a region of its own. *)
Definition allocated (live : list region) (n : Z) (p : Z) (s : Arena) : Prop :=
  arena_ok ((p, n) :: live) s /\ Forall (apart (p, n)) live.

Lemma apart_inside a b c d : inside a c -> inside b d -> apart c d -> apart a b.
Proof. unfold inside, apart. lia. Qed.

Lemma usage_app l b : usage (l ++ [b]) = (usage l + (b.2 + 8))%Z.
Proof. induction l as [|x l IH]; simpl; [|rewrite IH]; lia. Qed.

(** Giving out [n] of the spare bytes behind [slop] of them. *)
Lemma give_out_ok live s n slop : arena_ok live s -> (0 < n)%Z -> (0 <= slop)%Z ->
  (n + slop <= alloc_bytes_remaining_ s)%Z ->
  allocated live n (alloc_ptr_ s + slop) (give_out (n + slop) s).2.
Proof.
  intros [Hs H0 Hb Hl Hu] Hn Hslop Hle. unfold allocated, give_out, modify. simpl.
  assert (exists b, b ∈ blocks_ s /\ inside (spare s) b) as (b & Hin & Hsp)
    by (destruct Hs as [Hs|]; [unfold spare in Hs; injection Hs as ? ?; lia|done]).
  split; [split; simpl|].
  - right. exists b. unfold inside, spare in *. simpl in *. split; [done|lia].
  - lia.
  - done.
  - constructor.
    + split_and!; [simpl; lia|exists b; unfold inside, spare in *; simpl in *; split; [done|lia]
                  |unfold apart, spare; simpl; lia].
    + eapply Forall_impl; [exact Hl|]. intros a (? & ? & Ha). split_and!; [done..|].
      unfold apart, spare in *. simpl in *. lia.
  - done.
  - eapply Forall_impl; [exact Hl|]. intros a (? & ? & Ha). unfold apart, spare in *. simpl in *. lia.
Qed.

(** An answer that satisfies [Q], or std::bad_alloc. *)
Definition gives {A} (m : ArenaM A) (s : Arena) (Q : A -> Arena -> Prop) : Prop :=
  match m s with (Ret a, s') => Q a s' | (Throw BadAlloc, _) => True | _ => False end.

Lemma gives_bind {A B} (m : ArenaM A) (k : A -> ArenaM B) s Q R :
  gives m s Q -> (forall a s', Q a s' -> gives (k a) s' R) -> gives (x ← m; k x) s R.
Proof. unfold gives, mbind, M_bind. destruct (m s) as [[a|[]|u] s']; naive_solver. Qed.

(** A region within a block apart from all others is apart from what lives there. *)
Lemma fresh_apart live s b a : arena_ok live s -> Forall (apart b) (blocks_ s) -> (0 < b.1)%Z -> inside a b ->
  Forall (apart a) live /\ apart a (spare s).
Proof.
  intros [Hs H0 Hb Hl Hu] Hap Hpos Ha. rewrite Forall_forall in Hap. split.
  - eapply Forall_impl; [exact Hl|]. intros c (_ & (d & Hd & Hcd) & _).
    eapply apart_inside; [exact Ha|exact Hcd|by apply Hap].
  - destruct Hs as [->|(d & Hd & Hsd)].
    + right. unfold inside in Ha. simpl. lia.
    + eapply apart_inside; [exact Ha|exact Hsd|by apply Hap].
Qed.

Lemma AllocateNewBlock_ok live s n : arena_ok live s -> (0 <= n)%Z ->
  gives (AllocateNewBlock n) s (fun p s' =>
    (p mod 16 = 0)%Z /\ (0 < p)%Z /\ Forall (apart (p, n)) (blocks_ s)
    /\ blocks_ s' = blocks_ s ++ [(p, n)] /\ spare s' = spare s /\ arena_ok live s').
Proof.
  intros Hok Hn. unfold gives, AllocateNewBlock. autorewrite with monad.
  destruct (new_char (blocks_ s) n) as [p|] eqn:E; [|done].
  pose proof (new_char_apart _ _ _ E) as Hap. pose proof (new_char_aligned _ _ _ E) as Hal.
  pose proof (new_char_range _ _ _ E) as [Hp Hr]. simpl. split_and!; try done.
  destruct Hok as [Hs H0 Hb Hl Hu]. split; simpl.
  - destruct Hs as [Hs|(b & Hb' & Hi)]; [by left|right]. exists b. split; [set_solver|done].
  - done.
  - apply Forall_app. split; [done|]. by repeat constructor.
  - eapply Forall_impl; [exact Hl|]. intros a (Ha & (b & Hb' & Hi) & Hap'). split_and!; [done| |done].
    exists b. split; [set_solver|done].
  - rewrite Hu, usage_app. unfold u64. simpl. rewrite Zplus_mod_idemp_l. done.
Qed.

Lemma AllocateFallback_ok live s n needed : arena_ok live s -> (0 < n <= needed)%Z ->
  gives (AllocateFallback needed) s (fun p s' => (p mod 16 = 0)%Z /\ allocated live n p s').
Proof.
  intros Hok Hn. unfold AllocateFallback. case_decide as Hbig.
  - pose proof (AllocateNewBlock_ok live s needed Hok ltac:(lia)) as Hg.
    unfold gives in *. destruct (AllocateNewBlock needed s) as [[p|[]|u] s']; [|done..].
    destruct Hg as (Hal & Hp & Hap & Hbs & Hsp & Hok'). split; [done|].
    assert (inside (p, n) (p, needed)) as Hi by (unfold inside; simpl; lia).
    destruct (fresh_apart live s (p, needed) (p, n) Hok Hap Hp Hi) as [Hl Hs]. split; [|done].
    destruct Hok' as [Hs' H0 Hb Hl' Hu]. split; try done. constructor; [|done].
    split_and!; [simpl; lia| |by rewrite Hsp]. exists (p, needed). rewrite Hbs. split; [set_solver|done].
  - eapply gives_bind; [apply AllocateNewBlock_ok; [exact Hok|done]|].
    intros p s' (Hal & Hp & Hap & Hbs & Hsp & Hok').
    unfold gives, give_out. autorewrite with monad. simpl. split; [done|].
    change (K_BLOCK_SIZE / 4)%Z with 1024%Z in Hbig. unfold K_BLOCK_SIZE in *.
    assert (forall a, inside a (p, 4096%Z) -> Forall (apart a) live) as Hfar.
    { intros a Ha. by destruct (fresh_apart live s (p, 4096%Z) a Hok Hap Hp Ha). }
    destruct Hok' as [Hs' H0 Hb Hl' Hu].
    split; [split; simpl|apply Hfar; unfold inside; simpl; lia]; try done; try lia.
    + right. exists (p, 4096%Z). rewrite Hbs. split; [set_solver|]. unfold inside, spare. simpl. lia.
    + constructor.
      * split_and!; [simpl; lia| |unfold apart, spare; simpl; lia]. exists (p, 4096%Z).
        rewrite Hbs. split; [set_solver|]. unfold inside. simpl. lia.
      * apply Forall_forall. intros a Ha. rewrite Forall_forall in Hl'. destruct (Hl' a Ha) as (Hpos & Hin & _).
        split_and!; [done..|].
        assert (inside ((p + needed)%Z, (4096 - needed)%Z) (p, 4096%Z)) as Hi by (unfold inside; simpl; lia).
        pose proof (Hfar _ Hi) as Hf. rewrite Forall_forall in Hf. specialize (Hf a Ha).
        unfold apart, spare in *. simpl in *. lia.
Qed.

Lemma gives_impl {A} (m : ArenaM A) s (Q R : A -> Arena -> Prop) :
  gives m s Q -> (forall a s', Q a s' -> R a s') -> gives m s R.
Proof. unfold gives. destruct (m s) as [[a|[]|u] s']; naive_solver. Qed.

Lemma Allocate_ok live s n : arena_ok live s -> (0 < n)%Z -> gives (Allocate n) s (allocated live n).
Proof.
  intros Hok Hn. unfold Allocate. rewrite decide_True by done.
  unfold gives at 1. autorewrite with monad. case_decide as Hle.
  - pose proof (give_out_ok live s n 0 Hok Hn) as Ht. rewrite !Z.add_0_r in Ht. apply Ht; lia.
  - eapply (gives_impl (AllocateFallback n)); [apply (AllocateFallback_ok live s n); [done|lia]|]. by intros a s' [_ ?].
Qed.

Lemma land_align p : Z.land p (align - 1) = (p mod 8)%Z.
Proof. apply (Z.land_ones p 3). lia. Qed.

Definition slop_of (p : Z) : Z := if decide (p mod 8 = 0)%Z then 0%Z else (8 - p mod 8)%Z.

Lemma slop_of_ok p : (0 <= slop_of p < 8)%Z /\ ((p + slop_of p) mod 8 = 0)%Z.
Proof.
  pose proof (Z.mod_pos_bound p 8 ltac:(lia)). unfold slop_of. case_decide as E; split; try lia.
  - by rewrite Z.add_0_r.
  - rewrite (Z.div_mod p 8) at 1 by lia.
    replace (8 * (p / 8) + p mod 8 + (8 - p mod 8))%Z with ((p / 8 + 1) * 8)%Z by lia. apply Z.mod_mul. lia.
Qed.

Lemma mod16_mod8 p : (p mod 16 = 0)%Z -> (p mod 8 = 0)%Z.
Proof.
  intros Hp. rewrite (Z.div_mod p 16), Hp, Z.add_0_r by lia.
  replace (16 * (p / 16))%Z with (p / 16 * 2 * 8)%Z by lia. apply Z.mod_mul. lia.
Qed.

Lemma AllocateAligned_ok live s n : arena_ok live s -> (0 < n < 2 ^ 63)%Z ->
  gives (AllocateAligned n) s (fun p s' => (p mod 8 = 0)%Z /\ allocated live n p s').
Proof.
  intros Hok Hn. pose proof (slop_of_ok (alloc_ptr_ s)) as [Hsl Hal].
  unfold AllocateAligned. unfold gives at 1. autorewrite with monad. rewrite land_align.
  change (if decide (alloc_ptr_ s mod 8 = 0)%Z then 0%Z else (align - alloc_ptr_ s mod 8)%Z)
    with (slop_of (alloc_ptr_ s)).
  assert (u64 (n + slop_of (alloc_ptr_ s)) = n + slop_of (alloc_ptr_ s))%Z as ->
    by (unfold u64; rewrite Z.mod_small; lia).
  set (m := if decide _ then _ else _).
  assert (gives m s (fun p s' => (p mod 8 = 0)%Z /\ allocated live n p s')) as Hm.
  { unfold m. case_decide as Hle.
    - split; [done|]. apply give_out_ok; [done|lia..].
    - eapply gives_impl; [apply (AllocateFallback_ok live s n); [done|lia]|].
      intros p s' [Hp Hal']. split; [by apply mod16_mod8|done]. }
  apply (gives_bind m _ s _ _ Hm). intros p s' [Hp Ha]. rewrite land_align, decide_True by done. by split.
Qed.

(** Regions that overlap no other of their list. *)
Definition pairwise_apart : list region -> Prop := ForallOrdPairs apart.

Lemma arena_ok_perm live live' s : live ≡ₚ live' -> arena_ok live s -> arena_ok live' s.
Proof. intros Hp [Hs H0 Hb Hl Hu]. split; try done. by rewrite <-Hp. Qed.

(** What request [r] was given. *)
Definition granted (r : arena_request) (a : region) : Prop :=
  a.2 = bytes_of r /\ (if r is Aligned _ then a.1 mod 8 = 0 else True)%Z.

Lemma allocate_ok live s r : arena_ok live s -> (0 < bytes_of r < 2 ^ 63)%Z ->
  gives (allocate r) s (fun p s' => granted r (p, bytes_of r) /\ allocated live (bytes_of r) p s').
Proof.
  intros Hok Hn. destruct r as [n|n]; simpl in *.
  - eapply gives_impl; [apply Allocate_ok; [done|lia]|]. intros p s' Ha. split; [by split|done].
  - eapply gives_impl; [by apply AllocateAligned_ok|]. intros p s' [Hp Ha]. split; [by split|done].
Qed.

Lemma allocate_all_ok rs : Forall (fun r => 0 < bytes_of r < 2 ^ 63)%Z rs -> forall live s, arena_ok live s ->
  gives (allocate_all rs) s (fun ps s' => Forall2 granted rs ps /\ pairwise_apart ps
    /\ Forall (fun a => Forall (apart a) live) ps /\ arena_ok (ps ++ live) s').
Proof.
  induction 1 as [|r rs Hr _ IH]; intros live s Hok; cbn [allocate_all].
  { by split_and!; [constructor|constructor|constructor|]. }
  eapply gives_bind; [by apply allocate_ok|]. intros p s1 (Hans & Hok1 & Hap).
  eapply gives_bind; [by apply IH|]. intros ps s2 (Hall & Hpw & Hfar & Hok2).
  unfold gives. simpl. split_and!.
  - by constructor.
  - constructor; [|done]. eapply Forall_impl; [exact Hfar|]. intros a Ha.
    apply Forall_cons in Ha as [Ha _]. unfold apart in *. lia.
  - constructor; [done|]. eapply Forall_impl; [exact Hfar|]. intros a Ha. by apply Forall_cons in Ha as [_ Ha].
  - eapply arena_ok_perm; [|exact Hok2]. symmetry. apply Permutation_middle.
Qed.
End arena.

(** C37: a sequence of requests to an arena gives each a region of the size asked for,
    inside a block the arena owns, apart from every other region, at a multiple of 8
    where alignment was asked for, and MemoryUsage is the bytes of the blocks and their
    pointers; the only failure is std::bad_alloc. *)
Theorem arena_allocations `{Allocator} rs : Forall (fun r => 0 < bytes_of r < 2 ^ 63)%Z rs ->
  gives (allocate_all rs) Arena_new (fun ps s =>
    Forall2 granted rs ps /\ pairwise_apart ps
    /\ Forall (fun a => exists b, b ∈ blocks_ s /\ inside a b) ps
    /\ MemoryUsage s = u64 (usage (blocks_ s))).
Proof.
  intros Hrs. eapply gives_impl; [apply (allocate_all_ok rs Hrs [] Arena_new)|].
  - by split; [left| |constructor|constructor|].
  - intros ps s (Hall & Hpw & _ & [_ _ _ Hl Hu]). rewrite app_nil_r in Hl. split_and!; [done..| |done].
    eapply Forall_impl; [exact Hl|]. by intros a (_ & ? & _).
Qed.

Module Examples.

(** An allocator that puts every block behind all earlier ones. *)
Definition bump (blocks : list region) (n : Z) : option Z :=
  let top := foldr (fun b m => Z.max (b.1 + b.2) m) 0%Z blocks in
  let p := (16 * (top / 16 + 1))%Z in
  if decide (p + n < 2 ^ 64)%Z then Some p else None.

Lemma bump_above blocks n p : bump blocks n = Some p ->
  (p + n < 2 ^ 64 /\ p mod 16 = 0 /\ 0 < p)%Z /\ Forall (fun b => b.1 + b.2 <= p)%Z blocks.
Proof.
  unfold bump. set (top := foldr _ _ _). case_decide as Hr; [|done]. intros [= <-].
  assert (0 <= top /\ Forall (fun b => b.1 + b.2 <= top) blocks)%Z as [H0 Hall].
  { unfold top. clear. induction blocks as [|b bs [IH0 IH]]; simpl; [split; [lia|constructor]|].
    split; [lia|]. constructor; [lia|]. eapply Forall_impl; [exact IH|]. intros c Hc. cbn beta in Hc. lia. }
  pose proof (Z.div_mod top 16 ltac:(lia)). pose proof (Z.mod_pos_bound top 16 ltac:(lia)).
  split; [split_and!; [done| |lia]|].
  - rewrite Z.mul_comm. apply Z.mod_mul. lia.
  - eapply Forall_impl; [exact Hall|]. intros c Hc. cbn beta in Hc. lia.
Qed.

#[local] Instance bump_allocator : Allocator.
Proof.
  refine {| new_char := bump |}; intros blocks n p Hp; apply bump_above in Hp as [(H1 & H2 & H3) Hall]; try done.
  eapply Forall_impl; [exact Hall|]. intros b Hb. by right.
Defined.

Definition requests : list arena_request := [Plain 5; Aligned 5; Plain 2000; Aligned 4090; Aligned 1000]%Z.

(** The fourth request does not fit in the first block and has one of its own. *)
Example five_requests :
  (allocate_all requests Arena_new).1
  = Ret [(16, 5); (24, 5); (29, 2000); (4128, 4090); (2032, 1000)]%Z.
Proof. vm_compute. reflexivity. Qed.

Lemma arena_allocations_witness :
  gives (allocate_all requests) Arena_new (fun ps s =>
    Forall2 granted requests ps /\ pairwise_apart ps
    /\ Forall (fun a => exists b, b ∈ blocks_ s /\ inside a b) ps
    /\ MemoryUsage s = u64 (usage (blocks_ s))).
Proof. apply (arena_allocations requests). by repeat constructor. Defined.
End Examples.
