(* ===== verification/Threads.v ===== *)
(** * Interleavings of threads

    Threads that share state are modelled as a transition system: an event names the
    thread that moves and what it does next, [step] gives the state after it, or nothing
    when the thread cannot move.  Everything between taking a mutex and releasing it is
    one event; a thread that waits on a condition variable sleeps until it is notified
    or wakes up by itself.  This file holds what such systems share. *)

From S2P Require Import Prelude.

Section exec.
Context {S E : Type} (step : E -> S -> option S).

(** The state after a sequence of events. *)
Fixpoint exec (es : list E) (s : S) : option S :=
  match es with
  | [] => Some s
  | e :: es => s ← step e s; exec es s
  end.

Lemma exec_app es1 es2 s : exec (es1 ++ es2) s = (exec es1 s ≫= exec es2).
Proof. revert s. induction es1 as [|e es IH]; intros s; [done|]. simpl. destruct (step e s); [apply IH|done]. Qed.

(** An invariant of every event is one of every run. *)
Lemma exec_inv (P : S -> Prop) : (forall e s s', P s -> step e s = Some s' -> P s') ->
  forall es s s', P s -> exec es s = Some s' -> P s'.
Proof.
  intros Hstep es. induction es as [|e es IH]; intros s s' Hs; simpl; [by intros [= <-]|].
  intros (s1 & E1 & E2)%bind_Some. eauto.
Qed.

(** Events that all decrease a measure cannot go on for ever. *)
Lemma exec_bounded (allowed : E -> Prop) (P : S -> Prop) (mu : S -> nat) :
  (forall e s s', P s -> step e s = Some s' -> P s') ->
  (forall e s s', P s -> allowed e -> step e s = Some s' -> mu s' < mu s) ->
  forall es s s', P s -> Forall allowed es -> exec es s = Some s' -> length es + mu s' <= mu s.
Proof.
  intros Hstep Hmu es. induction es as [|e es IH]; intros s s' Hs Hall; simpl; [intros [= <-]; lia|].
  apply Forall_cons in Hall as [He Hall]. intros (s1 & E1 & E2)%bind_Some.
  pose proof (Hmu _ _ _ Hs He E1). pose proof (IH _ _ (Hstep _ _ _ Hs E1) Hall E2). lia.
Qed.
End exec.

(** ** Sums over the threads *)

Section threads.
Context {A : Type}.

Lemma sum_insert (f : A -> nat) (l : list A) i x y : l !! i = Some x ->
  sum_list_with f (<[i := y]> l) + f x = sum_list_with f l + f y.
Proof.
  revert i. induction l as [|z l IH]; intros [|i] Hi; simplify_eq/=; [lia|]. pose proof (IH _ Hi). lia.
Qed.

Lemma sum_elem (f : A -> nat) l i x : l !! i = Some x -> f x <= sum_list_with f l.
Proof.
  revert i. induction l as [|z l IH]; intros [|i] Hi; simplify_eq/=; [lia|]. pose proof (IH _ Hi). lia.
Qed.

Lemma sum_zero (f : A -> nat) l : sum_list_with f l = 0 <-> Forall (fun x => f x = 0) l.
Proof.
  induction l as [|x l IH]; simpl; [by split|]. rewrite Forall_cons, <-IH. lia.
Qed.

Lemma sum_map_le (f : A -> nat) (g : A -> A) k l : (forall x, f (g x) <= f x + k) ->
  sum_list_with f (map g l) <= sum_list_with f l + k * length l.
Proof. intros Hg. induction l as [|x l IH]; simpl; [lia|]. pose proof (Hg x). lia. Qed.

Lemma sum_map_eq (f : A -> nat) (g : A -> A) l : (forall x, f (g x) = f x) ->
  sum_list_with f (map g l) = sum_list_with f l.
Proof. intros Hg. induction l as [|x l IH]; simpl; [done|]. by rewrite Hg, IH. Qed.

(** What the threads hold, when one of them moves on. *)
Context {B : Type}.
Lemma bind_insert (f : A -> list B) (l : list A) i x y : l !! i = Some x ->
  f x ++ (<[i := y]> l ≫= f) ≡ₚ f y ++ (l ≫= f).
Proof.
  revert i. induction l as [|z l IH]; intros [|i] Hi; simplify_eq/=.
  - rewrite !app_assoc. f_equiv. apply Permutation_app_comm.
  - rewrite (Permutation_app_swap_app (f x)), (IH _ Hi). apply Permutation_app_swap_app.
Qed.

Lemma bind_map (f : A -> list B) (g : A -> A) l : (forall x, f (g x) = f x) -> (map g l ≫= f) = (l ≫= f).
Proof. intros Hg. induction l as [|x l IH]; [done|]. cbn [map]. by rewrite !bind_cons, Hg, IH. Qed.

Lemma bind_nil (f : A -> list B) l : Forall (fun x => f x = []) l -> (l ≫= f) = [].
Proof. induction 1 as [|x l Hx _ IH]; [done|]. by rewrite bind_cons, Hx, IH. Qed.
End threads.
