(* ===== verification/ThreadPool.v ===== *)
(** * The thread pool (src/bitdb/common/thread_pool.h)

    Workers share one queue under a mutex and sleep on a condition variable; Shutdown
    sleeps on another until the queue is empty, stops the workers and joins them.  The
    model keeps what the threads do between the mutexes: a Commit that has released the
    mutex and not notified yet, a worker with a task in its hands.  One thread calls
    Shutdown (the destructor does not call it again). *)

From S2P Require Import Prelude Threads.

Section pool.
Context {Task : Type}.

(** A worker: at the mutex, asleep in [condition.wait], with a task, or returned. *)
Inductive worker := Checking | Sleeping | Running (t : Task) | Returned.

(** The thread in Shutdown: at the mutex, asleep, behind [stop_ = true], in the joins. *)
Inductive closer := NotCalled | AtMutex | Asleep | Stopped | Joining | Closed.

(** [notifying]: Commit calls before their [notify_one].  The last three fields record
    the tasks put into the queue, taken from it and run, in order. *)
Record Pool := mkPool {
  tasks_ : list Task;
  stop_ : bool;
  workers_ : list worker;
  notifying : nat;
  closing : closer;
  accepted : list Task;
  started : list Task;
  executed : list Task
}.

Definition ThreadPool_new (thread_num : nat) : Pool :=
  mkPool [] false (replicate thread_num Checking) 0 NotCalled [] [] [].

Definition set_worker (w : nat) (st : worker) (p : Pool) : Pool :=
  mkPool (tasks_ p) (stop_ p) (<[w := st]> (workers_ p)) (notifying p) (closing p)
    (accepted p) (started p) (executed p).

(** Commit up to the release of the mutex. *)
Definition Commit (t : Task) (p : Pool) : Pool :=
  if stop_ p
  then mkPool (tasks_ p) true (workers_ p) (S (notifying p)) (closing p) (accepted p) (started p) (executed p)
  else mkPool (tasks_ p ++ [t]) false (workers_ p) (S (notifying p)) (closing p) (accepted p ++ [t])
         (started p) (executed p).

Definition is_sleeping (st : worker) : bool := if st is Sleeping then true else false.

(** [condition.notify_one()]: one sleeper wakes up, any of them; none only when there is
    none. *)
Definition notify_one (target : option nat) (p : Pool) : option Pool :=
  match notifying p with
  | O => None
  | S n =>
      let p' := mkPool (tasks_ p) (stop_ p) (workers_ p) n (closing p) (accepted p) (started p) (executed p) in
      match target with
      | Some w => if workers_ p !! w is Some Sleeping then Some (set_worker w Checking p') else None
      | None => if forallb (negb ∘ is_sleeping) (workers_ p) then Some p' else None
      end
  end.

(** [condition_producers_.notify_one()]. *)
Definition wake_closer (c : closer) : closer := if c is Asleep then AtMutex else c.

(** A worker at the mutex: returns, goes to sleep, or takes a task. *)
Definition worker_turn (w : nat) (p : Pool) : option Pool :=
  if workers_ p !! w is Some Checking then
    if stop_ p then Some (set_worker w Returned p) else
    match tasks_ p with
    | [] => Some (set_worker w Sleeping p)
    | t :: ts =>
        Some (mkPool ts false (<[w := Running t]> (workers_ p)) (notifying p)
                (if decide (ts = []) then wake_closer (closing p) else closing p)
                (accepted p) (started p ++ [t]) (executed p))
    end
  else None.

Definition run_task (w : nat) (p : Pool) : option Pool :=
  if workers_ p !! w is Some (Running t)
  then Some (mkPool (tasks_ p) (stop_ p) (<[w := Checking]> (workers_ p)) (notifying p) (closing p)
               (accepted p) (started p) (executed p ++ [t]))
  else None.

Definition set_closing (c : closer) (p : Pool) : Pool :=
  mkPool (tasks_ p) (stop_ p) (workers_ p) (notifying p) c (accepted p) (started p) (executed p).

Definition wake (st : worker) : worker := if st is Sleeping then Checking else st.
Definition returned (st : worker) : bool := if st is Returned then true else false.

(** Shutdown, one turn of it: the wait, [stop_ = true], [notify_all] and the joins. *)
Definition Shutdown (p : Pool) : option Pool :=
  match closing p with
  | AtMutex =>
      match tasks_ p with
      | [] => Some (mkPool [] true (workers_ p) (notifying p) Stopped (accepted p) (started p) (executed p))
      | _ => Some (set_closing Asleep p)
      end
  | Stopped =>
      Some (mkPool (tasks_ p) (stop_ p) (map wake (workers_ p)) (notifying p) Joining
              (accepted p) (started p) (executed p))
  | Joining => if forallb returned (workers_ p) then Some (set_closing Closed p) else None
  | _ => None
  end.

Inductive event :=
| Commits (t : Task) | Notifies (target : option nat) | Turns (w : nat) | Runs (w : nat)
| CallsShutdown | Closes
| Wakes (w : nat) | WakesCloser.   (** spurious wake-ups *)

Definition step (e : event) (p : Pool) : option Pool :=
  match e with
  | Commits t => Some (Commit t p)
  | Notifies target => notify_one target p
  | Turns w => worker_turn w p
  | Runs w => run_task w p
  | CallsShutdown => if closing p is NotCalled then Some (set_closing AtMutex p) else None
  | Closes => Shutdown p
  | Wakes w => if workers_ p !! w is Some Sleeping then Some (set_worker w Checking p) else None
  | WakesCloser => if closing p is Asleep then Some (set_closing AtMutex p) else None
  end.

(** The events in which the pool itself works on what it was given. *)
Definition works (e : event) : Prop :=
  match e with Notifies _ | Turns _ | Runs _ | Closes => True | _ => False end.

(** ** The invariant *)

Definition checking (st : worker) : nat := if st is Checking then 1 else 0.
Definition sleeping (st : worker) : nat := if st is Sleeping then 1 else 0.
Definition done_ (st : worker) : nat := if st is Returned then 1 else 0.
Definition in_hand (st : worker) : list Task := if st is Running t then [t] else [].

Definition n_checking (p : Pool) : nat := sum_list_with checking (workers_ p).
Definition n_sleeping (p : Pool) : nat := sum_list_with sleeping (workers_ p).
Definition n_done (p : Pool) : nat := sum_list_with done_ (workers_ p).

(** [stop_] is set. *)
Definition stopping (c : closer) : bool := match c with Stopped | Joining | Closed => true | _ => false end.

Record pool_ok (p : Pool) : Prop := {
  ok_accepted : accepted p = started p ++ tasks_ p;
  ok_started : started p ≡ₚ executed p ++ (workers_ p ≫= in_hand);
  ok_stop : stop_ p = true -> tasks_ p = [];
  ok_stop_closing : stop_ p = stopping (closing p);
  ok_wakeup : n_sleeping p = 0 \/ length (tasks_ p) <= n_checking p + notifying p;
  ok_done : stop_ p = false -> n_done p = 0;
  ok_asleep : closing p = Asleep -> tasks_ p ≠ [];
  ok_sleepers : stop_ p = true -> n_sleeping p = 0 \/ closing p = Stopped;
  ok_closed : closing p = Closed -> forallb returned (workers_ p) = true
}.

Lemma new_ok n : pool_ok (ThreadPool_new n).
Proof.
  split; simpl; try done.
  - by rewrite bind_nil by (apply Forall_replicate; done).
  - left. apply sum_zero, Forall_replicate. done.
  - intros _. apply sum_zero, Forall_replicate. done.
Qed.

(** What changes when worker [w] goes from one state to another. *)
Ltac worker_moves Hw new Hhand :=
  pose proof (sum_insert checking _ _ _ new Hw);
  pose proof (sum_insert sleeping _ _ _ new Hw);
  pose proof (sum_insert done_ _ _ _ new Hw);
  pose proof (sum_elem sleeping _ _ _ Hw);
  pose proof (bind_insert in_hand _ _ _ new Hw) as Hhand;
  unfold n_checking, n_sleeping, n_done in *; simpl in *.

Lemma set_worker_ok p w old new : pool_ok p -> workers_ p !! w = Some old ->
  in_hand old = in_hand new -> sleeping new <= sleeping old ->
  (checking old <= checking new) -> (done_ new <= done_ old) -> done_ old = 0 ->
  pool_ok (set_worker w new p).
Proof.
  intros [Ha Hs Hst Hsc Hw Hd Has Hsl Hc] Hin Heq Hle Hck Hdn Hdo. worker_moves Hin new Hhand.
  split; simpl; try done; unfold n_checking, n_sleeping, n_done; simpl.
  - rewrite Heq in Hhand. apply Permutation_app_inv_l in Hhand. by rewrite Hhand.
  - destruct Hw; [left|right]; lia.
  - intros E. pose proof (Hd E). lia.
  - intros E. destruct (Hsl E); [left; lia|by right].
  - intros E. specialize (Hc E). apply forallb_forall with (x := old) in Hc;
      [by destruct old|apply list_elem_of_In; by eapply list_elem_of_lookup_2].
Qed.

(** No worker has returned while [closing] is before the joins' end. *)
Lemma not_closed p w st : pool_ok p -> workers_ p !! w = Some st -> returned st = false -> closing p ≠ Closed.
Proof.
  intros Hok Hw Hr E. apply (ok_closed _ Hok) in E. rewrite forallb_forall in E.
  rewrite E in Hr; [done|]. apply list_elem_of_In. by eapply list_elem_of_lookup_2.
Qed.

Lemma Commit_ok t p : pool_ok p -> pool_ok (Commit t p).
Proof.
  intros [Ha Hs Hst Hsc Hw Hd Has Hsl Hc]. unfold Commit. destruct (stop_ p) eqn:E; split; simpl; try done.
  - destruct Hw; [by left|right]. unfold n_checking in *. simpl. lia.
  - by rewrite Ha, app_assoc.
  - destruct Hw as [|Hw]; [by left|right]. rewrite length_app. unfold n_checking in *. simpl in *. lia.
  - intros _. by destruct (tasks_ p).
Qed.

Lemma no_sleepers p : forallb (negb ∘ is_sleeping) (workers_ p) = true -> n_sleeping p = 0.
Proof.
  intros Hf. apply sum_zero, Forall_forall. intros st Hst. rewrite forallb_forall in Hf.
  apply list_elem_of_In, Hf in Hst. by destruct st.
Qed.

Lemma notify_one_ok target p p' : pool_ok p -> notify_one target p = Some p' -> pool_ok p'.
Proof.
  intros Hok. pose proof Hok as [Ha Hs Hst Hsc Hw Hd Has Hsl Hc]. unfold notify_one.
  destruct (notifying p) as [|n] eqn:En; [done|]. destruct target as [w|].
  - destruct (workers_ p !! w) as [[]|] eqn:Ew; try done. intros [= <-]. worker_moves Ew Checking Hhand.
    split; simpl; try done; unfold n_checking, n_sleeping, n_done; simpl.
    + by rewrite Hhand.
    + destruct Hw; [left|right]; lia.
    + intros E. pose proof (Hd E). lia.
    + intros E. destruct (Hsl E); [left; lia|by right].
    + intros E. by apply (not_closed p w Sleeping Hok Ew) in E.
  - case_match eqn:Ef; [|done]. intros [= <-]. apply no_sleepers in Ef. split; simpl; try done. by left.
Qed.

Lemma worker_turn_ok w p p' : pool_ok p -> worker_turn w p = Some p' -> pool_ok p'.
Proof.
  intros Hok. pose proof Hok as [Ha Hs Hst Hsc Hw Hd Has Hsl Hc]. unfold worker_turn.
  destruct (workers_ p !! w) as [[]|] eqn:Ew; try done.
  pose proof (not_closed p w Checking Hok Ew eq_refl) as Hnc.
  destruct (stop_ p) eqn:E; [|destruct (tasks_ p) as [|t ts] eqn:Et]; intros [= <-].
  - worker_moves Ew Returned Hhand. pose proof (Hst eq_refl) as Et.
    split; simpl; rewrite ?E; try done; unfold n_checking, n_sleeping, n_done; simpl.
    + by rewrite Hhand.
    + right. rewrite Et. simpl. lia.
    + intros _. destruct (Hsl eq_refl); [left; lia|by right].
  - worker_moves Ew Sleeping Hhand.
    split; simpl; rewrite ?E, ?Et; try done; unfold n_checking, n_sleeping, n_done; simpl.
    + by rewrite Hhand.
    + right. lia.
    + intros _. pose proof (Hd eq_refl). lia.
  - worker_moves Ew (Running t) Hhand.
    split; simpl; try done; unfold n_checking, n_sleeping, n_done; simpl.
    + by rewrite Ha, <-app_assoc.
    + rewrite Hs, Hhand, <-!app_assoc. f_equiv. apply Permutation_app_comm.
    + rewrite Hsc. case_decide; [|done]. by destruct (closing p).
    + destruct Hw; [left|right]; lia.
    + intros _. pose proof (Hd eq_refl). lia.
    + case_decide; [|by intros _]. by destruct (closing p).
    + case_decide; intros Hc'; [|by apply Hnc in Hc']. by destruct (closing p).
Qed.

Lemma run_task_ok w p p' : pool_ok p -> run_task w p = Some p' -> pool_ok p'.
Proof.
  intros Hok. pose proof Hok as [Ha Hs Hst Hsc Hw Hd Has Hsl Hc]. unfold run_task.
  destruct (workers_ p !! w) as [[| |t|]|] eqn:Ew; try done. intros [= <-].
  worker_moves Ew Checking Hhand.
  split; simpl; try done; unfold n_checking, n_sleeping, n_done; simpl.
  - by rewrite Hs, <-Hhand, <-app_assoc.
  - destruct Hw; [left|right]; lia.
  - intros E. pose proof (Hd E). lia.
  - intros E. destruct (Hsl E); [left; lia|by right].
  - intros E. by apply (not_closed p w (Running t) Hok Ew) in E.
Qed.

Lemma Shutdown_ok p p' : pool_ok p -> Shutdown p = Some p' -> pool_ok p'.
Proof.
  intros Hok. pose proof Hok as [Ha Hs Hst Hsc Hw Hd Has Hsl Hc]. unfold Shutdown.
  destruct (closing p) eqn:Ec; try done.
  - destruct (tasks_ p) as [|t ts] eqn:Et; intros [= <-].
    + split; simpl; rewrite ?Et; try done. by right.
    + split; simpl; rewrite ?Et; try done; rewrite Hsc; done.
  - intros [= <-]. simpl in Hsc.
    assert (sum_list_with sleeping (map wake (workers_ p)) = 0) as H0.
    { apply sum_zero, Forall_fmap, Forall_forall. by intros [] _. }
    split; simpl; try done; unfold n_checking, n_sleeping, n_done; simpl.
    + rewrite bind_map; [done|]. by intros [].
    + by left.
    + by rewrite Hsc.
    + by left.
  - case_match eqn:Ef; [|done]. intros [= <-]. split; simpl; try done.
    intros E. destruct (Hsl E); [by left|done].
Qed.

Lemma step_ok e p p' : pool_ok p -> step e p = Some p' -> pool_ok p'.
Proof.
  intros Hok. destruct e as [t|target|w|w| | |w|]; cbn [step].
  - intros [= <-]. by apply Commit_ok.
  - by apply notify_one_ok.
  - by apply worker_turn_ok.
  - by apply run_task_ok.
  - destruct (closing p) eqn:Ec; try done. intros [= <-]. destruct Hok as [Ha Hs Hst Hsc Hw Hd Has Hsl Hc].
    rewrite Ec in Hsc. split; simpl; try done. rewrite Hsc. done.
  - by apply Shutdown_ok.
  - destruct (workers_ p !! w) as [[]|] eqn:Ew; try done. intros [= <-]. apply (set_worker_ok p w Sleeping); simpl; auto with lia.
  - destruct (closing p) eqn:Ec; try done. intros [= <-]. destruct Hok as [Ha Hs Hst Hsc Hw Hd Has Hsl Hc].
    rewrite Ec in Hsc. split; simpl; try done. rewrite Hsc. done.
Qed.

(** ** Progress *)

Definition weight (st : worker) : nat := match st with Checking => 1 | Running _ => 3 | _ => 0 end.
Definition closer_weight (n : nat) (c : closer) : nat :=
  match c with NotCalled => n + 5 | AtMutex => n + 4 | Asleep => n + 3 | Stopped => n + 2 | Joining => 1 | Closed => 0 end.

(** How many events the pool can work without being given anything. *)
Definition work_left (p : Pool) : nat :=
  5 * length (tasks_ p) + 2 * notifying p + sum_list_with weight (workers_ p)
  + closer_weight (length (workers_ p)) (closing p).

Lemma wake_closer_weight n c : closer_weight n (wake_closer c) <= closer_weight n c + 1.
Proof. destruct c; simpl; lia. Qed.

Lemma works_decreases e p p' : pool_ok p -> works e -> step e p = Some p' -> work_left p' < work_left p.
Proof.
  intros _ Hw. unfold work_left. destruct e as [t|target|w|w| | |w|]; try done; cbn [step].
  - unfold notify_one. destruct (notifying p) as [|n]; [done|]. destruct target as [w|].
    + destruct (workers_ p !! w) as [[]|] eqn:Ew; try done. intros [= <-]. simpl. rewrite length_insert.
      pose proof (sum_insert weight _ _ _ Checking Ew). simpl in *. lia.
    + case_match; [|done]. intros [= <-]. simpl. lia.
  - unfold worker_turn. destruct (workers_ p !! w) as [[]|] eqn:Ew; try done.
    destruct (stop_ p); [|destruct (tasks_ p) as [|t ts] eqn:Et]; intros [= <-]; simpl; rewrite length_insert.
    + pose proof (sum_insert weight _ _ _ Returned Ew). simpl in *. lia.
    + pose proof (sum_insert weight _ _ _ Sleeping Ew). rewrite Et. simpl in *. lia.
    + pose proof (sum_insert weight _ _ _ (Running t) Ew). simpl in *.
      pose proof (wake_closer_weight (length (workers_ p)) (closing p)). case_decide; lia.
  - unfold run_task. destruct (workers_ p !! w) as [[| |t|]|] eqn:Ew; try done. intros [= <-]. simpl.
    rewrite length_insert. pose proof (sum_insert weight _ _ _ Checking Ew). simpl in *. lia.
  - unfold Shutdown. destruct (closing p) eqn:Ec; try done.
    + destruct (tasks_ p) eqn:Et; intros [= <-]; simpl; rewrite ?Et; simpl; lia.
    + intros [= <-]. simpl.
      pose proof (sum_map_le weight wake 1 (workers_ p) ltac:(intros []; simpl; lia)). lia.
    + case_match; [|done]. intros [= <-]. simpl. lia.
Qed.

(** A pool that cannot work has nothing left to do. *)
Definition stuck (p : Pool) : Prop := forall e, works e -> step e p = None.

Lemma stuck_worker p w st : stuck p -> workers_ p !! w = Some st -> st = Sleeping \/ st = Returned.
Proof.
  intros Hst Hw. destruct st as [| |t|]; [|by left| |by right].
  - specialize (Hst (Turns w) I). simpl in Hst. unfold worker_turn in Hst. rewrite Hw in Hst.
    destruct (stop_ p); [done|]. by destruct (tasks_ p).
  - specialize (Hst (Runs w) I). simpl in Hst. unfold run_task in Hst. by rewrite Hw in Hst.
Qed.

Lemma sum_pos {A} (f : A -> nat) l : 0 < sum_list_with f l -> exists i x, l !! i = Some x /\ 0 < f x.
Proof.
  induction l as [|x l IH]; simpl; [lia|]. intros Hl. destruct (decide (0 < f x)) as [Hx|Hx].
  - by exists 0, x.
  - destruct IH as (i & y & Hi & Hy); [lia|]. by exists (S i), y.
Qed.

Lemma stuck_notifying p : stuck p -> notifying p = 0.
Proof.
  intros Hst. destruct (notifying p) as [|n] eqn:En; [done|].
  destruct (decide (n_sleeping p = 0)) as [Hs|Hs].
  - specialize (Hst (Notifies None) I). simpl in Hst. unfold notify_one in Hst. rewrite En in Hst.
    case_match eqn:Ef; [done|]. exfalso. apply not_true_iff_false in Ef. apply Ef, forallb_forall.
    intros st Hin. apply sum_zero in Hs. rewrite Forall_forall in Hs.
    apply list_elem_of_In, Hs in Hin. by destruct st.
  - destruct (sum_pos sleeping (workers_ p)) as (w & st & Hw & Hpos); [unfold n_sleeping in Hs; lia|].
    destruct st; simpl in Hpos; try lia.
    specialize (Hst (Notifies (Some w)) I). simpl in Hst. unfold notify_one in Hst. by rewrite En, Hw in Hst.
Qed.

Lemma stuck_drained p : pool_ok p -> 0 < length (workers_ p) -> stuck p ->
  tasks_ p = [] /\ executed p ≡ₚ accepted p /\ (closing p = NotCalled \/ closing p = Closed).
Proof.
  intros Hok Hn Hst. pose proof Hok as [Ha Hs Hstop Hsc Hw Hd Has Hsl Hc].
  assert (n_checking p = 0) as Hck.
  { apply sum_zero, Forall_forall. intros st (w & Hst')%list_elem_of_lookup.
    by destruct (stuck_worker _ _ _ Hst Hst') as [-> | ->]. }
  assert ((workers_ p ≫= in_hand) = []) as Hhand.
  { apply bind_nil, Forall_forall. intros st (w & Hst')%list_elem_of_lookup.
    by destruct (stuck_worker _ _ _ Hst Hst') as [-> | ->]. }
  assert (tasks_ p = []) as Ht.
  { rewrite Hck, (stuck_notifying p Hst) in Hw. destruct (tasks_ p) as [|t ts] eqn:Et; [done|]. exfalso.
    destruct Hw as [H0|Hw]; [|simpl in Hw; lia].
    destruct (lookup_lt_is_Some_2 (workers_ p) 0 Hn) as [st Hst'].
    destruct (stuck_worker _ _ _ Hst Hst') as [-> | ->].
    - pose proof (sum_elem sleeping _ _ _ Hst'). unfold n_sleeping in H0. simpl in *. lia.
    - destruct (stop_ p) eqn:Es; [by specialize (Hstop eq_refl)|]. specialize (Hd eq_refl).
      pose proof (sum_elem done_ _ _ _ Hst'). unfold n_done in Hd. simpl in *. lia. }
  split_and!; [done|by rewrite Ha, Ht, app_nil_r, Hs, Hhand, app_nil_r|].
  pose proof Hst as Hstuck. specialize (Hst Closes I). simpl in Hst. unfold Shutdown in Hst.
  destruct (closing p) eqn:Ec; rewrite ?Ht in *; try done; [by left|by specialize (Has eq_refl)| |by right].
  simpl in Hsc. destruct (Hsl Hsc) as [H0|]; [|done]. case_match eqn:Ef; [done|].
  exfalso. apply not_true_iff_false in Ef. apply Ef, forallb_forall.
  intros st (w & Hst')%list_elem_of_In%list_elem_of_lookup.
  destruct (stuck_worker _ _ _ Hstuck Hst') as [-> | ->]; [|done].
  pose proof (sum_elem sleeping _ _ _ Hst'). unfold n_sleeping in H0. simpl in *. lia.
Qed.

Lemma step_workers e p p' : step e p = Some p' -> length (workers_ p') = length (workers_ p).
Proof.
  destruct e as [t|target|w|w| | |w|]; cbn [step];
    unfold Commit, notify_one, worker_turn, run_task, Shutdown, set_worker, set_closing;
    intros E; repeat case_match; simplify_eq/=; rewrite ?length_insert, ?length_map; done.
Qed.

Lemma reachable_ok n es p : exec step es (ThreadPool_new n) = Some p -> pool_ok p /\ length (workers_ p) = n.
Proof.
  apply (exec_inv step (fun p => pool_ok p /\ length (workers_ p) = n)).
  - intros e q q' [Hok Hl] E. split; [by eapply step_ok|]. by rewrite (step_workers _ _ _ E).
  - split; [apply new_ok|]. apply length_replicate.
Qed.

Lemma closed_drained p : pool_ok p -> closing p = Closed -> tasks_ p = [] /\ executed p ≡ₚ accepted p.
Proof.
  intros [Ha Hs Hstop Hsc _ _ _ _ Hc] Ec. rewrite Ec in Hsc. pose proof (Hstop Hsc) as Ht. split; [done|].
  rewrite Ha, Ht, app_nil_r, Hs, bind_nil, app_nil_r; [done|]. apply Forall_forall. intros st Hin.
  specialize (Hc Ec). rewrite forallb_forall in Hc. apply list_elem_of_In, Hc in Hin. by destruct st.
Qed.
End pool.

(** C13: in every interleaving of Commit calls, workers and a Shutdown, tasks are taken
    from the queue in the order in which they were put in, and each that was put in runs
    at most once; when Shutdown has returned, all of them have run. *)
Theorem thread_pool_runs_tasks {Task} n (es : list (event (Task := Task))) p :
  exec step es (ThreadPool_new n) = Some p ->
  accepted p = started p ++ tasks_ p /\ executed p ⊆+ accepted p
  /\ (closing p = Closed -> tasks_ p = [] /\ executed p ≡ₚ accepted p).
Proof.
  intros [Hok _]%reachable_ok. pose proof Hok as [Ha Hs _ _ _ _ _ _ _]. split_and!; [done| |by apply closed_drained].
  rewrite Ha, Hs, <-app_assoc. by apply submseteq_inserts_r.
Qed.

(** C8: a pool with a worker always gets its work done.  From every state it can reach,
    the notifications, the workers and Shutdown make at most [work_left] more events
    before they need a new call or a spurious wake-up, and when none of them can move
    any more, the queue is empty, every task put in has run, and Shutdown, if it was
    called, has returned: no wake-up is lost. *)
Theorem thread_pool_progress {Task} n (es : list (event (Task := Task))) p :
  0 < n -> exec step es (ThreadPool_new n) = Some p ->
  (forall es' p', Forall works es' -> exec step es' p = Some p' -> length es' <= work_left p)
  /\ (stuck p -> tasks_ p = [] /\ executed p ≡ₚ accepted p /\ (closing p = NotCalled \/ closing p = Closed)).
Proof.
  intros Hn [Hok Hl]%reachable_ok. split.
  - intros es' p' Hw E.
    pose proof (exec_bounded step works pool_ok work_left step_ok works_decreases es' p p' Hok Hw E). lia.
  - apply stuck_drained; [done|lia].
Qed.

Module Examples.

(** Two workers, three tasks, and a Shutdown that has to wait. *)
Definition busy : list (event (Task := nat)) :=
  [Turns 0; Commits 1; Commits 2; Commits 3; CallsShutdown; Closes; Notifies (Some 0); Turns 1; Turns 0;
   Notifies None; Runs 0; Turns 0; Runs 1; Notifies None; Closes; Closes; Turns 1; Runs 0; Turns 0; Closes].

Definition busy_end : Pool (Task := nat) :=
  mkPool [] true [Returned; Returned] 0 Closed [1; 2; 3] [1; 2; 3] [2; 1; 3].

Lemma busy_run : exec step busy (ThreadPool_new 2) = Some busy_end.
Proof. reflexivity. Qed.

Lemma thread_pool_runs_tasks_witness : executed busy_end ≡ₚ accepted busy_end.
Proof. apply (thread_pool_runs_tasks 2 busy busy_end busy_run). reflexivity. Defined.

(** Behind the calls, the rest of the run is within the bound. *)
Definition called : Pool (Task := nat) := default (ThreadPool_new 2) (exec step (take 5 busy) (ThreadPool_new 2)).

Lemma called_run : exec step (take 5 busy) (ThreadPool_new 2) = Some called.
Proof. reflexivity. Qed.

Lemma thread_pool_progress_witness : length (drop 5 busy) <= work_left called.
Proof.
  apply (proj1 (thread_pool_progress 2 (take 5 busy) called ltac:(lia) called_run) (drop 5 busy) busy_end);
    [repeat constructor|reflexivity].
Defined.

(** Without workers, Shutdown waits for a queue that nobody empties. *)
Example no_workers :
  exists p, exec step [Commits 1; Notifies None; CallsShutdown; Closes] (ThreadPool_new 0) = Some p
    /\ closing p = Asleep /\ stuck p.
Proof.
  eexists. split_and!; [reflexivity..|]. intros [t|[w|]|w|w| | |w|]; simpl; try done;
    unfold worker_turn, run_task; simpl; by destruct w.
Qed.
End Examples.
