(* ===== verification/BlockingQueue.v ===== *)
(** * The blocking queue (src/bitdb/common/blocking_queue.h)

    A queue under a mutex with a condition variable.  The state keeps, beside the queue
    and its stop flag, which threads are asleep in [pop] and which notifications are
    still to come: [push], [try_push] and [stop] notify after they have released the
    mutex.  The operations are used by the loggers and the pools built on the queue; the
    system at the end runs them from any number of threads. *)

From S2P Require Import Prelude Threads.

Section queue.
Context {A : Type}.

Record BlockingQueue := mkQueue {
  queue_ : list A;
  qstop_ : bool;
  asleep : gset nat;
  notify_one_due : nat;
  notify_all_due : nat
}.

Definition BlockingQueue_new : BlockingQueue := mkQueue [] false ∅ 0 0.

(** push up to the release of the mutex. *)
Definition push (value : A) (q : BlockingQueue) : BlockingQueue :=
  mkQueue (queue_ q ++ [value]) (qstop_ q) (asleep q) (S (notify_one_due q)) (notify_all_due q).

(** try_push, which may find the mutex taken. *)
Definition try_push (locked : bool) (value : A) (q : BlockingQueue) : bool * BlockingQueue :=
  if locked then (true, push value q) else (false, q).

(** [cond_.notify_one()]. *)
Definition notify_one (target : option nat) (q : BlockingQueue) : option BlockingQueue :=
  match notify_one_due q with
  | O => None
  | S n =>
      match target with
      | Some t => if decide (t ∈ asleep q)
                  then Some (mkQueue (queue_ q) (qstop_ q) (asleep q ∖ {[t]}) n (notify_all_due q)) else None
      | None => if decide (asleep q = ∅)
                then Some (mkQueue (queue_ q) (qstop_ q) ∅ n (notify_all_due q)) else None
      end
  end.

(** pop by thread [t], from the mutex on: an item, [false], or sleep. *)
Inductive popped := Item (value : A) | Ended | Slept.
Definition pop (t : nat) (q : BlockingQueue) : popped * BlockingQueue :=
  match queue_ q with
  | value :: rest =>
      (Item value, mkQueue rest (qstop_ q) (asleep q) (notify_one_due q) (notify_all_due q))
  | [] =>
      if qstop_ q then (Ended, q)
      else (Slept, mkQueue [] false ({[t]} ∪ asleep q) (notify_one_due q) (notify_all_due q))
  end.

(** A sleeping thread that wakes up by itself. *)
Definition wake_up (t : nat) (q : BlockingQueue) : option BlockingQueue :=
  if decide (t ∈ asleep q)
  then Some (mkQueue (queue_ q) (qstop_ q) (asleep q ∖ {[t]}) (notify_one_due q) (notify_all_due q)) else None.

Definition try_pop_if (locked : bool) (predict : option (A -> bool)) (q : BlockingQueue)
    : option A * BlockingQueue :=
  match locked, queue_ q with
  | true, value :: rest =>
      if (if predict is Some f then f value else true)
      then (Some value, mkQueue rest (qstop_ q) (asleep q) (notify_one_due q) (notify_all_due q))
      else (None, q)
  | _, _ => (None, q)
  end.

Definition size_ (q : BlockingQueue) : nat := length (queue_ q).
Definition empty_q (q : BlockingQueue) : bool := bool_decide (queue_ q = []).

(** stop up to the release of the mutex, and [cond_.notify_all()]. *)
Definition stop (q : BlockingQueue) : BlockingQueue :=
  mkQueue (queue_ q) true (asleep q) (notify_one_due q) (S (notify_all_due q)).
Definition notify_all (q : BlockingQueue) : option BlockingQueue :=
  match notify_all_due q with
  | O => None
  | S n => Some (mkQueue (queue_ q) (qstop_ q) ∅ (notify_one_due q) n)
  end.

(** ** Any number of threads *)

(** The queue, the threads that are in [pop] and at the mutex, and the items that went
    in and came out. *)
Record QState := mkQState {
  q : BlockingQueue;
  at_mutex : gset nat;
  pushed : list A;
  taken : list A
}.

Inductive qevent :=
| Push (value : A) | TryPush (locked : bool) (value : A) | NotifyOne (target : option nat)
| Pop (t : nat) | PopTurn (t : nat) | TryPop (locked : bool) (predict : option (A -> bool))
| Stop | NotifyAll | WakeUp (t : nat).

Definition qstep (e : qevent) (s : QState) : option QState :=
  match e with
  | Push v => Some (mkQState (push v (q s)) (at_mutex s) (pushed s ++ [v]) (taken s))
  | TryPush b v =>
      let '(ok, q') := try_push b v (q s) in
      Some (mkQState q' (at_mutex s) (if ok : bool then pushed s ++ [v] else pushed s) (taken s))
  | NotifyOne target =>
      q' ← notify_one target (q s);
      Some (mkQState q' (if target is Some t then {[t]} ∪ at_mutex s else at_mutex s) (pushed s) (taken s))
  | Pop t =>
      if decide (t ∈ at_mutex s ∪ asleep (q s)) then None
      else Some (mkQState (q s) ({[t]} ∪ at_mutex s) (pushed s) (taken s))
  | PopTurn t =>
      if decide (t ∈ at_mutex s) then
        let '(r, q') := pop t (q s) in
        Some (mkQState q' (at_mutex s ∖ {[t]}) (pushed s)
                (if r is Item v then taken s ++ [v] else taken s))
      else None
  | TryPop b f =>
      let '(r, q') := try_pop_if b f (q s) in
      Some (mkQState q' (at_mutex s) (pushed s) (if r is Some v then taken s ++ [v] else taken s))
  | Stop => Some (mkQState (stop (q s)) (at_mutex s) (pushed s) (taken s))
  | NotifyAll =>
      q' ← notify_all (q s);
      Some (mkQState q' (asleep (q s) ∪ at_mutex s) (pushed s) (taken s))
  | WakeUp t =>
      q' ← wake_up t (q s);
      Some (mkQState q' ({[t]} ∪ at_mutex s) (pushed s) (taken s))
  end.

Record queue_ok (s : QState) : Prop := {
  ok_fifo : pushed s = taken s ++ queue_ (q s);
  ok_apart : at_mutex s ## asleep (q s);
  ok_awake : asleep (q s) = ∅ \/ length (queue_ (q s)) <= size (at_mutex s) + notify_one_due (q s);
  ok_stopped : qstop_ (q s) = true -> asleep (q s) = ∅ \/ 0 < notify_all_due (q s)
}.

Definition QState_new : QState := mkQState BlockingQueue_new ∅ [] [].

Lemma qnew_ok : queue_ok QState_new.
Proof. split; simpl; [done|set_solver|by left|done]. Qed.

Lemma size_add (t : nat) (X : gset nat) : t ∉ X -> size ({[t]} ∪ X) = S (size X).
Proof. intros Ht. rewrite size_union, size_singleton; [lia|set_solver]. Qed.

Lemma size_remove (t : nat) (X : gset nat) : t ∈ X -> size X = S (size (X ∖ {[t]})).
Proof. intros Ht. rewrite <-(size_add t (X ∖ {[t]})) by set_solver. f_equal. apply leibniz_equiv, union_difference. set_solver. Qed.

Lemma push_ok v s : queue_ok s -> queue_ok (mkQState (push v (q s)) (at_mutex s) (pushed s ++ [v]) (taken s)).
Proof.
  intros [Hf Ha Hw Hs]. split; simpl; [by rewrite Hf, app_assoc|done| |done].
  destruct Hw as [|Hw]; [by left|right]. rewrite length_app. simpl. lia.
Qed.

Lemma wake_ok t n s : queue_ok s -> t ∈ asleep (q s) -> notify_one_due (q s) <= S n ->
  queue_ok (mkQState (mkQueue (queue_ (q s)) (qstop_ (q s)) (asleep (q s) ∖ {[t]}) n (notify_all_due (q s)))
    ({[t]} ∪ at_mutex s) (pushed s) (taken s)).
Proof.
  intros [Hf Ha Hw Hs] Ht Hn. split; simpl; [done|set_solver| |].
  - destruct Hw as [Hw|Hw]; [left; set_solver|right]. rewrite size_add by set_solver. lia.
  - intros E. destruct (Hs E); [left; set_solver|by right].
Qed.

Lemma pop_ok t s : queue_ok s -> t ∈ at_mutex s ->
  let '(r, q') := pop t (q s) in
  queue_ok (mkQState q' (at_mutex s ∖ {[t]}) (pushed s) (if r is Item v then taken s ++ [v] else taken s)).
Proof.
  intros [Hf Ha Hw Hs] Ht. pose proof (size_remove t (at_mutex s) Ht). unfold pop.
  destruct (queue_ (q s)) as [|v rest] eqn:Eq; [destruct (qstop_ (q s)) eqn:Es|]; split; simpl; rewrite ?Eq, ?Es;
    try done; try set_solver.
  - right. simpl. lia.
  - right. lia.
  - by rewrite Hf, <-app_assoc.
  - destruct Hw as [|Hw]; [by left|right]. simpl in Hw. lia.
Qed.

Lemma try_pop_ok b f s : queue_ok s ->
  let '(r, q') := try_pop_if b f (q s) in
  queue_ok (mkQState q' (at_mutex s) (pushed s) (if r is Some v then taken s ++ [v] else taken s)).
Proof.
  intros Hok. unfold try_pop_if. destruct b; [|by destruct s].
  destruct (queue_ (q s)) as [|v rest] eqn:Eq; [by destruct s|]. destruct (if f is Some g then g v else true); [|by destruct s].
  destruct Hok as [Hf Ha Hw Hs]. split; simpl; try done.
  - by rewrite Hf, Eq, <-app_assoc.
  - destruct Hw as [|Hw]; [by left|right]. rewrite Eq in Hw. simpl in Hw. lia.
Qed.

Lemma qstep_ok e s s' : queue_ok s -> qstep e s = Some s' -> queue_ok s'.
Proof.
  intros Hok. destruct e as [v|b v|target|t|t|b f| | |t]; cbn [qstep].
  - intros [= <-]. by apply push_ok.
  - destruct b; intros [= <-]; [by apply push_ok|by destruct s].
  - unfold notify_one. destruct (notify_one_due (q s)) as [|n] eqn:En; [done|]. destruct target as [t|].
    + case_decide as Ht; [|done]. intros [= <-]. by apply wake_ok; [..|lia].
    + case_decide as He; [|done]. intros [= <-]. destruct Hok as [Hf Ha Hw Hs]. split; simpl; [done|set_solver|by left|by left].
  - case_decide as Ht; [done|]. intros [= <-]. destruct Hok as [Hf Ha Hw Hs]. split; simpl; [done|set_solver| |done].
    destruct Hw; [by left|right]. rewrite size_add by set_solver. lia.
  - case_decide as Ht; [|done]. pose proof (pop_ok t s Hok Ht) as Hp. destruct (pop t (q s)). by intros [= <-].
  - pose proof (try_pop_ok b f s Hok) as Hp. destruct (try_pop_if b f (q s)). by intros [= <-].
  - intros [= <-]. destruct Hok as [Hf Ha Hw Hs]. split; simpl; [done..|]. right. lia.
  - unfold notify_all. destruct (notify_all_due (q s)); [done|]. intros [= <-]. destruct Hok as [Hf Ha Hw Hs].
    split; simpl; [done|set_solver|by left|by left].
  - unfold wake_up. case_decide as Ht; [|done]. intros [= <-]. apply wake_ok; [done..|lia].
Qed.
End queue.
Arguments BlockingQueue : clear implicits.
Arguments QState : clear implicits.

(** C14: with any number of threads that push, pop, try and stop, items come out of the
    queue in the order in which they went in, and no wake-up is lost: while a thread
    sleeps in pop, every item in the queue has a thread on its way to it, at the mutex
    or about to be notified, and a stopped queue has a notification of all sleepers to
    come. *)
Theorem blocking_queue_fifo {A} (es : list qevent) (s : QState A) :
  exec qstep es QState_new = Some s ->
  pushed s = taken s ++ queue_ (q s)
  /\ (asleep (q s) ≠ ∅ -> size_ (q s) <= size (at_mutex s) + notify_one_due (q s)
      /\ (qstop_ (q s) = true -> 0 < notify_all_due (q s))).
Proof.
  intros Hrun. pose proof (exec_inv qstep queue_ok qstep_ok _ _ _ qnew_ok Hrun) as [Hf _ Hw Hs].
  split; [done|]. intros Hne. split; [by destruct Hw|]. intros E. by destruct (Hs E).
Qed.

Module Examples.

Definition three_threads : list (qevent (A := nat)) :=
  [Pop 1; PopTurn 1; Pop 2; PopTurn 2; Push 7; TryPush true 8; NotifyOne (Some 2); Pop 3; PopTurn 3].
Definition three_threads_end : QState nat :=
  mkQState (mkQueue [8] false {[1]} 1 0) {[2]} [7; 8] [7].

Lemma three_threads_run : exec qstep three_threads QState_new = Some three_threads_end.
Proof. vm_compute. reflexivity. Qed.

Lemma blocking_queue_fifo_witness : pushed three_threads_end = taken three_threads_end ++ [8].
Proof. exact (proj1 (blocking_queue_fifo three_threads three_threads_end three_threads_run)). Defined.
End Examples.
