(* ===== verification/Buffers.v ===== *)
(** * Spin lock and log buffers (src/bitdb/common/spin_lock.h, buffer.h)

    The lock between any number of threads; the ring buffer one operation at a
    time.  The linked buffer is in QueueBuffer.v. *)

From S2P Require Import Prelude Threads.

(** ** SpinLock *)

Module Spin.

(** A thread: outside, in the constructor's loop, between constructor and destructor. *)
Inductive thread := Outside | Spinning | Holding.

Record Lock := mkLock { flag_ : bool; threads : list thread }.

Inductive event := Constructs (t : nat) | Turns (t : nat) | Destructs (t : nat).

(** [Turns]: one [test_and_set]. *)
Definition step (e : event) (l : Lock) : option Lock :=
  match e with
  | Constructs t =>
      if threads l !! t is Some Outside then Some (mkLock (flag_ l) (<[t := Spinning]> (threads l))) else None
  | Turns t =>
      if threads l !! t is Some Spinning
      then Some (mkLock true (if flag_ l then threads l else <[t := Holding]> (threads l))) else None
  | Destructs t =>
      if threads l !! t is Some Holding then Some (mkLock false (<[t := Outside]> (threads l))) else None
  end.

Definition holds (t : thread) : nat := if t is Holding then 1 else 0.
Definition holders (l : Lock) : nat := sum_list_with holds (threads l).

Lemma spin_step_ok e l l' : holders l = (if flag_ l then 1 else 0) -> step e l = Some l' -> holders l' = if flag_ l' then 1 else 0.
Proof.
  unfold holders. intros Hl. destruct e as [t|t|t]; simpl; destruct (threads l !! t) as [[]|] eqn:Et; try done; intros [= <-]; simpl.
  - pose proof (sum_insert holds _ _ _ Spinning Et). simpl in *. lia.
  - destruct (flag_ l); [done|]. pose proof (sum_insert holds _ _ _ Holding Et). simpl in *. lia.
  - pose proof (sum_insert holds _ _ _ Outside Et). pose proof (sum_elem holds _ _ _ Et).
    destruct (flag_ l); simpl in *; lia.
Qed.
End Spin.

(** The spin lock excludes: in every interleaving at most one thread is between its
    constructor and its destructor, exactly one when the flag is set, and a thread in the
    loop gets the lock with its next test once the flag is clear. *)
Lemma spin_lock_excludes n es l :
  exec Spin.step es (Spin.mkLock false (replicate n Spin.Outside)) = Some l ->
  Spin.holders l = (if Spin.flag_ l then 1 else 0)
  /\ (Spin.flag_ l = false -> forall t, Spin.threads l !! t = Some Spin.Spinning ->
      exists l', Spin.step (Spin.Turns t) l = Some l' /\ Spin.threads l' !! t = Some Spin.Holding).
Proof.
  intros Hrun. split.
  - eapply (exec_inv Spin.step (fun l => Spin.holders l = if Spin.flag_ l then 1 else 0)); [apply Spin.spin_step_ok| |exact Hrun].
    apply sum_zero, Forall_replicate. done.
  - intros Ef t Et. eexists. simpl. rewrite Et, Ef. split; [done|]. simpl. apply list_lookup_insert_eq. by apply lookup_lt_Some in Et.
Qed.

(** ** RingBuffer *)

Section ring.
Context {T : Type}.

(** A slot: whether it is written, and its value. *)
Record RingBuffer := mkRing { size_ : nat; items : list (bool * option T); write_index_ : Z; read_index_ : Z }.

Definition RingBuffer_new (size : nat) : RingBuffer := mkRing size (replicate size (false, None)) 0 0.

Definition RPush (v : T) (r : RingBuffer) : RingBuffer :=
  let write_index := Z.to_nat (write_index_ r mod Z.of_nat (size_ r)) in
  mkRing (size_ r) (<[write_index := (true, Some v)]> (items r)) (u32 (write_index_ r + 1)) (read_index_ r).

(** [ring_buffer_[read_index_ & size_]]; no result outside of the array. *)
Definition RTryPop (r : RingBuffer) : option (option T * RingBuffer) :=
  let i := Z.to_nat (Z.land (read_index_ r) (Z.of_nat (size_ r))) in
  item ← items r !! i;
  Some (if (item.1 : bool) then (item.2, mkRing (size_ r) (<[i := (false, item.2)]> (items r)) (write_index_ r)
                                  (u32 (read_index_ r + 1)))
        else (None, r)).
End ring.
Arguments RingBuffer : clear implicits.

Lemma ring_index r k : (0 <= k)%Z -> (0 <= r)%Z -> Z.land r (2 ^ k) = 0%Z \/ Z.land r (2 ^ k) = (2 ^ k)%Z.
Proof.
  intros Hk Hr. destruct (Z.testbit r k) eqn:E; [right|left]; apply Z.bits_inj'; intros i Hi;
    rewrite Z.land_spec, Z.pow2_bits_eqb, ?Z.bits_0 by done; destruct (Z.eqb_spec k i) as [<-|]; rewrite ?E, ?andb_false_r; done.
Qed.

(** The ring buffer does not go round.  With a size that is a power of two, TryPop
    looks at the first slot or behind the last, whatever was written where. *)
Lemma ring_buffer_reads_one_slot {T} (r : RingBuffer T) k :
  size_ r = 2 ^ k -> length (items r) = size_ r -> (0 <= read_index_ r)%Z ->
  RTryPop r = None
  \/ exists item, items r !! 0 = Some item
      /\ RTryPop r = Some (if (item.1 : bool)
                          then (item.2, mkRing (size_ r) (<[0 := (false, item.2)]> (items r)) (write_index_ r) (u32 (read_index_ r + 1)))
                          else (None, r)).
Proof.
  intros Hs Hl Hr. unfold RTryPop. assert (Z.of_nat (size_ r) = 2 ^ Z.of_nat k)%Z as E by (rewrite Hs, Nat2Z.inj_pow; done).
  rewrite E. destruct (ring_index (read_index_ r) (Z.of_nat k)) as [-> | ->]; [lia|done|..].
  - right. assert (0 < 2 ^ k) by (apply Nat.neq_0_lt_0, Nat.pow_nonzero; lia).
    destruct (items r) as [|item rest] eqn:Ei; [simpl in Hl; lia|]. exists item. split; [done|]. done.
  - left. rewrite <-E, Nat2Z.id. by rewrite (proj2 (lookup_ge_None (items r) (size_ r))) by lia.
Qed.

Module Examples.

Lemma spin_lock_excludes_witness :
  Spin.holders (Spin.mkLock true [Spin.Holding; Spin.Spinning; Spin.Outside]) = 1.
Proof.
  apply (spin_lock_excludes 3 [Spin.Constructs 1; Spin.Constructs 0; Spin.Turns 0; Spin.Turns 1]). reflexivity.
Defined.

Definition two_items : RingBuffer nat := RPush 8 (RPush 7 (RingBuffer_new 4)).

Lemma ring_buffer_reads_one_slot_witness :
  RTryPop two_items = None
  \/ exists item, items two_items !! 0 = Some item
      /\ RTryPop two_items = Some (if (item.1 : bool)
           then (item.2, mkRing 4 (<[0 := (false, item.2)]> (items two_items)) 2 (u32 (0 + 1))) else (None, two_items)).
Proof. apply (ring_buffer_reads_one_slot two_items 2); [reflexivity|reflexivity|vm_compute; discriminate]. Defined.

(** The second item is never found, and four items later the slot read is not one. *)
Example second_item_lost : ∃ r, RTryPop two_items = Some (Some 7, r) /\ RTryPop r = Some (None, r).
Proof. eexists. split; reflexivity. Qed.
Example reads_behind_the_end : RTryPop (mkRing (T := nat) 4 (replicate 4 (true, Some 1)) 4 4) = None.
Proof. reflexivity. Qed.
End Examples.
