(* ===== verification/Logger.v ===== *)
(** * The logger (src/bitdb/common/logger_impl.h)

    Log calls of all threads put lines into a blocking queue; one thread takes them out
    and writes them to files, a new one whenever the last has grown to its size, and to
    the console.  A file that is there already is appended to (O_APPEND); [open] and
    [write] may fail or write less.  Nobody else writes to the log files.  Reads and writes
    of [stop_] are single events. *)

From S2P Require Import Prelude Strings Json Threads BlockingQueue.

Inductive LogLevel := TRACE | DEBUG | INFO | WARN | ERROR | FATAL | CTRI.

Definition level_rank (l : LogLevel) : nat :=
  match l with TRACE => 0 | DEBUG => 1 | INFO => 2 | WARN => 3 | ERROR => 4 | FATAL => 5 | CTRI => 6 end.

Definition LogLevelToString (l : LogLevel) : bytes :=
  match l with
  | TRACE => lit "TRACE" | INFO => lit "INFO" | DEBUG => lit "DEBUG" | WARN => lit "WARN"
  | ERROR => lit "ERROR" | FATAL => lit "FATAL" | CTRI => lit "CTRI"
  end.

Definition colored (code : string) (name : bytes) : bytes :=
  z2b 27 :: lit "[" ++ lit code ++ lit "m" ++ name ++ z2b 27 :: lit "[0m".
Definition LogLevelToColorFulString (l : LogLevel) : bytes :=
  match l with
  | TRACE => colored "37" (lit "TRACE") | INFO => colored "32" (lit "INFO")
  | DEBUG => colored "36" (lit "DEBUG") | WARN => colored "33" (lit "WARN")
  | ERROR => colored "31" (lit "ERROR") | FATAL => colored "35" (lit "FATAL")
  | CTRI => colored "35" (lit "CTRI")
  end.

Record LogLine := mkLine {
  level : LogLevel;
  timestamp : Z;
  thread_id : Z;
  file_name : bytes;
  func_name : bytes;
  line_num : Z;
  content : bytes
}.

Section logger.
(** [std::put_time] of the local time, given seconds since the epoch. *)
Context (put_time : Z -> bytes).
(** Whether a log file can be opened. *)
Context (can_open : bytes -> bool).

(** The clock, in nanoseconds, is read when the text is made; [timestamp] is not used. *)
Definition FormatTimestamp (now timestamp : Z) : bytes :=
  Format (lit "[{}.{}]") [put_time (now ÷ 1000000000)%Z; int_text (now ÷ 1000000)%Z].

Definition line_text (name : bytes) (now : Z) (l : LogLine) : bytes :=
  Format (lit "[{}] {} {} {}:{} ({}) : {}" ++ [z2b 10])
    [name; FormatTimestamp now (timestamp l); int_text (thread_id l); file_name l; int_text (line_num l);
     func_name l; content l].
Definition file_text (now : Z) (l : LogLine) : bytes := line_text (LogLevelToString (level l)) now l.
Definition console_text (now : Z) (l : LogLine) : bytes := line_text (LogLevelToColorFulString (level l)) now l.

(** ** FileWriter *)

(** [file_id_]: the name of the file that is open, if one is.  [disk]: what the files hold,
    by name.  [opened] records the files in the order in which they were opened, with the
    bytes written to each since. *)
Record FileWriter := mkWriter {
  file_writer_num_ : Z;
  bytes_written_ : Z;
  log_file_roll_size_bytes_ : Z;
  name_ : bytes;
  file_id_ : option bytes;
  log_to_stdout_ : bool;
  disk : gmap bytes bytes;
  opened : list (bytes * bytes);
  console : bytes
}.

Definition RollFile (w : FileWriter) : FileWriter :=
  let num := u32 (file_writer_num_ w + 1) in
  let log_file_name := name_ w ++ Format (lit ".{}.log") [to_string num] in
  if can_open log_file_name
  then mkWriter num 0 (log_file_roll_size_bytes_ w) (name_ w) (Some log_file_name) (log_to_stdout_ w)
         (<[log_file_name := default [] (disk w !! log_file_name)]> (disk w)) (opened w ++ [(log_file_name, [])])
         (console w)
  else mkWriter num 0 (log_file_roll_size_bytes_ w) (name_ w) None (log_to_stdout_ w) (disk w) (opened w) (console w).

Definition FileWriter_new (log_file_name : bytes) (log_file_roll_size_mb : Z) (log_to_stdout : bool)
    (disk : gmap bytes bytes) : FileWriter :=
  RollFile (mkWriter 0 0 (u32 (log_file_roll_size_mb * 1024 * 1024)) log_file_name None log_to_stdout disk [] []).

(** What [::write] does: everything, the first bytes, or -1. *)
Inductive write_result := Full | Short (n : nat) | Failed.
Definition written_bytes (r : write_result) (data : bytes) : option bytes :=
  match r with Full => Some data | Short n => Some (take n data) | Failed => None end.

Definition append_last (opened : list (bytes * bytes)) (data : bytes) : list (bytes * bytes) :=
  match reverse opened with
  | (name, text) :: before => reverse ((name, text ++ data) :: before)
  | [] => []
  end.

Definition ConsoleWriter_Write (r : write_result) (now : Z) (l : LogLine) (w : FileWriter) : FileWriter :=
  mkWriter (file_writer_num_ w) (bytes_written_ w) (log_file_roll_size_bytes_ w) (name_ w) (file_id_ w)
    (log_to_stdout_ w) (disk w) (opened w) (console w ++ default [] (written_bytes r (console_text now l))).

Definition FileWriter_Write (r rc : write_result) (now now' : Z) (l : LogLine) (w : FileWriter) : FileWriter :=
  match file_id_ w, written_bytes r (file_text now l) with
  | Some name, Some data =>
      let w := mkWriter (file_writer_num_ w) (bytes_written_ w + Z.of_nat (length data))
                 (log_file_roll_size_bytes_ w) (name_ w) (file_id_ w) (log_to_stdout_ w)
                 (<[name := default [] (disk w !! name) ++ data]> (disk w)) (append_last (opened w) data) (console w) in
      let w := if decide (log_file_roll_size_bytes_ w <= bytes_written_ w)%Z then RollFile w else w in
      if log_to_stdout_ w then ConsoleWriter_Write rc now' l w else w
  | _, _ => w
  end.

(** ** Logger *)

(** The persisting thread: at [while (!stop_)], in [pop] at the mutex or asleep, with a
    line to write, or returned.  Its number in the queue is 0. *)
Inductive persister := AtLoop | AtPop | InSleep | Writing (l : LogLine) | PDone.
(** The destructor. *)
Inductive destroyer := Alive | StopSet | QueueStopped | Joins | Destroyed.

(** [entered]: the thread has passed its first look at [stop_].  [logged]: the lines put into
    the queue; [handled]: those the thread has called FileWriter::Write with, with the time
    of that call; [at_stop]: the lines logged before [buffer_.stop()]. *)
Record Logger := mkLogger {
  buffer_ : BlockingQueue LogLine;
  file_writer_ : FileWriter;
  lstop_ : bool;
  min_level_ : LogLevel;
  thread : persister;
  destroying : destroyer;
  entered : bool;
  logged : list LogLine;
  handled : list (Z * LogLine);
  at_stop : list LogLine
}.

Definition Logger_new (disk : gmap bytes bytes) : Logger :=
  mkLogger BlockingQueue_new (FileWriter_new (lit "./log") 32 true disk) false INFO AtLoop Alive false [] [] [].

Definition SetLogLevel (l : LogLevel) (s : Logger) : Logger :=
  mkLogger (buffer_ s) (file_writer_ s) (lstop_ s) l (thread s) (destroying s) (entered s) (logged s) (handled s)
    (at_stop s).

Definition set_buffer (b : BlockingQueue LogLine) (th : persister) (s : Logger) : Logger :=
  mkLogger b (file_writer_ s) (lstop_ s) (min_level_ s) th (destroying s) (entered s) (logged s) (handled s)
    (at_stop s).

Definition Log (lv : LogLevel) (now tid : Z) (file func : bytes) (line : Z) (fmt : bytes) (args : list bytes)
    (s : Logger) : Logger :=
  if decide (level_rank lv < level_rank (min_level_ s)) then s else
  let l := mkLine lv now tid file func line (Format fmt args) in
  mkLogger (push l (buffer_ s)) (file_writer_ s) (lstop_ s) (min_level_ s) (thread s) (destroying s) (entered s)
    (logged s ++ [l]) (handled s) (at_stop s).

(** One turn of PersistThreadFunc. *)
Definition PersistThreadFunc (r rc : write_result) (now now' : Z) (s : Logger) : option Logger :=
  match thread s with
  | AtLoop =>
      if lstop_ s then Some (set_buffer (buffer_ s) PDone s)
      else Some (mkLogger (buffer_ s) (file_writer_ s) (lstop_ s) (min_level_ s) AtPop (destroying s) true
                   (logged s) (handled s) (at_stop s))
  | AtPop =>
      let '(res, b) := pop 0 (buffer_ s) in
      Some (set_buffer b (match res with Item l => Writing l | Ended => AtLoop | Slept => InSleep end) s)
  | Writing l =>
      Some (mkLogger (buffer_ s) (FileWriter_Write r rc now now' l (file_writer_ s)) (lstop_ s) (min_level_ s) AtPop
              (destroying s) (entered s) (logged s) (handled s ++ [(now, l)]) (at_stop s))
  | InSleep | PDone => None
  end.

(** One turn of the destructor. *)
Definition Logger_destroy (s : Logger) : option Logger :=
  let next b st d snap := Some (mkLogger b (file_writer_ s) st (min_level_ s) (thread s) d (entered s) (logged s)
                                 (handled s) snap) in
  match destroying s with
  | Alive => next (buffer_ s) true StopSet (at_stop s)
  | StopSet => next (stop (buffer_ s)) (lstop_ s) QueueStopped (logged s)
  | QueueStopped =>
      b ← notify_all (buffer_ s);
      Some (mkLogger b (file_writer_ s) (lstop_ s) (min_level_ s)
              (if thread s is InSleep then AtPop else thread s) Joins (entered s) (logged s) (handled s) (at_stop s))
  | Joins => if thread s is PDone then next (buffer_ s) (lstop_ s) Destroyed (at_stop s) else None
  | Destroyed => None
  end.

Inductive levent :=
| Logs (lv : LogLevel) (now tid : Z) (file func : bytes) (line : Z) (fmt : bytes) (args : list bytes)
| SetsLevel (lv : LogLevel) | LNotifies | Persists (r rc : write_result) (now now' : Z) | LDestroys | LWakes.

Definition lstep (e : levent) (s : Logger) : option Logger :=
  match e with
  | Logs lv now tid file func line fmt args => Some (Log lv now tid file func line fmt args s)
  | SetsLevel lv => Some (SetLogLevel lv s)
  | LNotifies =>
      if thread s is InSleep
      then b ← notify_one (Some 0) (buffer_ s); Some (set_buffer b AtPop s)
      else b ← notify_one None (buffer_ s); Some (set_buffer b (thread s) s)
  | Persists r rc now now' => PersistThreadFunc r rc now now' s
  | LDestroys => Logger_destroy s
  | LWakes =>
      if thread s is InSleep then b ← wake_up 0 (buffer_ s); Some (set_buffer b AtPop s) else None
  end.

(** ** The invariant *)

Definition writing (th : persister) : list LogLine := if th is Writing l then [l] else [].
(** How far the destructor is: [stop_] set, the queue stopped. *)
Definition destroy_called (d : destroyer) : bool := if d is Alive then false else true.
Definition stop_called (d : destroyer) : bool := match d with QueueStopped | Joins | Destroyed => true | _ => false end.

Record logger_ok (s : Logger) : Prop := {
  lok_lines : logged s = (handled s).*2 ++ writing (thread s) ++ queue_ (buffer_ s);
  lok_stop : lstop_ s = destroy_called (destroying s);
  lok_qstop : qstop_ (buffer_ s) = stop_called (destroying s);
  lok_asleep : asleep (buffer_ s) = if thread s is InSleep then {[0]} else ∅;
  lok_wakeup : thread s = InSleep -> queue_ (buffer_ s) = [] \/ 0 < notify_one_due (buffer_ s);
  lok_stopped : stop_called (destroying s) = true -> thread s = InSleep -> destroying s = QueueStopped;
  lok_due : notify_all_due (buffer_ s) = if destroying s is QueueStopped then 1 else 0;
  lok_prefix : stop_called (destroying s) = true -> at_stop s `prefix_of` logged s;
  lok_flushed : entered s = true -> thread s = AtLoop \/ thread s = PDone ->
                stop_called (destroying s) = true /\ at_stop s `prefix_of` (handled s).*2;
  lok_entered : entered s = false -> thread s = AtLoop \/ thread s = PDone;
  lok_done : thread s = PDone -> lstop_ s = true;
  lok_destroyed : destroying s = Destroyed -> thread s = PDone
}.

Lemma Logger_new_ok d : logger_ok (Logger_new d).
Proof. split; simpl; try done. by left. Qed.

(** Events of the queue that leave the lines where they are. *)
Lemma set_buffer_ok b th s : logger_ok s ->
  writing th ++ queue_ b = writing (thread s) ++ queue_ (buffer_ s) ->
  qstop_ b = qstop_ (buffer_ s) -> notify_all_due b = notify_all_due (buffer_ s) ->
  asleep b = (if th is InSleep then {[0]} else ∅) ->
  (th = InSleep -> queue_ b = [] /\ qstop_ b = false) ->
  (entered s = true -> th = AtLoop \/ th = PDone ->
     stop_called (destroying s) = true /\ at_stop s `prefix_of` (handled s).*2) ->
  (entered s = false -> th = AtLoop \/ th = PDone) ->
  (th = PDone -> lstop_ s = true) -> (destroying s = Destroyed -> th = PDone) ->
  logger_ok (set_buffer b th s).
Proof.
  intros [Hl Hs Hq Ha Hw Hst Hd Hp Hf He Hdn Hde] E Eq En Ea Hsl Hfl Hen Hpd Hdd.
  split; simpl; try done; try congruence.
  - intros Et. left. by apply Hsl.
  - intros Ec Et. apply Hsl in Et as [_ Et]. congruence.
Qed.

Lemma Log_ok lv now tid file func line fmt args s :
  logger_ok s -> logger_ok (Log lv now tid file func line fmt args s).
Proof.
  intros Hok. unfold Log. case_decide; [done|]. destruct Hok as [Hl Hs Hq Ha Hw Hst Hd Hp Hf He Hdn Hde].
  split; simpl; try done.
  - by rewrite Hl, <-!app_assoc.
  - right. lia.
  - intros Ec. etrans; [by apply Hp|]. by apply prefix_app_r.
Qed.

Lemma PersistThreadFunc_ok r rc now now' s s' : logger_ok s ->
  PersistThreadFunc r rc now now' s = Some s' -> logger_ok s'.
Proof.
  intros Hok. pose proof Hok as [Hl Hs Hq Ha Hw Hst Hd Hp Hf He Hdn Hde]. unfold PersistThreadFunc.
  destruct (thread s) as [| | |l|] eqn:Et; try done.
  - destruct (lstop_ s) eqn:Es; intros [= <-].
    + apply set_buffer_ok; rewrite ?Et; try done; auto.
    + split; simpl; try done; [by intros _ []|]. intros E. by specialize (Hde E).
  - unfold pop. destruct (queue_ (buffer_ s)) as [|l rest] eqn:Eb; [destruct (qstop_ (buffer_ s)) eqn:Es|]; intros [= <-].
    + apply set_buffer_ok; rewrite ?Et, ?Eb, ?Es; try done; [|by intros; left|].
      * intros _ _. split; [done|]. rewrite Hl, app_nil_r in Hp. by apply Hp.
      * intros E. by specialize (Hde E).
    + apply set_buffer_ok; rewrite ?Et, ?Eb, ?Es; try done; simpl.
      * rewrite Ha. set_solver.
      * by intros _ [].
      * intros E. destruct (He E); done.
      * intros E. by specialize (Hde E).
    + apply set_buffer_ok; rewrite ?Et, ?Eb; try done; simpl.
      * by intros _ [].
      * intros E. destruct (He E); done.
      * intros E. by specialize (Hde E).
  - intros [= <-]. split; simpl; try done.
    + by rewrite Hl, fmap_app, <-app_assoc.
    + by intros _ [].
    + intros E. destruct (He E); done.
    + intros E. by specialize (Hde E).
Qed.

Lemma Logger_destroy_ok s s' : logger_ok s -> Logger_destroy s = Some s' -> logger_ok s'.
Proof.
  intros [Hl Hs Hq Ha Hw Hst Hd Hp Hf He Hdn Hde]. unfold Logger_destroy.
  destruct (destroying s) eqn:Ed; simpl; [intros [= <-]..| | |done].
  - by split.
  - split; simpl; try done; [by rewrite Hd|]. intros He' Hth. destruct (Hf He' Hth); done.
  - unfold notify_all. rewrite Hd. simpl. intros [= <-]. split; simpl; try done.
    + rewrite Hl. by destruct (thread s).
    + by destruct (thread s).
    + by destruct (thread s).
    + by destruct (thread s).
    + intros He'. destruct (thread s) eqn:Et; intros Hth; try (by apply Hf); by destruct Hth.
    + intros He'. destruct (thread s) eqn:Et; auto; by destruct (He He').
  - destruct (thread s) eqn:Et; try done. intros [= <-]. split; simpl; rewrite ?Et; done.
Qed.

(** The sleeping thread wakes up. *)
Lemma wake_persister_ok b s : logger_ok s -> thread s = InSleep ->
  queue_ b = queue_ (buffer_ s) -> qstop_ b = qstop_ (buffer_ s) -> notify_all_due b = notify_all_due (buffer_ s) ->
  asleep b = ∅ -> logger_ok (set_buffer b AtPop s).
Proof.
  intros Hok Et Eq Es En Ea. pose proof Hok as [Hl _ _ _ _ _ _ _ Hf He Hdn Hde].
  apply set_buffer_ok; rewrite ?Et, ?Eq; try done.
  - by intros _ [].
  - intros E. rewrite Et in He. by destruct (He E).
  - intros E. rewrite Et in Hde. by specialize (Hde E).
Qed.

Lemma lstep_ok e s s' : logger_ok s -> lstep e s = Some s' -> logger_ok s'.
Proof.
  intros Hok. pose proof Hok as [Hl Hs Hq Ha Hw Hst Hd Hp Hf He Hdn Hde].
  destruct e as [lv now tid file func line fmt args|lv| |r rc now now'| |]; cbn [lstep].
  - intros [= <-]. by apply Log_ok.
  - intros [= <-]. by split.
  - unfold notify_one. destruct (notify_one_due (buffer_ s)) as [|n]; [by destruct (thread s)|].
    destruct (thread s) eqn:Et; simpl.
    3: { case_decide; [|done]. intros [= <-]. apply wake_persister_ok; try done. simpl. rewrite Ha. set_solver. }
    all: rewrite decide_True by done; intros [= <-]; apply set_buffer_ok; rewrite ?Et; auto; done.
  - apply PersistThreadFunc_ok, Hok.
  - apply Logger_destroy_ok, Hok.
  - unfold wake_up. destruct (thread s) eqn:Et; try done. case_decide; [|done]. intros [= <-].
    apply wake_persister_ok; try done. simpl. rewrite Ha. set_solver.
Qed.

Lemma lreachable_ok d es s : exec lstep es (Logger_new d) = Some s -> logger_ok s.
Proof. apply (exec_inv lstep logger_ok lstep_ok), Logger_new_ok. Qed.

(** Neither a notification nor the two threads can move. *)
Definition lstuck (s : Logger) : Prop :=
  lstep LNotifies s = None /\ (forall r rc now now', PersistThreadFunc r rc now now' s = None)
  /\ (destroying s = Alive \/ Logger_destroy s = None).

Lemma lstuck_idle s : logger_ok s -> lstuck s ->
  destroying s = Alive /\ writing (thread s) ++ queue_ (buffer_ s) = [] \/ destroying s = Destroyed.
Proof.
  intros [Hl Hs Hq Ha Hw Hst Hd Hp Hf He Hdn Hde] (Hn & Hpt & Hde'). specialize (Hpt Full Full 0%Z 0%Z).
  unfold PersistThreadFunc in Hpt. destruct (thread s) eqn:Et; try done.
  - by destruct (lstop_ s).
  - by destruct (pop 0 (buffer_ s)).
  - cbn [lstep] in Hn. rewrite Et in Hn. unfold notify_one in Hn.
    destruct (Hw eq_refl) as [Eq|Hlt].
    + left. rewrite Eq. destruct Hde' as [|Hx]; [done|]. exfalso.
      unfold Logger_destroy, notify_all in Hx. rewrite Hd, Et in Hx.
      destruct (destroying s); simpl in Hx; try done; [by specialize (Hst eq_refl eq_refl)|by specialize (Hde eq_refl)].
    + destruct (notify_one_due (buffer_ s)); [lia|]. rewrite Ha in Hn. simpl in Hn.
      by rewrite decide_True in Hn by set_solver.
  - right. destruct Hde' as [Ea|Hx]; [rewrite Ea in Hs; by rewrite Hdn in Hs|].
    unfold Logger_destroy, notify_all in Hx. rewrite Hd, Et in Hx. rewrite Hdn in Hs by done.
    by destruct (destroying s).
Qed.

(** ** What the files hold *)

Definition text_of (lines : list (Z * LogLine)) : bytes := lines ≫= fun p => file_text p.1 p.2.

(** What was written to the file of that name. *)
Definition new_text (name : bytes) (opened : list (bytes * bytes)) : bytes :=
  mjoin (filter (fun f => f.1 = name) opened).*2.

(** On the disk, what was written stands behind what the files held before. *)
Record disk_ok (old : gmap bytes bytes) (w : FileWriter) : Prop := {
  dok_files : forall name, default [] (disk w !! name) = default [] (old !! name) ++ new_text name (opened w);
  dok_open : forall name, file_id_ w = Some name -> exists before text, opened w = before ++ [(name, text)]
}.

(** The lines so far are in the files, in order; every file but the last is full, and
    the count of bytes is the last file's. *)
Record writer_ok (lines : list (Z * LogLine)) (w : FileWriter) : Prop := {
  wok_text : mjoin (opened w).*2 = text_of lines;
  wok_last : exists before name text, opened w = before ++ [(name, text)] /\ file_id_ w = Some name
    /\ bytes_written_ w = Z.of_nat (length text) /\ (bytes_written_ w < log_file_roll_size_bytes_ w)%Z
    /\ Forall (fun f => log_file_roll_size_bytes_ w <= Z.of_nat (length f.2))%Z before
}.

Lemma text_of_snoc lines now l : text_of (lines ++ [(now, l)]) = text_of lines ++ file_text now l.
Proof.
  unfold text_of. rewrite bind_app. f_equal. cbn [mbind list_bind fst snd]. apply app_nil_r.
Qed.

Lemma join_snoc (before : list (bytes * bytes)) name text :
  mjoin (before ++ [(name, text)]).*2 = mjoin before.*2 ++ text.
Proof. rewrite fmap_app, join_app. f_equal. apply app_nil_r. Qed.

Lemma append_last_snoc before name text data :
  append_last (before ++ [(name, text)]) data = before ++ [(name, text ++ data)].
Proof. unfold append_last. rewrite reverse_snoc. by rewrite reverse_cons, reverse_involutive. Qed.

Lemma new_text_snoc f before name text :
  new_text f (before ++ [(name, text)]) = new_text f before ++ (if decide (name = f) then text else []).
Proof.
  unfold new_text. rewrite filter_app, fmap_app, join_app. f_equal. rewrite filter_cons, filter_nil. simpl.
  case_decide; simpl; [apply app_nil_r|done].
Qed.

Lemma RollFile_disk old w : disk_ok old w -> disk_ok old (RollFile w).
Proof.
  intros [Hf Ho]. unfold RollFile. case_match; split; simpl; try done.
  - intros name. rewrite new_text_snoc. generalize (name_ w ++ Format (lit ".{}.log") [to_string (u32 (file_writer_num_ w + 1))]).
    intros f. destruct (decide (f = name)) as [->|]; rewrite app_nil_r, <-Hf; [by rewrite lookup_insert_eq|by rewrite lookup_insert_ne].
  - intros name [= <-]. by eexists _, [].
Qed.

Lemma FileWriter_Write_disk old r rc now now' l w : disk_ok old w -> disk_ok old (FileWriter_Write r rc now now' l w).
Proof.
  intros Hok. unfold FileWriter_Write. destruct (file_id_ w) as [f|] eqn:Ef; [|done].
  destruct (written_bytes r (file_text now l)) as [data|]; [|done]. cbv zeta.
  assert (forall w', disk_ok old w' -> disk_ok old (if log_to_stdout_ w' then ConsoleWriter_Write rc now' l w' else w')) as Hcon.
  { intros w' [? ?]. destruct (log_to_stdout_ w'); by split. }
  apply Hcon. match goal with |- disk_ok _ (if decide _ then RollFile ?w else _) => assert (disk_ok old w) end.
  2: { case_decide; [by apply RollFile_disk|done]. }
  destruct Hok as [Hf Ho]. destruct (Ho f Ef) as (before & text & Eo). split; simpl.
  - intros name. rewrite Eo, append_last_snoc, new_text_snoc. destruct (decide (f = name)) as [->|].
    + rewrite lookup_insert_eq. simpl. rewrite Hf, Eo, new_text_snoc, decide_True by done. by rewrite <-!app_assoc.
    + rewrite lookup_insert_ne by done. rewrite Hf, Eo, new_text_snoc. by rewrite decide_False by done.
  - intros name [= <-]. rewrite Eo, append_last_snoc. eauto.
Qed.

Lemma RollFile_ok lines w before : (forall f, can_open f = true) -> opened w = before ->
  mjoin before.*2 = text_of lines -> (0 < log_file_roll_size_bytes_ w)%Z ->
  Forall (fun f => log_file_roll_size_bytes_ w <= Z.of_nat (length f.2))%Z before -> writer_ok lines (RollFile w).
Proof.
  intros Hopen <- Ht Hpos Hall. unfold RollFile. rewrite Hopen. split; simpl.
  - by rewrite fmap_app, join_app, Ht, app_nil_r.
  - by eexists _, _, [].
Qed.

Lemma FileWriter_Write_ok rc now now' l lines w : (forall f, can_open f = true) ->
  (0 < log_file_roll_size_bytes_ w)%Z -> writer_ok lines w ->
  writer_ok (lines ++ [(now, l)]) (FileWriter_Write Full rc now now' l w).
Proof.
  intros Hopen Hpos [Ht (before & name & text & Ef & Eo & Eb & Hlt & Hall)].
  assert (forall w', writer_ok (lines ++ [(now, l)]) w' ->
    writer_ok (lines ++ [(now, l)]) (if log_to_stdout_ w' then ConsoleWriter_Write rc now' l w' else w')) as Hcon.
  { intros w' [? ?]. destruct (log_to_stdout_ w'); by split. }
  assert (mjoin (before ++ [(name, text ++ file_text now l)]).*2 = text_of (lines ++ [(now, l)])) as Ht'.
  { by rewrite text_of_snoc, <-Ht, Ef, !join_snoc, app_assoc. }
  unfold FileWriter_Write. rewrite Eo. cbn [written_bytes]. cbv zeta. apply Hcon. rewrite Ef, append_last_snoc, Eb.
  revert Ht'. generalize (file_text now l). intros data Ht'.
  case_decide as Hroll; simpl in Hroll.
  - apply (RollFile_ok _ _ (before ++ [(name, text ++ data)])); simpl; try done.
    apply Forall_app_2; [done|]. apply Forall_singleton. simpl. rewrite length_app. lia.
  - split; simpl; [done|]. eexists before, name, _. split_and!; [done|done| |lia|done]. rewrite length_app. lia.
Qed.

(** Writes that write everything. *)
Definition full_writes (e : levent) : Prop := if e is Persists r _ _ _ then r = Full else True.

Lemma roll_size_Write r rc now now' l w :
  log_file_roll_size_bytes_ (FileWriter_Write r rc now now' l w) = log_file_roll_size_bytes_ w.
Proof.
  unfold FileWriter_Write. destruct (file_id_ w); [|done]. destruct (written_bytes _ _); [|done]. cbv zeta.
  assert (forall w', log_file_roll_size_bytes_ (RollFile w') = log_file_roll_size_bytes_ w') as R
    by (intros w'; unfold RollFile; by destruct (can_open _)).
  case_decide; rewrite ?R; case_match; simpl; by rewrite ?R.
Qed.

(** Only the persisting thread, when it has a line, changes the files. *)
Lemma lstep_writer e s s' : lstep e s = Some s' ->
  handled s' = handled s /\ file_writer_ s' = file_writer_ s
  \/ exists l r rc now now', e = Persists r rc now now' /\ handled s' = handled s ++ [(now, l)]
      /\ file_writer_ s' = FileWriter_Write r rc now now' l (file_writer_ s).
Proof.
  intros E. destruct e as [lv now tid file func line fmt args|lv| |r rc now now'| |]; cbn [lstep] in E.
  - unfold Log in E. case_decide; left; by simplify_eq/=.
  - left. by simplify_eq/=.
  - left. destruct (thread s); apply bind_Some in E as (? & _ & [= <-]); done.
  - unfold PersistThreadFunc in E. repeat case_match; simplify_eq/=; eauto 10.
  - left. unfold Logger_destroy in E. repeat case_match; simplify_eq/=; try done;
      apply bind_Some in E as (? & _ & [= <-]); done.
  - left. destruct (thread s); try done. apply bind_Some in E as (? & _ & [= <-]); done.
Qed.

Lemma run_disk old es s : exec lstep es (Logger_new old) = Some s -> disk_ok old (file_writer_ s).
Proof.
  apply (exec_inv lstep (fun s => disk_ok old (file_writer_ s))).
  - intros e s0 s' Hok E. destruct (lstep_writer e s0 s' E) as [[_ ->]|(l & r & rc & now & now' & _ & _ & ->)]; [done|].
    by apply FileWriter_Write_disk.
  - apply RollFile_disk. split; [|done]. intros name. unfold new_text. by rewrite app_nil_r.
Qed.

Lemma run_files old es s : (forall f, can_open f = true) -> Forall full_writes es ->
  exec lstep es (Logger_new old) = Some s -> writer_ok (handled s) (file_writer_ s).
Proof.
  intros Hopen Hall Hrun.
  assert ((0 < log_file_roll_size_bytes_ (file_writer_ s))%Z /\ writer_ok (handled s) (file_writer_ s)) as [_ H]; [|exact H].
  assert ((0 < log_file_roll_size_bytes_ (file_writer_ (Logger_new old)))%Z
          /\ writer_ok (handled (Logger_new old)) (file_writer_ (Logger_new old))) as Hs.
  { split; [|by apply (RollFile_ok [] _ [])]. simpl. unfold FileWriter_new, RollFile. by rewrite Hopen. }
  revert Hs Hrun. generalize (Logger_new old). induction Hall as [|e es He _ IH]; intros s0 Hs; simpl; [by intros [= <-]|].
  intros (s1 & E1 & E2)%bind_Some. apply (IH s1); [|done].
  destruct (lstep_writer e s0 s1 E1) as [[-> ->]|(l & r & rc & now & now' & -> & -> & ->)]; [done|].
  simpl in He. subst r. rewrite roll_size_Write. destruct Hs. split; [done|]. by apply FileWriter_Write_ok.
Qed.
End logger.

(** C16: in every interleaving of logging threads, the persisting thread and the
    destructor nobody waits for ever, whatever [open] and [write] do: when neither
    notifications nor the persisting thread can move, either the queue is empty, no line
    is being written and the logger is alive, or its destructor has returned.  As long as
    log files can be opened and writes are complete, what was written to the log files is
    the text of the lines whose level is high enough, in the order in which they were
    logged, but for the one the persisting thread holds and those still in the queue; and
    once the destructor has returned, every line logged before the queue was stopped is
    among them, provided the persisting thread had found [stop_] unset once. *)
Theorem logger_flushes put_time can_open old es s :
  exec (lstep put_time can_open) es (Logger_new can_open old) = Some s ->
  (lstuck put_time can_open s ->
     destroying s = Alive /\ writing (thread s) ++ queue_ (buffer_ s) = [] \/ destroying s = Destroyed)
  /\ ((forall f, can_open f = true) -> Forall full_writes es ->
      exists lines, mjoin (opened (file_writer_ s)).*2 = text_of put_time lines
        /\ logged s = lines.*2 ++ writing (thread s) ++ queue_ (buffer_ s)
        /\ (destroying s = Destroyed -> entered s = true -> at_stop s `prefix_of` lines.*2)).
Proof.
  intros Hrun. pose proof (lreachable_ok _ _ _ _ _ Hrun) as Hok. split; [by apply lstuck_idle|]. intros Hopen Hall.
  exists (handled s). split_and!; [by eapply run_files|apply Hok|].
  intros Hd He. by apply (lok_flushed _ Hok He); right; apply Hok.
Qed.

(** C38: every file on the disk holds what it held before the logger was made, followed by
    what was written to it, whichever files could be opened and however much was written.
    While log files can be opened and writes are complete, what was written to the log
    files, in the order in which they were opened, is exactly the text of the lines taken
    from the queue, in order; and a file is left for the next one when the logger has
    written the roll size to it, and not before, however long it was. *)
Theorem log_files_hold_lines put_time can_open old es s :
  exec (lstep put_time can_open) es (Logger_new can_open old) = Some s ->
  (forall name, default [] (disk (file_writer_ s) !! name)
                = default [] (old !! name) ++ new_text name (opened (file_writer_ s)))
  /\ ((forall f, can_open f = true) -> Forall full_writes es ->
      mjoin (opened (file_writer_ s)).*2 = text_of put_time (handled s)
      /\ exists before name text, opened (file_writer_ s) = before ++ [(name, text)]
          /\ Forall (fun f => log_file_roll_size_bytes_ (file_writer_ s) <= Z.of_nat (length f.2))%Z before
          /\ (Z.of_nat (length text) < log_file_roll_size_bytes_ (file_writer_ s))%Z).
Proof.
  intros Hrun. split; [by apply (dok_files _ _ (run_disk _ _ _ _ _ Hrun))|]. intros Hopen Hall.
  destruct (run_files _ _ _ _ _ Hopen Hall Hrun) as [Ht (before & name & text & Ef & _ & Eb & Hlt & Hb)].
  split; [done|]. exists before, name, text. split_and!; [done..|lia].
Qed.

Module Examples.

Definition noon : Z -> bytes := fun _ => lit "2024-01-02 12.00.00".
Definition hello (lv : LogLevel) : levent := Logs lv 5 77 (lit "db.cpp") (lit "Open") 31 (lit "n = {}") [lit "3"].

(** Two lines that count and one below the level; the destructor waits for both. *)
Definition session : list levent :=
  [Persists Full Full 0 0; Persists Full Full 0 0; hello INFO; hello DEBUG; LNotifies; hello WARN;
   Persists Full Full 0 0; Persists Full Full 7000000000 8000000000; LDestroys; LDestroys; LDestroys;
   Persists Full Full 0 0; Persists Full Full 9000000000 9000000000; Persists Full Full 0 0;
   Persists Full Full 0 0; LDestroys].
Definition started (can_open : bytes -> bool) : Logger :=
  Logger_new can_open {[lit "./log.1.log" := lit "an older line" ++ [z2b 10]]}.
Definition session_end : Logger :=
  default (started (fun _ => true)) (exec (lstep noon (fun _ => true)) session (started (fun _ => true))).

Lemma session_run : exec (lstep noon (fun _ => true)) session (started (fun _ => true)) = Some session_end.
Proof. vm_compute. reflexivity. Qed.

Lemma logger_flushes_witness :
  destroying session_end = Destroyed /\ length (at_stop session_end) = 2
  /\ exists lines, mjoin (opened (file_writer_ session_end)).*2 = text_of noon lines
      /\ at_stop session_end `prefix_of` lines.*2.
Proof.
  split_and!; [vm_compute; reflexivity..|].
  destruct (logger_flushes noon (fun _ => true) _ session session_end session_run) as [_ H].
  destruct H as (lines & E & _ & P); [done|repeat constructor|].
  exists lines. split; [exact E|]. apply P; vm_compute; reflexivity.
Defined.

Lemma log_files_hold_lines_witness :
  default [] (disk (file_writer_ session_end) !! lit "./log.1.log")
  = lit "an older line" ++ [z2b 10] ++ text_of noon (handled session_end).
Proof.
  destruct (log_files_hold_lines noon (fun _ => true) _ session session_end session_run) as [D H].
  destruct H as [T _]; [done|repeat constructor|]. rewrite <-T, D. vm_compute. reflexivity.
Defined.

(** The text in the file: the time is that of the writing, with all of the milliseconds
    since the epoch after the dot. *)
Example first_line :
  opened (file_writer_ session_end) ≫= (fun f => take 73 f.2)
  = lit "[INFO] [2024-01-02 12.00.00.7000] 77 db.cpp:31 (Open) : n = 3" ++ z2b 10 :: lit "[WARN] [202".
Proof. vm_compute. reflexivity. Qed.

(** A logger destroyed before its thread has looked at [stop_] writes none of its lines. *)
Example destroyed_before_the_thread_starts :
  exists s, exec (lstep noon (fun _ => true))
      [hello INFO; LDestroys; LDestroys; LDestroys; Persists Full Full 0 0; LDestroys] (started (fun _ => true)) = Some s
    /\ destroying s = Destroyed /\ length (logged s) = 1 /\ handled s = [].
Proof. eexists. split_and!; vm_compute; reflexivity. Qed.

(** When a file cannot be opened, lines are dropped from then on, on the console too. *)
Example no_log_file :
  let s := default (started (fun _ => false)) (exec (lstep noon (fun _ => false)) session (started (fun _ => false))) in
  destroying s = Destroyed /\ length (logged s) = 2 /\ opened (file_writer_ s) = [] /\ console (file_writer_ s) = [].
Proof. vm_compute. done. Qed.
End Examples.
