(* ===== verification/QueuePools.v ===== *)
(** * Pools with a queue per worker
      (src/bitdb/co/co_thread_pool.cpp, src/bitdb/common/blocking_queue_thread_pool.h)

    Each worker sleeps on a blocking queue of its own.  The coroutine pool lets workers
    steal from the other queues and puts a handle on the first queue whose mutex is
    free; the function pool is the same loop without stealing.  The state keeps the
    calls in flight, the workers and the destructor, each at the point between two
    locked regions where it is. *)

From S2P Require Import Prelude Threads BlockingQueue.

Section pools.
Context {Handle : Type}.

(** [queue_no], the queue the item was put on, is not in the code. *)
Record TaskItem := mkItem { handle : Handle; can_steal : bool; queue_no : nat }.

(** A worker: in the stealing loop, at the mutex of [pop], asleep in it, looking at the
    stop flag, with an item, or returned. *)
Inductive pworker := Steal (i : nat) | PopAt | PopSleep | CheckStop | Resume (it : TaskItem) | Gone.

(** A call: ScheduleById and its loop, Commit, CommitById, the push, or its end. *)
Inductive call :=
| Schedules (h : option Handle) (id : Z) | Tries (h : Handle) (i : nat)
| Commits (h : Handle) | CommitsById (h : option Handle) (id : Z)
| Pushes (it : TaskItem) | Done (accepted : bool) | AssertFailed.

(** The destructor, or Shutdown: before [queue.stop()] of a queue, before the
    notification in it, in the joins. *)
Inductive stopper := Running | StopsQueue (i : nat) | NotifiesQueue (i : nat) | JoinsWorkers | Over.

(** [scheduled] and [handled] record the items put on the queues, and those whose
    coroutine was resumed (or found done), with the worker.  [quiet]: no call was under
    way behind its look at the stop flag when it was set, and no Commit came after. *)
Record QPool := mkQPool {
  thread_num_ : nat;
  enable_work_steal_ : bool;
  stopped_ : bool;
  task_queues_ : list (BlockingQueue TaskItem);
  pworkers_ : list pworker;
  calls : list call;
  stopper_ : stopper;
  scheduled : list TaskItem;
  handled : list (TaskItem * nat);
  quiet : bool
}.

(** The worker's loop starts here. *)
Definition loop_top (steal : bool) : pworker := if steal then Steal 0 else PopAt.

Definition QPool_new (thread_num hardware_concurrency : nat) (steal : bool) : QPool :=
  let n := if decide (thread_num = 0) then hardware_concurrency else thread_num in
  mkQPool n steal false (replicate thread_num BlockingQueue_new) (replicate n (loop_top steal)) [] Running [] [] false.

(** The function pool: a worker per queue, no stealing. *)
Definition FunctionPool_new (thread_num : nat) : QPool := QPool_new thread_num thread_num false.

Definition set_pworker (w : nat) (st : pworker) (p : QPool) : QPool :=
  mkQPool (thread_num_ p) (enable_work_steal_ p) (stopped_ p) (task_queues_ p) (<[w := st]> (pworkers_ p)) (calls p)
    (stopper_ p) (scheduled p) (handled p) (quiet p).
Definition set_queue (i : nat) (q : BlockingQueue TaskItem) (p : QPool) : QPool :=
  mkQPool (thread_num_ p) (enable_work_steal_ p) (stopped_ p) (<[i := q]> (task_queues_ p)) (pworkers_ p) (calls p)
    (stopper_ p) (scheduled p) (handled p) (quiet p).
Definition set_call (c : nat) (st : call) (p : QPool) : QPool :=
  mkQPool (thread_num_ p) (enable_work_steal_ p) (stopped_ p) (task_queues_ p) (pworkers_ p) (<[c := st]> (calls p))
    (stopper_ p) (scheduled p) (handled p) (quiet p).
Definition set_stopper (d : stopper) (p : QPool) : QPool :=
  mkQPool (thread_num_ p) (enable_work_steal_ p) (stopped_ p) (task_queues_ p) (pworkers_ p) (calls p)
    d (scheduled p) (handled p) (quiet p).

(** ** The worker's loop *)

Definition steal_turn (w i : nat) (locked : bool) (p : QPool) : option QPool :=
  if decide (i < thread_num_ p) then
    let j := (w + i) mod thread_num_ p in
    q ← task_queues_ p !! j;
    match try_pop_if locked (Some can_steal) q with
    | (Some it, q') => Some (set_pworker w (Resume it) (set_queue j q' p))
    | (None, _) => Some (set_pworker w (Steal (S i)) p)
    end
  else Some (set_pworker w PopAt p).

Definition pop_turn (w : nat) (p : QPool) : option QPool :=
  q ← task_queues_ p !! w;
  let '(res, q') := pop w q in
  Some (set_pworker w (match res with Item it => Resume it | Ended => CheckStop | Slept => PopSleep end)
          (set_queue w q' p)).

Definition pworker_turn (w : nat) (locked : bool) (p : QPool) : option QPool :=
  match pworkers_ p !! w with
  | Some (Steal i) => steal_turn w i locked p
  | Some PopAt => pop_turn w p
  | Some CheckStop => Some (set_pworker w (if stopped_ p then Gone else loop_top (enable_work_steal_ p)) p)
  | Some (Resume it) =>
      Some (mkQPool (thread_num_ p) (enable_work_steal_ p) (stopped_ p) (task_queues_ p)
              (<[w := loop_top (enable_work_steal_ p)]> (pworkers_ p)) (calls p) (stopper_ p) (scheduled p)
              (handled p ++ [(it, w)]) (quiet p))
  | _ => None
  end.

(** ** The calls *)

(** ScheduleById up to the loop or the push; [r] is what [rand()] returns. *)
Definition ScheduleById (h : option Handle) (id : Z) (r : nat) (p : QPool) : call :=
  match h with
  | None => Done false
  | Some h =>
      if stopped_ p then Done false else
      if decide (id = -1)%Z
      then if enable_work_steal_ p then Tries h 0 else Pushes (mkItem h (enable_work_steal_ p) (r mod thread_num_ p))
      else if decide (0 <= id < Z.of_nat (thread_num_ p))%Z
           then Pushes (mkItem h false (Z.to_nat id)) else AssertFailed
  end.

(** Commit has no look at the stop flag; CommitById's id is a [size_t]. *)
Definition Commit (h : Handle) (r : nat) (p : QPool) : call := Pushes (mkItem h false (r mod thread_num_ p)).
Definition CommitById (h : option Handle) (id : Z) (p : QPool) : call :=
  match h with
  | None => Done false
  | Some h =>
      if stopped_ p then Done false else
      if decide (u64 id < Z.of_nat (thread_num_ p))%Z
      then Pushes (mkItem h false (Z.to_nat (u64 id))) else AssertFailed
  end.

(** An item on its queue. *)
Definition put (it : TaskItem) (q : BlockingQueue TaskItem) (p : QPool) : QPool :=
  mkQPool (thread_num_ p) (enable_work_steal_ p) (stopped_ p) (<[queue_no it := q]> (task_queues_ p)) (pworkers_ p)
    (calls p) (stopper_ p) (scheduled p ++ [it]) (handled p) (quiet p).

Definition call_turn (c : nat) (locked : bool) (r : nat) (p : QPool) : option QPool :=
  match calls p !! c with
  | Some (Schedules h id) => Some (set_call c (ScheduleById h id r p) p)
  | Some (Commits h) => Some (set_call c (Commit h r p) p)
  | Some (CommitsById h id) => Some (set_call c (CommitById h id p) p)
  | Some (Tries h i) =>
      if decide (i < thread_num_ p * 2) then
        let it := mkItem h true (i mod thread_num_ p) in
        q ← task_queues_ p !! queue_no it;
        match try_push locked it q with
        | (true, q') => Some (set_call c (Done true) (put it q' p))
        | (false, _) => Some (set_call c (Tries h (S i)) p)
        end
      else Some (set_call c (Pushes (mkItem h (enable_work_steal_ p) (r mod thread_num_ p))) p)
  | Some (Pushes it) =>
      q ← task_queues_ p !! queue_no it;
      Some (set_call c (Done true) (put it (push it q) p))
  | _ => None
  end.

(** A call that puts nothing on a queue once the stop flag is set. *)
Definition settled (c : call) : bool := match c with Tries _ _ | Commits _ | Pushes _ => false | _ => true end.

(** A call begins. *)
Definition may_begin (c : call) : bool := match c with Schedules _ _ | Commits _ | CommitsById _ _ => true | _ => false end.
Definition begins (c : call) (p : QPool) : option QPool :=
  if may_begin c
  then Some (mkQPool (thread_num_ p) (enable_work_steal_ p) (stopped_ p) (task_queues_ p) (pworkers_ p) (calls p ++ [c])
               (stopper_ p) (scheduled p) (handled p) (if c is Commits _ then quiet p && negb (stopped_ p) else quiet p))
  else None.

(** ** The destructor, and Shutdown *)

Definition gone (st : pworker) : bool := if st is Gone then true else false.
Definition wakes (st : pworker) : pworker := if st is PopSleep then PopAt else st.

Definition Shutdown (p : QPool) : option QPool :=
  match stopper_ p with
  | Running =>
      Some (mkQPool (thread_num_ p) (enable_work_steal_ p) true (task_queues_ p) (pworkers_ p) (calls p)
              (StopsQueue 0) (scheduled p) (handled p) (forallb settled (calls p)))
  | StopsQueue i =>
      match task_queues_ p !! i with
      | Some q => Some (set_stopper (NotifiesQueue i) (set_queue i (stop q) p))
      | None => Some (set_stopper JoinsWorkers p)
      end
  | NotifiesQueue i =>
      q ← task_queues_ p !! i;
      q' ← notify_all q;
      st ← pworkers_ p !! i;
      Some (set_stopper (StopsQueue (S i)) (set_pworker i (wakes st) (set_queue i q' p)))
  | JoinsWorkers => if forallb gone (pworkers_ p) then Some (set_stopper Over p) else None
  | Over => None
  end.

(** WaitStop returns when all workers have. *)
Definition WaitStop (p : QPool) : bool := forallb gone (pworkers_ p).

Definition GetItemCount (p : QPool) : nat := sum_list_with size_ (task_queues_ p).

(** Scheduler::co_spawn: the handle goes on any queue. *)
Definition co_spawn (h : Handle) : call := Schedules (Some h) (-1).

Inductive pevent :=
| Begins (c : call) | CallTurns (c : nat) (locked : bool) (r : nat) | WorkerTurns (w : nat) (locked : bool)
| QueueNotifies (i : nat) | Stops | WorkerWakes (w : nat).

Definition wake_worker (i : nat) (q : BlockingQueue TaskItem) (p : QPool) : QPool := set_pworker i PopAt (set_queue i q p).

Definition pstep (e : pevent) (p : QPool) : option QPool :=
  match e with
  | Begins c => begins c p
  | CallTurns c locked r => call_turn c locked r p
  | WorkerTurns w locked => pworker_turn w locked p
  | QueueNotifies i =>
      q ← task_queues_ p !! i;
      if pworkers_ p !! i is Some PopSleep
      then q' ← notify_one (Some i) q; Some (wake_worker i q' p)
      else q' ← notify_one None q; Some (set_queue i q' p)
  | Stops => Shutdown p
  | WorkerWakes w =>
      q ← task_queues_ p !! w;
      if pworkers_ p !! w is Some PopSleep then q' ← wake_up w q; Some (wake_worker w q' p) else None
  end.

(** ** The invariant *)

Definition in_hand (st : pworker) : list TaskItem := if st is Resume it then [it] else [].

(** Whether [queue.stop()] of queue [i] has set its flag. *)
Definition queue_stopped (d : stopper) (i : nat) : bool :=
  match d with
  | Running => false
  | StopsQueue k => bool_decide (i < k)
  | NotifiesQueue k => bool_decide (i <= k)
  | JoinsWorkers | Over => true
  end.
Definition notifies (d : stopper) (i : nat) : bool := if d is NotifiesQueue k then bool_decide (k = i) else false.
Definition ended (st : pworker) : bool := match st with CheckStop | Gone => true | _ => false end.

(** A worker and its queue. *)
Record slot_ok (d : stopper) (qt : bool) (i : nat) (w : pworker) (q : BlockingQueue TaskItem) : Prop := {
  sl_asleep : asleep q = if w is PopSleep then {[i]} else ∅;
  sl_wakeup : w = PopSleep -> queue_ q = [] \/ 0 < notify_one_due q;
  sl_stop : qstop_ q = queue_stopped d i;
  sl_due : notify_all_due q = if notifies d i then 1 else 0;
  sl_sleeps : w = PopSleep -> qstop_ q = true -> notifies d i = true;
  sl_ended : ended w = true -> qstop_ q = true /\ (qt = true -> queue_ q = []);
  sl_here : Forall (fun it => queue_no it = i) (queue_ q);
  sl_hand : Forall (fun it => can_steal it = false -> queue_no it = i) (in_hand w)
}.

Definition slots (d : stopper) (qt : bool) (ws : list pworker) (qs : list (BlockingQueue TaskItem)) : Prop :=
  forall i w q, ws !! i = Some w -> qs !! i = Some q -> slot_ok d qt i w q.

Lemma slots_queue d qt ws qs i q : slots d qt ws qs ->
  (forall w, ws !! i = Some w -> slot_ok d qt i w q) -> slots d qt ws (<[i := q]> qs).
Proof. intros Hs Hi j w q' Hw [(<- & -> & _)|[_ Hq]]%list_lookup_insert_Some; [by apply Hi|by apply Hs]. Qed.

Lemma slots_worker d qt ws qs i w : slots d qt ws qs ->
  (forall q, qs !! i = Some q -> slot_ok d qt i w q) -> slots d qt (<[i := w]> ws) qs.
Proof. intros Hs Hi j w' q [(<- & -> & _)|[_ Hw]]%list_lookup_insert_Some Hq; [by apply Hi|by apply Hs]. Qed.

Lemma slots_both d qt ws qs i w q : slots d qt ws qs -> slot_ok d qt i w q ->
  slots d qt (<[i := w]> ws) (<[i := q]> qs).
Proof.
  intros Hs Hi j w' q' [(<- & -> & _)|[Hn Hw]]%list_lookup_insert_Some [(E & -> & _)|[Hn' Hq]]%list_lookup_insert_Some;
    try done. by apply Hs.
Qed.

(** *** What the operations do to a worker and its queue *)

Section slot.
Context (d : stopper) (qt : bool) (i : nat).
Abbreviation ok := (slot_ok d qt i).

(** Another worker takes the first item. *)
Lemma slot_stolen w it rest q : ok w q -> queue_ q = it :: rest ->
  ok w (mkQueue rest (qstop_ q) (asleep q) (notify_one_due q) (notify_all_due q)).
Proof.
  intros [Ha Hw Hs Hd Hsl He Hh Hi] Eq. rewrite Eq in *. apply Forall_cons in Hh as [_ Hh].
  split; simpl; try done.
  - intros E. destruct (Hw E); [done|by right].
  - intros E. destruct (He E) as [? Hx]. split; [done|]. intros Hq. by specialize (Hx Hq).
Qed.

Lemma slot_push w it q : ok w q -> queue_no it = i -> (qt = true -> ended w = false) -> ok w (push it q).
Proof.
  intros [Ha Hw Hs Hd Hsl He Hh Hi] Ei Hq. split; simpl; try done.
  - intros _. right. lia.
  - intros E. destruct (He E) as [? Hx]. split; [done|]. intros Hqt. specialize (Hq Hqt). congruence.
  - apply Forall_app_2; [done|]. by apply Forall_singleton.
Qed.

(** The worker, awake, goes on to a point where it is not asleep. *)
Lemma slot_moves w w' q : ok w q -> w ≠ PopSleep -> w' ≠ PopSleep -> (ended w' = true -> ended w = true) ->
  Forall (fun it => can_steal it = false -> queue_no it = i) (in_hand w') -> ok w' q.
Proof.
  intros [Ha Hw Hs Hd Hsl He Hh Hi] Hn Hn' Hen Hin. split; try done; [|auto].
  rewrite Ha. by destruct w, w'.
Qed.

Lemma slot_pop q : ok PopAt q -> let '(res, q') := pop i q in
  ok (match res with Item it => Resume it | Ended => CheckStop | Slept => PopSleep end) q'.
Proof.
  intros [Ha Hw Hs Hd Hsl He Hh Hi]. unfold pop.
  destruct (queue_ q) as [|it rest] eqn:Eq; [destruct (qstop_ q) eqn:Es|].
  - split; simpl; rewrite ?Eq, ?Es; done.
  - split; simpl; try done; [rewrite Ha; set_solver|by left].
  - apply Forall_cons in Hh as [Hit Hh]. split; simpl; try done. by apply Forall_singleton.
Qed.

(** A notification, or none, wakes the worker up. *)
Lemma slot_wakes n q : ok PopSleep q ->
  ok PopAt (mkQueue (queue_ q) (qstop_ q) (asleep q ∖ {[i]}) n (notify_all_due q)).
Proof. intros [Ha Hw Hs Hd Hsl He Hh Hi]. split; simpl; try done. rewrite Ha. set_solver. Qed.

Lemma slot_notifies_nobody w n q : ok w q -> w ≠ PopSleep ->
  ok w (mkQueue (queue_ q) (qstop_ q) ∅ n (notify_all_due q)).
Proof. intros [Ha Hw Hs Hd Hsl He Hh Hi] Hn. split; simpl; try done. by destruct w. Qed.

Lemma slot_quiet qt' w q : ok w q -> ended w = false -> slot_ok d qt' i w q.
Proof. intros [Ha Hw Hs Hd Hsl He Hh Hi] E. split; try done. rewrite E. done. Qed.
End slot.

(** The stopper goes from one queue to the next. *)
Lemma slot_other d d' qt i w q : slot_ok d qt i w q -> queue_stopped d i = queue_stopped d' i ->
  notifies d i = notifies d' i -> slot_ok d' qt i w q.
Proof. intros [Ha Hw Hs Hd Hsl He Hh Hi] E1 E2. split; try done; by rewrite <-?E1, <-?E2. Qed.

Lemma slot_stop qt i w q : slot_ok (StopsQueue i) qt i w q -> slot_ok (NotifiesQueue i) qt i w (stop q).
Proof.
  intros [Ha Hw Hs Hd Hsl He Hh Hi]. simpl in *. rewrite bool_decide_false in Hs by lia. split; simpl; try done.
  - by rewrite bool_decide_true.
  - by rewrite Hd, bool_decide_true.
  - by rewrite bool_decide_true.
  - intros E. destruct (He E). congruence.
Qed.

Lemma slot_notify_all qt i w q q' : slot_ok (NotifiesQueue i) qt i w q -> notify_all q = Some q' ->
  slot_ok (StopsQueue (S i)) qt i (wakes w) q'.
Proof.
  intros [Ha Hw Hs Hd Hsl He Hh Hi]. unfold notify_all. simpl in *. rewrite Hd, !bool_decide_true in * by done.
  intros [= <-]. split; simpl; try done; try by destruct w.
  by rewrite Hs, !bool_decide_true by lia.
Qed.

(** *** The pool *)

Definition call_ok (n : nat) (c : call) : Prop := if c is Pushes it then queue_no it < n else True.

Record qpool_ok (p : QPool) : Prop := {
  pk_pos : 0 < thread_num_ p;
  pk_queues : length (task_queues_ p) = thread_num_ p;
  pk_workers : length (pworkers_ p) = thread_num_ p;
  pk_items : scheduled p ≡ₚ (handled p).*1 ++ (pworkers_ p ≫= in_hand) ++ (task_queues_ p ≫= queue_);
  pk_stopped : stopped_ p = if stopper_ p is Running then false else true;
  pk_slots : slots (stopper_ p) (quiet p) (pworkers_ p) (task_queues_ p);
  pk_bound : Forall (fun '(it, w) => can_steal it = false -> queue_no it = w) (handled p);
  pk_quiet : quiet p = true -> stopped_ p = true /\ Forall (fun c => settled c = true) (calls p);
  pk_calls : Forall (call_ok (thread_num_ p)) (calls p);
  pk_stopper : forall i, stopper_ p = NotifiesQueue i -> i < thread_num_ p;
  pk_over : stopper_ p = Over -> forallb gone (pworkers_ p) = true
}.

Lemma QPool_new_ok n hw steal : 0 < n -> qpool_ok (QPool_new n hw steal).
Proof.
  intros Hn. unfold QPool_new. rewrite decide_False by lia. split; simpl; try done.
  - apply length_replicate.
  - apply length_replicate.
  - rewrite !bind_nil; [done|by apply Forall_replicate|apply Forall_replicate; by destruct steal].
  - intros i w q [-> _]%lookup_replicate [-> _]%lookup_replicate. split; simpl; by destruct steal.
Qed.

(** Lookups that succeed. *)
Lemma queue_at p i : qpool_ok p -> i < thread_num_ p -> exists q, task_queues_ p !! i = Some q.
Proof. intros Hok Hi. apply lookup_lt_is_Some_2. by rewrite (pk_queues _ Hok). Qed.
Lemma worker_at p i q : qpool_ok p -> task_queues_ p !! i = Some q -> exists w, pworkers_ p !! i = Some w.
Proof.
  intros Hok Hq. apply lookup_lt_is_Some_2. rewrite (pk_workers _ Hok), <-(pk_queues _ Hok). by apply lookup_lt_Some in Hq.
Qed.

(** Where the items are. *)
Lemma item_leaves qs i q q' it : qs !! i = Some q -> queue_ q = it :: queue_ q' ->
  (qs ≫= queue_) ≡ₚ it :: (<[i := q']> qs ≫= @queue_ TaskItem).
Proof.
  intros Hq E. pose proof (bind_insert queue_ qs i q q' Hq) as Hb. rewrite E in Hb. simpl in Hb.
  apply (Permutation_app_inv_l (queue_ q')). rewrite <-Hb. apply Permutation_middle.
Qed.

Lemma item_enters qs i q q' it : qs !! i = Some q -> queue_ q' = queue_ q ++ [it] ->
  (<[i := q']> qs ≫= queue_) ≡ₚ it :: (qs ≫= @queue_ TaskItem).
Proof.
  intros Hq E. pose proof (bind_insert queue_ qs i q q' Hq) as Hb. rewrite E, <-app_assoc in Hb.
  apply Permutation_app_inv_l in Hb. done.
Qed.

Lemma same_insert {A B} (f : A -> list B) l i x y : l !! i = Some x -> f y = f x -> (<[i := y]> l ≫= f) ≡ₚ (l ≫= f).
Proof. intros Hl E. pose proof (bind_insert f l i x y Hl) as Hb. rewrite E in Hb. by apply Permutation_app_inv_l in Hb. Qed.

Lemma hand_takes ws w st it : ws !! w = Some st -> in_hand st = [] ->
  (<[w := Resume it]> ws ≫= in_hand) ≡ₚ it :: (ws ≫= in_hand).
Proof. intros Hw E. pose proof (bind_insert in_hand ws w st (Resume it) Hw) as Hb. by rewrite E in Hb. Qed.

Lemma hand_gives ws w st it : ws !! w = Some (Resume it) -> in_hand st = [] ->
  (ws ≫= in_hand) ≡ₚ it :: (<[w := st]> ws ≫= in_hand).
Proof. intros Hw E. pose proof (bind_insert in_hand ws w _ st Hw) as Hb. by rewrite E in Hb. Qed.

(** A worker that holds nothing goes on, its queue as it is. *)
Lemma set_pworker_ok p w st st' : qpool_ok p -> pworkers_ p !! w = Some st ->
  st ≠ PopSleep -> st' ≠ PopSleep -> (ended st' = true -> ended st = true) -> gone st = false ->
  in_hand st = [] -> in_hand st' = [] -> qpool_ok (set_pworker w st' p).
Proof.
  intros Hok Hw Hn Hn' He Hg E1 E2. pose proof Hok as [Hpos Hq Hwk Hi Hst Hsl Hb Hqu Hc Hs Ho].
  split; simpl; try done; rewrite ?length_insert; try done.
  - by rewrite (same_insert in_hand _ _ st) by (try done; congruence).
  - apply slots_worker; [done|]. intros q Hq'. apply (slot_moves _ _ _ st); auto. by rewrite E2.
  - intros E. apply Ho in E. rewrite forallb_forall in E. rewrite E in Hg; [done|].
    apply list_elem_of_In. by eapply list_elem_of_lookup_2.
Qed.

(** No worker is back when the pool is not. *)
Lemma not_over p w st : qpool_ok p -> pworkers_ p !! w = Some st -> gone st = false -> stopper_ p ≠ Over.
Proof.
  intros Hok Hw Hg E%(pk_over _ Hok). rewrite forallb_forall in E. rewrite E in Hg; [done|].
  apply list_elem_of_In. by eapply list_elem_of_lookup_2.
Qed.

Lemma steal_turn_ok w i locked p p' : qpool_ok p -> pworkers_ p !! w = Some (Steal i) ->
  steal_turn w i locked p = Some p' -> qpool_ok p'.
Proof.
  intros Hok Hw. pose proof Hok as [Hpos Hq Hwk Hi Hst Hsl Hb Hqu Hc Hs Ho]. unfold steal_turn.
  case_decide; [|intros [= <-]; by apply (set_pworker_ok _ _ (Steal i))].
  set (j := (w + i) mod thread_num_ p). intros (q & Hj & E)%bind_Some. unfold try_pop_if in E.
  assert (qpool_ok (set_pworker w (Steal (S i)) p)) by by apply (set_pworker_ok _ _ (Steal i)).
  destruct locked; [|by simplify_eq]. destruct (queue_ q) as [|it rest] eqn:Eq; [by simplify_eq|].
  destruct (can_steal it) eqn:Ec; [|by simplify_eq]. injection E as <-.
  split; simpl; try done; rewrite ?length_insert; try done.
  - rewrite (hand_takes _ _ _ it Hw eq_refl), Hi. f_equiv.
    rewrite (item_leaves _ _ q (mkQueue rest (qstop_ q) (asleep q) (notify_one_due q) (notify_all_due q)) it Hj Eq).
    simpl. by rewrite <-Permutation_middle.
  - assert (slots (stopper_ p) (quiet p) (pworkers_ p)
      (<[j := mkQueue rest (qstop_ q) (asleep q) (notify_one_due q) (notify_all_due q)]> (task_queues_ p))) as Hsl'.
    { apply slots_queue; [done|]. intros st Hst'. apply (slot_stolen _ _ _ _ it); [by apply Hsl|done]. }
    apply slots_worker; [done|]. intros q' Hq'. apply (slot_moves _ _ _ (Steal i)); try done; [by apply Hsl'|].
    apply Forall_singleton. congruence.
  - intros E. by destruct (not_over p w _ Hok Hw).
Qed.

Lemma pop_turn_ok w p p' : qpool_ok p -> pworkers_ p !! w = Some PopAt -> pop_turn w p = Some p' -> qpool_ok p'.
Proof.
  intros Hok Hw. pose proof Hok as [Hpos Hq Hwk Hi Hst Hsl Hb Hqu Hc Hs Ho].
  intros (q & Hj & E)%bind_Some. pose proof (slot_pop _ _ _ q (Hsl _ _ _ Hw Hj)) as Hslot.
  destruct (pop w q) as [res q'] eqn:Ep. injection E as <-.
  split; simpl; try done; rewrite ?length_insert; try done; [|by apply slots_both|].
  - rewrite Hi. f_equiv. unfold pop in Ep.
    destruct (queue_ q) as [|it rest] eqn:Eq; [destruct (qstop_ q)|]; simplify_eq; cbn beta iota.
    + by rewrite (same_insert in_hand _ _ _ _ Hw), (same_insert queue_ _ _ _ _ Hj) by done.
    + rewrite (same_insert in_hand _ _ _ _ Hw), (same_insert queue_ _ _ _ _ Hj) by done. done.
    + rewrite (hand_takes _ _ _ it Hw eq_refl). rewrite (item_leaves _ _ q (mkQueue rest (qstop_ q) (asleep q) (notify_one_due q) (notify_all_due q)) it Hj Eq). simpl. by rewrite <-Permutation_middle.
  - intros E. by destruct (not_over p w _ Hok Hw).
Qed.

Lemma pworker_turn_ok w locked p p' : qpool_ok p -> pworker_turn w locked p = Some p' -> qpool_ok p'.
Proof.
  intros Hok. unfold pworker_turn. destruct (pworkers_ p !! w) as [st|] eqn:Hw; [|done].
  destruct st as [i| | | |it|]; try done; [by apply steal_turn_ok|by apply pop_turn_ok|..].
  - intros [= <-]. apply (set_pworker_ok _ _ CheckStop); try done; destruct (stopped_ p), (enable_work_steal_ p); done.
  - intros [= <-]. pose proof Hok as [Hpos Hq Hwk Hi Hst Hsl Hb Hqu Hc Hs Ho].
    split; simpl; try done; rewrite ?length_insert; try done.
    + rewrite Hi, (hand_gives _ _ (loop_top (enable_work_steal_ p)) it Hw) by by destruct (enable_work_steal_ p).
      rewrite fmap_app, <-app_assoc. done.
    + apply slots_worker; [done|]. intros q Hj. apply (slot_moves _ _ _ (Resume it)); [by apply Hsl|done|..];
        by destruct (enable_work_steal_ p).
    + apply Forall_app_2; [done|]. apply Forall_singleton. destruct (queue_at p w Hok) as [q Hj].
      { rewrite <-Hwk. by apply lookup_lt_Some in Hw. }
      pose proof (sl_hand _ _ _ _ _ (Hsl _ _ _ Hw Hj)) as Hh. exact (Forall_inv Hh).
    + intros E. by destruct (not_over p w _ Hok Hw).
Qed.

Lemma set_call_ok c st p : qpool_ok p -> call_ok (thread_num_ p) st -> (stopped_ p = true -> quiet p = true -> settled st = true) ->
  qpool_ok (set_call c st p).
Proof.
  intros [Hpos Hq Hwk Hi Hst Hsl Hb Hqu Hc Hs Ho] H1 H2. split; simpl; try done.
  - intros E. destruct (Hqu E). split; [done|]. apply Forall_insert; auto.
  - by apply Forall_insert.
Qed.

Lemma put_ok c it q q' p : qpool_ok p -> calls p !! c = Some (Pushes it) \/ (exists h i, calls p !! c = Some (Tries h i)) ->
  task_queues_ p !! queue_no it = Some q -> q' = push it q -> qpool_ok (set_call c (Done true) (put it q' p)).
Proof.
  intros Hok Hcall Hj ->. pose proof Hok as [Hpos Hq Hwk Hi Hst Hsl Hb Hqu Hc Hs Ho].
  assert (quiet p = true -> False) as Hnq.
  { intros [_ Hall]%Hqu. destruct Hcall as [Hcall|(h & i & Hcall)]; by pose proof (Forall_lookup_1 _ _ _ _ Hall Hcall). }
  apply set_call_ok; [|done|done]. split; simpl; try done; rewrite ?length_insert; try done.
  - rewrite (item_enters _ _ q (push it q) it Hj) by done. rewrite Hi.
    rewrite <-!app_assoc. do 2 f_equiv. by rewrite Permutation_app_comm.
  - apply slots_queue; [done|]. intros w Hw. apply slot_push; [by apply Hsl|done|]. intros E. by destruct (Hnq E).
Qed.

Lemma call_turn_ok c locked r p p' : qpool_ok p -> call_turn c locked r p = Some p' -> qpool_ok p'.
Proof.
  intros Hok. pose proof (pk_pos _ Hok) as Hpos. unfold call_turn. destruct (calls p !! c) as [cl|] eqn:Hcl; [|done].
  assert (forall x, x mod thread_num_ p < thread_num_ p) as Hmod by (intros; apply Nat.mod_upper_bound; lia).
  assert (quiet p = true -> settled cl = true) as Hset.
  { intros E. destruct (pk_quiet _ Hok E) as [_ Hall]. exact (Forall_lookup_1 _ _ _ _ Hall Hcl). }
  destruct cl as [h id|h i|h|h id|it|b|]; try done.
  - intros [= <-]. apply set_call_ok; [done|..]; unfold ScheduleById; destruct h; simpl; try done.
    + repeat case_match; try done; simpl; [apply Hmod|]. case_decide; simplify_eq/=. lia.
    + by intros ->.
  - case_decide.
    + intros (q & Hj & E)%bind_Some. unfold try_push in E. destruct locked; injection E as <-.
      * eapply put_ok; eauto.
      * by apply set_call_ok.
    + intros [= <-]. apply set_call_ok; [done|apply Hmod|]. intros _ E. by specialize (Hset E).
  - intros [= <-]. apply set_call_ok; [done|apply Hmod|]. intros _ E. by specialize (Hset E).
  - intros [= <-]. apply set_call_ok; [done|..]; unfold CommitById; destruct h; simpl; try done.
    + destruct (stopped_ p); [done|]. case_decide; [|done]. simpl. unfold u64 in *. lia.
    + by intros ->.
  - intros (q & Hj & [= <-])%bind_Some. eapply put_ok; eauto.
Qed.

Lemma begins_ok c p p' : qpool_ok p -> begins c p = Some p' -> qpool_ok p'.
Proof.
  intros [Hpos Hq Hwk Hi Hst Hsl Hb Hqu Hc Hs Ho]. unfold begins. destruct (may_begin c) eqn:E; [|done]. intros [= <-].
  split; simpl; try done.
  - intros i w q Hw Hj. specialize (Hsl _ _ _ Hw Hj) as [Ha Hwu Hss Hd Hsl' He Hh Hin]. split; try done.
    intros Hen. destruct (He Hen) as [? Hqt]. split; [done|]. destruct c; try done. destruct (quiet p); auto; done.
  - assert (forall c', c' = c -> quiet p = true -> settled c' = true -> stopped_ p = true
      /\ Forall (fun c => settled c = true) (calls p ++ [c])) as Hadd.
    { intros c' -> Hqt Hset. destruct (Hqu Hqt). split; [done|]. apply Forall_app_2; [done|]. by apply Forall_singleton. }
    destruct c; try done; [by intros; eapply Hadd| |by intros; eapply Hadd].
    intros [Hqt Hns]%andb_true_iff. destruct (Hqu Hqt) as [Hx _]. by rewrite Hx in Hns.
  - apply Forall_app_2; [done|]. apply Forall_singleton. by destruct c.
Qed.

Lemma QShutdown_ok p p' : qpool_ok p -> Shutdown p = Some p' -> qpool_ok p'.
Proof.
  intros Hok. pose proof Hok as [Hpos Hq Hwk Hi Hst Hsl Hb Hqu Hc Hs Ho]. unfold Shutdown.
  destruct (stopper_ p) as [|i|i| |] eqn:Ed; try done.
  - intros [= <-]. split; simpl; try done.
    + intros i w q Hw Hj. specialize (Hsl _ _ _ Hw Hj). apply (slot_other Running); [|done|done].
      apply (slot_quiet _ (quiet p)); [done|]. destruct (ended w) eqn:E; [|done].
      destruct (sl_ended _ _ _ _ _ Hsl E) as [Hx _]. by rewrite (sl_stop _ _ _ _ _ Hsl) in Hx.
    + intros E. split; [done|]. apply Forall_forall. intros c Hin. rewrite forallb_forall in E.
      by apply E, list_elem_of_In.
  - destruct (task_queues_ p !! i) as [q|] eqn:Hj; intros [= <-].
    + split; simpl; try done; rewrite ?length_insert; try done.
      * rewrite Hi. do 2 f_equiv. symmetry. by apply (same_insert queue_ _ _ q).
      * intros k w q' Hw [(<- & <- & _)|[Hn Hq']]%list_lookup_insert_Some; [by apply slot_stop, Hsl|].
        apply (slot_other (StopsQueue i)); [by apply Hsl|..]; simpl.
        -- apply bool_decide_ext. lia.
        -- by rewrite bool_decide_false.
      * intros k [= <-]. rewrite <-Hq. by apply lookup_lt_Some in Hj.
    + split; simpl; try done. intros k w q Hw Hj'. apply (slot_other (StopsQueue i)); [by apply Hsl| |done].
      simpl. apply bool_decide_true. apply lookup_ge_None_1 in Hj. apply lookup_lt_Some in Hj'. lia.
  - intros (q & Hj & (q' & Hn & (st & Hw & [= <-])%bind_Some)%bind_Some)%bind_Some.
    split; simpl; try done; rewrite ?length_insert; try done.
    + rewrite (same_insert in_hand _ _ _ _ Hw) by by destruct st. unfold notify_all in Hn.
      rewrite (same_insert queue_ _ _ q q' Hj); [done|]. by destruct (notify_all_due q); simplify_eq/=.
    + intros k w q0 [(<- & <- & _)|[Hn1 Hw']]%list_lookup_insert_Some [(E & <- & _)|[Hn2 Hq']]%list_lookup_insert_Some; try done.
      * by eapply slot_notify_all; [apply Hsl|].
      * apply (slot_other (NotifiesQueue i)); [by apply Hsl|..]; simpl; [apply bool_decide_ext; lia|by rewrite bool_decide_false].
  - destruct (forallb gone (pworkers_ p)) eqn:E; [|done]. intros [= <-]. split; simpl; try done.
    intros k w q Hw Hj. by apply (slot_other JoinsWorkers); [apply Hsl|..].
Qed.

Lemma wake_worker_ok i q q' n p : qpool_ok p -> task_queues_ p !! i = Some q -> pworkers_ p !! i = Some PopSleep ->
  q' = mkQueue (queue_ q) (qstop_ q) (asleep q ∖ {[i]}) n (notify_all_due q) -> qpool_ok (wake_worker i q' p).
Proof.
  intros Hok Hj Hw ->. pose proof Hok as [Hpos Hq Hwk Hi Hst Hsl Hb Hqu Hc Hs Ho].
  split; simpl; try done; rewrite ?length_insert; try done.
  - rewrite (same_insert in_hand _ _ _ _ Hw) by done. rewrite Hi. do 2 f_equiv. symmetry. by apply (same_insert queue_ _ _ q).
  - apply slots_both; [done|]. by apply slot_wakes, Hsl.
  - intros E. by destruct (not_over p i _ Hok Hw).
Qed.

Lemma notify_nobody_ok i q w n p : qpool_ok p -> task_queues_ p !! i = Some q -> pworkers_ p !! i = Some w ->
  w ≠ PopSleep -> qpool_ok (set_queue i (mkQueue (queue_ q) (qstop_ q) ∅ n (notify_all_due q)) p).
Proof.
  intros [Hpos Hq Hwk Hi Hst Hsl Hb Hqu Hc Hs Ho] Hj Hw Hn. split; simpl; try done; rewrite ?length_insert; try done.
  - rewrite Hi. do 2 f_equiv. symmetry. by apply (same_insert queue_ _ _ q).
  - apply slots_queue; [done|]. intros w' Hw'. simplify_eq. apply slot_notifies_nobody; [by apply Hsl|done].
Qed.

Lemma pstep_ok e p p' : qpool_ok p -> pstep e p = Some p' -> qpool_ok p'.
Proof.
  intros Hok. destruct e as [c|c locked r|w locked|i| |w]; cbn [pstep].
  - by apply begins_ok.
  - by apply call_turn_ok.
  - by apply pworker_turn_ok.
  - intros (q & Hj & E)%bind_Some. destruct (worker_at p i q Hok Hj) as [w Hw]. rewrite Hw in E. unfold notify_one in E.
    destruct (notify_one_due q) as [|n]; [by destruct w|].
    destruct w; case_decide; simplify_eq/=; try done; [..|by eapply wake_worker_ok| | |];
      by eapply notify_nobody_ok.
  - by apply QShutdown_ok.
  - intros (q & Hj & E)%bind_Some. unfold wake_up in E. destruct (pworkers_ p !! w) as [[]|] eqn:Hw; try done.
    case_decide; simplify_eq/=. by eapply wake_worker_ok.
Qed.

Lemma qreachable_ok n hw steal es p : 0 < n -> exec pstep es (QPool_new n hw steal) = Some p -> qpool_ok p.
Proof. intros Hn. apply (exec_inv pstep qpool_ok pstep_ok). by apply QPool_new_ok. Qed.

Lemma over_drained p : qpool_ok p -> stopper_ p = Over -> quiet p = true -> (handled p).*1 ≡ₚ scheduled p.
Proof.
  intros Hok Ed Hqt. pose proof Hok as [Hpos Hq Hwk Hi Hst Hsl Hb Hqu Hc Hs Ho]. specialize (Ho Ed).
  assert (forall i w, pworkers_ p !! i = Some w -> w = Gone) as Hg.
  { intros i w Hw. rewrite forallb_forall in Ho. specialize (Ho w). destruct w; try done; discriminate Ho;
      apply list_elem_of_In; by eapply list_elem_of_lookup_2. }
  rewrite Hi, !bind_nil, !app_nil_r; [done|..].
  - apply Forall_lookup_2. intros i q Hj. destruct (worker_at p i q Hok Hj) as [w Hw].
    by apply (sl_ended _ _ _ _ _ (Hsl _ _ _ Hw Hj)); [rewrite (Hg _ _ Hw)|].
  - apply Forall_lookup_2. intros i w Hw. by rewrite (Hg _ _ Hw).
Qed.

(** ** Progress *)

Definition pworks (e : pevent) : Prop :=
  match e with CallTurns _ _ _ | WorkerTurns _ _ | QueueNotifies _ | Stops => True | _ => False end.

(** Calls, workers, notifications and, once it is under way, the stopper cannot move. *)
Definition pstuck (p : QPool) : Prop :=
  (forall c locked r, call_turn c locked r p = None) /\ (forall w locked, pworker_turn w locked p = None)
  /\ (forall i, pstep (QueueNotifies i) p = None) /\ (stopper_ p = Running \/ Shutdown p = None).

Lemma stuck_pworker p i w q : qpool_ok p -> pstuck p -> pworkers_ p !! i = Some w -> task_queues_ p !! i = Some q ->
  w = Gone \/ w = PopSleep /\ queue_ q = [].
Proof.
  intros Hok (_ & Hw & Hn & _) Ei Ej. pose proof (pk_slots _ Hok _ _ _ Ei Ej) as Hsl.
  specialize (Hw i false). unfold pworker_turn in Hw. rewrite Ei in Hw. destruct w as [k| | | |it|]; try done; [..|by left].
  - unfold steal_turn in Hw. case_decide; [|done]. destruct (queue_at p ((i + k) mod thread_num_ p) Hok) as [q' Hq'].
    { apply Nat.mod_upper_bound. pose proof (pk_pos _ Hok). lia. }
    by rewrite Hq' in Hw.
  - unfold pop_turn in Hw. rewrite Ej in Hw. simpl in Hw. by destruct (pop i q).
  - right. split; [done|]. specialize (Hn i). cbn [pstep] in Hn. rewrite Ej, Ei in Hn. simpl in Hn. unfold notify_one in Hn.
    destruct (sl_wakeup _ _ _ _ _ Hsl eq_refl) as [|Hlt]; [done|]. destruct (notify_one_due q); [lia|].
    rewrite (sl_asleep _ _ _ _ _ Hsl), decide_True in Hn by set_solver. done.
Qed.

Lemma stuck_call p c cl : qpool_ok p -> pstuck p -> calls p !! c = Some cl -> cl = AssertFailed \/ exists b, cl = Done b.
Proof.
  intros Hok (Hc & _) Ec. pose proof (Forall_lookup_1 _ _ _ _ (pk_calls _ Hok) Ec) as Hcl.
  specialize (Hc c false 0). unfold call_turn in Hc. rewrite Ec in Hc. destruct cl as [h id|h i|h|h id|it|b|]; try done; eauto.
  - case_decide; [|done]. simpl in Hc. destruct (queue_at p (i mod thread_num_ p) Hok) as [q Hq].
    { apply Nat.mod_upper_bound. pose proof (pk_pos _ Hok). lia. }
    by rewrite Hq in Hc.
  - destruct (queue_at p (queue_no it) Hok) as [q Hq]; [done|]. by rewrite Hq in Hc.
Qed.

Lemma stuck_running p : qpool_ok p -> pstuck p -> stopper_ p = Running -> (handled p).*1 ≡ₚ scheduled p.
Proof.
  intros Hok Hstuck Ed. pose proof Hok as [Hpos Hq Hwk Hi Hst Hsl Hb Hqu Hc Hs Ho].
  assert (forall i w q, pworkers_ p !! i = Some w -> task_queues_ p !! i = Some q -> w = PopSleep /\ queue_ q = []) as Hall.
  { intros i w q Hw Hj. destruct (stuck_pworker p i w q Hok Hstuck Hw Hj) as [->|]; [|done].
    destruct (sl_ended _ _ _ _ _ (Hsl _ _ _ Hw Hj) eq_refl) as [Hx _].
    by rewrite (sl_stop _ _ _ _ _ (Hsl _ _ _ Hw Hj)), Ed in Hx. }
  rewrite Hi, !bind_nil, !app_nil_r; [done|..]; apply Forall_lookup_2.
  - intros i q Hj. destruct (worker_at p i q Hok Hj) as [w Hw]. by apply (Hall i w q).
  - intros i w Hw. destruct (queue_at p i Hok) as [q Hj]; [rewrite <-Hwk; by apply lookup_lt_Some in Hw|].
    by destruct (Hall i w q) as [-> _].
Qed.

Lemma stuck_stopping p : qpool_ok p -> pstuck p -> stopper_ p ≠ Running -> stopper_ p = Over.
Proof.
  intros Hok Hstuck Hr. pose proof Hok as [Hpos Hq Hwk Hi Hst Hsl Hb Hqu Hc Hs Ho].
  pose proof Hstuck as (_ & _ & _ & [|Hx]); [done|]. unfold Shutdown in Hx.
  destruct (stopper_ p) as [|i|i| |] eqn:Ed; try done.
  - by destruct (task_queues_ p !! i).
  - destruct (queue_at p i Hok (Hs _ eq_refl)) as [q Hj]. destruct (worker_at p i q Hok Hj) as [w Hw].
    pose proof (sl_due _ _ _ _ _ (Hsl _ _ _ Hw Hj)) as Hd. simpl in Hd. rewrite bool_decide_true in Hd by done.
    unfold notify_all in Hx. rewrite Hj in Hx. simpl in Hx. rewrite Hd in Hx. simpl in Hx. by rewrite Hw in Hx.
  - assert (forallb gone (pworkers_ p) = true) as Hg; [|by rewrite Hg in Hx].
    apply forallb_forall. intros w [i Hw]%list_elem_of_In%list_elem_of_lookup_1.
    destruct (queue_at p i Hok) as [q Hj]; [rewrite <-Hwk; by apply lookup_lt_Some in Hw|].
    destruct (stuck_pworker p i w q Hok Hstuck Hw Hj) as [->|[-> _]]; [done|].
    pose proof (Hsl _ _ _ Hw Hj) as Hslot. by pose proof (sl_sleeps _ _ _ _ _ Hslot eq_refl (sl_stop _ _ _ _ _ Hslot)).
Qed.

(** *** How much is left to do *)

Section measure.
Context (n : nat).

Definition worker_work (w : pworker) : nat :=
  match w with
  | Steal i => (n - i) + 3 | PopAt => 2 | CheckStop => 1 | Resume _ => n + 4 | PopSleep | Gone => 0
  end.
Definition queue_work (q : BlockingQueue TaskItem) : nat := (n + 5) * length (queue_ q) + 3 * notify_one_due q.
Definition call_work (c : call) : nat :=
  match c with
  | Schedules _ _ => 3 * n + 12 | Tries _ i => (n * 2 - i) + n + 11 | Commits _ | CommitsById _ _ => n + 10
  | Pushes _ => n + 9 | Done _ | AssertFailed => 0
  end.
Definition stopper_work (d : stopper) : nat :=
  match d with
  | Running => 4 * n + 3 | StopsQueue i => 4 * (n - i) + 2 | NotifiesQueue i => 4 * (n - i) + 1
  | JoinsWorkers => 1 | Over => 0
  end.
End measure.

Definition pwork_left (p : QPool) : nat :=
  let n := thread_num_ p in
  sum_list_with (worker_work n) (pworkers_ p) + sum_list_with (queue_work n) (task_queues_ p)
  + sum_list_with (call_work n) (calls p) + stopper_work n (stopper_ p).

Lemma pworker_turn_decreases w locked p p' : qpool_ok p -> pworker_turn w locked p = Some p' -> pwork_left p' < pwork_left p.
Proof.
  intros Hok. unfold pworker_turn, pwork_left. destruct (pworkers_ p !! w) as [st|] eqn:Hw; [|done].
  pose proof (fun y => sum_insert (worker_work (thread_num_ p)) _ _ _ y Hw) as Hsum.
  destruct st as [i| | | |it|]; try done.
  - unfold steal_turn. case_decide; [|intros [= <-]; simpl; specialize (Hsum PopAt); simpl in Hsum; lia].
    intros (q & Hj & E)%bind_Some. unfold try_pop_if in E.
    destruct locked; [destruct (queue_ q) as [|it rest] eqn:Eq; [|destruct (can_steal it)]|];
      injection E as <-; simpl; try (specialize (Hsum (Steal (S i))); simpl in Hsum; lia).
    specialize (Hsum (Resume it)). simpl in Hsum.
    match goal with |- context [<[_ := ?q']> (task_queues_ p)] =>
      pose proof (sum_insert (queue_work (thread_num_ p)) _ _ _ q' Hj) as Hq end.
    unfold queue_work at 2 4 in Hq. rewrite Eq in Hq. simpl in Hq. lia.
  - intros (q & Hj & E)%bind_Some. unfold pop in E.
    destruct (queue_ q) as [|it rest] eqn:Eq; [destruct (qstop_ q)|]; injection E as <-; simpl;
    match goal with |- context [<[_ := ?q']> (task_queues_ p)] =>
      pose proof (sum_insert (queue_work (thread_num_ p)) _ _ _ q' Hj) as Hq end;
    match goal with |- context [<[_ := ?w']> (pworkers_ p)] => specialize (Hsum w') end; simpl in Hsum;
    unfold queue_work at 2 4 in Hq; rewrite ?Eq in Hq; simpl in Hq; lia.
  - intros [= <-]. simpl. destruct (queue_at p w Hok) as [q Hj].
    { rewrite <-(pk_workers _ Hok). by apply lookup_lt_Some in Hw. }
    pose proof (pk_slots _ Hok _ _ _ Hw Hj) as Hsl. destruct (sl_ended _ _ _ _ _ Hsl eq_refl) as [Hq _].
    rewrite (sl_stop _ _ _ _ _ Hsl) in Hq. rewrite (pk_stopped _ Hok). destruct (stopper_ p); try done;
    specialize (Hsum Gone); simpl in *; lia.
  - intros [= <-]. simpl. specialize (Hsum (loop_top (enable_work_steal_ p))).
    destruct (enable_work_steal_ p); simpl in Hsum |- *; lia.
Qed.

Lemma call_turn_decreases c locked r p p' : call_turn c locked r p = Some p' -> pwork_left p' < pwork_left p.
Proof.
  unfold call_turn, pwork_left. destruct (calls p !! c) as [cl|] eqn:Hc; [|done].
  pose proof (fun y => sum_insert (call_work (thread_num_ p)) _ _ _ y Hc) as Hsum.
  assert (forall it q, task_queues_ p !! queue_no it = Some q ->
    sum_list_with (queue_work (thread_num_ p)) (<[queue_no it := push it q]> (task_queues_ p))
    = sum_list_with (queue_work (thread_num_ p)) (task_queues_ p) + thread_num_ p + 8) as Hput.
  { intros it q Hj. pose proof (sum_insert (queue_work (thread_num_ p)) _ _ _ (push it q) Hj) as Hq.
    unfold queue_work at 2 4 in Hq. simpl in Hq. rewrite length_app in Hq. simpl in Hq. lia. }
  destruct cl as [h id|h i|h|h id|it|b|]; try done.
  - intros [= <-]. simpl. specialize (Hsum (ScheduleById h id r p)). unfold ScheduleById in *.
    repeat case_match; simpl in *; lia.
  - case_decide; [|intros [= <-]; simpl;
      specialize (Hsum (Pushes (mkItem h (enable_work_steal_ p) (r mod thread_num_ p)))); simpl in Hsum; lia].
    intros (q & Hj & E)%bind_Some. unfold try_push in E. destruct locked; injection E as <-; cbn -[push].
    + pose proof (Hput (mkItem h true (i mod thread_num_ p)) q Hj) as Hq. specialize (Hsum (Done true)). simpl in *. lia.
    + specialize (Hsum (Tries h (S i))). simpl in Hsum. lia.
  - intros [= <-]. simpl. specialize (Hsum (Commit h r p)). simpl in *. lia.
  - intros [= <-]. simpl. specialize (Hsum (CommitById h id p)). unfold CommitById in *. repeat case_match; simpl in *; lia.
  - intros (q & Hj & [= <-])%bind_Some. pose proof (Hput it q Hj). specialize (Hsum (Done true)). simpl in *. lia.
Qed.

Lemma Shutdown_decreases p p' : qpool_ok p -> Shutdown p = Some p' -> pwork_left p' < pwork_left p.
Proof.
  intros Hok. unfold Shutdown, pwork_left. destruct (stopper_ p) as [|i|i| |] eqn:Ed; try done.
  - intros [= <-]. simpl. lia.
  - destruct (task_queues_ p !! i) as [q|] eqn:Hj; intros [= <-]; simpl; [|lia].
    pose proof (sum_insert (queue_work (thread_num_ p)) _ _ _ (stop q) Hj) as Hq. unfold queue_work at 2 4 in Hq.
    simpl in *. lia.
  - pose proof (pk_stopper _ Hok _ Ed) as Hlt.
    intros (q & Hj & (q' & Hn & (st & Hw & [= <-])%bind_Some)%bind_Some)%bind_Some. simpl.
    pose proof (sum_insert (queue_work (thread_num_ p)) _ _ _ q' Hj) as Hq.
    pose proof (sum_insert (worker_work (thread_num_ p)) _ _ _ (wakes st) Hw) as Hsum.
    unfold notify_all in Hn. destruct (notify_all_due q); simplify_eq/=. unfold queue_work at 2 4 in Hq. simpl in *.
    destruct st; simpl in *; lia.
  - case_match; [|done]. intros [= <-]. simpl. lia.
Qed.

Lemma pworks_decreases e p p' : qpool_ok p -> pworks e -> pstep e p = Some p' -> pwork_left p' < pwork_left p.
Proof.
  intros Hok. destruct e as [c|c locked r|w locked|i| |w]; try done; intros _; cbn [pstep].
  - apply call_turn_decreases.
  - by apply pworker_turn_decreases.
  - intros (q & Hj & E)%bind_Some. unfold pwork_left.
    pose proof (fun y => sum_insert (queue_work (thread_num_ p)) _ _ _ y Hj) as Hq. unfold queue_work at 2 4 in Hq.
    unfold notify_one in E. destruct (notify_one_due q) as [|k] eqn:En; [by repeat case_match|].
    destruct (pworkers_ p !! i) as [st|] eqn:Hw.
    2: { case_decide; simplify_eq/=. specialize (Hq (mkQueue (queue_ q) (qstop_ q) ∅ k (notify_all_due q))). simpl in Hq. lia. }
    destruct st; case_decide; simplify_eq/=;
    match goal with |- context [<[_ := ?q']> (task_queues_ p)] => specialize (Hq q') end; simpl in Hq; try lia.
    pose proof (sum_insert (worker_work (thread_num_ p)) _ _ _ PopAt Hw). simpl in *. lia.
  - by apply Shutdown_decreases.
Qed.
End pools.

(** C4: in every interleaving of calls, workers and a shutdown, the handles put on the
    queues are exactly the ones still there, in a worker's hands, or resumed; none is
    resumed twice for one scheduling.  A handle scheduled for a worker by its id is
    resumed by that worker.  When the shutdown has returned and no call was under way
    behind its look at the stop flag when it began, all have been resumed. *)
Theorem queue_pool_runs_handles {Handle} n hw steal (es : list (pevent (Handle := Handle))) p :
  0 < n -> exec pstep es (QPool_new n hw steal) = Some p ->
  scheduled p ≡ₚ (handled p).*1 ++ (pworkers_ p ≫= in_hand) ++ (task_queues_ p ≫= queue_)
  /\ Forall (fun '(it, w) => can_steal it = false -> queue_no it = w) (handled p)
  /\ (stopper_ p = Over -> quiet p = true -> (handled p).*1 ≡ₚ scheduled p).
Proof.
  intros Hn Hok%qreachable_ok; [|done]. split_and!; [apply Hok|apply Hok|]. by apply over_drained.
Qed.

(** C12: the pool always gets its work done.  From every state it can reach, calls,
    workers, notifications and the shutdown make at most [pwork_left] more events before
    they need a new call or a spurious wake-up; when none of them can move any more, all
    calls have returned or failed their assertion, and either every handle has been
    resumed or the shutdown has returned. *)
Theorem queue_pool_progress {Handle} n hw steal (es : list (pevent (Handle := Handle))) p :
  0 < n -> exec pstep es (QPool_new n hw steal) = Some p ->
  (forall es' p', Forall pworks es' -> exec pstep es' p = Some p' -> length es' <= pwork_left p)
  /\ (pstuck p ->
        Forall (fun c => c = AssertFailed \/ exists b, c = Done b) (calls p)
        /\ (stopper_ p = Running /\ (handled p).*1 ≡ₚ scheduled p \/ stopper_ p = Over)).
Proof.
  intros Hn Hok%qreachable_ok; [|done]. split.
  - intros es' p' Hw E.
    pose proof (exec_bounded pstep pworks qpool_ok pwork_left pstep_ok pworks_decreases es' p p' Hok Hw E). lia.
  - intros Hstuck. split.
    + apply Forall_lookup_2. intros c cl. by apply stuck_call.
    + destruct (decide (stopped_ p = false)) as [E|E].
      * assert (stopper_ p = Running) as Er by (rewrite (pk_stopped _ Hok) in E; by destruct (stopper_ p)).
        left. split; [done|]. by apply stuck_running.
      * right. apply stuck_stopping; [done..|]. intros Er. by rewrite (pk_stopped _ Hok), Er in E.
Qed.

Module Examples.

(** Two workers that steal.  Handle 1 is bound to worker 0, 2 and 3 to nobody; worker 1
    steals 2 from queue 0 while worker 0 has gone for 1. *)
Definition stealing : list (pevent (Handle := nat)) :=
  [Begins (Schedules (Some 1) 0); CallTurns 0 true 0; CallTurns 0 true 0; WorkerTurns 0 true; WorkerTurns 0 true;
   WorkerTurns 0 true; Begins (co_spawn 2); CallTurns 1 true 0; CallTurns 1 true 0;
   WorkerTurns 0 true; WorkerTurns 1 true; WorkerTurns 1 true; WorkerTurns 1 true; WorkerTurns 0 true;
   QueueNotifies 0; QueueNotifies 0; Stops; Stops; Stops; Stops; Stops; Stops;
   WorkerTurns 0 true; WorkerTurns 0 true; WorkerTurns 0 true; WorkerTurns 0 true; WorkerTurns 0 true;
   WorkerTurns 1 true; WorkerTurns 1 true; WorkerTurns 1 true; WorkerTurns 1 true; WorkerTurns 1 true; Stops].
Definition stealing_end : QPool (Handle := nat) :=
  default (QPool_new 2 2 true) (exec pstep stealing (QPool_new 2 2 true)).

Lemma stealing_run : exec pstep stealing (QPool_new 2 2 true) = Some stealing_end.
Proof. vm_compute. reflexivity. Qed.

Example stealing_handled :
  stopper_ stealing_end = Over /\ handled stealing_end = [(mkItem 2 true 0, 1); (mkItem 1 false 0, 0)].
Proof. vm_compute. done. Qed.

Lemma queue_pool_runs_handles_witness : (handled stealing_end).*1 ≡ₚ scheduled stealing_end.
Proof.
  apply (queue_pool_runs_handles 2 2 true stealing stealing_end); [lia|exact stealing_run|vm_compute; reflexivity..].
Defined.

(** Behind the beginning of the calls, the rest of the run is within the bound. *)
Definition begun : QPool (Handle := nat) := default (QPool_new 2 2 true) (exec pstep (take 7 stealing) (QPool_new 2 2 true)).

Lemma begun_run : exec pstep (take 7 stealing) (QPool_new 2 2 true) = Some begun.
Proof. vm_compute. reflexivity. Qed.

Lemma queue_pool_progress_witness : length (drop 7 stealing) <= pwork_left begun.
Proof.
  apply (proj1 (queue_pool_progress 2 2 true (take 7 stealing) begun ltac:(lia) begun_run) (drop 7 stealing) stealing_end);
    [repeat constructor|vm_compute; reflexivity].
Defined.

(** A call that has seen the stop flag unset puts its handle on the queue of a worker
    that has gone: the handle is never resumed. *)
Example scheduled_while_stopping :
  exists p, exec pstep [Begins (co_spawn 1); CallTurns 0 true 0; Stops; Stops; Stops; Stops; WorkerTurns 0 true;
      WorkerTurns 0 true; CallTurns 0 true 0; Stops; QueueNotifies 0] (FunctionPool_new 1) = Some p
    /\ stopper_ p = Over /\ scheduled p = [mkItem 1 false 0] /\ handled p = [].
Proof. eexists. vm_compute. done. Qed.

(** Commit after Shutdown gives a future that is never ready. *)
Example commit_after_shutdown :
  exists p, exec pstep [Stops; Stops; Stops; Stops; WorkerTurns 0 true; WorkerTurns 0 true; Stops;
      Begins (Commits 1); CallTurns 0 true 5; CallTurns 0 true 0; QueueNotifies 0] (FunctionPool_new 1) = Some p
    /\ stopper_ p = Over /\ calls p = [Done true] /\ GetItemCount p = 1 /\ handled p = [].
Proof. eexists. vm_compute. done. Qed.

(** CommitById with its default id fails its assertion: a [size_t] is never below 0. *)
Example commit_by_default_id : CommitById (Some 1) (-1) (FunctionPool_new 4) = AssertFailed.
Proof. reflexivity. Qed.

(** With [thread_num] 0 there is a worker per core and no queue for it. *)
Example pool_of_zero :
  length (pworkers_ (QPool_new (Handle := nat) 0 8 true)) = 8 /\ task_queues_ (QPool_new (Handle := nat) 0 8 true) = [].
Proof. done. Qed.
End Examples.
