(* ===== verification/Coroutine.v ===== *)
(** * Coroutines (src/bitdb/co/task.h, Scheduler::co_spawn)

    A coroutine is a frame on the heap: where it is suspended, and its promise with the
    result, the continuation and the detached flag.  Workers run frames and go from one
    to another by symmetric transfer: [co_await] of a task enters the child, and the
    child's final suspension re-enters the parent.  A step that touches a frame that is
    no longer there does not exist, so a run that goes on shows that no frame is used
    after it was freed.

    The specification forgets frames: a thread is a tree in which [co_await] has become
    an ordinary call. *)

From S2P Require Import Prelude Threads.

Section coroutines.
(** Results of tasks, what coroutines do outside, what a suspended one is resumed with;
    what an unset [value_] holds, and the thread id of a worker. *)
Context {V O X : Type} (v0 : V) (ThisThreadId : nat -> Z).

(** The body of a coroutine: co_return, an exception that leaves it, an action,
    [co_await] of a new task, [co_spawn] of one, [co_await] of an outside event. *)
Inductive Co :=
| Return (v : V)
| Throws
| Emit (o : O) (rest : Co)
| Await (child : Co) (k : V -> Co)
| Spawn (child : Co) (rest : Co)
| Suspend (f : X -> Co).

(** ** Frames *)

Inductive Point := At (c : Co) | Awaiting (child : nat) (k : V -> Co) | Suspended (f : X -> Co) | Final.

Record Promise := mkPromise {
  value_ : V;
  continuation_ : option nat;     (** none: the no-op coroutine *)
  is_detached_ : bool;
  thrd_id_ : Z
}.

Record Frame := mkFrame { point : Point; promise : Promise }.

(** [workers]: what each thread of the pool runs.  [scheduled]: handles on the pool's
    queues.  [parked]: handles that wait for an outside event. *)
Record World := mkWorld {
  heap : gmap nat Frame;
  next : nat;
  workers : list (option nat);
  scheduled : list nat;
  parked : list nat;
  output : list O
}.

(** A call of a coroutine function: the frame, suspended at its start. *)
Definition get_return_object (c : Co) : Frame := mkFrame (At c) (mkPromise v0 None false (-1)).

Definition set_point (pt : Point) (fr : Frame) : Frame := mkFrame pt (promise fr).
Definition set_value (v : V) (fr : Frame) : Frame :=
  mkFrame (point fr) (mkPromise v (continuation_ (promise fr)) (is_detached_ (promise fr)) (thrd_id_ (promise fr))).
Definition set_continuation (h : nat) (fr : Frame) : Frame :=
  mkFrame (point fr) (mkPromise (value_ (promise fr)) (Some h) (is_detached_ (promise fr)) (thrd_id_ (promise fr))).
Definition set_thrd (t : Z) (fr : Frame) : Frame :=
  mkFrame (point fr) (mkPromise (value_ (promise fr)) (continuation_ (promise fr)) (is_detached_ (promise fr)) t).
Definition detach (fr : Frame) : Frame :=
  mkFrame (point fr) (mkPromise (value_ (promise fr)) (continuation_ (promise fr)) true (thrd_id_ (promise fr))).

Definition done (fr : Frame) : bool := if point fr is Final then true else false.

(** final_suspend: the frame is at its end; a detached one is destroyed.  The result is
    the coroutine to run next. *)
Definition final_suspend (h : nat) (H : gmap nat Frame) : option (option nat * gmap nat Frame) :=
  fr ← H !! h;
  let next := continuation_ (promise fr) in
  Some (next, if is_detached_ (promise fr) then delete h H else <[h := set_point Final fr]> H).

(** The awaiter of a task: await_ready, await_suspend, await_resume; then the task is
    destroyed, and its frame with it. *)
Definition await_ready (fr : Frame) : bool := done fr.
Definition await_suspend (child parent : nat) (H : gmap nat Frame) : option (gmap nat Frame) :=
  fr ← H !! child; Some (<[child := set_continuation parent fr]> H).
Definition await_resume (child : nat) (H : gmap nat Frame) : option V :=
  fr ← H !! child; Some (value_ (promise fr)).
Definition destroy (h : nat) (H : gmap nat Frame) : option (gmap nat Frame) :=
  _ ← H !! h; Some (delete h H).

Definition set_worker (w : nat) (h : option nat) (H : gmap nat Frame) (W : World) : World :=
  mkWorld H (next W) (<[w := h]> (workers W)) (scheduled W) (parked W) (output W).

(** Scheduler::co_spawn of a task in frame [h'], by thread [t]. *)
Definition co_spawn (t : Z) (h' : nat) (W : World) : option World :=
  fr ← heap W !! h';
  let fr := if decide (thrd_id_ (promise fr) = -1)%Z then set_thrd t fr else fr in
  Some (mkWorld (<[h' := detach fr]> (heap W)) (next W) (workers W) (scheduled W ++ [h']) (parked W) (output W)).

(** [co_await] of a new task by [h], on worker [w]. *)
Definition co_await (w h : nat) (child : Co) (k : V -> Co) (fr : Frame) (W : World) : option World :=
  let h' := next W in
  let H := <[h' := get_return_object child]> (<[h := set_point (Awaiting h' k) fr]> (heap W)) in
  cfr ← H !! h';
  if await_ready cfr then None else
  H ← await_suspend h' h H;
  Some (mkWorld H (S h') (<[w := Some h']> (workers W)) (scheduled W) (parked W) (output W)).

(** The coroutine on worker [w] goes on; [x] is what an outside event gives. *)
Definition turn (w : nat) (x : X) (W : World) : option World :=
  h ← mjoin (workers W !! w);
  fr ← heap W !! h;
  match point fr with
  | At (Return v) =>
      '(nx, H) ← final_suspend h (<[h := set_value v fr]> (heap W)); Some (set_worker w nx H W)
  | At Throws => '(nx, H) ← final_suspend h (heap W); Some (set_worker w nx H W)
  | At (Emit o c) =>
      Some (mkWorld (<[h := set_point (At c) fr]> (heap W)) (next W) (workers W) (scheduled W) (parked W) (output W ++ [o]))
  | At (Await child k) => co_await w h child k fr W
  | At (Spawn child c) =>
      let h' := next W in
      co_spawn (ThisThreadId w) h'
        (mkWorld (<[h' := get_return_object child]> (<[h := set_point (At c) fr]> (heap W))) (S h') (workers W)
           (scheduled W) (parked W) (output W))
  | At (Suspend f) =>
      Some (mkWorld (<[h := set_point (Suspended f) fr]> (heap W)) (next W) (<[w := None]> (workers W)) (scheduled W)
              (parked W ++ [h]) (output W))
  | Awaiting child k =>
      v ← await_resume child (heap W);
      H ← destroy child (heap W);
      Some (set_worker w (Some h) (<[h := set_point (At (k v)) fr]> H) W)
  | Suspended f => Some (set_worker w (Some h) (<[h := set_point (At (f x)) fr]> (heap W)) W)
  | Final => None
  end.

(** An idle worker takes a handle from a queue; the event loop puts a handle it was
    given on a queue. *)
Definition take_handle (w i : nat) (W : World) : option World :=
  h ← scheduled W !! i;
  if workers W !! w is Some None
  then Some (mkWorld (heap W) (next W) (<[w := Some h]> (workers W)) (delete i (scheduled W)) (parked W) (output W))
  else None.
Definition wake_handle (i : nat) (W : World) : option World :=
  h ← parked W !! i;
  Some (mkWorld (heap W) (next W) (workers W) (scheduled W ++ [h]) (delete i (parked W)) (output W)).

Inductive cevent := Turn (w : nat) (x : X) | Take (w i : nat) | Wake (i : nat).

Definition cstep (e : cevent) (W : World) : option World :=
  match e with Turn w x => turn w x W | Take w i => take_handle w i W | Wake i => wake_handle i W end.

(** The program: [n] idle workers, one task spawned from outside. *)
Definition World_new (n : nat) (main : Co) : World :=
  mkWorld {[0 := detach (set_thrd 0 (get_return_object main))]} 1 (replicate n None) [0] [] [].

(** Task::run in a thread that is none of the pool's: the task is detached and resumed
    there, and its result is read when the thread comes back. *)
Definition World_run (main : Co) : World :=
  mkWorld {[0 := detach (get_return_object main)]} 1 [Some 0] [] [] [].
Definition run_result (W : World) : option V := await_resume 0 (heap W).

(** ** The specification *)

(** A thread without frames. *)
Inductive Flat := FRet (v : V) | FEmit (o : O) (t : Flat) | FSpawn (t t' : Flat) | FSusp (f : X -> Flat).

(** [co_await] as a call: the child's tree with the rest of the parent at its leaves. *)
Fixpoint flat (c : Co) (K : V -> Flat) : Flat :=
  match c with
  | Return v => K v
  | Throws => K v0
  | Emit o c => FEmit o (flat c K)
  | Await child k => flat child (fun v => flat (k v) K)
  | Spawn child c => FSpawn (flat child FRet) (flat c K)
  | Suspend f => FSusp (fun x => flat (f x) K)
  end.

(** Threads in any order, and the output. *)
Definition Spec : Type := list Flat * list O.

Inductive spec_step : Spec -> Spec -> Prop :=
| spec_ret v ts out : spec_step (FRet v :: ts, out) (ts, out)
| spec_emit o t ts out : spec_step (FEmit o t :: ts, out) (t :: ts, out ++ [o])
| spec_spawn t t' ts out : spec_step (FSpawn t t' :: ts, out) (t :: t' :: ts, out)
| spec_susp f x ts out : spec_step (FSusp f :: ts, out) (f x :: ts, out)
| spec_perm ts ts' out : ts ≡ₚ ts' -> spec_step (ts, out) (ts', out).

(** ** The invariant *)

(** A thread: the frame it is in or will go on with, the frames that wait for it, from
    the inside to the outside, and its tree. *)
Record Thread := mkThread { head : nat; frames : list nat; tree : Flat }.

(** The frames that wait: each waits for the one before it; the last is detached.
    None has a result yet. *)
Fixpoint conts (H : gmap nat Frame) (child : nat) (pr : Promise) (ps : list nat) (K : V -> Flat) : Prop :=
  match ps with
  | [] => value_ pr = v0 /\ continuation_ pr = None /\ is_detached_ pr = true /\ K = FRet
  | p :: ps =>
      value_ pr = v0 /\ continuation_ pr = Some p /\ is_detached_ pr = false
      /\ exists fr k K', H !! p = Some fr /\ point fr = Awaiting child k /\ conts H p (promise fr) ps K'
                         /\ K = (fun v => flat (k v) K')
  end.

Inductive thread_ok (H : gmap nat Frame) : Thread -> Prop :=
| ok_at h fr c ps K : H !! h = Some fr -> point fr = At c -> conts H h (promise fr) ps K ->
    thread_ok H (mkThread h (h :: ps) (flat c K))
| ok_suspended h fr f ps K : H !! h = Some fr -> point fr = Suspended f -> conts H h (promise fr) ps K ->
    thread_ok H (mkThread h (h :: ps) (FSusp (fun x => flat (f x) K)))
| ok_awaiting h fr child cfr k ps K : H !! h = Some fr -> point fr = Awaiting child k -> conts H h (promise fr) ps K ->
    H !! child = Some cfr -> point cfr = Final ->
    thread_ok H (mkThread h (h :: child :: ps) (flat (k (value_ (promise cfr))) K)).

Definition heads (W : World) : list nat := omap id (workers W) ++ scheduled W ++ parked W.

Record world_ok (W : World) (ths : list Thread) : Prop := {
  ok_heads : heads W ≡ₚ head <$> ths;
  ok_threads : Forall (thread_ok (heap W)) ths;
  ok_apart : NoDup (ths ≫= frames);
  ok_dom : forall i, is_Some (heap W !! i) <-> i ∈ ths ≫= frames;
  ok_next : forall i, i ∈ ths ≫= frames -> i < next W
}.

Lemma conts_agree H H' child pr ps K : (forall i, i ∈ ps -> H' !! i = H !! i) ->
  conts H child pr ps K -> conts H' child pr ps K.
Proof.
  revert child pr K. induction ps as [|p ps IH]; intros child pr K Hag; simpl; [done|].
  intros (Hv & Hc & Hd & fr & k & K' & Hp & Hpt & Hcs & ->). split_and!; [done..|]. exists fr, k, K'.
  rewrite Hag by set_solver. split_and!; try done. apply IH; [set_solver|done].
Qed.

Lemma thread_agree H H' th : (forall i, i ∈ frames th -> H' !! i = H !! i) -> thread_ok H th -> thread_ok H' th.
Proof.
  intros Hag Hth. destruct Hth as [h fr c ps K Hh Hp Hc|h fr f ps K Hh Hp Hc|h fr child cfr k ps K Hh Hp Hc Hch Hf]; simpl in Hag.
  - apply (ok_at _ h fr); [rewrite Hag by set_solver; done|done|]. eapply conts_agree; [|done]. set_solver.
  - apply (ok_suspended _ h fr); [rewrite Hag by set_solver; done|done|]. eapply conts_agree; [|done]. set_solver.
  - apply (ok_awaiting _ h fr child cfr k); try done; [rewrite Hag by set_solver; done| |rewrite Hag by set_solver; done].
    eapply conts_agree; [|done]. set_solver.
Qed.

(** One thread moves: its frames become those of the threads it turns into, some new. *)
Lemma world_update W W' th rest new : world_ok W (th :: rest) ->
  heads W' ≡ₚ (head <$> new) ++ (head <$> rest) ->
  Forall (thread_ok (heap W')) new -> NoDup (new ≫= frames) ->
  (forall i, i ∈ new ≫= frames -> i ∈ frames th \/ next W <= i < next W') -> next W <= next W' ->
  (forall i, i ∉ frames th -> i ∉ new ≫= frames -> heap W' !! i = heap W !! i) ->
  (forall i, i ∈ frames th -> i ∉ new ≫= frames -> heap W' !! i = None) ->
  (forall i, i ∈ new ≫= frames -> is_Some (heap W' !! i)) ->
  world_ok W' (new ++ rest).
Proof.
  intros [Hh Ht Ha Hd Hn] Hh' Ht' Ha' Hfr Hle Hout Hgone Hin.
  rewrite bind_cons in Ha, Hd, Hn. apply Forall_cons in Ht as [_ Ht]. apply NoDup_app in Ha as (_ & Hsep & Ha).
  assert (forall i, i ∈ rest ≫= frames -> i ∉ frames th /\ i ∉ new ≫= frames /\ i < next W) as Hrest.
  { intros i Hi. assert (i ∉ frames th) by (intros Hx; by apply (Hsep i)). assert (i < next W) by (apply Hn; set_solver).
    split_and!; [done| |done]. intros [|]%Hfr; [done|lia]. }
  split.
  - by rewrite fmap_app.
  - apply Forall_app_2; [done|]. apply Forall_forall. intros th' Hth'. rewrite Forall_forall in Ht.
    apply (thread_agree (heap W)); [|by apply Ht]. intros i Hi.
    assert (i ∈ rest ≫= frames) as Hi' by (apply list_elem_of_bind; eauto).
    apply Hrest in Hi' as (? & ? & _). by apply Hout.
  - rewrite bind_app. apply NoDup_app. split_and!; [done| |done]. intros i Hi Hi'. by apply Hrest in Hi' as (_ & ? & _).
  - intros i. rewrite bind_app, elem_of_app. split.
    + intros Hs. destruct (decide (i ∈ new ≫= frames)) as [|Hnn]; [by left|right].
      destruct (decide (i ∈ frames th)) as [Hth|Hth]; [rewrite Hgone in Hs by done; by destruct Hs|].
      rewrite Hout in Hs by done. apply Hd in Hs. set_solver.
    + intros [Hi|Hi]; [by apply Hin|]. destruct (Hrest i Hi) as (? & ? & _). rewrite Hout by done. apply Hd. set_solver.
  - intros i. rewrite bind_app, elem_of_app. intros [[Hi|]%Hfr|Hi]; [|lia|].
    + specialize (Hn i). rewrite elem_of_app in Hn. lia || (assert (i < next W) by (apply Hn; by left); lia).
    + destruct (Hrest i Hi) as (_ & _ & ?). lia.
Qed.

Lemma world_perm W ths ths' : ths ≡ₚ ths' -> world_ok W ths -> world_ok W ths'.
Proof.
  intros Hp [Hh Ht Ha Hd Hn]. assert (ths ≫= frames ≡ₚ ths' ≫= frames) as Hb by by rewrite Hp. split.
  - by rewrite Hh, Hp.
  - by rewrite <-Hp.
  - by rewrite <-Hb.
  - intros i. by rewrite Hd, Hb.
  - intros i. rewrite <-Hb. apply Hn.
Qed.

(** The thread with a given head. *)
Lemma find_thread W ths h : world_ok W ths -> h ∈ heads W ->
  exists th rest, ths ≡ₚ th :: rest /\ head th = h /\ world_ok W (th :: rest).
Proof.
  intros Hok Hin. rewrite (ok_heads _ _ Hok) in Hin. apply list_elem_of_fmap in Hin as (th & -> & Hin).
  apply elem_of_Permutation in Hin as [rest Hp]. exists th, rest. split_and!; [done..|]. by eapply world_perm.
Qed.

Definition others (w : nat) (W : World) : list nat := omap id (<[w := None]> (workers W)).

Lemma omap_insert (l : list (option nat)) w h : w < length l -> omap id (<[w := Some h]> l) ≡ₚ h :: omap id (<[w := None]> l).
Proof.
  revert w. induction l as [|[z|] l IH]; intros [|w] Hw; simpl in *; try lia; try done.
  - rewrite IH by lia. by rewrite Permutation_swap.
  - apply IH. lia.
Qed.

Lemma heads_running W w h : workers W !! w = Some (Some h) ->
  heads W ≡ₚ h :: others w W ++ scheduled W ++ parked W.
Proof.
  intros Hw. unfold heads, others. rewrite <-(list_insert_id _ _ _ Hw) at 1.
  rewrite omap_insert by by apply lookup_lt_Some in Hw. done.
Qed.

(** The other threads' heads, when worker [w] runs [th]. *)
Lemma heads_rest W w th rest : world_ok W (th :: rest) -> workers W !! w = Some (Some (head th)) ->
  others w W ++ scheduled W ++ parked W ≡ₚ head <$> rest.
Proof.
  intros Hok Hw. pose proof (ok_heads _ _ Hok) as Hh. rewrite (heads_running _ _ _ Hw) in Hh. simpl in Hh.
  by apply Permutation_cons_inv in Hh.
Qed.

Lemma heads_next W w h nx H : workers W !! w = Some (Some h) ->
  heads (set_worker w nx H W) ≡ₚ option_list nx ++ others w W ++ scheduled W ++ parked W.
Proof.
  intros Hw. unfold heads, others. simpl. destruct nx as [h'|]; simpl; [|done].
  by rewrite omap_insert by by apply lookup_lt_Some in Hw.
Qed.

(** The frames of the first thread. *)
Lemma thread_apart W th rest : world_ok W (th :: rest) ->
  NoDup (frames th) /\ (forall i, i ∈ frames th -> i < next W).
Proof.
  intros [_ _ Ha _ Hn]. rewrite bind_cons in Ha, Hn. apply NoDup_app in Ha as (Ha & _ & _). split; [done|].
  intros i Hi. apply Hn. set_solver.
Qed.

(** The specification takes a step of the first thread, or none. *)
Definition simulated (W : World) (ths : list Thread) (W' : World) : Prop :=
  exists ths', world_ok W' ths' /\ rtc spec_step (tree <$> ths, output W) (tree <$> ths', output W').

Lemma simulated_perm W ths ths' W' : ths ≡ₚ ths' -> simulated W ths' W' -> simulated W ths W'.
Proof.
  intros Hp (ths2 & Hok & Hs). exists ths2. split; [done|]. eapply rtc_l; [|exact Hs]. constructor. by rewrite Hp.
Qed.

(** *** One lemma per way in which a coroutine goes on *)

(** Its end: back to the parent, or nowhere and the frame is destroyed. *)
Lemma finish_sim W w h fr fr1 ps K v rest nx H1 H' :
  world_ok W (mkThread h (h :: ps) (K v) :: rest) -> workers W !! w = Some (Some h) ->
  conts (heap W) h (promise fr) ps K ->
  H1 !! h = Some fr1 -> (forall i, i ≠ h -> H1 !! i = heap W !! i) -> value_ (promise fr1) = v ->
  continuation_ (promise fr1) = continuation_ (promise fr) -> is_detached_ (promise fr1) = is_detached_ (promise fr) ->
  final_suspend h H1 = Some (nx, H') ->
  simulated W (mkThread h (h :: ps) (K v) :: rest) (set_worker w nx H' W).
Proof.
  intros Hok Hw Hc Hh Hother Hv Ec Ed Ef. pose proof (heads_rest _ _ _ _ Hok Hw) as Hrest.
  destruct (thread_apart _ _ _ Hok) as [Hnd Hlt]. simpl in Hnd, Hlt. apply NoDup_cons in Hnd as [Hnh Hnd].
  unfold final_suspend in Ef. rewrite Hh in Ef. simpl in Ef. rewrite Ec, Ed in Ef. destruct ps as [|p ps]; simpl in Hc.
  - destruct Hc as (_ & Hcn & Hdt & ->). rewrite Hcn, Hdt in Ef. injection Ef as <- <-. exists rest. split.
    + apply (world_update W _ _ rest [] Hok); simpl; [|done|constructor|set_solver|done| | |set_solver].
      * rewrite (heads_next _ _ _ _ _ Hw). exact Hrest.
      * intros i Hi _. rewrite lookup_delete_ne by set_solver. apply Hother. set_solver.
      * intros i Hi _. apply list_elem_of_singleton in Hi as ->. apply lookup_delete_eq.
    + apply rtc_once. constructor.
  - destruct Hc as (_ & Hcn & Hdt & pfr & k & K' & Hp & Hpt & Hcs & ->). rewrite Hcn, Hdt in Ef. injection Ef as <- <-.
    apply NoDup_cons in Hnd as [Hnp Hnd].
    exists (mkThread p (p :: h :: ps) (flat (k v) K') :: rest). split; [|done].
    apply (world_update W _ _ rest [mkThread p (p :: h :: ps) (flat (k v) K')] Hok); simpl; rewrite ?app_nil_r.
    + rewrite (heads_next _ _ _ _ _ Hw), Hrest. done.
    + apply Forall_singleton. rewrite <-Hv. apply (ok_awaiting _ p pfr h (set_point Final fr1) k); try done.
      * rewrite lookup_insert_ne by set_solver. rewrite Hother by set_solver. done.
      * apply (conts_agree (heap W)); [|done]. intros i Hi. rewrite lookup_insert_ne by set_solver. apply Hother. set_solver.
      * apply lookup_insert_eq.
    + repeat constructor; set_solver.
    + set_solver.
    + done.
    + intros i Hi _. rewrite lookup_insert_ne by set_solver. apply Hother. set_solver.
    + set_solver.
    + intros i Hi. destruct (decide (i = h)) as [->|Hne]; [by rewrite lookup_insert_eq|].
      rewrite lookup_insert_ne by done. rewrite Hother by done. apply (ok_dom _ _ Hok). rewrite bind_cons. set_solver.
Qed.

(** A frame that goes on by itself: nothing but its own point changes. *)
Lemma point_ok W W' th rest h fr pt ps T :
  world_ok W (th :: rest) -> frames th = h :: ps -> heap W !! h = Some fr ->
  heap W' = <[h := set_point pt fr]> (heap W) -> next W' = next W -> heads W' ≡ₚ h :: (head <$> rest) ->
  thread_ok (heap W') (mkThread h (h :: ps) T) -> world_ok W' (mkThread h (h :: ps) T :: rest).
Proof.
  intros Hok Hf Hh EH En Hhd Hth. destruct (thread_apart _ _ _ Hok) as [Hnd _]. rewrite Hf in Hnd.
  apply (world_update W W' _ rest [mkThread h (h :: ps) T] Hok); simpl; rewrite ?app_nil_r, ?Hf, ?EH, ?En; try done.
  - by apply Forall_singleton; rewrite <-EH.
  - set_solver.
  - intros i Hi _. apply lookup_insert_ne. set_solver.
  - intros i Hi. destruct (decide (i = h)) as [->|Hne]; [by rewrite lookup_insert_eq|]. rewrite lookup_insert_ne by done.
    apply (ok_dom _ _ Hok). rewrite bind_cons, Hf. set_solver.
Qed.

(** A new child: the frame waits for it. *)
Lemma await_sim W W' w h fr child k ps K rest :
  world_ok W (mkThread h (h :: ps) (flat (Await child k) K) :: rest) -> workers W !! w = Some (Some h) ->
  heap W !! h = Some fr -> conts (heap W) h (promise fr) ps K -> co_await w h child k fr W = Some W' ->
  simulated W (mkThread h (h :: ps) (flat (Await child k) K) :: rest) W'.
Proof.
  intros Hok Hw Hh Hc. pose proof (heads_rest _ _ _ _ Hok Hw) as Hrest.
  destruct (thread_apart _ _ _ Hok) as [Hnd Hlt]. simpl in Hnd, Hlt.
  unfold co_await, await_suspend. rewrite lookup_insert_eq. simpl. intros [= <-].
  set (h' := next W) in *. assert (forall i, i ∈ h :: ps -> i ≠ h') as Hne by (intros i Hi ->; specialize (Hlt _ Hi); lia).
  exists (mkThread h' (h' :: h :: ps) (flat (Await child k) K) :: rest). split; [|done].
  apply (world_update W _ _ rest [mkThread h' (h' :: h :: ps) (flat (Await child k) K)] Hok); simpl; rewrite ?app_nil_r.
  - unfold heads. simpl. rewrite omap_insert by by apply lookup_lt_Some in Hw. change (omap id _) with (others w W).
    simpl. by rewrite Hrest.
  - apply Forall_singleton. eapply (ok_at _ h' _ child); [apply lookup_insert_eq|done|]. simpl. split_and!; [done..|].
    exists (set_point (Awaiting h' k) fr), k, K. split_and!; try done.
    + rewrite lookup_insert_ne by (apply not_eq_sym, Hne; set_solver). rewrite lookup_insert_ne by (apply not_eq_sym, Hne; set_solver).
      apply lookup_insert_eq.
    + apply NoDup_cons in Hnd as [Hnh _].
      apply (conts_agree (heap W)); [|done]. intros i Hi. assert (i ≠ h') by (apply Hne; set_solver).
      rewrite !lookup_insert_ne by set_solver. done.
  - constructor; [|done]. intros Hi. by apply (Hne h').
  - intros i [->|Hi]%elem_of_cons; [right; lia|left; set_solver].
  - lia.
  - intros i Hi1 Hi2. rewrite !lookup_insert_ne by set_solver. done.
  - set_solver.
  - intros i [->|Hi]%elem_of_cons; [by rewrite lookup_insert_eq|]. assert (i ≠ h') by by apply Hne.
    rewrite !lookup_insert_ne by done. destruct (decide (i = h)) as [->|Hn]; [by rewrite lookup_insert_eq|].
    rewrite lookup_insert_ne by done. apply (ok_dom _ _ Hok). rewrite bind_cons. set_solver.
Qed.

(** A detached child: a thread of its own. *)
Lemma spawn_sim W w h fr child c ps K rest :
  world_ok W (mkThread h (h :: ps) (flat (Spawn child c) K) :: rest) -> workers W !! w = Some (Some h) ->
  heap W !! h = Some fr -> conts (heap W) h (promise fr) ps K -> 
  simulated W (mkThread h (h :: ps) (flat (Spawn child c) K) :: rest)
    (mkWorld (<[next W := detach (set_thrd (ThisThreadId w) (get_return_object child))]>
                (<[h := set_point (At c) fr]> (heap W))) (S (next W)) (workers W)
       (scheduled W ++ [next W]) (parked W) (output W)).
Proof.
  intros Hok Hw Hh Hc. pose proof (heads_rest _ _ _ _ Hok Hw) as Hrest.
  destruct (thread_apart _ _ _ Hok) as [Hnd Hlt]. simpl in Hnd, Hlt.
  set (h' := next W) in *. assert (forall i, i ∈ h :: ps -> i ≠ h') as Hne by (intros i Hi ->; specialize (Hlt _ Hi); lia).
  set (new := [mkThread h' [h'] (flat child FRet); mkThread h (h :: ps) (flat c K)]).
  exists (new ++ rest). split; [|apply rtc_once; constructor].
  apply (world_update W _ _ rest new Hok); simpl; rewrite ?app_nil_r.
  - rewrite <-Hrest. unfold heads. simpl. rewrite <-(list_insert_id _ _ _ Hw).
    rewrite omap_insert by by apply lookup_lt_Some in Hw. change (omap id _) with (others w W). simpl.
    rewrite <-(app_assoc (scheduled W)). simpl.
    rewrite (app_assoc (others w W)), <-Permutation_middle, <-app_assoc. apply Permutation_swap.
  - repeat apply Forall_cons_2; [| |done].
    + eapply (ok_at _ h' _ child []); [apply lookup_insert_eq|done|done].
    + apply (ok_at _ h (set_point (At c) fr)); [|done|].
      * rewrite lookup_insert_ne by (apply not_eq_sym, Hne; set_solver). apply lookup_insert_eq.
      * apply NoDup_cons in Hnd as [Hnh _].
        apply (conts_agree (heap W)); [|done]. intros i Hi. assert (i ≠ h') by (apply Hne; set_solver).
        rewrite !lookup_insert_ne by set_solver. done.
  - constructor; [|done]. intros Hi. by apply (Hne h').
  - intros i [->|Hi]%elem_of_cons; [right; lia|left; set_solver].
  - lia.
  - intros i Hi1 Hi2. rewrite !lookup_insert_ne by set_solver. done.
  - set_solver.
  - intros i [->|Hi]%elem_of_cons; [by rewrite lookup_insert_eq|]. assert (i ≠ h') by by apply Hne.
    rewrite !lookup_insert_ne by done. destruct (decide (i = h)) as [->|Hn]; [by rewrite lookup_insert_eq|].
    rewrite lookup_insert_ne by done. apply (ok_dom _ _ Hok). rewrite bind_cons. set_solver.
Qed.

(** The result of a child is read, and the child's frame destroyed. *)
Lemma resume_sim W w h fr child cfr k ps K rest :
  world_ok W (mkThread h (h :: child :: ps) (flat (k (value_ (promise cfr))) K) :: rest) ->
  workers W !! w = Some (Some h) -> heap W !! h = Some fr -> conts (heap W) h (promise fr) ps K ->
  heap W !! child = Some cfr ->
  simulated W (mkThread h (h :: child :: ps) (flat (k (value_ (promise cfr))) K) :: rest)
    (set_worker w (Some h) (<[h := set_point (At (k (value_ (promise cfr)))) fr]> (delete child (heap W))) W).
Proof.
  intros Hok Hw Hh Hc Hch. pose proof (heads_rest _ _ _ _ Hok Hw) as Hrest.
  destruct (thread_apart _ _ _ Hok) as [Hnd Hlt]. simpl in Hnd, Hlt.
  apply NoDup_cons in Hnd as [Hnh [Hnc Hnd]%NoDup_cons].
  set (T := flat (k (value_ (promise cfr))) K) in *. exists (mkThread h (h :: ps) T :: rest). split; [|done].
  apply (world_update W _ _ rest [mkThread h (h :: ps) T] Hok); simpl; rewrite ?app_nil_r.
  - rewrite (heads_next _ _ _ _ _ Hw), Hrest. done.
  - apply Forall_singleton. eapply (ok_at _ h); [apply lookup_insert_eq|done|].
    apply (conts_agree (heap W)); [|done]. intros i Hi. rewrite lookup_insert_ne by set_solver. apply lookup_delete_ne. set_solver.
  - constructor; [set_solver|done].
  - set_solver.
  - done.
  - intros i Hi1 Hi2. rewrite lookup_insert_ne by set_solver. apply lookup_delete_ne. set_solver.
  - intros i Hi Hi2. assert (i = child) as -> by set_solver. rewrite lookup_insert_ne by set_solver. apply lookup_delete_eq.
  - intros i Hi. destruct (decide (i = h)) as [->|Hn]; [by rewrite lookup_insert_eq|]. rewrite lookup_insert_ne by done.
    rewrite lookup_delete_ne by set_solver. apply (ok_dom _ _ Hok). rewrite bind_cons. set_solver.
Qed.

Lemma running_worker W w h : mjoin (workers W !! w) = Some h -> workers W !! w = Some (Some h).
Proof. by destruct (workers W !! w) as [[]|]; intros; simplify_eq/=. Qed.

Lemma turn_sim w x W W' ths : world_ok W ths -> turn w x W = Some W' -> simulated W ths W'.
Proof.
  intros Hok0. unfold turn. intros (h & Hw & (fr & Hh & E)%bind_Some)%bind_Some. apply running_worker in Hw.
  destruct (find_thread W ths h Hok0) as (th & rest & Hp & Hhd & Hok).
  { rewrite (heads_running _ _ _ Hw). set_solver. }
  apply (simulated_perm _ _ _ _ Hp). clear Hok0 Hp ths. rewrite <-Hhd in Hw. pose proof (heads_rest _ _ _ _ Hok Hw) as Hrest.
  destruct (thread_apart _ _ _ Hok) as [Hnd _].
  pose proof (Forall_inv (ok_threads _ _ Hok)) as Hth.
  destruct Hth as [h0 fr0 c ps K Hh0 Hpt Hc|h0 fr0 f ps K Hh0 Hpt Hc|h0 fr0 child cfr k ps K Hh0 Hpt Hc Hch Hfin];
    simpl in Hhd, Hw, Hnd; subst h0; simplify_eq; rewrite Hpt in E; apply NoDup_cons in Hnd as [Hnh Hnd].
  - assert (forall pt H, H = <[h := set_point pt fr]> (heap W) -> conts H h (promise fr) ps K) as Hc'.
    { intros pt H ->. apply (conts_agree (heap W)); [|done]. intros i Hi. apply lookup_insert_ne. set_solver. }
    destruct c as [v| |o c|child k|child c|f].
    + apply bind_Some in E as ([nx H'] & Ef & [= <-]).
      eapply (finish_sim W w h fr (set_value v fr)); [done..|apply lookup_insert_eq| |done|done|done|exact Ef].
      intros i Hi. by rewrite lookup_insert_ne.
    + apply bind_Some in E as ([nx H'] & Ef & [= <-]).
      eapply (finish_sim W w h fr fr); [done..| |done|done|exact Ef]. by destruct ps; apply Hc.
    + injection E as <-. eexists (mkThread h (h :: ps) (flat c K) :: rest). split; [|apply rtc_once; constructor].
      eapply (point_ok W _ _ rest h fr (At c) ps); [done..| |].
      * rewrite <-Hrest. exact (heads_running W w h Hw).
      * eapply (ok_at _ h); [apply lookup_insert_eq|done|]. by eapply Hc'.
    + by eapply await_sim.
    + unfold co_spawn in E. simpl in E. rewrite lookup_insert_eq in E. simpl in E. rewrite insert_insert_eq in E. injection E as <-.
      by apply spawn_sim.
    + injection E as <-. eexists (mkThread h (h :: ps) (flat (Suspend f) K) :: rest). split; [|done].
      eapply (point_ok W _ _ rest h fr (Suspended f) ps); [done..| |].
      * rewrite <-Hrest. unfold heads. simpl. rewrite (app_assoc (scheduled W)), (app_assoc _ _ [h]), Permutation_app_comm. done.
      * eapply (ok_suspended _ h); [apply lookup_insert_eq|done|]. by eapply Hc'.
  - injection E as <-. eexists (mkThread h (h :: ps) (flat (f x) K) :: rest). split.
    + eapply (point_ok W _ _ rest h fr (At (f x)) ps); [done..| |].
      * rewrite (heads_next _ _ _ _ _ Hw), Hrest. done.
      * eapply (ok_at _ h); [apply lookup_insert_eq|done|]. simpl. apply (conts_agree (heap W)); [|done].
        intros i Hi. apply lookup_insert_ne. set_solver.
    + apply rtc_once. apply (spec_susp (fun x => flat (f x) K)).
  - unfold await_resume, destroy in E. rewrite Hch in E. simpl in E. injection E as <-. by eapply resume_sim.
Qed.

Lemma delete_perm (l : list nat) i h : l !! i = Some h -> l ≡ₚ h :: delete i l.
Proof.
  revert i. induction l as [|x l IH]; intros [|i] Hi; simplify_eq/=; [done|]. rewrite (IH _ Hi) at 1. apply Permutation_swap.
Qed.

(** Handles that change hands between queues and workers. *)
Lemma heads_sim W W' ths : world_ok W ths -> heads W' ≡ₚ heads W -> heap W' = heap W -> next W' = next W ->
  output W' = output W -> simulated W ths W'.
Proof.
  intros [Hh Ht Ha Hd Hn] E1 E2 E3 E4. exists ths. rewrite E4. split; [|done].
  split; rewrite ?E1, ?E2, ?E3; done.
Qed.

Lemma cstep_sim e W W' ths : world_ok W ths -> cstep e W = Some W' -> simulated W ths W'.
Proof.
  intros Hok. destruct e as [w x|w i|i]; cbn [cstep]; [by apply turn_sim|..].
  - intros (h & Hi & E)%bind_Some. destruct (workers W !! w) as [[]|] eqn:Hw; simplify_eq/=.
    apply (heads_sim _ _ _ Hok); try done. unfold heads. simpl. rewrite omap_insert by by apply lookup_lt_Some in Hw.
    rewrite (list_insert_id _ _ _ Hw). rewrite (delete_perm _ _ _ Hi) at 2. simpl. by rewrite <-Permutation_middle.
  - intros (h & Hi & [= <-])%bind_Some. apply (heads_sim _ _ _ Hok); try done. unfold heads. simpl. f_equiv.
    rewrite (delete_perm _ _ _ Hi) at 2. by rewrite <-app_assoc.
Qed.

Lemma run_sim es W W' ths : world_ok W ths -> exec cstep es W = Some W' -> simulated W ths W'.
Proof.
  revert W ths. induction es as [|e es IH]; intros W ths Hok; simpl.
  - intros [= <-]. by exists ths.
  - intros (W1 & E1 & E2)%bind_Some. destruct (cstep_sim _ _ _ _ Hok E1) as (ths1 & Hok1 & Hs1).
    destruct (IH _ _ Hok1 E2) as (ths2 & Hok2 & Hs2). exists ths2. split; [done|]. by etrans.
Qed.

(** A running coroutine can go on. *)
Lemma turn_progress w x W ths h : world_ok W ths -> workers W !! w = Some (Some h) -> is_Some (turn w x W).
Proof.
  intros Hok Hw. destruct (find_thread W ths h Hok) as (th & rest & _ & Hhd & Hok').
  { rewrite (heads_running _ _ _ Hw). set_solver. }
  pose proof (Forall_inv (ok_threads _ _ Hok')) as Hth. unfold turn. rewrite Hw. simpl.
  destruct Hth as [h0 fr0 c ps K Hh0 Hpt Hc|h0 fr0 f ps K Hh0 Hpt Hc|h0 fr0 child cfr k ps K Hh0 Hpt Hc Hch Hfin];
    simpl in Hhd; subst h0; rewrite Hh0; simpl; rewrite Hpt; try done.
  - unfold final_suspend, co_await, await_suspend, co_spawn. destruct c; simpl; rewrite ?lookup_insert_eq, ?Hh0; simpl;
      rewrite ?lookup_insert_eq; try done.
  - unfold await_resume, destroy. by rewrite Hch.
Qed.

Lemma no_heads W ths : world_ok W ths -> heads W = [] -> heap W = ∅.
Proof.
  intros [Hh _ _ Hd _] E. rewrite E in Hh. symmetry in Hh. apply Permutation_nil_r in Hh. apply fmap_nil_inv in Hh as ->.
  apply map_eq. intros i. rewrite lookup_empty. destruct (heap W !! i) eqn:Ei; [|done].
  assert (i ∈ ([] : list Thread) ≫= frames) by by apply Hd. set_solver.
Qed.

Lemma start_ok (W : World) main : heap W = {[0 := detach (get_return_object main)]} \/
    heap W = {[0 := detach (set_thrd 0 (get_return_object main))]} ->
  heads W ≡ₚ [0] -> next W = 1 -> world_ok W [mkThread 0 [0] (flat main FRet)].
Proof.
  intros HW Hh Hn. assert (forall i, is_Some (heap W !! i) <-> i = 0) as Hd.
  { intros i. destruct HW as [-> | ->]; rewrite lookup_singleton_is_Some; naive_solver. }
  split; simpl.
  - done.
  - apply Forall_singleton. destruct HW as [-> | ->]; eapply (ok_at _ 0 _ main []); (apply lookup_singleton_eq || done).
  - apply NoDup_singleton.
  - intros i. rewrite Hd. set_solver.
  - intros i Hi. rewrite Hn. assert (i = 0) by set_solver. lia.
Qed.
End coroutines.

(** C3: the frames implement threads.  In every run of a task on any number of workers,
    with every order of resumptions, what the coroutines have done is what threads would
    have done in which co_await is an ordinary call and co_spawn starts a thread; a
    running coroutine can always go on, so no frame is used after it was freed; and when
    no handle is left anywhere, every frame has been freed. *)
Theorem coroutines_refine_threads {V O X} (v0 : V) tid (main : Co (O := O) (X := X)) n es W :
  exec (cstep v0 tid) es (World_new v0 n main) = Some W ->
  (exists ts, rtc spec_step ([flat v0 main FRet], []) (ts, output W) /\ length ts = length (heads W))
  /\ (forall w h x, workers W !! w = Some (Some h) -> is_Some (turn v0 tid w x W))
  /\ (heads W = [] -> heap W = ∅).
Proof.
  intros Hrun. assert (world_ok v0 (World_new v0 n main) [mkThread 0 [0] (flat v0 main FRet)]) as Hok.
  { apply (start_ok v0 tid (World_new v0 n main) main); [by right| |done]. unfold heads. simpl. assert (omap id (replicate n None) = ([] : list nat)) as ->; [|done].
    clear Hrun. induction n; simpl; done. }
  destruct (run_sim _ _ _ _ _ _ Hok Hrun) as (ths & Hok' & Hs). split_and!.
  - exists (tree <$> ths). split; [exact Hs|]. rewrite length_fmap, (Permutation_length (ok_heads _ _ _ Hok')). by rewrite length_fmap.
  - intros w h x. by eapply turn_progress.
  - by eapply no_heads.
Qed.

(** Task::run reads its result from a frame that is gone: when the coroutine has
    come to its end, the detached frame was destroyed by its final suspension. *)
Lemma run_reads_freed_frame {V O X} (v0 : V) tid (main : Co (O := O) (X := X)) es W :
  exec (cstep v0 tid) es (World_run v0 main) = Some W -> heads W = [] -> run_result W = None.
Proof.
  intros Hrun Hh. assert (world_ok v0 (World_run v0 main) [mkThread 0 [0] (flat v0 main FRet)]) as Hok by (apply (start_ok v0 tid (World_run v0 main) main); [by left|done..]).
  destruct (run_sim _ _ _ _ _ _ Hok Hrun) as (ths & Hok' & _). unfold run_result, await_resume. by rewrite (no_heads _ _ _ Hok' Hh).
Qed.

Module Examples.

(** A parent that awaits a child twice, the child an outside event; a detached task. *)
Definition ask (q : nat) : Co (V := nat) (O := nat) (X := nat) := Emit q (Suspend (fun x => Return (x + q))).
Definition parent : Co (V := nat) (O := nat) (X := nat) :=
  Spawn (Emit 9 (Return 0)) (Await (ask 1) (fun a => Await (ask 2) (fun b => Emit (a * b) Throws))).

(** Two workers; worker 0 runs the parent up to the child's suspension, worker 1 the
    detached task, and then worker 1 the rest. *)
Definition two_workers : list (cevent (X := nat)) :=
  [Take 0 0; Turn 0 0; Turn 0 0; Take 1 0; Turn 1 0; Turn 0 0; Turn 0 0; Turn 1 0; Wake 0; Take 1 0; Turn 1 10;
   Turn 1 0; Turn 1 0; Turn 1 0; Turn 1 0; Turn 1 0; Wake 0; Take 0 0; Turn 0 20; Turn 0 0; Turn 0 0; Turn 0 0; Turn 0 0].
Definition two_workers_end : World (V := nat) (O := nat) (X := nat) :=
  mkWorld ∅ 4 [None; None] [] [] [9; 1; 2; 242].

Lemma two_workers_run : exec (cstep 0 Z.of_nat) two_workers (World_new 0 2 parent) = Some two_workers_end.
Proof. vm_compute. reflexivity. Qed.

Lemma coroutines_refine_threads_witness :
  exists ts, rtc spec_step ([flat 0 parent FRet], []) (ts, [9; 1; 2; 242]) /\ length ts = 0.
Proof. exact (proj1 (coroutines_refine_threads 0 Z.of_nat parent 2 two_workers two_workers_end two_workers_run)). Defined.

Lemma run_reads_freed_frame_witness :
  run_result (mkWorld (V := nat) (O := nat) (X := nat) ∅ 2 [None] [] [] [5]) = None.
Proof.
  apply (run_reads_freed_frame 0 Z.of_nat (Await (Emit 5 (Return 3)) Return) [Turn 0 0; Turn 0 0; Turn 0 0; Turn 0 0; Turn 0 0]);
    vm_compute; reflexivity.
Defined.
End Examples.
