(* ===== verification/EventLoop.v ===== *)
(** * The event loop (src/bitdb/net/event_manager.{h,cpp}, socket.h, io_awaiter.h,
      tcp/tcp_connection.{h,cpp})

    One connection of an EventManager: the interest the manager keeps in its socket and has
    given to epoll, the coroutines that wait to receive and to send, the event that the
    loop has got from [epoll_wait] and not handled yet, and what it has put on a pool.
    The loop, the pool's workers, the peer, whoever closes the connection and whoever shuts
    the manager down interleave between the accesses of await_suspend and await_resume.
    With [pooled] the manager has a [work_thread_pool_]; without, it spawns handles on the
    coroutine pool, which is not being destroyed.

    Of epoll the model takes what the code relies on: with EPOLLET a descriptor is
    reported once after it becomes ready, [rearms] says whether EPOLL_CTL_ADD and
    EPOLL_CTL_MOD report it again when it is ready already, and a descriptor that is
    closed leaves epoll, so that epoll_ctl fails on it; the number is not used again. *)

From S2P Require Import Prelude Threads.

Definition EPOLLIN : Z := 1.
Definition EPOLLOUT : Z := 4.
Definition EPOLLET : Z := 2 ^ 31.

Definition has (m flag : Z) : bool := negb (Z.land m flag =? 0)%Z.

Inductive direction := Recv | Send.

#[export] Instance direction_eq_dec : EqDecision direction.
Proof. solve_decision. Defined.

Record Socket := mkSocket {
  io_state_ : Z;
  detached_ : bool;
  recv_coro : option nat;
  send_coro : option nat
}.
Definition Socket_new : Socket := mkSocket 0 true None None.

Definition SetIOState (st : Z) (s : Socket) : Socket := mkSocket st (detached_ s) (recv_coro s) (send_coro s).
Definition EventAttach (s : Socket) : Socket := mkSocket (io_state_ s) false (recv_coro s) (send_coro s).
Definition EventDetach (s : Socket) : Socket := mkSocket (io_state_ s) true (recv_coro s) (send_coro s).
Definition SetRecvCoro (h : option nat) (s : Socket) : Socket := mkSocket (io_state_ s) (detached_ s) h (send_coro s).
Definition SetSendCoro (h : option nat) (s : Socket) : Socket := mkSocket (io_state_ s) (detached_ s) (recv_coro s) h.

(** What epoll knows: the registered mask, whether [epoll_wait] will report the
    descriptor, and what it is ready for. *)
Record Epoll := mkEpoll { registered : option Z; listed : bool; readable : bool; writable : bool }.

Definition levels (e : Epoll) : Z :=
  Z.lor (if readable e then EPOLLIN else 0) (if writable e then EPOLLOUT else 0).
(** The part of the mask that is ready. *)
Definition ready_mask (e : Epoll) (m : Z) : Z := Z.land m (levels e).

(** A direction: nobody; a coroutine in await_suspend, having found the connection open
    and the manager running ([Checked]), behind Attach, with its handle and the new state
    stored but not yet with epoll; suspended; suspended with its handle nowhere; in
    await_resume, before and after it has looked whether the connection is open; and the
    end of the connection. *)
Inductive side :=
| Idle | Checked (h : nat) | Adding (h : nat) | Arming (h : nat) (new_state : Z) | Waiting (h : nat) | Lost (h : nat)
| Resuming (h : nat) | Deleting (h : nat) | Destroyed.

(** What the loop puts on a pool: a handle, or a function that will read the socket's. *)
Inductive task := Handle (h : nat) | Reference (d : direction).

(** [closed]: TcpConnection's is_closed_.  [fatal]: an epoll_ctl call failed and the
    process has exited.  [broken]: undefined behaviour: a coroutine was resumed that was not
    suspended or whose AddRecv or AddSend had not returned, a null handle was resumed, a
    destroyed socket used, or calls that change the socket's state overlapped. *)
Record Loop := mkLoop {
  is_shutdown_ : bool;
  closed : bool;
  sock : Socket;
  epoll : Epoll;
  recv_side : side;
  send_side : side;
  pending : option Z;
  spawned : list task;
  fatal : bool;
  broken : bool
}.

Definition Loop_new : Loop := mkLoop false false Socket_new (mkEpoll None false false true) Idle Idle None [] false false.

Definition set_sock (s : Socket) (l : Loop) : Loop :=
  mkLoop (is_shutdown_ l) (closed l) s (epoll l) (recv_side l) (send_side l) (pending l) (spawned l) (fatal l) (broken l).
Definition set_epoll (e : Epoll) (l : Loop) : Loop :=
  mkLoop (is_shutdown_ l) (closed l) (sock l) e (recv_side l) (send_side l) (pending l) (spawned l) (fatal l) (broken l).
Definition set_side (d : direction) (st : side) (l : Loop) : Loop :=
  mkLoop (is_shutdown_ l) (closed l) (sock l) (epoll l) (if d is Recv then st else recv_side l)
    (if d is Send then st else send_side l) (pending l) (spawned l) (fatal l) (broken l).
Definition set_pending (p : option Z) (l : Loop) : Loop :=
  mkLoop (is_shutdown_ l) (closed l) (sock l) (epoll l) (recv_side l) (send_side l) p (spawned l) (fatal l) (broken l).
Definition set_spawned (sp : list task) (l : Loop) : Loop :=
  mkLoop (is_shutdown_ l) (closed l) (sock l) (epoll l) (recv_side l) (send_side l) (pending l) sp (fatal l) (broken l).
Definition dies (l : Loop) : Loop :=
  mkLoop (is_shutdown_ l) (closed l) (sock l) (epoll l) (recv_side l) (send_side l) (pending l) (spawned l) true (broken l).
Definition breaks (l : Loop) : Loop :=
  mkLoop (is_shutdown_ l) (closed l) (sock l) (epoll l) (recv_side l) (send_side l) (pending l) (spawned l) (fatal l) true.

Definition side_of (d : direction) (l : Loop) : side := match d with Recv => recv_side l | Send => send_side l end.
Definition other (d : direction) : direction := match d with Recv => Send | Send => Recv end.
(** Inside AddRecv or AddSend, from Attach to the end. *)
Definition in_add (st : side) : bool := match st with Adding _ | Arming _ _ => true | _ => false end.
Definition handle_of (st : side) : option nat :=
  match st with
  | Checked h | Adding h | Arming h _ | Waiting h | Lost h | Resuming h | Deleting h => Some h
  | Idle | Destroyed => None
  end.

Section loop.
Context (rearms pooled : bool).

Definition set_mask (m : Z) (e : Epoll) : Epoll :=
  mkEpoll (Some m) (listed e || (rearms && negb (ready_mask e m =? 0)%Z)) (readable e) (writable e).
(** What is left of a descriptor that is no longer with epoll. *)
Definition unregister (e : Epoll) : Epoll := mkEpoll None false (readable e) (writable e).

(** Attach, Detach and UpdateEvent: EPOLL_CTL_ADD, EPOLL_CTL_DEL and EPOLL_CTL_MOD. *)
Definition Attach (events : Z) (l : Loop) : Loop :=
  let l := set_sock (EventAttach (SetIOState events (sock l))) l in
  if closed l || bool_decide (registered (epoll l) <> None) then dies l else set_epoll (set_mask events (epoll l)) l.
Definition Detach (l : Loop) : Loop :=
  let l := set_sock (EventDetach (sock l)) l in
  if registered (epoll l) is Some _ then set_epoll (unregister (epoll l)) l else dies l.
Definition UpdateEvent (new_state : Z) (l : Loop) : Loop :=
  if registered (epoll l) is Some _ then set_epoll (set_mask new_state (epoll l)) l else dies l.

(** AddRecv and AddSend in three parts: the attachment, the handle and the state that are
    stored, and UpdateEvent. *)
Definition set_coro (d : direction) (h : option nat) (s : Socket) : Socket :=
  match d with Recv => SetRecvCoro h s | Send => SetSendCoro h s end.
Definition flag_of (d : direction) : Z := match d with Recv => EPOLLIN | Send => EPOLLOUT end.
Definition attach_for (flag : Z) (l : Loop) : Loop :=
  if detached_ (sock l) then Attach (Z.lor flag EPOLLET) l else l.
Definition add_coro (d : direction) (h : nat) (s : Socket) : Z * Socket :=
  let s := set_coro d (Some h) s in
  let new_state := Z.lor (io_state_ s) (flag_of d) in
  (new_state, SetIOState new_state s).
Definition AddRecv (h : nat) (l : Loop) : Loop :=
  if is_shutdown_ l then l else
  let l := attach_for EPOLLIN l in
  let '(new_state, s) := add_coro Recv h (sock l) in UpdateEvent new_state (set_sock s l).
Definition AddSend (h : nat) (l : Loop) : Loop :=
  if is_shutdown_ l then l else
  let l := attach_for EPOLLOUT l in
  let '(new_state, s) := add_coro Send h (sock l) in UpdateEvent new_state (set_sock s l).

Definition del_coro (d : direction) (l : Loop) : Loop :=
  let s := set_coro d None (sock l) in
  let new_state := Z.land (io_state_ s) (Z.lnot (flag_of d)) in
  UpdateEvent new_state (set_sock (SetIOState new_state s) l).
Definition DelRecv (l : Loop) : Loop := if is_shutdown_ l then l else del_coro Recv l.
Definition DelSend (l : Loop) : Loop := if is_shutdown_ l then l else del_coro Send l.

(** ** The loop *)

(** [epoll_wait], as far as this socket goes.  The loop may have been in it when the
    manager was shut down. *)
Definition epoll_wait (l : Loop) : option Loop :=
  match pending l, listed (epoll l), registered (epoll l) with
  | None, true, Some m =>
      let r := ready_mask (epoll l) m in
      Some (set_pending (if (r =? 0)%Z then None else Some r)
              (set_epoll (mkEpoll (Some m) false (readable (epoll l)) (writable (epoll l))) l))
  | _, _, _ => None
  end.

Definition coro_of (d : direction) (s : Socket) : option nat := match d with Recv => recv_coro s | Send => send_coro s end.

(** A task for the work pool, or [co_spawn(handle)], which ignores a null handle. *)
Definition spawn (d : direction) (l : Loop) : list task :=
  if pooled then spawned l ++ [Reference d]
  else if coro_of d (sock l) is Some h then spawned l ++ [Handle h] else spawned l.

(** The body of Start's loop over the events; a destroyed socket's memory is gone. *)
Definition handle_event (l : Loop) : option Loop :=
  events ← pending l;
  let l := set_pending None l in
  if recv_side l is Destroyed then Some (breaks l) else
  if has events EPOLLIN then Some (set_spawned (spawn Recv l) l)
  else if has events EPOLLOUT then Some (set_spawned (spawn Send l) l)
  else Some l.

(** ** The coroutines of the connection *)

(** await_suspend, whose [::read] or [::write] had nothing to do: IsClosed and
    [is_shutdown_], and the parts of AddRecv or AddSend.  A coroutine is at one place
    only. *)
Definition suspend_begins (d : direction) (h : nat) (l : Loop) : option Loop :=
  if side_of d l is Idle
  then if decide (handle_of (side_of (other d) l) = Some h) then None
       else Some (set_side d (if closed l || is_shutdown_ l then Lost h else Checked h) l)
  else None.
Definition suspend_attaches (d : direction) (l : Loop) : option Loop :=
  if side_of d l is Checked h
  then Some (if in_add (side_of (other d) l) then breaks l else set_side d (Adding h) (attach_for (flag_of d) l))
  else None.
Definition suspend_arms (d : direction) (l : Loop) : option Loop :=
  if side_of d l is Adding h
  then let '(new_state, s) := add_coro d h (sock l) in Some (set_side d (Arming h new_state) (set_sock s l))
  else None.
Definition suspend_ends (d : direction) (l : Loop) : option Loop :=
  if side_of d l is Arming h new_state then Some (set_side d (Waiting h) (UpdateEvent new_state l)) else None.

Definition suspended_as (h : nat) (st : side) : bool :=
  match st with Waiting h' | Lost h' => bool_decide (h' = h) | _ => false end.

(** A worker takes the [i]th task and resumes the coroutine. *)
Definition resume (i : nat) (l : Loop) : option Loop :=
  t ← spawned l !! i;
  let l := set_spawned (delete i (spawned l)) l in
  Some match (match t with Handle h => Some h | Reference d => coro_of d (sock l) end) with
       | Some h =>
           if suspended_as h (recv_side l) then set_side Recv (Resuming h) l
           else if suspended_as h (send_side l) then set_side Send (Resuming h) l
           else breaks l
       | None => breaks l
       end.

(** await_resume after a suspension: IsClosed; DelRecv or DelSend. *)
Definition resume_checks (d : direction) (l : Loop) : option Loop :=
  if side_of d l is Resuming h then Some (set_side d (if closed l then Idle else Deleting h) l) else None.
Definition resume_deletes (d : direction) (l : Loop) : option Loop :=
  if side_of d l is Deleting _
  then Some (if in_add (side_of (other d) l) then breaks l
             else set_side d Idle (match d with Recv => DelRecv l | Send => DelSend l end))
  else None.

(** The descriptor becomes ready, or is no longer. *)
Definition level (d : direction) (up : bool) (l : Loop) : Loop :=
  let e := epoll l in
  let on := up && (if registered e is Some m then has m (flag_of d) else false) in
  set_epoll (mkEpoll (registered e) (listed e || on) (if d is Recv then up else readable e)
               (if d is Send then up else writable e)) l.

(** TcpConnection::Close, by any thread. *)
Definition Close (l : Loop) : option Loop :=
  if recv_side l is Destroyed then None else
  Some (if closed l then l
        else mkLoop (is_shutdown_ l) true (sock l) (unregister (epoll l)) (recv_side l) (send_side l) (pending l)
               (spawned l) (fatal l) (broken l)).

(** ~TcpConnection, when no coroutine uses the connection, and ~Socket, which closes a
    descriptor that is not closed yet. *)
Definition destroy (l : Loop) : option Loop :=
  match recv_side l, send_side l with
  | Idle, Idle =>
      let l := if detached_ (sock l) then l else Detach l in
      let l := if closed l then l else set_epoll (unregister (epoll l)) l in
      Some (set_side Recv Destroyed (set_side Send Destroyed l))
  | _, _ => None
  end.

Inductive loop_event :=
| Waits | Handles
| Suspends (d : direction) (h : nat) | Attaches (d : direction) | Arms (d : direction) | Suspended (d : direction)
| Resumes (i : nat) | Checks (d : direction) | Deletes (d : direction)
| Level (d : direction) (up : bool) | Closes | Destroys | ShutsDown.

Definition loop_step (ev : loop_event) (l : Loop) : option Loop :=
  if fatal l || broken l then None else
  match ev with
  | Waits => epoll_wait l
  | Handles => handle_event l
  | Suspends d h => suspend_begins d h l
  | Attaches d => suspend_attaches d l
  | Arms d => suspend_arms d l
  | Suspended d => suspend_ends d l
  | Resumes i => resume i l
  | Checks d => resume_checks d l
  | Deletes d => resume_deletes d l
  | Level d up => Some (level d up l)
  | Closes => Close l
  | Destroys => destroy l
  | ShutsDown =>
      Some (mkLoop true (closed l) (sock l) (epoll l) (recv_side l) (send_side l) (pending l) (spawned l) (fatal l) (broken l))
  end.

(** The parts of await_suspend, one after the other, are IsClosed and AddRecv or AddSend. *)
Lemma suspend_is_add d h l : side_of d l = Idle -> in_add (side_of (other d) l) = false -> handle_of (side_of (other d) l) <> Some h ->
  closed l = false -> is_shutdown_ l = false ->
  (((suspend_begins d h l ≫= suspend_attaches d) ≫= suspend_arms d) ≫= suspend_ends d)
  = Some (set_side d (Waiting h) (match d with Recv => AddRecv h l | Send => AddSend h l end)).
Proof.
  intros E1 E2 E3 E4 E5. unfold suspend_begins. rewrite E1, decide_False, E4, E5 by done. simpl.
  unfold suspend_attaches, AddRecv, AddSend. rewrite E5. destruct d; simpl in *; rewrite E2; simpl;
    unfold suspend_arms, suspend_ends, attach_for, Attach, UpdateEvent; simpl; rewrite E4; simpl;
    repeat case_match; simplify_eq/=; try done; f_equal; rewrite ?E2; done.
Qed.
End loop.

(** ** The server's reactors *)

(** TcpServer makes [thread_num / 2 - 1] of them, in unsigned arithmetic, and hands them
    out in turn. *)
Definition sub_reactor_count (thread_num : Z) : Z := u64 (thread_num / 2 - 1).
Definition GetSubReactor (count cnt : Z) : option (Z * Z) :=
  if decide (count = 0)%Z then None else Some (cnt mod count, u64 (cnt + 1))%Z.

(** ** Masks *)

Lemma has_bit m k : (0 <= k)%Z -> has m (2 ^ k) = Z.testbit m k.
Proof.
  intros Hk. unfold has. apply Bool.eq_iff_eq_true. rewrite negb_true_iff, Z.eqb_neq. split.
  - intros Hne. destruct (Z.testbit m k) eqn:E; [done|]. destruct Hne. apply Z.bits_inj'. intros i Hi.
    rewrite Z.land_spec, Z.pow2_bits_eqb, Z.bits_0 by done. destruct (Z.eqb_spec k i) as [<-|]; [by rewrite E|apply andb_false_r].
  - intros E Hz. apply (f_equal (fun z => Z.testbit z k)) in Hz. rewrite Z.land_spec, Z.pow2_bits_true, E, Z.bits_0 in Hz by done. done.
Qed.

Definition bit_of (d : direction) : Z := match d with Recv => 0 | Send => 2 end.
Lemma has_flag m d : has m (flag_of d) = Z.testbit m (bit_of d).
Proof. destruct d; [apply (has_bit m 0)|apply (has_bit m 2)]; done. Qed.

Lemma has_add m d d' : has (Z.lor m (flag_of d)) (flag_of d') = bool_decide (d = d') || has m (flag_of d').
Proof. rewrite !has_flag, Z.lor_spec, orb_comm. by destruct d, d'. Qed.
Lemma has_del m d d' : has (Z.land m (Z.lnot (flag_of d))) (flag_of d') = negb (bool_decide (d = d')) && has m (flag_of d').
Proof. rewrite !has_flag, Z.land_spec, andb_comm. by destruct d, d'. Qed.

Definition level_of (d : direction) (e : Epoll) : bool := match d with Recv => readable e | Send => writable e end.
Lemma has_ready e m d : has (ready_mask e m) (flag_of d) = has m (flag_of d) && level_of d e.
Proof.
  unfold ready_mask, levels, level_of. rewrite !has_flag, Z.land_spec, Z.lor_spec. by destruct d, (readable e), (writable e).
Qed.
Lemma has_zero m d : has m (flag_of d) = true -> (m =? 0)%Z = false.
Proof. intros H. apply Z.eqb_neq. intros ->. by destruct d. Qed.

(** ** The invariant *)

Definition coro_for (st : side) : option nat :=
  match st with Arming h _ | Waiting h | Resuming h | Deleting h => Some h | _ => None end.
(** Suspended, or resumed and with its interest still there. *)
Definition in_wait (st : side) : bool := match st with Waiting _ | Resuming _ | Deleting _ => true | _ => false end.
(** On the way to a call of UpdateEvent. *)
Definition due (st : side) : bool :=
  match st with Adding _ | Arming _ _ | Resuming _ | Deleting _ => true | _ => false end.
Definition is_arming (st : side) : bool := if st is Arming _ _ then true else false.
Definition is_waiting (st : side) : bool := if st is Waiting _ then true else false.

Definition bits_ok (d : direction) (st : side) (m : Z) : Prop :=
  match st with
  | Waiting _ | Resuming _ | Deleting _ => has m (flag_of d) = true
  | Adding _ | Arming _ _ => True
  | Lost _ => False
  | Idle | Checked _ | Destroyed => has m (flag_of d) = false
  end.

(** A task on a pool resumes the coroutine [h] that waits in direction [d]. *)
Definition wakes (h : nat) (d : direction) (sp : list task) : Prop := Handle h ∈ sp \/ Reference d ∈ sp.

(** While the manager runs and the connection is open: the mask is the socket's, or will
    be, its bits and the handles are those of the coroutines that wait, and a coroutine that
    waits for a ready socket has its wake-up under way. *)
Record live (l : Loop) : Prop := {
  lv_mask : forall m, registered (epoll l) = Some m -> (forall d, is_arming (side_of d l) = false) -> io_state_ (sock l) = m;
  lv_arming : forall m d h ns, registered (epoll l) = Some m -> side_of d l = Arming h ns ->
    io_state_ (sock l) = ns /\ ns = Z.lor m (flag_of d);
  lv_bits : forall d m, registered (epoll l) = Some m -> bits_ok d (side_of d l) m;
  lv_coro : forall d, coro_of d (sock l) = coro_for (side_of d l);
  lv_recv : forall h, recv_side l = Waiting h -> readable (epoll l) = true ->
    listed (epoll l) = true \/ (exists r, pending l = Some r /\ has r EPOLLIN = true) \/ wakes h Recv (spawned l);
  lv_send : forall h, send_side l = Waiting h -> writable (epoll l) = true ->
    listed (epoll l) = true
    \/ (exists r, pending l = Some r /\ has r EPOLLOUT = true /\ (has r EPOLLIN = false \/ exists h', recv_side l = Waiting h'))
    \/ wakes h Send (spawned l) \/ (exists h', recv_side l = Waiting h' /\ wakes h' Recv (spawned l))
    \/ due (recv_side l) = true
}.

Record loop_ok (l : Loop) : Prop := {
  lk_fatal : fatal l = true -> closed l = true;
  lk_attached : closed l = false -> registered (epoll l) = None <-> detached_ (sock l) = true;
  lk_adding : closed l = false -> forall d, in_add (side_of d l) = true -> detached_ (sock l) = false;
  lk_waiting : closed l = false -> is_shutdown_ l = false -> forall d, in_wait (side_of d l) = true -> detached_ (sock l) = false;
  lk_lost : forall d h, side_of d l = Lost h -> closed l || is_shutdown_ l = true;
  lk_one : forall d, in_add (side_of d l) = true -> in_add (side_of (other d) l) = false;
  lk_distinct : forall d h, handle_of (side_of d l) = Some h -> handle_of (side_of (other d) l) <> Some h;
  lk_live : is_shutdown_ l = false -> closed l = false -> broken l = false -> live l
}.

Lemma Loop_new_ok : loop_ok Loop_new.
Proof.
  split; simpl; try done; try (by intros []); try (by intros _ []); try (by intros _ _ []).
  intros _ _ _. split; simpl; try done; by intros [].
Qed.

Lemma bits_add d d' st m : (d = d' -> is_waiting st = true) -> (d ≠ d' -> bits_ok d' st m) ->
  bits_ok d' st (Z.lor m (flag_of d)).
Proof.
  intros H1 H2. unfold bits_ok in *. rewrite has_add. destruct (decide (d = d')) as [->|Hn].
  - specialize (H1 eq_refl). destruct st; try done; by rewrite bool_decide_true.
  - specialize (H2 Hn). rewrite bool_decide_false by done. by destruct st.
Qed.
Lemma bits_del d d' st m : (d = d' -> st = Idle) -> (d ≠ d' -> bits_ok d' st m) ->
  bits_ok d' st (Z.land m (Z.lnot (flag_of d))).
Proof.
  intros H1 H2. unfold bits_ok in *. rewrite has_del. destruct (decide (d = d')) as [->|Hn].
  - rewrite (H1 eq_refl). by rewrite bool_decide_true.
  - specialize (H2 Hn). rewrite bool_decide_false by done. by destruct st.
Qed.

Lemma side_set d d' st l : side_of d' (set_side d st l) = if decide (d = d') then st else side_of d' l.
Proof. by destruct d, d'. Qed.
Lemma coro_set d d' h st s : coro_of d' (SetIOState st (set_coro d h s)) = if decide (d = d') then h else coro_of d' s.
Proof. by destruct d, d'. Qed.
Lemma other_ne d d' : d ≠ d' -> d' = other d.
Proof. by destruct d, d'. Qed.
Lemma other_other d : other (other d) = d.
Proof. by destruct d. Qed.

(** The mask is set and the descriptor looked at: whoever waits for it is reported. *)
Lemma mask_live l e m : epoll l = set_mask true m e -> io_state_ (sock l) = m ->
  (forall d, is_arming (side_of d l) = false) ->
  (forall d, bits_ok d (side_of d l) m) -> (forall d, coro_of d (sock l) = coro_for (side_of d l)) -> live l.
Proof.
  intros Ee Ei Hna Hb Hc.
  assert (forall d h, side_of d l = Waiting h -> level_of d (epoll l) = true -> listed (epoll l) = true) as Hlist.
  { intros d h Hw Hl. rewrite Ee in *. simpl. rewrite (has_zero (ready_mask e m) d), orb_true_r; [done|].
    rewrite has_ready. specialize (Hb d). rewrite Hw in Hb. simpl in Hb. rewrite Hb. by destruct d. }
  split; try done.
  - rewrite Ee. intros m' [= <-]. done.
  - intros m' d h ns _ Ea. specialize (Hna d). by rewrite Ea in Hna.
  - rewrite Ee. intros d m' [= <-]. apply Hb.
  - intros h Hw Hr. left. by eapply (Hlist Recv).
  - intros h Hw Hr. left. by eapply (Hlist Send).
Qed.

(** A coroutine moves on without a call to epoll, and the tasks change to [sp]. *)
Lemma set_side_live d st sp l : live l -> coro_for st = coro_for (side_of d l) ->
  (forall m, bits_ok d (side_of d l) m -> bits_ok d st m) ->
  is_arming (side_of d l) = false -> is_arming st = false -> is_waiting st = false ->
  (is_waiting (side_of d l) || due (side_of d l) = true -> due st = true) ->
  (forall h, side_of (other d) l = Waiting h -> wakes h (other d) (spawned l) -> wakes h (other d) sp) ->
  live (set_spawned sp (set_side d st l)).
Proof.
  intros [Hm Ha Hb Hc Hr Hs] Ec Eb N1 N2 N3 Hd Hsp.
  assert (forall d', is_arming (side_of d' (set_side d st l)) = is_arming (side_of d' l)) as Harm.
  { intros d'. rewrite side_set. case_decide; subst; by rewrite ?N1, ?N2. }
  split; simpl.
  - intros m Em Hn. apply Hm; [done|]. intros d'. rewrite <-Harm. apply Hn.
  - intros m d' h ns Em E. change (side_of d' _) with (side_of d' (set_side d st l)) in E. rewrite side_set in E.
    case_decide; [by subst st|]. by apply (Ha m d' h).
  - intros d' m Em. change (side_of d' _) with (side_of d' (set_side d st l)). rewrite side_set. case_decide; subst; auto.
  - intros d'. change (side_of d' _) with (side_of d' (set_side d st l)). rewrite side_set. case_decide; subst; by rewrite Hc.
  - destruct d; simpl in *; [by intros h ->|]. intros h Hw Hrd. destruct (Hr h Hw Hrd) as [|[|]]; auto.
  - destruct d; simpl in *; [|by intros h ->]. intros h Hw Hwr.
    destruct (Hs h Hw Hwr) as [|[(r & Hp & Ho & Hi)|[|[(h' & Hw' & _)|E]]]]; [by left| |by do 2 right; left; apply Hsp| |].
    + destruct Hi as [|[h' Hw']]; [right; left; exists r; by auto|]. do 4 right. apply Hd. by rewrite Hw'.
    + do 4 right. apply Hd. by rewrite Hw'.
    + do 4 right. apply Hd. by rewrite E, orb_true_r.
Qed.

Lemma set_spawned_same d st l : set_spawned (spawned l) (set_side d st l) = set_side d st l.
Proof. done. Qed.

(** What does not depend on the kind of a coroutine's step. *)
Lemma set_side_ok d st l : loop_ok l ->
  (in_add st = true -> in_add (side_of d l) = true) ->
  (in_wait st = true -> in_wait (side_of d l) = true \/ exists h, side_of d l = Lost h) ->
  (forall h, st = Lost h -> closed l || is_shutdown_ l = true) ->
  (forall h, handle_of st = Some h -> handle_of (side_of (other d) l) <> Some h) ->
  (is_shutdown_ l = false -> closed l = false -> broken l = false -> live (set_side d st l)) ->
  loop_ok (set_side d st l).
Proof.
  intros [Hf Ha Had Hw Hlo Ho Hdi Hl] H1 H2 H3 H4 H5. split; try done.
  - intros Hcl d'. rewrite side_set. case_decide; subst; [intros E; apply (Had Hcl d'); auto|by apply Had].
  - simpl. intros Hcl Hsh d'. rewrite side_set. case_decide; subst; [|by apply Hw].
    intros E. destruct (H2 E) as [E'|[h E']]; [by apply (Hw Hcl Hsh d')|]. apply Hlo in E'. by rewrite Hcl, Hsh in E'.
  - simpl. intros d' h. rewrite side_set. case_decide; [apply H3|apply Hlo].
  - intros d'. rewrite !side_set. destruct (decide (d = d')) as [<-|Hn].
    + rewrite decide_False by by destruct d. intros E. by apply Ho, H1.
    + apply other_ne in Hn as ->. rewrite other_other, decide_True by done.
      intros E. destruct (in_add st) eqn:Es; [|done]. specialize (Ho d (H1 eq_refl)). congruence.
  - intros d' h. rewrite !side_set. destruct (decide (d = d')) as [<-|Hn].
    + rewrite decide_False by by destruct d. apply H4.
    + apply other_ne in Hn as ->. rewrite other_other, decide_True by done. intros E E'. by apply (H4 h).
Qed.

Lemma suspend_begins_ok d h l l' : loop_ok l -> suspend_begins d h l = Some l' -> loop_ok l'.
Proof.
  intros Hok. unfold suspend_begins. destruct (side_of d l) eqn:Es; try done. case_decide as Hne; [done|]. intros [= <-].
  apply set_side_ok; try done.
  - by destruct (closed l || is_shutdown_ l).
  - by destruct (closed l || is_shutdown_ l).
  - by destruct (closed l || is_shutdown_ l).
  - intros h' E. by destruct (closed l || is_shutdown_ l); simplify_eq/=.
  - intros E1 E2 E3. rewrite E1, E2. simpl. rewrite <-set_spawned_same.
    apply set_side_live; rewrite ?Es; try done. by apply Hok.
Qed.
Lemma breaks_ok l : loop_ok l -> loop_ok (breaks l).
Proof. intros [Hf Ha Had Hw Hlo Ho Hdi Hl]. split; try done. Qed.

Definition sides_ok (l : Loop) : Prop :=
  (forall d, in_add (side_of d l) = true -> in_add (side_of (other d) l) = false)
  /\ (forall d h, handle_of (side_of d l) = Some h -> handle_of (side_of (other d) l) <> Some h).

Lemma sides_kept d st l l' : loop_ok l -> (forall d', side_of d' l' = if decide (d = d') then st else side_of d' l) ->
  (in_add st = true -> in_add (side_of (other d) l) = false) ->
  (forall h, handle_of st = Some h -> handle_of (side_of d l) = Some h) -> sides_ok l'.
Proof.
  intros Hok Es Ha Hh. split.
  - intros d'. rewrite !Es. destruct (decide (d = d')) as [<-|Hn]; [by rewrite decide_False by by destruct d|].
    apply other_ne in Hn as ->. rewrite other_other, decide_True by done. intros E. destruct (in_add st); [|done].
    specialize (Ha eq_refl). congruence.
  - intros d' h. rewrite !Es. destruct (decide (d = d')) as [<-|Hn].
    + rewrite decide_False by by destruct d. intros E. by apply (lk_distinct _ Hok d), Hh.
    + apply other_ne in Hn as ->. rewrite other_other, decide_True by done. intros E E'.
      by apply (lk_distinct _ Hok d h (Hh _ E')).
Qed.

Lemma closed_ok l : closed l = true -> sides_ok l -> loop_ok l.
Proof. intros E [H1 H2]. split; rewrite ?E; done. Qed.

Lemma not_detached l : loop_ok l -> closed l = false -> detached_ (sock l) = false -> exists m, registered (epoll l) = Some m.
Proof.
  intros Hok Hcl Hd. destruct (registered (epoll l)) as [m|] eqn:E; [by exists m|]. apply (lk_attached _ Hok Hcl) in E. congruence.
Qed.

Lemma attach_for_side b flag l d : side_of d (attach_for b flag l) = side_of d l.
Proof. unfold attach_for, Attach. by repeat case_match. Qed.
Lemma attach_for_closed b flag l : closed (attach_for b flag l) = closed l.
Proof. unfold attach_for, Attach. by repeat case_match. Qed.

Lemma detached_idle d l : loop_ok l -> live l -> closed l = false -> is_shutdown_ l = false -> detached_ (sock l) = true ->
  is_waiting (side_of d l) = false /\ is_arming (side_of d l) = false /\ coro_of d (sock l) = None
  /\ (in_wait (side_of d l) || in_add (side_of d l) = false) /\ (forall h, side_of d l <> Lost h).
Proof.
  intros Hok Hlv Ec Es Ed. rewrite (lv_coro _ Hlv d).
  assert (forall h, side_of d l <> Lost h) by (intros h E; apply (lk_lost _ Hok) in E; by rewrite Ec, Es in E).
  assert (in_wait (side_of d l) = false) by (destruct (in_wait _) eqn:E; [by rewrite (lk_waiting _ Hok Ec Es d E) in Ed|done]).
  assert (in_add (side_of d l) = false) by (destruct (in_add _) eqn:E; [by rewrite (lk_adding _ Hok Ec d E) in Ed|done]).
  by destruct (side_of d l).
Qed.

(** AddRecv and AddSend: the attachment. *)
Lemma suspend_attaches_ok d l l' : loop_ok l -> suspend_attaches true d l = Some l' -> loop_ok l'.
Proof.
  intros Hok. unfold suspend_attaches. destruct (side_of d l) as [|h| | | | | | |] eqn:Es; try done.
  destruct (in_add (side_of (other d) l)) eqn:Eo; intros [= <-]; [by apply breaks_ok|].
  set (l' := set_side d (Adding h) (attach_for true (flag_of d) l)).
  assert (forall d', side_of d' l' = if decide (d = d') then Adding h else side_of d' l) as Hsides
    by (intros d'; unfold l'; by rewrite side_set, attach_for_side).
  assert (sides_ok l') as Hso by (eapply (sides_kept d (Adding h) l); rewrite ?Es; done).
  destruct (closed l) eqn:Ecl; [apply closed_ok; [unfold l'; simpl; by rewrite attach_for_closed|done]|].
  unfold l', attach_for. destruct (detached_ (sock l)) eqn:Ed.
  - unfold Attach. simpl. rewrite Ecl, (proj2 (lk_attached _ Hok Ecl) Ed). simpl. destruct Hso as [H1 H2].
    unfold l', attach_for, Attach in Hsides, H1, H2. rewrite Ed in Hsides, H1, H2. simpl in Hsides, H1, H2.
    rewrite Ecl, (proj2 (lk_attached _ Hok Ecl) Ed) in Hsides, H1, H2. simpl in Hsides, H1, H2.
    split; try done; simpl.
    + intros Hf. by rewrite (lk_fatal _ Hok Hf) in Ecl.
    + intros d' h'. rewrite Hsides. case_decide; [done|]. intros E. apply (lk_lost _ Hok) in E. done.
    + intros Esh _ Hbr. pose proof (lk_live _ Hok Esh Ecl Hbr) as Hlv.
      eapply mask_live; [done|done|..]; intros d'; rewrite ?Hsides; case_decide as E; try done.
      * by apply (detached_idle d' l).
      * destruct (detached_idle d' l Hok Hlv Ecl Esh Ed) as (_ & _ & _ & Hi & Hlo). apply orb_false_iff in Hi as [Hi1 Hi2].
        destruct (side_of d' l); try done; try (by destruct d, d'). by edestruct Hlo.
      * destruct (detached_idle d' l Hok Hlv Ecl Esh Ed) as (_ & _ & Hn & _). by destruct d'.
      * destruct (detached_idle d' l Hok Hlv Ecl Esh Ed) as (_ & _ & Hn & _). pose proof (lv_coro _ Hlv d') as Hc.
        rewrite <-Hc. by destruct d'.
  - destruct Hso as [H1 H2]. unfold l', attach_for in Hsides, H1, H2. rewrite Ed in Hsides, H1, H2.
    destruct Hok as [Hf Ha Had Hw Hlo Ho Hdi Hl]. split; try done; simpl.
    + intros d' h'. rewrite Hsides. case_decide; [done|apply Hlo].
    + intros Esh _ Hbr. rewrite <-set_spawned_same. apply set_side_live; rewrite ?Es; auto. done.
Qed.

(** The handle and the new state. *)
Lemma suspend_arms_ok d l l' : loop_ok l -> suspend_arms d l = Some l' -> loop_ok l'.
Proof.
  intros Hok. unfold suspend_arms. destruct (side_of d l) as [| |h| | | | | |] eqn:Es; try done. simpl.
  set (ns := Z.lor _ _). intros [= <-]. set (l' := set_side _ _ _).
  assert (forall d', side_of d' l' = if decide (d = d') then Arming h ns else side_of d' l) as Hsides
    by (intros d'; unfold l'; by rewrite side_set).
  assert (sides_ok l') as Hso.
  { eapply (sides_kept d (Arming h ns) l); rewrite ?Es; try done. intros _. by apply (lk_one _ Hok); rewrite Es. }
  assert (io_state_ (set_coro d (Some h) (sock l)) = io_state_ (sock l)) as Eio by by destruct d.
  assert (detached_ (sock l') = detached_ (sock l)) as Edet by by destruct d.
  pose proof (lk_one _ Hok d) as Hone. rewrite Es in Hone. specialize (Hone eq_refl).
  pose proof (lk_adding _ Hok) as Hadd. destruct Hso as [H1 H2]. destruct Hok as [Hf Ha Had Hw Hlo Ho Hdi Hl].
  split; try done.
  - rewrite Edet. exact Ha.
  - rewrite Edet. intros Ecl d'. rewrite Hsides. case_decide; subst; [intros _; apply (Had Ecl d'); by rewrite Es|by apply Had].
  - rewrite Edet. intros Ecl Esh d'. rewrite Hsides. case_decide; [done|by apply Hw].
  - intros d' h'. rewrite Hsides. case_decide; [done|apply Hlo].
  - intros E1 E2 E3. destruct (Hl E1 E2 E3) as [Hm Harm Hb Hc Hr Hs].
    assert (forall d', is_arming (side_of d' l) = false) as Hna.
    { intros d'. destruct (decide (d = d')) as [<-|Hn]; [by rewrite Es|]. apply other_ne in Hn as ->.
      by destruct (side_of (other d) l). }
    split.
    + intros m Em Hna'. specialize (Hna' d). rewrite Hsides, decide_True in Hna' by done. done.
    + intros m d' h' ns' Em. rewrite Hsides. case_decide as E; [|intros E'; specialize (Hna d'); by rewrite E' in Hna].
      intros [= -> <-]. subst d'. split; [by unfold l'; destruct d|]. unfold ns. by rewrite Eio, (Hm m Em Hna).
    + intros d' m Em. rewrite Hsides. case_decide; [done|by apply Hb].
    + intros d'. rewrite Hsides. unfold l'. simpl. rewrite coro_set. case_decide; [done|apply Hc].
    + destruct d; simpl; [done|]. exact Hr.
    + destruct d; simpl; [|done]. intros. by do 4 right.
Qed.

(** UpdateEvent. *)
Lemma suspend_ends_ok d l l' : loop_ok l -> suspend_ends true d l = Some l' -> loop_ok l'.
Proof.
  intros Hok. unfold suspend_ends. destruct (side_of d l) as [| | |h ns| | | | |] eqn:Es; try done. intros [= <-].
  set (l' := set_side _ _ _).
  assert (forall d', side_of d' l' = if decide (d = d') then Waiting h else side_of d' l) as Hsides.
  { intros d'. unfold l'. rewrite side_set. unfold UpdateEvent. by destruct (registered (epoll l)), d'. }
  assert (sides_ok l') as Hso by (eapply (sides_kept d (Waiting h) l); rewrite ?Es; done).
  destruct (closed l) eqn:Ecl.
  { apply closed_ok; [|done]. unfold l', UpdateEvent. by destruct (registered (epoll l)). }
  pose proof (lk_adding _ Hok Ecl d) as Hd. rewrite Es in Hd. specialize (Hd eq_refl).
  pose proof (lk_one _ Hok d) as Hone. rewrite Es in Hone. specialize (Hone eq_refl).
  destruct (not_detached _ Hok Ecl Hd) as [m Em]. unfold l', UpdateEvent in *. rewrite Em in *.
  destruct Hso as [H1 H2]. destruct Hok as [Hf Ha Had Hw Hlo Ho Hdi Hl].
  split; simpl; rewrite ?Hd; try done.
  - intros d' h'. rewrite Hsides. case_decide; [done|apply Hlo].
  - intros E1 E2 E3. destruct (Hl E1 E2 E3) as [Hm Harm Hb Hc _ _]. destruct (Harm m d h ns Em Es) as [Eio Ens].
    eapply mask_live; [done|done|..]; intros d'; rewrite ?Hsides.
    + case_decide as E; [done|]. apply other_ne in E as ->. by destruct (side_of (other d) l).
    + rewrite Ens. apply bits_add; case_decide; try done. intros _. by apply Hb.
    + case_decide as E; [subst d'|]; simpl; rewrite Hc; by rewrite ?Es.
Qed.

Lemma wakes_delete i t h d sp : sp !! i = Some t -> t <> Handle h -> t <> Reference d -> wakes h d sp -> wakes h d (delete i sp).
Proof.
  intros Hi N1 N2. assert (forall u, u ∈ sp -> u <> t -> u ∈ delete i sp) as H.
  { intros u [j Hj]%list_elem_of_lookup Hu. apply list_elem_of_lookup. destruct (decide (j < i)) as [Hlt|Hge].
    - exists j. by rewrite list_lookup_delete_lt.
    - destruct (decide (j = i)) as [->|]; [congruence|]. exists (pred j). rewrite list_lookup_delete_ge by lia.
      by replace (S (pred j)) with j by lia. }
  intros [|]; [left|right]; by apply H.
Qed.

(** A coroutine that was suspended is resumed by the task [t]. *)
Lemma resumed_ok d i t h l : loop_ok l -> spawned l !! i = Some t -> suspended_as h (side_of d l) = true ->
  (match t with Handle h' => h' = h | Reference d' => coro_of d' (sock l) = Some h end) ->
  loop_ok (set_side d (Resuming h) (set_spawned (delete i (spawned l)) l)).
Proof.
  intros Hok Hi Hsu Ht.
  assert (handle_of (side_of d l) = Some h) as Hh by (destruct (side_of d l); simpl in Hsu; try done; by apply bool_decide_eq_true in Hsu as ->).
  assert (loop_ok (set_side d (Resuming h) (set_spawned (delete i (spawned l)) l)) <->
          loop_ok (set_spawned (delete i (spawned l)) (set_side d (Resuming h) l))) as -> by done.
  pose proof (lk_live _ Hok) as Hl.
  assert (loop_ok (breaks (set_side d (Resuming h) l))) as [Hf Ha Had Hw Hlo Ho Hdi _].
  { apply (set_side_ok d (Resuming h) (breaks l)); try done; [by apply breaks_ok| |].
    - intros _. change (side_of d (breaks l)) with (side_of d l). destruct (side_of d l); simpl in Hsu; try done; [by left|]. right. by eexists.
    - intros h' [= <-]. by apply (lk_distinct _ Hok). }
  split; try done. intros E1 E2 E3. specialize (Hl E1 E2 E3). destruct (side_of d l) eqn:Es; simpl in Hsu; try done.
  2: { apply (lk_lost _ Hok) in Es. simpl in E1, E2. by rewrite E1, E2 in Es. }
  apply bool_decide_eq_true in Hsu as ->. apply set_side_live; rewrite ?Es; try done.
  intros h' Hw' Hwk. assert (h' <> h) as Hne by (intros ->; by apply (lk_distinct _ Hok d h); rewrite ?Es, ?Hw').
  apply (wakes_delete i t); [done|..|done].
  - intros ->. by subst.
  - intros ->. rewrite (lv_coro _ Hl), Hw' in Ht. by injection Ht.
Qed.

Lemma resume_ok i l l' : loop_ok l -> resume i l = Some l' -> loop_ok l'.
Proof.
  intros Hok. unfold resume. intros (t & Hi & [= <-])%bind_Some. simpl.
  assert (loop_ok (breaks (set_spawned (delete i (spawned l)) l))) as Hbr by (destruct Hok; by split).
  destruct (match t with Handle h => Some h | Reference d => coro_of d (sock l) end) as [h|] eqn:Et; [|done].
  destruct (suspended_as h (recv_side l)) eqn:Er; [|destruct (suspended_as h (send_side l)) eqn:Es; [|done]];
    eapply (resumed_ok _ i t); try done; destruct t; by simplify_eq.
Qed.

Lemma resume_checks_ok d l l' : loop_ok l -> resume_checks d l = Some l' -> loop_ok l'.
Proof.
  intros Hok. unfold resume_checks. destruct (side_of d l) as [| | | | | |h| |] eqn:Es; try done. intros [= <-].
  apply set_side_ok; rewrite ?Es; try done.
  - by destruct (closed l).
  - by destruct (closed l); [|left].
  - by destruct (closed l).
  - intros h' E. apply (lk_distinct _ Hok). rewrite Es. by destruct (closed l).
  - intros E1 E2 E3. rewrite E2, <-set_spawned_same. apply set_side_live; rewrite ?Es; try done. by apply Hok.
Qed.

(** DelRecv and DelSend. *)
Lemma resume_deletes_ok d l l' : loop_ok l -> resume_deletes true d l = Some l' -> loop_ok l'.
Proof.
  intros Hok. unfold resume_deletes. destruct (side_of d l) as [| | | | | | |h|] eqn:Es; try done.
  destruct (in_add (side_of (other d) l)) eqn:Eo; intros [= <-]; [by apply breaks_ok|].
  assert ((match d with Recv => DelRecv true l | Send => DelSend true l end)
    = if is_shutdown_ l then l else del_coro true d l) as -> by by destruct d.
  destruct (is_shutdown_ l) eqn:Esh; [by apply set_side_ok; rewrite ?Esh|].
  set (l' := set_side _ _ _).
  assert (forall d', side_of d' l' = if decide (d = d') then Idle else side_of d' l) as Hsides.
  { intros d'. unfold l'. rewrite side_set. unfold del_coro, UpdateEvent. simpl. by destruct (registered (epoll l)), d'. }
  assert (sides_ok l') as Hso by (eapply (sides_kept d Idle l); rewrite ?Es; done).
  destruct (closed l) eqn:Ecl.
  { apply closed_ok; [|done]. unfold l', del_coro, UpdateEvent. simpl. by destruct (registered (epoll l)). }
  pose proof (lk_waiting _ Hok Ecl Esh d) as Hd. rewrite Es in Hd. specialize (Hd eq_refl).
  destruct (not_detached _ Hok Ecl Hd) as [m Em]. unfold l', del_coro, UpdateEvent in *. simpl in *. rewrite Em in *.
  assert (detached_ (set_coro d None (sock l)) = false) as Edet by by destruct d.
  assert (io_state_ (set_coro d None (sock l)) = io_state_ (sock l)) as Eio by by destruct d.
  destruct Hso as [H1 H2]. destruct Hok as [Hf Ha Had Hw Hlo Ho Hdi Hl].
  split; simpl; rewrite ?Edet; try done.
  - intros d' h'. rewrite Hsides. case_decide; [done|apply Hlo].
  - intros E1 E2 E3. destruct (Hl E1 E2 E3) as [Hm Harm Hb Hc _ _].
    assert (forall d', is_arming (side_of d' l) = false) as Hna.
    { intros d'. destruct (decide (d = d')) as [<-|Hn]; [by rewrite Es|]. apply other_ne in Hn as ->.
      by destruct (side_of (other d) l). }
    eapply mask_live; [done|done|..]; intros d'; rewrite ?Hsides.
    + by case_decide.
    + rewrite Eio, (Hm m Em Hna). apply bits_del; case_decide; try done. intros _. by apply Hb.
    + simpl. rewrite coro_set. case_decide; [done|apply Hc].
Qed.

(** The loop and the peer change no coroutine and no socket. *)
Lemma same_sides_ok l l' : loop_ok l -> is_shutdown_ l' = is_shutdown_ l -> closed l' = closed l -> sock l' = sock l ->
  registered (epoll l') = registered (epoll l) -> recv_side l' = recv_side l -> send_side l' = send_side l ->
  fatal l' = fatal l -> (broken l' = false -> broken l = false) -> (live l -> broken l' = false -> live l') -> loop_ok l'.
Proof.
  intros [Hf Ha Had Hw Hlo Ho Hdi Hl] E1 E2 E3 E4 E5 E6 E7 E8 E9.
  assert (forall d, side_of d l' = side_of d l) as Es by by intros [].
  split; intros *; rewrite ?E1, ?E2, ?E3, ?E4, ?E7, ?Es; auto.
  - intros Hc d. rewrite Es. by apply Had.
  - intros Hc Hs d. rewrite Es. by apply Hw.
  - apply Hlo.
Qed.

Lemma epoll_wait_ok l l' : loop_ok l -> epoll_wait l = Some l' -> loop_ok l'.
Proof.
  intros Hok. unfold epoll_wait. destruct (pending l) eqn:Ep; [done|]. destruct (listed (epoll l)) eqn:El; [|done].
  destruct (registered (epoll l)) as [m|] eqn:Em; [|done]. intros [= <-]. eapply same_sides_ok; try done.
  intros [Hm Harm Hb Hc Hr Hs] _. set (r := ready_mask (epoll l) m).
  assert (forall d h, side_of d l = Waiting h -> level_of d (epoll l) = true ->
    has r (flag_of d) = true /\ (if (r =? 0)%Z then None else Some r) = Some r) as Hrep.
  { intros d h Hw Hlv. specialize (Hb d _ Em). rewrite Hw in Hb. simpl in Hb.
    assert (has r (flag_of d) = true) as Hh by (unfold r; by rewrite has_ready, Hb, Hlv).
    split; [done|]. by rewrite (has_zero _ _ Hh). }
  split; simpl; try done.
  - by intros m' [= <-]; apply Hm.
  - intros m' d h ns [= <-]. change (side_of d _) with (side_of d l). by apply Harm.
  - intros d m' [= <-]. change (side_of d _) with (side_of d l). by apply Hb.
  - intros h Hw Hrd. right; left. exists r. by destruct (Hrep Recv h Hw Hrd).
  - intros h Hw Hwr. destruct (Hrep Send h Hw Hwr) as [Hh Hp].
    destruct (has r EPOLLIN) eqn:Hin; [|right; left; exists r; by auto].
    specialize (Hb Recv _ Em). simpl in Hb. unfold r in Hin. rewrite (has_ready _ _ Recv) in Hin.
    apply andb_true_iff in Hin as [Hin Hrd]. simpl in Hin.
    destruct (recv_side l) as [| | | |h'|h'| | |] eqn:Er; simpl in Hb; try congruence; try (by do 4 right).
    right; left. exists r. split_and!; [done..|]. right. by exists h'.
Qed.

(** The event is handled; [sp] are the tasks then. *)
Lemma handled_ok r sp l : loop_ok l -> pending l = Some r -> (forall t, t ∈ spawned l -> t ∈ sp) ->
  (live l -> forall h, recv_side l = Waiting h -> has r EPOLLIN = true -> wakes h Recv sp) ->
  (live l -> forall h, send_side l = Waiting h -> has r EPOLLOUT = true -> has r EPOLLIN = false -> wakes h Send sp) ->
  loop_ok (set_spawned sp (set_pending None l)).
Proof.
  intros Hok Ep H1 H2 H3. eapply same_sides_ok; try done. intros Hlv _. specialize (H2 Hlv). specialize (H3 Hlv).
  assert (forall h d, wakes h d (spawned l) -> wakes h d sp) as H4 by (intros h d [|]; [left|right]; auto).
  destruct Hlv as [Hm Harm Hb Hc Hr Hs]. split; simpl; try done.
  - intros h Hw Hrd. destruct (Hr h Hw Hrd) as [|[(r' & Hp & Hh)|Hin]]; [by left| |do 2 right; by apply H4].
    simplify_eq. do 2 right. by apply (H2 h).
  - intros h Hw Hwr. destruct (Hs h Hw Hwr) as [|[(r' & Hp & Hh & Hx)|[Hin|[(h' & Hw' & Hin)|Hin]]]];
      [by left| |do 2 right; left; by apply H4|do 3 right; left; exists h'; auto|by do 4 right].
    simplify_eq. destruct (has r EPOLLIN) eqn:Hi; [|do 2 right; left; by apply (H3 h)].
    destruct Hx as [|[h' Hx]]; [done|]. do 3 right; left. exists h'. split; [done|]. by apply (H2 h').
Qed.

Lemma spawn_wakes b d l : (forall t, t ∈ spawned l -> t ∈ spawn b d l)
  /\ (forall h, coro_of d (sock l) = Some h -> wakes h d (spawn b d l)).
Proof.
  unfold spawn, wakes. destruct b; [split; intros; set_solver|].
  destruct (coro_of d (sock l)); split; intros; simplify_eq; set_solver.
Qed.

Lemma handle_event_ok b l l' : loop_ok l -> handle_event b l = Some l' -> loop_ok l'.
Proof.
  intros Hok. unfold handle_event. intros (r & Ep & E)%bind_Some.
  change (spawn b Recv (set_pending None l)) with (spawn b Recv l) in E.
  change (spawn b Send (set_pending None l)) with (spawn b Send l) in E.
  destruct (spawn_wakes b Recv l) as [Hr1 Hr2]. destruct (spawn_wakes b Send l) as [Hs1 Hs2].
  assert (forall d h, live l -> side_of d l = Waiting h -> coro_of d (sock l) = Some h) as Hc
    by (intros d h Hlv Hw; by rewrite (lv_coro _ Hlv), Hw).
  assert ((if has r EPOLLIN then Some (set_spawned (spawn b Recv l) (set_pending None l))
           else if has r EPOLLOUT then Some (set_spawned (spawn b Send l) (set_pending None l))
           else Some (set_pending None l)) = Some l' -> loop_ok l') as Hnext.
  { destruct (has r EPOLLIN) eqn:Hi; [|destruct (has r EPOLLOUT) eqn:Ho]; intros [= <-].
    - apply (handled_ok r); try done; try congruence. intros Hlv h Hw _. apply Hr2. by apply (Hc Recv).
    - apply (handled_ok r); try done; try congruence. intros Hlv h Hw _ _. apply Hs2. by apply (Hc Send).
    - apply (handled_ok r (spawned l)); try done; congruence. }
  simpl in E. destruct (recv_side l) eqn:Er; try by apply Hnext. injection E as <-. by eapply same_sides_ok.
Qed.

Lemma level_ok d up l : loop_ok l -> loop_ok (level d up l).
Proof.
  intros Hok. destruct (decide (closed l = false /\ is_shutdown_ l = false)) as [[Ec Esh]|Hn].
  2: { destruct Hok. split; try done. simpl. intros E1 E2. by destruct Hn. }
  eapply same_sides_ok; try done. intros Hlv _.
  assert (forall h, side_of d l = Waiting h -> up = true ->
    listed (epoll l) || (up && (if registered (epoll l) is Some m then has m (flag_of d) else false)) = true) as Hon.
  { intros h Hw ->. pose proof (lk_waiting _ Hok Ec Esh d) as Hd. rewrite Hw in Hd. specialize (Hd eq_refl).
    destruct (not_detached _ Hok Ec Hd) as [m Em]. rewrite Em.
    pose proof (lv_bits _ Hlv d m Em) as Hb. rewrite Hw in Hb. simpl in Hb. by rewrite Hb, orb_true_r. }
  destruct Hlv as [Hm Harm Hb Hc Hr Hs]. split; simpl; try done.
  - intros h Hw Hrd. destruct d; [left; by eapply (Hon h)|].
    destruct (Hr h Hw Hrd) as [->|]; [by left|by right].
  - intros h Hw Hwr. destruct d; [|left; by eapply (Hon h)].
    destruct (Hs h Hw Hwr) as [->|]; [by left|by right].
Qed.

Lemma Close_ok l l' : loop_ok l -> Close l = Some l' -> loop_ok l'.
Proof.
  intros Hok. assert (Close l = Some l' -> l' = l \/ closed l' = true /\ forall d, side_of d l' = side_of d l) as H.
  { unfold Close. destruct (recv_side l) eqn:Er; try done; intros [= <-]; destruct (closed l); auto; right; split; try done; by intros []. }
  intros [->|[Ec Es]]%H; [done|]. apply closed_ok; [done|]. split; intros *; rewrite !Es; apply Hok.
Qed.

Lemma destroy_ok l l' : loop_ok l -> destroy l = Some l' -> loop_ok l'.
Proof.
  intros Hok. unfold destroy. destruct (recv_side l) eqn:Er; try done. destruct (send_side l) eqn:Es; try done.
  intros [= <-]. destruct (closed l) eqn:Ec.
  { assert (forall l0, closed l0 = true -> loop_ok (set_side Recv Destroyed (set_side Send Destroyed l0))) as H.
    { intros l0 E. apply closed_ok; [done|]. split; by intros []. }
    unfold Detach. destruct (detached_ (sock l)); [|simpl; destruct (registered (epoll l))]; simpl; rewrite Ec; by apply H. }
  assert (closed (if detached_ (sock l) then l else Detach l) = false) as ->
    by (unfold Detach; by destruct (detached_ (sock l)); [|simpl; destruct (registered (epoll l))]).
  assert (forall d, coro_of d (sock l) = None \/ ~ (is_shutdown_ l = false /\ broken l = false)) as Hcoro.
  { intros d. destruct (decide (is_shutdown_ l = false /\ broken l = false)) as [[E1 E2]|]; [left|by right].
    rewrite (lv_coro _ (lk_live _ Hok E1 Ec E2)). destruct d; simpl; by rewrite ?Er, ?Es. }
  destruct Hok as [Hf Ha Had Hw Hlo Ho Hdi Hl]. specialize (Ha Ec). unfold Detach.
  destruct (detached_ (sock l)) eqn:Ed; [|simpl; destruct (registered (epoll l)) eqn:Em; [|discriminate (proj1 Ha eq_refl)]].
  all: split; simpl; rewrite ?Ed; try done; try (by intros []); try (by intros ? []); try (by intros ? ? []).
  all: intros E1 _ E3; split; simpl; try done; intros d; destruct (Hcoro d) as [Hn|Hn]; [|by destruct Hn]; by destruct d.
Qed.

Lemma loop_step_ok b ev l l' : loop_ok l -> loop_step true b ev l = Some l' -> loop_ok l'.
Proof.
  intros Hok. unfold loop_step. destruct (fatal l || broken l); [done|].
  destruct ev as [| |d h|d|d|d|i|d|d|d up| | |].
  - by apply epoll_wait_ok.
  - by apply handle_event_ok.
  - by apply suspend_begins_ok.
  - by apply suspend_attaches_ok.
  - by apply suspend_arms_ok.
  - by apply suspend_ends_ok.
  - by apply resume_ok.
  - by apply resume_checks_ok.
  - by apply resume_deletes_ok.
  - intros [= <-]. by apply level_ok.
  - by apply Close_ok.
  - by apply destroy_ok.
  - intros [= <-]. destruct Hok as [Hf Ha Had Hw Hlo Ho Hdi Hl]. split; try done. simpl. intros d h E. by rewrite orb_true_r.
Qed.

(** Nothing is under way: [epoll_wait] has nothing to report, no event is left to handle, no
    task on a pool, nobody between the beginning of await_suspend and its end, or in
    await_resume. *)
Definition moving (st : side) : bool :=
  match st with Checked _ | Adding _ | Arming _ _ | Resuming _ | Deleting _ => true | _ => false end.
Definition quiescent (l : Loop) : Prop :=
  listed (epoll l) = false /\ pending l = None /\ spawned l = [] /\ (forall d, moving (side_of d l) = false).


Module Examples.

Definition suspension (d : direction) (h : nat) : list loop_event := [Suspends d h; Attaches d; Arms d; Suspended d].
Definition resumption (d : direction) : list loop_event := [Resumes 0; Checks d; Deletes d].

(** Reader and writer wait; the socket becomes ready for both; the loop resumes the
    reader, whose DelRecv brings the writer's event back. *)
Definition one_woken : list loop_event :=
  Level Send false :: suspension Recv 1 ++ suspension Send 2 ++ [Level Recv true; Level Send true; Waits; Handles] ++
  resumption Recv.
Definition both_ready : list loop_event :=
  one_woken ++ [Waits; Handles] ++ resumption Send ++ [Suspends Recv 3; Level Recv false; Attaches Recv; Arms Recv; Suspended Recv].
Definition both_ready_end (pooled : bool) : Loop := default Loop_new (exec (loop_step true pooled) both_ready Loop_new).

Lemma both_ready_run pooled : exec (loop_step true pooled) both_ready Loop_new = Some (both_ready_end pooled).
Proof. destruct pooled; vm_compute; reflexivity. Qed.


(** Were a ready descriptor not reported again, the writer would wait for ever. *)
Example lost_without_rearming :
  exists l, exec (loop_step false false) one_woken Loop_new = Some l
    /\ listed (epoll l) = false /\ pending l = None /\ spawned l = [] /\ send_side l = Waiting 2 /\ writable (epoll l) = true.
Proof. eexists. vm_compute. done. Qed.

(** Between the event and await_resume the interest is still there: data that arrives
    puts the handle on the pool a second time, and it is resumed while it runs. *)
Example resumed_twice :
  exists l, exec (loop_step true false) (suspension Recv 1 ++ [Level Recv true; Waits; Handles; Level Recv true;
      Waits; Handles; Resumes 0; Resumes 0]) Loop_new = Some l /\ broken l = true.
Proof. eexists. vm_compute. done. Qed.

(** With the work pool the second task reads the handle when it runs, after DelRecv. *)
Example null_handle :
  exists l, exec (loop_step true true) (suspension Recv 1 ++ [Level Recv true; Waits; Handles; Level Recv true;
      Waits; Handles] ++ resumption Recv ++ [Resumes 0]) Loop_new = Some l /\ broken l = true.
Proof. eexists. vm_compute. done. Qed.

(** The handle is stored before the call of UpdateEvent: an event for the attached socket
    resumes the coroutine while AddRecv still has to set the mask. *)
Example resumed_in_AddRecv :
  exists l, exec (loop_step true false) [Suspends Recv 1; Attaches Recv; Level Recv true; Arms Recv; Waits; Handles; Resumes 0]
      Loop_new = Some l /\ broken l = true.
Proof. eexists. vm_compute. done. Qed.

(** A connection that is destroyed while its event waits to be handled is used after. *)
Example event_of_destroyed_connection :
  exists l, exec (loop_step true false) (suspension Recv 1 ++ [Level Recv true; Waits; Handles; Level Recv true; Waits] ++
      resumption Recv ++ [Destroys; Handles]) Loop_new = Some l /\ broken l = true.
Proof. eexists. vm_compute. done. Qed.

(** A connection that is closed has left epoll, and its destructor's Detach fails. *)
Example destroyed_after_close :
  exists l, exec (loop_step true false) (suspension Recv 1 ++ [Level Recv true; Waits; Handles] ++ resumption Recv ++ [Closes; Destroys])
      Loop_new = Some l /\ fatal l = true.
Proof. eexists. vm_compute. done. Qed.

(** Close wakes nobody up: a coroutine that waits then waits for ever. *)
Example closed_while_waiting :
  exists l, exec (loop_step true false) (suspension Recv 1 ++ [Closes; Level Recv true]) Loop_new = Some l
    /\ recv_side l = Waiting 1 /\ listed (epoll l) = false /\ pending l = None /\ spawned l = [].
Proof. eexists. vm_compute. done. Qed.

(** Shutdown does not wake the loop up: with nothing ready it stays in [epoll_wait]. *)
Example shutdown_while_waiting :
  exists l, exec (loop_step true false) (suspension Recv 1 ++ [ShutsDown]) Loop_new = Some l
    /\ listed (epoll l) = false /\ spawned l = [] /\ recv_side l = Waiting 1.
Proof. eexists. vm_compute. done. Qed.

(** On a machine with one core the server would make 2^64 - 1 reactors; with two or three
    there is none to hand out. *)
Example reactors_of_small_machines :
  sub_reactor_count 1 = (2 ^ 64 - 1)%Z /\ sub_reactor_count 2 = 0%Z /\ GetSubReactor (sub_reactor_count 3) 0 = None
  /\ sub_reactor_count 8 = 3%Z.
Proof. vm_compute. done. Qed.
End Examples.
