(* ===== verification/BlockingClient.v ===== *)
(** * Connecting, and the blocking RPC client
      (src/bitdb/net/tcp/tcp_client.cpp, src/bitdb/net/rpc/rpc_client.h)

    The client polls a non-blocking socket: it connects in a loop, and reads and writes
    packets with plain [read] and [write] calls, on the connections of Packet.v. *)

From S2P Require Import Prelude Serializer Packet Rpc.

(** ** Connecting *)

(** What [::connect] answers. *)
Inductive connect_res := Connected | InProgress | ConnectError.

(** A non-blocking socket that is connected after [after] calls: EINPROGRESS at first,
    then EALREADY as long as the first attempt is not completed. *)
Definition sys_connect (after calls : nat) : connect_res :=
  if decide (after <= calls) then Connected
  else if decide (calls = 0) then InProgress else ConnectError.

(** The loop of connect, block_connect and the blocking client's constructor: whether the
    socket is connected when it ends. *)
Fixpoint connect_loop (answer : nat -> connect_res) (calls retry_times : nat) : M nat Empty_set bool :=
  match retry_times with
  | O => mret false
  | S retry_times =>
      modify S;;
      match answer calls with
      | Connected => mret true
      | InProgress => connect_loop answer (S calls) retry_times
      | ConnectError => undef ProcessExit
      end
  end.
Definition connect (answer : nat -> connect_res) : M nat Empty_set bool := connect_loop answer 0 50.

(** ** The blocking client *)

(** [head_buffer] filled from its start by every [read]. *)
Fixpoint head_loop (fuel head_recv_size : nat) (head_buffer : bytes) : SockM (option bytes) :=
  if decide (head_recv_size = HEADER_SIZE) then mret (Some head_buffer) else
  match fuel with
  | O => undef OutOfFuel
  | S fuel =>
      res ← try_read HEADER_SIZE;
      match res with
      | Done bs => head_loop fuel (head_recv_size + length bs) (bs ++ drop (length bs) head_buffer)
      | Neg true => head_loop fuel head_recv_size head_buffer
      | Neg false => mret None
      end
  end.

(** [buffer.resize(already_read_size)]; a negative int becomes a size beyond every limit. *)
Definition resize_to (already_read_size : Z) (buffer : bytes) : SockM bytes :=
  if decide (already_read_size < 0)%Z then undef UncaughtException else mret buffer.

(** The body; [acc] is what the buffer holds by now and [already_read_size] the int that
    counts it, which is the place of the next read: once it has wrapped around, that lies
    before the buffer. *)
Fixpoint body_loop (fuel total_read_size : nat) (acc : bytes) (already_read_size : Z) : SockM bytes :=
  match total_read_size with
  | O => resize_to already_read_size acc
  | _ =>
      match fuel with
      | O => undef OutOfFuel
      | S fuel =>
          if decide (already_read_size < 0)%Z then undef OutOfBounds else
          res ← try_read total_read_size;
          match res with
          | Done [] => resize_to already_read_size acc
          | Done bs =>
              body_loop fuel (total_read_size - length bs) (acc ++ bs) (s32 (already_read_size + Z.of_nat (length bs)))
          | Neg true => body_loop fuel total_read_size acc already_read_size
          | Neg false => resize_to already_read_size acc
          end
      end
  end.

(** ReadPacket: the buffer, or nothing for -1.  [head0] is what the stack held. *)
Definition ReadPacket (fuel : nat) (head0 : bytes) : SockM (option bytes) :=
  head ← head_loop fuel 0 head0;
  match head with
  | None => mret None
  | Some head_buffer =>
      s ← get;
      let n := Z.to_nat (le_value head_buffer) in
      buffer ← body_loop (io_fuel n s) n [] 0;
      mret (Some buffer)
  end.

Fixpoint body_write_loop (fuel : nat) (bs : bytes) (already_write_size : nat) : SockM nat :=
  match bs with
  | [] => mret already_write_size
  | _ =>
      match fuel with
      | O => undef OutOfFuel
      | S fuel =>
          res ← try_write bs;
          match res with
          | Done [] => mret already_write_size
          | Done w => body_write_loop fuel (drop (length w) bs) (already_write_size + length w)
          | Neg true => body_write_loop fuel bs already_write_size
          | Neg false => mret already_write_size
          end
      end
  end.

(** WritePacket: one [write] for the header, however much of it goes out. *)
Definition WritePacket (buffer : bytes) : SockM Z :=
  res ← try_write (le_bytes HEADER_SIZE (u32 (Z.of_nat (length buffer))));
  match res with
  | Done (_ :: _) =>
      s ← get;
      n ← body_write_loop (io_fuel (length buffer) s) buffer 0;
      mret (Z.of_nat n)
  | _ => mret (u64 (-1))
  end.

(** NetCall: a failed read is reported and its empty buffer read all the same. *)
Definition BlockingNetCall {R} (rc : Codec R) (value0 : R) (fuel : nat) (head0 : bytes) (serializer : Serializer)
    : ClientM (RpcResponse R) :=
  c ← get;
  (if decide (err_code_ c ≠ code_of RPC_ERR_RECV_TIMEOUT) then
     res ← on_conn (WritePacket (str serializer));
     if decide (res = Z.of_nat (length (str serializer))) then mret tt else undef ProcessExit
   else mret tt);;
  reply_buffer ← on_conn (ReadPacket fuel head0);
  match reply_buffer with
  | Some [] =>
      set_err_code (code_of RPC_ERR_RECV_TIMEOUT);;
      mret (mkResponse (code_of RPC_ERR_RECV_TIMEOUT) (lit "recv timeout") value0)
  | _ =>
      set_err_code (code_of RPC_SUCCECC);;
      r ← with_serializer (deserialize (RpcResponse_ rc) (mkResponse 0 [] value0))
            (Serializer_of (default [] reply_buffer));
      mret r.1
  end.

(** ** What works *)

(** Pieces of at least a header, and the next call goes through. *)
Definition big (e : io_event) : Prop := match e with Again => True | Ready k => 3 <= k | Err => False end.
Definition unfragmented (s : Socket) : Prop :=
  is_closed_ s = false /\ Forall big (events s) /\ forall es, events s ≠ Again :: es.

Lemma big_up s : is_closed_ s = false -> Forall big (events s) -> up s.
Proof. intros Hc Hb. split; [done|]. intros Hin. rewrite Forall_forall in Hb. by apply Hb in Hin. Qed.

Lemma head_loop_whole es : forall fuel head b rest st, Forall big es -> length b = 4 -> length head = 4 -> length es < fuel ->
  exists es', es' `suffix_of` es
    /\ head_loop fuel 0 head (mkSocket (b ++ rest) st false es) = (Ret (Some b), mkSocket rest st false es').
Proof.
  induction es as [|e es IH]; intros [|fuel] head b rest st Hbig Hb Hh Hf; simpl in Hf; try lia; cbn [head_loop];
    rewrite decide_False by done; run_io.
  - exists []. split; [done|]. rewrite take_app_length', drop_app_length' by done. rewrite Hb.
    rewrite drop_ge by lia. destruct fuel; cbn [head_loop]; by rewrite decide_True, app_nil_r by done.
  - apply Forall_cons in Hbig as [He Hbig]. destruct e as [k| |]; simpl in *; [| |done].
    + exists es. split; [by apply suffix_cons_r|].
      assert (Nat.min 4 (S k) = 4) as Hmin by lia. simpl in Hmin. unfold HEADER_SIZE in *. rewrite Hmin.
      rewrite take_app_length', drop_app_length' by done. rewrite Hb.
      rewrite drop_ge by lia. destruct fuel; cbn [head_loop]; by rewrite decide_True, app_nil_r by done.
    + destruct (IH fuel head b rest st Hbig Hb Hh) as (es' & Hs & E); [lia|]. exists es'. split; [by apply suffix_cons_r|exact E].
Qed.

Lemma body_loop_up fuel : forall n acc s b rest,
  up s -> inbox s = b ++ rest -> length b = n -> n + length (events s) < fuel -> (Z.of_nat (length acc + n) < 2 ^ 31)%Z ->
  exists es, es `suffix_of` events s
    /\ body_loop fuel n acc (Z.of_nat (length acc)) s = (Ret (acc ++ b), mkSocket rest (sent s) false es).
Proof.
  induction fuel as [|fuel IH]; intros n acc s b rest Hu Hi Hl Hf Hb; [lia|]. destruct n as [|n].
  - destruct b; [|done]. exists (events s). split; [done|]. cbn [body_loop]. unfold resize_to.
    rewrite decide_False by lia. rewrite app_nil_r. destruct s, Hu. simpl in *. by subst.
  - destruct (try_read_up (S n) s Hu) as (r & s1 & E & Hr); [lia|rewrite Hi; by destruct b|].
    cbn [body_loop]. rewrite decide_False by lia. mstep E. destruct Hr as [bs rest1 es H1 H2 H3 H4|es Hes Hlt].
    + destruct bs as [|x bs]; [done|]. rewrite Hi in H1. destruct (read_split _ _ _ _ H1) as (b1 & -> & ->); [lia|].
      rewrite length_app in Hl. pose proof (suffix_length _ _ H4). simpl length in *.
      assert (s32 (Z.of_nat (length acc) + Z.of_nat (S (length bs))) = Z.of_nat (length (acc ++ x :: bs))) as ->
        by (rewrite length_app; simpl length; rewrite s32_small; lia).
      destruct (IH (S n - S (length bs)) (acc ++ x :: bs) (mkSocket (b1 ++ rest) (sent s) false es) b1 rest) as (es' & Hs & ->);
        [by eapply up_suffix|done|lia|simpl; lia|rewrite length_app; simpl; lia|].
      exists es'. split; [by etrans|]. by rewrite <-app_assoc.
    + destruct (IH (S n) acc (mkSocket (inbox s) (sent s) false es) b rest) as (es' & Hs & ->);
        [by eapply up_suffix|done|done|simpl; lia|lia|].
      exists es'. split; [by etrans|done].
Qed.

Lemma body_write_loop_up fuel : forall bs k s, up s -> length bs + length (events s) < fuel ->
  exists es, es `suffix_of` events s
    /\ body_write_loop fuel bs k s = (Ret (k + length bs), mkSocket (inbox s) (sent s ++ bs) false es).
Proof.
  induction fuel as [|fuel IH]; intros bs k s Hu Hf; [lia|]. destruct bs as [|b bs].
  - exists (events s). split; [done|]. cbn. rewrite app_nil_r, Nat.add_0_r. destruct s, Hu. simpl in *. by subst.
  - destruct (try_write_up (b :: bs) s Hu) as (r & s1 & E & Hr); [done|].
    cbn [body_write_loop]. mstep E. destruct Hr as [w rest es H1 H2 H3|es Hes Hlt].
    + destruct w as [|x w]; [done|]. rewrite H1, drop_app_length. pose proof (suffix_length _ _ H3).
      rewrite H1, length_app in Hf. simpl length in *.
      destruct (IH rest (k + S (length w)) (mkSocket (inbox s) (sent s ++ x :: w) false es)) as (es' & Hs & ->);
        [by eapply up_suffix|simpl in *; lia|].
      exists es'. split; [by etrans|]. simpl. rewrite length_app, <-app_assoc. simpl. do 2 f_equal. lia.
    + destruct (IH (b :: bs) k (mkSocket (inbox s) (sent s) false es)) as (es' & Hs & ->); [by eapply up_suffix|simpl in *; lia|].
      exists es'. split; [by etrans|done].
Qed.

Lemma ReadPacket_whole buffer rest s fuel head0 :
  is_closed_ s = false -> Forall big (events s) -> (Z.of_nat (length buffer) < 2 ^ 31)%Z ->
  inbox s = packet buffer ++ rest -> length head0 = 4 -> length (events s) < fuel ->
  exists es, es `suffix_of` events s /\ ReadPacket fuel head0 s = (Ret (Some buffer), mkSocket rest (sent s) false es).
Proof.
  intros Hc Hb Hl Hi Hh Hf. unfold packet in Hi. rewrite <-app_assoc in Hi. destruct s as [ib st cl ev]. simpl in *. subst.
  destruct (head_loop_whole ev fuel head0 (le_bytes HEADER_SIZE (Z.of_nat (length buffer))) (buffer ++ rest) st Hb
              (le_bytes_length _ _) Hh Hf) as (es & Hs & E).
  unfold ReadPacket. mstep E. rewrite le_value_bytes, Z.mod_small, Nat2Z.id by (change (8 * Z.of_nat HEADER_SIZE)%Z with 32%Z; lia).
  assert (up (mkSocket (buffer ++ rest) st false es)) as Hu.
  { apply (up_suffix (mkSocket [] st false ev)); [by apply big_up|done]. }
  destruct (body_loop_up (io_fuel (length buffer) (mkSocket (buffer ++ rest) st false es)) (length buffer) []
              (mkSocket (buffer ++ rest) st false es) buffer rest Hu) as (es' & Hs' & E'); [done|done|unfold io_fuel; simpl; lia|simpl; lia|].
  exists es'. split; [by etrans|]. by mstep E'.
Qed.

Lemma write_head head s : unfragmented s -> length head = 4 ->
  exists es, es `suffix_of` events s /\ try_write head s = (Ret (Done head), mkSocket (inbox s) (sent s ++ head) false es).
Proof.
  intros (Hc & Hb & Ha) Hlen. destruct s as [ib st cl ev]. simpl in *. subst cl. run_io. destruct ev as [|[k| |] ev]; simpl.
  - exists []. by rewrite take_ge by lia.
  - apply Forall_cons in Hb as [Hk _]. simpl in Hk. exists ev. split; [by apply suffix_cons_r|]. by rewrite take_ge by lia.
  - by destruct (Ha ev).
  - by apply Forall_cons in Hb as [[] _].
Qed.

Lemma WritePacket_whole buffer s : unfragmented s -> (Z.of_nat (length buffer) < 2 ^ 32)%Z ->
  exists es, es `suffix_of` events s
    /\ WritePacket buffer s = (Ret (Z.of_nat (length buffer)), mkSocket (inbox s) (sent s ++ packet buffer) false es).
Proof.
  intros Hun Hl. unfold WritePacket, packet.
  assert (u32 (Z.of_nat (length buffer)) = Z.of_nat (length buffer)) as -> by (apply Z.mod_small; lia).
  pose proof (le_bytes_length HEADER_SIZE (Z.of_nat (length buffer))) as Hlen.
  revert Hlen. generalize (le_bytes HEADER_SIZE (Z.of_nat (length buffer))). intros head Hlen.
  destruct (write_head head s Hun Hlen) as (es & Hs & E). destruct Hun as (Hc & Hb & _).
  mstep E. destruct head as [|x head]; [done|]. autorewrite with monad.
  set (s1 := mkSocket (inbox s) (sent s ++ x :: head) false es).
  assert (up s1) as Hu by (apply (up_suffix s); [by apply big_up|done]).
  destruct (body_write_loop_up (io_fuel (length buffer) s1) buffer 0 s1 Hu) as (es' & Hs' & E'); [unfold io_fuel; lia|].
  exists es'. split; [by etrans|]. mstep E'. simpl. by rewrite <-app_assoc.
Qed.

(** ** Calls *)

Section calls.
Context {R : Type} (rc : Codec R) (wfr : R -> Prop) (encr : R -> bytes) `{!RoundTrip rc wfr encr}.

Lemma reply_nonempty r : reply rc r ≠ [].
Proof.
  unfold reply. rewrite (serialize_enc (c := RpcResponse_ rc)). simpl. intros E. apply (f_equal length) in E.
  discriminate E.
Qed.

Lemma BlockingNetCall_reply value0 e s ser r rest fuel head0 :
  e ≠ code_of RPC_ERR_RECV_TIMEOUT -> unfragmented s -> wfr r ->
  (Z.of_nat (length (str ser)) < 2 ^ 32)%Z -> (Z.of_nat (length (reply rc r)) < 2 ^ 31)%Z ->
  inbox s = packet (reply rc r) ++ rest -> length head0 = 4 -> length (events s) < fuel ->
  exists es, BlockingNetCall rc value0 fuel head0 ser (mkClient e (Some s))
    = (Ret (mkResponse (code_of RPC_SUCCECC) [] r),
       mkClient (code_of RPC_SUCCECC) (Some (mkSocket rest (sent s ++ packet (str ser)) false es))).
Proof.
  intros He Hun Hr Hq Hp Hi Hh Hf. pose proof (reply_nonempty r) as Hne. unfold BlockingNetCall. autorewrite with monad. rewrite decide_True by done. rewrite bind_assoc.
  destruct (WritePacket_whole (str ser) s Hun Hq) as (es & Hs & E). mstep (on_conn_Ret _ e _ _ _ E).
  rewrite decide_True by done. autorewrite with monad. destruct Hun as (Hc & Hb & _).
  assert (Forall big es) as Hb' by (destruct Hs as [k Hk]; rewrite Hk in Hb; by apply Forall_app in Hb as [_ Hb]).
  pose proof (suffix_length _ _ Hs) as Hsl.
  destruct (ReadPacket_whole (reply rc r) rest (mkSocket (inbox s) (sent s ++ packet (str ser)) false es) fuel head0)
    as (es' & _ & E'); [done..|simpl; lia|].
  mstep (on_conn_Ret _ e _ _ _ E'). destruct (reply_read rc wfr encr r (mkResponse 0 [] value0) Hr) as [ss E2].
  exists es'. destruct (reply rc r) as [|x y] eqn:Er; [done|]. unfold set_err_code. autorewrite with monad. simpl default.
  by mstep (with_serializer_Ret _ _ _ _ (mkClient (code_of RPC_SUCCECC)
    (Some (mkSocket rest (sent s ++ packet (str ser)) false es'))) E2).
Qed.
End calls.

(** C39: a blocking call gets the answer that is on its connection, and has sent exactly
    its request, if the last call has not timed out, no piece of the stream is shorter
    than a header, the header's write is not put off (an EAGAIN there ends the
    process) and the answer is shorter than 2^31 bytes, the range of the int that counts
    it; bodies may come in pieces and after any number of retries. *)
Theorem blocking_call_transparent {R} (rc : Codec R) wfr encr `{!RoundTrip rc wfr encr} value0 e s ser r rest fuel head0 :
  e ≠ code_of RPC_ERR_RECV_TIMEOUT -> unfragmented s -> wfr r ->
  (Z.of_nat (length (str ser)) < 2 ^ 32)%Z -> (Z.of_nat (length (reply rc r)) < 2 ^ 31)%Z ->
  inbox s = packet (reply rc r) ++ rest -> length head0 = 4 -> length (events s) < fuel ->
  exists es, BlockingNetCall rc value0 fuel head0 ser (mkClient e (Some s))
    = (Ret (mkResponse (code_of RPC_SUCCECC) [] r),
       mkClient (code_of RPC_SUCCECC) (Some (mkSocket rest (sent s ++ packet (str ser)) false es))).
Proof. by apply (BlockingNetCall_reply rc wfr encr). Qed.

(** When the server has closed the connection, the blocking client reads for ever:
    no number of turns of the header's loop is enough. *)
Lemma blocking_read_spins s fuel head0 : up s -> inbox s = [] -> 
  exists s', ReadPacket fuel head0 s = (Undef OutOfFuel, s').
Proof.
  intros Hu Hi. assert (exists s', head_loop fuel 0 head0 s = (Undef OutOfFuel, s')) as [s' E].
  { revert s head0 Hu Hi. induction fuel as [|fuel IH]; intros s head0 Hu Hi; cbn [head_loop]; rewrite decide_False by done; [by eexists|].
    destruct (try_read_eof HEADER_SIZE s Hu Hi) as (r & s1 & E & Hr). mstep E.
    destruct Hr as [es Hes|es Hes Hlt]; apply IH; try done; by eapply up_suffix. }
  exists s'. unfold ReadPacket. by rewrite (bind_Undef _ _ _ _ _ E).
Qed.

(** Fifty tries are two.  A non-blocking connect that is not completed when it is
    asked for the second time ends the process; otherwise the loop ends connected. *)
Lemma connect_tries_twice after :
  connect (sys_connect after) 0
  = (if decide (after <= 1) then Ret true else Undef ProcessExit, if decide (after = 0) then 1 else 2).
Proof. by destruct after as [|[|after]]. Qed.

(** An answer of 2^31 bytes in one piece: the count wraps around and [resize] throws. *)
Lemma body_of_2_31 fuel s bs s' : (Z.of_nat (length bs) = 2 ^ 31)%Z ->
  try_read (length bs) s = (Ret (Done bs), s') -> body_loop (S fuel) (length bs) [] 0 s = (Undef UncaughtException, s').
Proof.
  intros Hl E. destruct bs as [|b bs]; [done|]. cbn [body_loop length]. rewrite decide_False by lia.
  change (S (length bs)) with (length (b :: bs)). mstep E. rewrite Nat.sub_diag, Z.add_0_l, Hl.
  by destruct fuel.
Qed.

Module Examples.

Definition conn : Socket :=
  mkSocket (packet (reply uint32_ 7%Z)) [] false [Ready 3; Again; Ready 9; Ready 4; Again; Ready 8].

Lemma blocking_call_transparent_witness :
  exists es, BlockingNetCall uint32_ 0%Z 9 (repeat NUL 4) Serializer_empty (mkClient 0 (Some conn))
    = (Ret (mkResponse 0 [] 7%Z), mkClient 0 (Some (mkSocket [] (packet []) false es))).
Proof.
  apply (blocking_call_transparent uint32_ (fun v => fits_unsigned 4 v) _ 0%Z 0 conn Serializer_empty 7%Z [] 9 (repeat NUL 4)).
  - discriminate.
  - split_and!; [reflexivity| |discriminate]. vm_compute. repeat constructor; lia.
  - vm_compute. split; [discriminate|reflexivity].
  - reflexivity.
  - reflexivity.
  - rewrite app_nil_r. reflexivity.
  - reflexivity.
  - vm_compute. lia.
Defined.

Lemma blocking_read_spins_witness :
  exists s', ReadPacket 1000 (repeat NUL 4) (mkSocket [] [] false []) = (Undef OutOfFuel, s').
Proof. apply blocking_read_spins; [|reflexivity]. split; [reflexivity|]. apply not_elem_of_nil. Defined.

(** A header in two pieces: the second is written over the first, and the length read
    is another one. *)
Example header_in_two_pieces :
  ReadPacket 9 (repeat NUL 4) (mkSocket (packet (lit "abc")) [] false [Ready 0; Ready 2])
  = (Ret (Some []), mkSocket (lit "abc") [] false []).
Proof. vm_compute. reflexivity. Qed.

(** A header of which three bytes go out: the packet is cut short and the call goes on. *)
Example header_half_written :
  WritePacket (lit "abc") (mkSocket [] [] false [Ready 2])
  = (Ret 3%Z, mkSocket [] [z2b 3; NUL; NUL; z2b 97; z2b 98; z2b 99] false []).
Proof. vm_compute. reflexivity. Qed.
End Examples.
