(* ===== verification/Random.v ===== *)
(** * Random numbers (src/bitdb/utils/random.h)

    The engines draw 32-bit numbers; what the class makes of a draw. *)

From S2P Require Import Prelude.

Section random.
(** The state of [rand()] and of the engine together, and a draw from each. *)
Context {rng : Type} (rand engine : rng -> Z * rng).

Record Random := mkRandom { simple_mode_ : bool; state : rng }.

Definition set_state (r : Random) (g : rng) : Random := mkRandom (simple_mode_ r) g.

Definition GetSimpleRandomNum (r : Random) : Z * Random := let '(v, g) := rand (state r) in (u32 v, set_state r g).
Definition GetRandomNum (r : Random) : Z * Random := let '(v, g) := engine (state r) in (u32 v, set_state r g).
Definition Next (r : Random) : Z * Random := if simple_mode_ r then GetSimpleRandomNum r else GetRandomNum r.

(** [Next() % n] with an [int] [n]: in unsigned arithmetic; no value for 0. *)
Definition Uniform (n : Z) (r : Random) : option (Z * Random) :=
  if decide (u32 n = 0)%Z then None else let '(v, r) := Next r in Some (v mod u32 n, r)%Z.

(** [end - begin] in [int], the sum in unsigned arithmetic. *)
Definition UniformRange (begin end_ : Z) (r : Random) : option (Z * Random) :=
  if decide (-2 ^ 31 <= end_ - begin < 2 ^ 31)%Z
  then '(v, r) ← Uniform (end_ - begin) r; Some (u32 (begin + v), r)
  else None.

Definition OneIn (n : Z) (r : Random) : option (bool * Random) :=
  '(v, r) ← Uniform n r; Some (bool_decide (v = 0)%Z, r).

(** [1 << Uniform(max_log + 1)]: a shift of an [int] by less than 31. *)
Definition Skewed (max_log : Z) (r : Random) : option (Z * Random) :=
  '(b, r) ← Uniform (max_log + 1) r;
  if decide (b < 31)%Z then Uniform (2 ^ b) r else None.

Lemma Uniform_bounds n r : (0 < n < 2 ^ 31)%Z -> exists v r', Uniform n r = Some (v, r') /\ (0 <= v < n)%Z.
Proof.
  intros Hn. unfold Uniform. assert (u32 n = n) as -> by (apply Z.mod_small; lia). rewrite decide_False by lia.
  destruct (Next r) as [v r']. eexists _, _. split; [done|]. apply Z.mod_pos_bound. lia.
Qed.
End random.

(** Draws are in the ranges the comments give, for every engine: Uniform(n) in
    [0, n-1], UniformRange(b, e) in [b, e-1] when read back as an [int], Skewed(m) in
    [0, 2^m - 1] for m up to 30. *)
Lemma random_ranges {rng} (rand engine : rng -> Z * rng) (r : Random) n b e m :
  (0 < n < 2 ^ 31)%Z -> (-2 ^ 31 <= b < e)%Z -> (e < 2 ^ 31)%Z -> (e - b < 2 ^ 31)%Z -> (0 <= m <= 30)%Z ->
  (exists v r', Uniform rand engine n r = Some (v, r') /\ (0 <= v < n)%Z)
  /\ (exists v r', UniformRange rand engine b e r = Some (v, r') /\ (b <= s32 v < e)%Z)
  /\ (exists v r', Skewed rand engine m r = Some (v, r') /\ (0 <= v < 2 ^ m)%Z).
Proof.
  intros Hn Hb He Hd Hm. split_and!; [by apply Uniform_bounds|..].
  - unfold UniformRange. rewrite decide_True by lia.
    destruct (Uniform_bounds rand engine (e - b) r) as (v & r' & -> & Hv); [lia|]. simpl.
    eexists _, _. split; [done|]. unfold s32, u32. rewrite Zplus_mod_idemp_l.
    rewrite Z.mod_small by lia. lia.
  - unfold Skewed. destruct (Uniform_bounds rand engine (m + 1) r) as (k & r' & -> & Hk); [lia|]. simpl.
    rewrite decide_True by lia. assert (0 < 2 ^ k)%Z by (apply Z.pow_pos_nonneg; lia).
    assert (2 ^ k <= 2 ^ m)%Z by (apply Z.pow_le_mono_r; lia). assert (2 ^ m <= 2 ^ 30)%Z by (apply Z.pow_le_mono_r; lia).
    destruct (Uniform_bounds rand engine (2 ^ k) r') as (v & r2 & -> & Hv); [lia|].
    eexists _, _. split; [done|]. lia.
Qed.

Module Examples.

(** The engine of the GNU library: x := 16807 x mod (2^31 - 1). *)
Definition minstd (g : Z) : Z * Z := let g := (g * 16807 mod (2 ^ 31 - 1))%Z in (g, g).

Lemma random_ranges_witness : exists v r', UniformRange minstd minstd 150 300 (mkRandom false 1%Z) = Some (v, r') /\ (150 <= s32 v < 300)%Z.
Proof. apply (random_ranges minstd minstd (mkRandom false 1%Z) 1 150 300 0); lia. Defined.

Example third_draw :
  (fst <$> UniformRange minstd minstd (-5) 5 (mkRandom true 1%Z)) = Some (2 : Z)
  /\ Uniform minstd minstd 0 (mkRandom true 1%Z) = None.
Proof. vm_compute. done. Qed.
End Examples.
