(* ===== verification/SerializerTypes.v ===== *)
(** * Which [serialize] a type gets (src/bitdb/codec/type_helper.h, serializer.h)

    The overloads of [serialize] and [deserialize] are chosen at compile time,
    from traits of the argument's type.  The types are data here ([ctype], with
    the values of a type in [interp]), the traits are boolean functions on them,
    and a call to [serialize] for a type has an instance ([serialize_instance])
    or does not compile.  Pointers, and classes that convert to a type with an
    overload, are left out. *)

From S2P Require Import Prelude Serializer.

(** ** Types *)

Inductive width := W8 | W16 | W32 | W64.

(** [sizeof], less one. *)
Definition width_pred (w : width) : nat :=
  match w with W8 => 0 | W16 => 1 | W32 => 3 | W64 => 7 end.
Definition width_bytes (w : width) : nat := S (width_pred w).

Inductive container := Vector | Deque | List | ForwardList.

(** A class has the members it declares, and its [serialize] and [deserialize]
    run through its fields in their order. *)
Record members := mkMembers {
  declares_serialize : bool; declares_deserialize : bool; declares_size : bool
}.

Inductive ctype :=
| TUnsigned (w : width)
| TSigned (w : width)
| TFloat (w : width)
| TBool
| TString
| TSequence (k : container) (t : ctype)
| TMap (key value : ctype)
| TTuple (ts : ctypes)
| TClass (m : members) (fields : ctypes)
| TEnum (w : width)
with ctypes :=
| TNil
| TCons (t : ctype) (ts : ctypes).

Scheme ctype_mut := Induction for ctype Sort Prop
  with ctypes_mut := Induction for ctypes Sort Prop.
Combined Scheme ctype_ctypes_ind from ctype_mut, ctypes_mut.

(** A floating-point number is held as its bit pattern, an enumerator as its
    number, a map as its entries in key order. *)
Fixpoint interp (t : ctype) : Type :=
  match t with
  | TUnsigned _ | TSigned _ | TFloat _ | TEnum _ => Z
  | TBool => bool
  | TString => bytes
  | TSequence _ t => list (interp t)
  | TMap k v => list (interp k * interp v)
  | TTuple ts | TClass _ ts => interps ts
  end
with interps (ts : ctypes) : Type :=
  match ts with
  | TNil => unit
  | TCons t ts => interp t * interps ts
  end.

(** What [resize] and a declaration without initialiser in braces make. *)
Fixpoint value_init (t : ctype) : interp t :=
  match t with
  | TUnsigned _ | TSigned _ | TFloat _ | TEnum _ => 0%Z
  | TBool => false
  | TString => []
  | TSequence _ _ => []
  | TMap _ _ => []
  | TTuple ts | TClass _ ts => values_init ts
  end
with values_init (ts : ctypes) : interps ts :=
  match ts with
  | TNil => tt
  | TCons t ts => (value_init t, values_init ts)
  end.

(** ** Traits *)

Inductive method := MSerialize | MDeserialize | MSize.

(** [has_method_serialize<T, Serializer*>] and its two companions: whether the
    call [declval<T>().method(...)] is well formed. *)
Definition has_method (m : method) (t : ctype) : bool :=
  match m, t with
  | MSerialize, TClass ms _ => declares_serialize ms
  | MDeserialize, TClass ms _ => declares_deserialize ms
  | MSize, TClass ms _ => declares_size ms
  | MSize, (TString | TMap _ _) => true
  | MSize, TSequence k _ => match k with ForwardList => false | _ => true end
  | _, _ => false
  end.

Definition HasSerializeMethod (t : ctype) : bool := has_method MSerialize t.
Definition HasDeserializeMethod (t : ctype) : bool := has_method MDeserialize t.
Definition HasSizeMethod (t : ctype) : bool := has_method MSize t.

Definition IsSequenceContainerType (t : ctype) : bool :=
  match t with
  | TSequence Vector _ => true
  | TSequence Deque _ => true
  | TSequence List _ => true
  | TSequence ForwardList _ => true
  | _ => false
  end.

(** [std::is_arithmetic_v]. *)
Definition is_arithmetic (t : ctype) : bool :=
  match t with TUnsigned _ | TSigned _ | TFloat _ | TBool => true | _ => false end.

(** ** Overloads *)

Inductive overload :=
| ByArithmetic | ByMethod | ByString | BySequence | ByMap | ByTuple.

(** The overloads of the class, in their order. *)
Definition overloads : list overload :=
  [ByArithmetic; ByMethod; ByString; BySequence; ByMap; ByTuple].

Inductive direction := Serializing | Deserializing.

(** An overload takes part when its [enable_if] holds and its parameter can be
    deduced. *)
Definition viable (d : direction) (t : ctype) (o : overload) : bool :=
  match o with
  | ByArithmetic => is_arithmetic t
  | ByMethod => has_method (match d with Serializing => MSerialize | Deserializing => MDeserialize end) t
  | ByString => match t with TString => true | _ => false end
  | BySequence => IsSequenceContainerType t
  | ByMap => match t with TMap _ _ => true | _ => false end
  | ByTuple => match t with TTuple _ => true | _ => false end
  end.

Definition candidates (d : direction) (t : ctype) : list overload :=
  List.filter (viable d t) overloads.

(** The overload of a call: one candidate, or the call does not compile. *)
Definition resolve (d : direction) (t : ctype) : option overload :=
  match candidates d t with [o] => Some o | _ => None end.

(** ** The instances *)

(** The count of a container: [size()] cut to 32 bits, or counted one by one
    where there is none. *)
Definition count {A} (has_size : bool) (v : list A) : Z :=
  if has_size then u32 (Z.of_nat (length v)) else foldl (fun n _ => u32 (n + 1)%Z) 0%Z v.

Definition sequence_serialize {A} (has_size : bool) (f : A -> Serializer -> Serializer)
    (v : list A) (s : Serializer) : Serializer :=
  foldl (fun s x => f x s) (serialize uint32_ (count has_size v) s) v.

(** The instance of [serialize] for a type; [None] is a compile error. *)
Fixpoint serialize_instance (t : ctype) : option (interp t -> Serializer -> Serializer) :=
  match t with
  | TUnsigned w | TFloat w => Some (serialize (unsigned_ (width_bytes w)))
  | TSigned w => Some (serialize (signed_ (width_bytes w)))
  | TBool => Some (serialize bool_)
  | TString => Some (serialize string_)
  | TSequence k t =>
      f ← serialize_instance t; Some (sequence_serialize (has_method MSize (TSequence k t)) f)
  | TMap k v =>
      f ← serialize_instance k; g ← serialize_instance v;
      Some (map_serialize (mkCodec f mret) (mkCodec g mret))
  | TTuple ts => serialize_instances ts
  | TClass m ts => if declares_serialize m then serialize_instances ts else None
  | TEnum _ => None
  end
with serialize_instances (ts : ctypes) : option (interps ts -> Serializer -> Serializer) :=
  match ts with
  | TNil => Some (fun _ s => s)
  | TCons t ts =>
      f ← serialize_instance t; g ← serialize_instances ts;
      Some (fun v s => g v.2 (f v.1 s))
  end.

Definition is_vector_bool (k : container) (t : ctype) : bool :=
  match k, t with Vector, TBool => true | _, _ => false end.

(** The instance of [deserialize].  The one for maps calls [deserialize(key)] on
    an object where a pointer is expected; the one for [std::vector<bool>] binds
    the proxies the container yields to a [bool&]: neither compiles. *)
Fixpoint deserialize_instance (t : ctype) : option (interp t -> SerM (interp t)) :=
  match t with
  | TUnsigned w | TFloat w => Some (deserialize (unsigned_ (width_bytes w)))
  | TSigned w => Some (deserialize (signed_ (width_bytes w)))
  | TBool => Some (deserialize bool_)
  | TString => Some (deserialize string_)
  | TSequence k t =>
      f ← deserialize_instance t;
      if is_vector_bool k t then None
      else Some (deserialize (sequence_ (value_init t) (mkCodec (fun _ s => s) f)))
  | TMap _ _ => None
  | TTuple ts => deserialize_instances ts
  | TClass m ts => if declares_deserialize m then deserialize_instances ts else None
  | TEnum _ => None
  end
with deserialize_instances (ts : ctypes) : option (interps ts -> SerM (interps ts)) :=
  match ts with
  | TNil => Some (fun old => mret old)
  | TCons t ts =>
      f ← deserialize_instance t; g ← deserialize_instances ts;
      Some (fun old => x ← f old.1; y ← g old.2; mret (x, y))
  end.

(** ** The values of a type and their bytes *)

Fixpoint has_type (t : ctype) : interp t -> Prop :=
  match t with
  | TUnsigned w | TFloat w => fits_unsigned (width_bytes w)
  | TSigned w => fits_signed (width_bytes w)
  | TEnum w => fits_signed (width_bytes w)
  | TBool => fun _ => True
  | TString => string_wf
  | TSequence _ t => sequence_wf (has_type t)
  | TMap k v => fun m =>
      (Z.of_nat (length m) < 2 ^ 64)%Z /\ Forall (fun kv => has_type k kv.1 /\ has_type v kv.2) m
  | TTuple ts | TClass _ ts => have_types ts
  end
with have_types (ts : ctypes) : interps ts -> Prop :=
  match ts with
  | TNil => fun _ => True
  | TCons t ts => fun v => has_type t v.1 /\ have_types ts v.2
  end.

Fixpoint encoding (t : ctype) : interp t -> bytes :=
  match t with
  | TUnsigned w | TSigned w | TFloat w | TEnum w => le_bytes (width_bytes w)
  | TBool => bool_enc
  | TString => string_enc
  | TSequence _ t => sequence_enc (encoding t)
  | TMap k v => fun m =>
      le_bytes 8 (Z.of_nat (length m)) ++ mjoin ((fun kv => encoding k kv.1 ++ encoding v kv.2) <$> m)
  | TTuple ts | TClass _ ts => encodings ts
  end
with encodings (ts : ctypes) : interps ts -> bytes :=
  match ts with
  | TNil => fun _ => []
  | TCons t ts => fun v => encoding t v.1 ++ encodings ts v.2
  end.

(** ** Counting and resolving *)

Lemma count_length {A} has_size (v : list A) : count has_size v = u32 (Z.of_nat (length v)).
Proof.
  destruct has_size; [done|]. unfold count.
  induction v as [|x v IH] using rev_ind; [done|].
  rewrite foldl_app, IH, length_app, Nat2Z.inj_add. simpl. unfold u32.
  by rewrite Zplus_mod_idemp_l.
Qed.

Lemma candidates_at_most_one d t : length (candidates d t) <= 1.
Proof.
  destruct t as [| | | | |[]| | |[[] [] []]|]; destruct d; cbn; lia.
Qed.

Lemma serialize_instance_resolves t :
  is_Some (serialize_instance t) -> is_Some (resolve Serializing t).
Proof.
  destruct t as [| | | | |[]| | |[[] ? ?]|]; cbn; eauto; by intros [? [=]].
Qed.

Lemma deserialize_instance_resolves t :
  is_Some (deserialize_instance t) -> is_Some (resolve Deserializing t).
Proof.
  destruct t as [| | | | |[]| | |[? [] ?]|]; cbn; eauto; by intros [? [=]].
Qed.

(** ** What is written *)

Lemma emit_nil s : emit [] s = s.
Proof. unfold emit. rewrite app_nil_r. by destruct s. Qed.

Lemma emit_foldl {A} (f : A -> Serializer -> Serializer) enc v s :
  (forall a s, f a s = emit (enc a) s) ->
  foldl (fun s x => f x s) s v = emit (mjoin (enc <$> v)) s.
Proof.
  intros Hf. revert s. induction v as [|x v IH]; intros s; cbn; [by rewrite emit_nil|].
  by rewrite IH, Hf, emit_emit.
Qed.

Lemma serialize_instance_emits :
  (forall t f, serialize_instance t = Some f -> forall a s, f a s = emit (encoding t a) s) /\
  (forall ts f, serialize_instances ts = Some f -> forall a s, f a s = emit (encodings ts a) s).
Proof.
  apply ctype_ctypes_ind; cbn [serialize_instance serialize_instances].
  - by intros w f [= <-].
  - by intros w f [= <-].
  - by intros w f [= <-].
  - by intros f [= <-].
  - intros f [= <-] a s. exact (serialize_enc (c := string_) a s).
  - intros k t IH f (g & Hg & [= <-])%bind_Some a s. unfold sequence_serialize.
    rewrite (emit_foldl g (encoding t)), count_length, serialize_enc, emit_emit by eauto. done.
  - intros k IHk v IHv f (g & Hg & (h & Hh & [= <-])%bind_Some)%bind_Some a s.
    unfold map_serialize.
    rewrite (emit_foldl (fun kv s => h kv.2 (g kv.1 s))
               (fun kv => encoding k kv.1 ++ encoding v kv.2)).
    + by rewrite (serialize_enc (c := size_t_)), emit_emit.
    + intros [x y] s'. by rewrite (IHk _ Hg), (IHv _ Hh), emit_emit.
  - eauto.
  - intros [[] ? ?] ts IH f Hf; [eauto|done].
  - done.
  - intros f [= <-] a s. by rewrite emit_nil.
  - intros t IH ts IHs f (g & Hg & (h & Hh & [= <-])%bind_Some)%bind_Some a s.
    by rewrite (IH _ Hg), (IHs _ Hh), emit_emit.
Qed.

(** ** What is read *)

Lemma deserialize_each_ext {A} (c d : Codec A) olds :
  deserialize c = deserialize d -> deserialize_each c olds = deserialize_each d olds.
Proof. intros Hd. induction olds as [|o olds IH]; cbn; [done|]. by rewrite Hd, IH. Qed.

Lemma sequence_deserialize_ext {A} dflt (c d : Codec A) old s :
  deserialize c = deserialize d ->
  deserialize (sequence_ dflt c) old s = deserialize (sequence_ dflt d) old s.
Proof.
  intros Hd. cbn [sequence_ deserialize]. unfold mbind, M_bind.
  destruct (deserialize uint32_ 0%Z s) as [[size| |] s']; [|done..].
  by rewrite (deserialize_each_ext c d).
Qed.

(** [g] reads back the values satisfying [wf] from the bytes [enc] gives them. *)
Definition reads_back {A} (g : A -> SerM A) (wf : A -> Prop) (enc : A -> bytes) : Prop :=
  RoundTrip (mkCodec (fun a => emit (enc a)) g) wf enc.

Lemma reads_back_codec {A} (c : Codec A) wf enc :
  RoundTrip c wf enc -> reads_back (deserialize c) wf enc.
Proof. intros [H1 H2]. split; [done|exact H2]. Qed.

Lemma reads_back_sequence {A} dflt (g : A -> SerM A) f wf enc :
  reads_back g wf enc ->
  reads_back (deserialize (sequence_ dflt (mkCodec f g))) (sequence_wf wf) (sequence_enc enc).
Proof.
  intros Hg. pose proof (sequence_roundtrip _ wf enc (RoundTrip0 := Hg) dflt) as [_ H].
  split; [done|]. intros v old p r Hv. cbn [deserialize].
  rewrite (sequence_deserialize_ext _ _ (mkCodec (fun a => emit (enc a)) g)) by done. by apply H.
Qed.

Lemma deserialize_instance_reads :
  (forall t g, deserialize_instance t = Some g -> reads_back g (has_type t) (encoding t)) /\
  (forall ts g, deserialize_instances ts = Some g -> reads_back g (have_types ts) (encodings ts)).
Proof.
  apply ctype_ctypes_ind; cbn [deserialize_instance deserialize_instances].
  - intros w g <-%(inj Some). apply reads_back_codec, unsigned_roundtrip.
  - intros w g <-%(inj Some). apply reads_back_codec, signed_roundtrip.
  - intros w g <-%(inj Some). apply reads_back_codec, unsigned_roundtrip.
  - intros g <-%(inj Some). apply reads_back_codec, bool_roundtrip.
  - intros g <-%(inj Some). apply reads_back_codec, string_roundtrip.
  - intros k t IH g (h & Hh & Hg)%bind_Some. destruct (is_vector_bool k t); [done|].
    apply (inj Some) in Hg as <-. by apply reads_back_sequence, IH.
  - done.
  - eauto.
  - intros [? [] ?] ts IH g Hg; [eauto|done].
  - done.
  - intros g <-%(inj Some). exact (reads_back_codec _ _ _ tuple0_roundtrip).
  - intros t IH ts IHs g (g1 & Hg1 & (g2 & Hg2 & <-%(inj Some))%bind_Some)%bind_Some.
    exact (reads_back_codec _ _ _
             (tuple_roundtrip _ _ _ _ _ _ (RoundTrip0 := IH _ Hg1) (RoundTrip1 := IHs _ Hg2))).
Qed.

(** ** Reading any bytes *)

(** The read position moved over the bytes [b]. *)
Definition consumes (b : bytes) (s s' : Serializer) : Prop :=
  s' = mkSerializer (buffer_ s) (deserialize_pos_ s + length b)
  /\ b `prefix_of` drop (deserialize_pos_ s) (buffer_ s).

Lemma consumes_nil s : consumes [] s s.
Proof. split; [|apply prefix_nil]. destruct s. cbn. by rewrite Nat.add_0_r. Qed.

Lemma consumes_app a b s s1 s2 : consumes a s s1 -> consumes b s1 s2 -> consumes (a ++ b) s s2.
Proof.
  intros [-> [r Hr]] [-> [q Hq]]. cbn [buffer_ deserialize_pos_] in *. split.
  - by rewrite length_app, Nat.add_assoc.
  - exists q. rewrite Hr, <-app_assoc. f_equal. rewrite <-Hq.
    rewrite <-drop_drop, Hr. by rewrite drop_app_length.
Qed.

Lemma take_bytes_consumes n s bs s' :
  take_bytes n s = (Ret bs, s') -> length bs = n /\ consumes bs s s'.
Proof.
  unfold take_bytes. case_decide as Hn; [|done]. intros [= <- <-].
  assert (length (take n (drop (deserialize_pos_ s) (buffer_ s))) = n) as Hl
    by (rewrite length_take, length_drop; lia).
  split; [done|]. split; [by rewrite Hl|]. apply prefix_take.
Qed.

Lemma le_bytes_value bs : le_bytes (length bs) (le_value bs) = bs.
Proof.
  induction bs as [|b bs IH]; [done|]. cbn [length le_bytes le_value].
  pose proof (b2z_range b) as Hb. f_equal.
  - rewrite <-(z2b_b2z b) at 2. unfold z2b. f_equal. unfold u8.
    rewrite Z.mul_comm, Z.mod_add by lia. done.
  - rewrite Z.mul_comm, Z.div_add, Z.div_small by lia. done.
Qed.

(** Whatever [g] returns satisfies [wf], and [g] has read its encoding. *)
Definition reads_only {A} (g : A -> SerM A) (wf : A -> Prop) (enc : A -> bytes) : Prop :=
  forall old s v s', g old s = (Ret v, s') -> wf v /\ consumes (enc v) s s'.

Lemma reads_only_unsigned n : reads_only (deserialize (unsigned_ n)) (fits_unsigned n) (le_bytes n).
Proof.
  intros old s v s' H. cbn [unsigned_ deserialize] in H. minv H.
  apply take_bytes_consumes in Hm as [<- Hc]. injection H as <- <-.
  rewrite le_bytes_value. split; [apply le_value_range|done].
Qed.

Lemma le_bytes_wrap n z : le_bytes n (z - 2 ^ (8 * Z.of_nat n)) = le_bytes n z.
Proof.
  revert z. induction n as [|n IH]; intros z; [done|]. cbn [le_bytes].
  replace (8 * Z.of_nat (S n))%Z with (8 + 8 * Z.of_nat n)%Z by lia.
  rewrite Z.pow_add_r by lia. change (2 ^ 8)%Z with 256%Z. set (w := (2 ^ (8 * Z.of_nat n))%Z).
  replace (z - 256 * w)%Z with (z + (- w) * 256)%Z by lia. f_equal.
  - unfold z2b, u8. by rewrite Z.mod_add.
  - rewrite Z.div_add by lia. exact (IH (z / 256)%Z).
Qed.

Lemma reads_only_signed n :
  reads_only (deserialize (signed_ (S n))) (fits_signed (S n)) (le_bytes (S n)).
Proof.
  intros old s v s' H. cbn [signed_ deserialize] in H. minv H.
  apply take_bytes_consumes in Hm as [Hl Hc]. cbv zeta in H. injection H as <- <-.
  pose proof (le_value_range a) as Hr. rewrite Hl in Hr.
  pose proof (le_bytes_value a) as Ha. rewrite Hl in Ha.
  assert (2 ^ (8 * Z.of_nat (S n)) = 2 * 2 ^ (8 * Z.of_nat (S n) - 1))%Z as Hw
    by (rewrite <-Z.pow_succ_r by lia; f_equal; lia).
  unfold fits_signed. case_decide.
  - rewrite Ha. split; [lia|done].
  - rewrite le_bytes_wrap, Ha. split; [lia|done].
Qed.

Lemma reads_only_bool : reads_only (deserialize bool_) (fun _ => True) bool_enc.
Proof.
  intros old s v s' H. cbn [bool_ deserialize] in H. minv H.
  apply take_bytes_consumes in Hm as [Hl Hc]. split; [done|].
  destruct a as [|b [|]]; try discriminate Hl. clear Hl.
  destruct b; cbn in H; try discriminate H; by injection H as <- <-.
Qed.

Lemma reads_only_string : reads_only (deserialize string_) string_wf string_enc.
Proof.
  intros old s v s' H. cbn [string_ deserialize] in H. minv H.
  apply (reads_only_unsigned 8) in Hm as [Hf Hc].
  case_decide as Hmax; [|done]. minv H. injection Hm as <- <-.
  case_decide as Hsz; [|done]. apply take_bytes_consumes in H as [Hl Hc'].
  unfold fits_unsigned in Hf. assert (Z.of_nat (length v) = a) as Hv by lia.
  unfold string_wf, string_enc. rewrite Hv. split; [done|]. by eapply consumes_app.
Qed.

Lemma reads_only_each {A} (c : Codec A) wf enc : reads_only (deserialize c) wf enc ->
  forall olds s v s', deserialize_each c olds s = (Ret v, s') ->
  length v = length olds /\ Forall wf v /\ consumes (mjoin (enc <$> v)) s s'.
Proof.
  intros Hc. induction olds as [|o olds IH]; intros s v s' H; cbn [deserialize_each] in H.
  - injection H as <- <-. split_and!; [done..|]. apply consumes_nil.
  - minv H. minv H. injection H as <- <-. apply Hc in Hm as [Hw Hm].
    apply IH in Hm0 as (Hl & Hws & Hm0). split_and!; [by cbn; f_equal|by constructor|].
    by eapply consumes_app.
Qed.

Lemma reads_only_sequence {A} dflt (c : Codec A) wf enc : reads_only (deserialize c) wf enc ->
  reads_only (deserialize (sequence_ dflt c)) (sequence_wf wf) (sequence_enc enc).
Proof.
  intros Hc old s v s' H. cbn [sequence_ deserialize] in H. minv H.
  apply (reads_only_unsigned 4) in Hm as [Hf Hm].
  apply (reads_only_each c wf enc Hc) in H as (Hl & Hw & H).
  rewrite length_resize in Hl. unfold fits_unsigned in Hf.
  change (2 ^ (8 * Z.of_nat 4))%Z with (2 ^ 32)%Z in Hf.
  assert (Z.of_nat (length v) = a) as Hv by lia. unfold sequence_wf, sequence_enc. rewrite Hv.
  split; [split; [lia|done]|]. unfold u32. rewrite Z.mod_small by done. by eapply consumes_app.
Qed.

Lemma deserialize_instance_reads_only :
  (forall t g, deserialize_instance t = Some g -> reads_only g (has_type t) (encoding t)) /\
  (forall ts g, deserialize_instances ts = Some g -> reads_only g (have_types ts) (encodings ts)).
Proof.
  apply ctype_ctypes_ind; cbn [deserialize_instance deserialize_instances].
  - intros w g <-%(inj Some). apply reads_only_unsigned.
  - intros w g <-%(inj Some). apply reads_only_signed.
  - intros w g <-%(inj Some). apply reads_only_unsigned.
  - intros g <-%(inj Some). apply reads_only_bool.
  - intros g <-%(inj Some). apply reads_only_string.
  - intros k t IH g (h & Hh & Hg)%bind_Some. destruct (is_vector_bool k t); [done|].
    apply (inj Some) in Hg as <-. by apply reads_only_sequence, IH.
  - done.
  - eauto.
  - intros [? [] ?] ts IH g Hg; [eauto|done].
  - done.
  - intros g <-%(inj Some) old s v s' [= <- <-]. split; [done|]. apply consumes_nil.
  - intros t IH ts IHs g (g1 & Hg1 & (g2 & Hg2 & <-%(inj Some))%bind_Some)%bind_Some old s v s' H.
    minv H. minv H. injection H as <- <-.
    apply (IH _ Hg1) in Hm as [Hw Hm]. apply (IHs _ Hg2) in Hm0 as [Hws Hm0].
    split; [done|]. by eapply consumes_app.
Qed.

(** ** The properties *)

(** C19: deserializing keeps to its type.  A call to [deserialize] for a type is
    never ambiguous, and where it compiles it resolves to one overload.  Whatever
    the bytes in the buffer and whatever the object held, a value it returns is
    a value of the type (each number in its range, each count below its bound),
    and what it has read is the encoding of that value and nothing else. *)
Theorem deserialize_typed t g : deserialize_instance t = Some g ->
  length (candidates Deserializing t) = 1
  /\ forall old s v s', g old s = (Ret v, s') ->
     has_type t v
     /\ buffer_ s' = buffer_ s
     /\ deserialize_pos_ s' = deserialize_pos_ s + length (encoding t v)
     /\ encoding t v `prefix_of` drop (deserialize_pos_ s) (buffer_ s).
Proof.
  intros Hg. split.
  - pose proof (deserialize_instance_resolves t (mk_is_Some _ _ Hg)) as [o Ho].
    unfold resolve in Ho. by destruct (candidates Deserializing t) as [|? [|]].
  - intros old s v s' H.
    by destruct (proj1 deserialize_instance_reads_only t g Hg old s v s' H) as (Hw & -> & Hp).
Qed.

(** C18: for every type that has both directions, what [serialize] appends is
    read back by [deserialize] as the same value, at whatever place of a buffer it
    stands and whatever the object read into held. *)
Theorem serializer_roundtrip t f g :
  serialize_instance t = Some f -> deserialize_instance t = Some g ->
  forall v, has_type t v ->
  exists enc, (forall s, f v s = mkSerializer (buffer_ s ++ enc) (deserialize_pos_ s))
  /\ forall old pre post, g old (mkSerializer (pre ++ enc ++ post) (length pre))
     = (Ret v, mkSerializer (pre ++ enc ++ post) (length pre + length enc)).
Proof.
  intros Hf Hg v Hv. exists (encoding t v). split.
  - intros s. exact (proj1 serialize_instance_emits t f Hf v s).
  - intros old pre post.
    exact (deserialize_enc (RoundTrip := proj1 deserialize_instance_reads t g Hg) v old pre post Hv).
Qed.

(** A class with a string and a number, in a list without [size()], beside a
    double. *)
Definition entry_t : ctype :=
  TClass (mkMembers true true false) (TCons TString (TCons (TSigned W32) TNil)).
Definition message_t : ctype :=
  TTuple (TCons (TSequence ForwardList entry_t) (TCons (TFloat W64) TNil)).
Definition message_v : interp message_t := ([(lit "set", (-7, tt)); (lit "", (3, tt))], (2 ^ 62, tt))%Z.
Definition message_serialize : interp message_t -> Serializer -> Serializer :=
  default (fun _ s => s) (serialize_instance message_t).
Definition message_deserialize : interp message_t -> SerM (interp message_t) :=
  default mret (deserialize_instance message_t).

Example message_reads :
  message_deserialize ([], (0, tt))%Z (Serializer_of (str (message_serialize message_v Serializer_empty)))
  = (Ret message_v, mkSerializer (encoding message_t message_v) 39).
Proof. vm_compute. reflexivity. Qed.

Lemma message_typed : has_type message_t message_v.
Proof.
  split; [split; [by vm_compute|]|split; [by vm_compute|done]].
  repeat constructor; by vm_compute.
Qed.

Lemma deserialize_typed_witness :
  has_type message_t message_v
  /\ deserialize_pos_ (mkSerializer (encoding message_t message_v) 39) = 0 + length (encoding message_t message_v).
Proof.
  destruct (proj2 (deserialize_typed message_t message_deserialize eq_refl) _ _ _ _ message_reads)
    as (H1 & _ & H3 & _).
  split; [exact H1|exact H3].
Defined.

Lemma serializer_roundtrip_witness : exists enc,
  str (message_serialize message_v Serializer_empty) = enc
  /\ message_deserialize ([], (0, tt))%Z (mkSerializer (enc ++ lit "x") 0)
     = (Ret message_v, mkSerializer (enc ++ lit "x") 39).
Proof.
  destruct (serializer_roundtrip message_t message_serialize message_deserialize eq_refl eq_refl
              message_v message_typed) as (enc & H1 & H2).
  exists enc. pose proof (H1 Serializer_empty) as H3. rewrite H3. split; [done|].
  assert (length enc = 39) as Hl by (apply (f_equal (fun s => length (str s))) in H3; by vm_compute in H3).
  pose proof (H2 ([], (0, tt))%Z [] (lit "x")) as H4. rewrite Hl in H4. exact H4.
Defined.

(** No instance of [deserialize] for a map, a [std::vector<bool>] or an
    enumeration compiles; the first two have an instance of [serialize], and a class
    may have one direction only. *)
Lemma deserialize_missing k v w :
  deserialize_instance (TMap k v) = None
  /\ deserialize_instance (TSequence Vector TBool) = None
  /\ is_Some (serialize_instance (TSequence Vector TBool))
  /\ serialize_instance (TEnum w) = None /\ deserialize_instance (TEnum w) = None.
Proof. split_and!; cbn; eauto. Qed.
