(* ===== verification/Reflection.v ===== *)
(** * Names of enumerators (src/bitdb/utils/reflection.h)

    [ReflectEnum<E, V>()] scans the text the compiler gives its own name for the
    name of the enumeration and of the value.  The text is an argument here; gcc
    writes it as [gcc_text]. *)

From S2P Require Import Prelude.

Abbreviation EQUALS := Byte.x3d.
Abbreviation SEMICOLON := Byte.x3b.
Abbreviation COLON := Byte.x3a.
Abbreviation BRACKET := Byte.x5d.

(** A [std::string_view] into the text: its offset, and its length in 64 bits. *)
Record string_view := mkView { sv_offset : nat; sv_size : Z }.

(** What the view shows; [None] when it runs past the text. *)
Definition view (info : bytes) (v : string_view) : option bytes :=
  if decide (Z.of_nat (sv_offset v) + sv_size v <= Z.of_nat (length info))%Z
  then Some (take (Z.to_nat (sv_size v)) (drop (sv_offset v) info)) else None.

Record ReflectionEnumInfo := mkInfo {
  scoped : bool; name : string_view; value_full_name : string_view; value_name : string_view
}.

(** The constructor: [size_t] differences wrap. *)
Definition ReflectionEnumInfo_of (equal1 semicolon equal2 colon end_ : nat) : ReflectionEnumInfo :=
  let len (a b : nat) (c : Z) := u64 (Z.of_nat a - Z.of_nat b - c) in
  let full := mkView (equal2 + 2) (len end_ equal2 2%Z) in
  let scoped := negb (colon =? 0) in
  mkInfo scoped (mkView (equal1 + 2) (len semicolon equal1 2%Z)) full
         (if scoped then mkView (colon + 1) (len end_ colon 1%Z) else full).

Record marks := mkMarks { equal1 : nat; semicolon : nat; equal2 : nat; colon : nat; end_ : nat }.

(** One character of the [switch]. *)
Definition mark (i : nat) (b : byte) (m : marks) : marks :=
  if decide (b = EQUALS) then
    if equal1 m =? 0 then mkMarks i (semicolon m) (equal2 m) (colon m) (end_ m)
    else mkMarks (equal1 m) (semicolon m) i (colon m) (end_ m)
  else if decide (b = SEMICOLON) then mkMarks (equal1 m) i (equal2 m) (colon m) (end_ m)
  else if decide (b = COLON) then mkMarks (equal1 m) (semicolon m) (equal2 m) i (end_ m)
  else if decide (b = BRACKET) then mkMarks (equal1 m) (semicolon m) (equal2 m) (colon m) i
  else m.

(** [for (i = 0; i < len && !end; ++i)]. *)
Fixpoint scan (i : nat) (rest : bytes) (m : marks) : marks :=
  match rest with
  | [] => m
  | b :: rest => if end_ m =? 0 then scan (S i) rest (mark i b m) else m
  end.

Definition ReflectEnum (info : bytes) : ReflectionEnumInfo :=
  let m := scan 0 info (mkMarks 0 0 0 0 0) in
  ReflectionEnumInfo_of (equal1 m) (semicolon m) (equal2 m) (colon m) (end_ m).

(** ** The text *)

(** What gcc writes: the signature, then the template arguments. *)
Definition gcc_text (pre enum_ value : bytes) : bytes :=
  pre ++ lit "[with E = " ++ enum_ ++ lit "; E V = " ++ value ++ lit "]".

(** gcc's signature of [ReflectEnum]. *)
Definition gcc_signature : bytes :=
  lit "constexpr bitdb::ReflectionEnumInfo bitdb::ReflectEnum() ".

(** What gcc and clang write for [ReflectEnum<Color, Color::red>]. *)
Example gcc_color :
  (fun i => (scoped i, view (gcc_text gcc_signature (lit "Color") (lit "Color::red")) <$>
             [name i; value_full_name i; value_name i]))
    (ReflectEnum (gcc_text gcc_signature (lit "Color") (lit "Color::red")))
  = (true, [Some (lit "Color"); Some (lit "Color::red"); Some (lit "red")]).
Proof. vm_compute. reflexivity. Qed.

(** None of the characters that mark the parts. *)
Definition plain (s : bytes) : Prop :=
  Forall (fun b => b <> EQUALS /\ b <> SEMICOLON /\ b <> BRACKET) s.

(** The position of the last colon at or after [i], [c] when there is none. *)
Fixpoint last_colon (i : nat) (s : bytes) (c : nat) : nat :=
  match s with
  | [] => c
  | b :: s => last_colon (S i) s (if decide (b = COLON) then i else c)
  end.

(** ** Scanning *)

Lemma scan_plain s rest i a b c d : plain s ->
  scan i (s ++ rest) (mkMarks a b c d 0)
  = scan (i + length s) rest (mkMarks a b c (last_colon i s d) 0).
Proof.
  intros Hs. revert i d. induction Hs as [|x s (He & Hm & Hb) Hs IH]; intros i d.
  - by rewrite Nat.add_0_r.
  - cbn [app scan length last_colon end_ Nat.eqb].
    replace (i + S (length s)) with (S i + length s) by lia. unfold mark.
    rewrite (decide_False (P := x = EQUALS)), (decide_False (P := x = SEMICOLON)) by done.
    rewrite (decide_False (P := x = BRACKET)) by done.
    destruct (decide (x = COLON)); rewrite <-IH; done.
Qed.

Lemma scan_first_equals i rest b c d :
  scan i ([EQUALS] ++ rest) (mkMarks 0 b c d 0) = scan (S i) rest (mkMarks i b c d 0).
Proof. done. Qed.

Lemma scan_next_equals i rest a b c d : a <> 0 ->
  scan i ([EQUALS] ++ rest) (mkMarks a b c d 0) = scan (S i) rest (mkMarks a b i d 0).
Proof. by destruct a. Qed.

Lemma scan_semicolon i rest a b c d :
  scan i ([SEMICOLON] ++ rest) (mkMarks a b c d 0) = scan (S i) rest (mkMarks a i c d 0).
Proof. done. Qed.

Lemma scan_bracket i a b c d : scan i [BRACKET] (mkMarks a b c d 0) = mkMarks a b c d i.
Proof. done. Qed.

Lemma last_colon_none i s c : COLON ∉ s -> last_colon i s c = c.
Proof.
  revert i c. induction s as [|b s IH]; intros i c Hs; [done|]. cbn.
  apply not_elem_of_cons in Hs as [Hb Hs]. rewrite decide_False by congruence. by apply IH.
Qed.

Lemma last_colon_split i a s c : COLON ∉ s -> last_colon i (a ++ COLON :: s) c = i + length a.
Proof.
  intros Hs. revert i c. induction a as [|b a IH]; intros i c; cbn.
  - rewrite last_colon_none, decide_True by done. lia.
  - rewrite IH. lia.
Qed.

(** The text before the closing bracket. *)
Definition gcc_body (pre enum_ value : bytes) : bytes :=
  pre ++ lit "[with E = " ++ enum_ ++ lit "; E V = " ++ value.

Lemma last_colon_app i a s c : last_colon i (a ++ s) c = last_colon (i + length a) s (last_colon i a c).
Proof.
  revert i c. induction a as [|b a IH]; intros i c; cbn; [by rewrite Nat.add_0_r|].
  rewrite IH. f_equal. lia.
Qed.

(** Where each mark is found. *)
Lemma scan_gcc pre enum_ value : plain pre -> plain enum_ -> plain value ->
  let p := length pre in let e := length enum_ in
  scan 0 (gcc_text pre enum_ value) (mkMarks 0 0 0 0 0)
  = mkMarks (p + 8) (p + e + 10) (p + e + 16) (last_colon 0 (gcc_body pre enum_ value) 0)
            (p + e + length value + 18).
Proof.
  intros Hp He Hv p e. unfold gcc_text, gcc_body. set (cl := last_colon 0 _ 0).
  change (lit "[with E = ") with (lit "[with E " ++ [EQUALS] ++ lit " ") in *.
  change (lit "; E V = ") with ([SEMICOLON] ++ lit " E V " ++ [EQUALS] ++ lit " ") in *.
  change (lit "]") with [BRACKET]. subst cl.
  rewrite !last_colon_app. rewrite <-!app_assoc.
  assert (plain (lit " ")) as H0 by (repeat constructor; discriminate).
  assert (plain (lit "[with E ")) as H1 by (repeat constructor; discriminate).
  assert (plain (lit " E V ")) as H2 by (repeat constructor; discriminate).
  rewrite scan_plain by done. rewrite scan_plain by done.
  rewrite scan_first_equals. rewrite scan_plain by done. rewrite scan_plain by done.
  rewrite scan_semicolon. rewrite scan_plain by done.
  rewrite scan_next_equals by (cbn; lia). rewrite scan_plain by done. rewrite scan_plain by done.
  rewrite scan_bracket.
  assert (forall i c, last_colon i (lit " ") c = c /\ last_colon i (lit "[with E ") c = c
          /\ last_colon i (lit " E V ") c = c /\ last_colon i [EQUALS] c = c
          /\ last_colon i [SEMICOLON] c = c) as Hn by done.
  repeat match goal with |- context [last_colon ?i ?l ?c] =>
    progress rewrite ?(proj1 (Hn i c)), ?(proj1 (proj2 (Hn i c))), ?(proj1 (proj2 (proj2 (Hn i c)))),
      ?(proj1 (proj2 (proj2 (proj2 (Hn i c))))), ?(proj2 (proj2 (proj2 (proj2 (Hn i c))))) end.
  rewrite !length_app. change (length (lit " ")) with 1. change (length [_]) with 1.
  change (length (lit "[with E ")) with 8. change (length (lit " E V ")) with 5. subst p e.
  f_equal; try lia. f_equal; [lia|]. f_equal. lia.
Qed.

(** ** What the views show *)

Lemma view_parts a b c (n : Z) : n = Z.of_nat (length b) ->
  view (a ++ b ++ c) (mkView (length a) n) = Some b.
Proof.
  intros ->. unfold view. cbn [sv_offset sv_size].
  rewrite decide_True by (rewrite !length_app; lia).
  by rewrite Nat2Z.id, drop_app_length, take_app_length.
Qed.

Section gcc.
Context (pre enum_ value : bytes).
Context (Hpre : plain pre) (Henum : plain enum_) (Hvalue : plain value).
Context (Hsize : (Z.of_nat (length (gcc_text pre enum_ value)) < 2 ^ 64)%Z).
Let info := gcc_text pre enum_ value.
Let c := last_colon 0 (gcc_body pre enum_ value) 0.

Lemma gcc_text_length :
  length (gcc_text pre enum_ value) = length pre + length enum_ + length value + 19.
Proof. unfold gcc_text. rewrite !length_app. cbn. lia. Qed.

Lemma u64_difference (a b : nat) k d : a <= length info -> (0 <= k)%Z ->
  (Z.of_nat a - Z.of_nat b - k = Z.of_nat d)%Z -> u64 (Z.of_nat a - Z.of_nat b - k) = Z.of_nat d.
Proof. intros Ha Hk Hd. rewrite Hd. apply Z.mod_small. unfold info in Ha. lia. Qed.

Lemma gcc_name : view info (name (ReflectEnum info)) = Some enum_.
Proof.
  unfold ReflectEnum, info. rewrite scan_gcc by done. cbn [equal1 semicolon equal2 colon end_].
  unfold ReflectionEnumInfo_of. cbn [name]. unfold gcc_text. rewrite app_assoc.
  replace (length pre + 8 + 2) with (length (pre ++ lit "[with E = "))
    by (rewrite length_app; cbn; lia).
  apply view_parts. apply u64_difference; [unfold info; rewrite gcc_text_length; lia|lia..].
Qed.

Lemma gcc_value_full_name : view info (value_full_name (ReflectEnum info)) = Some value.
Proof.
  unfold ReflectEnum, info. rewrite scan_gcc by done. cbn [equal1 semicolon equal2 colon end_].
  unfold ReflectionEnumInfo_of. cbn [value_full_name]. unfold gcc_text. rewrite !app_assoc.
  rewrite <-(app_assoc _ value (lit "]")).
  replace (length pre + length enum_ + 16 + 2)
    with (length (((pre ++ lit "[with E = ") ++ enum_) ++ lit "; E V = "))
    by (rewrite !length_app; cbn; lia).
  apply view_parts. apply u64_difference; [unfold info; rewrite gcc_text_length; lia|lia..].
Qed.

(** The value's name is what follows the last colon before the bracket, wherever
    that colon stands. *)
Lemma gcc_value_name_colon a s : a <> [] -> COLON ∉ s -> gcc_body pre enum_ value = a ++ COLON :: s ->
  scoped (ReflectEnum info) = true /\ view info (value_name (ReflectEnum info)) = Some s.
Proof.
  intros Ha Hs Hb. unfold ReflectEnum, info. rewrite scan_gcc by done.
  cbn [equal1 semicolon equal2 colon end_].
  rewrite Hb, last_colon_split by done. unfold ReflectionEnumInfo_of. cbn [scoped value_name].
  assert ((0 + length a =? 0) = false) as -> by (destruct a; [done|reflexivity]). cbn [negb].
  split; [done|].
  assert (gcc_text pre enum_ value = (a ++ [COLON]) ++ s ++ lit "]") as Ht.
  { rewrite <-app_assoc. cbn [app]. rewrite (app_comm_cons s (lit "]") COLON), app_assoc, <-Hb.
    unfold gcc_text, gcc_body. by rewrite <-!app_assoc. }
  pose proof gcc_text_length as Hl. pose proof Ht as Ht'. apply (f_equal length) in Ht'.
  rewrite Hl, !length_app in Ht'. cbn [length lit String.list_byte_of_string] in Ht'.
  change (length (lit "]")) with 1 in Ht'. rewrite Ht.
  replace (0 + length a + 1) with (length (a ++ [COLON])) by (rewrite length_app; cbn; lia).
  apply view_parts. apply u64_difference; [unfold info; rewrite gcc_text_length; lia|lia..].
Qed.

Lemma gcc_value_name_plain : COLON ∉ gcc_body pre enum_ value ->
  scoped (ReflectEnum info) = false /\ view info (value_name (ReflectEnum info)) = Some value.
Proof.
  intros Hc. pose proof gcc_value_full_name as Hf. revert Hf. unfold ReflectEnum, info.
  rewrite scan_gcc by done. cbn [equal1 semicolon equal2 colon end_].
  rewrite last_colon_none by done. done.
Qed.
End gcc.

(** The names of an enumerator of a scoped enumeration, out of the text gcc
    gives: the enumeration's, the value's, and the value's without its scope. *)
Lemma reflect_scoped pre enum_ scope v :
  plain pre -> plain enum_ -> plain (scope ++ COLON :: v) -> COLON ∉ v ->
  let info := gcc_text pre enum_ (scope ++ COLON :: v) in
  (Z.of_nat (length info) < 2 ^ 64)%Z ->
  let r := ReflectEnum info in
  scoped r = true /\ view info (name r) = Some enum_
  /\ view info (value_full_name r) = Some (scope ++ COLON :: v)
  /\ view info (value_name r) = Some v.
Proof.
  intros Hp He Hv Hc info Hs r.
  destruct (gcc_value_name_colon pre enum_ (scope ++ COLON :: v) Hp He Hv Hs
              (pre ++ lit "[with E = " ++ enum_ ++ lit "; E V = " ++ scope) v) as [H1 H2].
  { intros H. apply (f_equal length) in H. rewrite !length_app in H. cbn in H. lia. }
  { done. }
  { unfold gcc_body. by rewrite <-!app_assoc. }
  split_and!; [exact H1|by apply gcc_name|by apply gcc_value_full_name|exact H2].
Qed.

(** gcc's signature has colons of its own, so an enumerator without a scope is
    reported as scoped, and the text from the signature on as its name. *)
Lemma reflect_unscoped enum_ value :
  plain enum_ -> plain value -> COLON ∉ enum_ -> COLON ∉ value ->
  let info := gcc_text gcc_signature enum_ value in
  (Z.of_nat (length info) < 2 ^ 64)%Z ->
  let r := ReflectEnum info in
  scoped r = true
  /\ view info (value_name r)
     = Some (lit "ReflectEnum() [with E = " ++ enum_ ++ lit "; E V = " ++ value).
Proof.
  intros He Hv Ce Cv info Hs r.
  assert (plain gcc_signature) as Hp by (vm_compute; repeat constructor; discriminate).
  apply (gcc_value_name_colon gcc_signature enum_ value Hp He Hv Hs
           (lit "constexpr bitdb::ReflectionEnumInfo bitdb:")).
  - discriminate.
  - rewrite !elem_of_app. intros [Hi|[Hi|[Hi|Hi]]]; try done;
      apply list_elem_of_In in Hi; vm_compute in Hi; intuition discriminate.
  - unfold gcc_body. reflexivity.
Qed.

(** clang separates the template arguments with a comma: without a semicolon the
    length of the name wraps, and the view runs past the text. *)
Example reflect_clang :
  let info := lit "ReflectionEnumInfo bitdb::ReflectEnum() [E = Color, V = Color::red]" in
  view info (name (ReflectEnum info)) = None.
Proof. vm_compute. reflexivity. Qed.
