(* ===== verification/Runtime.v ===== *)
(** * The coroutine runtime (src/bitdb/co/co_thread_pool.cpp, scheduler.cpp, task.h)

    The pool of QueuePools.v and the frames of Coroutine.v put together: the handles on
    the pool's queues are those of the frames, a worker that has taken one enters the
    coroutine and stays in it until it suspends, [co_spawn] in a coroutine is a call of
    the pool that the worker makes, and an event loop that wakes a coroutine up makes
    another.  Each of the two was modelled with an arbitrary other half; here they meet. *)

From S2P Require Import Prelude Threads BlockingQueue QueuePools Coroutine.

(** ** Occurrences *)

Definition occ (h : nat) (l : list nat) : nat := sum_list_with (fun x => if decide (x = h) then 1 else 0) l.

Lemma occ_app h l k : occ h (l ++ k) = occ h l + occ h k.
Proof. apply sum_list_with_app. Qed.

Lemma occ_cons h x l : occ h (x :: l) = occ h [x] + occ h l.
Proof. apply (occ_app h [x] l). Qed.

Lemma occ_delete h l i x : l !! i = Some x -> occ h l = occ h (delete i l) + occ h [x].
Proof.
  revert i. induction l as [|y l IH]; intros [|i] Hi; simplify_eq/=; unfold occ in *; simpl in *; [lia|].
  rewrite (IH _ Hi). lia.
Qed.

Lemma occ_nil l : (forall h, occ h l = 0) -> l = [].
Proof.
  destruct l as [|x l]; [done|]. intros H. specialize (H x). unfold occ in H. simpl in H. by rewrite decide_True in H.
Qed.

Lemma occ_elem h l : 0 < occ h l -> h ∈ l.
Proof.
  unfold occ. induction l as [|x l IH]; simpl; [lia|]. case_decide; [subst; set_solver|].
  intros Hl. specialize (IH Hl). set_solver.
Qed.

Section runtime.
Context {V O X : Type} (v0 : V) (ThisThreadId : nat -> Z).
Abbreviation World := (@World V O X).
Abbreviation QPool := (@QPool nat).

(** A worker: in the pool's loop, or inside [resume()], perhaps in a call of
    [co_spawn]. *)
Inductive place := Outside | Inside (spawning : option nat).

(** [lost]: the handles ScheduleById refused because the pool is stopped. *)
Record Runtime := mkRuntime { pool : QPool; world : World; places : list place; lost : list nat }.

(** The program: a pool, and a task spawned from outside. *)
Definition Runtime_new (n : nat) (steal : bool) (main : Co) : Runtime :=
  let p := QPool_new n n steal in
  mkRuntime (default p (begins (QueuePools.co_spawn 0) p)) (World_new v0 n main) (replicate n Outside) [].

Inductive revent :=
| PoolMoves (e : pevent (Handle := nat)) | Enters (w : nat) | Runs (w : nat) (x : X) | Returns (w : nat) | Arrives (i : nat).

(** What the pool does by itself: calls in flight, workers outside of coroutines,
    notifications, its destructor. *)
Definition pool_only (e : pevent (Handle := nat)) (r : Runtime) : bool :=
  match e with
  | Begins _ => false
  | WorkerTurns w _ => if pworkers_ (pool r) !! w is Some (Resume _) then false else true
  | _ => true
  end.

(** The handle of a call that comes back without having put it on a queue. *)
Definition refused (e : pevent (Handle := nat)) (p p' : QPool) : list nat :=
  if e is CallTurns c _ _ then
    match calls p !! c, calls p' !! c with
    | Some (Schedules (Some h) _), Some (QueuePools.Done false) => [h]
    | _, _ => []
    end
  else [].

(** No call, or one that is not in flight any more. *)
Definition call_over (c : option nat) (p : QPool) : bool :=
  match c ≫= (fun c => calls p !! c) with
  | Some (QueuePools.Done _) | Some QueuePools.AssertFailed | None => true
  | _ => false
  end.

(** [if (handle && !handle.done()) handle.resume();]: the worker enters. *)
Definition enters (w : nat) (r : Runtime) : option Runtime :=
  match pworkers_ (pool r) !! w, places r !! w with
  | Some (Resume it), Some Outside =>
      fr ← heap (world r) !! handle it;
      if done fr then Some (mkRuntime (pool r) (world r) (<[w := Inside None]> (places r)) (lost r)) else
      '(i, _) ← list_find (eq (handle it)) (Coroutine.scheduled (world r));
      W ← cstep v0 ThisThreadId (Take w i) (world r);
      Some (mkRuntime (pool r) W (<[w := Inside None]> (places r)) (lost r))
  | _, _ => None
  end.

(** The coroutine goes on; what it has spawned is handed to the pool. *)
Definition runs (w : nat) (x : X) (r : Runtime) : option Runtime :=
  match places r !! w with
  | Some (Inside c) =>
      if call_over c (pool r) then
        W ← cstep v0 ThisThreadId (Turn w x) (world r);
        match drop (length (Coroutine.scheduled (world r))) (Coroutine.scheduled W) with
        | [] => Some (mkRuntime (pool r) W (places r) (lost r))
        | h :: _ =>
            p ← begins (QueuePools.co_spawn h) (pool r);
            Some (mkRuntime p W (<[w := Inside (Some (length (calls (pool r))))]> (places r)) (lost r))
        end
      else None
  | _ => None
  end.

(** [resume()] comes back when the worker has no coroutine left. *)
Definition returns (w : nat) (r : Runtime) : option Runtime :=
  match places r !! w, workers (world r) !! w with
  | Some (Inside c), Some None =>
      if call_over c (pool r) then
        p ← pstep (WorkerTurns w false) (pool r);
        Some (mkRuntime p (world r) (<[w := Outside]> (places r)) (lost r))
      else None
  | _, _ => None
  end.

(** An event loop gives the pool a handle that waited. *)
Definition arrives (i : nat) (r : Runtime) : option Runtime :=
  h ← parked (world r) !! i;
  W ← cstep v0 ThisThreadId (Wake i) (world r);
  p ← begins (QueuePools.co_spawn h) (pool r);
  Some (mkRuntime p W (places r) (lost r)).

Definition rstep (e : revent) (r : Runtime) : option Runtime :=
  match e with
  | PoolMoves e =>
      if pool_only e r then
        p ← pstep e (pool r);
        Some (mkRuntime p (world r) (places r) (lost r ++ refused e (pool r) p))
      else None
  | Enters w => enters w r
  | Runs w x => runs w x r
  | Returns w => returns w r
  | Arrives i => arrives i r
  end.

(** ** Both halves move as they do alone *)

Lemma rstep_world e r r' : rstep e r = Some r' ->
  world r' = world r \/ exists ce, cstep v0 ThisThreadId ce (world r) = Some (world r').
Proof.
  destruct e as [e|w|w x|w|i]; cbn [rstep].
  - destruct (pool_only e r); [|done]. intros (p & _ & [= <-])%bind_Some. by left.
  - unfold enters. destruct (pworkers_ (pool r) !! w) as [[]|]; try done. destruct (places r !! w) as [[]|]; try done.
    intros (fr & _ & E)%bind_Some. destruct (done fr); [injection E as <-; by left|].
    apply bind_Some in E as ([i y] & _ & (W & HW & [= <-])%bind_Some). right. by eexists.
  - unfold runs. destruct (places r !! w) as [[|c]|]; try done. destruct (call_over c (pool r)); [|done].
    intros (W & HW & E)%bind_Some. right. exists (Turn w x).
    destruct (drop _ _); [by injection E as <-|]. by apply bind_Some in E as (p & _ & [= <-]).
  - unfold returns. destruct (places r !! w) as [[|c]|]; try done. destruct (workers (world r) !! w) as [[]|]; try done.
    destruct (call_over c (pool r)); [|done]. intros (p & _ & [= <-])%bind_Some. by left.
  - intros (h & _ & (W & HW & (p & _ & [= <-])%bind_Some)%bind_Some)%bind_Some. right. by eexists.
Qed.

Lemma rstep_pool e r r' : rstep e r = Some r' -> pool r' = pool r \/ exists pe, pstep pe (pool r) = Some (pool r').
Proof.
  destruct e as [e|w|w x|w|i]; cbn [rstep].
  - destruct (pool_only e r); [|done]. intros (p & Hp & [= <-])%bind_Some. right. by eexists.
  - unfold enters. destruct (pworkers_ (pool r) !! w) as [[]|]; try done. destruct (places r !! w) as [[]|]; try done.
    intros (fr & _ & E)%bind_Some. left. destruct (done fr); [by injection E as <-|].
    by apply bind_Some in E as ([i y] & _ & (W & HW & [= <-])%bind_Some).
  - unfold runs. destruct (places r !! w) as [[|c]|]; try done. destruct (call_over c (pool r)); [|done].
    intros (W & HW & E)%bind_Some. destruct (drop _ _) as [|h t]; [injection E as <-; by left|].
    apply bind_Some in E as (p & Hp & [= <-]). right. by exists (Begins (QueuePools.co_spawn h)).
  - unfold returns. destruct (places r !! w) as [[|c]|]; try done. destruct (workers (world r) !! w) as [[]|]; try done.
    destruct (call_over c (pool r)); [|done]. intros (p & Hp & [= <-])%bind_Some. right. by eexists.
  - intros (h & _ & (W & HW & (p & Hp & [= <-])%bind_Some)%bind_Some)%bind_Some. right.
    by exists (Begins (QueuePools.co_spawn h)).
Qed.

(** ** Where the ready handles are *)

Definition call_handles (c : call (Handle := nat)) : list nat :=
  match c with
  | Schedules (Some h) _ | Tries h _ | Commits h | CommitsById (Some h) _ => [h]
  | Pushes it => [handle it]
  | _ => []
  end.

Definition held (wp : pworker (Handle := nat) * place) : list nat :=
  match wp with (Resume it, Outside) => [handle it] | _ => [] end.

Definition on_calls (h : nat) (p : QPool) : nat := sum_list_with (fun c => occ h (call_handles c)) (calls p).
Definition on_queues (h : nat) (p : QPool) : nat := sum_list_with (fun q => occ h (handle <$> queue_ q)) (task_queues_ p).
Definition on_workers (h : nat) (ws : list (pworker (Handle := nat))) (pls : list place) : nat :=
  sum_list_with (fun wp => occ h (held wp)) (zip ws pls).
Definition in_pool (h : nat) (p : QPool) (pls : list place) : nat :=
  on_calls h p + on_queues h p + on_workers h (pworkers_ p) pls.

(** The calls of this program are those of [co_spawn]. *)
Definition spawn_call (c : call (Handle := nat)) : Prop :=
  match c with
  | Schedules (Some _) id => id = (-1)%Z
  | Tries _ _ | Pushes _ | QueuePools.Done _ => True
  | _ => False
  end.

Record runtime_ok (r : Runtime) : Prop := {
  rk_pool : qpool_ok (pool r);
  rk_world : exists ths, world_ok v0 (world r) ths;
  rk_workers : length (workers (world r)) = thread_num_ (pool r);
  rk_places : length (places r) = thread_num_ (pool r);
  rk_ready : forall h, occ h (Coroutine.scheduled (world r)) = in_pool h (pool r) (places r) + occ h (lost r);
  rk_outside : forall w, places r !! w = Some Outside -> workers (world r) !! w = Some None;
  rk_inside : forall w c, places r !! w = Some (Inside c) -> exists it, pworkers_ (pool r) !! w = Some (Resume it);
  rk_calls : Forall spawn_call (calls (pool r));
  rk_lost : stopped_ (pool r) = false -> lost r = []
}.

(** One call, one queue, one worker changes. *)
Lemma on_workers_insert h ws pls w a pl b pl' : ws !! w = Some a -> pls !! w = Some pl ->
  on_workers h (<[w := b]> ws) (<[w := pl']> pls) + occ h (held (a, pl)) = on_workers h ws pls + occ h (held (b, pl')).
Proof.
  intros Ha Hp. unfold on_workers. rewrite <-insert_zip_with.
  apply (sum_insert (fun wp => occ h (held wp))). apply lookup_zip_with_Some. eauto.
Qed.

Lemma on_workers_worker h ws pls w a pl b : ws !! w = Some a -> pls !! w = Some pl ->
  on_workers h (<[w := b]> ws) pls + occ h (held (a, pl)) = on_workers h ws pls + occ h (held (b, pl)).
Proof. intros Ha Hp. rewrite <-(on_workers_insert h ws pls w a pl b pl Ha Hp). by rewrite (list_insert_id pls). Qed.

Lemma on_calls_insert h p c a b q : calls p !! c = Some a -> calls q = <[c := b]> (calls p) ->
  on_calls h q + occ h (call_handles a) = on_calls h p + occ h (call_handles b).
Proof. intros Ha Hq. unfold on_calls. rewrite Hq. by apply (sum_insert (fun c => occ h (call_handles c))). Qed.

Lemma on_queues_insert h p i a b q : task_queues_ p !! i = Some a -> task_queues_ q = <[i := b]> (task_queues_ p) ->
  on_queues h q + occ h (handle <$> queue_ a) = on_queues h p + occ h (handle <$> queue_ b).
Proof. intros Ha Hq. unfold on_queues. rewrite Hq. by apply (sum_insert (fun q => occ h (handle <$> queue_ q))). Qed.

(** A worker outside of coroutines goes on; what it holds after it took from a queue. *)
Lemma worker_turn_conserves h w locked p p' pls : length pls = length (pworkers_ p) ->
  (forall c, pls !! w = Some (Inside c) -> exists it, pworkers_ p !! w = Some (Resume it)) ->
  (forall it, pworkers_ p !! w <> Some (Resume it)) ->
  pworker_turn w locked p = Some p' -> in_pool h p' pls = in_pool h p pls /\ calls p' = calls p.
Proof.
  intros Hl Hin Hnr. unfold pworker_turn. destruct (pworkers_ p !! w) as [st|] eqn:Hw; [|done].
  assert (exists pl, pls !! w = Some pl) as [pl Hpl].
  { apply lookup_lt_is_Some_2. rewrite Hl. by apply lookup_lt_Some in Hw. }
  destruct pl as [|c]; [|destruct (Hin c Hpl) as [it [= ->]]; by destruct (Hnr it)].
  assert (forall b, on_workers h (<[w := b]> (pworkers_ p)) pls + occ h (held (st, Outside))
                  = on_workers h (pworkers_ p) pls + occ h (held (b, Outside))) as Hwk
    by (intros b; by apply on_workers_worker).
  destruct st as [i| | | |it|]; try done; [| | |by destruct (Hnr it)].
  - unfold steal_turn. case_decide.
    + intros (q & Hq & E)%bind_Some. unfold try_pop_if in E.
      assert (in_pool h (set_pworker w (Steal (S i)) p) pls = in_pool h p pls) as Hno.
      { unfold in_pool, on_calls, on_queues. simpl. pose proof (Hwk (Steal (S i))). simpl in *. lia. }
      destruct locked; [|by injection E as <-]. destruct (queue_ q) as [|it rest] eqn:Eq; [by injection E as <-|].
      destruct (can_steal it); [|by injection E as <-]. injection E as <-. split; [|done].
      unfold in_pool. simpl. pose proof (Hwk (Resume it)) as H1.
      pose proof (on_queues_insert h p _ q _ (set_pworker w (Resume it) (set_queue ((w + i) mod thread_num_ p)
        (mkQueue rest (qstop_ q) (asleep q) (notify_one_due q) (notify_all_due q)) p)) Hq eq_refl) as H2.
      rewrite Eq, fmap_cons, occ_cons in H2. cbn [queue_] in H2. unfold on_calls. cbn [held calls set_pworker set_queue] in *.
      change (occ h []) with 0 in H1. lia.
    + intros [= <-]. split; [|done]. unfold in_pool, on_calls, on_queues. simpl. pose proof (Hwk PopAt). simpl in *. lia.
  - intros (q & Hq & E)%bind_Some. destruct (pop w q) as [res q'] eqn:Ep. injection E as <-. split; [|done].
    unfold in_pool. simpl. set (b := match res with Item it => Resume it | Ended => CheckStop | Slept => PopSleep end).
    pose proof (Hwk b) as H1.
    pose proof (on_queues_insert h p _ q q' (set_pworker w b (set_queue w q' p)) Hq eq_refl) as H2. subst b.
    change (on_calls h (set_pworker w _ (set_queue w q' p))) with (on_calls h p).
    unfold pop in Ep. destruct (queue_ q) as [|it rest] eqn:Eq; [destruct (qstop_ q)|]; injection Ep as <- <-;
      cbn [held queue_] in *; rewrite ?Eq, ?fmap_cons, ?(occ_cons h (handle it) (handle <$> rest)) in *;
      change (occ h []) with 0 in *; lia.
  - intros [= <-]. split; [|done]. unfold in_pool, on_calls, on_queues. simpl.
    pose proof (Hwk (if stopped_ p then Gone else loop_top (enable_work_steal_ p))) as H1.
    destruct (stopped_ p), (enable_work_steal_ p); simpl in *; lia.
Qed.

(** A call that moves on without a queue. *)
Lemma set_call_conserves h c a st p pls : calls p !! c = Some a ->
  in_pool h (set_call c st p) pls + occ h (call_handles a) = in_pool h p pls + occ h (call_handles st).
Proof.
  intros Ha. unfold in_pool, on_queues. cbn [pworkers_ set_call task_queues_].
  pose proof (on_calls_insert h p c a st (set_call c st p) Ha eq_refl). unfold on_queues in *. lia.
Qed.

(** A call that puts its handle on a queue. *)
Lemma put_conserves h c a it q p pls : calls p !! c = Some a -> call_handles a = [handle it] ->
  task_queues_ p !! queue_no it = Some q ->
  in_pool h (set_call c (QueuePools.Done true) (put it (push it q) p)) pls = in_pool h p pls.
Proof.
  intros Ha Hh Hq. pose proof (set_call_conserves h c a (QueuePools.Done true) (put it (push it q) p) pls Ha) as H1.
  rewrite Hh in H1. unfold in_pool in *.
  pose proof (on_queues_insert h p _ q (push it q) (put it (push it q) p) Hq eq_refl) as H2.
  cbn [queue_ push] in H2. rewrite fmap_app, occ_app in H2. cbn [fmap list_fmap] in H2.
  change (on_calls h (put it (push it q) p)) with (on_calls h p) in *.
  change (pworkers_ (put it (push it q) p)) with (pworkers_ p) in *.
  change (call_handles (QueuePools.Done true)) with (@nil nat) in H1. change (occ h []) with 0 in H1. lia.
Qed.

Lemma call_turn_conserves h c locked k p p' pls : Forall spawn_call (calls p) -> call_turn c locked k p = Some p' ->
  in_pool h p' pls + occ h (refused (CallTurns c locked k) p p') = in_pool h p pls /\ Forall spawn_call (calls p').
Proof.
  intros Hsp. unfold call_turn. destruct (calls p !! c) as [a|] eqn:Ha; [|done].
  pose proof (Forall_lookup_1 _ _ _ _ Hsp Ha) as Hca. assert (c < length (calls p)) as Hlt by by apply lookup_lt_Some in Ha.
  assert (forall st, in_pool h (set_call c st p) pls + occ h (call_handles a) = in_pool h p pls + occ h (call_handles st)) as Hset
    by (intros st; by apply set_call_conserves).
  assert (forall st (q : QPool), calls q = <[c := st]> (calls p) -> calls q !! c = Some st) as Hlk
    by (intros st q ->; by apply list_lookup_insert_eq).
  destruct a as [[h'|] id|h' i|h'|oh id|it|b|]; try done; cbn [spawn_call] in Hca.
  - subst id. intros <-%(inj Some). set (st := ScheduleById (Some h') (-1) k p). unfold refused.
    rewrite Ha, (Hlk st (set_call c st p) eq_refl). specialize (Hset st).
    assert (st = QueuePools.Done false \/ spawn_call st /\ call_handles st = [h'] /\ st <> QueuePools.Done false) as Hst.
    { unfold st, ScheduleById. destruct (stopped_ p); [by left|right]. rewrite decide_True by done.
      by destruct (enable_work_steal_ p). }
    destruct Hst as [->|(H1 & H2 & H3)]; [split; [|by apply Forall_insert]|].
    + cbn [call_handles] in Hset. change (occ h []) with 0 in Hset. lia.
    + split; [|by apply Forall_insert]. rewrite H2 in Hset. cbn [call_handles] in Hset.
      destruct st as [| | | | |[]|]; try done; change (occ h []) with 0; lia.
  - case_decide; intros E.
    + apply bind_Some in E as (q & Hq & E). unfold try_push in E. destruct locked; injection E as <-.
      * unfold refused. rewrite Ha. cbn [occ]. split; [|by apply Forall_insert].
        rewrite Nat.add_0_r. by eapply put_conserves.
      * unfold refused. rewrite Ha. split; [|by apply Forall_insert]. specialize (Hset (Tries h' (S i))). simpl in *. lia.
    + injection E as <-. unfold refused. rewrite Ha. split; [|by apply Forall_insert].
      specialize (Hset (Pushes (mkItem h' (enable_work_steal_ p) (k mod thread_num_ p)))). simpl in *. lia.
  - intros (q & Hq & [= <-])%bind_Some. unfold refused. rewrite Ha. split; [|by apply Forall_insert].
    rewrite Nat.add_0_r. by eapply put_conserves.
Qed.

(** Notifications and the stop flags move no handle. *)
Lemma set_queue_conserves h i q q' p pls : task_queues_ p !! i = Some q -> queue_ q' = queue_ q ->
  in_pool h (set_queue i q' p) pls = in_pool h p pls.
Proof.
  intros Hq E. unfold in_pool, on_calls. cbn [calls set_queue pworkers_].
  pose proof (on_queues_insert h p i q q' (set_queue i q' p) Hq eq_refl) as H. rewrite E in H. lia.
Qed.

Lemma set_pworker_conserves h w a b p pls : pworkers_ p !! w = Some a -> length pls = length (pworkers_ p) ->
  (forall pl, held (a, pl) = held (b, pl)) -> in_pool h (set_pworker w b p) pls = in_pool h p pls.
Proof.
  intros Ha Hl E. destruct (lookup_lt_is_Some_2 pls w) as [pl Hpl]; [rewrite Hl; by apply lookup_lt_Some in Ha|].
  unfold in_pool, on_calls, on_queues. cbn [calls set_pworker pworkers_ task_queues_].
  pose proof (on_workers_worker h _ pls w a pl b Ha Hpl) as H. rewrite (E pl) in H. lia.
Qed.

Lemma notify_one_queue t (q q' : BlockingQueue (@TaskItem nat)) : notify_one t q = Some q' -> queue_ q' = queue_ q.
Proof. unfold notify_one. destruct (notify_one_due q); [done|]. destruct t; case_decide; by intros [= <-]. Qed.

Lemma notify_all_queue (q q' : BlockingQueue (@TaskItem nat)) : notify_all q = Some q' -> queue_ q' = queue_ q.
Proof. unfold notify_all. destruct (notify_all_due q); [done|]. by intros [= <-]. Qed.

Lemma wake_up_queue t (q q' : BlockingQueue (@TaskItem nat)) : wake_up t q = Some q' -> queue_ q' = queue_ q.
Proof. unfold wake_up. case_decide; [|done]. by intros [= <-]. Qed.

Lemma wake_worker_conserves h i q q' p pls : task_queues_ p !! i = Some q -> queue_ q' = queue_ q ->
  pworkers_ p !! i = Some PopSleep -> length pls = length (pworkers_ p) ->
  in_pool h (wake_worker i q' p) pls = in_pool h p pls.
Proof.
  intros Hq E Hw Hl. unfold wake_worker. rewrite (set_pworker_conserves h i PopSleep PopAt) by done.
  by apply (set_queue_conserves h i q).
Qed.

(** The other workers stay in their coroutines. *)
Definition keeps_resumed (p p' : QPool) : Prop :=
  forall w it, pworkers_ p !! w = Some (Resume it) -> pworkers_ p' !! w = Some (Resume it).

Lemma insert_keeps_resumed p p' w a b : pworkers_ p !! w = Some a -> (forall it, a <> Resume it) ->
  pworkers_ p' = <[w := b]> (pworkers_ p) -> keeps_resumed p p'.
Proof.
  intros Ha Hn E w' it Hw'. rewrite E, list_lookup_insert_ne; [done|]. intros ->. simplify_eq. by destruct (Hn it).
Qed.

(** What a move of the pool keeps. *)
Record moved (p p' : QPool) (pls : list place) (gone : list nat) : Prop := {
  mv_ready : forall h, in_pool h p' pls + occ h gone = in_pool h p pls;
  mv_calls : Forall spawn_call (calls p) -> Forall spawn_call (calls p');
  mv_threads : thread_num_ p' = thread_num_ p;
  mv_resumed : keeps_resumed p p';
  mv_stopped : stopped_ p' = false -> stopped_ p = false;
  mv_gone : stopped_ p = false -> gone = []
}.

Lemma moved_quiet p p' pls : (forall h, in_pool h p' pls = in_pool h p pls) -> calls p' = calls p ->
  thread_num_ p' = thread_num_ p -> keeps_resumed p p' -> (stopped_ p' = false -> stopped_ p = false) -> moved p p' pls [].
Proof.
  intros H1 H2 H3 H4 H5. split; try done; [|by rewrite H2]. intros h. rewrite H1. change (occ h []) with 0. lia.
Qed.

Lemma pworker_turn_shape w locked (p p' : QPool) : pworker_turn w locked p = Some p' ->
  (exists b, pworkers_ p' = <[w := b]> (pworkers_ p)) /\ thread_num_ p' = thread_num_ p /\ stopped_ p' = stopped_ p
  /\ calls p' = calls p.
Proof.
  unfold pworker_turn. destruct (pworkers_ p !! w) as [[i| | | |it|]|]; try done.
  - unfold steal_turn. case_decide.
    + intros (q & Hq & E)%bind_Some. destruct (try_pop_if _ _ q) as [[it|] q']; injection E as <-; eauto.
    + intros [= <-]. eauto.
  - intros (q & Hq & E)%bind_Some. destruct (pop w q) as [res q']. injection E as <-. eauto.
  - intros [= <-]. eauto.
  - intros [= <-]. eauto.
Qed.

Lemma worker_moved w locked p p' pls : length pls = length (pworkers_ p) ->
  (forall c, pls !! w = Some (Inside c) -> exists it, pworkers_ p !! w = Some (Resume it)) ->
  (forall it, pworkers_ p !! w <> Some (Resume it)) -> pworker_turn w locked p = Some p' -> moved p p' pls [].
Proof.
  intros Hl Hin Hnr E. destruct (pworker_turn_shape _ _ _ _ E) as ([b Hb] & Ht & Hs & Hc).
  apply moved_quiet; [|done|done| |by rewrite Hs].
  - intros h. by eapply worker_turn_conserves.
  - unfold pworker_turn in E. destruct (pworkers_ p !! w) as [a|] eqn:Ha; [|done].
    eapply insert_keeps_resumed; [done|intros it ->; by destruct (Hnr it)|done].
Qed.

Lemma call_turn_moved c locked k p p' pls : Forall spawn_call (calls p) -> call_turn c locked k p = Some p' ->
  moved p p' pls (refused (CallTurns c locked k) p p').
Proof.
  intros Hsp E. assert (thread_num_ p' = thread_num_ p /\ pworkers_ p' = pworkers_ p /\ stopped_ p' = stopped_ p) as (H1 & H2 & H3).
  { revert E. unfold call_turn. destruct (calls p !! c) as [[]|]; try done; try by intros [= <-].
    - case_decide; [|by intros [= <-]]. intros (q & _ & E)%bind_Some. destruct (try_push _ _ q) as [[] q']; by injection E as <-.
    - by intros (q & _ & [= <-])%bind_Some. }
  split; [|intros _|done| |by rewrite H3|].
  - intros h. by destruct (call_turn_conserves h c locked k p p' pls Hsp E).
  - by destruct (call_turn_conserves 0 c locked k p p' pls Hsp E).
  - intros w it. by rewrite H2.
  - intros Hs. unfold refused. unfold call_turn in E. destruct (calls p !! c) as [a|] eqn:Ha; [|done].
    pose proof (Forall_lookup_1 _ _ _ _ Hsp Ha) as Hca. destruct a as [[h|] id| | | | | |]; try done. simpl in Hca. subst id.
    injection E as <-. cbn [calls set_call]. rewrite list_lookup_insert_eq by by apply lookup_lt_Some in Ha.
    unfold ScheduleById. rewrite Hs. by destruct (enable_work_steal_ p).
Qed.

Lemma Shutdown_moved p p' pls : length pls = length (pworkers_ p) -> QueuePools.Shutdown p = Some p' -> moved p p' pls [].
Proof.
  intros Hl. unfold QueuePools.Shutdown. destruct (stopper_ p) as [|i|i| |]; try done.
  - intros [= <-]. apply moved_quiet; try done; by intros ? ?.
  - destruct (task_queues_ p !! i) as [q|] eqn:Hq; intros [= <-]; apply moved_quiet; try done; try by intros ? ?.
    intros h. by apply (set_queue_conserves h i q).
  - intros (q & Hq & (q' & Hn & (st & Hw & [= <-])%bind_Some)%bind_Some)%bind_Some. apply moved_quiet; try done.
    + intros h. transitivity (in_pool h (set_queue i q' p) pls).
      * apply (set_pworker_conserves h i st (wakes st) (set_queue i q' p)); [done|done|by destruct st].
      * apply (set_queue_conserves h i q); [done|by eapply notify_all_queue].
    + intros w it Hw'. destruct (decide (w = i)) as [->|Hne].
      * simplify_eq. cbn. rewrite list_lookup_insert_eq; [done|]. by apply lookup_lt_Some in Hw.
      * cbn. by rewrite list_lookup_insert_ne.
  - destruct (forallb gone (pworkers_ p)); [|done]. intros [= <-]. apply moved_quiet; try done; by intros ? ?.
Qed.

Lemma pool_moved e r p' : runtime_ok r -> pool_only e r = true -> pstep e (pool r) = Some p' ->
  moved (pool r) p' (places r) (refused e (pool r) p').
Proof.
  intros Hok. assert (length (places r) = length (pworkers_ (pool r))) as Hl
    by (rewrite (rk_places _ Hok); symmetry; apply (pk_workers _ (rk_pool _ Hok))).
  destruct e as [c|c locked k|w locked|i| |w]; cbn [pool_only pstep refused]; intros Hpo E; try done.
  - apply (call_turn_moved _ _ _ _ _ _ (rk_calls _ Hok) E).
  - apply (worker_moved w locked); try done.
    + intros c Hc. by apply (rk_inside _ Hok w c).
    + intros it Hit. by rewrite Hit in Hpo.
  - apply bind_Some in E as (q & Hq & E). destruct (pworkers_ (pool r) !! i) as [a|] eqn:Ha.
    + destruct a; apply bind_Some in E as (q' & Hn & [= <-]); apply notify_one_queue in Hn; apply moved_quiet; try done; try (by intros ? ?);
        try (intros h; by apply (set_queue_conserves h i q)).
      * intros h. by apply (wake_worker_conserves h i q).
      * by eapply insert_keeps_resumed.
    + apply bind_Some in E as (q' & Hn & [= <-]). apply notify_one_queue in Hn. apply moved_quiet; try done; try by intros ? ?.
      intros h. by apply (set_queue_conserves h i q).
  - by apply Shutdown_moved.
  - apply bind_Some in E as (q & Hq & E). destruct (pworkers_ (pool r) !! w) as [[]|] eqn:Ha; try done.
    apply bind_Some in E as (q' & Hn & [= <-]). apply wake_up_queue in Hn. apply moved_quiet; try done.
    + intros h. by apply (wake_worker_conserves h w q).
    + by eapply insert_keeps_resumed.
Qed.

(** ** The invariant *)

(** What a coroutine's turn does to the ready handles and to the other workers. *)
Lemma turn_shape w x (W W' : World) : turn v0 ThisThreadId w x W = Some W' ->
  (Coroutine.scheduled W' = Coroutine.scheduled W \/ exists h, Coroutine.scheduled W' = Coroutine.scheduled W ++ [h])
  /\ length (workers W') = length (workers W) /\ forall w', w' <> w -> workers W' !! w' = workers W !! w'.
Proof.
  assert (forall (l : list (option nat)) b, length (<[w := b]> l) = length l
    /\ forall w', w' <> w -> <[w := b]> l !! w' = l !! w') as Hins.
  { intros l b. split; [apply length_insert|]. intros w' Hne. by apply list_lookup_insert_ne. }
  unfold turn. intros (h & _ & (fr & _ & E)%bind_Some)%bind_Some. destruct (point fr) as [[v| |o c|child k|child c|f]|child k|f|]; try done.
  - apply bind_Some in E as ([nx H] & _ & [= <-]). cbn. auto.
  - apply bind_Some in E as ([nx H] & _ & [= <-]). cbn. auto.
  - injection E as <-. cbn. auto.
  - unfold co_await in E. apply bind_Some in E as (cfr & _ & E). destruct (await_ready cfr); [done|].
    apply bind_Some in E as (H & _ & [= <-]). cbn. auto.
  - apply bind_Some in E as (cfr & _ & [= <-]). cbn. eauto.
  - injection E as <-. cbn. auto.
  - apply bind_Some in E as (v & _ & (H & _ & [= <-])%bind_Some). cbn. auto.
  - injection E as <-. cbn. auto.
Qed.

(** A ready handle is a frame that is not at its end. *)
Lemma ready_alive (W : World) ths h : world_ok v0 W ths -> h ∈ heads W -> exists fr, heap W !! h = Some fr /\ done fr = false.
Proof.
  intros Hok Hin. destruct (find_thread v0 W ths h Hok Hin) as (th & rest & _ & Hhd & Hok').
  pose proof (Forall_inv (ok_threads _ _ _ Hok')) as Hth.
  destruct Hth as [h0 fr0 c ps K Hh0 Hpt Hc|h0 fr0 f ps K Hh0 Hpt Hc|h0 fr0 child cfr k ps K Hh0 Hpt Hc Hch Hfin];
    simpl in Hhd; subst h0; exists fr0; unfold done; by rewrite Hpt.
Qed.

Lemma begins_shape h (p p' : QPool) : begins (QueuePools.co_spawn h) p = Some p' ->
  calls p' = calls p ++ [QueuePools.co_spawn h] /\ task_queues_ p' = task_queues_ p /\ pworkers_ p' = pworkers_ p
  /\ thread_num_ p' = thread_num_ p /\ stopped_ p' = stopped_ p
  /\ forall h' pls, in_pool h' p' pls = in_pool h' p pls + occ h' [h].
Proof.
  intros [= <-]. split_and!; try done. intros h' pls. unfold in_pool, on_calls, on_queues. simpl.
  rewrite sum_list_with_app. simpl. lia.
Qed.

Lemma world_step_ok ce (W W' : World) : (exists ths, world_ok v0 W ths) -> cstep v0 ThisThreadId ce W = Some W' ->
  exists ths, world_ok v0 W' ths.
Proof. intros [ths Hok] E. destruct (cstep_sim _ _ _ _ _ _ Hok E) as (ths' & Hok' & _). by exists ths'. Qed.

Lemma PoolMoves_ok e r r' : runtime_ok r -> rstep (PoolMoves e) r = Some r' -> runtime_ok r'.
Proof.
  intros Hok. cbn [rstep]. destruct (pool_only e r) eqn:Hpo; [|done]. intros (p & Hp & [= <-])%bind_Some.
  pose proof (pool_moved e r p Hok Hpo Hp) as [M1 M2 M3 M4 M5 M6].
  pose proof Hok as [Hpool Hworld Hwk Hpl Hrd Hout Hin Hcl Hlost]. split; cbn [pool world places lost workers Coroutine.scheduled]; rewrite ?M3; try done.
  - by eapply pstep_ok.
  - intros h. rewrite Hrd, occ_app, <-M1. lia.
  - intros w c Hw. destruct (Hin w c Hw) as [it Hit]. exists it. by apply M4.
  - by apply M2.
  - intros Hs%M5. by rewrite (Hlost Hs), (M6 Hs).
Qed.

(** Taking the coroutine of the item in hand. *)
Lemma enters_some w r it : runtime_ok r -> pworkers_ (pool r) !! w = Some (Resume it) -> places r !! w = Some Outside ->
  exists i, Coroutine.scheduled (world r) !! i = Some (handle it)
  /\ enters w r = Some (mkRuntime (pool r)
       (mkWorld (heap (world r)) (next (world r)) (<[w := Some (handle it)]> (workers (world r)))
          (delete i (Coroutine.scheduled (world r))) (parked (world r)) (output (world r)))
       (<[w := Inside None]> (places r)) (lost r)).
Proof.
  intros Hok Hw Hp. pose proof Hok as [Hpool [ths Hworld] Hwk Hpl Hrd Hout Hin Hcl Hlost].
  assert (handle it ∈ Coroutine.scheduled (world r)) as Hel.
  { apply occ_elem. rewrite Hrd. unfold in_pool.
    pose proof (on_workers_worker (handle it) _ _ w _ _ PopAt Hw Hp) as H.
    cbn [held] in H. unfold occ in H at 1 2. simpl in H. rewrite decide_True in H by done. lia. }
  destruct (ready_alive _ _ (handle it) Hworld) as (fr & Hfr & Hd).
  { unfold heads. set_solver. }
  destruct (list_find_elem_of (eq (handle it)) _ (handle it) Hel eq_refl) as [[i y] Hf].
  pose proof Hf as (Hi & <- & _)%list_find_Some. exists i. split; [done|].
  unfold enters. rewrite Hw, Hp, Hfr. simpl. rewrite Hd, Hf. simpl. unfold take_handle. rewrite Hi. simpl.
  by rewrite (Hout w Hp).
Qed.

Lemma Enters_ok w r r' : runtime_ok r -> enters w r = Some r' -> runtime_ok r'.
Proof.
  intros Hok E. assert (exists it, pworkers_ (pool r) !! w = Some (Resume it) /\ places r !! w = Some Outside) as (it & Hw & Hp).
  { unfold enters in E. destruct (pworkers_ (pool r) !! w) as [[]|]; try done. destruct (places r !! w) as [[]|]; try done. eauto. }
  destruct (enters_some w r it Hok Hw Hp) as (i & Hi & E'). rewrite E' in E. injection E as <-.
  pose proof Hok as [Hpool Hworld Hwk Hpl Hrd Hout Hin Hcl Hlost].
  assert (w < length (places r)) as Hlt by by apply lookup_lt_Some in Hp.
  split; cbn [pool world places lost workers Coroutine.scheduled]; rewrite ?length_insert; try done.
  - apply (world_step_ok (Take w i) (world r)); [done|]. cbn. unfold take_handle. rewrite Hi. simpl. by rewrite (Hout w Hp).
  - intros h. specialize (Hrd h). rewrite (occ_delete h _ _ _ Hi) in Hrd. unfold in_pool in *.
    pose proof (on_workers_insert h _ _ w _ _ (Resume it) (Inside None) Hw Hp) as H.
    rewrite (list_insert_id _ _ _ Hw) in H. cbn [held] in H. change (occ h []) with 0 in H. lia.
  - intros w' Hw'. destruct (decide (w' = w)) as [->|Hne].
    + rewrite list_lookup_insert_eq in Hw' by done. done.
    + rewrite list_lookup_insert_ne in Hw' by done. rewrite list_lookup_insert_ne by done. by apply Hout.
  - intros w' c Hw'. destruct (decide (w' = w)) as [->|Hne]; [by exists it|].
    rewrite list_lookup_insert_ne in Hw' by done. by apply (Hin w' c).
Qed.

(** A handle becomes ready: its frame in the world, a call of the pool. *)
Lemma spawns_ok r W p h : runtime_ok r -> (exists ths, world_ok v0 W ths) ->
  length (workers W) = length (workers (world r)) ->
  (forall h', occ h' (Coroutine.scheduled W) = occ h' (Coroutine.scheduled (world r)) + occ h' [h]) ->
  begins (QueuePools.co_spawn h) (pool r) = Some p ->
  (forall w, places r !! w = Some Outside -> workers W !! w = workers (world r) !! w) ->
  runtime_ok (mkRuntime p W (places r) (lost r)).
Proof.
  intros Hok HW Hl Hs Hb H1. pose proof (begins_shape h _ _ Hb) as (B1 & B2 & B3 & B4 & B5 & B6).
  pose proof Hok as [Hpool Hworld Hwk Hpl Hrd Hout Hin Hcl Hlost].
  split; cbn [pool world places lost workers Coroutine.scheduled]; rewrite ?B1, ?B3, ?B4, ?B5, ?Hl; try done.
  - by eapply (begins_ok (QueuePools.co_spawn h)).
  - intros h'. rewrite Hs, Hrd, B6. lia.
  - intros w Hw. rewrite H1 by done. by apply Hout.
  - apply Forall_app_2; [done|]. by apply Forall_singleton.
Qed.

(** The worker notes the call it has made. *)
Lemma place_ok r w c c' : runtime_ok r -> places r !! w = Some (Inside c) ->
  runtime_ok (mkRuntime (pool r) (world r) (<[w := Inside c']> (places r)) (lost r)).
Proof.
  intros Hok Hp. pose proof Hok as [Hpool Hworld Hwk Hpl Hrd Hout Hin Hcl Hlost].
  destruct (Hin w c Hp) as [it Hit]. assert (w < length (places r)) as Hlt by by apply lookup_lt_Some in Hp.
  split; cbn [pool world places lost workers Coroutine.scheduled]; rewrite ?length_insert; try done.
  - intros h. rewrite Hrd. unfold in_pool.
    pose proof (on_workers_insert h _ _ w _ _ (Resume it) (Inside c') Hit Hp) as H.
    rewrite (list_insert_id _ _ _ Hit) in H. cbn [held] in H. lia.
  - intros w' Hw'. destruct (decide (w' = w)) as [->|Hne].
    + by rewrite list_lookup_insert_eq in Hw'.
    + rewrite list_lookup_insert_ne in Hw' by done. by apply Hout.
  - intros w' c0 Hw'. destruct (decide (w' = w)) as [->|Hne]; [by exists it|].
    rewrite list_lookup_insert_ne in Hw' by done. by apply (Hin w' c0).
Qed.

Lemma Runs_ok w x r r' : runtime_ok r -> runs w x r = Some r' -> runtime_ok r'.
Proof.
  intros Hok. unfold runs. destruct (places r !! w) as [[|c]|] eqn:Hp; try done. destruct (call_over c (pool r)); [|done].
  intros (W & HW & E)%bind_Some. cbn [cstep] in HW. pose proof (turn_shape _ _ _ _ HW) as (Hs & Hl & Hother).
  pose proof (world_step_ok (Turn w x) _ _ (rk_world _ Hok) HW) as HWok.
  assert (forall w', places r !! w' = Some Outside -> workers W !! w' = workers (world r) !! w') as Hout.
  { intros w' Hw'. apply Hother. intros ->. congruence. }
  destruct Hs as [Hs|[h Hs]]; rewrite Hs in E.
  - rewrite drop_all in E. injection E as <-.
    pose proof Hok as [Hpool Hworld Hwk Hpl Hrd Hout' Hin Hcl Hlost]. split; cbn [pool world places lost workers Coroutine.scheduled]; rewrite ?Hl, ?Hs; try done.
    intros w' Hw'. rewrite Hout by done. by apply Hout'.
  - rewrite drop_app_length in E. apply bind_Some in E as (p & Hb & [= <-]).
    apply (place_ok (mkRuntime p W (places r) (lost r)) w c); [|done].
    apply (spawns_ok r W p h); try done. intros h'. by rewrite Hs, occ_app.
Qed.

Lemma Returns_ok w r r' : runtime_ok r -> returns w r = Some r' -> runtime_ok r'.
Proof.
  intros Hok. unfold returns. destruct (places r !! w) as [[|c]|] eqn:Hp; try done.
  destruct (workers (world r) !! w) as [[]|] eqn:Hw; try done. destruct (call_over c (pool r)); [|done].
  intros (p & Hb & [= <-])%bind_Some. pose proof Hok as [Hpool Hworld Hwk Hpl Hrd Hout Hin Hcl Hlost].
  destruct (Hin w c Hp) as [it Hit]. assert (w < length (places r)) as Hlt by by apply lookup_lt_Some in Hp.
  pose proof (pstep_ok _ _ _ Hpool Hb) as Hpool'. cbn [pstep] in Hb. unfold pworker_turn in Hb. rewrite Hit in Hb.
  injection Hb as <-. split; cbn [pool world places lost workers Coroutine.scheduled]; rewrite ?length_insert; try done.
  - intros h. rewrite Hrd. unfold in_pool, on_calls, on_queues. cbn [calls task_queues_ pworkers_].
    pose proof (on_workers_insert h _ _ w _ _ (loop_top (enable_work_steal_ (pool r))) Outside Hit Hp) as H.
    destruct (enable_work_steal_ (pool r)); cbn [loop_top held] in *; lia.
  - intros w' Hw'. destruct (decide (w' = w)) as [->|Hne]; [done|].
    rewrite list_lookup_insert_ne in Hw' by done. by apply Hout.
  - intros w' c' Hw'. destruct (decide (w' = w)) as [->|Hne].
    + by rewrite list_lookup_insert_eq in Hw'.
    + rewrite list_lookup_insert_ne in Hw' by done. cbn [pworkers_]. rewrite list_lookup_insert_ne by done. by apply (Hin w' c').
Qed.

Lemma rstep_ok e r r' : runtime_ok r -> rstep e r = Some r' -> runtime_ok r'.
Proof.
  intros Hok. destruct e as [e|w|w x|w|i].
  - by apply PoolMoves_ok.
  - by apply Enters_ok.
  - by apply Runs_ok.
  - by apply Returns_ok.
  - intros (h & Hh & (W & HW & (p & Hb & [= <-])%bind_Some)%bind_Some)%bind_Some.
    pose proof (world_step_ok (Wake i) _ _ (rk_world _ Hok) HW) as HWok. cbn in HW. unfold wake_handle in HW.
    rewrite Hh in HW. injection HW as <-. apply (spawns_ok r _ p h); try done.
    intros h'. cbn [Coroutine.scheduled]. by rewrite occ_app.
Qed.

Lemma Runtime_new_ok n steal main : 0 < n -> runtime_ok (Runtime_new n steal main).
Proof.
  intros Hn. set (p0 := QPool_new n n steal : QPool).
  assert (begins (QueuePools.co_spawn 0) p0 = Some (pool (Runtime_new n steal main))) as Hb by done.
  pose proof (begins_shape 0 p0 _ Hb) as (B1 & B2 & B3 & B4 & B5 & B6).
  assert (thread_num_ p0 = n) as Hth by (unfold p0, QPool_new; cbn; by rewrite decide_False by lia).
  split; rewrite ?B4, ?Hth; try done.
  - apply (begins_ok (QueuePools.co_spawn 0) p0); [by apply QPool_new_ok|done].
  - exists [mkThread 0 [0] (flat v0 main FRet)].
    apply (start_ok v0 ThisThreadId (World_new v0 n main) main); [by right| |done]. unfold heads. simpl.
    assert (omap id (replicate n None) = ([] : list nat)) as ->; [|done]. clear. induction n; simpl; done.
  - apply length_replicate.
  - apply length_replicate.
  - intros h. rewrite B6. assert (in_pool h p0 (places (Runtime_new n steal main)) = 0) as ->; [|cbn; lia].
    unfold in_pool, on_calls, on_queues, on_workers. cbn [calls p0 QPool_new task_queues_ pworkers_ sum_list_with places].
    assert (forall {A} (f : A -> nat) l, Forall (fun x => f x = 0) l -> sum_list_with f l = 0) as Hz
      by (intros A f l; apply sum_zero).
    rewrite !Hz; [done|..]; apply Forall_lookup_2.
    + intros i [w pl] (w' & pl' & [= -> ->] & [-> _]%lookup_replicate & [-> _]%lookup_replicate)%lookup_zip_with_Some.
      by destruct steal.
    + by intros i q [-> _]%lookup_replicate.
  - intros w Hw. apply lookup_replicate in Hw as [_ Hw]. by apply lookup_replicate.
  - by intros w c [? _]%lookup_replicate.
  - rewrite B1. by apply Forall_singleton.
Qed.

(** ** Rest *)

(** The pool, the workers and the coroutines they run cannot move; what is left are
    outside events, the destructor, and workers that wake up for no reason. *)
Definition rworks (e : revent) : Prop :=
  match e with
  | PoolMoves (CallTurns _ _ _) | PoolMoves (WorkerTurns _ _) | PoolMoves (QueueNotifies _) => True
  | Enters _ | Runs _ _ | Returns _ => True
  | _ => False
  end.
Definition at_rest (r : Runtime) : Prop := forall e, rworks e -> rstep e r = None.

Lemma pool_at_rest e r : at_rest r -> rworks (PoolMoves e) -> pool_only e r = true -> pstep e (pool r) = None.
Proof.
  intros Hr He Hp. specialize (Hr _ He). cbn [rstep] in Hr. rewrite Hp in Hr. by destruct (pstep e (pool r)).
Qed.

(** A call in flight can move, so nobody waits for one. *)
Lemma rest_call_over r c : runtime_ok r -> at_rest r -> call_over c (pool r) = true.
Proof.
  intros Hok Hr. unfold call_over. destruct c as [i|]; [|done]. cbn. destruct (calls (pool r) !! i) as [a|] eqn:Ha; [|done].
  pose proof (pool_at_rest (CallTurns i false 0) r Hr I eq_refl) as H. cbn [pstep] in H. unfold call_turn in H.
  rewrite Ha in H. pose proof (Forall_lookup_1 _ _ _ _ (rk_calls _ Hok) Ha) as Hca.
  pose proof (Forall_lookup_1 _ _ _ _ (pk_calls _ (rk_pool _ Hok)) Ha) as Hcl.
  destruct a as [[h|] id|h k|h|oh id|it|b|]; try done.
  - case_decide; [|done]. simpl in H. destruct (queue_at (pool r) (k mod thread_num_ (pool r)) (rk_pool _ Hok)) as [q Hq].
    { apply Nat.mod_upper_bound. pose proof (pk_pos _ (rk_pool _ Hok)). lia. }
    by rewrite Hq in H.
  - destruct (queue_at (pool r) (queue_no it) (rk_pool _ Hok)) as [q Hq]; [done|]. by rewrite Hq in H.
Qed.

(** No worker is in a coroutine, or about to enter one. *)
Lemma rest_no_resume `{!Inhabited X} r w it : runtime_ok r -> at_rest r -> pworkers_ (pool r) !! w <> Some (Resume it).
Proof.
  intros Hok Hr Hw. pose proof Hok as [Hpool [ths Hworld] Hwk Hpl Hrd Hout Hin Hcl Hlost].
  destruct (lookup_lt_is_Some_2 (places r) w) as [pl Hp].
  { rewrite Hpl, <-(pk_workers _ Hpool). by apply lookup_lt_Some in Hw. }
  destruct pl as [|c].
  - destruct (enters_some w r it Hok Hw Hp) as (i & _ & E). pose proof (Hr (Enters w) I) as E'. cbn [rstep] in E'. congruence.
  - pose proof (rest_call_over r c Hok Hr) as Hc.
    destruct (lookup_lt_is_Some_2 (workers (world r)) w) as [oh Ho].
    { rewrite Hwk, <-(pk_workers _ Hpool). by apply lookup_lt_Some in Hw. }
    destruct oh as [h|].
    + pose proof (Hr (Runs w inhabitant) I) as E. cbn [rstep] in E. unfold runs in E. rewrite Hp, Hc in E. cbn [cstep] in E.
      destruct (turn_progress v0 ThisThreadId w inhabitant _ _ h Hworld Ho) as [W HW]. rewrite HW in E. simpl in E.
      by destruct (drop _ _).
    + pose proof (Hr (Returns w) I) as E. cbn [rstep] in E. unfold returns in E. rewrite Hp, Ho, Hc in E. cbn [pstep] in E.
      unfold pworker_turn in E. by rewrite Hw in E.
Qed.

Lemma rest_pstuck `{!Inhabited X} r : runtime_ok r -> at_rest r -> stopper_ (pool r) = Running -> pstuck (pool r).
Proof.
  intros Hok Hr Hs. split_and!; [..|by left].
  - intros c locked k. by apply (pool_at_rest (CallTurns c locked k) r).
  - intros w locked. apply (pool_at_rest (WorkerTurns w locked) r Hr I). cbn.
    destruct (pworkers_ (pool r) !! w) as [[]|] eqn:Hw; try done. by destruct (rest_no_resume r w it Hok Hr).
  - intros i. by apply (pool_at_rest (QueueNotifies i) r).
Qed.

Lemma rest_nothing_ready `{!Inhabited X} r : runtime_ok r -> at_rest r -> stopper_ (pool r) = Running ->
  Coroutine.scheduled (world r) = [] /\ (forall w h, workers (world r) !! w <> Some (Some h)).
Proof.
  intros Hok Hr Hs. pose proof (rest_pstuck r Hok Hr Hs) as Hst.
  pose proof Hok as [Hpool Hworld Hwk Hpl Hrd Hout Hin Hcl Hlost]. split.
  - apply occ_nil. intros h. rewrite Hrd, Hlost by (rewrite (pk_stopped _ Hpool), Hs; done).
    unfold in_pool, on_calls, on_queues, on_workers. change (occ h []) with 0.
    assert (forall {A} (f : A -> nat) l, Forall (fun x => f x = 0) l -> sum_list_with f l = 0) as Hz
      by (intros A f l; apply sum_zero).
    rewrite !Hz; [done|..]; apply Forall_lookup_2.
    + intros i [w pl] (w' & pl' & [= -> ->] & Hw' & Hp')%lookup_zip_with_Some.
      destruct w'; try done. by destruct (rest_no_resume r i it Hok Hr).
    + intros i q Hq. destruct (worker_at _ _ _ Hpool Hq) as [w Hw].
      destruct (stuck_pworker _ _ _ _ Hpool Hst Hw Hq) as [->|[_ ->]]; [|done].
      pose proof (pk_slots _ Hpool _ _ _ Hw Hq) as Hsl. destruct (sl_ended _ _ _ _ _ Hsl eq_refl) as [Hx _].
      by rewrite (sl_stop _ _ _ _ _ Hsl), Hs in Hx.
    + intros c a Ha. destruct (stuck_call _ _ _ Hpool Hst Ha) as [->|[b ->]]; done.
  - intros w h Hw. destruct (lookup_lt_is_Some_2 (places r) w) as [pl Hp].
    { rewrite Hpl, <-Hwk. by apply lookup_lt_Some in Hw. }
    destruct pl as [|c]; [rewrite (Hout w Hp) in Hw; done|].
    destruct (Hin w c Hp) as [it Hit]. by destruct (rest_no_resume r w it Hok Hr).
Qed.

(** The run of either half. *)
Lemma rexec_world es r r' : exec rstep es r = Some r' -> exists ces, exec (cstep v0 ThisThreadId) ces (world r) = Some (world r').
Proof.
  revert r. induction es as [|e es IH]; intros r; simpl; [intros [= <-]; by exists []|].
  intros (r1 & E1 & E2)%bind_Some. destruct (IH _ E2) as [ces Hc].
  destruct (rstep_world _ _ _ E1) as [<-|[ce E]]; [by exists ces|]. exists (ce :: ces). simpl. by rewrite E.
Qed.

Lemma rexec_pool es r r' : exec rstep es r = Some r' -> exists pes, exec pstep pes (pool r) = Some (pool r').
Proof.
  revert r. induction es as [|e es IH]; intros r; simpl; [intros [= <-]; by exists []|].
  intros (r1 & E1 & E2)%bind_Some. destruct (IH _ E2) as [pes Hp].
  destruct (rstep_pool _ _ _ E1) as [<-|[pe E]]; [by exists pes|]. exists (pe :: pes). simpl. by rewrite E.
Qed.
End runtime.

(** C5: the pool and the coroutines fit together.  In every run of a program on the
    runtime, the pool goes through a run of its own and the frames through one of
    theirs, so what was shown of each holds here.  A worker that has taken a handle from
    a queue can always enter it: it is that of a frame that is alive, suspended and on no
    other worker.  And no coroutine is forgotten: when nothing can move but outside events,
    and the pool is not being destroyed, no handle is ready and no worker is in a coroutine, so
    the coroutines left are those that wait for an outside event; when there is none of
    these, all frames have been freed. *)
Theorem runtime_forgets_nothing {V O X} `{!Inhabited X} (v0 : V) tid (main : Co (O := O) (X := X)) n steal es r :
  0 < n -> exec (rstep v0 tid) es (Runtime_new v0 n steal main) = Some r ->
  (exists ces, exec (cstep v0 tid) ces (World_new v0 n main) = Some (world r))
  /\ (exists pes, exec pstep pes (QPool_new n n steal) = Some (pool r))
  /\ (forall w it, pworkers_ (pool r) !! w = Some (Resume it) -> places r !! w = Some Outside ->
      is_Some (enters v0 tid w r))
  /\ (stopper_ (pool r) = Running -> at_rest v0 tid r ->
      (forall w h, workers (world r) !! w <> Some (Some h))
      /\ heads (world r) = parked (world r)
      /\ (parked (world r) = [] -> heap (world r) = ∅)).
Proof.
  intros Hn Hrun. pose proof (exec_inv _ _ (rstep_ok v0 tid) _ _ _ (Runtime_new_ok v0 tid n steal main Hn) Hrun) as Hok.
  split_and!.
  - exact (rexec_world _ _ _ _ _ Hrun).
  - destruct (rexec_pool _ _ _ _ _ Hrun) as [pes Hp]. by exists (Begins (QueuePools.co_spawn 0) :: pes).
  - intros w it Hw Hp. destruct (enters_some v0 tid w r it Hok Hw Hp) as (i & _ & E). by eexists.
  - intros Hs Hr. destruct (rest_nothing_ready v0 tid r Hok Hr Hs) as [H1 H2].
    assert (heads (world r) = parked (world r)) as Hh.
    { unfold heads. rewrite H1. assert (omap id (workers (world r)) = []) as ->; [|done]. clear -H2.
      induction (workers (world r)) as [|[h|] l IH]; [done|by destruct (H2 0 h)|]. simpl. apply IH. intros w h. apply (H2 (S w) h). }
    split_and!; [done|done|]. intros Hp. destruct (rk_world _ _ Hok) as [ths Hw].
    apply (no_heads v0 _ ths Hw). by rewrite Hh.
Qed.

Module Examples.

(** A task that spawns another and waits for an outside event, on one worker. *)
Definition program : Co (V := nat) (O := nat) (X := nat) :=
  Spawn (Emit 9 (Return 0)) (Emit 1 (Suspend (fun x => Emit x (Return 0)))).
Definition schedule : list (revent (X := nat)) :=
  [PoolMoves (CallTurns 0 true 0); PoolMoves (CallTurns 0 true 0); PoolMoves (QueueNotifies 0); PoolMoves (WorkerTurns 0 true);
   Enters 0; Runs 0 0; PoolMoves (CallTurns 1 true 0); PoolMoves (CallTurns 1 true 0); Runs 0 0; PoolMoves (QueueNotifies 0);
   Runs 0 0; Returns 0; PoolMoves (WorkerTurns 0 true); Enters 0; Runs 0 0; Runs 0 0; Returns 0;
   PoolMoves (WorkerTurns 0 true); PoolMoves (WorkerTurns 0 true); PoolMoves (WorkerTurns 0 true)].
(** The event arrives. *)
Definition arrival : list (revent (X := nat)) :=
  [Arrives 0; PoolMoves (CallTurns 2 true 0); PoolMoves (CallTurns 2 true 0); PoolMoves (QueueNotifies 0);
   PoolMoves (WorkerTurns 0 true); Enters 0; Runs 0 5; Runs 0 5; Runs 0 5; Returns 0;
   PoolMoves (WorkerTurns 0 true); PoolMoves (WorkerTurns 0 true); PoolMoves (WorkerTurns 0 true)].
Definition tid0 : nat -> Z := fun _ => 7%Z.
Definition start : Runtime := Runtime_new 0 1 true program.
Definition resting : Runtime := default start (exec (rstep 0 tid0) (schedule ++ arrival) start).

Lemma resting_run : exec (rstep 0 tid0) (schedule ++ arrival) start = Some resting.
Proof. vm_compute. reflexivity. Qed.

Example waits_for_the_event :
  option_map (fun r => (output (world r), parked (world r))) (exec (rstep 0 tid0) schedule start) = Some ([1; 9], [0]).
Proof. vm_compute. reflexivity. Qed.

Lemma resting_at_rest : at_rest 0 tid0 resting.
Proof.
  intros e He. destruct e as [[c|c l k|w l|i| |w]|w|w x|w|i]; try destruct He.
  - destruct c as [|[|[|c]]]; vm_compute; reflexivity.
  - destruct w as [|w]; vm_compute; reflexivity.
  - destruct i as [|i]; vm_compute; reflexivity.
  - destruct w as [|w]; vm_compute; reflexivity.
  - destruct w as [|w]; vm_compute; reflexivity.
  - destruct w as [|w]; vm_compute; reflexivity.
Qed.

Lemma runtime_forgets_nothing_witness :
  output (world resting) = [1; 9; 5] /\ heads (world resting) = [] /\ heap (world resting) = ∅.
Proof.
  destruct (runtime_forgets_nothing 0 tid0 program 1 true (schedule ++ arrival) resting ltac:(lia) resting_run)
    as (_ & _ & _ & H). destruct (H eq_refl resting_at_rest) as (_ & H1 & H2).
  split; [vm_compute; reflexivity|]. split; [rewrite H1; vm_compute; reflexivity|]. apply H2. vm_compute. reflexivity.
Defined.

(** A coroutine that is woken up when the pool's destructor has begun is never resumed:
    ScheduleById drops the handle, and the frame stays. *)
Example woken_after_stop :
  option_map (fun r => (lost r, parked (world r)))
    (exec (rstep 0 tid0) (schedule ++ [PoolMoves Stops; Arrives 0; PoolMoves (CallTurns 2 true 0)]) start)
  = Some ([0], []).
Proof. vm_compute. reflexivity. Qed.
End Examples.
