(* ===== verification/TcpServer.v ===== *)
(** * The server's accept loop (src/bitdb/net/tcp/tcp_server.cpp, tcp_acceptor.cpp,
      io_awaiter.h)

    The listening socket is a socket of the main reactor (EventLoop.v), which has no work
    pool: the accept loop is the coroutine that waits on it to receive, and it is readable
    while the kernel holds connections that nobody has accepted.  The loop, in its steps
    through AcceptAwaiter, the reactor, the pool that resumes the coroutine, the clients and
    Shutdown interleave.  Nobody closes the listening socket. *)

From S2P Require Import Prelude Threads EventLoop.

(** Where the coroutine AcceptLoop is: not started, at the top of its loop, in
    await_ready, in await_suspend (in AddRecv; behind it, where [need_del_] is stored),
    suspended, in await_resume (before DelRecv, before accept4), behind accept() with a
    connection or without one, at its end. *)
Inductive apoint :=
| NotStarted | AtTop | InReady | InAdd | InStore | Parked | InResume | InAccept | Accepted (conn : option nat) | Finished.

(** [need_del_]: of the awaiter in use.  [backlog]: what accept4 will return.  [arrived],
    [committed]: the connections that clients have made, and those handed to the work
    pool, in order. *)
Record Server := mkServer {
  reactor : Loop;
  server_shutdown : bool;
  acceptor : apoint;
  need_del_ : bool;
  backlog : list nat;
  arrived : list nat;
  committed : list nat
}.

(** The constructor: a failing [socket], [bind] or [listen] ends the process. *)
Definition TcpServer_new (socket_ok bind_ok listen_ok : bool) : option Server :=
  if socket_ok && bind_ok && listen_ok
  then Some (mkServer Loop_new false NotStarted false [] [] []) else None.

Definition set_acceptor (a : apoint) (s : Server) : Server :=
  mkServer (reactor s) (server_shutdown s) a (need_del_ s) (backlog s) (arrived s) (committed s).
Definition set_reactor (l : Loop) (s : Server) : Server :=
  mkServer l (server_shutdown s) (acceptor s) (need_del_ s) (backlog s) (arrived s) (committed s).
Definition set_need_del (b : bool) (s : Server) : Server :=
  mkServer (reactor s) (server_shutdown s) (acceptor s) b (backlog s) (arrived s) (committed s).

(** [do_accept]: the first connection of the backlog; [fails] is an error of accept4
    that leaves it there (EMFILE and the like). *)
Definition do_accept (fails : bool) (s : Server) : option nat * Server :=
  match fails, backlog s with
  | false, fd :: rest =>
      (Some fd, mkServer (if rest is [] then level Recv false (reactor s) else reactor s) (server_shutdown s) (acceptor s)
                  (need_del_ s) rest (arrived s) (committed s))
  | _, _ => (None, s)
  end.

(** The handle of the accept loop's coroutine. *)
Definition accept_handle : nat := 0.

Section server.
Context (rearms : bool).

(** The next part of AddRecv, and whether it has returned. *)
Definition add_turn (l : Loop) : option (bool * Loop) :=
  match recv_side l with
  | Idle => l ← suspend_begins Recv accept_handle l; Some (if recv_side l is Lost _ then true else false, l)
  | Checked _ => l ← suspend_attaches rearms Recv l; Some (false, l)
  | Adding _ => l ← suspend_arms Recv l; Some (false, l)
  | Arming _ _ => l ← suspend_ends rearms Recv l; Some (true, l)
  | _ => None
  end.

(** One step of the coroutine; every accept() makes a new awaiter. *)
Definition accept_turn (fails : bool) (s : Server) : option Server :=
  match acceptor s with
  | AtTop => Some (if server_shutdown s then set_acceptor Finished s else set_acceptor InReady (set_need_del false s))
  | InReady =>
      match do_accept fails s with
      | (Some fd, s) => Some (set_acceptor (Accepted (Some fd)) s)
      | (None, s) => Some (set_acceptor InAdd s)
      end
  | InAdd =>
      '(returned, l) ← add_turn (reactor s);
      Some (set_acceptor (if returned : bool then InStore else InAdd) (set_reactor l s))
  | InStore => Some (set_acceptor Parked (set_need_del true s))
  | InResume =>
      if need_del_ s
      then l ← resume_checks Recv (reactor s);
           l ← resume_deletes rearms Recv l;
           Some (set_acceptor InAccept (set_need_del false (set_reactor l s)))
      else Some (set_acceptor InAccept (set_reactor (set_side Recv Idle (reactor s)) s))
  | InAccept => let '(conn, s) := do_accept fails s in Some (set_acceptor (Accepted conn) s)
  | Accepted (Some fd) =>
      Some (mkServer (reactor s) (server_shutdown s) AtTop (need_del_ s) (backlog s) (arrived s) (committed s ++ [fd]))
  | Accepted None => Some (set_acceptor AtTop s)
  | _ => None
  end.

(** The reactor's loop, and the pool that resumes the handles it was given.  await_resume
    reads [need_del_] while await_suspend may still have to store it: a race. *)
Definition reactor_turn (e : loop_event) (s : Server) : option Server :=
  match e with
  | Waits | Handles => l ← loop_step rearms false e (reactor s); Some (set_reactor l s)
  | Resumes i =>
      l ← loop_step rearms false e (reactor s);
      Some (if broken l then set_reactor l s
            else if acceptor s is Parked then set_acceptor InResume (set_reactor l s)
            else set_reactor (breaks l) s)
  | _ => None
  end.

Inductive sevent :=
| Starts (async_start : bool) | Connects (fd : nat) | Turns (fails : bool) | Reactor (e : loop_event)
| ShutdownBegins | ShutdownReactor.

Definition sstep (e : sevent) (s : Server) : option Server :=
  if fatal (reactor s) || broken (reactor s) then None else
  match e with
  | Starts async_start =>
      if acceptor s is NotStarted then Some (if async_start : bool then set_acceptor AtTop s else s) else None
  | Connects fd =>
      Some (mkServer (level Recv true (reactor s)) (server_shutdown s) (acceptor s) (need_del_ s) (backlog s ++ [fd])
              (arrived s ++ [fd]) (committed s))
  | Turns fails => accept_turn fails s
  | Reactor e => reactor_turn e s
  | ShutdownBegins =>
      Some (mkServer (reactor s) true (acceptor s) (need_del_ s) (backlog s) (arrived s) (committed s))
  | ShutdownReactor =>
      if server_shutdown s then l ← loop_step rearms false ShutsDown (reactor s); Some (set_reactor l s) else None
  end.
End server.

(** ** The invariant *)

Definition in_accept (a : apoint) : list nat := if a is Accepted (Some fd) then [fd] else [].

(** What the reactor knows of the coroutine. *)
Definition side_rel (a : apoint) (st : side) : Prop :=
  match a with
  | InAdd => st = Idle \/ st = Checked accept_handle \/ st = Adding accept_handle \/ exists ns, st = Arming accept_handle ns
  | InStore | Parked => st = Waiting accept_handle \/ st = Lost accept_handle
  | InResume => st = Resuming accept_handle
  | _ => st = Idle
  end.

Record server_ok (s : Server) : Prop := {
  sv_reactor : loop_ok (reactor s);
  sv_closed : closed (reactor s) = false;
  sv_conns : arrived s = committed s ++ in_accept (acceptor s) ++ backlog s;
  sv_level : readable (epoll (reactor s)) = bool_decide (backlog s <> []);
  sv_recv : broken (reactor s) = false -> side_rel (acceptor s) (recv_side (reactor s));
  sv_send : send_side (reactor s) = Idle;
  sv_need : broken (reactor s) = false -> acceptor s = Parked \/ acceptor s = InResume -> need_del_ s = true;
  sv_shutdown : is_shutdown_ (reactor s) = true -> server_shutdown s = true;
  sv_finished : acceptor s = Finished -> server_shutdown s = true
}.

Lemma server_not_fatal s : server_ok s -> fatal (reactor s) = false.
Proof.
  intros Hok. destruct (fatal (reactor s)) eqn:E; [|done]. apply (lk_fatal _ (sv_reactor _ Hok)) in E.
  by rewrite (sv_closed _ Hok) in E.
Qed.

Lemma TcpServer_new_ok a b c s : TcpServer_new a b c = Some s -> server_ok s.
Proof.
  unfold TcpServer_new. destruct (a && b && c); [|done]. intros [= <-]. split; try done; [apply Loop_new_ok|].
  intros _ []; done.
Qed.

(** What the reactor's calls leave as it is. *)
Definition frame (l l' : Loop) : Prop :=
  send_side l' = send_side l /\ readable (epoll l') = readable (epoll l) /\ is_shutdown_ l' = is_shutdown_ l
  /\ closed l' = closed l.

Lemma UpdateEvent_frame b ns l : frame l (UpdateEvent b ns l) /\ broken (UpdateEvent b ns l) = broken l.
Proof. unfold UpdateEvent. by destruct (registered (epoll l)). Qed.

Lemma attach_for_frame b f l : frame l (attach_for b f l) /\ broken (attach_for b f l) = broken l.
Proof. unfold attach_for, Attach. by repeat case_match. Qed.

(** AddRecv: it comes to its end, and leaves the coroutine waiting, or lost. *)
Lemma add_turn_ok l ret l' : loop_ok l -> send_side l = Idle -> side_rel InAdd (recv_side l) ->
  add_turn true l = Some (ret, l') ->
  loop_ok l' /\ frame l l' /\ broken l' = broken l /\ side_rel (if ret : bool then InStore else InAdd) (recv_side l').
Proof.
  intros Hok Hs Hr. unfold add_turn.
  destruct Hr as [Er|[Er|[Er|[ns Er]]]]; rewrite Er; cbn [side_rel]; intros (l1 & E & [= <- <-])%bind_Some.
  - pose proof (suspend_begins_ok _ _ _ _ Hok E) as Hok'. unfold suspend_begins in E. cbn in E. rewrite Er, Hs in E. cbn in E.
    injection E as <-. destruct (closed l || is_shutdown_ l); split_and!; try done; cbn; auto.
  - pose proof (suspend_attaches_ok _ _ _ Hok E) as Hok'. unfold suspend_attaches in E. cbn in E. rewrite Er, Hs in E. cbn in E.
    injection E as <-. destruct (attach_for_frame true EPOLLIN l) as [(F1 & F2 & F3 & F4) F5]. split_and!; try done. cbn. auto.
  - pose proof (suspend_arms_ok _ _ _ Hok E) as Hok'. unfold suspend_arms in E. cbn in E. rewrite Er in E. cbn in E.
    injection E as <-. split_and!; try done. cbn. eauto.
  - pose proof (suspend_ends_ok _ _ _ Hok E) as Hok'. unfold suspend_ends in E. cbn in E. rewrite Er in E. cbn in E.
    injection E as <-. destruct (UpdateEvent_frame true ns l) as [(F1 & F2 & F3 & F4) F5]. split_and!; try done. cbn. auto.
Qed.

Lemma epoll_wait_frame l l' : epoll_wait l = Some l' -> frame l l' /\ recv_side l' = recv_side l /\ broken l' = broken l.
Proof.
  unfold epoll_wait. destruct (pending l), (listed (epoll l)), (registered (epoll l)); try done. by intros [= <-].
Qed.

Lemma handle_event_frame b l l' : handle_event b l = Some l' -> frame l l' /\ recv_side l' = recv_side l.
Proof.
  unfold handle_event. intros (ev & _ & E)%bind_Some. cbn in E.
  destruct (recv_side l) eqn:Er; cbn in E; destruct (has ev EPOLLIN), (has ev EPOLLOUT); injection E as <-; by cbn.
Qed.

(** A handle that is resumed was suspended to receive, or the loop is broken. *)
Lemma resume_frame i l l' : send_side l = Idle -> resume i l = Some l' ->
  frame l l' /\ (broken l' = false -> exists h, suspended_as h (recv_side l) = true /\ recv_side l' = Resuming h).
Proof.
  intros Hs. unfold resume. intros (t & _ & [= <-])%bind_Some. cbn. rewrite Hs. cbn.
  destruct (match t with Handle h => Some h | Reference d => coro_of d (sock l) end) as [h|]; [|done].
  destruct (suspended_as h (recv_side l)) eqn:E; [|done]. split; [done|]. intros _. by exists h.
Qed.

(** DelRecv. *)
Lemma deletes_frame l l1 l' h : send_side l = Idle -> closed l = false -> recv_side l = Resuming h ->
  resume_checks Recv l = Some l1 -> resume_deletes true Recv l1 = Some l' ->
  frame l l' /\ recv_side l' = Idle /\ broken l' = broken l.
Proof.
  intros Hs Hc Hr. unfold resume_checks. cbn. rewrite Hr, Hc. intros [= <-]. unfold resume_deletes. cbn. rewrite Hs. cbn.
  intros [= <-]. unfold DelRecv. cbn. destruct (is_shutdown_ l) eqn:Esh; [by repeat split; cbn; rewrite ?Esh|].
  unfold del_coro, UpdateEvent. cbn. by destruct (registered (epoll l)); repeat split; cbn; rewrite ?Esh.
Qed.

(** ** Preservation *)

Lemma do_accept_ok fails s conn s' : server_ok s -> in_accept (acceptor s) = [] -> do_accept fails s = (conn, s') ->
  loop_ok (reactor s') /\ arrived s' = committed s' ++ (if conn is Some fd then [fd] else []) ++ backlog s'
  /\ readable (epoll (reactor s')) = bool_decide (backlog s' <> [])
  /\ recv_side (reactor s') = recv_side (reactor s) /\ send_side (reactor s') = send_side (reactor s)
  /\ is_shutdown_ (reactor s') = is_shutdown_ (reactor s) /\ broken (reactor s') = broken (reactor s)
  /\ closed (reactor s') = closed (reactor s) /\ server_shutdown s' = server_shutdown s /\ acceptor s' = acceptor s.
Proof.
  intros [Hr Hcl Hc Hl Hrs Hss Hn Hsh Hf] Ha E. rewrite Ha in Hc. unfold do_accept in E.
  destruct fails; [by injection E as <- <-; split_and!|]. destruct (backlog s) as [|fd rest] eqn:Eb.
  - injection E as <- <-. rewrite Eb. split_and!; try done.
  - injection E as <- <-. cbn [reactor arrived committed backlog server_shutdown acceptor]. destruct rest as [|fd' rest].
    + split_and!; try done. by apply level_ok.
    + by split_and!.
Qed.

(** A step of the coroutine from one point to another that leaves the connections alone. *)
Lemma moved_ok s a l nd : server_ok s -> loop_ok l -> frame (reactor s) l -> in_accept a = in_accept (acceptor s) ->
  (broken l = false -> side_rel a (recv_side l)) -> (broken l = false -> a = Parked \/ a = InResume -> nd = true) ->
  (a = Finished -> server_shutdown s = true) ->
  server_ok (set_acceptor a (set_need_del nd (set_reactor l s))).
Proof.
  intros [Hr Hcl Hc Hl Hrs Hss Hn Hsh Hf] Hlok (F1 & F2 & F3 & F4) Ea Hsr Hnd Hfin.
  split; cbn; rewrite ?F1, ?F2, ?F3, ?F4, ?Ea; done.
Qed.

Lemma accept_turn_ok fails s s' : server_ok s -> broken (reactor s) = false ->
  accept_turn true fails s = Some s' -> server_ok s'.
Proof.
  intros Hok Hbr. pose proof Hok as [Hr Hcl Hc Hl Hrs Hss Hn Hsh Hf]. specialize (Hrs Hbr). specialize (Hn Hbr).
  assert (frame (reactor s) (reactor s)) as Hfr by done. unfold accept_turn.
  assert (forall conn s1, in_accept (acceptor s) = [] -> recv_side (reactor s) = Idle -> do_accept fails s = (conn, s1) ->
    forall a, in_accept a = (if conn is Some fd then [fd] else []) -> side_rel a Idle -> a <> Parked -> a <> InResume ->
    a <> Finished -> server_ok (set_acceptor a s1)) as Hacc.
  { intros conn s1 Hia Hi Ed a Ea Hsr N1 N2 N3.
    destruct (do_accept_ok _ _ _ _ Hok Hia Ed) as (D1 & D2 & D3 & D4 & D5 & D6 & D7 & D8 & D9 & D10).
    split; cbn; rewrite ?D4, ?D5, ?D6, ?D8, ?D9, ?Ea, ?Hi; try done. by intros _ []. }
  destruct (acceptor s) as [| | | | | | | |[fd|]|] eqn:Ea; try done; cbn in Hc, Hrs.
  - intros [= <-]. destruct (server_shutdown s) eqn:Es.
    + apply (moved_ok s Finished (reactor s) (need_del_ s)); rewrite ?Ea; try done. by intros _ [].
    + apply (moved_ok s InReady (reactor s) false); rewrite ?Ea; try done. by intros _ [].
  - destruct (do_accept fails s) as [[fd|] s1] eqn:Ed; intros [= <-]; eapply Hacc; try done. by left.
  - intros ([ret l] & Et & [= <-])%bind_Some. destruct (add_turn_ok _ _ _ Hr Hss Hrs Et) as (H1 & H2 & H3 & H4).
    apply (moved_ok s _ l (need_del_ s)); rewrite ?Ea; try done; destruct ret; try done; by intros _ [].
  - intros [= <-]. apply (moved_ok s Parked (reactor s) true); by rewrite ?Ea.
  - rewrite Hn by auto. intros (l1 & E1 & (l2 & E2 & [= <-])%bind_Some)%bind_Some.
    destruct (deletes_frame _ _ _ _ Hss Hcl Hrs E1 E2) as (F1 & F2 & F3).
    apply (moved_ok s InAccept l2 false); rewrite ?Ea; try done.
    + eapply resume_deletes_ok; [|done]. by eapply resume_checks_ok.
    + by intros _ [].
  - destruct (do_accept fails s) as [conn s1] eqn:Ed. intros [= <-]. eapply Hacc; try done.
  - intros [= <-]. split; cbn; try done; [by rewrite Hc, <-app_assoc|]. by intros _ [].
  - intros [= <-]. apply (moved_ok s AtTop (reactor s) (need_del_ s)); rewrite ?Ea; try done. by intros _ [].
Qed.

Lemma reactor_turn_ok e s s' : server_ok s -> broken (reactor s) = false -> reactor_turn true e s = Some s' -> server_ok s'.
Proof.
  intros Hok Hbr. pose proof Hok as [Hr Hcl Hc Hl Hrs Hss Hn Hsh Hf]. specialize (Hrs Hbr). specialize (Hn Hbr).
  pose proof (server_not_fatal _ Hok) as Hnf.
  destruct e as [| | | | | |i| | | | | |]; try done; cbn [reactor_turn]; intros (l & Hs & [= <-])%bind_Some;
    pose proof (loop_step_ok _ _ _ _ Hr Hs) as Hlok; unfold loop_step in Hs; rewrite Hnf, Hbr in Hs; cbn in Hs.
  - apply epoll_wait_frame in Hs as (Hfr & F4 & F5).
    apply (moved_ok s (acceptor s) l (need_del_ s)); rewrite ?F4; auto.
  - apply handle_event_frame in Hs as (Hfr & F4). apply (moved_ok s (acceptor s) l (need_del_ s)); rewrite ?F4; auto.
  - apply (resume_frame _ _ _ Hss) in Hs as (Hfr & F5).
    destruct (broken l) eqn:Eb; [by apply (moved_ok s (acceptor s) l (need_del_ s)); rewrite ?Eb|].
    destruct (F5 eq_refl) as (h & Hsu & Er').
    assert (server_ok (set_reactor (breaks l) s)) as Hbk
      by (apply (moved_ok s (acceptor s) (breaks l) (need_del_ s)); auto; try done; by apply breaks_ok).
    destruct (acceptor s) eqn:Ea; try done.
    apply (moved_ok s InResume l (need_del_ s)); rewrite ?Ea; auto; [|done]. intros _. rewrite Er'. cbn in *.
    destruct Hrs as [Hrs|Hrs]; rewrite Hrs in Hsu; cbn in Hsu; by apply bool_decide_eq_true in Hsu as <-.
Qed.

Lemma sstep_ok e s s' : server_ok s -> sstep true e s = Some s' -> server_ok s'.
Proof.
  intros Hok. pose proof Hok as [Hr Hcl Hc Hl Hrs Hss Hn Hsh Hf]. unfold sstep. rewrite (server_not_fatal _ Hok).
  destruct (broken (reactor s)) eqn:Hbr; [done|]. specialize (Hrs eq_refl). specialize (Hn eq_refl). cbn [orb].
  destruct e as [async|fd|fails|e| |].
  - destruct (acceptor s) eqn:Ea; try done. intros [= <-]. destruct async; [|done].
    apply (moved_ok s AtTop (reactor s) (need_del_ s)); rewrite ?Ea; try done. by intros _ [].
  - intros [= <-]. split; cbn; try done; [by apply level_ok| |].
    + by rewrite Hc, <-!app_assoc.
    + symmetry. apply bool_decide_true. by destruct (backlog s).
  - by apply accept_turn_ok.
  - by apply reactor_turn_ok.
  - intros [= <-]. by split.
  - destruct (server_shutdown s) eqn:Es; [|done]. intros (l & El & [= <-])%bind_Some.
    pose proof (loop_step_ok _ _ _ _ Hr El) as Hlok. unfold loop_step in El. rewrite (server_not_fatal _ Hok), Hbr in El. cbn in El.
    injection El as <-. split; cbn; rewrite ?Es; try done.
Qed.

(** Nothing moves but clients and Shutdown: neither the coroutine, whether or not accept4
    fails, nor the reactor, nor the pool that resumes handles. *)
Definition server_at_rest (s : Server) : Prop :=
  (forall fails, sstep true (Turns fails) s = None) /\ (forall e, sstep true (Reactor e) s = None).

(** The coroutine can always move, but when it is suspended or at its end. *)
Lemma accept_turn_moves fails s : server_ok s -> broken (reactor s) = false -> accept_turn true fails s = None ->
  acceptor s = NotStarted \/ acceptor s = Parked \/ acceptor s = Finished.
Proof.
  intros Hok Hbr. pose proof (sv_recv _ Hok Hbr) as Hrs. pose proof (sv_send _ Hok) as Hss.
  pose proof (sv_need _ Hok Hbr) as Hn. pose proof (sv_closed _ Hok) as Hcl. unfold accept_turn.
  destruct (acceptor s) as [| | | | | | | |[fd|]|] eqn:Ea; auto; try done.
  - by destruct (do_accept fails s) as [[] ?].
  - unfold add_turn. cbn in Hrs. destruct Hrs as [Er|[Er|[Er|[ns Er]]]]; rewrite Er.
    + unfold suspend_begins. cbn. by rewrite Er, Hss.
    + unfold suspend_attaches. cbn. by rewrite Er, Hss.
    + unfold suspend_arms. cbn. by rewrite Er.
    + unfold suspend_ends. cbn. by rewrite Er.
  - rewrite Hn by auto. unfold resume_checks. cbn in *. rewrite Hrs, Hcl. cbn. unfold resume_deletes. cbn. by rewrite Hss.
  - by destruct (do_accept fails s).
Qed.

Lemma rest_drained s : server_ok s -> broken (reactor s) = false -> server_shutdown s = false ->
  acceptor s <> NotStarted -> server_at_rest s -> acceptor s = Parked /\ backlog s = [].
Proof.
  intros Hok Hbr Hsd Hns [Ht He]. pose proof Hok as [Hr Hcl Hc Hl Hrs Hss Hn Hsh Hf].
  assert (is_shutdown_ (reactor s) = false) as Hrsd by (destruct (is_shutdown_ (reactor s)); [by rewrite Hsh in Hsd|done]).
  unfold sstep in Ht, He. rewrite (server_not_fatal _ Hok), Hbr in Ht, He. cbn [orb] in Ht, He.
  assert (acceptor s = Parked) as Ha.
  { destruct (accept_turn_moves true s Hok Hbr (Ht true)) as [|[|E]]; [done..|]. by rewrite Hf in Hsd. }
  split; [done|]. specialize (Hrs Hbr). rewrite Ha in Hrs. cbn in Hrs. destruct Hrs as [Hrs|Hrs].
  2: { pose proof (lk_lost _ Hr Recv _ Hrs) as E. by rewrite Hcl, Hrsd in E. }
  destruct (backlog s) as [|fd rest] eqn:Eb; [done|exfalso]. rewrite bool_decide_true in Hl by done.
  assert (forall ev, ev = Waits \/ ev = Handles \/ (exists i, ev = Resumes i) -> loop_step true false ev (reactor s) = None) as Hnone.
  { intros ev Hev. specialize (He ev). destruct (loop_step true false ev (reactor s)) eqn:E; [|done].
    destruct Hev as [->|[->|[i ->]]]; cbn in He; by rewrite E in He. }
  unfold loop_step in Hnone. rewrite (server_not_fatal _ Hok), Hbr in Hnone. cbn [orb] in Hnone.
  assert (pending (reactor s) = None) as Hpend.
  { pose proof (Hnone Handles ltac:(auto)) as H. cbn in H. unfold handle_event in H.
    destruct (pending (reactor s)) as [ev|]; [|done]. cbn in H. rewrite Hrs in H. by repeat case_match. }
  destruct (lv_recv _ (lk_live _ Hr Hrsd Hcl Hbr) _ Hrs Hl) as [Hlist|[(r & Hp & _)|Hsp]].
  - pose proof (Hnone Waits ltac:(auto)) as H. cbn in H. unfold epoll_wait in H. rewrite Hpend, Hlist in H.
    pose proof (lk_waiting _ Hr Hcl Hrsd Recv) as Hd. cbn [side_of] in Hd. rewrite Hrs in Hd. specialize (Hd eq_refl).
    destruct (not_detached _ Hr Hcl Hd) as [m Hm]. by rewrite Hm in H.
  - congruence.
  - assert (exists t, t ∈ spawned (reactor s)) as [t [i Hi]%list_elem_of_lookup_1] by (destruct Hsp; eauto).
    pose proof (Hnone (Resumes i) ltac:(eauto)) as H. cbn in H. unfold resume in H. by rewrite Hi in H.
Qed.


(** Start(false) runs the reactor and never the accept loop: nobody is served. *)
Definition idle (k : list nat) (s : Server) : Prop :=
  acceptor s = NotStarted /\ committed s = k.

Lemma idle_step rearms k e s s' : idle k s -> e <> Starts true -> sstep rearms e s = Some s' -> idle k s'.
Proof.
  intros (Ha & Hk) Hne. unfold sstep. destruct (fatal (reactor s) || broken (reactor s)); [done|].
  destruct e as [[]|fd|fails|e| |]; rewrite ?Ha; try done; try (by intros [= <-]).
  - unfold accept_turn. by rewrite Ha.
  - destruct e as [| | | | | |i| | | | | |]; try done; cbn; intros (l & _ & [= <-])%bind_Some; try done.
    rewrite Ha. by destruct (broken l).
  - destruct (server_shutdown s); [|done]. by intros (l & _ & [= <-])%bind_Some.
Qed.

Lemma never_started rearms a b c s0 es s : TcpServer_new a b c = Some s0 -> Forall (fun e => e <> Starts true) es ->
  exec (sstep rearms) es s0 = Some s -> acceptor s = NotStarted /\ committed s = [].
Proof.
  intros Hnew Hall. assert (idle [] s0) as Hi.
  { unfold TcpServer_new in Hnew. destruct (a && b && c); [|done]. by injection Hnew as <-. }
  clear Hnew. revert s0 Hi. induction Hall as [|e es He Hall IH]; intros s0 Hi; simpl.
  - intros [= <-]. done.
  - intros (s1 & E1 & E2)%bind_Some. apply (IH s1); [|done]. by eapply idle_step.
Qed.

Module Examples.

(** AddRecv and the store of [need_del_]. *)
Definition suspends : list sevent := replicate 5 (Turns false).
(** Two clients, one after the other; accept4 fails once in between. *)
Definition two_clients : list sevent :=
  [Starts true; Turns false; Turns false] ++ suspends ++ [Connects 7; Reactor Waits; Reactor Handles; Reactor (Resumes 0)] ++
  [Turns false; Turns true; Turns false; Turns false; Turns false; Turns false; Turns false; Turns false] ++ [Connects 8] ++
  suspends ++ [Reactor Waits; Reactor Handles; Reactor (Resumes 0)] ++
  [Turns false; Turns false; Turns false; Turns false; Turns false] ++ suspends.
Definition server0 : Server := default (mkServer Loop_new false Finished false [] [] []) (TcpServer_new true true true).
Definition two_clients_end : Server := default server0 (exec (sstep true) two_clients server0).

Lemma two_clients_run : exec (sstep true) two_clients server0 = Some two_clients_end.
Proof. vm_compute. reflexivity. Qed.

Lemma two_clients_rest : server_at_rest two_clients_end.
Proof.
  split; [intros []; vm_compute; reflexivity|].
  intros e. destruct e as [| |d h|d|d|d|[|i]|d|d|d up| | |]; vm_compute; reflexivity.
Qed.

(** Two clients that come before the coroutine is resumed put its handle on the pool
    twice: it is resumed while it runs. *)
Example clients_in_quick_succession :
  option_map (fun s => broken (reactor s))
    (exec (sstep true) ([Starts true; Turns false; Turns false] ++ suspends ++ [Connects 7; Reactor Waits; Reactor Handles;
       Connects 8; Reactor Waits; Reactor Handles; Reactor (Resumes 0); Reactor (Resumes 0)]) server0) = Some true.
Proof. vm_compute. reflexivity. Qed.

(** A client that comes at once lets the coroutine be resumed, and read [need_del_], before
    await_suspend has stored it. *)
Example resumed_before_need_del :
  option_map (fun s => (need_del_ s, broken (reactor s)))
    (exec (sstep true) ([Starts true; Turns false; Turns false] ++ replicate 4 (Turns false) ++
       [Connects 7; Reactor Waits; Reactor Handles; Reactor (Resumes 0)]) server0) = Some (false, true).
Proof. vm_compute. reflexivity. Qed.

(** After Shutdown the accept loop stays suspended in a reactor that does not wake it up, or
    suspends with its handle nowhere. *)
Example shutdown_leaves_the_loop :
  option_map (fun s => (acceptor s, recv_side (reactor s)))
    (exec (sstep true) [Starts true; Turns false; ShutdownBegins; ShutdownReactor; Turns false; Turns false; Turns false] server0)
  = Some (Parked, Lost 0).
Proof. vm_compute. reflexivity. Qed.
End Examples.
