(* ===== verification/HttpFile.v ===== *)
(** * Static files over HTTP (src/bitdb/net/http/http_server.{h,cpp}, common/file_util.h)

    SendFile sends a response whose headers announce a file, and then the file.  The disk
    is a map from path to contents; [reads] is what the next calls of [read] do. *)

From S2P Require Import Prelude Strings Json Packet Http.

(** A call of [read] on a file: at most [k + 1] bytes, or -1. *)
Inductive read_event := Reads (k : nat) | ReadFails.

(** [open_fds]: descriptors that were opened and not closed. *)
Record FileServer := mkFileServer {
  client : Socket;
  disk : gmap bytes bytes;
  reads : list read_event;
  open_fds : nat
}.
Abbreviation FileM := (M FileServer Empty_set).

Definition on_client {A} (m : SockM A) : FileM A :=
  zoom client (fun s c => mkFileServer c (disk s) (reads s) (open_fds s)) m.

(** The result of [stat] is not looked at: without a file the size stays 0. *)
Definition FileSize (path : bytes) : FileM nat := gets (fun s => length (default [] (disk s !! path))).

Definition next_read : FileM (option read_event) := fun s =>
  match reads s with
  | [] => (Ret None, s)
  | e :: es => (Ret (Some e), mkFileServer (client s) (disk s) es (open_fds s))
  end.

Definition opened : FileM unit := modify (fun s => mkFileServer (client s) (disk s) (reads s) (S (open_fds s))).
Definition closed : FileM unit := modify (fun s => mkFileServer (client s) (disk s) (reads s) (pred (open_fds s))).

(** [while ((ret = read(fd, &*buffer.begin(), buffer.size())) > 0)]: the whole buffer is
    written after every read.  The result is whether the file came to its end; [rest] is
    what the file has left. *)
Fixpoint send_loop (fuel : nat) (rest buffer : bytes) : FileM bool :=
  match fuel with
  | O => undef OutOfFuel
  | S fuel =>
      e ← next_read;
      match e with
      | Some ReadFails => mret false
      | _ =>
          let n := if e is Some (Reads k) then length buffer `min` S k else length buffer in
          match take n rest with
          | [] => mret true
          | got =>
              let buffer := got ++ drop (length got) buffer in
              _ ← on_client (AsyncWrite buffer);
              send_loop fuel (drop (length got) rest) buffer
          end
      end
  end.

Section file.
(** The order in which a std::unordered_map is iterated. *)
Context (entries : params -> list (bytes * bytes)).

(** The response, up to SendResponse. *)
Definition file_response (path : bytes) (file_size : nat) (r : HttpResponse) : option (outcome Empty_set unit * HttpResponse) :=
  file_type ← GetFileType path;
  Some ((SetHeader (lit "Content-Type:") file_type;;
         SetHeader (lit "Content-Length:") (int_text (Z.of_nat file_size));;
         SetBody entries CRLF) r).

(** A failed [read] returns with the file open; an empty file leaves no element for
    [*buffer.begin()]. *)
Definition SendFile (path : bytes) (r : HttpResponse) : FileM unit :=
  file_size ← FileSize path;
  out ← some_or OutOfFuel (file_response path file_size r);
  match (out : outcome Empty_set unit * HttpResponse) with
  | (Ret _, r) =>
      _ ← on_client (AsyncWrite (buffer_ r));
      s ← get;
      match disk s !! path with
      | None => mret tt
      | Some contents =>
          opened;;
          if decide (file_size = 0) then undef OutOfBounds else
          s ← get;
          done_ ← send_loop (S (length contents + length (reads s))) contents (replicate file_size NUL);
          when done_ closed
      end
  | (Undef u, _) => undef u
  | (Throw e, _) => match e with end
  end.
End file.

(** SetStaticPath: [front()] of an empty path is undefined; without a slash the process
    ends. *)
Definition SetStaticPath (path : bytes) : M bytes Empty_set unit :=
  match path with
  | [] => undef OutOfBounds
  | c :: _ => if decide (c = z2b 47) then put path else undef ProcessExit
  end.

(** ** Writing to a connection that stays up *)

Lemma async_write_loop_up fuel : forall bs n s, up s -> length bs + length (events s) < fuel ->
  exists es, es `suffix_of` events s /\
    async_write_loop fuel bs n s = (Ret (n + length bs), mkSocket (inbox s) (sent s ++ bs) false es).
Proof.
  induction fuel as [|fuel IH]; intros bs n s Hu Hf; [lia|].
  destruct bs as [|b bs].
  - exists (events s). split; [done|]. cbn. rewrite app_nil_r, Nat.add_0_r. destruct s, Hu. simpl in *. by subst.
  - destruct (WriteInnerAwaiter_up (b :: bs) s Hu) as (r & s1 & E & Hr); [done|].
    cbn [async_write_loop]. mstep E. destruct Hr as [w rest es H1 H2 H3|es Hes Hlt].
    + destruct w as [|x w]; [done|]. rewrite H1, drop_app_length.
      destruct (IH rest (n + length (x :: w)) (mkSocket (inbox s) (sent s ++ x :: w) false es)) as (es' & Hs & ->).
      * by eapply up_suffix.
      * apply suffix_length in H3. rewrite H1, length_app in Hf. simpl in *. lia.
      * exists es'. split; [by etrans|]. cbn [inbox sent]. rewrite <-app_assoc, length_app. by rewrite Nat.add_assoc.
    + destruct (IH (b :: bs) n (mkSocket (inbox s) (sent s) false es)) as (es' & Hs & ->);
        [by eapply up_suffix|simpl in *; lia|].
      exists es'. split; [by etrans|done].
Qed.

(** What the client has after a write; the other parts stay. *)
Definition client_got (bs : bytes) (s s' : FileServer) : Prop :=
  up (client s') /\ sent (client s') = sent (client s) ++ bs /\ disk s' = disk s.

Lemma on_client_write bs s : up (client s) ->
  exists s', on_client (AsyncWrite bs) s = (Ret (length bs), s') /\ client_got bs s s'
    /\ reads s' = reads s /\ open_fds s' = open_fds s.
Proof.
  intros Hu. destruct (async_write_loop_up (io_fuel (length bs) (client s)) bs 0 (client s) Hu) as (es & Hs & E);
    [unfold io_fuel; lia|].
  eexists. split; [apply zoom_Ret; exact E|]. unfold client_got. cbn [client disk reads open_fds sent].
  split_and!; try done. by apply (up_suffix (client s)).
Qed.

(** ** Sending a file *)

Lemma GetFileType_total path : is_Some (GetFileType path).
Proof.
  unfold GetFileType. assert (exists ps, String.Split path (lit ".") true = Some ps) as [ps ->].
  { destruct path as [|c path]; [by eexists|]. unfold String.Split.
    destruct (SplitLemmas.split_loop_join (lit ".") (S (length (c :: path))) (c :: path)) as (p & ps & -> & _);
      [done|lia|done|by eexists]. }
  cbn. by repeat case_match.
Qed.

Lemma next_read_up s : ReadFails ∉ reads s ->
  exists e s', next_read s = (Ret e, s') /\ e <> Some ReadFails /\ (reads s = [] -> e = None)
    /\ client s' = client s /\ disk s' = disk s /\ open_fds s' = open_fds s /\ reads s' `suffix_of` reads s.
Proof.
  intros Hr. unfold next_read. destruct (reads s) as [|e es] eqn:E.
  - exists None, s. by rewrite E.
  - exists (Some e), (mkFileServer (client s) (disk s) es (open_fds s)). split_and!; try done; [set_solver|].
    by apply suffix_cons_r.
Qed.

(** Every read that brings something sends a full buffer. *)
Lemma send_loop_up fuel : forall rest buffer s,
  up (client s) -> ReadFails ∉ reads s -> 0 < length buffer -> length rest < fuel ->
  exists chunks s', send_loop fuel rest buffer s = (Ret true, s')
    /\ client_got (mjoin chunks) s s' /\ open_fds s' = open_fds s
    /\ Forall (fun c => length c = length buffer) chunks
    /\ (rest = [] <-> chunks = [])
    /\ (reads s = [] -> length rest = length buffer -> chunks = [rest]).
Proof.
  induction fuel as [|fuel IH]; intros rest buffer s Hu Hr Hb Hf; [lia|]. cbn [send_loop].
  destruct (next_read_up s Hr) as (e & s1 & E & He & Hnil & Hc & Hd & Ho & Hsuf). mstep E.
  set (n := if e is Some (Reads k) then length buffer `min` S k else length buffer).
  assert (0 < n <= length buffer) as Hn by (unfold n; destruct e as [[]|]; lia).
  assert ((match e with Some ReadFails => mret false
           | _ => match take n rest with
                  | [] => mret true
                  | b :: l => _ ← on_client (AsyncWrite ((b :: l) ++ drop (length (b :: l)) buffer));
                      send_loop fuel (drop (length (b :: l)) rest) ((b :: l) ++ drop (length (b :: l)) buffer)
                  end end) = (match take n rest with
                  | [] => mret true
                  | b :: l => _ ← on_client (AsyncWrite ((b :: l) ++ drop (length (b :: l)) buffer));
                      send_loop fuel (drop (length (b :: l)) rest) ((b :: l) ++ drop (length (b :: l)) buffer)
                  end : FileM bool)) as Hm by (destruct e as [[]|]; done).
  assert (forall (x y : FileM bool) t r, x = y -> y t = r -> x t = r) as Hcong by (intros; subst; done).
  destruct (take n rest) as [|b l] eqn:Et.
  - exists [], s1. assert (rest = []) as -> by (destruct rest, n; [done|done|lia|done]).
    unfold client_got. rewrite Hc, Hd, Ho. cbn [mjoin list_join]. rewrite app_nil_r.
    split_and!; try done; [by apply (Hcong _ _ _ _ Hm)|]. intros _ Hx. cbn in Hx. lia.
  - set (got := b :: l) in *. set (buffer' := got ++ drop (length got) buffer) in *.
    assert (length got <= length buffer) as Hg by (rewrite <-Et, length_take; lia).
    assert (length buffer' = length buffer) as Hb' by (unfold buffer'; rewrite length_app, length_drop; lia).
    assert (length got <= length rest) as Hgr by (rewrite <-Et, length_take; lia).
    assert (0 < length got) as Hg0 by (unfold got; cbn; lia).
    destruct (on_client_write buffer' s1) as (s2 & E2 & (G1 & G2 & G3) & G4 & G5); [by rewrite Hc|].
    destruct (IH (drop (length got) rest) buffer' s2) as (chunks & s3 & E3 & (K1 & K2 & K3) & K4 & K5 & K6 & _);
      [done|rewrite G4; intros Hin; apply Hr; destruct Hsuf as [z ->]; set_solver|lia|rewrite length_drop; lia|].
    exists (buffer' :: chunks), s3. unfold client_got. split_and!; try done.
    + apply (Hcong _ _ _ _ Hm). by mstep E2.
    + cbn [mjoin list_join]. by rewrite K2, G2, Hc, app_assoc.
    + congruence.
    + congruence.
    + constructor; [done|]. by rewrite <-Hb'.
    + split; [intros ->; cbn in Hgr; lia|done].
    + intros Hrd Hlen. assert (n = length buffer) as Hnn by (unfold n; by rewrite (Hnil Hrd)).
      assert (got = rest) as Hgot by (rewrite <-Et; apply take_ge; lia).
      assert (drop (length got) buffer = []) as Hdr by (apply drop_ge; rewrite Hgot; lia).
      assert (buffer' = rest) as -> by (unfold buffer'; by rewrite Hdr, app_nil_r).
      rewrite Hgot in *. rewrite drop_all in *. f_equal. by apply K6.
Qed.

(** The status line and the headers of the response, up to the blank line. *)
Definition file_head (entries : params -> list (bytes * bytes)) (file_type : bytes) (file_size : nat) (code : Z)
    (r : HttpResponse) : bytes :=
  res_http_version_ r ++ lit " " ++ int_text code ++ lit " " ++ GetCodeDescript code ++ CRLF
  ++ concat (map header_text (entries (<[lit "Content-Length:" := int_text (Z.of_nat file_size)]>
       (<[lit "Content-Type:" := file_type]> (res_headers_ r))))).

Lemma file_response_text entries path size r code file_type :
  GetFileType path = Some file_type -> status_code_ r = Some code ->
  exists r', file_response entries path size r = Some (Ret tt, r')
    /\ buffer_ r' = file_head entries file_type size code r ++ CRLF ++ CRLF ++ CRLF.
Proof.
  intros Ht Hc. unfold file_response. rewrite Ht. cbn [mbind option_bind]. eexists. split.
  - f_equal. unfold SetHeader, SetBody. autorewrite with monad. cbn [status_code_]. rewrite Hc. autorewrite with monad.
    reflexivity.
  - cbn [buffer_ res_http_version_ res_headers_]. unfold file_head. by rewrite <-!app_assoc.
Qed.

(** C36: what SendFile sends.  On a connection that stays up, with a file that is there, is
    not empty and can be read, SendFile returns and leaves no descriptor open; the client gets the
    status line and the headers, the blank line, two more line ends that belong to no
    header, and then, for every read, as many bytes as the file has; and when the first
    read brings the whole file, that is the file, once. *)
Theorem send_file_sends entries path r s contents code :
  up (client s) -> disk s !! path = Some contents -> contents <> [] -> ReadFails ∉ reads s ->
  status_code_ r = Some code ->
  exists file_type chunks s', GetFileType path = Some file_type
    /\ SendFile entries path r s = (Ret tt, s')
    /\ sent (client s') = sent (client s) ++ file_head entries file_type (length contents) code r
                          ++ CRLF ++ CRLF ++ CRLF ++ mjoin chunks
    /\ open_fds s' = open_fds s /\ disk s' = disk s
    /\ Forall (fun c => length c = length contents) chunks /\ chunks <> []
    /\ (reads s = [] -> chunks = [contents]).
Proof.
  intros Hu Hd Hne Hr Hc. destruct (GetFileType_total path) as [file_type Ht].
  destruct (file_response_text entries path (length contents) r code file_type Ht Hc) as (r' & Hr' & Htxt).
  assert (0 < length contents) as Hpos by (destruct contents; [done|cbn; lia]).
  destruct (on_client_write (buffer_ r') s Hu) as (s1 & E1 & (G1 & G2 & G3) & G4 & G5).
  set (s2 := mkFileServer (client s1) (disk s1) (reads s1) (S (open_fds s1))).
  destruct (send_loop_up (S (length contents + length (reads s1))) contents (replicate (length contents) NUL) s2)
    as (chunks & s3 & E3 & (K1 & K2 & K3) & K4 & K5 & K6 & K7);
    [done|by cbn; rewrite G4|by rewrite length_replicate|lia|].
  rewrite length_replicate in K5, K7.
  exists file_type, chunks, (mkFileServer (client s3) (disk s3) (reads s3) (pred (open_fds s3))).
  split_and!; try done.
  - unfold SendFile, FileSize. autorewrite with monad. rewrite Hd. cbn [from_option id]. rewrite Hr'. autorewrite with monad.
    mstep E1. rewrite G3, Hd. unfold opened. autorewrite with monad. rewrite decide_False by lia. autorewrite with monad.
    cbn [reads]. mstep E3. done.
  - cbn [client]. rewrite K2. cbn [client s2]. rewrite G2, Htxt. by rewrite <-!app_assoc.
  - cbn [open_fds]. rewrite K4. cbn. by rewrite G5.
  - cbn [disk]. by rewrite K3.
  - by intros ->%K6.
  - intros Hrd. apply K7; [cbn; by rewrite G4|done].
Qed.

Module Examples.

Definition page : bytes := lit "<p>hi</p>".
Definition browser (rs : list read_event) (contents : bytes) : FileServer :=
  mkFileServer (mkSocket [] [] false [Ready 3; Again]) {[lit "a.html" := contents]} rs 0.
Definition ok_response : HttpResponse := mkResponse [] (Some 200%Z) (lit "HTTP/1.1") ∅.

Lemma send_file_sends_witness :
  exists s', SendFile map_to_list (lit "a.html") ok_response (browser [] page) = (Ret tt, s')
  /\ sent (client s') = file_head map_to_list (lit "text/html; charset=utf-8") 9 200 ok_response ++ CRLF ++ CRLF ++ CRLF ++ page.
Proof.
  destruct (send_file_sends map_to_list (lit "a.html") ok_response (browser [] page) page 200)
    as (ft & chunks & s' & H1 & H2 & H3 & _ & _ & _ & _ & H8);
    [split; [reflexivity|set_solver]|vm_compute; reflexivity|discriminate|set_solver|reflexivity|].
  exists s'. split; [exact H2|]. rewrite (H8 eq_refl) in H3. vm_compute in H1. injection H1 as <-. vm_compute in H3 |- *. exact H3.
Defined.

(** The names given to SetHeader have a colon of their own. *)
Example doubled_colons :
  file_head map_to_list (lit "text/css") 9 200 ok_response
  = lit "HTTP/1.1 200 OK" ++ CRLF ++ lit "Content-Type::text/css" ++ CRLF ++ lit "Content-Length::9" ++ CRLF
  \/ file_head map_to_list (lit "text/css") 9 200 ok_response
  = lit "HTTP/1.1 200 OK" ++ CRLF ++ lit "Content-Length::9" ++ CRLF ++ lit "Content-Type::text/css" ++ CRLF.
Proof. vm_compute. auto. Qed.

(** A read that brings four of the nine bytes: eighteen are sent. *)
Example short_read_sends_too_much :
  match SendFile map_to_list (lit "a.html") ok_response (browser [Reads 3] page) with
  | (Ret _, s') => drop (length (file_head map_to_list (lit "text/html; charset=utf-8") 9 200 ok_response) + 6) (sent (client s'))
  | _ => []
  end = (lit "<p>h" ++ replicate 5 NUL) ++ (lit "i</p>" ++ replicate 4 NUL).
Proof. vm_compute. reflexivity. Qed.

(** A read that fails leaves the descriptor open; an empty file is undefined. *)
Example failed_read_leaks :
  open_fds (SendFile map_to_list (lit "a.html") ok_response (browser [ReadFails] page)).2 = 1.
Proof. vm_compute. reflexivity. Qed.
Example empty_file_undefined :
  (SendFile map_to_list (lit "a.html") ok_response (browser [] [])).1 = Undef OutOfBounds.
Proof. vm_compute. reflexivity. Qed.

Example static_path : SetStaticPath (lit "/www") [] = (Ret tt, lit "/www") /\ (SetStaticPath (lit "www") []).1 = Undef ProcessExit.
Proof. done. Qed.
End Examples.
