(* ===== verification/RaftThreads.v ===== *)
(** * The background threads of a Raft node (src/bitdb/raft/raft.h)

    Start makes four threads, each a loop that looks at [stopped_], works under the
    node's mutex and sleeps; Stop sets the flag and joins them in turn.  What a loop does
    to the node under the mutex (Raft.v) is a parameter here. *)

From S2P Require Import Prelude Threads Raft.

(** The threads, in the order in which Stop joins them. *)
Inductive background := Apply | Commit | Election | Heartbeat.
Definition join_order : list background := [Apply; Commit; Election; Heartbeat].

(** A thread pointer: null, its thread at one of the three points of the loop, at its
    end, or joined. *)
Inductive tpoint := NoThread | Checks | Works | Sleeps | Returned | Joined.

(** Start and Stop: not called, joining the [k]th thread, over, or ended by
    std::terminate (a joinable thread is replaced, or a thread is joined twice). *)
Inductive control := Idle | Joining (k : nat) | Over | Terminated.

Section threads.
Context {Node : Type} (body : background -> Node -> Node).

Record RaftThreads := mkThreads {
  node : Node;
  stopped_ : bool;
  threads : list tpoint;
  control_ : control
}.

Definition RaftThreads_new (n : Node) : RaftThreads := mkThreads n false (replicate 4 NoThread) Idle.

Definition set_thread (i : nat) (t : tpoint) (r : RaftThreads) : RaftThreads :=
  mkThreads (node r) (stopped_ r) (<[i := t]> (threads r)) (control_ r).
Definition set_control (c : control) (r : RaftThreads) : RaftThreads :=
  mkThreads (node r) (stopped_ r) (threads r) c.

Definition joinable (t : tpoint) : bool := match t with NoThread | Joined => false | _ => true end.

Definition Start (r : RaftThreads) : RaftThreads :=
  if forallb (fun t => negb (joinable t)) (threads r)
  then mkThreads (node r) (stopped_ r) (replicate 4 Checks) (control_ r)
  else set_control Terminated r.

(** A turn of a loop: the flag; the work under the mutex; the sleep. *)
Definition loop_turn (i : nat) (r : RaftThreads) : option RaftThreads :=
  match threads r !! i with
  | Some Checks => Some (set_thread i (if stopped_ r then Returned else Works) r)
  | Some Works =>
      w ← join_order !! i;
      Some (mkThreads (body w (node r)) (stopped_ r) (<[i := Sleeps]> (threads r)) (control_ r))
  | Some Sleeps => Some (set_thread i Checks r)
  | _ => None
  end.

(** [if (thread) thread->join();] *)
Definition join_turn (r : RaftThreads) : option RaftThreads :=
  if control_ r is Joining k then
    match threads r !! k with
    | None => Some (set_control Over r)
    | Some NoThread => Some (set_control (Joining (S k)) r)
    | Some Returned => Some (set_control (Joining (S k)) (set_thread k Joined r))
    | Some Joined => Some (set_control Terminated r)
    | Some _ => None
    end
  else None.

Definition Stop_threads (r : RaftThreads) : RaftThreads :=
  mkThreads (node r) true (threads r) (Joining 0).

(** The destructor calls Stop unless the node is stopped; after it the node is gone. *)
Definition destructor (r : RaftThreads) : RaftThreads := if stopped_ r then r else Stop_threads r.

Inductive tevent := Starts | Stops | Destroys | LoopTurns (i : nat) | JoinTurns.

Definition tstep (e : tevent) (r : RaftThreads) : option RaftThreads :=
  match control_ r, e with
  | Terminated, _ => None
  | (Idle | Over), Starts => Some (Start r)
  | (Idle | Over), Stops => Some (Stop_threads r)
  | (Idle | Over), Destroys => Some (destructor r)
  | _, LoopTurns i => loop_turn i r
  | _, JoinTurns => join_turn r
  | _, _ => None
  end.

(** ** The invariant *)

Definition unborn_or_joined (t : tpoint) : bool := match t with NoThread | Joined => true | _ => false end.

(** While Stop joins: the flag is set, the threads before the [k]th are joined or were
    never there. *)
Record threads_ok (r : RaftThreads) : Prop := {
  tk_length : length (threads r) = 4;
  tk_joining : forall k, control_ r = Joining k ->
    stopped_ r = true /\ k <= 4 /\ Forall (fun t => unborn_or_joined t = true) (take k (threads r))
}.

Lemma RaftThreads_new_ok n : threads_ok (RaftThreads_new n).
Proof. by split. Qed.

Lemma take_insert_keeps k i (l : list tpoint) t : Forall (fun t => unborn_or_joined t = true) (take k l) ->
  k <= i \/ unborn_or_joined t = true -> Forall (fun t => unborn_or_joined t = true) (take k (<[i := t]> l)).
Proof.
  intros Hl [Hki|Ht]; [by rewrite take_insert_ge|]. destruct (decide (k <= i)); [by rewrite take_insert_ge|].
  rewrite take_insert_lt by lia. by apply Forall_insert.
Qed.

Lemma tstep_ok e r r' : threads_ok r -> tstep e r = Some r' -> threads_ok r'.
Proof.
  intros [Hl Hj]. unfold tstep.
  assert (forall i r1, loop_turn i r = Some r1 -> threads_ok r1) as Hloop.
  { intros i r1. unfold loop_turn. destruct (threads r !! i) as [t|] eqn:Ht; [|done].
    assert (forall t' r2, unborn_or_joined t = false -> threads r2 = <[i := t']> (threads r) -> stopped_ r2 = stopped_ r ->
      control_ r2 = control_ r -> threads_ok r2) as Hset.
    { intros t' r2 Hub E1 E2 E3. split; rewrite E1; [by rewrite length_insert|]. rewrite E3, E2. intros k Hk.
      destruct (Hj k Hk) as (H1 & H2 & H3). split_and!; [done..|]. apply take_insert_keeps; [done|left].
      destruct (decide (k <= i)); [done|]. assert (take k (threads r) !! i = Some t) as Hx by (rewrite lookup_take; rewrite decide_True by lia; done).
      pose proof (Forall_lookup_1 _ _ _ _ H3 Hx). congruence. }
    destruct t; try done; [intros [= <-]|intros (w & _ & [= <-])%bind_Some|intros [= <-]]; by eapply Hset. }
  destruct (control_ r) as [|k| |] eqn:Ec; [..|done].
  - destruct e; try done; [intros [= <-]|intros [= <-]|intros [= <-]|apply Hloop|unfold join_turn; by rewrite Ec].
    + unfold Start. destruct (forallb _ _); split; cbn; rewrite ?Ec; done.
    + split; cbn; [done|]. intros k [= <-]. split_and!; [done|lia|done].
    + unfold destructor. destruct (stopped_ r); split; cbn; rewrite ?Ec; try done. intros k [= <-]. split_and!; [done|lia|done].
  - destruct e; try done; [apply Hloop|]. destruct (Hj k eq_refl) as (H1 & H2 & H3). unfold join_turn. rewrite Ec.
    assert (forall (l : list tpoint) t, length l = 4 -> l !! k = Some t -> unborn_or_joined t = true ->
      Forall (fun t => unborn_or_joined t = true) (take k l) ->
      S k <= 4 /\ Forall (fun t => unborn_or_joined t = true) (take (S k) l)) as Hnext.
    { intros l t Hlen Hk Ht Hall. split; [apply lookup_lt_Some in Hk; lia|]. rewrite (take_S_r _ _ t) by done.
      apply Forall_app_2; [done|]. by apply Forall_singleton. }
    destruct (threads r !! k) as [[]|] eqn:Hk; try done; intros [= <-].
    + destruct (Hnext _ _ Hl Hk eq_refl H3) as [N1 N2]. split; cbn; [done|]. by intros k' [= <-].
    + assert (k < length (threads r)) as Hlt by by apply lookup_lt_Some in Hk.
      destruct (Hnext (<[k := Joined]> (threads r)) Joined) as [N1 N2];
        [by rewrite length_insert|by apply list_lookup_insert_eq|done|by apply take_insert_keeps; [|left]|].
      split; cbn; [by rewrite length_insert|]. by intros k' [= <-].
    + by split.
    + by split.
  - destruct e; try done; [intros [= <-]|intros [= <-]|intros [= <-]|apply Hloop|unfold join_turn; by rewrite Ec].
    + unfold Start. destruct (forallb _ _); split; cbn; rewrite ?Ec; done.
    + split; cbn; [done|]. intros k [= <-]. split_and!; [done|lia|done].
    + unfold destructor. destruct (stopped_ r); split; cbn; rewrite ?Ec; try done. intros k [= <-]. split_and!; [done|lia|done].
Qed.

(** ** Stop *)

(** What goes on while Stop is under way: the loops and the joins. *)
Definition stop_event (e : tevent) : Prop := match e with LoopTurns _ | JoinTurns => True | _ => False end.

(** Turns until a thread has seen the flag, and joins that are left. *)
Definition turns_left (t : tpoint) : nat := match t with Works => 3 | Sleeps => 2 | Checks => 1 | _ => 0 end.
Definition joins_left (c : control) : nat := if c is Joining k then 5 - k else 0.
Definition stop_measure (r : RaftThreads) : nat := sum_list_with turns_left (threads r) + joins_left (control_ r).

(** Stop under way, with no thread that was joined already in front of it; or over. *)
Definition stopping (r : RaftThreads) : Prop :=
  threads_ok r /\ stopped_ r = true /\
  match control_ r with
  | Joining k => Joined ∉ drop k (threads r)
  | Over => Forall (fun t => unborn_or_joined t = true) (threads r)
  | _ => False
  end.

Lemma stopping_step e r r' : stopping r -> stop_event e -> tstep e r = Some r' ->
  stopping r' /\ stop_measure r' < stop_measure r.
Proof.
  intros (Hok & Hs & Hc) He E. pose proof (tstep_ok _ _ _ Hok E) as Hok'. unfold stopping, stop_measure.
  destruct Hok as [Hl Hj]. destruct e as [| | |i|]; try done; unfold tstep in E.
  - assert (loop_turn i r = Some r') as E' by (by destruct (control_ r)). clear E. unfold loop_turn in E'.
    destruct (threads r !! i) as [t|] eqn:Ht; [|done].
    assert (forall t' (r2 : RaftThreads), turns_left t' < turns_left t -> t' <> Joined -> unborn_or_joined t = false ->
      threads r2 = <[i := t']> (threads r) -> stopped_ r2 = stopped_ r -> control_ r2 = control_ r -> threads_ok r2 ->
      stopping r2 /\ stop_measure r2 < stop_measure r) as Hset.
    { intros t' r2 Hlt Hnj Hub E1 E2 E3 Hok2. unfold stopping, stop_measure. rewrite E1, E2, E3.
      pose proof (sum_insert turns_left _ _ _ t' Ht). split; [|lia]. split_and!; [done..|].
      destruct (control_ r) as [|k| |] eqn:Ek; try done.
      - intros Hin%list_elem_of_lookup_1. destruct Hin as [j Hj']. rewrite lookup_drop in Hj'.
        apply list_lookup_insert_Some in Hj' as [(_ & ? & _)|[_ Hx]]; [done|]. apply Hc.
        apply list_elem_of_lookup_2 with j. by rewrite lookup_drop.
      - pose proof (Forall_lookup_1 _ _ _ _ Hc Ht). congruence. }
    destruct t; try done.
    + rewrite Hs in E'. injection E' as <-. by apply (Hset Returned); cbn; try lia.
    + apply bind_Some in E' as (w & _ & [= <-]). by apply (Hset Sleeps); cbn; try lia.
    + injection E' as <-. by apply (Hset Checks); cbn; try lia.
  - assert (join_turn r = Some r') as E' by (by destruct (control_ r)). clear E. unfold join_turn in E'.
    destruct (control_ r) as [|k| |] eqn:Ek; try done. destruct (Hj k eq_refl) as (_ & Hk4 & Hall).
    assert (drop (S k) (threads r) `suffix_of` drop k (threads r)) as Hsuf.
    { rewrite <-Nat.add_1_r, <-drop_drop. apply suffix_drop. }
    destruct (threads r !! k) as [[]|] eqn:Hk; try done; injection E' as <-; cbn.
    + split; [|lia]. split_and!; [done..|]. intros Hin. apply Hc. destruct Hsuf as [z ->]. set_solver.
    + pose proof (sum_insert turns_left _ _ _ Joined Hk) as Hsum. cbn in Hsum. split; [|lia]. split_and!; [done..|].
      rewrite drop_insert_lt by lia. intros Hin. apply Hc. destruct Hsuf as [z ->]. set_solver.
    + destruct Hc. apply list_elem_of_lookup_2 with 0. by rewrite lookup_drop, Nat.add_0_r.
    + split; [|lia]. split_and!; [done..|]. apply lookup_ge_None in Hk. by rewrite take_ge in Hall by lia.
Qed.

Lemma stopping_progress r k : stopping r -> control_ r = Joining k -> exists e, stop_event e /\ is_Some (tstep e r).
Proof.
  intros (Hok & Hs & Hc) Ek. rewrite Ek in Hc. unfold tstep. rewrite Ek. destruct (threads r !! k) as [t|] eqn:Ht.
  - destruct t; [exists JoinTurns|exists (LoopTurns k)|exists (LoopTurns k)|exists (LoopTurns k)|exists JoinTurns|exists JoinTurns];
      (split; [done|]); unfold loop_turn, join_turn; rewrite ?Ek, ?Ht; try done.
    destruct (lookup_lt_is_Some_2 join_order k) as [w ->]; [|done].
    apply lookup_lt_Some in Ht. by rewrite (tk_length _ Hok) in Ht.
  - exists JoinTurns. split; [done|]. unfold join_turn. by rewrite Ek, Ht.
Qed.

Lemma Stop_stopping r : threads_ok r -> Joined ∉ threads r -> stopping (Stop_threads r).
Proof.
  intros [Hl _] Hj. split_and!; [split; cbn; [done|]|done|cbn; by rewrite drop_0].
  intros k [= <-]. split_and!; [done|lia|done].
Qed.

Lemma stop_measure_bound r : threads_ok r -> stop_measure (Stop_threads r) <= 17.
Proof.
  intros [Hl _]. unfold stop_measure. cbn. assert (forall l, sum_list_with turns_left l <= 3 * length l) as Hb.
  { induction l as [|t l IH]; cbn; [lia|]. assert (turns_left t <= 3) by (destruct t; cbn; lia). lia. }
  specialize (Hb (threads r)). lia.
Qed.
End threads.

(** C30: Stop returns, and nobody works on the node after it.  Whenever Stop is called on
    a node whose threads have not been joined before, started or not, the loops and the joins
    come to an end after at most 17 of their steps, in whatever order they are
    scheduled: as long as Stop has not returned one of them can move, no join fails, and
    when it has returned no loop can move any more. *)
Theorem raft_stop_returns {Node} (body : background -> Node -> Node) n es r es' r' :
  exec (tstep body) es (RaftThreads_new n) = Some r -> Joined ∉ threads r ->
  Forall stop_event es' -> exec (tstep body) es' (Stop_threads r) = Some r' ->
  length es' <= 17 /\ stopped_ r' = true
  /\ ((exists k, control_ r' = Joining k) /\ (exists e, stop_event e /\ is_Some (tstep body e r'))
      \/ control_ r' = Over /\ forall i, loop_turn body i r' = None).
Proof.
  intros Hrun Hj Hall Hrun'.
  pose proof (exec_inv (tstep body) threads_ok (tstep_ok body) _ _ _ (RaftThreads_new_ok n) Hrun) as Hok.
  assert (stopping r' /\ length es' + stop_measure r' <= stop_measure (Stop_threads r)) as [Hst Hlen].
  { pose proof (Stop_stopping r Hok Hj) as H0. revert H0 Hrun'. generalize (Stop_threads r) as r0.
    induction Hall as [|e es0 He Hall IH]; intros r0 H0; simpl; [intros [= <-]; split; [done|lia]|].
    intros (r1 & E1 & E2)%bind_Some. destruct (stopping_step body e r0 r1 H0 He E1) as [H1 Hlt].
    destruct (IH r1 H1 E2) as [H2 H3]. split; [done|lia]. }
  pose proof (stop_measure_bound r Hok) as Hb. split; [lia|]. pose proof Hst as (Hok' & Hs & Hc). split; [done|].
  destruct (control_ r') as [|k| |] eqn:Ec; try done.
  - left. split; [by exists k|]. by apply (stopping_progress body r' k).
  - right. split; [done|]. intros i. unfold loop_turn. destruct (threads r' !! i) as [t|] eqn:Ht; [|done].
    pose proof (Forall_lookup_1 _ _ _ _ Hc Ht) as Hx. by destruct t.
Qed.

(** A second Stop joins a thread that was joined: the process ends. *)
Lemma second_stop_terminates {Node} (body : background -> Node -> Node) r :
  control_ r = Over -> threads r !! 0 = Some Joined ->
  exists r', exec (tstep body) [Stops; JoinTurns] r = Some r' /\ control_ r' = Terminated.
Proof.
  intros Hc Ht. exists (set_control Terminated (Stop_threads r)). split; [|done].
  assert (tstep body Stops r = Some (Stop_threads r)) as E1 by (unfold tstep; by rewrite Hc).
  assert (tstep body JoinTurns (Stop_threads r) = Some (set_control Terminated (Stop_threads r))) as E2
    by (unfold tstep, join_turn; cbn [control_ Stop_threads threads]; by rewrite Ht).
  cbn [exec]. rewrite E1. cbn [mbind option_bind]. rewrite E2. done.
Qed.

(** Starting a node that runs replaces a joinable thread. *)
Lemma second_start_terminates {Node} (r : RaftThreads (Node := Node)) t i :
  threads r !! i = Some t -> joinable t = true -> control_ (Start r) = Terminated.
Proof.
  intros Ht Hj. unfold Start. destruct (forallb _ _) eqn:E; [|done]. rewrite forallb_forall in E.
  specialize (E t). rewrite Hj in E. discriminate E. apply list_elem_of_In. by eapply list_elem_of_lookup_2.
Qed.

(** RoleToString. *)
Definition RoleToString (role : RaftRole) : bytes :=
  match role with follower => lit "follower" | candidate => lit "candidate" | leader => lit "leader" end.

Lemma RoleToString_inj role role' : RoleToString role = RoleToString role' -> role = role'.
Proof. by destruct role, role'. Qed.

Module Examples.

(** A counter for a node. *)
Definition counts : background -> nat -> nat := fun _ n => S n.
Definition started : list tevent := [Starts; LoopTurns 0; LoopTurns 2; LoopTurns 2; LoopTurns 3].
Definition running : RaftThreads (Node := nat) := default (RaftThreads_new 0) (exec (tstep counts) started (RaftThreads_new 0)).
Definition stop_run : list tevent :=
  [LoopTurns 0; LoopTurns 1; LoopTurns 0; LoopTurns 2; LoopTurns 0; JoinTurns; JoinTurns; LoopTurns 2; JoinTurns; LoopTurns 3;
   LoopTurns 3; LoopTurns 3; JoinTurns; JoinTurns].
Definition stopped : RaftThreads (Node := nat) := default running (exec (tstep counts) stop_run (Stop_threads running)).

Lemma raft_stop_returns_witness :
  node stopped = 3 /\ control_ stopped = Over /\ loop_turn counts 1 stopped = None.
Proof.
  destruct (raft_stop_returns counts 0 started running stop_run stopped) as (_ & _ & [[[k Hk] _]|[_ H]]);
    [vm_compute; reflexivity|vm_compute; set_solver|repeat constructor|vm_compute; reflexivity|vm_compute in Hk; discriminate|].
  split; [vm_compute; reflexivity|]. split; [vm_compute; reflexivity|]. apply H.
Defined.
End Examples.
