(* ===== verification/Sockets.v ===== *)
(** * Descriptors of connections (src/bitdb/net/socket.{h,cpp}, tcp/tcp_connection.{h,cpp},
      tcp/tcp_acceptor.cpp, tcp/tcp_client.cpp, rpc/rpc_client.h)

    Who closes a descriptor, and when: a Socket owns one, a TcpConnection a Socket.  The
    kernel is the set of open descriptors and of those registered with an epoll
    instance; closing a descriptor takes it out of both. *)

From S2P Require Import Prelude BlockingClient.

(** [close_calls]: the descriptors [::close] was called with, in order. *)
Record Kernel := mkKernel { open_fds : gset nat; epolled : gset nat; close_calls : list nat }.

(** [fd_] is [None] for -1. *)
Record Socket := mkSocket { fd_ : option nat; detached_ : bool; sock_closed : bool }.
Record TcpConnection := mkConnection { socket_ : Socket; conn_closed : bool }.

Record Life := mkLife { kernel : Kernel; connection : TcpConnection }.
Abbreviation LifeM := (M Life Empty_set).

Definition in_kernel (f : Kernel -> Kernel) (l : Life) : Life := mkLife (f (kernel l)) (connection l).
Definition on_socket (f : Socket -> Socket) (l : Life) : Life :=
  mkLife (kernel l) (mkConnection (f (socket_ (connection l))) (conn_closed (connection l))).
Definition sock (l : Life) : Socket := socket_ (connection l).

(** [::close]: of a descriptor that is not open it does nothing but fail. *)
Definition sys_close (fd : option nat) (k : Kernel) : Kernel :=
  if fd is Some fd then mkKernel (open_fds k ∖ {[fd]}) (epolled k ∖ {[fd]}) (close_calls k ++ [fd]) else k.

Definition Socket_Close : LifeM unit :=
  s ← gets sock;
  modify (in_kernel (sys_close (fd_ s)));;
  modify (on_socket (fun s => mkSocket (fd_ s) (detached_ s) true)).

(** ~Socket. *)
Definition Socket_destroy : LifeM unit :=
  s ← gets sock;
  if bool_decide (fd_ s <> None) && negb (sock_closed s) then modify (in_kernel (sys_close (fd_ s))) else mret tt.

(** A connection on a descriptor that was just made. *)
Definition TcpConnection_new (fd : nat) : TcpConnection := mkConnection (mkSocket (Some fd) true false) false.

Definition TcpConnection_Close : LifeM unit :=
  c ← gets connection;
  (if conn_closed c then mret tt else Socket_Close);;
  modify (fun l => mkLife (kernel l) (mkConnection (socket_ (connection l)) true)).

(** EventManager::Attach and Detach, as far as descriptors go: epoll_ctl of a descriptor
    that is not open, or not registered, ends the process. *)
Definition Attach_fd : LifeM unit :=
  s ← gets sock;
  k ← gets kernel;
  modify (on_socket (fun s => mkSocket (fd_ s) false (sock_closed s)));;
  match fd_ s with
  | Some fd => if decide (fd ∈ open_fds k /\ fd ∉ epolled k)
               then modify (in_kernel (fun k => mkKernel (open_fds k) ({[fd]} ∪ epolled k) (close_calls k))) else undef ProcessExit
  | None => undef ProcessExit
  end.
Definition Detach_fd : LifeM unit :=
  s ← gets sock;
  k ← gets kernel;
  modify (on_socket (fun s => mkSocket (fd_ s) true (sock_closed s)));;
  match fd_ s with
  | Some fd => if decide (fd ∈ epolled k)
               then modify (in_kernel (fun k => mkKernel (open_fds k) (epolled k ∖ {[fd]}) (close_calls k))) else undef ProcessExit
  | None => undef ProcessExit
  end.

(** ~TcpConnection, and with it the Socket. *)
Definition TcpConnection_destroy : LifeM unit :=
  s ← gets sock;
  (if bool_decide (fd_ s <> None) && negb (detached_ s) then Detach_fd else mret tt);;
  Socket_destroy.

(** The life of a connection: attached once it had to wait, closed any number of times (by
    the timer of an HTTP request), destroyed. *)
Fixpoint times (n : nat) (m : LifeM unit) : LifeM unit :=
  match n with O => mret tt | S n => m;; times n m end.
Definition life (attached : bool) (closes : nat) : LifeM unit :=
  (if attached then Attach_fd else mret tt);;
  times closes TcpConnection_Close;;
  TcpConnection_destroy.

(** ** Making connections *)

(** BindAddress and Listen end the process when the system refuses; TcpAcceptor's
    constructor calls both. *)
Definition BindAddress (bind_ok : bool) : LifeM unit := if bind_ok then mret tt else undef ProcessExit.
Definition Listen (listen_ok : bool) : LifeM unit := if listen_ok then mret tt else undef ProcessExit.
Definition TcpAcceptor_new (bind_ok listen_ok : bool) : LifeM unit := BindAddress bind_ok;; Listen listen_ok.

(** block_connect: [None] for null; otherwise whether the descriptor is connected. *)
Definition block_connect (sock_fd : option nat) (answer : nat -> connect_res) : M nat Empty_set (option (TcpConnection * bool)) :=
  match sock_fd with
  | None => mret None
  | Some fd => ok ← connect answer; mret (Some (TcpConnection_new fd, ok))
  end.

(** RpcClient::BlockConnect: a connection is enough. *)
Definition BlockConnect (sock_fd : option nat) (answer : nat -> connect_res) : M nat Empty_set bool :=
  conn_ ← block_connect sock_fd answer; mret (bool_decide (conn_ <> None)).

(** ** Lemmas *)

Lemma Close_again l : conn_closed (connection l) = true -> TcpConnection_Close l = (Ret tt, l).
Proof. intros H. unfold TcpConnection_Close. autorewrite with monad. rewrite H. autorewrite with monad. by destruct l as [k [s []]]. Qed.

Lemma Close_first l fd : fd_ (sock l) = Some fd -> conn_closed (connection l) = false ->
  TcpConnection_Close l = (Ret tt, mkLife (sys_close (Some fd) (kernel l))
                             (mkConnection (mkSocket (Some fd) (detached_ (sock l)) true) true)).
Proof.
  intros Hfd H. unfold TcpConnection_Close, Socket_Close. autorewrite with monad. rewrite H. rewrite bind_assoc.
  autorewrite with monad. rewrite bind_assoc. autorewrite with monad.
  unfold in_kernel, on_socket, sock in *. cbn. by rewrite Hfd.
Qed.

Lemma times_closed n l : conn_closed (connection l) = true -> times n TcpConnection_Close l = (Ret tt, l).
Proof. intros H. induction n as [|n IH]; [done|]. cbn [times]. mstep (Close_again l H). exact IH. Qed.

Lemma times_close n k fd d : times n TcpConnection_Close (mkLife k (mkConnection (mkSocket (Some fd) d false) false))
  = (Ret tt, if n is S _ then mkLife (sys_close (Some fd) k) (mkConnection (mkSocket (Some fd) d true) true)
             else mkLife k (mkConnection (mkSocket (Some fd) d false) false)).
Proof.
  destruct n as [|n]; [done|]. cbn [times]. mstep (Close_first (mkLife k (mkConnection (mkSocket (Some fd) d false) false)) fd eq_refl eq_refl).
  by apply times_closed.
Qed.

(** The end of a connection that is not attached: its descriptor is closed unless it was
    already. *)
Lemma destroy_detached k fd c cc : TcpConnection_destroy (mkLife k (mkConnection (mkSocket (Some fd) true c) cc))
  = (Ret tt, mkLife (if c : bool then k else sys_close (Some fd) k) (mkConnection (mkSocket (Some fd) true c) cc)).
Proof.
  unfold TcpConnection_destroy, Socket_destroy. autorewrite with monad. cbn [fd_ detached_ sock socket_ connection].
  rewrite andb_false_r. autorewrite with monad. cbn [fd_ sock_closed sock socket_ connection].
  rewrite bool_decide_true by done. by destruct c.
Qed.

Lemma destroy_attached k fd c cc : TcpConnection_destroy (mkLife k (mkConnection (mkSocket (Some fd) false c) cc))
  = if decide (fd ∈ epolled k)
    then TcpConnection_destroy (mkLife (mkKernel (open_fds k) (epolled k ∖ {[fd]}) (close_calls k)) (mkConnection (mkSocket (Some fd) true c) cc))
    else (Undef ProcessExit, mkLife k (mkConnection (mkSocket (Some fd) true c) cc)).
Proof.
  rewrite destroy_detached. unfold TcpConnection_destroy, Socket_destroy, Detach_fd. autorewrite with monad.
  cbn [fd_ detached_ sock socket_ connection]. rewrite bool_decide_true by done. cbn [andb negb].
  rewrite bind_assoc. autorewrite with monad. rewrite bind_assoc. autorewrite with monad. rewrite bind_assoc. autorewrite with monad.
  cbn [fd_ sock socket_ connection kernel]. case_decide; [|done].
  autorewrite with monad. cbn [fd_ sock_closed sock socket_ connection on_socket in_kernel kernel].
  rewrite bool_decide_true by done. by destruct c.
Qed.

(** C40: a descriptor is closed once.  A connection that is never attached to the reactor,
    or never closed before its end, gives its descriptor back with one call of close, however often
    Close is called, and touches no other descriptor; but one that was attached and then
    closed takes the process with it, because its destructor asks epoll to remove a descriptor
    that is gone. *)
Theorem connection_life k fd attached closes :
  fd ∈ open_fds k -> fd ∉ epolled k ->
  let r := life attached closes (mkLife k (TcpConnection_new fd)) in
  (attached = false \/ closes = 0 ->
   r.1 = Ret tt /\ open_fds (kernel r.2) = open_fds k ∖ {[fd]} /\ epolled (kernel r.2) = epolled k
   /\ close_calls (kernel r.2) = close_calls k ++ [fd])
  /\ (attached = true -> 0 < closes -> r.1 = Undef ProcessExit).
Proof.
  intros Hopen Hep r. subst r. unfold life, TcpConnection_new.
  assert (epolled k ∖ {[fd]} = epolled k) as Hd by set_solver.
  destruct attached.
  - unfold Attach_fd. rewrite bind_assoc. autorewrite with monad. rewrite bind_assoc. autorewrite with monad.
    rewrite bind_assoc. autorewrite with monad. cbn [fd_ sock socket_ connection kernel]. rewrite decide_True by done.
    autorewrite with monad. cbn [on_socket in_kernel kernel connection socket_ fd_ sock_closed conn_closed].
    mstep (times_close closes (mkKernel (open_fds k) ({[fd]} ∪ epolled k) (close_calls k)) fd false).
    destruct closes as [|n].
    + split; [|lia]. intros _. rewrite destroy_attached, decide_True, destroy_detached by (cbn; set_solver). cbn.
      split_and!; [done|set_solver|set_solver|done].
    + split; [intros [|]; done|]. intros _ _. rewrite destroy_attached, decide_False by (cbn; set_solver). done.
  - autorewrite with monad. mstep (times_close closes k fd true). split; [|done]. intros _.
    destruct closes as [|n]; rewrite destroy_detached; cbn; by rewrite Hd.
Qed.

Module Examples.

Definition kernel0 : Kernel := mkKernel {[3; 4; 7]} {[3]} [].

Lemma connection_life_witness :
  (life true 2 (mkLife kernel0 (TcpConnection_new 7))).1 = Undef ProcessExit
  /\ 4 ∈ open_fds (kernel (life true 0 (mkLife kernel0 (TcpConnection_new 7))).2).
Proof.
  assert (7 ∈ open_fds kernel0) as H1 by (vm_compute; reflexivity || set_solver).
  assert (7 ∉ epolled kernel0) as H2 by set_solver. split.
  - apply (proj2 (connection_life kernel0 7 true 2 H1 H2)); [reflexivity|lia].
  - destruct (proj1 (connection_life kernel0 7 true 0 H1 H2)) as (_ & -> & _); [right; reflexivity|]. unfold kernel0. cbn. set_solver.
Defined.

(** Fifty answers EINPROGRESS: a connection that is not connected. *)
Example connected_or_not : (BlockConnect (Some 5) (fun _ => InProgress) 0).1 = Ret true.
Proof. vm_compute. reflexivity. Qed.
End Examples.
