(* ===== verification/RpcTyped.v ===== *)
(** * Remote calls of typed functions
      (src/bitdb/net/rpc/invoke_helper.h, rpc_server.h, rpc_client.h)

    Bind takes any function; the types of its parameters and of its result choose the
    serializer's overloads.  With the types of SerializerTypes.v the whole path can be
    put together: from the arguments of the call through two connections to the function
    and back. *)

From S2P Require Import Prelude Serializer SerializerTypes Packet Rpc.

(** ** invoke_helper.h *)

(** A function of parameters [ts]. *)
Fixpoint arrows (ts : ctypes) (R : Type) : Type :=
  match ts with TNil => R | TCons t ts => interp t -> arrows ts R end.

(** The return type, [void] or a type; [type_xx] puts a byte in the place of [void]. *)
Inductive return_t := RVoid | RType (t : ctype).
Definition result (r : return_t) : Type := match r with RVoid => unit | RType t => interp t end.
Definition type_xx (r : return_t) : ctype := match r with RVoid => TSigned W8 | RType t => t end.

(** [func(std::get<Index>(t)...)], the indices in order. *)
Fixpoint invoke {R} (ts : ctypes) : arrows ts R -> interps ts -> R :=
  match ts with
  | TNil => fun func _ => func
  | TCons t ts => fun func args => invoke ts (func args.1) args.2
  end.

(** The overload for [void] has no return statement. *)
Definition call_helper {W} (ts : ctypes) (r : return_t)
    : arrows ts (M W Empty_set (result r)) -> interps ts -> M W Empty_set (interp (type_xx r)) :=
  match r with
  | RVoid => fun func args => invoke ts func args;; undef BadRepresentation
  | RType _ => fun func args => invoke ts func args
  end.

(** ** Binding *)

Section typed.
Context {W : Type} (ts : ctypes) (r : return_t).
(** The overloads the compiler finds. *)
Context (f : interps ts -> Serializer -> Serializer) (g : interps ts -> SerM (interps ts)).
Context (fr : interp (type_xx r) -> Serializer -> Serializer) (gr : interp (type_xx r) -> SerM (interp (type_xx r))).

Definition args_ : Codec (interps ts) := mkCodec f g.
Definition result_ : Codec (interp (type_xx r)) := mkCodec fr gr.

(** CallProxy_ of a function. *)
Definition CallProxy_ (func : arrows ts (M W Empty_set (result r))) : HandleFunc W :=
  CallProxy args_ (values_init ts) result_ (call_helper ts r func).

Definition BindTyped (name : bytes) (func : arrows ts (M W Empty_set (result r))) (srv : RpcServer W) : RpcServer W :=
  Bind name args_ (values_init ts) result_ (call_helper ts r func) srv.

Definition CallTyped (name : bytes) (args : interps ts) : ClientM (RpcResponse (interp (type_xx r))) :=
  Call args_ result_ (value_init (type_xx r)) name args.

Hypothesis Hf : serialize_instances ts = Some f.
Hypothesis Hg : deserialize_instances ts = Some g.
Hypothesis Hfr : serialize_instance (type_xx r) = Some fr.
Hypothesis Hgr : deserialize_instance (type_xx r) = Some gr.

Lemma args_roundtrip : RoundTrip args_ (have_types ts) (encodings ts).
Proof.
  split; [exact (proj2 serialize_instance_emits ts f Hf)|].
  exact (deserialize_enc (RoundTrip := proj2 deserialize_instance_reads ts g Hg)).
Qed.

Lemma result_roundtrip : RoundTrip result_ (has_type (type_xx r)) (encoding (type_xx r)).
Proof.
  split; [exact (proj1 serialize_instance_emits _ fr Hfr)|].
  exact (deserialize_enc (RoundTrip := proj1 deserialize_instance_reads _ gr Hgr)).
Qed.
End typed.

Lemma c_str_name name : NUL ∉ name -> default [] (c_str (name ++ [NUL])) = name.
Proof. intros H. by rewrite (c_str_no_nul name [] H). Qed.

(** C17: a remote call is a local call.  For every list of parameter types and every result
    type that the serializer can read and write, a function bound on a server under a name
    without NUL, and a caller that gives arguments of these types: the server, given the
    caller's packet, runs the function once on exactly these arguments and sends one packet; and the
    caller that finds this packet on its connection returns what the function
    returned.  Both streams may be cut into any pieces. *)
Theorem typed_rpc_is_local {W} ts t f g fr gr name (func : arrows ts (M W Empty_set (interp t))) srv args w v w'
    ssock csock e rest :
  serialize_instances ts = Some f -> deserialize_instances ts = Some g ->
  serialize_instance t = Some fr -> deserialize_instance t = Some gr ->
  NUL ∉ name -> string_wf name -> have_types ts args -> has_type t v ->
  invoke ts func args w = (Ret v, w') ->
  let req := str (request (args_ ts f g) name args) in
  let rep := reply (result_ (RType t) fr gr) v in
  small req -> small rep ->
  up ssock -> inbox ssock = packet req -> up csock -> inbox csock = packet rep ++ rest ->
  e ≠ code_of RPC_ERR_RECV_TIMEOUT ->
  (exists ssock', OnRequest (BindTyped ts (RType t) f g fr gr name func srv) (ssock, w) = (Ret tt, (ssock', w'))
    /\ sent ssock' = sent ssock ++ packet rep)
  /\ exists es, CallTyped ts (RType t) f g fr gr name args (mkClient e (Some csock))
     = (Ret (mkResponse (code_of RPC_SUCCECC) [] v),
        mkClient (code_of RPC_SUCCECC) (Some (mkSocket rest (sent csock ++ packet req) false es))).
Proof.
  intros Hf Hg Hfr Hgr Hn Hnwf Ha Hv Hfunc req rep Hq Hp Hus His Huc Hic He.
  pose proof (args_roundtrip ts f g Hf Hg) as Hargs. pose proof (result_roundtrip (RType t) fr gr Hfr Hgr) as Hres.
  assert (handlers_ (BindTyped ts (RType t) f g fr gr name func srv) !! name
          = Some (CallProxy_ ts (RType t) f g fr gr func)) as Hb.
  { unfold BindTyped, Bind. rewrite c_str_name by done. cbn [handlers_]. apply lookup_insert_eq. }
  split.
  - assert (answers (BindTyped ts (RType t) f g fr gr name func srv) [req] w [rep] w') as Han.
    { econstructor; [|constructor]. eapply (answer_bound (args_ ts f g) _ _ (result_ (RType t) fr gr)); eauto. }
    unfold OnRequest. autorewrite with monad.
    destruct (on_request_loop_answers _ _ _ _ _ Han ltac:(by constructor) ltac:(by constructor)
                (S (length (inbox ssock))) ssock Hus) as (s' & E & Hs).
    + rewrite His. cbn. by rewrite app_nil_r.
    + rewrite His. cbn [length]. pose proof (packet_length req). lia.
    + exists s'. split; [exact E|]. rewrite Hs. cbn. by rewrite app_nil_r.
  - unfold CallTyped, Call. exact (NetCall_reply (result_ (RType t) fr gr) _ _ _ e csock _ v rest He Huc Hv Hq Hp Hic).
Qed.

(** A bound function without a result: the helper flows off its end, and the server's
    behaviour is undefined from there on. *)
Lemma void_function_undefined {W} ts f g fr gr name (func : arrows ts (M W Empty_set unit)) srv args w w' :
  serialize_instances ts = Some f -> deserialize_instances ts = Some g ->
  NUL ∉ name -> string_wf name -> have_types ts args -> invoke ts func args w = (Ret tt, w') ->
  answer (BindTyped ts RVoid f g fr gr name func srv) (str (request (args_ ts f g) name args)) w
  = (Undef BadRepresentation, w').
Proof.
  intros Hf Hg Hn Hnwf Ha Hfunc. pose proof (args_roundtrip ts f g Hf Hg) as Hargs.
  unfold answer. rewrite (request_bytes (args_ ts f g) (have_types ts) (encodings ts)).
  pose proof (deserialize_enc (c := string_) name [] [] (encodings ts args) Hnwf) as E.
  mstep (with_serializer_Ret _ _ _ _ w E). unfold CallImpl, BindTyped, Bind. cbn [fst snd handlers_].
  rewrite c_str_name, lookup_insert_eq by done. unfold CallProxy. rewrite bind_assoc.
  pose proof (deserialize_enc (RoundTrip := Hargs) args (values_init ts) (string_enc name) [] Ha) as E'.
  rewrite app_nil_r in E'. cbn [length Nat.add].
  mstep (with_serializer_Ret _ _ _ _ w E'). rewrite bind_assoc. unfold call_helper. cbn [fst].
  rewrite bind_assoc. mstep Hfunc. done.
Qed.

Module Examples.

(** int32_t push(std::string, std::deque<int32_t>), on an object that counts. *)
Definition push_params : ctypes := TCons TString (TCons (TSequence Deque (TSigned W32)) TNil).
Definition push_result : ctype := TSigned W32.
Definition push : arrows push_params (M Z Empty_set (interp push_result)) :=
  fun key values => modify (Z.add (Z.of_nat (length values)));; n ← get; mret (n - Z.of_nat (length key))%Z.
Definition push_f := default (fun _ s => s) (serialize_instances push_params).
Definition push_g := default mret (deserialize_instances push_params).
Definition push_fr := default (fun _ s => s) (serialize_instance push_result).
Definition push_gr := default mret (deserialize_instance push_result).
Definition push_args : interps push_params := (lit "key", ([1; -1], tt))%Z.
Definition push_request : bytes := str (request (args_ push_params push_f push_g) (lit "push") push_args).
Definition push_reply : bytes := reply (result_ (RType push_result) push_fr push_gr) 39%Z.
Definition push_server : RpcServer Z :=
  BindTyped push_params (RType push_result) push_f push_g push_fr push_gr (lit "push") push (mkServer ∅).
Definition server_socket : Socket := mkSocket (packet push_request) [] false [Ready 1; Again; Ready 0].
Definition client_socket : Socket := mkSocket (packet push_reply) [] false [Again; Ready 2].

Lemma typed_rpc_is_local_witness : exists es,
  CallTyped push_params (RType push_result) push_f push_g push_fr push_gr (lit "push") push_args
    (mkClient 0 (Some client_socket))
  = (Ret (mkResponse 0 [] 39%Z), mkClient 0 (Some (mkSocket [] (packet push_request) false es))).
Proof.
  destruct (typed_rpc_is_local push_params push_result push_f push_g push_fr push_gr (lit "push") push (mkServer ∅)
    push_args 40%Z 39%Z 42%Z server_socket client_socket 0 []) as (_ & es & H);
    [reflexivity|reflexivity|reflexivity|reflexivity|by vm_decide|by vm_compute|
     |split; by vm_compute|reflexivity|by vm_compute|by vm_compute|split; [reflexivity|by vm_decide]|reflexivity
     |split; [reflexivity|by vm_decide]|symmetry; apply app_nil_r|by vm_compute|].
  - split; [by vm_compute|]. split; [|exact I]. split; [by vm_compute|]. repeat constructor; by vm_compute.
  - exists es. exact H.
Defined.
End Examples.
