(* ===== verification/Helpers.v ===== *)
(** * Small helpers (src/bitdb/utils/defer.h, common/singleton.h, timer/time_utils.h,
      io/io_interface.h)

    Scope guards, the object that is made once, the clock in milliseconds, the
    permissions of data files. *)

From S2P Require Import Prelude.

(** ** Scope guards *)

(** Guards of one scope run in the reverse order of their declarations, after the
    rest of the scope, whether it returns or fails. *)
Lemma defer_reverse {S E A} (d1 d2 : M S E unit) (m : M S E A) s r s1 s2 s3 :
  m s = (r, s1) -> (forall u, r <> Undef u) -> d2 s1 = (Ret tt, s2) -> d1 s2 = (Ret tt, s3) ->
  defer d1 (defer d2 m) s = (r, s3).
Proof.
  intros Hm Hr H2 H1. unfold defer. rewrite Hm. destruct r as [a|e|u]; [..|by destruct (Hr u)]; by rewrite H2, H1.
Qed.

(** ** Singleton *)

(** [Get]: the object is constructed by the first call; the result is its address. *)
Definition Get {S E T} (construct : M S E T) : M (S * option T) E T := fun '(s, instance) =>
  match instance with
  | Some t => (Ret t, (s, instance))
  | None => match construct s with
            | (Ret t, s) => (Ret t, (s, Some t))
            | (Throw e, s) => (Throw e, (s, None))
            | (Undef u, s) => (Undef u, (s, None))
            end
  end.

(** [n] calls. *)
Fixpoint Get_times {S E T} (construct : M S E T) (n : nat) : M (S * option T) E (list T) :=
  match n with O => mret [] | S n => t ← Get construct; ts ← Get_times construct n; mret (t :: ts) end.

Lemma Get_constructed {S E T} (construct : M S E T) n s t :
  Get_times construct n (s, Some t) = (Ret (replicate n t), (s, Some t)).
Proof.
  induction n as [|n IH]; [done|]. cbn [Get_times replicate].
  assert (Get construct (s, Some t) = (Ret t, (s, Some t))) as E1 by done. mstep E1. by mstep IH.
Qed.

(** However often it is asked for, the object is constructed once, and all callers get
    the same. *)
Lemma Get_constructs_once {S E T} (construct : M S E T) n s t s' : construct s = (Ret t, s') ->
  Get_times construct (1 + n) (s, None) = (Ret (replicate (1 + n) t), (s', Some t)).
Proof.
  intros Hc. cbn [Get_times Nat.add replicate].
  assert (Get construct (s, None) = (Ret t, (s', Some t))) as E1 by (cbn; by rewrite Hc).
  mstep E1. by mstep (Get_constructed construct n s' t).
Qed.

(** ** The clock *)

Definition NS_PER_MS : Z := 1000000.

(** [duration_cast] to milliseconds, towards zero. *)
Definition ClockMS (now_ns : Z) : Z := Z.quot now_ns NS_PER_MS.
Definition TimeDiff (t1 t2 : Z) : Z := t1 - t2.
Definition TimeDiffNow (now_ns last_time : Z) : Z := TimeDiff (ClockMS now_ns) last_time.

(** A difference of two readings is right to the millisecond, and never negative while the
    clock does not go back. *)
Lemma TimeDiffNow_bounds t1 t2 : (0 <= t1 <= t2)%Z ->
  let d := TimeDiffNow t2 (ClockMS t1) in
  (0 <= d)%Z /\ (t2 - t1 - NS_PER_MS < d * NS_PER_MS < t2 - t1 + NS_PER_MS)%Z.
Proof.
  intros [H0 H1]. unfold TimeDiffNow, TimeDiff, ClockMS. rewrite !Z.quot_div_nonneg by (unfold NS_PER_MS; lia).
  pose proof (Z.div_mod t1 NS_PER_MS ltac:(done)). pose proof (Z.div_mod t2 NS_PER_MS ltac:(done)).
  pose proof (Z.mod_pos_bound t1 NS_PER_MS ltac:(done)). pose proof (Z.mod_pos_bound t2 NS_PER_MS ltac:(done)).
  pose proof (Z.div_le_mono t1 t2 NS_PER_MS ltac:(done) H1). cbn zeta. lia.
Qed.

(** A system clock that is set back gives negative differences, which no timeout is below. *)
Example clock_set_back : TimeDiffNow (5 * NS_PER_MS) (ClockMS (9 * NS_PER_MS)) = (-4)%Z.
Proof. reflexivity. Qed.

(** ** Permissions *)

Definition S_IRWXU : Z := 0x1c0.
Definition S_IROTH : Z := 0x4.
Definition DataFilePerm : Z := Z.lor S_IRWXU S_IROTH.

(** 0704 in octal: the group of the file may not read it, the owner may execute it. *)
Lemma DataFilePerm_octal : DataFilePerm = (7 * 64 + 0 * 8 + 4)%Z /\ DataFilePerm <> (6 * 64 + 4 * 8 + 4)%Z.
Proof. by vm_compute. Qed.
