(* ===== verification/QueueBuffer.v ===== *)
(** * The linked log buffer (src/bitdb/common/buffer.h, Buffer and QueueBuffer)

    Producers take slots of a buffer of [SIZE] items by counting [write_index_] up; the
    consumer reads the slots in order; the producer that fills a buffer is to put the
    next one in its place.  Producers and the consumer interleave between their accesses to
    shared memory.  Buffer declares no default constructor, so QueueBuffer cannot be
    instantiated, and nothing lets [buffer_] point to memory.  What the missing constructor
    gives is the parameter [new_buffer]: as many items as there is memory behind [buffer_],
    none included.  The theorem only has the counters at 0, which is what the default
    constructor of a C++20 [std::atomic] makes them. *)

From S2P Require Import Prelude.

(** The constant; the definitions below take it as [SZ], and the lemmas hold for any
    number of slots over 2. *)
Definition SIZE : nat := Z.to_nat 32768.

Section queue_buffer.
Context {T : Type} (SZ : nat).

(** The items there is memory for, constructed or not, and the atomic counters. *)
Record Buffer := mkBuffer { items : list (option T); write_state_ : list Z }.

(** A producer: outside of Push; with a slot; with its item constructed; with the slot
    marked; told that the buffer is full; waiting for a new buffer. *)
Inductive producer :=
| Ready | HasSlot (v : T) (i : nat) | Constructed (i b : nat) | Marked (i b : nat) | MustSetup | Spinning (v : T).

(** [heap]: the buffers, by number; [None] once destroyed.  [claimed] and [popped]: the
    values that got a slot, by slot, and those the consumer took.  [broken]: memory was
    used that is not there. *)
Record QueueBuffer := mkQB {
  heap : list (option Buffer);
  buffers_ : list nat;
  current_write_buffer_ : nat;
  current_read_buffer_ : option nat;
  write_index_ : Z;
  read_index_ : nat;
  producers : list producer;
  claimed : list T;
  popped : list T;
  broken : bool
}.

Context (new_buffer : Buffer).

Definition SetupNextWriteBuffer (q : QueueBuffer) : QueueBuffer :=
  mkQB (heap q ++ [Some new_buffer]) (buffers_ q ++ [length (heap q)]) (length (heap q)) (current_read_buffer_ q) 0
    (read_index_ q) (producers q) (claimed q) (popped q) (broken q).

Definition QueueBuffer_new (n : nat) : QueueBuffer :=
  SetupNextWriteBuffer (mkQB [] [] 0 None 0 0 (replicate n Ready) [] [] false).

Definition set_producer (p : nat) (st : producer) (q : QueueBuffer) : QueueBuffer :=
  mkQB (heap q) (buffers_ q) (current_write_buffer_ q) (current_read_buffer_ q) (write_index_ q) (read_index_ q)
    (<[p := st]> (producers q)) (claimed q) (popped q) (broken q).
Definition breaks (q : QueueBuffer) : QueueBuffer :=
  mkQB (heap q) (buffers_ q) (current_write_buffer_ q) (current_read_buffer_ q) (write_index_ q) (read_index_ q)
    (producers q) (claimed q) (popped q) true.

(** An access to buffer [b]. *)
Definition on_buffer (b : nat) (f : Buffer -> Buffer) (q : QueueBuffer) : QueueBuffer :=
  match heap q !! b with
  | Some (Some buf) =>
      mkQB (<[b := Some (f buf)]> (heap q)) (buffers_ q) (current_write_buffer_ q) (current_read_buffer_ q) (write_index_ q)
        (read_index_ q) (producers q) (claimed q) (popped q) (broken q)
  | _ => breaks q
  end.

(** [write_index_.fetch_add(1)], at the start of Push and again after the wait. *)
Definition take_slot (p : nat) (v : T) (q : QueueBuffer) : QueueBuffer :=
  let write_index := write_index_ q in
  let fits := bool_decide (write_index < Z.of_nat SZ)%Z in
  mkQB (heap q) (buffers_ q) (current_write_buffer_ q) (current_read_buffer_ q) (u32 (write_index + 1)) (read_index_ q)
    (<[p := if fits then HasSlot v (Z.to_nat write_index) else Spinning v]> (producers q))
    (if fits then claimed q ++ [v] else claimed q) (popped q) (broken q).

Definition construct (i : nat) (v : T) (buf : Buffer) : Buffer := mkBuffer (<[i := Some v]> (items buf)) (write_state_ buf).
Definition store (i : nat) (z : Z) (buf : Buffer) : Buffer := mkBuffer (items buf) (<[i := z]> (write_state_ buf)).

(** Buffer::Push: the item, [store(1)], and [fetch_add(1) + 1 == SIZE] on the slot's own
    counter. *)
Definition produce (p : nat) (q : QueueBuffer) : option QueueBuffer :=
  match producers q !! p with
  | Some (HasSlot v i) =>
      let b := current_write_buffer_ q in
      match heap q !! b with
      | Some (Some buf) =>
          Some (if decide (i < length (items buf))
                then set_producer p (Constructed i b) (on_buffer b (construct i v) q) else breaks q)
      | _ => Some (breaks q)
      end
  | Some (Constructed i b) => Some (set_producer p (Marked i b) (on_buffer b (store i 1) q))
  | Some (Marked i b) =>
      match heap q !! b with
      | Some (Some buf) =>
          old ← write_state_ buf !! i;
          Some (set_producer p (if decide (u32 (old + 1) = Z.of_nat SZ) then MustSetup else Ready)
                  (on_buffer b (store i (u32 (old + 1))) q))
      | _ => Some (breaks q)
      end
  | Some MustSetup => Some (set_producer p Ready (SetupNextWriteBuffer q))
  | Some (Spinning v) =>
      Some (if decide (Z.of_nat SZ <= write_index_ q)%Z then q else take_slot p v q)
  | _ => None
  end.

(** TryPop, by the only consumer. *)
Definition TryPop (q : QueueBuffer) : QueueBuffer :=
  let read_buffer := match current_read_buffer_ q with Some b => Some b | None => head (buffers_ q) end in
  let next cur := mkQB (heap q) (buffers_ q) (current_write_buffer_ q) cur (write_index_ q) (read_index_ q) (producers q)
                    (claimed q) (popped q) (broken q) in
  match read_buffer with
  | None => next None
  | Some b =>
      match heap q !! b with
      | Some (Some buf) =>
          match write_state_ buf !! read_index_ q with
          | None => breaks q
          | Some 0%Z => next (Some b)
          | Some _ =>
              match items buf !! read_index_ q with
              | Some (Some v) =>
                  if decide (S (read_index_ q) = SZ)
                  then mkQB (<[b := None]> (heap q)) (tail (buffers_ q)) (current_write_buffer_ q) None (write_index_ q) 0
                         (producers q) (claimed q) (popped q ++ [v]) (broken q)
                  else mkQB (heap q) (buffers_ q) (current_write_buffer_ q) (Some b) (write_index_ q) (S (read_index_ q))
                         (producers q) (claimed q) (popped q ++ [v]) (broken q)
              | _ => breaks q
              end
          end
      | _ => breaks q
      end
  end.

(** Full, which looks at the counter behind the last slot. *)
Definition Full (buf : Buffer) : bool :=
  match write_state_ buf !! SZ with Some curr_size => bool_decide (u32 (curr_size + 1) = Z.of_nat SZ) | None => false end.

Inductive bevent := Pushes (p : nat) (v : T) | Produces (p : nat) | Pops.

Definition bstep (e : bevent) (q : QueueBuffer) : option QueueBuffer :=
  if broken q then None else
  match e with
  | Pushes p v => if producers q !! p is Some Ready then Some (take_slot p v q) else None
  | Produces p => produce p q
  | Pops => Some (TryPop q)
  end.

(** A machine that runs the events it can take. *)
Fixpoint brun (es : list bevent) (q : QueueBuffer) : QueueBuffer :=
  match es with [] => q | e :: es => brun es (default q (bstep e q)) end.

(** ** The invariant *)

Definition spins (st : producer) : nat := if st is Spinning _ then 1 else 0.
Definition slot_of (st : producer) : option nat :=
  match st with HasSlot _ i | Constructed i _ | Marked i _ => Some i | _ => None end.

(** What the memory shows of a producer with a slot; [None] once the buffer is destroyed. *)
Definition producer_ok (claims : list T) (mem : option Buffer) (st : producer) : Prop :=
  match st with
  | HasSlot v i => claims !! i = Some v /\ exists buf, mem = Some buf /\ write_state_ buf !! i = Some 0%Z
  | Constructed i b => b = 0 /\ exists buf v, mem = Some buf /\ claims !! i = Some v /\ write_state_ buf !! i = Some 0%Z
                       /\ items buf !! i = Some (Some v)
  | Marked i b => b = 0 /\ i < length claims /\ (forall buf, mem = Some buf -> write_state_ buf !! i = Some 1%Z)
  | MustSetup => False
  | _ => True
  end.

(** A counter that is not 0 stands at 1 or 2 and shows an item. *)
Definition shows (claims : list T) (buf : Buffer) (i : nat) (z : Z) : Prop :=
  z = 0%Z \/ ((z = 1 \/ z = 2)%Z /\ exists v, claims !! i = Some v /\ items buf !! i = Some (Some v)).

Record cells_ok (claims : list T) (taken : nat) (buf : Buffer) : Prop := {
  co_states : length (write_state_ buf) = S SZ;
  co_items : length (items buf) = length (items new_buffer);
  co_last : write_state_ buf !! SZ = Some 0%Z;
  co_shows : forall i z, i < SZ -> write_state_ buf !! i = Some z -> shows claims buf i z;
  co_taken : forall i, i < taken -> write_state_ buf !! i <> Some 0%Z
}.

(** The one buffer, in use or destroyed. *)
Definition memory_ok (q : QueueBuffer) (mem : option Buffer) : Prop :=
  heap q = [mem] /\
  match mem with
  | Some buf => buffers_ q = [0] /\ (current_read_buffer_ q = None \/ current_read_buffer_ q = Some 0)
                /\ read_index_ q = length (popped q) /\ length (popped q) < SZ
                /\ cells_ok (claimed q) (length (popped q)) buf
  | None => buffers_ q = [] /\ current_read_buffer_ q = None /\ length (popped q) = SZ
  end.

Record qb_ok (n : nat) (mem : option Buffer) (q : QueueBuffer) : Prop := {
  qk_number : length (producers q) = n;
  qk_write : write_index_ q = (Z.of_nat (length (claimed q)) + Z.of_nat (sum_list_with spins (producers q)))%Z;
  qk_full : 0 < sum_list_with spins (producers q) -> length (claimed q) = SZ;
  qk_claimed : length (claimed q) <= SZ;
  qk_current : current_write_buffer_ q = 0;
  qk_unique : forall p p' st st' i, producers q !! p = Some st -> producers q !! p' = Some st' ->
                slot_of st = Some i -> slot_of st' = Some i -> p = p';
  qk_popped : popped q = take (length (popped q)) (claimed q);
  qk_broken : broken q = true -> mem = None \/ length (items new_buffer) < length (claimed q);
  qk_memory : memory_ok q mem;
  qk_producers : forall p st, producers q !! p = Some st -> producer_ok (claimed q) mem st
}.

Context (HSZ : 2 < SZ).

Lemma sum_list_with_insert {A} (f : A -> nat) (l : list A) (p : nat) (x y : A) :
  l !! p = Some x -> sum_list_with f (<[p := y]> l) + f x = sum_list_with f l + f y.
Proof.
  revert p. induction l as [|z l IH]; intros [|p] E; simplify_eq/=; [lia|]. specialize (IH p E). lia.
Qed.

Lemma sum_spins_le (l : list producer) : sum_list_with spins l <= length l.
Proof. induction l as [|st l IH]; cbn; [done|]. destruct st; cbn; lia. Qed.

Lemma spinning_counted (l : list producer) p v : l !! p = Some (Spinning v) -> 0 < sum_list_with spins l.
Proof. intros E. pose proof (sum_list_with_insert spins l p _ Ready E). cbn in *. lia. Qed.

Lemma popped_le n mem q : qb_ok n mem q -> length (popped q) <= length (claimed q).
Proof. intros [_ _ _ _ _ _ P _ _ _]. rewrite P at 1. rewrite length_take. lia. Qed.

(** More claims keep what is shown. *)
Lemma producer_ok_app claims more mem st : producer_ok claims mem st -> producer_ok (claims ++ more) mem st.
Proof.
  destruct st as [|v i|i b|i b| |v]; cbn; try done.
  - intros (E & H). split; [by apply lookup_app_l_Some|done].
  - intros (-> & buf & v & E & C & H). split; [done|]. exists buf, v. split_and!; try done; [by apply lookup_app_l_Some|apply H..].
  - rewrite length_app. intros (-> & L & H). split_and!; [done|lia|done].
Qed.

Lemma cells_ok_app claims more taken buf : cells_ok claims taken buf -> cells_ok (claims ++ more) taken buf.
Proof.
  intros [C1 C2 CL C3 C4]. split; [done..| |done]. intros i z L E.
  destruct (C3 i z L E) as [->|(Z & v & C & I)]; [by left|]. right. split; [done|]. exists v. split; [by apply lookup_app_l_Some|done].
Qed.

(** An unclaimed slot has its counter at 0. *)
Lemma unclaimed_zero claims taken buf : cells_ok claims taken buf -> length claims < SZ ->
  write_state_ buf !! length claims = Some 0%Z.
Proof.
  intros C L. destruct (lookup_lt_is_Some_2 (write_state_ buf) (length claims)) as [z E]; [rewrite (co_states _ _ _ C); lia|].
  destruct (co_shows _ _ _ C _ _ L E) as [->|(_ & v & H & _)]; [done|]. apply lookup_lt_Some in H. lia.
Qed.

(** An item constructed in a slot whose counter is 0; a counter set to 1 or 2 over it. *)
Lemma cells_ok_construct claims taken buf i v : cells_ok claims taken buf -> write_state_ buf !! i = Some 0%Z ->
  cells_ok claims taken (construct i v buf).
Proof.
  intros [C1 C2 CL C3 C4] E. split; cbn; [done|by rewrite length_insert|done| |done].
  intros j z L H. destruct (C3 j z L H) as [->|(Z & w & C & I)]; [by left|]. right. split; [done|]. exists w. split; [done|].
  cbn. rewrite list_lookup_insert_ne; [done|]. intros ->. rewrite E in H. simplify_eq. lia.
Qed.

Lemma cells_ok_store claims taken buf i v z : cells_ok claims taken buf -> length claims <= SZ -> claims !! i = Some v -> items buf !! i = Some (Some v) ->
  (z = 1 \/ z = 2)%Z -> cells_ok claims taken (store i z buf).
Proof.
  intros [C1 C2 CL C3 C4] LC Cl I Z. split; cbn; [by rewrite length_insert|done| | |].
  - rewrite list_lookup_insert_ne; [done|]. apply lookup_lt_Some in Cl. lia.
  - intros j y L H. apply list_lookup_insert_Some in H as [(-> & -> & _)|(_ & H)]; [|by apply C3].
    right. split; [done|]. by exists v.
  - intros j L H. apply list_lookup_insert_Some in H as [(-> & -> & _)|(_ & H)]; [lia|by apply (C4 j)].
Qed.

(** The producers at other slots do not see what happens at slot [i]. *)
Lemma producer_ok_elsewhere claims buf buf' i st : producer_ok claims (Some buf) st -> slot_of st <> Some i ->
  (forall j, j <> i -> write_state_ buf' !! j = write_state_ buf !! j /\ items buf' !! j = items buf !! j) ->
  producer_ok claims (Some buf') st.
Proof.
  intros H N F. assert (G : forall j, slot_of st = Some j -> write_state_ buf' !! j = write_state_ buf !! j /\ items buf' !! j = items buf !! j)
    by (intros j Ej; apply F; congruence).
  destruct st as [|v j|j b|j b| |v]; cbn in *; try done; destruct (G j eq_refl) as [G1 G2].
  - destruct H as (C & b & [= <-] & E). split; [done|]. exists buf'. by rewrite G1.
  - destruct H as (-> & b' & v & [= <-] & C & E & I). split; [done|]. exists buf', v. by rewrite G1, G2.
  - destruct H as (-> & L & E). split_and!; [done..|]. intros ? [= <-]. rewrite G1. by apply E.
Qed.

Lemma unique_insert (l : list producer) p st st' :
  (forall p p' st st' i, l !! p = Some st -> l !! p' = Some st' -> slot_of st = Some i -> slot_of st' = Some i -> p = p') ->
  l !! p = Some st -> (forall i, slot_of st' = Some i -> slot_of st = Some i \/ forall k s, l !! k = Some s -> slot_of s <> Some i) ->
  forall p1 p2 s1 s2 i, <[p := st']> l !! p1 = Some s1 -> <[p := st']> l !! p2 = Some s2 ->
    slot_of s1 = Some i -> slot_of s2 = Some i -> p1 = p2.
Proof.
  intros U E F p1 p2 s1 s2 i H1 H2 S1 S2.
  apply list_lookup_insert_Some in H1 as [(<- & <- & _)|(N1 & H1)]; apply list_lookup_insert_Some in H2 as [(<- & <- & _)|(N2 & H2)];
    [done| | |by eapply U].
  - destruct (F i S1) as [S0|S0]; [by eapply U|by destruct (S0 _ _ H2)].
  - destruct (F i S2) as [S0|S0]; [by eapply U|by destruct (S0 _ _ H1)].
Qed.

(** A producer moves on with its slot [i], changing the buffer there only. *)
Lemma slot_step n buf q p i st st' f : qb_ok n (Some buf) q -> producers q !! p = Some st ->
  slot_of st = Some i -> (slot_of st' = Some i \/ slot_of st' = None) -> spins st' = 0 ->
  (forall j, j <> i -> write_state_ (f buf) !! j = write_state_ buf !! j /\ items (f buf) !! j = items buf !! j) ->
  cells_ok (claimed q) (length (popped q)) (f buf) -> producer_ok (claimed q) (Some (f buf)) st' ->
  qb_ok n (Some (f buf)) (set_producer p st' (on_buffer 0 f q)).
Proof.
  intros [K1 K2 K3 K4 K5 K6 K7 K8 (M1 & M2 & M3 & M4 & M5 & M6) K10] E S0 S1 P0 F C P.
  assert (S : sum_list_with spins (<[p := st']> (producers q)) = sum_list_with spins (producers q)).
  { pose proof (sum_list_with_insert spins _ p st st' E). destruct st; cbn in *; simplify_eq; lia. }
  unfold set_producer, on_buffer. rewrite M1. cbn. split; cbn; rewrite ?S; try done.
  - by rewrite length_insert.
  - eapply unique_insert; [done..|]. intros j Ej. left. destruct S1; congruence.
  - intros B. by destruct (K8 B); [|right].
  - intros k s Ek. apply list_lookup_insert_Some in Ek as [(<- & <- & _)|(N & Ek)]; [done|].
    eapply producer_ok_elsewhere; [by apply (K10 k)| |done]. intros Si. apply N. by eapply K6.
Qed.

(** The first access of Push. *)
Lemma take_slot_ok n mem q p v st : (Z.of_nat n + Z.of_nat SZ < 2 ^ 32 - 1)%Z -> qb_ok n mem q ->
  producers q !! p = Some st -> st = Ready -> qb_ok n mem (take_slot p v q).
Proof.
  intros B K E ->. pose proof (popped_le _ _ _ K) as PL. destruct K as [K1 K2 K3 K4 K5 K6 K7 K8 K9 K10].
  pose proof (sum_spins_le (producers q)) as SL.
  assert (W : u32 (write_index_ q + 1) = (write_index_ q + 1)%Z) by (unfold u32; apply Z.mod_small; lia).
  assert (S : forall st, sum_list_with spins (<[p := st]> (producers q)) = sum_list_with spins (producers q) + spins st).
  { intros st. pose proof (sum_list_with_insert spins _ p _ st E). cbn in *. lia. }
  unfold take_slot. rewrite W. case_bool_decide as L.
  - assert (Z0 : sum_list_with spins (producers q) = 0) by (destruct (decide (0 < sum_list_with spins (producers q))); [rewrite K3 in K2 by done; lia|lia]).
    rewrite Z0 in K2. assert (I : Z.to_nat (write_index_ q) = length (claimed q)) by lia. rewrite I.
    destruct mem as [buf|].
    2:{ destruct K9 as (_ & _ & _ & G). lia. }
    destruct K9 as (M1 & M2 & M3 & M4 & M5 & M6).
    split; cbn; rewrite ?S, ?Z0, ?length_app, ?length_insert; cbn; try done; try lia.
    + eapply unique_insert; [done..|]. intros i [= <-]. right. intros k s Ek Si. specialize (K10 k s Ek).
      destruct s; cbn in *; simplify_eq; [destruct K10 as [K10%lookup_lt_Some _]|destruct K10 as (_ & ? & ? & _ & K10%lookup_lt_Some & _)|]; lia.
    + by rewrite take_app_le by lia.
    + intros Hb. destruct (K8 Hb); [by left|right; lia].
    + split_and!; try done. by apply cells_ok_app.
    + intros k s Ek. apply list_lookup_insert_Some in Ek as [(<- & <- & _)|(N & Ek)]; [|apply producer_ok_app; eauto].
      cbn. split; [by rewrite list_lookup_middle|]. exists buf. split; [done|]. eapply unclaimed_zero; [done|lia].
  - split; cbn; rewrite ?S, ?length_insert; cbn; try done; try lia.
    + eapply unique_insert; [done..|]. intros i. cbn. done.
    + intros k s Ek. apply list_lookup_insert_Some in Ek as [(<- & <- & _)|(N & Ek)]; [done|eauto].
Qed.

(** The consumer. *)
Lemma TryPop_ok n mem q : qb_ok n mem q -> broken q = false -> exists mem', qb_ok n mem' (TryPop q).
Proof.
  intros K BR. pose proof (popped_le _ _ _ K) as PL. pose proof HSZ as SL.
  destruct K as [K1 K2 K3 K4 K5 K6 K7 K8 K9 K10]. unfold TryPop. destruct mem as [buf|].
  2:{ exists None. destruct K9 as (M1 & M2 & M3 & M4). rewrite M3, M2. cbn. split; try done. }
  destruct K9 as (M1 & M2 & M3 & M4 & M5 & M6).
  assert (R : match current_read_buffer_ q with Some b => Some b | None => head (buffers_ q) end = Some 0)
    by (destruct M3 as [->| ->]; [by rewrite M2|done]).
  rewrite R, M1. cbn. destruct (lookup_lt_is_Some_2 (write_state_ buf) (read_index_ q)) as [z Ez];
    [rewrite (co_states _ _ _ M6); lia|]. rewrite Ez.
  destruct (decide (z = 0%Z)) as [->|Nz].
  { exists (Some buf). split; try done. split_and!; try done. by right. }
  destruct (co_shows _ _ _ M6 (read_index_ q) z (ltac:(lia)) Ez) as [?|(Z12 & v & C & I)]; [done|].
  assert (TL : take (S (length (popped q))) (claimed q) = popped q ++ [v])
    by (rewrite <- M4, (take_S_r _ _ v), M4, <- K7; done).
  assert (P' : popped q ++ [v] = take (length (popped q ++ [v])) (claimed q))
    by (rewrite length_app; cbn; by rewrite Nat.add_1_r, TL).
  assert (C' : cells_ok (claimed q) (length (popped q ++ [v])) buf).
  { destruct M6 as [C1 C2 CL C3 C4]. split; [done..|]. rewrite length_app; cbn. intros i L Hi.
    destruct (decide (i = read_index_ q)) as [->|Ni]; [congruence|]. apply (C4 i); [lia|done]. }
  replace (match z with 0%Z => _ | _ => _ end) with
    (match items buf !! read_index_ q with
     | Some (Some v) =>
         if decide (S (read_index_ q) = SZ)
         then mkQB (<[0 := None]> (heap q)) (tail (buffers_ q)) (current_write_buffer_ q) None (write_index_ q) 0
                (producers q) (claimed q) (popped q ++ [v]) (broken q)
         else mkQB (heap q) (buffers_ q) (current_write_buffer_ q) (Some 0) (write_index_ q) (S (read_index_ q))
                (producers q) (claimed q) (popped q ++ [v]) (broken q)
     | _ => breaks q end) by (rewrite M1; by destruct z).
  rewrite I. case_decide as D; [exists None|exists (Some buf)]; split; unfold memory_ok; cbn; try done.
  - by left.
  - rewrite M1, M2, length_app. cbn. split_and!; [done..|]. lia.
  - intros p st E. specialize (K10 p st E). rewrite length_app in C'; cbn in C'.
    destruct st as [|w i|i b|i b| |w]; cbn in *; try done.
    + destruct K10 as (Cl & b & [= <-] & Hz). destruct (co_taken _ _ _ C' i); [apply lookup_lt_Some in Cl; lia|done].
    + destruct K10 as (_ & b' & w & [= <-] & Cl & Hz & _). destruct (co_taken _ _ _ C' i); [apply lookup_lt_Some in Cl; lia|done].
    + split_and!; [apply K10..|done].
  - rewrite M1, length_app in *. cbn in *. split_and!; try done; try lia. by right.
Qed.

(** The other accesses of Push. *)
Lemma produce_ok n mem q p q' : qb_ok n mem q -> produce p q = Some q' -> exists mem', qb_ok n mem' q'.
Proof.
  intros K. unfold produce. pose proof HSZ as SL. destruct (producers q !! p) as [st|] eqn:E; [|done].
  pose proof (qk_producers _ _ _ K p st E) as P. destruct st as [|v i|i b|i b| |v]; cbn in P; try done.
  - destruct P as (C & buf & -> & Z0). rewrite (qk_current _ _ _ K).
    destruct (qk_memory _ _ _ K) as (M1 & _ & _ & _ & _ & M6). rewrite M1 at 1. cbn [lookup list_lookup].
    intros [= <-]. case_decide as D.
    2: { exists (Some buf). rewrite (co_items _ _ _ M6) in D. apply lookup_lt_Some in C. destruct K. split; try done.
         intros _. right. cbn. lia. }
    exists (Some (construct i v buf)). eapply slot_step; try done; [by left|..].
    + intros j N. cbn. by rewrite list_lookup_insert_ne.
    + by apply cells_ok_construct.
    + cbn. split; [done|]. exists (construct i v buf), v. split_and!; try done. cbn. by apply list_lookup_insert_eq.
  - destruct P as (-> & buf & v & -> & C & Z0 & I). intros [= <-].
    destruct (qk_memory _ _ _ K) as (M1 & _ & _ & _ & _ & M6).
    exists (Some (store i 1 buf)). eapply slot_step; try done; [by left|..].
    + intros j N. cbn. by rewrite list_lookup_insert_ne.
    + eapply cells_ok_store; eauto using qk_claimed.
    + cbn. split_and!; [done|by apply lookup_lt_Some in C|]. intros ? [= <-]. cbn. apply list_lookup_insert_eq.
      by apply lookup_lt_Some in Z0.
  - destruct P as (-> & L & H). destruct (qk_memory _ _ _ K) as (M1 & M). rewrite M1. cbn. destruct mem as [buf|].
    + destruct M as (_ & _ & _ & _ & M6). pose proof (H buf eq_refl) as E1. rewrite E1. cbn. intros [= <-].
      rewrite decide_False by (change (u32 (1 + 1)) with 2%Z; lia).
      destruct (co_shows _ _ _ M6 i 1%Z (ltac:(pose proof (qk_claimed _ _ _ K); lia)) E1) as [?|(_ & v & C & I)]; [done|].
      exists (Some (store i (u32 (1 + 1)) buf)). eapply slot_step; try done; [by right|..].
      * intros j N. cbn. by rewrite list_lookup_insert_ne.
      * eapply cells_ok_store; eauto using qk_claimed.
    + intros [= <-]. exists None. destruct K. split; try done. by left.
  - intros [= <-]. exists mem. rewrite decide_True; [done|].
    rewrite (qk_write _ _ _ K), (qk_full _ _ _ K (spinning_counted _ _ _ E)). lia.
Qed.

Lemma bstep_ok n mem q e q' : (Z.of_nat n + Z.of_nat SZ < 2 ^ 32 - 1)%Z -> qb_ok n mem q -> bstep e q = Some q' ->
  exists mem', qb_ok n mem' q'.
Proof.
  intros B K. unfold bstep. destruct (broken q) eqn:BR; [done|]. destruct e as [p v|p|].
  - destruct (producers q !! p) as [[]|] eqn:E; try done. intros [= <-]. exists mem. by eapply take_slot_ok.
  - by eapply produce_ok.
  - intros [= <-]. by eapply TryPop_ok.
Qed.

Lemma brun_ok n mem q es : (Z.of_nat n + Z.of_nat SZ < 2 ^ 32 - 1)%Z -> qb_ok n mem q -> exists mem', qb_ok n mem' (brun es q).
Proof.
  intros B. revert mem q. induction es as [|e es IH]; intros mem q K; cbn; [by exists mem|].
  destruct (bstep e q) as [q'|] eqn:E; cbn; [|by eapply IH]. edestruct bstep_ok as [mem' K']; [done..|]. by eapply IH.
Qed.

Lemma QueueBuffer_new_ok n : write_state_ new_buffer = replicate (S SZ) 0%Z -> qb_ok n (Some new_buffer) (QueueBuffer_new n).
Proof.
  intros NB. unfold QueueBuffer_new, SetupNextWriteBuffer. pose proof HSZ as SL.
  assert (S : sum_list_with spins (replicate n Ready) = 0) by (induction n; cbn; lia).
  split; cbn; rewrite ?S, ?length_replicate; try done; try lia.
  - intros p p' st st' i (-> & _)%lookup_replicate. done.
  - unfold memory_ok; cbn. split_and!; [done|done|by left|done|lia|]. split; rewrite ?NB.
    + by rewrite length_replicate.
    + done.
    + apply (lookup_replicate (Datatypes.S SZ)). split; [done|lia].
    + intros i z _ H. apply (lookup_replicate (Datatypes.S SZ)) in H as [-> _]. by left.
    + intros i L. cbn in L. lia.
  - intros p st (-> & _)%lookup_replicate. done.
Qed.

(** A producer that waits stays waiting. *)
Lemma spinning_stays n mem q p v es : (Z.of_nat n + Z.of_nat SZ < 2 ^ 32 - 1)%Z -> qb_ok n mem q ->
  producers q !! p = Some (Spinning v) -> producers (brun es q) !! p = Some (Spinning v).
Proof.
  intros B. revert mem q. induction es as [|e es IH]; intros mem q K E; cbn; [done|].
  destruct (bstep e q) as [q'|] eqn:S; cbn; [|by eapply IH]. edestruct bstep_ok as [mem' K']; [done..|].
  eapply IH; [done|]. revert S. unfold bstep. destruct (broken q); [done|]. destruct e as [p' w|p'|].
  - destruct (producers q !! p') as [[]|] eqn:E'; try done. intros [= <-]. cbn.
    rewrite list_lookup_insert_ne; [done|]. intros ->. congruence.
  - unfold produce. destruct (producers q !! p') as [st|] eqn:E'; [|done].
    assert (N : p' = p -> st = Spinning v) by (intros ->; congruence).
    assert (G : forall s q0, producers q0 = producers q -> p' <> p -> producers (set_producer p' s q0) !! p = Some (Spinning v))
      by (intros s q0 E0 Np; cbn; rewrite E0; by rewrite list_lookup_insert_ne).
    assert (O : forall b f, producers (on_buffer b f q) = producers q) by (intros; unfold on_buffer; by repeat case_match).
    destruct st as [|x i|i b|i b| |x]; try done.
    + destruct (heap q !! _) as [[buf|]|]; [|by intros [= <-]..]. intros [= <-]. case_decide; [|done].
      apply G; [apply O|intros F; by specialize (N F)].
    + intros [= <-]; apply G; [apply O|intros F; by specialize (N F)].
    + destruct (heap q !! b) as [[buf|]|]; [|by intros [= <-]..]. destruct (write_state_ buf !! i); [|done]. cbn.
      intros [= <-]. apply G; [apply O|intros F; by specialize (N F)].
    + intros [= <-]. apply G; [done|intros F; by specialize (N F)].
    + intros [= <-]. rewrite decide_True; [done|].
      rewrite (qk_write _ _ _ K), (qk_full _ _ _ K (spinning_counted _ _ _ E)). lia.
  - intros [= <-]. unfold TryPop. repeat case_match; try done; by rewrite E.
Qed.

(** C15: Take any buffer whose counters start at 0, with any number of items behind
    [buffer_], and no more than 2^32 producers and slots.  Whatever the order in which the
    producers and the consumer run, the consumer takes the values in the order of the
    slots they got; memory is misused only when a slot is given out that there is no
    memory for, or after the consumer has taken the last slot.  And the linked buffer
    never gets its second buffer, and Full never says that the first is full: at most
    [SIZE] values ever get a slot, and with all slots given out, a producer that starts a
    Push waits for ever. *)
Theorem queue_buffer_fills_once (n : nat) (es : list bevent) :
  write_state_ new_buffer = replicate (S SZ) 0%Z -> (Z.of_nat n + Z.of_nat SZ < 2 ^ 32 - 1)%Z ->
  let q := brun es (QueueBuffer_new n) in
  popped q `prefix_of` claimed q /\ length (claimed q) <= SZ /\ length (heap q) = 1
  /\ (broken q = true ->
        length (items new_buffer) < length (claimed q) \/ popped q = claimed q /\ length (popped q) = SZ)
  /\ (forall buf, heap q = [Some buf] -> Full buf = false)
  /\ (forall p v, length (claimed q) = SZ -> broken q = false -> producers q !! p = Some Ready ->
       exists q', bstep (Pushes p v) q = Some q' /\ forall es', producers (brun es' q') !! p = Some (Spinning v)).
Proof.
  intros NB B q. destruct (brun_ok n _ (QueueBuffer_new n) es B (QueueBuffer_new_ok n NB)) as [mem K]. fold q in K.
  pose proof (popped_le _ _ _ K) as PL. pose proof (qk_claimed _ _ _ K) as CL. pose proof (qk_memory _ _ _ K) as [M1 M2].
  split_and!; [rewrite (qk_popped _ _ _ K); apply prefix_take|done|by rewrite M1| | |].
  - intros BR. destruct (qk_broken _ _ _ K BR) as [Em|]; [right|by left]. rewrite Em in M2. destruct M2 as (_ & _ & L). split; [|done].
    rewrite (qk_popped _ _ _ K), take_ge; [done|lia].
  - intros buf E. rewrite M1 in E. injection E as ->. destruct M2 as (_ & _ & _ & _ & C). unfold Full.
    rewrite (co_last _ _ _ C). apply bool_decide_eq_false. change (u32 (0 + 1)) with 1%Z. lia.
  - intros p v FU BR E. exists (take_slot p v q). unfold bstep. rewrite BR, E. split; [done|]. intros es'.
    eapply (spinning_stays n mem); [done|by eapply take_slot_ok|].
    unfold take_slot. rewrite bool_decide_eq_false_2 by (rewrite (qk_write _ _ _ K); lia). cbn.
    apply list_lookup_insert_eq. by apply lookup_lt_Some in E.
Qed.
End queue_buffer.

Module Examples.
(** A buffer with memory for [slots] items. *)
Definition with_memory (SZ slots : nat) : Buffer := mkBuffer (T := nat) (replicate slots None) (replicate (S SZ) 0%Z).

Lemma queue_buffer_fills_once_witness :
  let q := brun SIZE (with_memory SIZE SIZE) [Pushes 0 7; Produces 0; Produces 0; Produces 0; Pops] (QueueBuffer_new (with_memory SIZE SIZE) 2) in
  popped q `prefix_of` claimed q.
Proof.
  assert (H : 2 < SIZE) by (apply Nat.ltb_lt; vm_compute; reflexivity).
  assert (B : (Z.of_nat 2 + Z.of_nat SIZE < 2 ^ 32 - 1)%Z) by (unfold SIZE; rewrite Z2Nat.id; lia).
  apply (queue_buffer_fills_once SIZE (with_memory SIZE SIZE) H 2 _ eq_refl B).
Defined.

(** What a producer does to push one value when slots are left. *)
Definition pushes (p v : nat) : list bevent := [Pushes p v; Produces p; Produces p; Produces p].

(** Three slots, two producers: the consumer takes what was pushed, the fourth value is
    never accepted. *)
Example fourth_value_waits :
  let q := brun 3 (with_memory 3 3) (pushes 0 1 ++ pushes 1 2 ++ pushes 0 3 ++ [Pops; Pops; Pops] ++ pushes 0 4) (QueueBuffer_new (with_memory 3 3) 2) in
  popped q = [1; 2; 3] /\ producers q = [Spinning 4; Ready] /\ heap q = [None] /\ broken q = false.
Proof. vm_compute. done. Qed.

(** The consumer takes the last value, which destroys the buffer, before the producer's
    last access to it. *)
Example counter_of_a_destroyed_buffer :
  let q := brun 3 (with_memory 3 3) (pushes 0 1 ++ pushes 0 2 ++ [Pushes 0 3; Produces 0; Produces 0; Pops; Pops; Pops; Produces 0])
             (QueueBuffer_new (with_memory 3 3) 1) in
  popped q = [1; 2; 3] /\ broken q = true.
Proof. vm_compute. done. Qed.

(** As the source is, nothing was allocated: the first Push breaks. *)
Example no_memory :
  broken (brun 3 (with_memory 3 0) (pushes 0 1) (QueueBuffer_new (with_memory 3 0) 1)) = true.
Proof. vm_compute. done. Qed.
End Examples.
